(* ===== verification/_CoqProject ===== *)
-Q . S2P
Prelude.v
Bytes.v
Types.v
LogicalTypes.v
Values.v
Floats.v
Evaluators.v
Memcomparable.v
TupleCodec.v
TableCodec.v
Lru.v
Sort.v
RangeDetacher.v
Join.v
CmSketch.v
KvStore.v
Cache.v
Catalog.v
Cast.v
Storage.v
Readers.v
TableStore.v
Text.v
Expression.v
ExprTyping.v
Simplify.v
Detach.v
Aggregates.v
Executors.v
Dml.v
Ddl.v
