(* ===== verification/Prelude.v ===== *)
(** * KiteSQL: a verification library

    KiteSQL is an embedded SQL database: SQL text is bound to a plan, the plan
    is rewritten by an optimizer and run by executors, which read and write
    tables through transactions on an ordered key-value store. This library
    models the parts that carry data through that pipeline and proves what they
    promise to each other. Paths below are under src/src/.

    ** Parts and files

    - Prelude.v (this file): results with errors and panics, machine integers,
      [Bound], shared notation, tactics and lemmas. Bytes.v: byte strings, their
      lexicographic order, big and little-endian encodings.
    - Types.v: [LogicalType], [DataValue], operators, errors (types/mod.rs,
      types/value.rs, expression/mod.rs, errors.rs) and the class [Foreign] of
      what third-party crates provide (decimals, instants, hashes), with
      [ForeignLaws] and a computable instance [RefForeign].
    - LogicalTypes.v: common types and implicit casts (types/mod.rs). Values.v:
      equality, order, lengths, packed times (types/value.rs). Floats.v: IEEE
      arithmetic on bit patterns. Evaluators.v: the unary and binary evaluators
      and their factory (types/evaluator/). Cast.v: [DataValue::cast].
    - Memcomparable.v: order-preserving key encoding (types/value.rs).
      TupleCodec.v: the row format (types/tuple.rs, [to_raw], [from_raw]).
      TableCodec.v: key layout and scan bounds (storage/table_codec.rs).
    - KvStore.v: the interface [Transaction] of a key-value store with its laws
      [TransactionLaws] and the RocksDB binding that satisfies them
      (storage/rocksdb.rs). Lru.v: the LRU cache with its raw pointers
      (utils/lru.rs). Cache.v: the interface [Cache] the storage uses, with the
      LRU cache as an instance. Catalog.v: columns, index descriptions, tables
      (catalog/, types/index.rs).
    - Storage.v: the methods of a transaction (storage/mod.rs), a state monad
      over the store and the three caches. Readers.v: the sequential and the
      index reader (storage/mod.rs). TableStore.v: tables as finite maps, the
      specification the storage of rows refines.
    - Text.v: texts of values, types and operators (their Display impls).
      Expression.v: expression trees, their methods, [eval], the mutable visitor,
      [BindEvaluator] and [TryReference] (expression/mod.rs, evaluator.rs,
      visitor_mut.rs); ExprTyping.v: its typing theorem. Simplify.v:
      [ConstantCalculator] and [Simplify] (expression/simplify.rs).
    - RangeDetacher.v: merging of index ranges; Detach.v: the range a predicate
      yields (expression/range_detacher.rs).
    - Sort.v, Join.v, Aggregates.v: the sort, join and aggregation executors;
      Executors.v: those that pass tuples on, such as filter, projection and
      limit (execution/dql/). Dml.v: INSERT, UPDATE and DELETE (execution/dml/).
      Ddl.v: the statements on tables, columns, indexes and views
      (execution/ddl/) and the listings of the catalog. CmSketch.v: the
      count-min sketch of the statistics (optimizer/core/cm_sketch.rs).

    ** How the model corresponds to the code

    A function of the code is a function here with its name; a mutating method
    takes and returns its state, and an operation of the storage returns the
    state it leaves also when it fails. [Err] is an error of [DatabaseError]
    (payloads of library errors are dropped); [Panic] is a panic: an index out
    of range, [unwrap] of [None], [unreachable!], a failed [debug_assert!], an
    arithmetic overflow that a debug build reports. The exception is
    [extract_merge_ranges], modelled as the release build runs it. Integers are
    [Z] with their width written out, floats are their bit patterns, strings are
    byte lists. Hash maps are [gmap]s where their order is not observed and
    association lists where it is; the one of the LRU cache is a list of the raw
    pointers the code has as its keys, which every lookup reads. Code of third-party crates is a parameter:
    the classes [Foreign], [CastForeign], [TextForeign], [ExprForeign] and
    [RocksDb], whose laws state documented behaviour and have computable
    instances, used by the witnesses.
    The serializers of the catalog records are the class [CatalogCodec].

    Recursion is structural wherever the code's loop consumes a list. Fuel is
    used by the printers of numbers, where the fuel is the number's bit length,
    and by [extract_merge_ranges], which does not terminate on every input: its
    theorems state the fuel that is enough, or that none is. [simplify] takes
    fuel because it visits expressions it has built; its theorems state the fuel
    that is enough. Draining a reader
    takes a number of calls; the theorems give one that suffices.

    ** What the theorems show

    The statement of each theorem says under which conditions it holds; the
    main ones are given here.

    - Encoding: rows and their projections survive a round trip, for values their
      columns store as they are ([column_ok]: in range, CHAR values without the
      trailing spaces that are cut off); keys of fixed-width values sort like the
      values, alone and in tuples; the keys of different tables and kinds lie in
      disjoint ranges. Keys of strings do not sort like the strings behind a
      table's prefix, which [string_key_order_broken] shows.
    - Storage: the rows of a table refine a finite map under inserts, overwrites
      and deletes, and reading lists the map in key order, for tables whose
      primary key is one integer column; dropping a table removes exactly the
      keys it owns; the readers return the window of rows the bounds ask for;
      range scans of the RocksDB binding are exact; an equality scan of an index
      on fixed-width values finds the entries of the value and no others; a new
      table catalog is consistent and has the primary keys its columns declare.
    - Statements: INSERT, UPDATE and DELETE act on that map as their rows and
      assignments, specified without the executors' code, say, on tables without
      UNIQUE indexes; CREATE INDEX indexes every row; ADD COLUMN and DROP COLUMN
      rewrite every row.
    - Values: evaluators and casts give values of their type, element by element
      in tuples; comparisons are true exactly for the outcomes of the value order
      their operators stand for; casts of integers are checked and invert through
      text.
    - Expressions: a bound expression evaluates to a value of the type it
      announces; moving a constant across a comparison on an INTEGER column and
      expanding IN and BETWEEN keep the value of a predicate; the range detached
      from a conjunction contains every value that satisfies it, if the ranges of
      its conjuncts that are not comparisons of the column do, and no other when
      all are such comparisons.
    - Execution: the hash join and the nested loop join return the rows of a
      reference join; hash aggregation aggregates each group, sums and averages
      of integers are exact or an error, MIN and MAX are extrema; LIMIT is a
      window; radix sort and comparison sort are stable sorts by orders stated
      without their code; merging ranges of comparable values under AND and OR
      keeps the values, where it returns.
    - Cache and statistics: the pointer-based LRU cache refines a list and never
      follows a dangling pointer; dropping it frees every node on the list;
      estimates never undercount.
    - Some lemmas state what the code does where it departs from its purpose:
      an index scan that stops at a missing key, ranges lost or diverging in a
      merge, filters in outer hash joins, predicates changed by simplification,
      ranges a predicate does not imply, index entries of INSERT taken from
      other columns, rows rewritten by a statement that is then refused. They
      are listed as findings.

    ** Not modelled, and the plan

    The binder and the SQL parser's syntax trees, plan data types and the
    optimizer's rules, histograms, ANALYZE and COPY, the reference serialization
    ([CatalogCodec] stands for it), the server and the language bindings. Next
    are the serializers, histograms, rows with character and composite keys, and
    UNIQUE indexes in the statements. *)

From Stdlib Require Export ZArith Lia.
From stdpp Require Export base numbers option list.

#[global] Open Scope Z_scope.

(** ** Results

    A Rust computation of type [Result<A, E>] either returns [Ok], returns
    [Err], or panics (an index out of range, [unwrap] of [None], [unreachable!],
    a division by zero). *)

Inductive result (E A : Type) : Type :=
| Ok (a : A)
| Err (e : E)
| Panic.
Arguments Ok {E A} a.
Arguments Err {E A} e.
Arguments Panic {E A}.

Definition result_bind {E A B} (m : result E A) (k : A -> result E B) : result E B :=
  match m with
  | Ok a => k a
  | Err e => Err e
  | Panic => Panic
  end.

Declare Scope kite_scope.
Delimit Scope kite_scope with kite.
Notation "'let?' x ':=' m 'in' k" := (result_bind m (fun x => k))
  (at level 10, x binder, m at level 100, k at level 200) : kite_scope.
#[global] Open Scope kite_scope.

(** [Option::ok_or] and [Option::unwrap]. *)
Definition ok_or {E A} (o : option A) (e : E) : result E A :=
  match o with Some a => Ok a | None => Err e end.
Definition unwrap {E A} (o : option A) : result E A :=
  match o with Some a => Ok a | None => Panic end.

(** [Result::ok]: [None] on an error; a panic is not caught. *)
Definition result_ok {E A} (m : result E A) : option A :=
  match m with Ok a => Some a | _ => None end.

(** [for x in l { f(x)? }] collecting the results: stops at the first error. *)
Fixpoint try_map {E A B} (f : A -> result E B) (l : list A) : result E (list B) :=
  match l with
  | [] => Ok []
  | x :: l' =>
      let? y := f x in
      let? ys := try_map f l' in
      Ok (y :: ys)
  end.

Fixpoint try_fold {E A B} (f : B -> A -> result E B) (l : list A) (b : B) : result E B :=
  match l with
  | [] => Ok b
  | x :: l' => let? b' := f b x in try_fold f l' b'
  end.

(** ** Machine integers

    A [w]-bit unsigned integer is a [Z] in [0, 2^w); a signed one a [Z] in
    [-2^(w-1), 2^(w-1)).  Casts with [as] wrap. *)

Definition in_u (w z : Z) : bool := (0 <=? z) && (z <? 2 ^ w).
Definition in_i (w z : Z) : bool := (- 2 ^ (w - 1) <=? z) && (z <? 2 ^ (w - 1)).
Definition as_u (w z : Z) : Z := z mod 2 ^ w.
Definition as_i (w z : Z) : Z := (z + 2 ^ (w - 1)) mod 2 ^ w - 2 ^ (w - 1).

Definition usize_bits : Z := 64.
Definition usize_max : Z := 2 ^ 64 - 1.
Definition saturating_add_usize (a b : Z) : Z := Z.min (a + b) usize_max.
Definition saturating_sub_usize (a b : Z) : Z := Z.max (a - b) 0.

(** ** Bounds *)

(** [std::collections::Bound]. *)
Module Bound.
Inductive Bound A := Included (a : A) | Excluded (a : A) | Unbounded.
Arguments Included {A} a.
Arguments Excluded {A} a.
Arguments Unbounded {A}.
End Bound.
Abbreviation Bound := Bound.Bound.

(** ** Orderings

    Rust's [Ordering] is Rocq's [comparison]. *)

Definition cmp_then (o1 o2 : comparison) : comparison :=
  match o1 with Eq => o2 | _ => o1 end.
Definition is_lt (o : comparison) : bool := match o with Lt => true | _ => false end.
Definition is_gt (o : comparison) : bool := match o with Gt => true | _ => false end.
Definition is_le (o : comparison) : bool := negb (is_gt o).
Definition is_ge (o : comparison) : bool := negb (is_lt o).
Definition bool_cmp (a b : bool) : comparison :=
  match a, b with
  | false, true => Lt
  | true, false => Gt
  | _, _ => Eq
  end.

(** ** Automation *)

Create HintDb kite.


(** Split every boolean conjunction and comparison of the context into the
    arithmetic facts [lia] reads. *)
Ltac bool_to_prop :=
  repeat match goal with
  | H : (_ && _)%bool = true |- _ => apply andb_prop in H; destruct H
  | H : (_ || _)%bool = false |- _ => apply orb_false_elim in H; destruct H
  | H : (_ <=? _) = true |- _ => apply Z.leb_le in H
  | H : (_ <=? _) = false |- _ => apply Z.leb_gt in H
  | H : (_ <? _) = true |- _ => apply Z.ltb_lt in H
  | H : (_ <? _) = false |- _ => apply Z.ltb_ge in H
  | H : (_ =? _) = true |- _ => apply Z.eqb_eq in H
  | H : (_ =? _) = false |- _ => apply Z.eqb_neq in H
  | H : negb _ = true |- _ => apply negb_true_iff in H
  | H : negb _ = false |- _ => apply negb_false_iff in H
  end.

Lemma Ok_inj {E A} (a b : A) : @Ok E A a = Ok b -> a = b.
Proof. congruence. Qed.

(** Invert a successful step of a [let?] chain. *)
Ltac inv_ok :=
  repeat match goal with
  | H : Ok _ = Ok _ |- _ => apply Ok_inj in H; subst
  | H : (_, _) = (_, _) |- _ => apply pair_equal_spec in H as [? ?]; subst
  | H : Err _ = Ok _ |- _ => discriminate H
  | H : Panic = Ok _ |- _ => discriminate H
  | H : result_bind ?m _ = Ok _ |- _ =>
      let E := fresh "Hok" in
      destruct m eqn:E; cbn [result_bind] in H; [| discriminate H | discriminate H]
  | H : (let (_, _) := ?p in _) = Ok _ |- _ => destruct p
  end.

(** Membership in lists built with [::] and [++]. *)
Ltac elem := cbn; repeat (rewrite elem_of_cons || rewrite elem_of_app); tauto.

(** ** Lemmas on machine integers *)

Lemma in_u_iff w z : in_u w z = true <-> 0 <= z < 2 ^ w.
Proof. unfold in_u. rewrite andb_true_iff, Z.leb_le, Z.ltb_lt. lia. Qed.

Lemma in_i_iff w z : in_i w z = true <-> - 2 ^ (w - 1) <= z < 2 ^ (w - 1).
Proof. unfold in_i. rewrite andb_true_iff, Z.leb_le, Z.ltb_lt. lia. Qed.

Lemma as_u_range w z : 0 <= w -> 0 <= as_u w z < 2 ^ w.
Proof. intros; unfold as_u; apply Z.mod_pos_bound, Z.pow_pos_nonneg; lia. Qed.

Lemma as_u_small w z : 0 <= z < 2 ^ w -> as_u w z = z.
Proof. intros; unfold as_u; now apply Z.mod_small. Qed.

Lemma pow2_half w : 0 < w -> 2 ^ w = 2 * 2 ^ (w - 1).
Proof. intros. replace w with (Z.succ (w - 1)) at 1 by lia. rewrite Z.pow_succ_r; lia. Qed.

Lemma as_i_range w z : 0 < w -> - 2 ^ (w - 1) <= as_i w z < 2 ^ (w - 1).
Proof.
  intros Hw. unfold as_i.
  pose proof (Z.mod_pos_bound (z + 2 ^ (w - 1)) (2 ^ w) ltac:(apply Z.pow_pos_nonneg; lia)).
  rewrite (pow2_half w) in * by lia. lia.
Qed.

Lemma as_i_small w z : 0 < w -> - 2 ^ (w - 1) <= z < 2 ^ (w - 1) -> as_i w z = z.
Proof.
  intros Hw Hz. unfold as_i. rewrite Z.mod_small; [lia |]. rewrite (pow2_half w); lia.
Qed.

Lemma as_i_as_u w z : 0 < w -> - 2 ^ (w - 1) <= z < 2 ^ (w - 1) -> as_i w (as_u w z) = z.
Proof.
  intros Hw Hz. unfold as_i, as_u. rewrite Zplus_mod_idemp_l. now apply as_i_small.
Qed.

(** The unsigned image of a signed integer: non-negative values are kept,
    negative ones are shifted up by [2^w]. *)
Lemma as_u_signed w z :
  0 < w -> - 2 ^ (w - 1) <= z < 2 ^ (w - 1) ->
  as_u w z = if z <? 0 then z + 2 ^ w else z.
Proof.
  intros Hw Hz. unfold as_u. rewrite (pow2_half w) by lia.
  destruct (z <? 0) eqn:E; bool_to_prop.
  - symmetry. apply Z.mod_unique with (q := -1); lia.
  - apply Z.mod_small; lia.
Qed.

(** ** Lemmas on results and lists *)

Lemma result_bind_ok {E A B} (m : result E A) (k : A -> result E B) b :
  result_bind m k = Ok b <-> exists a, m = Ok a /\ k a = Ok b.
Proof.
  split; [destruct m; cbn; intros; try discriminate; eauto | intros (a & -> & H); exact H].
Qed.

Lemma try_map_ok {E A B} (f : A -> result E B) (g : A -> B) l :
  (forall x, x ∈ l -> f x = Ok (g x)) -> try_map f l = Ok (map g l).
Proof.
  induction l as [|x l IH]; intros Hf; cbn; [reflexivity |].
  rewrite (Hf x) by apply list_elem_of_here. cbn.
  rewrite IH; [reflexivity |]. intros y Hy. apply Hf. now apply list_elem_of_further.
Qed.

Lemma try_map_length {E A B} (f : A -> result E B) l ys :
  try_map f l = Ok ys -> length ys = length l.
Proof.
  revert ys. induction l as [|x l IH]; cbn; intros ys H; inv_ok; cbn; [reflexivity |].
  f_equal. now apply IH.
Qed.

Lemma filter_none {A} (P : A -> Prop) `{!forall x, Decision (P x)} (l : list A) :
  (forall x, x ∈ l -> ~ P x) -> filter P l = [].
Proof.
  induction l as [|x l IH]; intros HP; [reflexivity |].
  rewrite filter_cons_False by (apply HP, list_elem_of_here). apply IH.
  intros y Hy. apply HP. now apply list_elem_of_further.
Qed.

Lemma cmp_then_eq o1 o2 : cmp_then o1 o2 = Eq <-> o1 = Eq /\ o2 = Eq.
Proof. destruct o1; cbn; intuition discriminate. Qed.

Lemma bool_cmp_eq a b : bool_cmp a b = Eq <-> a = b.
Proof. destruct a, b; cbn; intuition discriminate. Qed.

#[export] Hint Resolve as_u_range as_i_range : kite.
