(* ===== verification/Bytes.v ===== *)
(** * Byte strings

    Byte slices as lists of [Z] in [0, 256), the lexicographic order of Rust's
    [Ord for [u8]] (the order RocksDB iterates keys in), and the fixed-width
    big-endian and little-endian integer encodings ([to_be_bytes],
    [to_le_bytes] and the [byteorder] readers and writers).  Every codec file
    uses the round-trip and order lemmas of this file. *)

From S2P Require Import Prelude.

Abbreviation bytes := (list Z).
Definition is_byte (b : Z) : Prop := 0 <= b < 256.
Definition is_bytes (bs : bytes) : Prop := Forall is_byte bs.

(** Lexicographic comparison; a proper prefix is smaller. *)
Fixpoint lex_cmp (a b : bytes) : comparison :=
  match a, b with
  | [], [] => Eq
  | [], _ :: _ => Lt
  | _ :: _, [] => Gt
  | x :: a', y :: b' => cmp_then (Z.compare x y) (lex_cmp a' b')
  end.

(** [to_be_bytes] and [to_le_bytes] of an unsigned integer of [n] bytes. *)
Fixpoint be_bytes (n : nat) (z : Z) : bytes :=
  match n with
  | O => []
  | S n' => (z / 256 ^ Z.of_nat n') mod 256 :: be_bytes n' z
  end.

Fixpoint le_bytes (n : nat) (z : Z) : bytes :=
  match n with
  | O => []
  | S n' => z mod 256 :: le_bytes n' (z / 256)
  end.

Fixpoint of_le (bs : bytes) : Z :=
  match bs with
  | [] => 0
  | b :: bs' => b + 256 * of_le bs'
  end.

(** Bitwise complement of every byte (the descending key of a sort field). *)
Definition complement (bs : bytes) : bytes := map (fun b => Z.lxor b 255) bs.

(** ** Order of byte strings *)

Lemma lex_cmp_refl a : lex_cmp a a = Eq.
Proof. induction a as [|x a IH]; cbn; [reflexivity |]. now rewrite Z.compare_refl. Qed.

Lemma lex_cmp_eq a b : lex_cmp a b = Eq <-> a = b.
Proof.
  split; [| intros ->; apply lex_cmp_refl].
  revert b; induction a as [|x a IH]; destruct b as [|y b]; cbn; try discriminate; auto.
  rewrite cmp_then_eq, Z.compare_eq_iff. intros [-> H]. f_equal; auto.
Qed.

Lemma lex_cmp_antisym a b : lex_cmp b a = CompOpp (lex_cmp a b).
Proof.
  revert b; induction a as [|x a IH]; destruct b as [|y b]; cbn; auto.
  rewrite (Z.compare_antisym x y), IH. now destruct (x ?= y).
Qed.

Lemma lex_cmp_trans a b c : lex_cmp a b = Lt -> lex_cmp b c = Lt -> lex_cmp a c = Lt.
Proof.
  revert b c; induction a as [|x a IH]; destruct b as [|y b]; destruct c as [|z c]; cbn;
    try discriminate; auto.
  destruct (Z.compare_spec x y), (Z.compare_spec y z), (Z.compare_spec x z);
    cbn; intros; try discriminate; try lia; eauto.
Qed.

Lemma lex_cmp_app p a b : lex_cmp (p ++ a) (p ++ b) = lex_cmp a b.
Proof. induction p as [|x p IH]; cbn; [reflexivity |]. now rewrite Z.compare_refl. Qed.

(** Equal-length heads decide the comparison unless they are equal. *)
Lemma lex_cmp_app_len a b c d :
  length a = length b -> lex_cmp (a ++ c) (b ++ d) = cmp_then (lex_cmp a b) (lex_cmp c d).
Proof.
  revert b; induction a as [|x a IH]; destruct b as [|y b]; cbn; try discriminate; auto.
  intros [= H]. rewrite IH by assumption. now destruct (x ?= y).
Qed.

Lemma lex_cmp_prefix a b : b <> [] -> lex_cmp a (a ++ b) = Lt.
Proof.
  intros Hb. rewrite <- (app_nil_r a) at 1. rewrite lex_cmp_app. now destruct b.
Qed.

(** Two strings whose heads differ strictly are ordered whatever follows. *)
Lemma lex_cmp_app_lt a b c d :
  length a = length b -> lex_cmp a b = Lt -> lex_cmp (a ++ c) (b ++ d) = Lt.
Proof. intros Hl H. now rewrite lex_cmp_app_len, H. Qed.

(** ** Big-endian integers *)

Lemma be_bytes_length n z : length (be_bytes n z) = n.
Proof. induction n; cbn; congruence. Qed.

Lemma be_bytes_is_bytes n z : is_bytes (be_bytes n z).
Proof.
  induction n; cbn; constructor; auto. unfold is_byte. apply Z.mod_pos_bound. lia.
Qed.

Lemma pow256_pos n : 0 < 256 ^ Z.of_nat n.
Proof. apply Z.pow_pos_nonneg; lia. Qed.

Lemma pow256_pow2 n : 256 ^ Z.of_nat n = 2 ^ (8 * Z.of_nat n).
Proof. change 256 with (2 ^ 8). rewrite <- Z.pow_mul_r; f_equal; lia. Qed.

Lemma pow256_succ n : 256 ^ Z.of_nat (S n) = 256 * 256 ^ Z.of_nat n.
Proof. rewrite Nat2Z.inj_succ, Z.pow_succ_r; lia. Qed.

Lemma be_bytes_mod n z : be_bytes n (z mod 256 ^ Z.of_nat n) = be_bytes n z.
Proof.
  assert (H : forall k m w, (m <= k)%nat -> be_bytes m (w mod 256 ^ Z.of_nat k) = be_bytes m w);
    [| now apply H].
  clear n z. induction m as [|m IH]; intros w Hm; cbn; [reflexivity |].
  rewrite IH by lia. f_equal.
  replace (256 ^ Z.of_nat k) with (256 ^ Z.of_nat m * 256 ^ (Z.of_nat k - Z.of_nat m))
    by (rewrite <- Z.pow_add_r by lia; f_equal; lia).
  rewrite Z.rem_mul_r by (try apply Z.pow_nonzero; try lia; apply Z.pow_pos_nonneg; lia).
  rewrite (Z.mul_comm (256 ^ Z.of_nat m)), Z.div_add by (apply Z.pow_nonzero; lia).
  rewrite (Z.div_small (w mod 256 ^ Z.of_nat m)) by (apply Z.mod_pos_bound, pow256_pos).
  rewrite Z.add_0_l.
  replace (256 ^ (Z.of_nat k - Z.of_nat m)) with (256 * 256 ^ (Z.of_nat k - Z.of_nat m - 1))
    by (rewrite <- Z.pow_succ_r by lia; f_equal; lia).
  rewrite Z.rem_mul_r by (try lia; apply Z.pow_pos_nonneg; lia).
  now rewrite Z.mul_comm, Z.mod_add, Z.mod_mod by lia.
Qed.

(** The big-endian encoding of unsigned integers of the same width preserves
    the order. *)
Lemma be_bytes_cmp n x y :
  0 <= x < 256 ^ Z.of_nat n -> 0 <= y < 256 ^ Z.of_nat n ->
  lex_cmp (be_bytes n x) (be_bytes n y) = (x ?= y).
Proof.
  revert x y; induction n as [|n IH]; intros x y Hx Hy.
  { cbn in *. symmetry. apply Z.compare_eq_iff. lia. }
  rewrite pow256_succ in *. cbn [be_bytes lex_cmp].
  pose proof (pow256_pos n) as Hp.
  set (p := 256 ^ Z.of_nat n) in *.
  assert (Hdx : 0 <= x / p < 256) by (split; [apply Z.div_pos | apply Z.div_lt_upper_bound]; lia).
  assert (Hdy : 0 <= y / p < 256) by (split; [apply Z.div_pos | apply Z.div_lt_upper_bound]; lia).
  rewrite !(Z.mod_small (_ / p)) by assumption.
  rewrite <- (be_bytes_mod n x), <- (be_bytes_mod n y), IH by (apply Z.mod_pos_bound; lia).
  fold p. pose proof (Z.div_mod x p ltac:(lia)). pose proof (Z.div_mod y p ltac:(lia)).
  pose proof (Z.mod_pos_bound x p Hp). pose proof (Z.mod_pos_bound y p Hp).
  destruct (Z.compare_spec (x / p) (y / p)); cbn;
    destruct (Z.compare_spec (x mod p) (y mod p)), (Z.compare_spec x y); auto; nia.
Qed.

Lemma be_bytes_inj n x y :
  0 <= x < 256 ^ Z.of_nat n -> 0 <= y < 256 ^ Z.of_nat n ->
  be_bytes n x = be_bytes n y -> x = y.
Proof.
  intros Hx Hy H. apply Z.compare_eq_iff. rewrite <- (be_bytes_cmp n), H by assumption.
  apply lex_cmp_refl.
Qed.

(** ** Little-endian integers *)

Lemma le_bytes_length n z : length (le_bytes n z) = n.
Proof. revert z; induction n; cbn; congruence. Qed.

Lemma le_bytes_is_bytes n z : is_bytes (le_bytes n z).
Proof.
  revert z; induction n; intros z; cbn; constructor; [| apply IHn].
  unfold is_byte. apply Z.mod_pos_bound. lia.
Qed.

Lemma of_le_le_bytes n z : 0 <= z < 256 ^ Z.of_nat n -> of_le (le_bytes n z) = z.
Proof.
  revert z; induction n as [|n IH]; intros z Hz; [cbn in *; lia |].
  rewrite pow256_succ in Hz. cbn [le_bytes of_le]. rewrite IH.
  - rewrite (Z.div_mod z 256) at 3 by lia. lia.
  - split; [apply Z.div_pos | apply Z.div_lt_upper_bound]; lia.
Qed.

Lemma le_bytes_inj n x y :
  0 <= x < 256 ^ Z.of_nat n -> 0 <= y < 256 ^ Z.of_nat n ->
  le_bytes n x = le_bytes n y -> x = y.
Proof. intros Hx Hy H. now rewrite <- (of_le_le_bytes n x), H, of_le_le_bytes. Qed.

Lemma of_le_range bs : is_bytes bs -> 0 <= of_le bs < 256 ^ Z.of_nat (length bs).
Proof.
  induction 1 as [|b bs Hb _ IH]; cbn [of_le length]; [cbn; lia |].
  rewrite pow256_succ. unfold is_byte in Hb. lia.
Qed.

#[export] Hint Resolve be_bytes_is_bytes le_bytes_is_bytes : kite.
