(* ===== verification/Types.v ===== *)
(** * Types, values and errors

    The data types shared by every component: [LogicalType]
    (src/src/types/mod.rs), [DataValue] (src/src/types/value.rs), the operators
    of src/src/expression/mod.rs, [DatabaseError] (src/src/errors.rs), and the
    class [Foreign] of the third-party functions the sources call: the
    [rust_decimal] type and operations, the [ordered_float] comparisons and the
    [siphasher] hash.  [ForeignLaws] states the documented behaviour the
    theorems rely on. *)

From S2P Require Import Prelude Bytes.

(** ** IEEE-754 bit patterns

    A float is its bit pattern, a [Z] in [0, 2^w).  [f_key] is the
    sign-magnitude integer that orders the non-NaN floats numerically (both
    zeros have key 0). *)

Definition f_sign_bit (w : Z) : Z := 2 ^ (w - 1).
Definition f_magnitude (w bits : Z) : Z := bits mod f_sign_bit w.
Definition f_negative (w bits : Z) : bool := f_sign_bit w <=? bits.
Definition f_key (w bits : Z) : Z :=
  if f_negative w bits then - f_magnitude w bits else f_magnitude w bits.
(** The infinity pattern: all exponent bits set, mantissa zero. *)
Definition f_inf (w : Z) : Z := if w =? 32 then 0x7F800000 else 0x7FF0000000000000.
Definition f_is_nan (w bits : Z) : bool := f_inf w <? f_magnitude w bits.

(** ** Third-party code *)

Class Foreign := {
  (** rust_decimal *)
  Decimal : Type;
  dec_new : Z -> Z -> Decimal;
  dec_mantissa : Decimal -> Z;
  dec_scale : Decimal -> Z;
  dec_is_zero : Decimal -> bool;
  dec_is_sign_negative : Decimal -> bool;
  dec_eqb : Decimal -> Decimal -> bool;
  dec_cmp : Decimal -> Decimal -> comparison;
  dec_serialize : Decimal -> bytes;
  dec_deserialize : bytes -> Decimal;
  (** the checked operations: [None] where the operators panic *)
  dec_checked_add : Decimal -> Decimal -> option Decimal;
  dec_checked_sub : Decimal -> Decimal -> option Decimal;
  dec_checked_mul : Decimal -> Decimal -> option Decimal;
  dec_checked_div : Decimal -> Decimal -> option Decimal;
  dec_checked_rem : Decimal -> Decimal -> option Decimal;
  (** chrono: [DateTime<Utc>], its constructors from a count of seconds and
      nanoseconds, of milliseconds and of microseconds, and the counts back *)
  DateTime : Type;
  dt_from_timestamp : Z -> Z -> option DateTime;
  dt_from_timestamp_millis : Z -> option DateTime;
  dt_from_timestamp_micros : Z -> option DateTime;
  dt_timestamp : DateTime -> Z;
  dt_timestamp_millis : DateTime -> Z;
  dt_timestamp_micros : DateTime -> Z;
  dt_timestamp_nanos_opt : DateTime -> option Z;
  (** regex: [Regex::new(pattern)] and [is_match]; [None] when the pattern does
      not compile *)
  regex_is_match : bytes -> bytes -> option bool;
  (** ordered_float, on bit patterns of the given width *)
  of_eqb : Z -> Z -> Z -> bool;
  of_cmp : Z -> Z -> Z -> comparison;
  (** siphasher: the 64-bit hash of a string *)
  sip_hash : bytes -> Z
}.

(** The numeric value of a decimal scaled by [10^28]; a scale is at most 28. *)
Definition dec_scaled `{Foreign} (d : Decimal) : Z :=
  dec_mantissa d * 10 ^ (28 - dec_scale d).

Class ForeignLaws `(F : Foreign) : Prop := {
  dec_scale_range : forall d, 0 <= dec_scale d <= 28;
  dec_mantissa_range : forall d, - 2 ^ 96 < dec_mantissa d < 2 ^ 96;
  dec_is_zero_spec : forall d, dec_is_zero d = true <-> dec_mantissa d = 0;
  dec_sign_spec : forall d, dec_mantissa d <> 0 ->
    dec_is_sign_negative d = (dec_mantissa d <? 0);
  dec_cmp_spec : forall a b, dec_cmp a b = Z.compare (dec_scaled a) (dec_scaled b);
  dec_eqb_spec : forall a b, dec_eqb a b = true <-> dec_cmp a b = Eq;
  dec_serialize_length : forall d, length (dec_serialize d) = 16%nat;
  dec_deserialize_serialize : forall d, dec_deserialize (dec_serialize d) = d;
  (** A [DateTime] holds the instant it was made from; the coarser counts are
      floors. *)
  dt_from_timestamp_spec : forall s n d, dt_from_timestamp s n = Some d ->
    dt_timestamp d = s /\ dt_timestamp_millis d = s * 1000 + n / 1000000
    /\ dt_timestamp_micros d = s * 1000000 + n / 1000;
  dt_from_millis_spec : forall v d, dt_from_timestamp_millis v = Some d ->
    dt_timestamp d = v / 1000 /\ dt_timestamp_millis d = v /\ dt_timestamp_micros d = v * 1000;
  dt_from_micros_spec : forall v d, dt_from_timestamp_micros v = Some d ->
    dt_timestamp d = v / 1000000 /\ dt_timestamp_millis d = v / 1000
    /\ dt_timestamp_micros d = v;
  of_eqb_spec : forall w a b, of_eqb w a b = true <-> of_cmp w a b = Eq;
  (** NaN equals NaN and is greater than every other value. *)
  of_cmp_nan : forall w a b, f_is_nan w a = true ->
    of_cmp w a b = if f_is_nan w b then Eq else Gt;
  of_cmp_nan_r : forall w a b, f_is_nan w a = false -> f_is_nan w b = true ->
    of_cmp w a b = Lt;
  of_cmp_num : forall w a b, f_is_nan w a = false -> f_is_nan w b = false ->
    of_cmp w a b = Z.compare (f_key w a) (f_key w b);
  sip_hash_range : forall s, 0 <= sip_hash s < 2 ^ 64
}.

(** ** Operators and logical types *)

Inductive CharLengthUnits := Characters | Octets.

Module UnaryOp.
Inductive UnaryOperator := Plus | Minus | Not.
End UnaryOp.
Abbreviation UnaryOperator := UnaryOp.UnaryOperator.

Module BinaryOp.
Inductive BinaryOperator :=
| Plus | Minus | Multiply | Divide
| Modulo | StringConcat
| Gt | Lt | GtEq | LtEq | Spaceship | Eq | NotEq
| Like (escape : option Z) | NotLike (escape : option Z)
| And | Or.
End BinaryOp.
Abbreviation BinaryOperator := BinaryOp.BinaryOperator.

Module LT.
#[local] Set Warnings "-register-all".
Inductive LogicalType :=
| SqlNull
| Boolean
| Tinyint
| UTinyint
| Smallint
| USmallint
| Integer
| UInteger
| Bigint
| UBigint
| Float
| Double
| Char (len : Z) (unit : CharLengthUnits)
| Varchar (len : option Z) (unit : CharLengthUnits)
| Date
| DateTime
| Time (precision : option Z)
| TimeStamp (precision : option Z) (zone : bool)
| Decimal (precision scale : option Z)
| Tuple (types : list LogicalType).
End LT.
Abbreviation LogicalType := LT.LogicalType.

(** ** Values *)

Inductive Utf8Type := Utf8Variable (len : option Z) | Utf8Fixed (len : Z).

Module DV.
Section DataValue.
#[local] Set Warnings "-register-all".
Context {F : Foreign}.
Inductive DataValue :=
| Null
| Boolean (b : bool)
| Float32 (bits : Z)
| Float64 (bits : Z)
| Int8 (v : Z)
| Int16 (v : Z)
| Int32 (v : Z)
| Int64 (v : Z)
| UInt8 (v : Z)
| UInt16 (v : Z)
| UInt32 (v : Z)
| UInt64 (v : Z)
| Utf8 (value : bytes) (ty : Utf8Type) (unit : CharLengthUnits)
| Date32 (v : Z)
| Date64 (v : Z)
| Time32 (v precision : Z)
| Time64 (v precision : Z) (zone : bool)
| Decimal (d : Decimal)
| Tuple (values : list DataValue) (is_upper : bool).
End DataValue.
Arguments DataValue F : clear implicits.
End DV.
Abbreviation DataValue := (DV.DataValue _).
Abbreviation TupleId := (DV.DataValue _).

(** ** Errors

    Payloads that carry a library's own error value are dropped; strings are
    byte strings. *)

Inductive DatabaseError {F : Foreign} :=
| AggMiss (s : bytes)
| Bincode
| CacheSizeOverFlow
| CastFail (from to : LogicalType)
| ChannelClose
| ColumnsEmpty
| ColumnIdNotFound (s : bytes)
| ColumnNotFound (s : bytes)
| Csv
| DefaultNotColumnRef
| DefaultNotExist
| DuplicateColumn (s : bytes)
| DuplicateSourceHash (s : bytes)
| DuplicateIndex (s : bytes)
| DuplicatePrimaryKey
| DuplicateUniqueValue
| FunctionNotFound (s : bytes)
| EmptyPlan
| EmptyStatement
| EvaluatorNotFound
| FromUtf8Error
| Incomparable (a b : LogicalType)
| InvalidColumn (s : bytes)
| InvalidIndex
| InvalidTable (s : bytes)
| InvalidType
| InvalidValue (s : bytes)
| IO
| MisMatch (a b : bytes)
| NeedNullAbleOrDefault
| ParametersNotFound (s : bytes)
| NoTransactionBegin
| NotNull
| OverFlow
| ParseBool
| ParseDate
| ParseFloat
| ParseInt
| ParserSql
| PrimaryKeyNotFound
| PrimaryKeyTooManyLayers
| RocksDB
| SharedNotAlign
| SourceNotFound
| TableExists
| TableNotFound
| TransactionAlreadyExists
| TryFromDecimal
| TryFromInt
| TooLong
| TupleIdNotFound (id : DV.DataValue F)
| TooManyBuckets (n m : Z)
| UnsupportedUnaryOperator (ty : LogicalType) (op : UnaryOperator)
| UnsupportedBinaryOperator (ty : LogicalType) (op : BinaryOperator)
| UnsupportedStmt (s : bytes)
| Utf8Error
| ValuesLenMismatch (n m : Z)
| ViewExists
| ViewNotFound.
Arguments DatabaseError F : clear implicits.
Abbreviation Result A := (result (DatabaseError _) A).

(** ** Induction principles for the nested types *)

Section LogicalTypeInd.
Variable P : LogicalType -> Prop.
Hypothesis HTuple : forall ts, Forall P ts -> P (LT.Tuple ts).
Hypothesis HBase : forall t, (forall ts, t <> LT.Tuple ts) -> P t.

Fixpoint LogicalType_nested_ind (t : LogicalType) : P t :=
  match t return P t with
  | LT.Tuple ts =>
      HTuple ts ((fix go l : Forall P l :=
                    match l with
                    | [] => Forall_nil_2 P
                    | x :: l' => Forall_cons_2 P x l' (LogicalType_nested_ind x) (go l')
                    end) ts)
  | t => HBase t ltac:(intros ts; discriminate)
  end.
End LogicalTypeInd.

Section DataValueInd.
Context {F : Foreign}.
Variable P : DV.DataValue F -> Prop.
Hypothesis HTuple : forall vs up, Forall P vs -> P (DV.Tuple vs up).
Hypothesis HBase : forall v, (forall vs up, v <> DV.Tuple vs up) -> P v.

Fixpoint DataValue_nested_ind (v : DV.DataValue F) : P v :=
  match v return P v with
  | DV.Tuple vs up =>
      HTuple vs up ((fix go l : Forall P l :=
                       match l with
                       | [] => Forall_nil_2 P
                       | x :: l' => Forall_cons_2 P x l' (DataValue_nested_ind x) (go l')
                       end) vs)
  | v => HBase v ltac:(intros vs up; discriminate)
  end.
End DataValueInd.

(** ** Decidable equality (the derived [PartialEq]) *)

#[global] Instance CharLengthUnits_eq_dec : EqDecision CharLengthUnits.
Proof. solve_decision. Defined.
#[global] Instance Utf8Type_eq_dec : EqDecision Utf8Type.
Proof. solve_decision. Defined.
#[global] Instance UnaryOperator_eq_dec : EqDecision UnaryOperator.
Proof. solve_decision. Defined.
#[global] Instance BinaryOperator_eq_dec : EqDecision BinaryOperator.
Proof. solve_decision. Defined.

Fixpoint LogicalType_dec (a b : LogicalType) {struct a} : {a = b} + {a <> b}.
Proof.
  decide equality;
    first [ apply Z.eq_dec | apply CharLengthUnits_eq_dec | apply Bool.bool_dec
          | apply (option_eq_dec (A := Z)) | apply (List.list_eq_dec LogicalType_dec) ].
Defined.
#[global] Instance LogicalType_eq_dec : EqDecision LogicalType := LogicalType_dec.

(** ** A reference instance of the third-party functions

    A decimal is a mantissa and a scale; the hash is the byte sum.  It shows
    that the laws can hold together and lets the definitions be evaluated. *)

Module RefForeign.
Definition dec_ok (m s : Z) : bool :=
  (0 <=? s) && (s <=? 28) && (- 2 ^ 96 <? m) && (m <? 2 ^ 96).

Record dec := mk_dec { d_m : Z; d_s : Z; d_ok : dec_ok d_m d_s = true }.

Definition clamp (m s : Z) : Z * Z := if dec_ok m s then (m, s) else (0, 0).

Lemma clamp_ok m s : dec_ok (clamp m s).1 (clamp m s).2 = true.
Proof. unfold clamp. destruct (dec_ok m s) eqn:E; cbn [fst snd]; [exact E | reflexivity]. Qed.

Definition new (m s : Z) : dec := mk_dec (clamp m s).1 (clamp m s).2 (clamp_ok m s).

Definition scaled (d : dec) : Z := d_m d * 10 ^ (28 - d_s d).

(** 13 bytes of mantissa (offset by [2^96]), one of scale, two of padding. *)
Definition ser (d : dec) : bytes :=
  le_bytes 13 (d_m d + 2 ^ 96) ++ [d_s d; 0; 0].
Definition deser (bs : bytes) : dec :=
  new (of_le (take 13 bs) - 2 ^ 96) (nth 13 bs 0).

(** A scaled result that fits, at scale 28. *)
Definition checked (z : Z) : option dec := if dec_ok z 28 then Some (new z 28) else None.

(** Substring search: what a pattern without metacharacters matches. *)
Fixpoint is_infix (p s : bytes) : bool :=
  bool_decide (take (length p) s = p)
  || match s with [] => false | _ :: s' => is_infix p s' end.

Definition float_cmp (w a b : Z) : comparison :=
  match f_is_nan w a, f_is_nan w b with
  | true, true => Eq
  | true, false => Gt
  | false, true => Lt
  | false, false => Z.compare (f_key w a) (f_key w b)
  end.

Definition is_eq (c : comparison) : bool := match c with Eq => true | _ => false end.

(** An instant: seconds in chrono's range (about 262,000 years) and nanoseconds. *)
Definition dt_ok (s n : Z) : bool :=
  (- 8334601228800 <=? s) && (s <=? 8210266876799) && (0 <=? n) && (n <? 2000000000).
Record instant := mk_instant { t_s : Z; t_n : Z; t_ok : dt_ok t_s t_n = true }.
Definition dt_make (s n : Z) : option instant :=
  match Bool.bool_dec (dt_ok s n) true with
  | left H => Some (mk_instant s n H)
  | right _ => None
  end.

Lemma dt_make_some s n d : dt_make s n = Some d -> t_s d = s /\ t_n d = n.
Proof. unfold dt_make. destruct (Bool.bool_dec _ _); intros [= <-]. auto. Qed.

#[global] Instance ref_foreign : Foreign := {|
  Decimal := dec;
  dec_new := new;
  dec_mantissa := d_m;
  dec_scale := d_s;
  dec_is_zero d := d_m d =? 0;
  dec_is_sign_negative d := d_m d <? 0;
  dec_eqb a b := is_eq (Z.compare (scaled a) (scaled b));
  dec_cmp a b := Z.compare (scaled a) (scaled b);
  dec_serialize := ser;
  dec_deserialize := deser;
  dec_checked_add a b := checked (scaled a + scaled b);
  dec_checked_sub a b := checked (scaled a - scaled b);
  dec_checked_mul a b := checked (scaled a * scaled b / 10 ^ 28);
  dec_checked_div a b :=
    if scaled b =? 0 then None else checked (Z.quot (scaled a * 10 ^ 28) (scaled b));
  dec_checked_rem a b := if scaled b =? 0 then None else checked (Z.rem (scaled a) (scaled b));
  DateTime := instant;
  dt_from_timestamp := dt_make;
  dt_from_timestamp_millis v := dt_make (v / 1000) (v mod 1000 * 1000000);
  dt_from_timestamp_micros v := dt_make (v / 1000000) (v mod 1000000 * 1000);
  dt_timestamp := t_s;
  dt_timestamp_millis d := t_s d * 1000 + t_n d / 1000000;
  dt_timestamp_micros d := t_s d * 1000000 + t_n d / 1000;
  dt_timestamp_nanos_opt d :=
    let n := t_s d * 1000000000 + t_n d in if in_i 64 n then Some n else None;
  regex_is_match pattern value := Some (is_infix pattern value);
  of_eqb w a b := is_eq (float_cmp w a b);
  of_cmp := float_cmp;
  sip_hash s := (foldr Z.add 0 s) mod 2 ^ 64
|}.

Lemma is_eq_spec c : is_eq c = true <-> c = Eq.
Proof. destruct c; cbn; intuition discriminate. Qed.

Lemma dec_ext (a b : dec) : d_m a = d_m b -> d_s a = d_s b -> a = b.
Proof.
  destruct a as [m s H], b as [m' s' H']; cbn. intros -> ->. f_equal.
  apply (Eqdep_dec.UIP_dec Bool.bool_dec).
Qed.

Lemma deser_ser d : deser (ser d) = d.
Proof.
  destruct d as [m s H]. unfold deser, ser. cbn [d_m d_s].
  assert (Hm : 0 <= m + 2 ^ 96 < 256 ^ Z.of_nat 13).
  { unfold dec_ok in H. bool_to_prop. change (256 ^ Z.of_nat 13) with (2 ^ 104). lia. }
  rewrite take_app_le, take_ge, of_le_le_bytes by (rewrite ?le_bytes_length; lia).
  rewrite app_nth2, le_bytes_length by (rewrite le_bytes_length; lia).
  cbn [nth Nat.sub]. rewrite Z.add_simpl_r.
  apply dec_ext; unfold new, clamp; cbn [d_m d_s]; now rewrite H.
Qed.

#[global] Instance ref_laws : ForeignLaws ref_foreign.
Proof.
  constructor; cbn -[Z.pow deser ser dt_make].
  - intros [m s H]. cbn [d_s]. unfold dec_ok in H. bool_to_prop. lia.
  - intros [m s H]. cbn [d_m]. unfold dec_ok in H. bool_to_prop. lia.
  - intros d. apply Z.eqb_eq.
  - reflexivity.
  - reflexivity.
  - intros a b. apply is_eq_spec.
  - intros d. unfold ser. rewrite length_app, le_bytes_length. reflexivity.
  - intros d. apply deser_ser.
  - intros s n d [-> ->]%dt_make_some. auto.
  - intros v d [-> ->]%dt_make_some.
    replace (v mod 1000 * 1000000) with (v mod 1000 * 1000 * 1000) by lia.
    rewrite Z.div_mul by lia.
    replace (v mod 1000 * 1000 * 1000) with (v mod 1000 * 1000000) by lia.
    rewrite Z.div_mul by lia. pose proof (Z.div_mod v 1000). lia.
  - intros v d [-> ->]%dt_make_some. rewrite Z.div_mul by lia.
    change (v mod 1000000 * 1000 / 1000000) with (v mod 1000000 * 1000 / (1000 * 1000)).
    rewrite Z.div_mul_cancel_r by lia. pose proof (Z.div_mod v 1000000 ltac:(lia)) as Hv.
    repeat split; try lia. rewrite Hv at 3.
    replace (1000000 * (v / 1000000)) with (v / 1000000 * 1000 * 1000) by lia.
    now rewrite Z.div_add_l by lia.
  - intros w a b. apply is_eq_spec.
  - intros w a b Ha. unfold float_cmp. rewrite Ha. now destruct (f_is_nan w b).
  - intros w a b Ha Hb. unfold float_cmp. now rewrite Ha, Hb.
  - intros w a b Ha Hb. unfold float_cmp. now rewrite Ha, Hb.
  - intros s. apply Z.mod_pos_bound. reflexivity.
Qed.
End RefForeign.
