(* ===== verification/LogicalTypes.v ===== *)
(** * Logical types and implicit casts

    The type lattice of src/src/types/mod.rs: raw lengths, the numeric
    predicates, [can_implicit_cast] and the common type of two operands
    ([max_logical_type], [combine_numeric_types]). *)

From S2P Require Import Prelude Bytes Types.

Section Operations.
Context {F : Foreign}.

(** [LogicalType::raw_len]; [unreachable!] on a tuple. *)
Definition raw_len (ty : LogicalType) : Result (option Z) :=
  match ty with
  | LT.SqlNull => Ok (Some 0)
  | LT.Boolean => Ok (Some 1)
  | LT.Tinyint => Ok (Some 1)
  | LT.UTinyint => Ok (Some 1)
  | LT.Smallint => Ok (Some 2)
  | LT.USmallint => Ok (Some 2)
  | LT.Integer => Ok (Some 4)
  | LT.UInteger => Ok (Some 4)
  | LT.Bigint => Ok (Some 8)
  | LT.UBigint => Ok (Some 8)
  | LT.Float => Ok (Some 4)
  | LT.Double => Ok (Some 8)
  | LT.Varchar _ _ => Ok None
  | LT.Char len unit =>
      match unit with
      | Characters => Ok None
      | Octets => Ok (Some len)
      end
  | LT.Decimal _ _ => Ok (Some 16)
  | LT.Date => Ok (Some 4)
  | LT.DateTime => Ok (Some 8)
  | LT.Time _ => Ok (Some 4)
  | LT.TimeStamp _ _ => Ok (Some 8)
  | LT.Tuple _ => Panic
  end.

Definition is_numeric (ty : LogicalType) : bool :=
  match ty with
  | LT.Tinyint | LT.UTinyint | LT.Smallint | LT.USmallint | LT.Integer | LT.UInteger
  | LT.Bigint | LT.UBigint | LT.Float | LT.Double | LT.Decimal _ _ => true
  | _ => false
  end.

Definition is_signed_numeric (ty : LogicalType) : bool :=
  match ty with
  | LT.Tinyint | LT.Smallint | LT.Integer | LT.Bigint => true
  | _ => false
  end.

Definition is_unsigned_numeric (ty : LogicalType) : bool :=
  match ty with
  | LT.UTinyint | LT.USmallint | LT.UInteger | LT.UBigint => true
  | _ => false
  end.

Definition is_floating_point_numeric (ty : LogicalType) : bool :=
  match ty with LT.Float | LT.Double => true | _ => false end.

Definition can_implicit_cast (from to : LogicalType) : bool :=
  if decide (from = to) then true else
  match from with
  | LT.SqlNull => true
  | LT.Boolean => false
  | LT.Tinyint =>
      match to with
      | LT.Smallint | LT.Integer | LT.Bigint | LT.Float | LT.Double | LT.Decimal _ _ => true
      | _ => false
      end
  | LT.UTinyint =>
      match to with
      | LT.USmallint | LT.UInteger | LT.UBigint | LT.Smallint | LT.Integer | LT.Bigint
      | LT.Float | LT.Double | LT.Decimal _ _ => true
      | _ => false
      end
  | LT.Smallint =>
      match to with
      | LT.Integer | LT.Bigint | LT.Float | LT.Double | LT.Decimal _ _ => true
      | _ => false
      end
  | LT.USmallint =>
      match to with
      | LT.UInteger | LT.UBigint | LT.Integer | LT.Bigint | LT.Float | LT.Double
      | LT.Decimal _ _ => true
      | _ => false
      end
  | LT.Integer =>
      match to with
      | LT.Bigint | LT.Float | LT.Double | LT.Decimal _ _ => true
      | _ => false
      end
  | LT.UInteger =>
      match to with
      | LT.UBigint | LT.Bigint | LT.Float | LT.Double | LT.Decimal _ _ => true
      | _ => false
      end
  | LT.Bigint | LT.UBigint =>
      match to with LT.Float | LT.Double | LT.Decimal _ _ => true | _ => false end
  | LT.Float => match to with LT.Double | LT.Decimal _ _ => true | _ => false end
  | LT.Double => match to with LT.Decimal _ _ => true | _ => false end
  | LT.Char _ _ => false
  | LT.Varchar _ _ => false
  | LT.Date =>
      match to with LT.DateTime | LT.Varchar _ _ | LT.Char _ _ => true | _ => false end
  | LT.DateTime | LT.TimeStamp _ _ =>
      match to with
      | LT.Date | LT.Time _ | LT.Varchar _ _ | LT.Char _ _ => true
      | _ => false
      end
  | LT.Time _ => match to with LT.Varchar _ _ | LT.Char _ _ => true | _ => false end
  | LT.Decimal _ _ | LT.Tuple _ => false
  end.

(** The closure [fn_option] of the decimal case. *)
Definition max_option (a b : option Z) : option Z :=
  match a, b with
  | Some x, Some y => Some (Z.max x y)
  | Some x, None | None, Some x => Some x
  | None, None => None
  end.

(** [combine_numeric_types] calls itself with the operands exchanged when the
    left one is signed and the right one unsigned; the fuel counts the calls. *)
Fixpoint combine_numeric_types (fuel : nat) (left right : LogicalType) : Result LogicalType :=
  match fuel with
  | O => Panic
  | S fuel' =>
      if decide (left = right) then Ok left
      else if is_signed_numeric left && is_unsigned_numeric right
      then combine_numeric_types fuel' right left
      else if can_implicit_cast left right then Ok right
      else if can_implicit_cast right left then Ok left
      else
        match left, right with
        | LT.Bigint, _ | _, LT.UBigint => Ok LT.Double
        | LT.Integer, _ | _, LT.UInteger => Ok LT.Bigint
        | LT.Smallint, _ | _, LT.USmallint => Ok LT.Integer
        | LT.Tinyint, _ | _, LT.UTinyint => Ok LT.Smallint
        | LT.Decimal p0 s0, LT.Decimal p1 s1 =>
            Ok (LT.Decimal (max_option p0 p1) (max_option s0 s1))
        | _, _ => Err (Incomparable left right)
        end
  end.

Definition max_logical_type (left right : LogicalType) : Result LogicalType :=
  if decide (left = right) then Ok left else
  match left, right with
  | LT.SqlNull, _ => Ok right
  | _, LT.SqlNull => Ok left
  | LT.Tuple types_0, LT.Tuple types_1 =>
      if (length types_1 <? length types_0)%nat then Ok left else Ok right
  | _, _ =>
      if is_numeric left && is_numeric right then combine_numeric_types 2 left right
      else
        match left, right with
        | LT.Date, LT.Varchar _ _ | LT.Varchar _ _, LT.Date => Ok LT.Date
        | LT.Date, LT.DateTime | LT.DateTime, LT.Date => Ok LT.DateTime
        | LT.DateTime, LT.Varchar _ _ | LT.Varchar _ _, LT.DateTime => Ok LT.DateTime
        | LT.Char _ _, LT.Varchar _ _ | LT.Varchar _ _, LT.Char _ _
        | LT.Char _ _, LT.Char _ _ | LT.Varchar _ _, LT.Varchar _ _ =>
            Ok (LT.Varchar None Characters)
        | _, _ => Err (Incomparable left right)
        end
  end.
End Operations.

(** ** Properties *)

Section Properties.
Context {F : Foreign}.

Definition is_tuple_type (ty : LogicalType) : bool :=
  match ty with LT.Tuple _ => true | _ => false end.

Definition is_decimal_type (ty : LogicalType) : bool :=
  match ty with LT.Decimal _ _ => true | _ => false end.

(** Equality tests between types with different head constructors. *)
Ltac type_cases :=
  repeat (case_decide; try congruence); cbn; try reflexivity.

Lemma max_option_comm a b : max_option a b = max_option b a.
Proof. destruct a, b; cbn; auto. now rewrite Z.max_comm. Qed.

Lemma can_implicit_cast_refl ty : can_implicit_cast ty ty = true.
Proof. unfold can_implicit_cast. now rewrite decide_True. Qed.

(** The common type of two operands does not depend on their order: on
    every pair of non-tuple types both orders give the same type or both are
    incomparable, and neither panics. *)
Theorem max_logical_type_comm left right :
  is_tuple_type left = false -> is_tuple_type right = false ->
  result_ok (max_logical_type left right) = result_ok (max_logical_type right left)
  /\ max_logical_type left right <> Panic.
Proof.
  intros Hl Hr; destruct left; try discriminate Hl; destruct right; try discriminate Hr;
    unfold max_logical_type, combine_numeric_types, can_implicit_cast; type_cases;
    split; try congruence; try reflexivity; cbn; now rewrite 1?max_option_comm, (max_option_comm scale).
Qed.

(** The common type of two numeric operands other than decimals is an upper
    bound of both in the implicit-cast order, and it is one of the two. *)
Theorem max_logical_type_upper left right ty :
  is_numeric left = true -> is_numeric right = true ->
  is_decimal_type left = false -> is_decimal_type right = false ->
  max_logical_type left right = Ok ty ->
  can_implicit_cast left ty = true /\ can_implicit_cast right ty = true
  /\ (ty = left \/ ty = right).
Proof.
  intros Hl Hr Hdl Hdr.
  destruct left; try discriminate Hl; try discriminate Hdl;
    destruct right; try discriminate Hr; try discriminate Hdr;
    cbn; intros [= <-]; repeat split; auto.
Qed.

(** A signed operand and an unsigned one of the same or a larger width have
    no common type, in either order: the upcast arms of
    [combine_numeric_types] are never reached, because the operands were
    exchanged before.  [INTEGER] and [UINTEGER] are incomparable, although the
    comment announces an upcast. *)
Theorem signed_unsigned_incomparable signed unsigned :
  is_signed_numeric signed = true -> is_unsigned_numeric unsigned = true ->
  can_implicit_cast unsigned signed = false ->
  max_logical_type signed unsigned = Err (Incomparable unsigned signed)
  /\ max_logical_type unsigned signed = Err (Incomparable unsigned signed).
Proof.
  intros Hs Hu. destruct signed; try discriminate Hs; destruct unsigned; try discriminate Hu;
    cbn; intros H; try discriminate H; split; reflexivity.
Qed.

End Properties.

Lemma max_logical_type_comm_witness :
  result_ok (max_logical_type (F := RefForeign.ref_foreign) LT.Integer LT.Double)
  = result_ok (max_logical_type LT.Double LT.Integer)
  /\ max_logical_type (F := RefForeign.ref_foreign) LT.Integer LT.Double <> Panic.
Proof. apply (max_logical_type_comm (F := RefForeign.ref_foreign)); reflexivity. Defined.

Lemma max_logical_type_upper_witness :
  can_implicit_cast LT.Integer LT.Bigint = true /\ can_implicit_cast LT.Bigint LT.Bigint = true
  /\ (LT.Bigint = LT.Integer \/ LT.Bigint = LT.Bigint).
Proof.
  apply (max_logical_type_upper (F := RefForeign.ref_foreign) LT.Integer LT.Bigint LT.Bigint);
    reflexivity.
Defined.

Lemma signed_unsigned_incomparable_witness :
  max_logical_type (F := RefForeign.ref_foreign) LT.Integer LT.UInteger
    = Err (Incomparable LT.UInteger LT.Integer)
  /\ max_logical_type (F := RefForeign.ref_foreign) LT.UInteger LT.Integer
    = Err (Incomparable LT.UInteger LT.Integer).
Proof.
  apply (signed_unsigned_incomparable (F := RefForeign.ref_foreign) LT.Integer LT.UInteger);
    reflexivity.
Defined.
