(* ===== verification/Values.v ===== *)
(** * Values

    The comparison, length and time-packing operations of [DataValue]
    (src/src/types/value.rs): [PartialEq], [PartialOrd], [logical_type],
    [check_len], [pack] and [unpack], [is_true].  A string is its UTF-8
    bytes. *)

From S2P Require Import Prelude Bytes Types LogicalTypes.

(** ** Strings *)

(** [chars().count()] of a valid UTF-8 string: the bytes that are not
    continuation bytes. *)
Definition is_continuation (b : Z) : bool := Z.land b 0xC0 =? 0x80.
Definition chars_count (s : bytes) : Z :=
  Z.of_nat (length (filter (fun b => is_continuation b = false) s)).
Definition bytes_len (s : bytes) : Z := Z.of_nat (length s).

(** [i128::ilog10] of a positive integer, by the number of digits; 40 digits
    are enough for an [i128]. *)
Fixpoint ilog10 (fuel : nat) (z : Z) : Z :=
  match fuel with
  | O => 0
  | S fuel' => if z <? 10 then 0 else 1 + ilog10 fuel' (z / 10)
  end.

Definition ONE_SEC_TO_NANO : Z := 1000000000.
Definition ONE_DAY_TO_SEC : Z := 86400.

Section Operations.
Context {F : Foreign}.

Definition is_null (v : DataValue) : bool :=
  match v with DV.Null => true | _ => false end.

(** [PartialEq for DataValue]. *)
Fixpoint dv_eq (a b : DataValue) : bool :=
  match a, b with
  | DV.Null, DV.Null => true
  | DV.Boolean v1, DV.Boolean v2 => Bool.eqb v1 v2
  | DV.Float32 v1, DV.Float32 v2 => of_eqb 32 v1 v2
  | DV.Float64 v1, DV.Float64 v2 => of_eqb 64 v1 v2
  | DV.Int8 v1, DV.Int8 v2 => v1 =? v2
  | DV.Int16 v1, DV.Int16 v2 => v1 =? v2
  | DV.Int32 v1, DV.Int32 v2 => v1 =? v2
  | DV.Int64 v1, DV.Int64 v2 => v1 =? v2
  | DV.UInt8 v1, DV.UInt8 v2 => v1 =? v2
  | DV.UInt16 v1, DV.UInt16 v2 => v1 =? v2
  | DV.UInt32 v1, DV.UInt32 v2 => v1 =? v2
  | DV.UInt64 v1, DV.UInt64 v2 => v1 =? v2
  | DV.Utf8 v1 _ _, DV.Utf8 v2 _ _ => bool_decide (v1 = v2)
  | DV.Date32 v1, DV.Date32 v2 => v1 =? v2
  | DV.Date64 v1, DV.Date64 v2 => v1 =? v2
  | DV.Time32 v1 _, DV.Time32 v2 _ => v1 =? v2
  | DV.Time64 v1 _ _, DV.Time64 v2 _ _ => v1 =? v2
  | DV.Decimal v1, DV.Decimal v2 => dec_eqb v1 v2
  | DV.Tuple vs1 up1, DV.Tuple vs2 up2 =>
      (fix go (l1 l2 : list DataValue) : bool :=
         match l1, l2 with
         | [], [] => true
         | x :: l1', y :: l2' => dv_eq x y && go l1' l2'
         | _, _ => false
         end) vs1 vs2 && Bool.eqb up1 up2
  | _, _ => false
  end.

(** [PartialOrd for DataValue]: [None] across types, and on tuples. *)
Definition partial_cmp (a b : DataValue) : option comparison :=
  match a, b with
  | DV.Boolean v1, DV.Boolean v2 => Some (bool_cmp v1 v2)
  | DV.Float32 v1, DV.Float32 v2 => Some (of_cmp 32 v1 v2)
  | DV.Float64 v1, DV.Float64 v2 => Some (of_cmp 64 v1 v2)
  | DV.Int8 v1, DV.Int8 v2 => Some (v1 ?= v2)
  | DV.Int16 v1, DV.Int16 v2 => Some (v1 ?= v2)
  | DV.Int32 v1, DV.Int32 v2 => Some (v1 ?= v2)
  | DV.Int64 v1, DV.Int64 v2 => Some (v1 ?= v2)
  | DV.UInt8 v1, DV.UInt8 v2 => Some (v1 ?= v2)
  | DV.UInt16 v1, DV.UInt16 v2 => Some (v1 ?= v2)
  | DV.UInt32 v1, DV.UInt32 v2 => Some (v1 ?= v2)
  | DV.UInt64 v1, DV.UInt64 v2 => Some (v1 ?= v2)
  | DV.Utf8 v1 _ _, DV.Utf8 v2 _ _ => Some (lex_cmp v1 v2)
  | DV.Null, DV.Null => Some Eq
  | DV.Date32 v1, DV.Date32 v2 => Some (v1 ?= v2)
  | DV.Date64 v1, DV.Date64 v2 => Some (v1 ?= v2)
  | DV.Time32 v1 _, DV.Time32 v2 _ => Some (v1 ?= v2)
  | DV.Time64 v1 _ _, DV.Time64 v2 _ _ => Some (v1 ?= v2)
  | DV.Decimal v1, DV.Decimal v2 => Some (dec_cmp v1 v2)
  | _, _ => None
  end.

Fixpoint logical_type (v : DataValue) : LogicalType :=
  match v with
  | DV.Null => LT.SqlNull
  | DV.Boolean _ => LT.Boolean
  | DV.Float32 _ => LT.Float
  | DV.Float64 _ => LT.Double
  | DV.Int8 _ => LT.Tinyint
  | DV.Int16 _ => LT.Smallint
  | DV.Int32 _ => LT.Integer
  | DV.Int64 _ => LT.Bigint
  | DV.UInt8 _ => LT.UTinyint
  | DV.UInt16 _ => LT.USmallint
  | DV.UInt32 _ => LT.UInteger
  | DV.UInt64 _ => LT.UBigint
  | DV.Utf8 _ (Utf8Variable len) unit => LT.Varchar len unit
  | DV.Utf8 _ (Utf8Fixed len) unit => LT.Char len unit
  | DV.Date32 _ => LT.Date
  | DV.Date64 _ => LT.DateTime
  | DV.Time32 _ _ => LT.Time None
  | DV.Time64 _ _ _ => LT.TimeStamp None false
  | DV.Decimal _ => LT.Decimal None None
  | DV.Tuple values _ => LT.Tuple (map logical_type values)
  end.

Definition check_string_len (s : bytes) (len : Z) (unit : CharLengthUnits) : bool :=
  match unit with
  | Characters => len <? chars_count s
  | Octets => len <? bytes_len s
  end.

Definition check_len (v : DataValue) (ty : LogicalType) : Result unit :=
  let fail (b : bool) : Result unit := if b then Err TooLong else Ok tt in
  match ty, v with
  | LT.Varchar None _, _ => Ok tt
  | LT.Varchar (Some len) Characters, DV.Utf8 val (Utf8Variable _) Characters
  | LT.Char len Characters, DV.Utf8 val (Utf8Fixed _) Characters =>
      fail (check_string_len val len Characters)
  | LT.Varchar (Some len) Octets, DV.Utf8 val (Utf8Variable _) Octets
  | LT.Char len Octets, DV.Utf8 val (Utf8Fixed _) Octets =>
      fail (check_string_len val len Octets)
  | LT.Decimal full_len scale_len, DV.Decimal val =>
      let mantissa := Z.abs (dec_mantissa val) in
      if match full_len with
         | Some len => negb (mantissa =? 0) && (len <? ilog10 40 mantissa + 1)
         | None => false
         end
      then Err TooLong
      else if match scale_len with
              | Some len => len <? dec_scale val
              | None => false
              end
      then Err TooLong
      else Ok tt
  | _, _ => Ok tt
  end.

Definition is_true (v : DataValue) : Result bool :=
  if is_null v then Ok false
  else match v with
       | DV.Boolean b => Ok b
       | _ => Err InvalidType
       end.

Definition values_to_tuple (values : list DataValue) : option DataValue :=
  if (1 <? length values)%nat then Some (DV.Tuple values false) else list.last values.

(** The shift of the two time encoders. *)
Definition pack_shift (precision : Z) : Z :=
  match precision with
  | 1 => 28
  | 2 => 25
  | 3 => 22
  | 4 => 18
  | _ => 31
  end.

(** [1000000000 / 10_u32.pow(precision as u32)]: the power overflows (a panic)
    above 9. *)
Definition nano_unit (precision : Z) : Result Z :=
  if (0 <=? precision) && (precision <=? 9) then Ok (1000000000 / 10 ^ precision) else Panic.

(** [DataValue::pack]: [a] seconds and [b] nanoseconds in a [u32]. *)
Definition pack (a b precision : Z) : Result Z :=
  if negb (b <=? ONE_SEC_TO_NANO) || negb (a <=? ONE_DAY_TO_SEC) then Panic else
  let? unit := nano_unit precision in
  let scaled_b := b / unit in
  Ok (Z.lor (as_u 32 (Z.shiftl scaled_b (pack_shift precision))) a).

Definition unpack (combined precision : Z) : Result (Z * Z) :=
  let p := pack_shift precision in
  let scaled_a := Z.shiftr combined p in
  let b := Z.land combined (2 ^ p - 1) in
  let? unit := nano_unit precision in
  let nanos := scaled_a * unit in
  if 2 ^ 32 <=? nanos then Panic else Ok (b, nanos).

(** [From<&NaiveTime> for DataValue], from the seconds since midnight and the
    nanoseconds of the time. *)
Definition from_naive_time (secs nanos : Z) : Result DataValue :=
  let? v := pack secs nanos 4 in
  Ok (DV.Time32 v 6).

(** A value in the range its variant's machine type allows. *)
Fixpoint value_ok (v : DataValue) : bool :=
  match v with
  | DV.Null | DV.Boolean _ | DV.Decimal _ => true
  | DV.Float32 b => in_u 32 b
  | DV.Float64 b => in_u 64 b
  | DV.Int8 v => in_i 8 v
  | DV.Int16 v => in_i 16 v
  | DV.Int32 v | DV.Date32 v => in_i 32 v
  | DV.Int64 v | DV.Date64 v | DV.Time64 v _ _ => in_i 64 v
  | DV.UInt8 v => in_u 8 v
  | DV.UInt16 v => in_u 16 v
  | DV.UInt32 v | DV.Time32 v _ => in_u 32 v
  | DV.UInt64 v => in_u 64 v
  | DV.Utf8 s _ _ => forallb (in_u 8) s
  | DV.Tuple vs _ => forallb value_ok vs
  end.
End Operations.

(** ** Comparison of values *)

Section Comparison.
Context {F : Foreign} {L : ForeignLaws F}.

Lemma of_cmp_refl w a : of_cmp w a a = Eq.
Proof.
  destruct (f_is_nan w a) eqn:E; [now rewrite of_cmp_nan, E |].
  rewrite of_cmp_num by assumption. apply Z.compare_refl.
Qed.

Lemma of_cmp_antisym w a b : of_cmp w b a = CompOpp (of_cmp w a b).
Proof.
  destruct (f_is_nan w a) eqn:Ea, (f_is_nan w b) eqn:Eb.
  - now rewrite !of_cmp_nan, Ea, Eb.
  - rewrite (of_cmp_nan_r w b a), (of_cmp_nan w a b), Eb by assumption. reflexivity.
  - rewrite (of_cmp_nan_r w a b), (of_cmp_nan w b a), Ea by assumption. reflexivity.
  - rewrite !of_cmp_num by assumption. apply Z.compare_antisym.
Qed.

(** Every float has a position in one linear order: NaN above the numbers. *)
Definition of_rank (w a : Z) : Z :=
  if f_is_nan w a then 2 ^ w else f_key w a.

Lemma f_key_lt w a : 0 < w -> f_key w a < 2 ^ w.
Proof.
  intros Hw. unfold f_key, f_magnitude, f_sign_bit.
  pose proof (Z.mod_pos_bound a (2 ^ (w - 1)) ltac:(apply Z.pow_pos_nonneg; lia)).
  rewrite (pow2_half w) by lia. destruct (f_negative w a); lia.
Qed.

Lemma of_cmp_rank w a b : 0 < w -> of_cmp w a b = Z.compare (of_rank w a) (of_rank w b).
Proof.
  intros Hw. pose proof (f_key_lt w a Hw). pose proof (f_key_lt w b Hw).
  unfold of_rank. destruct (f_is_nan w a) eqn:Ea, (f_is_nan w b) eqn:Eb.
  - rewrite of_cmp_nan, Eb by assumption. symmetry. apply Z.compare_refl.
  - rewrite of_cmp_nan, Eb by assumption. symmetry. apply Z.compare_gt_iff. lia.
  - rewrite of_cmp_nan_r by assumption. symmetry. apply Z.compare_lt_iff. lia.
  - now apply of_cmp_num.
Qed.

Lemma dec_eqb_refl d : dec_eqb d d = true.
Proof. rewrite dec_eqb_spec, dec_cmp_spec. apply Z.compare_refl. Qed.

Lemma partial_cmp_eqb a b :
  (forall vs up, a <> DV.Tuple vs up) ->
  partial_cmp a b = Some Eq <-> dv_eq a b = true.
Proof.
  intros Ha. destruct a; destruct b; cbn [partial_cmp dv_eq];
    try (split; discriminate); try (now edestruct Ha);
    rewrite ?(inj_iff Some), ?Z.eqb_eq, ?Z.compare_eq_iff, ?lex_cmp_eq, ?bool_decide_eq_true,
      ?of_eqb_spec, ?dec_eqb_spec, ?bool_cmp_eq, ?Bool.eqb_true_iff; tauto.
Qed.

(** The ordering agrees with equality: on values outside tuples,
    [partial_cmp] is [Some Equal] exactly when [==] holds. *)
Theorem partial_cmp_eq a b :
  (forall vs up, a <> DV.Tuple vs up) ->
  partial_cmp a b = Some Eq <-> dv_eq a b = true.
Proof. apply partial_cmp_eqb. Qed.

(** Swapping the operands reverses the order. *)
Lemma partial_cmp_flip a b :
  partial_cmp b a = option_map CompOpp (partial_cmp a b).
Proof.
  destruct a; destruct b; cbn [partial_cmp option_map]; try reflexivity; f_equal;
    auto using Z.compare_antisym, lex_cmp_antisym, of_cmp_antisym.
  - now destruct b0, b.
  - rewrite !dec_cmp_spec. apply Z.compare_antisym.
Qed.

Lemma partial_cmp_trans a b c :
  partial_cmp a b = Some Lt -> partial_cmp b c = Some Lt -> partial_cmp a c = Some Lt.
Proof.
  destruct a; destruct b; cbn [partial_cmp]; try discriminate;
    destruct c; cbn [partial_cmp]; try discriminate;
    rewrite ?(inj_iff Some), ?dec_cmp_spec, ?of_cmp_rank, ?Z.compare_lt_iff by lia;
    try lia; try apply lex_cmp_trans.
  destruct b0, b, b1; discriminate || reflexivity.
Qed.

(** Values that compare equal behave alike in further comparisons. *)
Lemma partial_cmp_eq_l a b c : partial_cmp a b = Some Eq -> partial_cmp a c = partial_cmp b c.
Proof.
  destruct a; destruct b; cbn [partial_cmp]; try discriminate;
    destruct c; cbn [partial_cmp]; try reflexivity;
    rewrite ?(inj_iff Some), ?dec_cmp_spec, ?of_cmp_rank, ?Z.compare_eq_iff, ?lex_cmp_eq,
      ?bool_cmp_eq by lia; congruence.
Qed.

Lemma dv_eq_refl v : dv_eq v v = true.
Proof.
  induction v as [vs up IH | v Hv] using DataValue_nested_ind.
  - cbn. rewrite Bool.eqb_reflx, andb_true_r.
    induction IH as [|x l Hx _ IHl]; [reflexivity |]. now rewrite Hx, IHl.
  - apply partial_cmp_eqb; [exact Hv |].
    destruct v; cbn; rewrite ?Z.compare_refl, ?lex_cmp_refl, ?of_cmp_refl; try reflexivity.
    + now destruct b.
    + rewrite dec_cmp_spec. now rewrite Z.compare_refl.
    + now edestruct Hv.
Qed.

(** Equal values are interchangeable in further equalities. *)
Lemma dv_eq_congr a : forall b c, dv_eq a b = true -> dv_eq a c = dv_eq b c.
Proof.
  induction a as [vs up IH | a Ha] using DataValue_nested_ind; intros b c E.
  - destruct b as [| | | | | | | | | | | | | | | | | | bs up']; try discriminate.
    destruct c as [| | | | | | | | | | | | | | | | | | cs up'']; try reflexivity.
    cbn in E |- *. apply andb_true_iff in E as [E ->%eqb_prop]. f_equal.
    revert bs cs E. induction IH as [|v vs Hv _ IHvs]; intros [|b bs] [|c cs] E; try easy.
    apply andb_true_iff in E as [E1 E2]. now rewrite (Hv b c E1), (IHvs bs cs E2).
  - apply (partial_cmp_eqb a b Ha) in E as E'.
    assert (Hb : forall vs up, b <> DV.Tuple vs up) by (intros vs up ->; now destruct a).
    apply eq_true_iff_eq. rewrite <- (partial_cmp_eqb a c Ha), <- (partial_cmp_eqb b c Hb).
    now rewrite (partial_cmp_eq_l a b c E').
Qed.

(** [Vec::eq] on values. *)
Fixpoint keys_eq (a b : list DataValue) : bool :=
  match a, b with
  | [], [] => true
  | x :: a', y :: b' => dv_eq x y && keys_eq a' b'
  | _, _ => false
  end.

Lemma keys_eq_refl (a : list DataValue) : keys_eq a a = true.
Proof. induction a as [|x a IH]; cbn; [reflexivity | now rewrite dv_eq_refl, IH]. Qed.

Lemma keys_eq_congr (a b c : list DataValue) : keys_eq a b = true -> keys_eq a c = keys_eq b c.
Proof.
  revert b c. induction a as [|x a IH]; intros [|y b] [|z c]; cbn; try easy.
  intros [E1 E2]%andb_true_iff. now rewrite (dv_eq_congr x y z E1), (IH b c E2).
Qed.

Lemma keys_eq_sym (a b : list DataValue) : keys_eq a b = keys_eq b a.
Proof.
  apply eq_true_iff_eq. split; intros E; rewrite <- (keys_eq_congr _ _ _ E); apply keys_eq_refl.
Qed.
End Comparison.

(** ** Packed times *)

Section PackedTime.
Context {F : Foreign}.

Lemma land_shiftl_small hi lo p :
  0 <= p -> 0 <= lo < 2 ^ p -> Z.land (Z.shiftl hi p) lo = 0.
Proof.
  intros Hp Hlo. apply Z.bits_inj'. intros n Hn. rewrite Z.land_spec, Z.bits_0.
  destruct (Z.lt_ge_cases n p).
  - now rewrite Z.shiftl_spec_low.
  - rewrite <- (Z.mod_small lo (2 ^ p)) by lia.
    rewrite (Z.mod_pow2_bits_high lo p n) by lia. apply andb_false_r.
Qed.

(** A high part shifted above a low part that fits: [lor] is addition. *)
Lemma lor_shiftl_add hi lo p :
  0 <= p -> 0 <= lo < 2 ^ p -> Z.lor (Z.shiftl hi p) lo = hi * 2 ^ p + lo.
Proof.
  intros Hp Hlo. pose proof (land_shiftl_small hi lo p Hp Hlo) as H.
  rewrite <- Z.lxor_lor, <- Z.add_nocarry_lxor, Z.shiftl_mul_pow2 by assumption. reflexivity.
Qed.

(** One precision of the packing, from the three numbers that characterise it:
    the nanoseconds per unit, the shift, and the room above the shift. *)
Lemma pack_unpack_at a b precision unit p :
  nano_unit (F := F) precision = Ok unit -> pack_shift precision = p ->
  0 < unit <= 10 ^ 9 -> 17 <= p <= 31 -> (10 ^ 9 - 1) / unit * 2 ^ p + 2 ^ p <= 2 ^ 32 ->
  0 <= a <= ONE_DAY_TO_SEC -> 0 <= b < ONE_SEC_TO_NANO ->
  exists v, pack a b precision = Ok v /\ 0 <= v < 2 ^ 32
            /\ unpack v precision = Ok (a, b / unit * unit).
Proof.
  intros Hunit Hshift Hu Hp Hroom Ha Hb. unfold ONE_DAY_TO_SEC, ONE_SEC_TO_NANO in *.
  assert (Hpow : 2 ^ 17 <= 2 ^ p) by (apply Z.pow_le_mono_r; lia).
  assert (Hsb : 0 <= b / unit <= (10 ^ 9 - 1) / unit)
    by (split; [apply Z.div_pos; lia | apply Z.div_le_mono; lia]).
  assert (Hfit : 0 <= b / unit * 2 ^ p < 2 ^ 32) by nia.
  exists (b / unit * 2 ^ p + a). split; [| split].
  - unfold pack, ONE_DAY_TO_SEC, ONE_SEC_TO_NANO.
    rewrite !(proj2 (Z.leb_le _ _)) by lia. cbn [negb orb].
    rewrite Hunit, Hshift. cbn [result_bind]. f_equal.
    rewrite as_u_small by (rewrite Z.shiftl_mul_pow2; lia).
    apply lor_shiftl_add; lia.
  - nia.
  - unfold unpack. rewrite Hshift, Hunit. cbn [result_bind].
    rewrite Z.shiftr_div_pow2, (Z.add_comm _ a), Z.div_add, (Z.div_small a), Z.add_0_l by lia.
    replace (2 ^ p - 1) with (Z.ones p) by (rewrite Z.ones_equiv; lia).
    rewrite Z.land_ones, Z.mod_add, Z.mod_small by lia.
    pose proof (Z.mul_div_le b unit ltac:(lia)).
    destruct (2 ^ 32 <=? b / unit * unit) eqn:E; [bool_to_prop; nia | reflexivity].
Qed.

Lemma pack_unpack_prec a b precision :
  0 <= a <= ONE_DAY_TO_SEC -> 0 <= b < ONE_SEC_TO_NANO -> 0 <= precision <= 4 ->
  exists v, pack a b precision = Ok v /\ 0 <= v < 2 ^ 32
            /\ unpack v precision = Ok (a, b / 10 ^ (9 - precision) * 10 ^ (9 - precision)).
Proof.
  intros Ha Hb Hp.
  assert (precision = 0 \/ precision = 1 \/ precision = 2 \/ precision = 3 \/ precision = 4)
    as [-> | [-> | [-> | [-> | ->]]]] by lia;
    (eapply pack_unpack_at; [reflexivity | reflexivity | vm_compute; split; congruence
      | vm_compute; split; congruence | vm_compute; congruence | exact Ha | exact Hb]).
Qed.

(** Packing a time of day is lossless up to the declared precision: for
    every precision the SQL type [TIME(p)] admits (0 to 4), [unpack] returns the
    seconds and the nanoseconds truncated to [p] digits, and the packed value
    fits in a [u32]. *)
Theorem pack_unpack a b precision :
  0 <= a <= ONE_DAY_TO_SEC -> 0 <= b < ONE_SEC_TO_NANO -> 0 <= precision <= 4 ->
  exists v, pack a b precision = Ok v /\ 0 <= v < 2 ^ 32
            /\ unpack v precision = Ok (a, b / 10 ^ (9 - precision) * 10 ^ (9 - precision)).
Proof. apply pack_unpack_prec. Qed.

(** [From<&NaiveTime>] packs with precision 4 but stores precision 6, so
    the value does not unpack to the time it was built from: 1.5 s after
    midnight reads back as second 1310720001. *)
Theorem from_naive_time_wrong_precision :
  from_naive_time (F := F) 1 500000000 = Ok (DV.Time32 1310720001 6)
  /\ unpack (F := F) 1310720001 6 = Ok (1310720001, 0)
  /\ unpack (F := F) 1310720001 4 = Ok (1, 500000000).
Proof. repeat split; reflexivity. Qed.
End PackedTime.

Lemma pack_unpack_witness :
  exists v, pack (F := RefForeign.ref_foreign) 43200 123456789 3 = Ok v /\ 0 <= v < 2 ^ 32
            /\ unpack (F := RefForeign.ref_foreign) v 3 = Ok (43200, 123000000).
Proof. apply (pack_unpack 43200 123456789 3); unfold ONE_DAY_TO_SEC, ONE_SEC_TO_NANO; lia. Defined.

Lemma partial_cmp_eq_witness :
  partial_cmp (F := RefForeign.ref_foreign) (DV.Int32 3) (DV.Int32 3) = Some Eq
  <-> dv_eq (F := RefForeign.ref_foreign) (DV.Int32 3) (DV.Int32 3) = true.
Proof. apply (partial_cmp_eq (L := RefForeign.ref_laws)). discriminate. Defined.
