(* ===== verification/Floats.v ===== *)
(** * Floating-point arithmetic

    The primitive [f32] and [f64] operations the evaluators use, on bit
    patterns: a pattern is decoded to a [spec_float], the operation of the
    Standard Library's IEEE-754 specification is applied, and the result is
    encoded again (a NaN result as the positive quiet NaN). *)

From Stdlib Require Import Floats.SpecFloat.
From S2P Require Import Prelude Bytes Types.

Definition f_prec (w : Z) : Z := if w =? 32 then 24 else 53.
Definition f_emax (w : Z) : Z := if w =? 32 then 128 else 1024.
Definition f_emin (w : Z) : Z := 3 - f_emax w - f_prec w.
(** The implicit bit of a normal mantissa. *)
Definition f_hidden (w : Z) : Z := 2 ^ (f_prec w - 1).

Definition f_decode (w bits : Z) : spec_float :=
  let s := f_negative w bits in
  let e := f_magnitude w bits / f_hidden w in
  let m := f_magnitude w bits mod f_hidden w in
  if e =? 0 then
    match m with
    | Zpos p => S754_finite s p (f_emin w)
    | _ => S754_zero s
    end
  else if f_inf w <=? f_magnitude w bits then
    if m =? 0 then S754_infinity s else S754_nan
  else S754_finite s (Z.to_pos (f_hidden w + m)) (e + f_emin w - 1).

Definition f_encode (w : Z) (x : spec_float) : Z :=
  let sign (s : bool) := if s then f_sign_bit w else 0 in
  match x with
  | S754_zero s => sign s
  | S754_infinity s => sign s + f_inf w
  | S754_nan => f_inf w + f_hidden w / 2
  | S754_finite s m e =>
      if Zpos m <? f_hidden w then sign s + Zpos m
      else sign s + (e - f_emin w + 1) * f_hidden w + (Zpos m - f_hidden w)
  end.

Definition f_lift2 (op : Z -> Z -> spec_float -> spec_float -> spec_float) (w a b : Z) : Z :=
  f_encode w (op (f_prec w) (f_emax w) (f_decode w a) (f_decode w b)).

Definition f_add : Z -> Z -> Z -> Z := f_lift2 SFadd.
Definition f_sub : Z -> Z -> Z -> Z := f_lift2 SFsub.
Definition f_mul : Z -> Z -> Z -> Z := f_lift2 SFmul.
Definition f_div : Z -> Z -> Z -> Z := f_lift2 SFdiv.

(** [%]: the remainder of the truncated quotient, exact, with the sign of the
    dividend. *)
Definition SFrem (prec emax : Z) (x y : spec_float) : spec_float :=
  match x, y with
  | S754_nan, _ | _, S754_nan | S754_infinity _, _ | _, S754_zero _ => S754_nan
  | S754_zero _, _ | _, S754_infinity _ => x
  | S754_finite sx mx ex, S754_finite _ my ey =>
      let ez := Z.min ex ey in
      match Z.rem (Zpos mx * 2 ^ (ex - ez)) (Zpos my * 2 ^ (ey - ez)) with
      | Zpos r => binary_round prec emax sx r ez
      | _ => S754_zero sx
      end
  end.
Definition f_rem : Z -> Z -> Z -> Z := f_lift2 SFrem.

(** Unary minus flips the sign bit. *)
Definition f_neg (w a : Z) : Z := Z.lxor a (f_sign_bit w).

(** [v as f64] of an integer, and the widening of an [f32]. *)
Definition f64_of_int (v : Z) : Z :=
  f_encode 64 (binary_normalize (f_prec 64) (f_emax 64) v 0 false).

Definition f64_of_f32 (a : Z) : Z :=
  f_encode 64 (match f_decode 32 a with
               | S754_finite s m e => binary_round (f_prec 64) (f_emax 64) s m e
               | x => x
               end).

(** 1.5 + 2.25 = 3.75, 7 % 2.5 = 2, 1 / 3 rounded to nearest. *)
Example f_add_ex : f_add 64 0x3FF8000000000000 0x4002000000000000 = 0x400E000000000000.
Proof. vm_compute. reflexivity. Qed.
Example f_rem_ex : f_rem 32 0x40E00000 0x40200000 = 0x40000000.
Proof. vm_compute. reflexivity. Qed.
Example f_div_ex : f_div 64 (f64_of_int 1) (f64_of_f32 0x40400000) = 0x3FD5555555555555.
Proof. vm_compute. reflexivity. Qed.
Example f_div_zero_ex : f_div 64 (f64_of_int (-1)) (f64_of_int 0) = 0xFFF0000000000000.
Proof. vm_compute. reflexivity. Qed.

(** ** The two views agree *)

Section Views.
Variable w : Z.
Hypothesis Hw : w = 32 \/ w = 64.

Lemma f_hidden_pos : 0 < f_hidden w.
Proof. destruct Hw; subst; reflexivity. Qed.

Lemma f_inf_pos : 0 < f_inf w.
Proof. destruct Hw; subst; reflexivity. Qed.

(** Magnitudes are [e * hidden + m]; the sign bit is the largest pattern plus 1. *)
Lemma f_sign_hidden : f_sign_bit w = f_inf w + f_hidden w.
Proof. destruct Hw; subst; reflexivity. Qed.

Lemma f_magnitude_split bits :
  f_magnitude w bits
  = f_hidden w * (f_magnitude w bits / f_hidden w) + f_magnitude w bits mod f_hidden w.
Proof. pose proof f_hidden_pos. apply Z.div_mod. lia. Qed.

Lemma f_bits_split bits :
  in_u w bits = true ->
  bits = (if f_negative w bits then f_sign_bit w else 0) + f_magnitude w bits.
Proof.
  intros Hb. apply in_u_iff in Hb. unfold f_negative, f_magnitude.
  assert (Hs : 2 ^ w = 2 * f_sign_bit w) by (destruct Hw; subst; reflexivity).
  destruct (f_sign_bit w <=? bits) eqn:E; bool_to_prop.
  - pose proof (Z.mod_unique bits (f_sign_bit w) 1 (bits - f_sign_bit w)). lia.
  - rewrite Z.mod_small; lia.
Qed.

(** Decoding loses nothing but NaN payloads. *)
Lemma f_encode_decode bits :
  in_u w bits = true -> f_is_nan w bits = false -> f_encode w (f_decode w bits) = bits.
Proof.
  intros Hb Hn. rewrite (f_bits_split bits Hb) at 2.
  unfold f_is_nan in Hn. bool_to_prop.
  pose proof (f_magnitude_split bits) as Hs. pose proof f_hidden_pos as Hh.
  pose proof (Z.mod_pos_bound (f_magnitude w bits) (f_hidden w) Hh) as Hm.
  assert (0 <= f_magnitude w bits) by (apply Z.mod_pos_bound; destruct Hw; subst; reflexivity).
  pose proof (Z.div_pos (f_magnitude w bits) (f_hidden w) ltac:(lia) Hh) as He.
  assert (Hi : 0 < f_inf w) by (destruct Hw; subst; reflexivity).
  unfold f_decode. set (e := f_magnitude w bits / f_hidden w) in *.
  set (m := f_magnitude w bits mod f_hidden w) in *. set (s := f_negative w bits).
  destruct (e =? 0) eqn:Ee; bool_to_prop.
  - rewrite Hs, Ee, Z.mul_0_r, Z.add_0_l. destruct m as [|p|p]; cbn [f_encode]; [lia | | lia].
    rewrite (proj2 (Z.ltb_lt _ _)) by lia. reflexivity.
  - destruct (f_inf w <=? f_magnitude w bits) eqn:Ei; bool_to_prop.
    + replace (f_magnitude w bits) with (f_inf w) by lia.
      replace (m =? 0) with true; [reflexivity |]. symmetry. apply Z.eqb_eq. unfold m.
      replace (f_magnitude w bits) with (f_inf w) by lia. destruct Hw; subst; reflexivity.
    + cbn [f_encode]. rewrite Z2Pos.id, (proj2 (Z.ltb_ge _ _)) by lia.
      rewrite Hs. fold s. lia.
Qed.

(** What [f_decode] returns on a number, in terms of its magnitude. *)
Definition decodes_to (s : bool) (mag : Z) (x : spec_float) : Prop :=
  match x with
  | S754_zero s' => s' = s /\ mag = 0
  | S754_infinity s' => s' = s /\ mag = f_inf w
  | S754_nan => False
  | S754_finite s' m e =>
      s' = s /\ 0 < mag < f_inf w /\ f_emin w <= e
      /\ ((e = f_emin w /\ mag = Zpos m /\ Zpos m < f_hidden w)
          \/ (mag = (e - f_emin w) * f_hidden w + Zpos m
              /\ f_hidden w <= Zpos m < 2 * f_hidden w))
  end.

Lemma f_decode_spec bits :
  f_is_nan w bits = false -> decodes_to (f_negative w bits) (f_magnitude w bits) (f_decode w bits).
Proof.
  intros Hn. unfold f_is_nan in Hn. bool_to_prop.
  pose proof (f_magnitude_split bits) as Hs. pose proof f_hidden_pos as Hh.
  pose proof (Z.mod_pos_bound (f_magnitude w bits) (f_hidden w) Hh) as Hm.
  assert (0 <= f_magnitude w bits) by (apply Z.mod_pos_bound; destruct Hw; subst; reflexivity).
  pose proof (Z.div_pos (f_magnitude w bits) (f_hidden w) ltac:(lia) Hh) as He.
  assert (Hi : f_hidden w < f_inf w) by (destruct Hw; subst; reflexivity).
  assert (Hz : f_inf w mod f_hidden w = 0) by (destruct Hw; subst; reflexivity).
  unfold f_decode. set (e := f_magnitude w bits / f_hidden w) in *.
  destruct (e =? 0) eqn:Ee; bool_to_prop.
  - rewrite Ee in Hs. destruct (f_magnitude w bits mod f_hidden w) as [|p|p] eqn:Em;
      cbn [decodes_to]; repeat split; try lia.
  - destruct (f_inf w <=? f_magnitude w bits) eqn:Ei; bool_to_prop.
    + assert (Heq : f_magnitude w bits = f_inf w) by lia.
      rewrite Heq, Hz. cbn. auto.
    + cbn [decodes_to]. rewrite Z2Pos.id by lia. repeat split; try lia; nia.
Qed.

(** The order of the keys is the IEEE order. *)
Lemma f_compare_key a b :
  f_is_nan w a = false -> f_is_nan w b = false ->
  SFcompare (f_decode w a) (f_decode w b) = Some (f_key w a ?= f_key w b).
Proof.
  intros Ha Hb. pose proof (f_decode_spec a Ha) as Da. pose proof (f_decode_spec b Hb) as Db.
  pose proof f_hidden_pos as Hh. pose proof f_inf_pos as Hi.
  unfold f_key.
  destruct (f_decode w a) as [sa|sa| |sa ma ea], (f_decode w b) as [sb|sb| |sb mb eb];
    cbn [decodes_to] in Da, Db; try tauto;
    destruct Da as [<- Da], Db as [<- Db]; cbn [SFcompare]; f_equal;
    try (destruct sa, sb; symmetry;
         rewrite ?Z.compare_eq_iff, ?Z.compare_lt_iff, ?Z.compare_gt_iff; lia).
  change (Pos.compare_cont Eq ma mb) with (Z.compare (Zpos ma) (Zpos mb)).
  destruct sa, sb; symmetry; rewrite ?Z.compare_lt_iff, ?Z.compare_gt_iff; try lia;
    destruct (Z.compare_spec ea eb); destruct (Z.compare_spec (Zpos ma) (Zpos mb)); cbn [CompOpp];
    rewrite ?Z.compare_eq_iff, ?Z.compare_lt_iff, ?Z.compare_gt_iff; nia.
Qed.
End Views.
