(* ===== verification/Evaluators.v ===== *)
(** * Expression evaluators

    The evaluators of src/src/types/evaluator: the numeric macros of mod.rs,
    boolean.rs, decimal.rs, float32.rs, float64.rs, time32.rs, time64.rs,
    tuple.rs, utf8.rs and null.rs, and [EvaluatorFactory], which picks one from
    a type and an operator.  [unreachable_unchecked] is undefined behaviour in
    the source and [Panic] here. *)

From S2P Require Import Prelude Bytes Types LogicalTypes Values Floats.

(** The [$value_type] the numeric macros are instantiated with. *)
Module VT.
Inductive ValueType :=
| Int8 | Int16 | Int32 | Int64 | UInt8 | UInt16 | UInt32 | UInt64
| Float32 | Float64 | Date | DateTime | Decimal.
End VT.
Abbreviation ValueType := VT.ValueType.

(** The evaluator structs: a value type and, for the numeric ones, the operator
    in the struct's name. *)
Inductive UnaryEvaluatorBox :=
| NumericUnary (vt : ValueType) (op : UnaryOperator)
| BooleanNot.

Inductive BinaryEvaluatorBox :=
| NumericBinary (vt : ValueType) (op : BinaryOperator)
| TimeBinary (op : BinaryOperator)
| Time64Binary (op : BinaryOperator)
| BooleanBinary (op : BinaryOperator)
| Utf8Binary (op : BinaryOperator)
| NullBinary
| TupleBinary (op : BinaryOperator).

(** Machine type of an integer evaluator: width and signedness. *)
Definition int_width (vt : ValueType) : Z :=
  match vt with
  | VT.Int8 | VT.UInt8 => 8
  | VT.Int16 | VT.UInt16 => 16
  | VT.Int32 | VT.UInt32 | VT.Date => 32
  | _ => 64
  end.
Definition int_signed (vt : ValueType) : bool :=
  match vt with
  | VT.UInt8 | VT.UInt16 | VT.UInt32 | VT.UInt64 => false
  | _ => true
  end.
Definition in_int (vt : ValueType) (z : Z) : bool :=
  if int_signed vt then in_i (int_width vt) z else in_u (int_width vt) z.

(** The UTF-8 bytes of a character. *)
Definition utf8_encode (c : Z) : bytes :=
  if c <? 0x80 then [c]
  else if c <? 0x800 then [0xC0 + c / 64; 0x80 + c mod 64]
  else if c <? 0x10000 then [0xE0 + c / 4096; 0x80 + c / 64 mod 64; 0x80 + c mod 64]
  else [0xF0 + c / 262144; 0x80 + c / 4096 mod 64; 0x80 + c / 64 mod 64; 0x80 + c mod 64].

(** [str::chars]: each character as its UTF-8 bytes. *)
Fixpoint chars (s : bytes) : list bytes :=
  match s with
  | [] => []
  | b :: s' =>
      match chars s' with
      | (b' :: cs) :: rest =>
          if is_continuation b' then (b :: b' :: cs) :: rest else [b] :: (b' :: cs) :: rest
      | rest => [b] :: rest
      end
  end.

Section Evaluators.
Context {F : Foreign}.

(** ** The shape shared by the binary evaluators

    [(T(v1), T(v2)) => f v1 v2], [(T(_), Null) | (Null, T(_)) | (Null, Null) => Null],
    anything else is unreachable. *)
Definition eval2 {A} (proj : DataValue -> option A) (f : A -> A -> Result DataValue)
    (left right : DataValue) : Result DataValue :=
  match proj left, proj right with
  | Some v1, Some v2 => f v1 v2
  | Some _, None => if is_null right then Ok DV.Null else Panic
  | None, Some _ => if is_null left then Ok DV.Null else Panic
  | None, None => if is_null left && is_null right then Ok DV.Null else Panic
  end.

(** A comparison operator applied to an ordering. *)
Definition cmp_op (op : BinaryOperator) (c : comparison) : option bool :=
  match op with
  | BinaryOp.Gt => Some (is_gt c)
  | BinaryOp.GtEq => Some (is_ge c)
  | BinaryOp.Lt => Some (is_lt c)
  | BinaryOp.LtEq => Some (is_le c)
  | BinaryOp.Eq => Some (match c with Eq => true | _ => false end)
  | BinaryOp.NotEq => Some (match c with Eq => false | _ => true end)
  | _ => None
  end.

Definition of_cmp_op (op : BinaryOperator) (c : comparison) : Result DataValue :=
  match cmp_op op c with Some b => Ok (DV.Boolean b) | None => Panic end.

(** ** Integers and dates *)

(** The [$compute_type] pattern and constructor. *)
Definition int_proj (vt : ValueType) (v : DataValue) : option Z :=
  match vt, v with
  | VT.Int8, DV.Int8 z | VT.Int16, DV.Int16 z | VT.Int32, DV.Int32 z | VT.Int64, DV.Int64 z
  | VT.UInt8, DV.UInt8 z | VT.UInt16, DV.UInt16 z | VT.UInt32, DV.UInt32 z
  | VT.UInt64, DV.UInt64 z | VT.Date, DV.Date32 z | VT.DateTime, DV.Date64 z => Some z
  | _, _ => None
  end.

Definition int_value (vt : ValueType) (z : Z) : DataValue :=
  match vt with
  | VT.Int8 => DV.Int8 z
  | VT.Int16 => DV.Int16 z
  | VT.Int32 => DV.Int32 z
  | VT.Int64 => DV.Int64 z
  | VT.UInt8 => DV.UInt8 z
  | VT.UInt16 => DV.UInt16 z
  | VT.UInt32 => DV.UInt32 z
  | VT.UInt64 => DV.UInt64 z
  | VT.Date => DV.Date32 z
  | _ => DV.Date64 z
  end.

(** [checked_add], [checked_sub], [checked_mul] followed by
    [ok_or(DatabaseError::OverFlow)]. *)
Definition checked (vt : ValueType) (z : Z) : Result DataValue :=
  if in_int vt z then Ok (int_value vt z) else Err OverFlow.

(** [numeric_binary_evaluator_definition!] on an integer type. *)
Definition int_binary_eval (vt : ValueType) (op : BinaryOperator) (left right : DataValue)
  : Result DataValue :=
  eval2 (int_proj vt)
    (fun v1 v2 =>
       match op with
       | BinaryOp.Plus => checked vt (v1 + v2)
       | BinaryOp.Minus => checked vt (v1 - v2)
       | BinaryOp.Multiply => checked vt (v1 * v2)
       | BinaryOp.Divide => Ok (DV.Float64 (f_div 64 (f64_of_int v1) (f64_of_int v2)))
       | BinaryOp.Modulo =>
           (* [v1 % v2] panics on zero and where the quotient overflows *)
           if (v2 =? 0) || negb (in_int vt (Z.quot v1 v2)) then Panic
           else Ok (int_value vt (Z.rem v1 v2))
       | _ => of_cmp_op op (v1 ?= v2)
       end) left right.

(** [numeric_unary_evaluator_definition!]: [-value] overflows on the minimum. *)
Definition int_unary_eval (vt : ValueType) (op : UnaryOperator) (value : DataValue)
  : Result DataValue :=
  match op with
  | UnaryOp.Plus => Ok value
  | _ =>
      match int_proj vt value with
      | Some z => if in_int vt (- z) then Ok (int_value vt (- z)) else Panic
      | None => if is_null value then Ok DV.Null else Panic
      end
  end.

(** ** Floats *)

Definition float32_proj (v : DataValue) : option Z :=
  match v with DV.Float32 b => Some b | _ => None end.
Definition float64_proj (v : DataValue) : option Z :=
  match v with DV.Float64 b => Some b | _ => None end.

Definition float32_binary_eval (op : BinaryOperator) : DataValue -> DataValue -> Result DataValue :=
  eval2 float32_proj
    (fun v1 v2 =>
       match op with
       | BinaryOp.Plus => Ok (DV.Float32 (f_add 32 v1 v2))
       | BinaryOp.Minus => Ok (DV.Float32 (f_sub 32 v1 v2))
       | BinaryOp.Multiply => Ok (DV.Float32 (f_mul 32 v1 v2))
       | BinaryOp.Divide => Ok (DV.Float64 (f_div 64 (f64_of_f32 v1) (f64_of_f32 v2)))
       | BinaryOp.Modulo => Ok (DV.Float32 (f_rem 32 v1 v2))
       | BinaryOp.Eq => Ok (DV.Boolean (of_eqb 32 v1 v2))
       | BinaryOp.NotEq => Ok (DV.Boolean (negb (of_eqb 32 v1 v2)))
       | _ => of_cmp_op op (of_cmp 32 v1 v2)
       end).

Definition float64_binary_eval (op : BinaryOperator) : DataValue -> DataValue -> Result DataValue :=
  eval2 float64_proj
    (fun v1 v2 =>
       match op with
       | BinaryOp.Plus => Ok (DV.Float64 (f_add 64 v1 v2))
       | BinaryOp.Minus => Ok (DV.Float64 (f_sub 64 v1 v2))
       | BinaryOp.Multiply => Ok (DV.Float64 (f_mul 64 v1 v2))
       | BinaryOp.Divide => Ok (DV.Float64 (f_div 64 v1 v2))
       | BinaryOp.Modulo => Ok (DV.Float64 (f_rem 64 v1 v2))
       | BinaryOp.Eq => Ok (DV.Boolean (of_eqb 64 v1 v2))
       | BinaryOp.NotEq => Ok (DV.Boolean (negb (of_eqb 64 v1 v2)))
       | _ => of_cmp_op op (of_cmp 64 v1 v2)
       end).

Definition float32_unary_eval (op : UnaryOperator) (value : DataValue) : Result DataValue :=
  match op, value with
  | UnaryOp.Plus, _ => Ok value
  | _, DV.Float32 b => Ok (DV.Float32 (f_neg 32 b))
  | _, DV.Null => Ok DV.Null
  | _, _ => Panic
  end.
Definition float64_unary_eval (op : UnaryOperator) (value : DataValue) : Result DataValue :=
  match op, value with
  | UnaryOp.Plus, _ => Ok value
  | _, DV.Float64 b => Ok (DV.Float64 (f_neg 64 b))
  | _, DV.Null => Ok DV.Null
  | _, _ => Panic
  end.

(** ** Decimals: the operators of the decimal type panic where the checked
    operations return nothing. *)

Definition decimal_proj (v : DataValue) : option Decimal :=
  match v with DV.Decimal d => Some d | _ => None end.
Definition decimal_arith (o : option Decimal) : Result DataValue :=
  let? d := unwrap o in Ok (DV.Decimal d).

Definition decimal_binary_eval (op : BinaryOperator) : DataValue -> DataValue -> Result DataValue :=
  eval2 decimal_proj
    (fun v1 v2 =>
       match op with
       | BinaryOp.Plus => decimal_arith (dec_checked_add v1 v2)
       | BinaryOp.Minus => decimal_arith (dec_checked_sub v1 v2)
       | BinaryOp.Multiply => decimal_arith (dec_checked_mul v1 v2)
       | BinaryOp.Divide => decimal_arith (dec_checked_div v1 v2)
       | BinaryOp.Modulo => decimal_arith (dec_checked_rem v1 v2)
       | BinaryOp.Eq => Ok (DV.Boolean (dec_eqb v1 v2))
       | BinaryOp.NotEq => Ok (DV.Boolean (negb (dec_eqb v1 v2)))
       | _ => of_cmp_op op (dec_cmp v1 v2)
       end).

(** ** Times *)

Definition time_proj (v : DataValue) : option (Z * Z) :=
  match v with DV.Time32 t p => Some (t, p) | _ => None end.

(** [while n > ONE_SEC_TO_NANO { v1 += 1; n -= ONE_SEC_TO_NANO; }].  The sum of
    two [u32]s that did not overflow carries at most four times. *)
Fixpoint carry_seconds (fuel : nat) (v1 n : Z) : Z * Z :=
  match fuel with
  | O => (v1, n)
  | S fuel' =>
      if ONE_SEC_TO_NANO <? n then carry_seconds fuel' (v1 + 1) (n - ONE_SEC_TO_NANO) else (v1, n)
  end.

(** [while n1 < n2 { v1 -= 1; n1 += ONE_SEC_TO_NANO; }]: [v1] is a [u32]. *)
Fixpoint borrow_seconds (fuel : nat) (v1 n1 n2 : Z) : Result (Z * Z) :=
  match fuel with
  | O => Ok (v1, n1)
  | S fuel' =>
      if n1 <? n2 then
        if (v1 =? 0) || (2 ^ 32 <=? n1 + ONE_SEC_TO_NANO) then Panic
        else borrow_seconds fuel' (v1 - 1) (n1 + ONE_SEC_TO_NANO) n2
      else Ok (v1, n1)
  end.

Definition time_plus (v1 p1 v2 p2 : Z) : Result DataValue :=
  let? '(s1, n1) := unpack v1 p1 in
  let? '(s2, n2) := unpack v2 p2 in
  if 2 ^ 32 <=? n1 + n2 then Panic else
  let '(s1, n) := carry_seconds 5 s1 (n1 + n2) in
  let p := if p1 <? p2 then p2 else p1 in
  if 2 ^ 32 <=? s1 + s2 then Panic
  else if ONE_DAY_TO_SEC <? s1 + s2 then Ok DV.Null
  else let? t := pack (s1 + s2) n p in Ok (DV.Time32 t p).

Definition time_minus (v1 p1 v2 p2 : Z) : Result DataValue :=
  let? '(s1, n1) := unpack v1 p1 in
  let? '(s2, n2) := unpack v2 p2 in
  let? '(s1, n1) := borrow_seconds 5 s1 n1 n2 in
  if s1 <? s2 then Ok DV.Null
  else
    let p := if p1 <? p2 then p2 else p1 in
    let? t := pack (s1 - s2) (n1 - n2) p in
    Ok (DV.Time32 t p).

Definition time_binary_eval (op : BinaryOperator) : DataValue -> DataValue -> Result DataValue :=
  eval2 time_proj
    (fun '(v1, p1) '(v2, p2) =>
       match op with
       | BinaryOp.Plus => time_plus v1 p1 v2 p2
       | BinaryOp.Minus => time_minus v1 p1 v2 p2
       | _ =>
           let? '(s1, n1) := unpack v1 p1 in
           let? '(s2, n2) := unpack v2 p2 in
           of_cmp_op op (cmp_then (s1 ?= s2) (n1 ?= n2))
       end).

(** ** Timestamps *)

Definition from_timestamp_precision (v precision : Z) : Result (option DateTime) :=
  match precision with
  | 0 => Ok (dt_from_timestamp v 0)
  | 3 => Ok (dt_from_timestamp_millis v)
  | 6 => Ok (dt_from_timestamp_micros v)
  | 9 => Ok (dt_from_timestamp (v / ONE_SEC_TO_NANO) (v mod ONE_SEC_TO_NANO))
  | _ => Panic
  end.

Definition timestamp_precision (v : DateTime) (precision : Z) : Result Z :=
  match precision with
  | 3 => Ok (dt_timestamp_millis v)
  | 6 => Ok (dt_timestamp_micros v)
  | 9 => Ok (default 0 (dt_timestamp_nanos_opt v))
  | 0 => Ok (dt_timestamp v)
  | _ => Panic
  end.

Definition time64_proj (v : DataValue) : option (Z * Z) :=
  match v with DV.Time64 t p _ => Some (t, p) | _ => None end.

Definition time64_binary_eval (op : BinaryOperator) : DataValue -> DataValue -> Result DataValue :=
  eval2 time64_proj
    (fun '(v1, p1) '(v2, p2) =>
       let? o1 := from_timestamp_precision v1 p1 in
       let? o2 := from_timestamp_precision v2 p2 in
       match o1, o2 with
       | Some d1, Some d2 =>
           let p := if p1 <? p2 then p2 else p1 in
           let? t1 := timestamp_precision d1 p in
           let? t2 := timestamp_precision d2 p in
           of_cmp_op op (t1 ?= t2)
       | _, _ => Ok DV.Null
       end).

(** ** Booleans *)

Definition boolean_not_eval (value : DataValue) : Result DataValue :=
  match value with
  | DV.Boolean b => Ok (DV.Boolean (negb b))
  | DV.Null => Ok DV.Null
  | _ => Panic
  end.

Definition boolean_and_eval (left right : DataValue) : Result DataValue :=
  match left, right with
  | DV.Boolean v1, DV.Boolean v2 => Ok (DV.Boolean (v1 && v2))
  | DV.Boolean false, DV.Null | DV.Null, DV.Boolean false => Ok (DV.Boolean false)
  | DV.Null, DV.Null | DV.Boolean true, DV.Null | DV.Null, DV.Boolean true => Ok DV.Null
  | _, _ => Panic
  end.

Definition boolean_or_eval (left right : DataValue) : Result DataValue :=
  match left, right with
  | DV.Boolean v1, DV.Boolean v2 => Ok (DV.Boolean (v1 || v2))
  | DV.Boolean true, DV.Null | DV.Null, DV.Boolean true => Ok (DV.Boolean true)
  | DV.Null, DV.Null | DV.Boolean false, DV.Null | DV.Null, DV.Boolean false => Ok DV.Null
  | _, _ => Panic
  end.

Definition boolean_proj (v : DataValue) : option bool :=
  match v with DV.Boolean b => Some b | _ => None end.

Definition boolean_binary_eval (op : BinaryOperator) (left right : DataValue) : Result DataValue :=
  match op with
  | BinaryOp.And => boolean_and_eval left right
  | BinaryOp.Or => boolean_or_eval left right
  | BinaryOp.Eq => eval2 boolean_proj (fun v1 v2 => Ok (DV.Boolean (Bool.eqb v1 v2))) left right
  | _ => eval2 boolean_proj (fun v1 v2 => Ok (DV.Boolean (negb (Bool.eqb v1 v2)))) left right
  end.

(** ** Strings *)

(** The regular expression [string_like] builds: [%] becomes [.*], [_] becomes
    [.], the character after the escape character and all others are copied. *)
Fixpoint like_regex (cs : list bytes) (escape_char : option Z) : bytes :=
  match cs with
  | [] => []
  | c :: cs' =>
      if match escape_char with
         | Some e => bool_decide (utf8_encode e = c)
         | None => false
         end
      then match cs' with
           | [] => []
           | next_char :: cs'' => next_char ++ like_regex cs'' escape_char
           end
      else if bool_decide (c = [37]) then [46; 42] ++ like_regex cs' escape_char
      else if bool_decide (c = [95]) then [46] ++ like_regex cs' escape_char
      else c ++ like_regex cs' escape_char
  end.

Definition string_like (value pattern : bytes) (escape_char : option Z) : Result bool :=
  unwrap (regex_is_match (like_regex (chars pattern) escape_char) value).

Definition utf8_proj (v : DataValue) : option bytes :=
  match v with DV.Utf8 s _ _ => Some s | _ => None end.

Definition utf8_binary_eval (op : BinaryOperator) : DataValue -> DataValue -> Result DataValue :=
  eval2 utf8_proj
    (fun v1 v2 =>
       match op with
       | BinaryOp.StringConcat => Ok (DV.Utf8 (v1 ++ v2) (Utf8Variable None) Characters)
       | BinaryOp.Like escape_char =>
           let? b := string_like v1 v2 escape_char in Ok (DV.Boolean b)
       | BinaryOp.NotLike escape_char =>
           let? b := string_like v1 v2 escape_char in Ok (DV.Boolean (negb b))
       | _ => of_cmp_op op (lex_cmp v1 v2)
       end).

(** ** Tuples *)

Fixpoint tuple_cmp (v1 : list DataValue) (is_upper1 : bool) (v2 : list DataValue)
    (is_upper2 : bool) : option comparison :=
  match v1, v2 with
  | x :: v1', y :: v2' =>
      match partial_cmp x y with
      | Some Eq => tuple_cmp v1' is_upper1 v2' is_upper2
      | o => o
      end
  | _ :: _, [] => Some (if is_upper2 then Lt else Gt)
  | [], _ :: _ => Some (if is_upper1 then Gt else Lt)
  | [], [] => Some Eq
  end.

(** [Vec<DataValue> == Vec<DataValue>]. *)
Fixpoint values_eq (v1 v2 : list DataValue) : bool :=
  match v1, v2 with
  | [], [] => true
  | x :: v1', y :: v2' => dv_eq x y && values_eq v1' v2'
  | _, _ => false
  end.

(** The null patterns of these evaluators name [Boolean], not [Tuple]. *)
Definition tuple_binary_eval (op : BinaryOperator) (left right : DataValue) : Result DataValue :=
  match left, right with
  | DV.Tuple v1 up1, DV.Tuple v2 up2 =>
      match op with
      | BinaryOp.Eq => Ok (DV.Boolean (values_eq v1 v2))
      | BinaryOp.NotEq => Ok (DV.Boolean (negb (values_eq v1 v2)))
      | _ =>
          match tuple_cmp v1 up1 v2 up2 with
          | Some c => of_cmp_op op c
          | None => Ok DV.Null
          end
      end
  | DV.Null, DV.Boolean _ | DV.Boolean _, DV.Null | DV.Null, DV.Null => Ok DV.Null
  | _, _ => Panic
  end.

(** ** The factory *)

Definition numeric_op (op : BinaryOperator) : bool :=
  match op with
  | BinaryOp.Plus | BinaryOp.Minus | BinaryOp.Multiply | BinaryOp.Divide | BinaryOp.Gt
  | BinaryOp.GtEq | BinaryOp.Lt | BinaryOp.LtEq | BinaryOp.Eq | BinaryOp.NotEq
  | BinaryOp.Modulo => true
  | _ => false
  end.

Definition compare_op (op : BinaryOperator) : bool :=
  match op with
  | BinaryOp.Gt | BinaryOp.GtEq | BinaryOp.Lt | BinaryOp.LtEq | BinaryOp.Eq
  | BinaryOp.NotEq => true
  | _ => false
  end.

(** [numeric_binary_evaluator!] and [numeric_unary_evaluator!]. *)
Definition numeric_binary_evaluator (vt : ValueType) (op : BinaryOperator) (ty : LogicalType)
  : Result BinaryEvaluatorBox :=
  if numeric_op op then Ok (NumericBinary vt op) else Err (UnsupportedBinaryOperator ty op).

Definition numeric_unary_evaluator (vt : ValueType) (op : UnaryOperator) (ty : LogicalType)
  : Result UnaryEvaluatorBox :=
  match op with
  | UnaryOp.Plus | UnaryOp.Minus => Ok (NumericUnary vt op)
  | _ => Err (UnsupportedUnaryOperator ty op)
  end.

Definition unary_create (ty : LogicalType) (op : UnaryOperator) : Result UnaryEvaluatorBox :=
  match ty with
  | LT.Tinyint => numeric_unary_evaluator VT.Int8 op LT.Tinyint
  | LT.Smallint => numeric_unary_evaluator VT.Int16 op LT.Smallint
  | LT.Integer => numeric_unary_evaluator VT.Int32 op LT.Integer
  | LT.Bigint => numeric_unary_evaluator VT.Int64 op LT.Bigint
  | LT.Boolean =>
      match op with
      | UnaryOp.Not => Ok BooleanNot
      | _ => Err (UnsupportedUnaryOperator ty op)
      end
  | LT.Float => numeric_unary_evaluator VT.Float32 op LT.Float
  | LT.Double => numeric_unary_evaluator VT.Float64 op LT.Double
  | _ => Err (UnsupportedUnaryOperator ty op)
  end.

Definition binary_create (ty : LogicalType) (op : BinaryOperator) : Result BinaryEvaluatorBox :=
  let unsupported := Err (UnsupportedBinaryOperator ty op) in
  match ty with
  | LT.Tinyint => numeric_binary_evaluator VT.Int8 op LT.Tinyint
  | LT.Smallint => numeric_binary_evaluator VT.Int16 op LT.Smallint
  | LT.Integer => numeric_binary_evaluator VT.Int32 op LT.Integer
  | LT.Bigint => numeric_binary_evaluator VT.Int64 op LT.Bigint
  | LT.UTinyint => numeric_binary_evaluator VT.UInt8 op LT.UTinyint
  | LT.USmallint => numeric_binary_evaluator VT.UInt16 op LT.USmallint
  | LT.UInteger => numeric_binary_evaluator VT.UInt32 op LT.UInteger
  | LT.UBigint => numeric_binary_evaluator VT.UInt64 op LT.UBigint
  | LT.Float => numeric_binary_evaluator VT.Float32 op LT.Float
  | LT.Double => numeric_binary_evaluator VT.Float64 op LT.Double
  | LT.Date => numeric_binary_evaluator VT.Date op LT.Date
  | LT.DateTime => numeric_binary_evaluator VT.DateTime op LT.DateTime
  | LT.Time _ =>
      match op with
      | BinaryOp.Plus | BinaryOp.Minus | BinaryOp.Gt | BinaryOp.GtEq | BinaryOp.Lt
      | BinaryOp.LtEq | BinaryOp.Eq | BinaryOp.NotEq => Ok (TimeBinary op)
      | _ => unsupported
      end
  | LT.TimeStamp _ _ => if compare_op op then Ok (Time64Binary op) else unsupported
  | LT.Decimal _ _ => numeric_binary_evaluator VT.Decimal op ty
  | LT.Boolean =>
      match op with
      | BinaryOp.And | BinaryOp.Or | BinaryOp.Eq | BinaryOp.NotEq => Ok (BooleanBinary op)
      | _ => unsupported
      end
  | LT.Varchar _ _ | LT.Char _ _ =>
      match op with
      | BinaryOp.Gt | BinaryOp.Lt | BinaryOp.GtEq | BinaryOp.LtEq | BinaryOp.Eq
      | BinaryOp.NotEq | BinaryOp.StringConcat | BinaryOp.Like _ | BinaryOp.NotLike _ =>
          Ok (Utf8Binary op)
      | _ => unsupported
      end
  | LT.SqlNull => Ok NullBinary
  | LT.Tuple _ => if compare_op op then Ok (TupleBinary op) else unsupported
  end.

(** ** Dispatch: [unary_eval] and [binary_eval] of the boxed evaluator *)

Definition numeric_binary_eval (vt : ValueType) (op : BinaryOperator) :
    DataValue -> DataValue -> Result DataValue :=
  match vt with
  | VT.Float32 => float32_binary_eval op
  | VT.Float64 => float64_binary_eval op
  | VT.Decimal => decimal_binary_eval op
  | _ => int_binary_eval vt op
  end.

Definition unary_eval (e : UnaryEvaluatorBox) (value : DataValue) : Result DataValue :=
  match e with
  | NumericUnary VT.Float32 op => float32_unary_eval op value
  | NumericUnary VT.Float64 op => float64_unary_eval op value
  | NumericUnary vt op => int_unary_eval vt op value
  | BooleanNot => boolean_not_eval value
  end.

Definition binary_eval (e : BinaryEvaluatorBox) (left right : DataValue) : Result DataValue :=
  match e with
  | NumericBinary vt op => numeric_binary_eval vt op left right
  | TimeBinary op => time_binary_eval op left right
  | Time64Binary op => time64_binary_eval op left right
  | BooleanBinary op => boolean_binary_eval op left right
  | Utf8Binary op => utf8_binary_eval op left right
  | NullBinary => Ok DV.Null
  | TupleBinary op => tuple_binary_eval op left right
  end.
End Evaluators.

(** ** Typing of evaluation *)

Section Typing.
Context {F : Foreign} {L : ForeignLaws F}.

(** A value of a type: null, or the variant that holds the type's values; a tuple
    is one whose elements have the element types, in order.  A tuple may be
    shorter than its type, which casting lets happen; lengths, precisions and
    scales are not part of it. *)
Fixpoint has_type (ty : LogicalType) (v : DataValue) {struct v} : bool :=
  match v with
  | DV.Tuple vs _ =>
      match ty with
      | LT.Tuple types =>
          (fix go (vs : list DataValue) (types : list LogicalType) : bool :=
             match vs, types with
             | [], _ => true
             | v :: vs, ty :: types => has_type ty v && go vs types
             | _ :: _, [] => false
             end) vs types
      | _ => false
      end
  | _ =>
      match ty, v with
      | _, DV.Null
      | LT.Boolean, DV.Boolean _
      | LT.Tinyint, DV.Int8 _ | LT.Smallint, DV.Int16 _ | LT.Integer, DV.Int32 _
      | LT.Bigint, DV.Int64 _ | LT.UTinyint, DV.UInt8 _ | LT.USmallint, DV.UInt16 _
      | LT.UInteger, DV.UInt32 _ | LT.UBigint, DV.UInt64 _
      | LT.Float, DV.Float32 _ | LT.Double, DV.Float64 _
      | LT.Char _ _, DV.Utf8 _ _ _ | LT.Varchar _ _, DV.Utf8 _ _ _
      | LT.Date, DV.Date32 _ | LT.DateTime, DV.Date64 _
      | LT.Time _, DV.Time32 _ _ | LT.TimeStamp _ _, DV.Time64 _ _ _
      | LT.Decimal _ _, DV.Decimal _ => true
      | _, _ => false
      end
  end.

(** The elements of a tuple. *)
Fixpoint have_types (vs : list DataValue) (types : list LogicalType) : bool :=
  match vs, types with
  | [], _ => true
  | v :: vs, ty :: types => has_type ty v && have_types vs types
  | _ :: _, [] => false
  end.
Lemma has_type_tuple types vs up : has_type (LT.Tuple types) (DV.Tuple vs up) = have_types vs types.
Proof. reflexivity. Qed.

(** The type of a result. *)
Definition result_type (ty : LogicalType) (op : BinaryOperator) : LogicalType :=
  match op with
  | BinaryOp.Plus | BinaryOp.Minus | BinaryOp.Multiply | BinaryOp.Modulo => ty
  | BinaryOp.Divide => match ty with LT.Decimal _ _ => ty | _ => LT.Double end
  | BinaryOp.StringConcat => LT.Varchar None Characters
  | _ => LT.Boolean
  end.

(** The types whose evaluators compare through [PartialOrd]. *)
Definition directly_ordered (ty : LogicalType) : bool :=
  match ty with
  | LT.SqlNull | LT.Time _ | LT.TimeStamp _ _ | LT.Tuple _ => false
  | _ => true
  end.

(** The ordering a comparison of two values of a type sees: none with a null. *)
Definition sql_cmp (l r : DataValue) : option comparison :=
  if is_null l || is_null r then None else partial_cmp l r.

Lemma of_eqb_cmp w a b : of_eqb w a b = match of_cmp w a b with Eq => true | _ => false end.
Proof.
  pose proof (of_eqb_spec w a b). destruct (of_eqb w a b), (of_cmp w a b); intuition congruence.
Qed.

Lemma dec_eqb_cmp a b : dec_eqb a b = match dec_cmp a b with Eq => true | _ => false end.
Proof.
  pose proof (dec_eqb_spec a b). destruct (dec_eqb a b), (dec_cmp a b); intuition congruence.
Qed.

Lemma eval2_ok {A} (proj : DataValue -> option A) f l r v :
  eval2 proj f l r = Ok v ->
  v = DV.Null \/ exists a b, proj l = Some a /\ proj r = Some b /\ f a b = Ok v.
Proof.
  unfold eval2. destruct (proj l), (proj r); [eauto 6 | ..];
    (destruct (is_null l); destruct (is_null r); cbn [andb]; intros; inv_ok; auto).
Qed.

Lemma eval2_some {A} (proj : DataValue -> option A) f l r a b :
  proj l = Some a -> proj r = Some b -> eval2 proj f l r = f a b.
Proof. unfold eval2. now intros -> ->. Qed.

Lemma of_cmp_op_bool op c v : of_cmp_op op c = Ok v -> exists b, v = DV.Boolean b.
Proof. unfold of_cmp_op. destruct (cmp_op op c); intros; inv_ok; eauto. Qed.

Lemma has_type_null ty : has_type ty DV.Null = true.
Proof. now destruct ty. Qed.
Lemma logical_type_typed v : has_type (logical_type v) v = true.
Proof.
  induction v as [vs up IH | v Hv] using DataValue_nested_ind.
  - cbn [logical_type]. rewrite has_type_tuple. induction IH as [|v vs Hv _ IHvs]; [reflexivity |].
    cbn [map have_types]. now rewrite Hv, IHvs.
  - destruct v as [| | | | | | | | | | | | s [len|len] unit | | | | | |]; try reflexivity. now edestruct Hv.
Qed.

Lemma int_value_type vt ty l z :
  int_proj vt l = Some z -> has_type ty l = true -> forall z', has_type ty (int_value vt z') = true.
Proof. destruct vt; destruct l; cbn; try discriminate; destruct ty; cbn; congruence || auto. Qed.

Lemma checked_ok vt z v : checked vt z = Ok v -> v = int_value vt z.
Proof. unfold checked. destruct (in_int vt z); intros; inv_ok; auto. Qed.

Lemma int_value_ok vt l z z' :
  int_proj vt l = Some z -> in_int vt z' = true -> value_ok (int_value vt z') = true.
Proof. destruct vt; destruct l; cbn; try discriminate; auto. Qed.

Lemma int_proj_in_int vt l z : int_proj vt l = Some z -> value_ok l = true -> in_int vt z = true.
Proof. destruct vt; destruct l; cbn; try discriminate; intros [= <-]; auto. Qed.

(** Split a successful [eval2] into its null case and its value case. *)
Ltac split_eval2 H :=
  apply eval2_ok in H;
  let a := fresh "a" in let b := fresh "b" in
  destruct H as [-> | (a & b & ? & ? & H)]; [apply has_type_null |].

Lemma int_eval_type vt op ty l r v :
  has_type ty l = true -> int_binary_eval vt op l r = Ok v -> has_type (result_type ty op) v = true.
Proof.
  intros Hl H. unfold int_binary_eval in H. split_eval2 H.
  assert (Hd : match ty with LT.Decimal _ _ => False | _ => True end).
  { destruct ty; auto. destruct vt; destruct l; cbn in *; discriminate. }
  destruct op; cbn [result_type]; try (apply of_cmp_op_bool in H as [? ->]; reflexivity);
    try (apply checked_ok in H as ->; now apply (int_value_type vt ty l a)).
  - inv_ok. destruct ty; tauto || reflexivity.
  - destruct (_ || _); inv_ok. now apply (int_value_type vt ty l a).
  - discriminate H.
Qed.

Lemma time_eval_type op ty l r v :
  has_type ty l = true -> time_binary_eval op l r = Ok v ->
  match op with BinaryOp.Plus | BinaryOp.Minus => True | _ => compare_op op = true end ->
  has_type (result_type ty op) v = true.
Proof.
  intros Hl H Hop. unfold time_binary_eval in H. split_eval2 H.
  destruct l; try discriminate. destruct a as [v1 p1], b as [v2 p2].
  destruct op; try discriminate Hop; cbn [result_type];
    try (inv_ok; apply of_cmp_op_bool in H as [? ->]; reflexivity).
  - unfold time_plus in H. inv_ok. destruct (_ <=? _); [discriminate |]. inv_ok.
    destruct (_ <=? _); [discriminate |].
    destruct (_ <? _) in H; inv_ok; [apply has_type_null | destruct ty; cbn in *; congruence].
  - unfold time_minus in H. inv_ok. destruct (_ <? _) in H; inv_ok;
      [apply has_type_null | destruct ty; cbn in *; congruence].
Qed.

Lemma evaluator_typed ty op ev l r v :
  binary_create ty op = Ok ev -> has_type ty l = true -> has_type ty r = true ->
  binary_eval ev l r = Ok v -> has_type (result_type ty op) v = true.
Proof.
  intros Hc Hl Hr He. unfold binary_create, numeric_binary_evaluator in Hc.
  destruct ty; try (destruct (numeric_op op) eqn:Hop; [| discriminate]);
    try (destruct (compare_op op) eqn:Hop; [| discriminate]);
    try (injection Hc as <-); cbn [binary_eval numeric_binary_eval] in He;
    try (eapply (int_eval_type _ op _ l r); eassumption).
  - inv_ok. apply has_type_null.
  - destruct op; inv_ok; cbn [result_type binary_eval boolean_binary_eval] in *;
      destruct l as [|[]| | | | | | | | | | | | | | | | |];
      destruct r as [|[]| | | | | | | | | | | | | | | | |]; cbn in *; inv_ok; reflexivity || discriminate.
  - unfold float32_binary_eval in He. split_eval2 He.
    destruct op; cbn [result_type] in *; inv_ok; try discriminate; try reflexivity;
      apply of_cmp_op_bool in He as [? ->]; reflexivity.
  - unfold float64_binary_eval in He. split_eval2 He.
    destruct op; cbn [result_type] in *; inv_ok; try discriminate; try reflexivity;
      apply of_cmp_op_bool in He as [? ->]; reflexivity.
  - destruct op; inv_ok; cbn [binary_eval] in He; apply eval2_ok in He as
      [-> | (a & b & _ & _ & He)]; try apply has_type_null; inv_ok;
      try (apply of_cmp_op_bool in He as [? ->]); reflexivity.
  - destruct op; inv_ok; cbn [binary_eval] in He; apply eval2_ok in He as
      [-> | (a & b & _ & _ & He)]; try apply has_type_null; inv_ok;
      try (apply of_cmp_op_bool in He as [? ->]); reflexivity.
  - apply (time_eval_type op _ l r); [exact Hl | |]; destruct op; inv_ok; auto.
  - unfold time64_binary_eval in He. split_eval2 He. destruct a, b. inv_ok.
    destruct a as [d1|], a0 as [d2|]; inv_ok; try apply has_type_null.
    destruct op; try discriminate Hop; apply of_cmp_op_bool in He as [? ->]; reflexivity.
  - unfold decimal_binary_eval in He. split_eval2 He. unfold decimal_arith in He.
    destruct op; try discriminate Hop; cbn [result_type] in *; inv_ok; try reflexivity;
      apply of_cmp_op_bool in He as [? ->]; reflexivity.
  - destruct l; destruct r; try discriminate; cbn [tuple_binary_eval] in He; inv_ok;
      try apply has_type_null.
    destruct op; try discriminate Hop; cbn [result_type] in *; inv_ok; try reflexivity;
      (destruct (tuple_cmp _ _ _ _); inv_ok;
       [apply of_cmp_op_bool in He as [? ->]; reflexivity | apply has_type_null]).
Qed.

(** Evaluation is well typed: whenever the factory has an evaluator for a
    type and an operator, its result on two values of that type is null or a
    value of the operator's result type. *)
Theorem binary_eval_type ty op ev l r v :
  binary_create ty op = Ok ev -> has_type ty l = true -> has_type ty r = true ->
  binary_eval ev l r = Ok v -> has_type (result_type ty op) v = true.
Proof. apply evaluator_typed. Qed.

(** Comparison evaluators apply their operator to [partial_cmp]. *)
Lemma comparison_is_order ty op ev l r :
  compare_op op = true -> directly_ordered ty = true -> binary_create ty op = Ok ev ->
  has_type ty l = true -> has_type ty r = true ->
  binary_eval ev l r =
    match sql_cmp l r with
    | Some c => of_cmp_op op c
    | None => Ok DV.Null
    end.
Proof.
  intros Hop Hty Hc Hl Hr. unfold binary_create, numeric_binary_evaluator in Hc.
  destruct ty; try discriminate Hty;
    destruct op; try discriminate Hop; cbn [numeric_op] in Hc; try discriminate Hc;
    injection Hc as <-;
    destruct l; try discriminate Hl; destruct r; try discriminate Hr; try reflexivity;
    cbn; unfold of_cmp_op; cbn [cmp_op]; rewrite ?of_eqb_cmp, ?dec_eqb_cmp; try reflexivity;
    repeat match goal with
           | b : bool |- _ => destruct b; try reflexivity
           | |- context [match ?c with Eq => _ | _ => _ end] => destruct c
           end; reflexivity.
Qed.

(** Values of an ordered type other than nulls are comparable. *)
Lemma ordered_comparable ty l r : directly_ordered ty = true -> has_type ty l = true -> has_type ty r = true ->
  is_null l = false -> is_null r = false -> exists c, partial_cmp l r = Some c.
Proof.
  intros Hty Hl Hr Nl Nr. destruct ty; try discriminate Hty; destruct l; try discriminate; destruct r; try discriminate;
    eexists; reflexivity.
Qed.

(** C31. Comparisons in expressions agree with the ordering of values, which
    sorting and range scans use: for every type whose evaluators do not decode a
    time or a tuple, the evaluator of a comparison operator returns null when an
    operand is null, and otherwise a boolean that is true exactly for the outcomes
    of [partial_cmp] the operator stands for. *)
Theorem comparison_agrees_with_order ty op ev l r :
  compare_op op = true -> directly_ordered ty = true -> binary_create ty op = Ok ev ->
  has_type ty l = true -> has_type ty r = true ->
  (is_null l || is_null r = true -> binary_eval ev l r = Ok DV.Null)
  /\ (is_null l || is_null r = false -> exists b, binary_eval ev l r = Ok (DV.Boolean b)
      /\ (b = true <-> match op with
                       | BinaryOp.Gt => partial_cmp l r = Some Gt
                       | BinaryOp.Lt => partial_cmp l r = Some Lt
                       | BinaryOp.GtEq => partial_cmp l r = Some Gt \/ partial_cmp l r = Some Eq
                       | BinaryOp.LtEq => partial_cmp l r = Some Lt \/ partial_cmp l r = Some Eq
                       | BinaryOp.Eq => partial_cmp l r = Some Eq
                       | BinaryOp.NotEq => partial_cmp l r = Some Lt \/ partial_cmp l r = Some Gt
                       | _ => False
                       end)).
Proof.
  intros Hop Hty Hc Hl Hr. rewrite (comparison_is_order ty op ev l r) by assumption. unfold sql_cmp.
  split; intros Hn; rewrite Hn; [reflexivity |]. apply orb_false_iff in Hn as [Nl Nr].
  destruct (ordered_comparable ty l r Hty Hl Hr Nl Nr) as (c & ->).
  destruct op; try discriminate Hop; destruct c; (eexists; split; [reflexivity |]); cbn; intuition congruence.
Qed.

(** Integer arithmetic. *)
Lemma checked_arith ty op ev vt l r a b (f : Z -> Z -> Z) :
  binary_create ty op = Ok ev -> ev = NumericBinary vt op ->
  match op with
  | BinaryOp.Plus => f = Z.add
  | BinaryOp.Minus => f = Z.sub
  | BinaryOp.Multiply => f = Z.mul
  | _ => False
  end ->
  int_proj vt l = Some a -> int_proj vt r = Some b ->
  (in_int vt (f a b) = true
   /\ exists v, binary_eval ev l r = Ok v /\ int_proj vt v = Some (f a b) /\ value_ok v = true)
  \/ (in_int vt (f a b) = false /\ binary_eval ev l r = Err OverFlow).
Proof.
  intros Hc -> Hf Ha Hb.
  assert (He : binary_eval (NumericBinary vt op) l r = checked vt (f a b)).
  { destruct vt; try (destruct l; discriminate Ha); cbn [binary_eval numeric_binary_eval];
      unfold int_binary_eval; rewrite (eval2_some _ _ _ _ _ _ Ha Hb);
      destruct op; try contradiction; now subst. }
  rewrite He. unfold checked. destruct (in_int vt (f a b)) eqn:E; [left | right; auto].
  split; [reflexivity |]. exists (int_value vt (f a b)). split; [reflexivity |].
  split; [| now apply (int_value_ok vt l a)].
  destruct vt; try reflexivity; destruct l; discriminate Ha.
Qed.

(** Integer arithmetic is exact or refused: on two integers (or dates) in
    range, [+], [-] and [*] return the mathematical result when the machine type
    holds it and [OverFlow] otherwise; they neither wrap nor panic. *)
Theorem int_arith_exact ty op ev vt l r a b (f : Z -> Z -> Z) :
  binary_create ty op = Ok ev -> ev = NumericBinary vt op ->
  match op with
  | BinaryOp.Plus => f = Z.add
  | BinaryOp.Minus => f = Z.sub
  | BinaryOp.Multiply => f = Z.mul
  | _ => False
  end ->
  int_proj vt l = Some a -> int_proj vt r = Some b ->
  (in_int vt (f a b) = true
   /\ exists v, binary_eval ev l r = Ok v /\ int_proj vt v = Some (f a b) /\ value_ok v = true)
  \/ (in_int vt (f a b) = false /\ binary_eval ev l r = Err OverFlow).
Proof. apply checked_arith. Qed.

End Typing.

(** ** Three-valued logic *)

Section Logic.
Context {F : Foreign}.

(** Truth values: false, unknown, true. *)
Definition truth (v : DataValue) : option Z :=
  match v with
  | DV.Boolean false => Some 0
  | DV.Null => Some 1
  | DV.Boolean true => Some 2
  | _ => None
  end.

(** [AND], [OR] and [NOT] are Kleene's three-valued connectives: on
    booleans and nulls they return the minimum, the maximum and the complement
    of the truth values. *)
Theorem kleene_logic l r a b :
  truth l = Some a -> truth r = Some b ->
  exists vand vor vnot,
    boolean_binary_eval BinaryOp.And l r = Ok vand /\ truth vand = Some (Z.min a b)
    /\ boolean_binary_eval BinaryOp.Or l r = Ok vor /\ truth vor = Some (Z.max a b)
    /\ boolean_not_eval l = Ok vnot /\ truth vnot = Some (2 - a).
Proof.
  destruct l as [|[]| | | | | | | | | | | | | | | | |]; try discriminate; intros [= <-];
    destruct r as [|[]| | | | | | | | | | | | | | | | |]; try discriminate; intros [= <-];
    cbn; do 3 eexists; repeat split; reflexivity.
Qed.

(** Comparing a tuple with null is undefined behaviour: the evaluators of
    tuple comparisons match null against [Boolean] instead of [Tuple], so the
    unreachable branch is reached. *)
Theorem tuple_null_unreachable types op ev vs up :
  binary_create (F := F) (LT.Tuple types) op = Ok ev ->
  binary_eval ev (DV.Tuple vs up) DV.Null = Panic
  /\ binary_eval ev DV.Null (DV.Tuple vs up) = Panic.
Proof.
  cbn [binary_create]. destruct (compare_op op); [intros [= <-] | discriminate].
  split; reflexivity.
Qed.
End Logic.

(** ** Times *)

Section Times.
Context {F : Foreign} {L : ForeignLaws F}.

(** The nanoseconds kept at a precision. *)
Definition trunc_nanos (b precision : Z) : Z := b / 10 ^ (9 - precision) * 10 ^ (9 - precision).

(** Times compare chronologically: the evaluators unpack both operands, so
    on times packed at precisions 0 to 4 they compare the seconds, then the
    nanoseconds each precision keeps. *)
Theorem time_comparison_chronological op s1 n1 p1 s2 n2 p2 :
  compare_op op = true ->
  0 <= s1 <= ONE_DAY_TO_SEC -> 0 <= n1 < ONE_SEC_TO_NANO -> 0 <= p1 <= 4 ->
  0 <= s2 <= ONE_DAY_TO_SEC -> 0 <= n2 < ONE_SEC_TO_NANO -> 0 <= p2 <= 4 ->
  exists v1 v2,
    pack s1 n1 p1 = Ok v1 /\ pack s2 n2 p2 = Ok v2
    /\ time_binary_eval op (DV.Time32 v1 p1) (DV.Time32 v2 p2)
       = of_cmp_op op (cmp_then (s1 ?= s2) (trunc_nanos n1 p1 ?= trunc_nanos n2 p2)).
Proof.
  intros Hop Hs1 Hn1 Hp1 Hs2 Hn2 Hp2.
  destruct (pack_unpack_prec s1 n1 p1) as (v1 & -> & _ & H1); try assumption.
  destruct (pack_unpack_prec s2 n2 p2) as (v2 & -> & _ & H2); try assumption.
  exists v1, v2. split; [reflexivity |]. split; [reflexivity |].
  unfold time_binary_eval. rewrite (eval2_some _ _ _ _ (v1, p1) (v2, p2)) by reflexivity.
  destruct op; try discriminate Hop; rewrite H1, H2; reflexivity.
Qed.

(** The ordering of [DataValue] does not: it compares the packed integers,
    whose high bits are the fraction.  2.0 s is packed below 1.5 s, so sorting
    and index ranges on [TIME(1)] columns disagree with [>] and [<]. *)
Theorem time_order_not_chronological :
  exists v1 v2,
    pack 2 0 1 = Ok v1 /\ pack 1 500000000 1 = Ok v2
    /\ partial_cmp (DV.Time32 v1 1) (DV.Time32 v2 1) = Some Lt
    /\ time_binary_eval BinaryOp.Gt (DV.Time32 v1 1) (DV.Time32 v2 1) = Ok (DV.Boolean true).
Proof. exists 2, (5 * 2 ^ 28 + 1). repeat split; reflexivity. Qed.

(** Adding times does not carry a full second: the loop runs while the
    nanoseconds exceed one second, so 0.5 s + 0.5 s keeps 1000000000
    nanoseconds and does not equal 1 s. *)
Theorem time_plus_missing_carry :
  exists half one v,
    pack 0 500000000 1 = Ok half /\ pack 1 0 1 = Ok one
    /\ time_binary_eval BinaryOp.Plus (DV.Time32 half 1) (DV.Time32 half 1)
       = Ok (DV.Time32 v 1)
    /\ unpack v 1 = Ok (0, 1000000000)
    /\ time_binary_eval BinaryOp.Eq (DV.Time32 v 1) (DV.Time32 one 1)
       = Ok (DV.Boolean false).
Proof. exists (5 * 2 ^ 28), 1, (10 * 2 ^ 28). repeat split; reflexivity. Qed.

(** A timestamp in microseconds. *)
Definition micros (v p : Z) : Z := v * 10 ^ (6 - p).

(** The precisions of a second a timestamp has, down to microseconds. *)
Definition second_precision (p : Z) : Prop := p = 0 \/ p = 3 \/ p = 6.

(** Reading an instant back at a finer precision scales it. *)
Lemma timestamp_rescale v p d q :
  from_timestamp_precision v p = Ok (Some d) -> second_precision p -> second_precision q -> p <= q ->
  timestamp_precision d q = Ok (v * 10 ^ (q - p)).
Proof.
  intros H [-> | [-> | ->]] Hq Hle;
    cbn [from_timestamp_precision] in H; injection H as H;
    first [ apply dt_from_timestamp_spec in H | apply dt_from_millis_spec in H
          | apply dt_from_micros_spec in H ]; destruct H as (Hs & Hm & Hu);
    destruct Hq as [-> | [-> | ->]];
    try lia; cbn [timestamp_precision]; rewrite ?Hs, ?Hm, ?Hu; f_equal;
    clear; change (0 / 1000000) with 0; change (0 / 1000) with 0; cbn; lia.
Qed.

(** Timestamps of different precisions compare as instants: for precisions
    0, 3 and 6 and values chrono accepts, the comparison is that of the two
    instants in microseconds. *)
Theorem timestamp_comparison op v1 p1 z1 d1 v2 p2 z2 d2 :
  compare_op op = true -> second_precision p1 -> second_precision p2 ->
  from_timestamp_precision v1 p1 = Ok (Some d1) -> from_timestamp_precision v2 p2 = Ok (Some d2) ->
  time64_binary_eval op (DV.Time64 v1 p1 z1) (DV.Time64 v2 p2 z2)
  = of_cmp_op op (micros v1 p1 ?= micros v2 p2).
Proof.
  intros Hop Hp1 Hp2 H1 H2. unfold time64_binary_eval.
  rewrite (eval2_some _ _ _ _ (v1, p1) (v2, p2)) by reflexivity.
  rewrite H1, H2. cbn [result_bind]. set (p := if p1 <? p2 then p2 else p1).
  assert (Hp : second_precision p /\ p1 <= p /\ p2 <= p).
  { unfold p. destruct (p1 <? p2) eqn:E; bool_to_prop; split; try assumption; lia. }
  destruct Hp as (Hp & Hle1 & Hle2).
  rewrite (timestamp_rescale v1 p1 d1 p), (timestamp_rescale v2 p2 d2 p) by assumption.
  cbn [result_bind]. unfold micros. apply (f_equal (of_cmp_op op)).
  assert (0 <= p1 /\ 0 <= p2 /\ p <= 6) as (? & ? & ?)
    by (unfold second_precision in *; lia).
  replace (6 - p1) with (p - p1 + (6 - p)) by lia. replace (6 - p2) with (p - p2 + (6 - p)) by lia.
  rewrite !Z.pow_add_r, !Z.mul_assoc by lia.
  apply Zmult_compare_compat_r. apply Z.lt_gt, Z.pow_pos_nonneg; lia.
Qed.
End Times.

(** ** LIKE *)

Section Like.
Context {F : Foreign}.

Definition is_literal (b : Z) : bool := (97 <=? b) && (b <=? 122).

(** A pattern of lower-case letters has no metacharacter: [Regex::is_match]
    searches for it anywhere in the text. *)
Hypothesis regex_literal : forall p before after,
  forallb is_literal p = true -> regex_is_match p (before ++ p ++ after) = Some true.

Lemma like_regex_literal p : forallb is_literal p = true -> like_regex (chars p) None = p.
Proof.
  induction p as [|b p IH]; [reflexivity |]. cbn [forallb]. intros H. bool_to_prop.
  specialize (IH H0).
  assert (Hc : chars (b :: p) = [b] :: chars p).
  { cbn [chars]. destruct p as [|b' p]; [reflexivity |].
    assert (Hb' : is_continuation b' = false).
    { cbn [forallb] in H0. bool_to_prop. unfold is_continuation, is_literal in *. bool_to_prop.
      apply Z.eqb_neq. intros Hl. assert (Z.testbit (Z.land b' 192) 7 = true) by now rewrite Hl.
      rewrite Z.land_spec in *. bool_to_prop.
      rewrite Z.testbit_true in * by lia. rewrite Z.div_small in * by lia. discriminate. }
    destruct (chars (b' :: p)) as [|[|c cs] rest] eqn:E; try reflexivity.
    assert (c = b') as ->.
    { clear -E. cbn [chars] in E. destruct (chars p) as [|[|x xs] r];
        try destruct (is_continuation x); congruence. }
    now rewrite Hb'. }
  rewrite Hc. cbn [like_regex]. unfold is_literal in H. bool_to_prop.
  rewrite !bool_decide_eq_false_2 by (intros [= ->]; lia). now rewrite IH.
Qed.

(** [LIKE] is not anchored: a pattern without wildcards is true of every
    string that contains it, not only of the string equal to it. *)
Theorem like_not_anchored p before after ty1 u1 ty2 u2 :
  forallb is_literal p = true ->
  utf8_binary_eval (BinaryOp.Like None)
    (DV.Utf8 (before ++ p ++ after) ty1 u1) (DV.Utf8 p ty2 u2) = Ok (DV.Boolean true).
Proof.
  intros Hp. unfold utf8_binary_eval, string_like.
  rewrite (eval2_some _ _ _ _ (before ++ p ++ after) p) by reflexivity.
  now rewrite like_regex_literal, regex_literal by assumption.
Qed.
End Like.

(** ** Witnesses *)

Section Witnesses.
#[local] Existing Instance RefForeign.ref_foreign.
#[local] Existing Instance RefForeign.ref_laws.

Lemma binary_eval_type_witness : has_type LT.Double (DV.Float64 0x4004000000000000) = true.
Proof.
  apply (binary_eval_type LT.Integer BinaryOp.Divide (NumericBinary VT.Int32 BinaryOp.Divide)
           (DV.Int32 5) (DV.Int32 2)); reflexivity.
Defined.

Lemma comparison_agrees_with_order_witness :
  exists b, binary_eval (NumericBinary VT.Int32 BinaryOp.GtEq) (DV.Int32 5) (DV.Int32 2) = Ok (DV.Boolean b)
    /\ (b = true <-> partial_cmp (DV.Int32 5) (DV.Int32 2) = Some Gt \/ partial_cmp (DV.Int32 5) (DV.Int32 2) = Some Eq).
Proof.
  apply (proj2 (comparison_agrees_with_order LT.Integer BinaryOp.GtEq (NumericBinary VT.Int32 BinaryOp.GtEq)
    (DV.Int32 5) (DV.Int32 2) eq_refl eq_refl eq_refl eq_refl eq_refl)). reflexivity.
Defined.

Lemma int_arith_exact_witness :
  (in_int VT.Int8 (100 + 27) = true
   /\ exists v, binary_eval (NumericBinary VT.Int8 BinaryOp.Plus) (DV.Int8 100) (DV.Int8 27) = Ok v
                /\ int_proj VT.Int8 v = Some (100 + 27) /\ value_ok v = true)
  \/ (in_int VT.Int8 (100 + 27) = false
      /\ binary_eval (NumericBinary VT.Int8 BinaryOp.Plus) (DV.Int8 100) (DV.Int8 27)
         = Err OverFlow).
Proof. apply (int_arith_exact LT.Tinyint BinaryOp.Plus _ VT.Int8 _ _ 100 27 Z.add); reflexivity. Defined.

Lemma kleene_logic_witness :
  exists vand vor vnot,
    boolean_binary_eval BinaryOp.And DV.Null (DV.Boolean false) = Ok vand
    /\ truth vand = Some (Z.min 1 0)
    /\ boolean_binary_eval BinaryOp.Or DV.Null (DV.Boolean false) = Ok vor
    /\ truth vor = Some (Z.max 1 0)
    /\ boolean_not_eval DV.Null = Ok vnot /\ truth vnot = Some (2 - 1).
Proof. apply (kleene_logic DV.Null (DV.Boolean false)); reflexivity. Defined.

Lemma tuple_null_unreachable_witness :
  binary_eval (TupleBinary BinaryOp.Eq) (DV.Tuple [DV.Int8 1] false) DV.Null = Panic
  /\ binary_eval (TupleBinary BinaryOp.Eq) DV.Null (DV.Tuple [DV.Int8 1] false) = Panic.
Proof. apply (tuple_null_unreachable [LT.Tinyint] BinaryOp.Eq). reflexivity. Defined.

Lemma time_comparison_chronological_witness :
  exists v1 v2,
    pack 2 0 1 = Ok v1 /\ pack 1 500000000 3 = Ok v2
    /\ time_binary_eval BinaryOp.Gt (DV.Time32 v1 1) (DV.Time32 v2 3)
       = of_cmp_op BinaryOp.Gt (cmp_then (2 ?= 1) (trunc_nanos 0 1 ?= trunc_nanos 500000000 3)).
Proof.
  apply (time_comparison_chronological BinaryOp.Gt 2 0 1 1 500000000 3);
    unfold ONE_DAY_TO_SEC, ONE_SEC_TO_NANO; reflexivity || lia.
Defined.

Lemma timestamp_comparison_witness :
  time64_binary_eval BinaryOp.Lt (DV.Time64 1 0 false) (DV.Time64 1500 3 false)
  = of_cmp_op BinaryOp.Lt (micros 1 0 ?= micros 1500 3).
Proof.
  eapply (timestamp_comparison BinaryOp.Lt 1 0 false _ 1500 3 false _);
    try reflexivity; unfold second_precision; lia.
Defined.
End Witnesses.

Lemma is_infix_app p a b : RefForeign.is_infix p (a ++ p ++ b) = true.
Proof.
  induction a as [|x a IH].
  - destruct (p ++ b) as [|y s] eqn:E; cbn [RefForeign.is_infix app].
    + apply app_eq_nil in E as [-> ->]. reflexivity.
    + rewrite <- E, take_app_length, bool_decide_eq_true_2 by reflexivity. reflexivity.
  - cbn [app RefForeign.is_infix]. rewrite IH. apply orb_true_r.
Qed.

Lemma like_not_anchored_witness :
  utf8_binary_eval (F := RefForeign.ref_foreign) (BinaryOp.Like None)
    (DV.Utf8 ([97] ++ [98] ++ [99]) (Utf8Variable None) Characters)
    (DV.Utf8 [98] (Utf8Variable None) Characters) = Ok (DV.Boolean true).
Proof.
  apply (like_not_anchored (F := RefForeign.ref_foreign)
           (fun p a b _ => f_equal Some (is_infix_app p a b)) [98] [97] [99]).
  reflexivity.
Defined.
