(* ===== verification/Memcomparable.v ===== *)
(** * The memcomparable key encoding

    [DataValue::memcomparable_encode] (src/src/types/value.rs) writes a value so
    that comparing the bytes compares the values: keys of tables and indexes
    are stored in that order.  The functions append to a buffer, and so do the
    definitions; [BOUND_MIN_TAG] and [BOUND_MAX_TAG] are those of
    src/src/storage/table_codec.rs. *)

From S2P Require Import Prelude Bytes Types LogicalTypes Values Evaluators.

Definition ENCODE_GROUP_SIZE : nat := 8.
Definition ENCODE_MARKER : Z := 0xFF.
Definition BOUND_MIN_TAG : Z := 0.
Definition BOUND_MAX_TAG : Z := 255.

(** [realloc_bytes]: reserves, and also resizes the buffer with zeros. *)
Definition realloc_bytes (b : bytes) (size : nat) : bytes :=
  if (length b <? size)%nat then b ++ repeat 0 (size - length b) else b.

(** The [while idx <= d_len] loop of [encode_bytes]; [data] is [data[idx..]].
    It runs [d_len / 8 + 1] times. *)
Fixpoint encode_groups (fuel : nat) (b data : bytes) : bytes :=
  match fuel with
  | O => b
  | S fuel' =>
      if (ENCODE_GROUP_SIZE <=? length data)%nat
      then encode_groups fuel'
             (b ++ take ENCODE_GROUP_SIZE data ++ [ENCODE_MARKER])
             (drop ENCODE_GROUP_SIZE data)
      else
        let pad_count := (ENCODE_GROUP_SIZE - length data)%nat in
        b ++ data ++ repeat 0 pad_count ++ [ENCODE_MARKER - Z.of_nat pad_count]
  end.

Definition realloc_size (d_len : nat) : nat :=
  ((d_len / ENCODE_GROUP_SIZE + 1) * (ENCODE_GROUP_SIZE + 1))%nat.

Definition encode_bytes (b data : bytes) : bytes :=
  encode_groups (length data / ENCODE_GROUP_SIZE + 1)
    (realloc_bytes b (realloc_size (length data))) data.

(** [v as uN ^ 0x80..0] in big-endian order. *)
Definition encode_int (n : nat) (v : Z) : bytes :=
  let w := 8 * Z.of_nat n in
  be_bytes n (Z.lxor (as_u w v) (2 ^ (w - 1))).

(** [f >= 0.0] on a bit pattern. *)
Definition f_ge_zero (w bits : Z) : bool :=
  negb (f_is_nan w bits) && (0 <=? f_key w bits).

(** The sign bit is set on non-negative floats, every bit is flipped otherwise. *)
Definition encode_float (n : nat) (bits : Z) : bytes :=
  let w := 8 * Z.of_nat n in
  be_bytes n (if f_ge_zero w bits then Z.lor bits (2 ^ (w - 1)) else 2 ^ w - 1 - bits).

(** ** Decimals *)

(** [POW10.partition_point(|p| p <= mantissa)]: the number of decimal digits,
    at most 30. *)
Fixpoint partition_pow10 (fuel : nat) (p mantissa : Z) : Z :=
  match fuel with
  | O => 0
  | S fuel' => if p <=? mantissa then 1 + partition_pow10 fuel' (10 * p) mantissa else 0
  end.

(** [while mantissa % 10 == 0 && mantissa != 0]. *)
Fixpoint trim_zeros (fuel : nat) (mantissa digit_num : Z) : Z * Z :=
  match fuel with
  | O => (mantissa, digit_num)
  | S fuel' =>
      if (mantissa mod 10 =? 0) && negb (mantissa =? 0)
      then trim_zeros fuel' (mantissa / 10) (digit_num - 1)
      else (mantissa, digit_num)
  end.

(** The two loops that push a byte per pair of digits, least significant pair
    first: while the mantissa needs more than 64 bits, then until it is 0. *)
Fixpoint push_pairs_wide (fuel : nat) (mantissa : Z) (acc : bytes) : Z * bytes :=
  match fuel with
  | O => (mantissa, acc)
  | S fuel' =>
      if negb (Z.shiftr mantissa 64 =? 0)
      then push_pairs_wide fuel' (mantissa / 100) (acc ++ [mantissa mod 100 * 2 + 1])
      else (mantissa, acc)
  end.

Fixpoint push_pairs (fuel : nat) (mantissa : Z) (acc : bytes) : bytes :=
  match fuel with
  | O => acc
  | S fuel' =>
      if mantissa =? 0 then acc
      else push_pairs fuel' (mantissa / 100) (acc ++ [mantissa mod 100 * 2 + 1])
  end.

Section Encode.
Context {F : Foreign}.

(** [decimal_e_m]: the exponent in base 100 and the significand bytes.  A
    mantissa has at most 29 digits, so 40 iterations are enough in each loop. *)
Definition decimal_e_m (decimal : Decimal) : Result (Z * bytes) :=
  if dec_is_zero decimal then Ok (0, []) else
  let mantissa := Z.abs (dec_mantissa decimal) in
  let prec := partition_pow10 30 1 mantissa in
  let e10 := prec - dec_scale decimal in
  let e100 := if 0 <=? e10 then (e10 + 1) / 2 else Z.quot e10 2 in
  let digit_num := if e10 =? 2 * e100 then prec else prec + 1 in
  let '(mantissa, digit_num) := trim_zeros 40 mantissa digit_num in
  let mantissa := if digit_num mod 2 =? 1 then mantissa * 10 else mantissa in
  let '(mantissa, acc) := push_pairs_wide 40 mantissa [] in
  match push_pairs 40 mantissa acc with
  | [] => Panic
  | b0 :: rest => Ok (as_i 8 e100, rev (b0 - 1 :: rest))
  end.

Definition serialize_decimal (decimal : Decimal) (b : bytes) : Result bytes :=
  if dec_is_zero decimal then Ok (b ++ [0x15]) else
  let? '(exponent, significand) := decimal_e_m decimal in
  if negb (dec_is_sign_negative decimal) then
    let header :=
      if 11 <=? exponent then [0x22; as_u 8 exponent]
      else if 0 <=? exponent then [0x17 + as_u 8 exponent]
      else [0x16; as_u 8 (- (- exponent) - 1)] in
    Ok (b ++ header ++ significand)
  else
    let header :=
      if 11 <=? exponent then [0x8; as_u 8 (- exponent - 1)]
      else if 0 <=? exponent then [0x13 - as_u 8 exponent]
      else [0x14; as_u 8 (- exponent)] in
    Ok (b ++ header ++ map (fun x => 255 - x) significand).

(** ** Values *)

Fixpoint memcomparable_encode (v : DataValue) (b : bytes) : Result bytes :=
  match v with
  | DV.Int8 v => Ok (b ++ encode_int 1 v)
  | DV.Int16 v => Ok (b ++ encode_int 2 v)
  | DV.Int32 v | DV.Date32 v => Ok (b ++ encode_int 4 v)
  | DV.Int64 v | DV.Date64 v | DV.Time64 v _ _ => Ok (b ++ encode_int 8 v)
  | DV.UInt8 v => Ok (b ++ be_bytes 1 v)
  | DV.UInt16 v => Ok (b ++ be_bytes 2 v)
  | DV.UInt32 v | DV.Time32 v _ => Ok (b ++ be_bytes 4 v)
  | DV.UInt64 v => Ok (b ++ be_bytes 8 v)
  | DV.Utf8 value _ _ => Ok (encode_bytes b value)
  | DV.Boolean v => Ok (b ++ [if v then 49 else 48])
  | DV.Float32 f => Ok (b ++ encode_float 4 f)
  | DV.Float64 f => Ok (b ++ encode_float 8 f)
  | DV.Null => Ok b
  | DV.Decimal d => serialize_decimal d b
  | DV.Tuple values is_upper =>
      match values with
      | [] => Panic
      | _ =>
          (fix go (l : list DataValue) (b : bytes) : Result bytes :=
             match l with
             | [] => Ok b
             | v :: l' =>
                 let? b' := memcomparable_encode v b in
                 let is_last := match l' with [] => true | _ => false end in
                 go l' (b' ++ [if (is_null v || is_last) && is_upper
                               then BOUND_MAX_TAG else BOUND_MIN_TAG])
             end) values b
      end
  end.

(** The loop over the components of a tuple. *)
Fixpoint encode_components (l : list DataValue) (is_upper : bool) (b : bytes) : Result bytes :=
  match l with
  | [] => Ok b
  | v :: l' =>
      let? b' := memcomparable_encode v b in
      let is_last := match l' with [] => true | _ => false end in
      encode_components l' is_upper
        (b' ++ [if (is_null v || is_last) && is_upper then BOUND_MAX_TAG else BOUND_MIN_TAG])
  end.

(** The variants whose encoding has a fixed width: everything but strings,
    decimals, nulls and tuples. *)
Definition fixed_width (v : DataValue) : bool :=
  match v with
  | DV.Null | DV.Utf8 _ _ _ | DV.Decimal _ | DV.Tuple _ _ => false
  | _ => true
  end.

Definition not_nan (v : DataValue) : bool :=
  match v with
  | DV.Float32 b => negb (f_is_nan 32 b)
  | DV.Float64 b => negb (f_is_nan 64 b)
  | _ => true
  end.

(** The bytes a fixed-width value appends. *)
Definition fixed_encoding (v : DataValue) : bytes :=
  match v with
  | DV.Int8 v => encode_int 1 v
  | DV.Int16 v => encode_int 2 v
  | DV.Int32 v | DV.Date32 v => encode_int 4 v
  | DV.Int64 v | DV.Date64 v | DV.Time64 v _ _ => encode_int 8 v
  | DV.UInt8 v => be_bytes 1 v
  | DV.UInt16 v => be_bytes 2 v
  | DV.UInt32 v | DV.Time32 v _ => be_bytes 4 v
  | DV.UInt64 v => be_bytes 8 v
  | DV.Boolean v => [if v then 49 else 48]
  | DV.Float32 f => encode_float 4 f
  | DV.Float64 f => encode_float 8 f
  | _ => []
  end.
End Encode.

(** ** Fixed-width values *)

Section Integers.

Lemma lxor_top_bit w x :
  0 < w -> 0 <= x < 2 ^ w ->
  Z.lxor x (2 ^ (w - 1)) = if x <? 2 ^ (w - 1) then x + 2 ^ (w - 1) else x - 2 ^ (w - 1).
Proof.
  intros Hw Hx. pose proof (pow2_half w Hw) as Hh.
  assert (Hlow : forall y, 0 <= y < 2 ^ (w - 1) -> Z.lxor (2 ^ (w - 1)) y = 2 ^ (w - 1) + y).
  { intros y Hy. symmetry. apply Z.add_nocarry_lxor.
    rewrite <- (Z.mul_1_l (2 ^ (w - 1))), <- Z.shiftl_mul_pow2 by lia.
    apply land_shiftl_small; lia. }
  destruct (x <? 2 ^ (w - 1)) eqn:E; bool_to_prop.
  - rewrite Z.lxor_comm, Hlow; lia.
  - replace x with (2 ^ (w - 1) + (x - 2 ^ (w - 1))) at 1 by lia.
    rewrite <- Hlow by lia. rewrite (Z.lxor_comm (2 ^ (w - 1))), Z.lxor_assoc, Z.lxor_nilpotent.
    apply Z.lxor_0_r.
Qed.

(** Flipping the sign bit of a signed integer adds [2^(w-1)]. *)
Lemma encode_int_offset n v :
  (0 < n)%nat -> in_i (8 * Z.of_nat n) v = true ->
  encode_int n v = be_bytes n (v + 2 ^ (8 * Z.of_nat n - 1)).
Proof.
  intros Hn Hv. unfold encode_int. set (w := 8 * Z.of_nat n) in *.
  apply in_i_iff in Hv. assert (Hw : 0 < w) by lia. pose proof (pow2_half w Hw) as Hh.
  f_equal. rewrite lxor_top_bit by (auto using as_u_range with lia).
  rewrite as_u_signed by lia. destruct (v <? 0) eqn:E; bool_to_prop;
    destruct (_ <? 2 ^ (w - 1)) eqn:E'; bool_to_prop; lia.
Qed.

Lemma encode_int_cmp n x y :
  (0 < n)%nat -> in_i (8 * Z.of_nat n) x = true -> in_i (8 * Z.of_nat n) y = true ->
  lex_cmp (encode_int n x) (encode_int n y) = (x ?= y).
Proof.
  intros Hn Hx Hy. rewrite !encode_int_offset by assumption.
  apply in_i_iff in Hx, Hy. pose proof (pow2_half (8 * Z.of_nat n) ltac:(lia)).
  rewrite be_bytes_cmp by (rewrite pow256_pow2; lia). rewrite !(Z.add_comm _ (2 ^ _)). apply Z.add_compare_mono_l.
Qed.

Lemma be_bytes_u_cmp n x y :
  in_u (8 * Z.of_nat n) x = true -> in_u (8 * Z.of_nat n) y = true ->
  lex_cmp (be_bytes n x) (be_bytes n y) = (x ?= y).
Proof.
  intros Hx Hy. apply in_u_iff in Hx, Hy. apply be_bytes_cmp; now rewrite pow256_pow2.
Qed.

(** The integer a non-NaN float is encoded as. *)
Definition float_code (w bits : Z) : Z :=
  if 0 <=? f_key w bits then f_key w bits + 2 ^ (w - 1) else f_key w bits + 2 ^ (w - 1) - 1.

Lemma f_key_range w bits : 0 < w -> - 2 ^ (w - 1) < f_key w bits < 2 ^ (w - 1).
Proof.
  intros Hw. unfold f_key, f_magnitude, f_sign_bit.
  pose proof (Z.mod_pos_bound bits (2 ^ (w - 1)) ltac:(apply Z.pow_pos_nonneg; lia)).
  destruct (f_negative w bits); lia.
Qed.

Lemma encode_float_code n bits :
  (0 < n)%nat -> in_u (8 * Z.of_nat n) bits = true -> f_is_nan (8 * Z.of_nat n) bits = false ->
  encode_float n bits = be_bytes n (float_code (8 * Z.of_nat n) bits).
Proof.
  intros Hn Hb Hnan. unfold encode_float, float_code, f_ge_zero. rewrite Hnan. cbn [negb andb].
  set (w := 8 * Z.of_nat n) in *. assert (Hw : 0 < w) by lia.
  apply in_u_iff in Hb. pose proof (pow2_half w Hw) as Hh. f_equal.
  unfold f_key, f_negative, f_magnitude, f_sign_bit.
  destruct (2 ^ (w - 1) <=? bits) eqn:E; bool_to_prop.
  - assert (Hm : bits mod 2 ^ (w - 1) = bits - 2 ^ (w - 1)).
    { symmetry. apply Z.mod_unique with (q := 1); lia. }
    rewrite Hm. destruct (0 <=? - (bits - 2 ^ (w - 1))) eqn:E'; bool_to_prop; [| lia].
    replace bits with (2 ^ (w - 1)) by lia. rewrite Z.lor_diag. lia.
  - rewrite Z.mod_small by lia. rewrite (proj2 (Z.leb_le 0 bits)) by lia.
    rewrite Z.lor_comm, <- (Z.mul_1_l (2 ^ (w - 1))) at 1.
    rewrite <- Z.shiftl_mul_pow2, lor_shiftl_add by lia. lia.
Qed.

Lemma float_code_cmp w a b :
  (float_code w a ?= float_code w b) = (f_key w a ?= f_key w b).
Proof.
  unfold float_code.
  destruct (0 <=? f_key w a) eqn:Ea, (0 <=? f_key w b) eqn:Eb; bool_to_prop;
    destruct (Z.compare_spec (f_key w a) (f_key w b));
    rewrite ?Z.compare_eq_iff, ?Z.compare_lt_iff, ?Z.compare_gt_iff; lia.
Qed.

Lemma encode_float_cmp n a b :
  (0 < n)%nat ->
  in_u (8 * Z.of_nat n) a = true -> in_u (8 * Z.of_nat n) b = true ->
  f_is_nan (8 * Z.of_nat n) a = false -> f_is_nan (8 * Z.of_nat n) b = false ->
  lex_cmp (encode_float n a) (encode_float n b)
  = (f_key (8 * Z.of_nat n) a ?= f_key (8 * Z.of_nat n) b).
Proof.
  intros Hn Ha Hb Hna Hnb. rewrite !encode_float_code by assumption.
  rewrite be_bytes_cmp; [apply float_code_cmp | |];
    rewrite pow256_pow2; unfold float_code;
    [pose proof (f_key_range (8 * Z.of_nat n) a ltac:(lia))
    | pose proof (f_key_range (8 * Z.of_nat n) b ltac:(lia))];
    pose proof (pow2_half (8 * Z.of_nat n) ltac:(lia));
    destruct (0 <=? _) eqn:E; bool_to_prop; lia.
Qed.
End Integers.

Section FixedWidth.
Context {F : Foreign} {L : ForeignLaws F}.

Lemma memcomparable_encode_fixed v b :
  fixed_width v = true -> memcomparable_encode v b = Ok (b ++ fixed_encoding v).
Proof. destruct v; cbn; congruence. Qed.

Lemma fixed_encoding_length v v' c :
  partial_cmp v v' = Some c -> fixed_width v = true ->
  length (fixed_encoding v) = length (fixed_encoding v').
Proof.
  destruct v; destruct v'; cbn [partial_cmp fixed_width]; try discriminate; intros _ _;
    cbn [fixed_encoding]; unfold encode_int, encode_float; rewrite ?be_bytes_length; reflexivity.
Qed.

Lemma fixed_encoding_cmp a b :
  fixed_width a = true -> value_ok a = true -> value_ok b = true ->
  not_nan a = true -> not_nan b = true ->
  forall c, partial_cmp a b = Some c -> lex_cmp (fixed_encoding a) (fixed_encoding b) = c.
Proof.
  intros Hf Ha Hb Hna Hnb c.
  destruct a; try discriminate Hf; destruct b; cbn [partial_cmp]; try discriminate;
    intros [= <-]; cbn [fixed_encoding value_ok not_nan] in *; bool_to_prop;
    first [ now apply encode_int_cmp; [lia | |]
          | now apply be_bytes_u_cmp
          | rewrite of_cmp_num by assumption; now apply encode_float_cmp; [lia | | | |]
          | idtac ].
  now destruct b0, b.
Qed.

(** C18. The encoding preserves the order of booleans, integers, dates, times and
    floats other than NaN: behind any prefix, two comparable values of the
    ranges their types allow encode to keys that compare as the values do. *)
Theorem memcomparable_fixed_order prefix a b c :
  fixed_width a = true -> value_ok a = true -> value_ok b = true ->
  not_nan a = true -> not_nan b = true ->
  partial_cmp a b = Some c ->
  exists ka kb, memcomparable_encode a prefix = Ok ka /\ memcomparable_encode b prefix = Ok kb
                /\ lex_cmp ka kb = c.
Proof.
  intros Hf Ha Hb Hna Hnb Hc. exists (prefix ++ fixed_encoding a), (prefix ++ fixed_encoding b).
  assert (Hf' : fixed_width b = true) by (destruct a; destruct b; cbn in *; congruence).
  rewrite !memcomparable_encode_fixed, lex_cmp_app by assumption.
  eauto using fixed_encoding_cmp.
Qed.

(** NaN breaks the order: the quiet NaN [0x7FC00000] has the same key as the
    subnormal float [0x003FFFFF], and a smaller key than 1.0, although
    [partial_cmp] puts NaN above both. *)
Theorem memcomparable_nan_collision prefix :
  memcomparable_encode (DV.Float32 0x7FC00000) prefix
    = memcomparable_encode (DV.Float32 0x003FFFFF) prefix
  /\ partial_cmp (DV.Float32 0x7FC00000) (DV.Float32 0x003FFFFF) = Some Gt
  /\ partial_cmp (DV.Float32 0x7FC00000) (DV.Float32 0x3F800000) = Some Gt
  /\ lex_cmp (fixed_encoding (DV.Float32 0x7FC00000)) (fixed_encoding (DV.Float32 0x3F800000)) = Lt.
Proof.
  split; [reflexivity |]. cbn [partial_cmp].
  rewrite !of_cmp_nan by reflexivity. repeat split; reflexivity.
Qed.
End FixedWidth.

(** ** Strings *)

Section Strings.

(** The groups written for a string, without the buffer. *)
Definition groups (data : bytes) : bytes :=
  encode_groups (length data / ENCODE_GROUP_SIZE + 1) [] data.

Lemma encode_groups_app fuel b data : encode_groups fuel b data = b ++ encode_groups fuel [] data.
Proof.
  revert b data; induction fuel as [|fuel IH]; intros b data; cbn [encode_groups].
  { now rewrite app_nil_r. }
  destruct (_ <=? _)%nat; [| reflexivity].
  rewrite IH, (IH ([] ++ _)). now rewrite app_nil_l, !app_assoc.
Qed.

Lemma div_drop_group (data : bytes) :
  (ENCODE_GROUP_SIZE <= length data)%nat ->
  (length data / ENCODE_GROUP_SIZE = S (length (drop ENCODE_GROUP_SIZE data) / ENCODE_GROUP_SIZE))%nat.
Proof.
  unfold ENCODE_GROUP_SIZE. intros H. rewrite length_drop.
  replace (length data) with ((length data - 8) + 1 * 8)%nat at 1 by lia.
  rewrite Nat.div_add by lia. lia.
Qed.

(** The two cases of the loop as equations on [groups]. *)
Lemma groups_full data :
  (ENCODE_GROUP_SIZE <= length data)%nat ->
  groups data = take ENCODE_GROUP_SIZE data ++ [ENCODE_MARKER] ++ groups (drop ENCODE_GROUP_SIZE data).
Proof.
  intros H. unfold groups. rewrite (div_drop_group data H). cbn [encode_groups Nat.add].
  rewrite (proj2 (Nat.leb_le _ _) H). rewrite encode_groups_app, app_nil_l, <- app_assoc.
  reflexivity.
Qed.

Lemma groups_last data :
  (length data < ENCODE_GROUP_SIZE)%nat ->
  groups data = (data ++ repeat 0 (ENCODE_GROUP_SIZE - length data))
                ++ [ENCODE_MARKER - Z.of_nat (ENCODE_GROUP_SIZE - length data)].
Proof.
  intros H. unfold groups. rewrite Nat.div_small by exact H. cbn [encode_groups Nat.add].
  rewrite (proj2 (Nat.leb_gt _ _) H). now rewrite <- app_assoc.
Qed.

Lemma groups_length data : length (groups data) = realloc_size (length data).
Proof.
  remember (length data) as n eqn:Hn. revert data Hn.
  induction n as [n IH] using (well_founded_induction Wf_nat.lt_wf). intros data ->.
  unfold realloc_size, ENCODE_GROUP_SIZE in *.
  destruct (Nat.lt_ge_cases (length data) 8) as [Hl | Hl].
  - rewrite groups_last, !length_app, repeat_length by exact Hl.
    unfold ENCODE_GROUP_SIZE. cbn [length]. rewrite Nat.div_small by exact Hl. lia.
  - rewrite groups_full, !length_app, length_take by exact Hl.
    rewrite (IH (length (drop ENCODE_GROUP_SIZE data)))
      by (unfold ENCODE_GROUP_SIZE; rewrite ?length_drop; lia).
    pose proof (div_drop_group data Hl). unfold ENCODE_GROUP_SIZE in *. cbn [length]. lia.
Qed.

(** Zero-padding to a common length and then the lengths decide as the strings
    themselves. *)
Lemma lex_cmp_padded n a b :
  (length a <= n)%nat -> (length b <= n)%nat -> is_bytes a -> is_bytes b ->
  cmp_then (lex_cmp (a ++ repeat 0 (n - length a)) (b ++ repeat 0 (n - length b)))
           (Nat.compare (length a) (length b))
  = lex_cmp a b.
Proof.
  revert a b; induction n as [|n IH]; intros a b Hla Hlb Ha Hb.
  { destruct a, b; cbn in *; try lia; reflexivity. }
  destruct a as [|x a], b as [|y b]; cbn [length app Nat.sub repeat lex_cmp Nat.compare] in *.
  - rewrite lex_cmp_refl. reflexivity.
  - apply Forall_cons_1 in Hb as [Hy Hb]. unfold is_byte in Hy.
    specialize (IH [] b ltac:(cbn; lia) ltac:(lia) (Forall_nil_2 _) Hb).
    cbn [length app lex_cmp] in IH. rewrite Nat.sub_0_r in IH.
    destruct (Z.compare_spec 0 y); try lia; [| reflexivity].
    cbn [cmp_then]. destruct (lex_cmp (repeat 0 n) _); destruct b; cbn in IH |- *; congruence.
  - apply Forall_cons_1 in Ha as [Hx Ha]. unfold is_byte in Hx.
    specialize (IH a [] ltac:(lia) ltac:(cbn; lia) Ha (Forall_nil_2 _)).
    cbn [length app lex_cmp] in IH. rewrite Nat.sub_0_r in IH.
    destruct (Z.compare_spec x 0); try lia; [| reflexivity].
    cbn [cmp_then]. destruct (lex_cmp _ (repeat 0 n)); destruct a; cbn in IH |- *; congruence.
  - apply Forall_cons_1 in Ha as [_ Ha]. apply Forall_cons_1 in Hb as [_ Hb].
    rewrite <- (IH a b) by (assumption || lia). now destruct (x ?= y).
Qed.

Lemma padded_length (n : nat) (a : bytes) :
  (length a <= n)%nat -> length (a ++ repeat 0 (n - length a)) = n.
Proof. intros. rewrite length_app, repeat_length. lia. Qed.

(** A short last group against a full one. *)
Lemma lex_cmp_group_mixed data b rest :
  (ENCODE_GROUP_SIZE <= length data)%nat -> (length b < ENCODE_GROUP_SIZE)%nat ->
  is_bytes data -> is_bytes b ->
  lex_cmp (take ENCODE_GROUP_SIZE data ++ [ENCODE_MARKER] ++ rest) (groups b) = lex_cmp data b.
Proof.
  unfold ENCODE_MARKER. intros Hd Hb Hdb Hbb. rewrite (groups_last b Hb).
  set (a := take ENCODE_GROUP_SIZE data).
  assert (Hla : length a = ENCODE_GROUP_SIZE) by (unfold a; rewrite length_take; lia).
  assert (Ha : is_bytes a) by (unfold a; now apply Forall_take).
  rewrite lex_cmp_app_len by (rewrite padded_length; lia).
  pose proof (lex_cmp_padded ENCODE_GROUP_SIZE a b ltac:(lia) ltac:(lia) Ha Hbb) as Hpad.
  rewrite Hla, Nat.sub_diag, app_nil_r in Hpad. fold ENCODE_GROUP_SIZE.
  replace (lex_cmp data b) with (lex_cmp a b).
  - rewrite <- Hpad. f_equal. cbn [app lex_cmp]. unfold ENCODE_GROUP_SIZE, ENCODE_MARKER in *.
    destruct (Z.compare_spec 255 (255 - Z.of_nat (8 - length b)));
      destruct (Nat.compare_spec 8 (length b)); cbn; try lia; reflexivity.
  - rewrite <- (take_drop ENCODE_GROUP_SIZE data). fold a. clearbody a. clear -Hla Hb.
    unfold ENCODE_GROUP_SIZE in *. assert (Hlt : (length b < length a)%nat) by lia. clear Hla Hb.
    revert b Hlt; induction a as [|x a IH]; intros b Hlt; cbn in *; [lia |].
    destruct b as [|y b]; [reflexivity |]. cbn in Hlt. rewrite (IH b) by lia. reflexivity.
Qed.

(** The group encoding itself preserves the order of byte strings. *)
Lemma groups_cmp a b : is_bytes a -> is_bytes b -> lex_cmp (groups a) (groups b) = lex_cmp a b.
Proof.
  remember (length a) as n eqn:Hn. revert a b Hn.
  induction n as [n IH] using (well_founded_induction Wf_nat.lt_wf). intros a b -> Ha Hb.
  destruct (Nat.lt_ge_cases (length a) ENCODE_GROUP_SIZE) as [Hla | Hla],
           (Nat.lt_ge_cases (length b) ENCODE_GROUP_SIZE) as [Hlb | Hlb].
  - rewrite (groups_last a), (groups_last b) by assumption.
    rewrite lex_cmp_app_len by (rewrite !padded_length; lia).
    rewrite <- (lex_cmp_padded ENCODE_GROUP_SIZE a b) by (assumption || lia). f_equal.
    cbn [lex_cmp]. unfold ENCODE_GROUP_SIZE, ENCODE_MARKER in *.
    destruct (Z.compare_spec (255 - Z.of_nat (8 - length a)) (255 - Z.of_nat (8 - length b)));
      destruct (Nat.compare_spec (length a) (length b)); cbn; try lia; reflexivity.
  - rewrite lex_cmp_antisym, (groups_full b), lex_cmp_group_mixed by assumption.
    symmetry. apply lex_cmp_antisym.
  - rewrite (groups_full a) by assumption. now apply lex_cmp_group_mixed.
  - rewrite (groups_full a), (groups_full b) by assumption.
    rewrite lex_cmp_app_len by (rewrite !length_take; lia).
    cbn [app lex_cmp]. rewrite Z.compare_refl. cbn [cmp_then].
    rewrite (IH (length (drop ENCODE_GROUP_SIZE a)))
      by (try reflexivity; try (now apply Forall_drop); rewrite length_drop;
          unfold ENCODE_GROUP_SIZE in *; lia).
    rewrite <- lex_cmp_app_len by (rewrite !length_take; lia). now rewrite !take_drop.
Qed.

(** [encode_bytes] appends zeros up to [realloc_size], then the groups. *)
Lemma encode_bytes_unfold b data :
  encode_bytes b data = (b ++ repeat 0 (realloc_size (length data) - length b)) ++ groups data.
Proof.
  unfold encode_bytes, realloc_bytes. rewrite encode_groups_app. fold (groups data). f_equal.
  destruct (_ <? _)%nat eqn:E; [reflexivity |]. apply Nat.ltb_ge in E.
  replace (realloc_size (length data) - length b)%nat with O by lia. now rewrite app_nil_r.
Qed.

Lemma encode_bytes_length b data :
  length (encode_bytes b data)
  = (Nat.max (length b) (realloc_size (length data)) + realloc_size (length data))%nat.
Proof. rewrite encode_bytes_unfold, !length_app, repeat_length, groups_length. lia. Qed.

Lemma groups_inj a b : is_bytes a -> is_bytes b -> groups a = groups b -> a = b.
Proof. intros Ha Hb H. apply lex_cmp_eq. rewrite <- groups_cmp by assumption. now apply lex_cmp_eq. Qed.

Lemma value_ok_bytes `{Foreign} s ty u : value_ok (DV.Utf8 s ty u) = true -> is_bytes s.
Proof.
  cbn [value_ok]. induction s as [|x s IH]; cbn [forallb]; intros Hs; constructor; bool_to_prop.
  - now apply (in_u_iff 8).
  - now apply IH.
Qed.
End Strings.

Section StringKeys.
Context {F : Foreign}.

(** String keys are injective: behind the same prefix, two strings with
    the same encoding are the same string. *)
Theorem string_key_injective prefix a ta ua b tb ub :
  value_ok (DV.Utf8 a ta ua) = true -> value_ok (DV.Utf8 b tb ub) = true ->
  memcomparable_encode (DV.Utf8 a ta ua) prefix = memcomparable_encode (DV.Utf8 b tb ub) prefix ->
  a = b.
Proof.
  intros Ha%value_ok_bytes Hb%value_ok_bytes [= H].
  assert (Hl : realloc_size (length a) = realloc_size (length b)).
  { apply (f_equal length) in H. rewrite !encode_bytes_length in H. lia. }
  rewrite !encode_bytes_unfold, Hl in H. apply app_inv_head in H. now apply groups_inj.
Qed.

(** String keys are ordered when the buffer is not resized: behind a
    prefix at least as long as the encodings, or for strings of the same number
    of 8-byte groups, keys compare as the strings do. *)
Theorem string_key_order prefix a ta ua b tb ub :
  value_ok (DV.Utf8 a ta ua) = true -> value_ok (DV.Utf8 b tb ub) = true ->
  (realloc_size (length a) <= length prefix /\ realloc_size (length b) <= length prefix
   \/ length a / ENCODE_GROUP_SIZE = length b / ENCODE_GROUP_SIZE)%nat ->
  exists ka kb,
    memcomparable_encode (DV.Utf8 a ta ua) prefix = Ok ka
    /\ memcomparable_encode (DV.Utf8 b tb ub) prefix = Ok kb
    /\ Some (lex_cmp ka kb) = partial_cmp (DV.Utf8 a ta ua) (DV.Utf8 b tb ub).
Proof.
  intros Ha%value_ok_bytes Hb%value_ok_bytes Hroom.
  do 2 eexists. split; [reflexivity |]. split; [reflexivity |]. cbn [partial_cmp]. f_equal.
  rewrite !encode_bytes_unfold.
  assert (Hz : (realloc_size (length a) - length prefix
                = realloc_size (length b) - length prefix)%nat).
  { destruct Hroom as [[? ?] | Hd]; [lia |]. unfold realloc_size. now rewrite Hd. }
  rewrite Hz, lex_cmp_app. now apply groups_cmp.
Qed.

(** Behind a table key's 10-byte prefix the order of strings is broken:
    [realloc_bytes] pads the buffer with zeros before an encoding longer than
    the prefix, so "zzzzzzzz" is stored before "a". *)
Theorem string_key_order_broken prefix :
  length prefix = 10%nat ->
  let z8 := DV.Utf8 (repeat 122 8) (Utf8Variable None) Characters in
  let a1 := DV.Utf8 [97] (Utf8Variable None) Characters in
  partial_cmp z8 a1 = Some Gt
  /\ exists kz ka, memcomparable_encode z8 prefix = Ok kz /\ memcomparable_encode a1 prefix = Ok ka
                   /\ lex_cmp kz ka = Lt.
Proof.
  intros Hp z8 a1. split; [reflexivity |].
  do 2 eexists. split; [reflexivity |]. split; [reflexivity |].
  rewrite !encode_bytes_unfold, Hp. rewrite <- !app_assoc, lex_cmp_app. reflexivity.
Qed.
End StringKeys.

(** ** Tuples *)

Section Tuples.
Context {F : Foreign} {L : ForeignLaws F}.

Lemma memcomparable_encode_tuple v vs up b :
  memcomparable_encode (DV.Tuple (v :: vs) up) b = encode_components (v :: vs) up b.
Proof.
  cbn [memcomparable_encode encode_components].
  destruct (memcomparable_encode v b) as [b' | |]; cbn [result_bind]; [| reflexivity ..].
  match goal with |- _ = encode_components _ _ ?x => generalize x end. clear.
  induction vs as [|v vs IH]; intros b; [reflexivity |].
  cbn [encode_components]. destruct (memcomparable_encode v b); cbn [result_bind]; auto.
Qed.

(** The bytes a tuple of fixed-width components appends. *)
Fixpoint tuple_bytes (l : list DataValue) (up : bool) : bytes :=
  match l with
  | [] => []
  | v :: l' =>
      fixed_encoding v
      ++ (if match l' with [] => up | _ => false end then BOUND_MAX_TAG else BOUND_MIN_TAG)
      :: tuple_bytes l' up
  end.

(** What is asked of a key component. *)
Definition key_component (v : DataValue) : bool := fixed_width v && value_ok v && not_nan v.

Lemma encode_components_fixed l up b :
  forallb key_component l = true -> encode_components l up b = Ok (b ++ tuple_bytes l up).
Proof.
  revert b; induction l as [|v l IH]; intros b H; cbn [encode_components tuple_bytes].
  { now rewrite app_nil_r. }
  cbn [forallb] in H. unfold key_component in H at 1. bool_to_prop.
  rewrite memcomparable_encode_fixed by assumption. cbn [result_bind].
  rewrite IH by assumption. rewrite <- !app_assoc. do 3 f_equal. cbn [app]. f_equal.
  replace (is_null v) with false by (destruct v; discriminate || reflexivity).
  destruct l; cbn [orb andb]; reflexivity.
Qed.

Lemma tuple_bytes_cmp v1 u1 v2 u2 c :
  forallb key_component v1 = true -> forallb key_component v2 = true -> v1 <> [] -> v2 <> [] ->
  tuple_cmp v1 u1 v2 u2 = Some c -> c <> Eq \/ u1 = u2 ->
  lex_cmp (tuple_bytes v1 u1) (tuple_bytes v2 u2) = c.
Proof.
  revert v2; induction v1 as [|x v1 IH]; intros [|y v2] H1 H2 Hn1 Hn2 Hc Hu; try congruence.
  cbn [forallb tuple_cmp tuple_bytes] in *. unfold key_component in H1 at 1, H2 at 1. bool_to_prop.
  destruct (partial_cmp x y) as [cx|] eqn:Ex; [| discriminate].
  rewrite lex_cmp_app_len by (eapply fixed_encoding_length; eassumption).
  rewrite (fixed_encoding_cmp x y) with (c := cx) by assumption.
  destruct cx; [cbn [cmp_then lex_cmp] | now injection Hc as <- ..].
  destruct v1 as [|x' v1], v2 as [|y' v2].
  - injection Hc as <-. destruct Hu as [Hu | ->]; [congruence |]. now destruct u2.
  - injection Hc as <-. destruct u1; cbn; [reflexivity |].
    now destruct (fixed_encoding y').
  - injection Hc as <-. destruct u2; cbn; [reflexivity |].
    now destruct (fixed_encoding x').
  - rewrite Z.compare_refl. cbn [cmp_then]. now apply IH.
Qed.

(** C22. Composite keys are ordered like tuples: behind any prefix, two non-empty
    tuples of fixed-width values (booleans, integers in range, dates, times, and
    floats other than NaN; no nulls, strings, decimals or nested tuples) encode to
    keys that compare as [tuple_cmp] compares them, also when one is a prefix of the
    other and marked as an upper bound; equal tuples must carry the same mark. *)
Theorem tuple_key_order prefix v1 u1 v2 u2 c :
  forallb key_component v1 = true -> forallb key_component v2 = true -> v1 <> [] -> v2 <> [] ->
  tuple_cmp v1 u1 v2 u2 = Some c -> c <> Eq \/ u1 = u2 ->
  exists k1 k2, memcomparable_encode (DV.Tuple v1 u1) prefix = Ok k1
                /\ memcomparable_encode (DV.Tuple v2 u2) prefix = Ok k2 /\ lex_cmp k1 k2 = c.
Proof.
  intros H1 H2 Hn1 Hn2 Hc Hu.
  exists (prefix ++ tuple_bytes v1 u1), (prefix ++ tuple_bytes v2 u2).
  destruct v1 as [|x v1], v2 as [|y v2]; try congruence.
  rewrite !memcomparable_encode_tuple, !encode_components_fixed by assumption.
  rewrite lex_cmp_app. auto using tuple_bytes_cmp.
Qed.

(** Nulls make composite keys collide: a null component writes nothing but
    its tag, so (NULL, -128) and (-128, NULL) of two [TINYINT] columns share a
    key although the tuples differ. *)
Theorem tuple_null_collision prefix :
  memcomparable_encode (DV.Tuple [DV.Null; DV.Int8 (-128)] false) prefix
    = memcomparable_encode (DV.Tuple [DV.Int8 (-128); DV.Null] false) prefix
  /\ dv_eq (DV.Tuple [DV.Null; DV.Int8 (-128)] false) (DV.Tuple [DV.Int8 (-128); DV.Null] false)
    = false.
Proof. split; [| reflexivity]. cbn. now rewrite <- !app_assoc. Qed.
End Tuples.

(** ** Witnesses *)

Section Witnesses.
#[local] Existing Instance RefForeign.ref_foreign.
#[local] Existing Instance RefForeign.ref_laws.

Lemma memcomparable_fixed_order_witness :
  exists ka kb, memcomparable_encode (DV.Int16 (-5)) [1; 2] = Ok ka
                /\ memcomparable_encode (DV.Int16 300) [1; 2] = Ok kb /\ lex_cmp ka kb = Lt.
Proof. apply (memcomparable_fixed_order [1; 2] (DV.Int16 (-5)) (DV.Int16 300)); reflexivity. Defined.

Lemma memcomparable_nan_collision_witness :
  memcomparable_encode (DV.Float32 0x7FC00000) []
    = memcomparable_encode (DV.Float32 0x003FFFFF) []
  /\ partial_cmp (DV.Float32 0x7FC00000) (DV.Float32 0x003FFFFF) = Some Gt
  /\ partial_cmp (DV.Float32 0x7FC00000) (DV.Float32 0x3F800000) = Some Gt
  /\ lex_cmp (fixed_encoding (DV.Float32 0x7FC00000)) (fixed_encoding (DV.Float32 0x3F800000)) = Lt.
Proof. apply (memcomparable_nan_collision []). Defined.

Lemma string_key_injective_witness : [97; 0] = [97; 0].
Proof.
  apply (string_key_injective [7] [97; 0] (Utf8Variable None) Characters
           [97; 0] (Utf8Variable None) Characters); reflexivity.
Defined.

Lemma string_key_order_witness :
  exists ka kb,
    memcomparable_encode (DV.Utf8 [97; 98] (Utf8Variable None) Characters) (repeat 0 10) = Ok ka
    /\ memcomparable_encode (DV.Utf8 [97] (Utf8Variable None) Characters) (repeat 0 10) = Ok kb
    /\ Some (lex_cmp ka kb) = partial_cmp (DV.Utf8 [97; 98] (Utf8Variable None) Characters)
                                 (DV.Utf8 [97] (Utf8Variable None) Characters).
Proof.
  apply (string_key_order (repeat 0 10)); [reflexivity | reflexivity |]. right. reflexivity.
Defined.

Lemma string_key_order_broken_witness :
  let z8 := DV.Utf8 (repeat 122 8) (Utf8Variable None) Characters in
  let a1 := DV.Utf8 [97] (Utf8Variable None) Characters in
  partial_cmp z8 a1 = Some Gt
  /\ exists kz ka, memcomparable_encode z8 (repeat 1 10) = Ok kz
                   /\ memcomparable_encode a1 (repeat 1 10) = Ok ka /\ lex_cmp kz ka = Lt.
Proof. apply (string_key_order_broken (repeat 1 10)). reflexivity. Defined.

Lemma tuple_key_order_witness :
  exists k1 k2,
    memcomparable_encode (DV.Tuple [DV.Int32 3; DV.Int8 (-1)] false) [9] = Ok k1
    /\ memcomparable_encode (DV.Tuple [DV.Int32 3] true) [9] = Ok k2 /\ lex_cmp k1 k2 = Lt.
Proof.
  apply (tuple_key_order [9] [DV.Int32 3; DV.Int8 (-1)] false [DV.Int32 3] true);
    try reflexivity; try discriminate. left. discriminate.
Defined.

End Witnesses.
