(* ===== verification/TupleCodec.v ===== *)
(** * The tuple format

    [DataValue::to_raw] and [from_raw] (src/src/types/value.rs), and
    [Tuple::serialize_to], [deserialize_from] and [primary_projection]
    (src/src/types/tuple.rs): a bitmap of nulls followed by the raw bytes of the
    other columns.  A reader is the list of bytes left to read; seeking past the
    end leaves it empty. *)

From Stdlib Require Import Sorting.Sorted.
From S2P Require Import Prelude Bytes Types LogicalTypes Values Evaluators.

Definition BITS_MAX_INDEX : nat := 8.

(** ** UTF-8 validity ([String::from_utf8]) *)

Definition in_range (lo hi b : Z) : bool := (lo <=? b) && (b <=? hi).
Definition cont (b : Z) : bool := in_range 0x80 0xBF b.

Fixpoint utf8_valid (s : bytes) : bool :=
  match s with
  | [] => true
  | b :: s1 =>
      if in_range 0 0x7F b then utf8_valid s1 else
      match s1 with
      | [] => false
      | b1 :: s2 =>
          if in_range 0xC2 0xDF b then cont b1 && utf8_valid s2 else
          match s2 with
          | [] => false
          | b2 :: s3 =>
              if in_range 0xE0 0xEF b then
                (if b =? 0xE0 then in_range 0xA0 0xBF b1
                 else if b =? 0xED then in_range 0x80 0x9F b1
                 else cont b1) && cont b2 && utf8_valid s3
              else
              match s3 with
              | [] => false
              | b3 :: s4 =>
                  in_range 0xF0 0xF4 b
                  && (if b =? 0xF0 then in_range 0x90 0xBF b1
                      else if b =? 0xF4 then in_range 0x80 0x8F b1
                      else cont b1) && cont b2 && cont b3 && utf8_valid s4
              end
          end
      end
  end.

(** Drop the spaces at the end: [rposition(|x| x != b' ')] and [truncate]. *)
Fixpoint trim_trailing (s : bytes) : bytes :=
  match s with
  | [] => []
  | b :: s' =>
      match trim_trailing s' with
      | [] => if b =? 32 then [] else [b]
      | t => b :: t
      end
  end.

(** ** The null bitmap *)

Definition is_none (bits : Z) (i : nat) : bool :=
  0 <? Z.land bits (Z.shiftl 1 (7 - Z.of_nat i)).
Definition flip_bit (bits : Z) (i : nat) : Z := Z.lor bits (Z.shiftl 1 (7 - Z.of_nat i)).

Section TupleCodec.
Context {F : Foreign}.

(** ** Raw values *)

(** The bytes [to_raw] writes. *)
Definition to_raw (v : DataValue) : Result bytes :=
  match v with
  | DV.Null => Ok []
  | DV.Boolean b => Ok [if b then 1 else 0]
  | DV.Float32 v => Ok (le_bytes 4 v)
  | DV.Float64 v => Ok (le_bytes 8 v)
  | DV.Int8 v => Ok (le_bytes 1 (as_u 8 v))
  | DV.Int16 v => Ok (le_bytes 2 (as_u 16 v))
  | DV.Int32 v | DV.Date32 v => Ok (le_bytes 4 (as_u 32 v))
  | DV.Int64 v | DV.Date64 v | DV.Time64 v _ _ => Ok (le_bytes 8 (as_u 64 v))
  | DV.UInt8 v => Ok (le_bytes 1 v)
  | DV.UInt16 v => Ok (le_bytes 2 v)
  | DV.UInt32 v | DV.Time32 v _ => Ok (le_bytes 4 v)
  | DV.UInt64 v => Ok (le_bytes 8 v)
  | DV.Utf8 v (Utf8Variable _) _ => Ok (le_bytes 4 (as_u 32 (bytes_len v)) ++ v)
  | DV.Utf8 v (Utf8Fixed len) Characters =>
      (* [format!("{:len$}", v)] pads to [len] characters *)
      let v := v ++ repeat 32 (Z.to_nat (len - chars_count v)) in
      Ok (le_bytes 4 (as_u 32 (bytes_len v)) ++ v)
  | DV.Utf8 v (Utf8Fixed len) Octets =>
      if len <? bytes_len v then Panic
      else Ok (v ++ repeat 32 (Z.to_nat (len - bytes_len v)))
  | DV.Decimal d => Ok (dec_serialize d)
  | DV.Tuple _ _ => Panic
  end.

(** [read_exact]. *)
Definition read_exact (n : nat) (reader : bytes) : Result (bytes * bytes) :=
  if (length reader <? n)%nat then Err IO else Ok (take n reader, drop n reader).
Definition read_u (n : nat) (reader : bytes) : Result (Z * bytes) :=
  let? '(bs, reader) := read_exact n reader in Ok (of_le bs, reader).
Definition read_i (n : nat) (reader : bytes) : Result (Z * bytes) :=
  let? '(z, reader) := read_u n reader in Ok (as_i (8 * Z.of_nat n) z, reader).

(** The fixed-width branches: seek over the value, or read and build it. *)
Definition from_raw_fixed (n : nat) (is_projection : bool) (reader : bytes)
    (read : bytes -> Result (DataValue * bytes)) : Result (option DataValue * bytes) :=
  if is_projection then let? '(v, reader) := read reader in Ok (Some v, reader)
  else Ok (None, drop n reader).

Definition from_raw_string (len : nat) (is_projection : bool) (reader : bytes)
    (trim : bytes -> bytes) (ty : Utf8Type) (unit : CharLengthUnits)
  : Result (option DataValue * bytes) :=
  if is_projection then
    let? '(bs, reader) := read_exact len reader in
    let bs := trim bs in
    if utf8_valid bs then Ok (Some (DV.Utf8 bs ty unit), reader) else Err FromUtf8Error
  else Ok (None, drop len reader).

Definition from_raw (reader : bytes) (ty : LogicalType) (is_projection : bool)
  : Result (option DataValue * bytes) :=
  let int n ctor :=
    from_raw_fixed n is_projection reader
      (fun r => let? '(z, r) := read_i n r in Ok (ctor z, r)) in
  let uint n ctor :=
    from_raw_fixed n is_projection reader
      (fun r => let? '(z, r) := read_u n r in Ok (ctor z, r)) in
  match ty with
  | LT.SqlNull => if is_projection then Ok (Some DV.Null, reader) else Ok (None, reader)
  | LT.Boolean => uint 1%nat (fun z => DV.Boolean (negb (z =? 0)))
  | LT.Tinyint => int 1%nat DV.Int8
  | LT.UTinyint => uint 1%nat DV.UInt8
  | LT.Smallint => int 2%nat DV.Int16
  | LT.USmallint => uint 2%nat DV.UInt16
  | LT.Integer => int 4%nat DV.Int32
  | LT.UInteger => uint 4%nat DV.UInt32
  | LT.Bigint => int 8%nat DV.Int64
  | LT.UBigint => uint 8%nat DV.UInt64
  | LT.Float => uint 4%nat DV.Float32
  | LT.Double => uint 8%nat DV.Float64
  | LT.Char ty_len unit =>
      let? '(len, reader) :=
        match unit with
        | Characters => read_u 4 reader
        | Octets => Ok (ty_len, reader)
        end in
      from_raw_string (Z.to_nat len) is_projection reader trim_trailing (Utf8Fixed ty_len) unit
  | LT.Varchar ty_len unit =>
      let? '(len, reader) := read_u 4 reader in
      from_raw_string (Z.to_nat len) is_projection reader (fun bs => bs) (Utf8Variable ty_len) unit
  | LT.Date => int 4%nat DV.Date32
  | LT.DateTime => int 8%nat DV.Date64
  | LT.Time precision => uint 4%nat (fun z => DV.Time32 z (default 0 precision))
  | LT.TimeStamp precision zone => int 8%nat (fun z => DV.Time64 z (default 0 precision) zone)
  | LT.Decimal _ _ =>
      from_raw_fixed 16 is_projection reader
        (fun r => let? '(bs, r) := read_exact 16 r in Ok (DV.Decimal (dec_deserialize bs), r))
  | LT.Tuple _ => Panic
  end.

(** ** Tuples *)

Record Tuple := mk_tuple { pk : option TupleId; values : list DataValue }.

Definition bits_len (n : nat) : nat := ((n + BITS_MAX_INDEX) / BITS_MAX_INDEX)%nat.

(** The loop of [serialize_to]: the buffer starts with the bitmap, values are
    appended, and a null flips its bit in place. *)
Fixpoint serialize_values (i : nat) (vs : list DataValue) (buf : bytes) : Result bytes :=
  match vs with
  | [] => Ok buf
  | v :: vs' =>
      if is_null v then
        let? b := unwrap (buf !! (i / BITS_MAX_INDEX)%nat) in
        serialize_values (S i) vs'
          (<[(i / BITS_MAX_INDEX)%nat := flip_bit b (i mod BITS_MAX_INDEX)]> buf)
      else
        let? raw := to_raw v in
        serialize_values (S i) vs' (buf ++ raw)
  end.

Definition serialize_to (t : Tuple) (types : list LogicalType) : Result bytes :=
  if negb (length (values t) =? length types)%nat then Panic
  else serialize_values 0 (values t) (repeat 0 (bits_len (length (values t)))).

Definition primary_projection (pk_indices : list nat) (vs : list DataValue) : Result TupleId :=
  if (1 <? length pk_indices)%nat then
    let? key := try_map (fun i => unwrap (vs !! i)) pk_indices in
    Ok (DV.Tuple key false)
  else
    let? i := unwrap (head pk_indices) in
    unwrap (vs !! i).

(** The loop of [deserialize_from] over the columns from the [i]-th on; the
    first test is [debug_assert!(projection_i < types_len)]. *)
Fixpoint deserialize_values (bits : bytes) (projections : list nat) (i : nat)
    (types : list LogicalType) (projection_i : nat) (cursor : bytes) (vs : list DataValue)
  : Result (list DataValue) :=
  match types with
  | [] => Ok vs
  | ty :: types' =>
      match projections !! projection_i with
      | None => Ok vs
      | Some p =>
          if (i + length types <=? projection_i)%nat then Panic else
          let? b := unwrap (bits !! (i / BITS_MAX_INDEX)%nat) in
          if is_none b (i mod BITS_MAX_INDEX)
          then deserialize_values bits projections (S i) types' (S projection_i) cursor vs
          else
            let? '(value, cursor) := from_raw cursor ty (p =? i)%nat in
            match value with
            | Some v =>
                deserialize_values bits projections (S i) types' (S projection_i) cursor
                  (<[projection_i := v]> vs)
            | None => deserialize_values bits projections (S i) types' projection_i cursor vs
            end
      end
  end.

(** [projections.is_sorted()]. *)
Fixpoint is_sorted (l : list nat) : bool :=
  match l with
  | x :: ((y :: _) as l') => (x <=? y)%nat && is_sorted l'
  | _ => true
  end.

(** The schema is used for its length only. *)
Definition deserialize_from (table_types : list LogicalType) (pk_indices projections : list nat)
    (schema_len : nat) (bs : bytes) (with_pk : bool) : Result Tuple :=
  if (schema_len =? 0)%nat || negb (is_sorted projections)
     || negb (length projections =? schema_len)%nat then Panic else
  let bl := bits_len (length table_types) in
  if (length bs <? bl)%nat then Panic else
  let? vs := deserialize_values bs projections 0 table_types 0 (drop bl bs)
               (repeat DV.Null (length projections)) in
  if with_pk then
    let? key := primary_projection pk_indices vs in
    Ok (mk_tuple (Some key) vs)
  else Ok (mk_tuple None vs).
End TupleCodec.
Arguments Tuple F : clear implicits.

(** ** Raw values round trip *)

Section Raw.
Context {F : Foreign} {L : ForeignLaws F}.

(** A value a column of the type can hold: its variant, in range, strings valid
    and short enough for their [u32] length, [CHAR] without trailing spaces. *)
Definition raw_ok (ty : LogicalType) (v : DataValue) : bool :=
  match ty, v with
  | LT.Char len unit, DV.Utf8 s (Utf8Fixed len') unit' =>
      value_ok v && utf8_valid s && bool_decide (trim_trailing s = s)
      && (len =? len') && bool_decide (unit = unit')
      && match unit with
         | Characters => bytes_len s + Z.max 0 (len - chars_count s) <? 2 ^ 32
         | Octets => bytes_len s <=? len
         end
  | LT.Varchar len unit, DV.Utf8 s (Utf8Variable len') unit' =>
      value_ok v && utf8_valid s && bool_decide (len = len') && bool_decide (unit = unit')
      && (bytes_len s <? 2 ^ 32)
  | LT.Char _ _, _ | LT.Varchar _ _, _ => false
  | LT.Time p, DV.Time32 _ p' => value_ok v && (default 0 p =? p')
  | LT.TimeStamp p z, DV.Time64 _ p' z' =>
      value_ok v && (default 0 p =? p') && Bool.eqb z z'
  | LT.SqlNull, _ | LT.Tuple _, _ => false
  | _, _ => negb (is_null v) && has_type ty v && value_ok v
  end.

Lemma take_app_exact {A} (l k : list A) n : length l = n -> take n (l ++ k) = l.
Proof. intros <-. apply take_app_length. Qed.
Lemma drop_app_exact {A} (l k : list A) n : length l = n -> drop n (l ++ k) = k.
Proof. intros <-. apply drop_app_length. Qed.

Lemma read_exact_app n bs rest : length bs = n -> read_exact n (bs ++ rest) = Ok (bs, rest).
Proof.
  intros Hl. unfold read_exact. rewrite length_app.
  destruct (_ <? _)%nat eqn:E; [apply Nat.ltb_lt in E; lia |].
  now rewrite take_app_exact, drop_app_exact.
Qed.

Lemma read_u_app n z rest : in_u (8 * Z.of_nat n) z = true ->
  read_u n (le_bytes n z ++ rest) = Ok (z, rest).
Proof.
  intros Hz. unfold read_u. rewrite read_exact_app by apply le_bytes_length. cbn [result_bind].
  apply in_u_iff in Hz. rewrite of_le_le_bytes; [reflexivity |]. now rewrite pow256_pow2.
Qed.

Lemma read_i_app n z rest : (0 < n)%nat -> in_i (8 * Z.of_nat n) z = true ->
  read_i n (le_bytes n (as_u (8 * Z.of_nat n) z) ++ rest) = Ok (z, rest).
Proof.
  intros Hn Hz. apply in_i_iff in Hz. unfold read_i. rewrite read_u_app.
  - cbn [result_bind]. now rewrite as_i_as_u by lia.
  - apply in_u_iff, as_u_range. lia.
Qed.

Lemma from_raw_fixed_app n p bs rest v read :
  length bs = n -> read (bs ++ rest) = Ok (v, rest) ->
  from_raw_fixed n p (bs ++ rest) read = Ok (if p then Some v else None, rest).
Proof.
  intros Hl Hr. unfold from_raw_fixed. destruct p.
  - now rewrite Hr.
  - now rewrite drop_app_exact.
Qed.

Lemma from_raw_string_app s pad rest p trim ty unit len :
  Z.to_nat len = length (s ++ pad) -> trim (s ++ pad) = s -> utf8_valid s = true ->
  from_raw_string (Z.to_nat len) p ((s ++ pad) ++ rest) trim ty unit
  = Ok (if p then Some (DV.Utf8 s ty unit) else None, rest).
Proof.
  intros Hl Ht Hv. unfold from_raw_string. rewrite Hl. destruct p.
  - rewrite read_exact_app by reflexivity. cbn [result_bind]. now rewrite Ht, Hv.
  - now rewrite drop_app_exact.
Qed.

Lemma trim_trailing_spaces n : trim_trailing (repeat 32 n) = [].
Proof. induction n as [|n IH]; cbn; [reflexivity | now rewrite IH]. Qed.

Lemma trim_trailing_pad s n : trim_trailing s = s -> trim_trailing (s ++ repeat 32 n) = s.
Proof.
  intros Hs. rewrite <- Hs at 2. clear Hs.
  induction s as [|b s IH]; cbn [app trim_trailing]; [apply trim_trailing_spaces |].
  now rewrite IH.
Qed.

Lemma bytes_len_le4 s rest : bytes_len s < 2 ^ 32 ->
  read_u 4 (le_bytes 4 (as_u 32 (bytes_len s)) ++ rest) = Ok (bytes_len s, rest).
Proof.
  intros Hs. assert (0 <= bytes_len s) by (unfold bytes_len; lia).
  rewrite as_u_small by lia. apply read_u_app. apply in_u_iff. change (8 * Z.of_nat 4) with 32. lia.
Qed.

Lemma raw_char len unit s :
  raw_ok (LT.Char len unit) (DV.Utf8 s (Utf8Fixed len) unit) = true ->
  exists raw, to_raw (DV.Utf8 s (Utf8Fixed len) unit) = Ok raw
              /\ forall p rest, from_raw (raw ++ rest) (LT.Char len unit) p
                 = Ok (if p then Some (DV.Utf8 s (Utf8Fixed len) unit) else None, rest).
Proof.
  cbn [raw_ok]. intros H. bool_to_prop.
  match goal with H : bool_decide (trim_trailing s = s) = true |- _ =>
    apply bool_decide_eq_true in H end.
  assert (Hn : 0 <= bytes_len s) by (unfold bytes_len; lia).
  destruct unit; bool_to_prop; cbn [to_raw].
  - set (pad := repeat 32 (Z.to_nat (len - chars_count s))).
    assert (Hlen : bytes_len (s ++ pad) = bytes_len s + Z.max 0 (len - chars_count s)).
    { unfold bytes_len, pad. rewrite length_app, repeat_length. lia. }
    eexists. split; [reflexivity |]. intros p rest. cbn [from_raw].
    rewrite <- app_assoc, bytes_len_le4 by lia. cbn [result_bind].
    apply from_raw_string_app; [unfold bytes_len; lia | | assumption].
    now apply trim_trailing_pad.
  - rewrite (proj2 (Z.ltb_ge _ _)) by assumption.
    eexists. split; [reflexivity |]. intros p rest. cbn [from_raw result_bind].
    apply from_raw_string_app; [| now apply trim_trailing_pad | assumption].
    rewrite length_app, repeat_length. unfold bytes_len in *. lia.
Qed.

Lemma raw_varchar len unit s :
  raw_ok (LT.Varchar len unit) (DV.Utf8 s (Utf8Variable len) unit) = true ->
  exists raw, to_raw (DV.Utf8 s (Utf8Variable len) unit) = Ok raw
              /\ forall p rest, from_raw (raw ++ rest) (LT.Varchar len unit) p
                 = Ok (if p then Some (DV.Utf8 s (Utf8Variable len) unit) else None, rest).
Proof.
  cbn [raw_ok]. intros H. bool_to_prop. eexists. split; [reflexivity |].
  intros p rest. cbn [from_raw]. rewrite <- app_assoc, bytes_len_le4 by assumption.
  cbn [result_bind]. rewrite <- (app_nil_r s) at 2.
  apply from_raw_string_app; rewrite ?app_nil_r; [unfold bytes_len; lia | reflexivity | assumption].
Qed.

(** Every value a column can hold reads back from its raw bytes, and is skipped
    exactly when the column is not projected. *)
Lemma raw_roundtrip ty v :
  raw_ok ty v = true ->
  exists raw, to_raw v = Ok raw
              /\ forall p rest, from_raw (raw ++ rest) ty p = Ok (if p then Some v else None, rest).
Proof.
  intros H. destruct ty; destruct v; try discriminate H;
    try (destruct ty; try discriminate H;
         assert (H' := H); cbn [raw_ok] in H'; bool_to_prop;
         repeat match goal with
                | E : bool_decide (_ = _) = true |- _ => apply bool_decide_eq_true in E
                end; subst; now apply raw_char || apply raw_varchar);
    cbn [raw_ok has_type negb is_null] in H; bool_to_prop; cbn [to_raw];
    (eexists; split; [reflexivity |]; intros p rest; cbn [from_raw];
         apply from_raw_fixed_app;
         [ rewrite ?le_bytes_length; apply dec_serialize_length || reflexivity
         | first [ rewrite (read_i_app 1) by (lia || assumption)
                 | rewrite (read_i_app 2) by (lia || assumption)
                 | rewrite (read_i_app 4) by (lia || assumption)
                 | rewrite (read_i_app 8) by (lia || assumption)
                 | rewrite read_u_app by assumption
                 | rewrite read_exact_app by apply dec_serialize_length
                 | destruct b ];
           cbn [result_bind]; subst; rewrite ?dec_deserialize_serialize;
           try reflexivity]).
  now rewrite (proj1 (Bool.eqb_true_iff _ _) H0).
Qed.
End Raw.

(** ** The null bitmap *)

Section Bitmap.

Lemma land_pow2_testbit b n : 0 <= n -> (0 <? Z.land b (2 ^ n)) = Z.testbit b n.
Proof.
  intros Hn. assert (Hl : Z.land b (2 ^ n) = if Z.testbit b n then 2 ^ n else 0).
  { apply Z.bits_inj'. intros k Hk. rewrite Z.land_spec, Z.pow2_bits_eqb by lia.
    destruct (Z.eqb_spec n k) as [-> | Hne].
    - destruct (Z.testbit b k); [now rewrite Z.pow2_bits_true | now rewrite Z.bits_0].
    - rewrite andb_false_r.
      destruct (Z.testbit b n); [now rewrite Z.pow2_bits_false | now rewrite Z.bits_0]. }
  rewrite Hl. destruct (Z.testbit b n); [| reflexivity].
  apply Z.ltb_lt, Z.pow_pos_nonneg; lia.
Qed.

Lemma is_none_testbit b i : (i < 8)%nat -> is_none b i = Z.testbit b (7 - Z.of_nat i).
Proof.
  intros Hi. unfold is_none. rewrite Z.shiftl_mul_pow2, Z.mul_1_l by lia.
  apply land_pow2_testbit. lia.
Qed.

Lemma is_none_flip_bit b i j :
  (i < 8)%nat -> (j < 8)%nat -> is_none (flip_bit b i) j = (i =? j)%nat || is_none b j.
Proof.
  intros Hi Hj. rewrite !is_none_testbit by assumption. unfold flip_bit.
  rewrite Z.shiftl_mul_pow2, Z.mul_1_l, Z.lor_spec, Z.pow2_bits_eqb by lia.
  destruct (Nat.eqb_spec i j) as [-> | Hne]; [now rewrite Z.eqb_refl, orb_true_r |].
  rewrite (proj2 (Z.eqb_neq _ _)) by lia. apply orb_false_r.
Qed.

(** The bit of column [j]. *)
Definition null_bit (bits : bytes) (j : nat) : bool :=
  is_none (default 0 (bits !! (j / BITS_MAX_INDEX)%nat)) (j mod BITS_MAX_INDEX).

Lemma null_bit_insert bits i j b :
  bits !! (i / BITS_MAX_INDEX)%nat = Some b ->
  null_bit (<[(i / BITS_MAX_INDEX)%nat := flip_bit b (i mod BITS_MAX_INDEX)]> bits) j
  = (i =? j)%nat || null_bit bits j.
Proof.
  intros Hb. unfold null_bit, BITS_MAX_INDEX in *.
  pose proof (Nat.mod_upper_bound i 8). pose proof (Nat.mod_upper_bound j 8).
  pose proof (Nat.div_mod_eq i 8). pose proof (Nat.div_mod_eq j 8).
  destruct (Nat.eq_dec (i / 8)%nat (j / 8)%nat) as [He | Hne].
  - rewrite <- He, list_lookup_insert_eq by (eapply lookup_lt_Some; eassumption).
    rewrite Hb. cbn [from_option]. unfold id. rewrite is_none_flip_bit by lia. f_equal.
    destruct (Nat.eqb_spec (i mod 8) (j mod 8)); destruct (Nat.eqb_spec i j); lia || reflexivity.
  - rewrite list_lookup_insert_ne by assumption.
    destruct (Nat.eqb_spec i j) as [-> |]; [lia | reflexivity].
Qed.

Lemma null_bit_repeat n j : null_bit (repeat 0 n) j = false.
Proof.
  unfold null_bit. replace (default 0 (repeat 0 n !! (j / BITS_MAX_INDEX)%nat)) with 0; [reflexivity |].
  generalize (j / BITS_MAX_INDEX)%nat. induction n as [|n IH]; intros [|k]; cbn; auto.
Qed.
End Bitmap.

(** ** Tuples round trip *)

Section RoundTrip.
Context {F : Foreign} {L : ForeignLaws F}.

Definition column_ok (ty : LogicalType) (v : DataValue) : Prop :=
  v = DV.Null \/ raw_ok ty v = true.

Definition raw_of (v : DataValue) : bytes :=
  match to_raw v with Ok raw => raw | _ => [] end.
Definition raws (vs : list DataValue) : bytes := concat (map raw_of vs).

Lemma raw_ok_not_null ty v : raw_ok ty v = true -> is_null v = false.
Proof. destruct v; [| reflexivity ..]. destruct ty; discriminate. Qed.

Lemma serialize_values_spec tys vs :
  Forall2 column_ok tys vs -> forall i bits data,
  (i + length vs <= BITS_MAX_INDEX * length bits)%nat ->
  exists bits',
    serialize_values i vs (bits ++ data) = Ok (bits' ++ data ++ raws vs)
    /\ length bits' = length bits
    /\ forall j, null_bit bits' j
                 = match decide (i <= j)%nat with
                   | left _ => match vs !! (j - i)%nat with
                               | Some v => is_null v
                               | None => false
                               end
                   | right _ => false
                   end || null_bit bits j.
Proof.
  induction 1 as [|ty v tys vs Hv _ IH]; intros i bits data Hi; cbn [serialize_values length] in *.
  { exists bits. unfold raws. cbn. rewrite app_nil_r. repeat split.
    intros j. destruct (decide (i <= j)%nat); [rewrite lookup_nil |]; reflexivity. }
  destruct (is_null v) eqn:En.
  - destruct v; try discriminate. clear Hv En.
    assert (Hd : (i / BITS_MAX_INDEX < length bits)%nat)
      by (apply Nat.Div0.div_lt_upper_bound; lia).
    destruct (lookup_lt_is_Some_2 bits (i / BITS_MAX_INDEX)%nat Hd) as [b Hb].
    rewrite lookup_app_l, Hb by assumption. cbn [unwrap result_bind].
    rewrite insert_app_l by assumption.
    destruct (IH (S i) (<[(i / BITS_MAX_INDEX)%nat := flip_bit b (i mod BITS_MAX_INDEX)]> bits) data)
      as (bits' & -> & Hl & Hn); [rewrite length_insert; lia |].
    exists bits'. rewrite length_insert in Hl. repeat split; [assumption |].
    intros j. rewrite Hn, (null_bit_insert bits i j b Hb).
    destruct (decide (S i <= j)%nat), (decide (i <= j)%nat); try lia.
    + replace (j - i)%nat with (S (j - S i)) by lia. cbn [lookup list_lookup].
      rewrite (proj2 (Nat.eqb_neq i j)) by lia. reflexivity.
    + assert (j = i) as -> by lia. rewrite Nat.sub_diag, Nat.eqb_refl. reflexivity.
    + rewrite (proj2 (Nat.eqb_neq i j)) by lia. reflexivity.
  - destruct Hv as [-> | Hv]; [discriminate |].
    destruct (raw_roundtrip ty v Hv) as (raw & Hraw & _). rewrite Hraw. cbn [result_bind].
    rewrite <- app_assoc. destruct (IH (S i) bits (data ++ raw)) as (bits' & Hs & Hl & Hn); [lia |].
    exists bits'. rewrite Hs. unfold raws. cbn [map concat]. unfold raw_of at 2. rewrite Hraw.
    rewrite <- app_assoc. repeat split; [assumption |].
    intros j. rewrite Hn. destruct (decide (S i <= j)%nat), (decide (i <= j)%nat); try lia; auto.
    + now replace (j - i)%nat with (S (j - S i)) by lia.
    + assert (j = i) as -> by lia. rewrite Nat.sub_diag. cbn. now rewrite En.
Qed.

(** Every null column is projected or lies after the last projected one. *)
Definition nulls_projected (i : nat) (vs : list DataValue) (ps : list nat) : Prop :=
  forall k, vs !! k = Some DV.Null ->
            (i + k)%nat ∈ ps \/ Forall (fun p => p < i + k)%nat ps.

Definition project (i : nat) (vs : list DataValue) (ps : list nat) : list DataValue :=
  map (fun p => default DV.Null (vs !! (p - i)%nat)) ps.

Lemma project_shift i v vs ps :
  Forall (fun p => i < p)%nat ps -> project i (v :: vs) ps = project (S i) vs ps.
Proof.
  intros H. apply map_ext_Forall. eapply Forall_impl; [exact H |]. intros p Hp; cbn beta in *.
  now replace (p - i)%nat with (S (p - S i)) by lia.
Qed.

Lemma nulls_projected_tail i v vs p ps :
  (p <= i)%nat -> nulls_projected i (v :: vs) (p :: ps) -> nulls_projected (S i) vs ps.
Proof.
  intros Hp H k Hk. destruct (H (S k) Hk) as [Hin | Hall].
  - apply elem_of_cons in Hin as [? | Hin]; [lia | left]. now replace (S i + k)%nat with (i + S k)%nat by lia.
  - right. apply Forall_cons_1 in Hall as [_ Hall]. eapply Forall_impl; [exact Hall |]. cbn. lia.
Qed.

Lemma nulls_projected_skip i v vs ps :
  nulls_projected i (v :: vs) ps -> nulls_projected (S i) vs ps.
Proof.
  intros H k Hk. replace (S i + k)%nat with (i + S k)%nat by lia. now apply H.
Qed.

Lemma deserialize_values_spec bits tys vs :
  Forall2 column_ok tys vs -> forall i done got rest tail,
  (forall k v, vs !! k = Some v ->
     (i + k < BITS_MAX_INDEX * length bits)%nat /\ null_bit bits (i + k) = is_null v) ->
  (length done <= i)%nat -> length got = length done ->
  StronglySorted lt rest -> Forall (fun p => i <= p < i + length tys)%nat rest ->
  nulls_projected i vs rest ->
  deserialize_values bits (done ++ rest) i tys (length done) (raws vs ++ tail)
    (got ++ repeat DV.Null (length rest)) = Ok (got ++ project i vs rest).
Proof.
  induction 1 as [|ty v tys vs Hv _ IH]; intros i done got rest tail Hbits Hdone Hgot Hsort Hrange Hnull.
  { destruct rest as [|p rest]; [reflexivity |]. apply Forall_cons_1 in Hrange as [Hp _].
    cbn in Hp. lia. }
  cbn [deserialize_values]. destruct rest as [|p rest].
  { rewrite app_nil_r, (proj2 (lookup_ge_None done (length done))) by lia. reflexivity. }
  rewrite lookup_app_r, Nat.sub_diag by lia. cbn [lookup list_lookup].
  apply Forall_cons_1 in Hrange as [Hp Hrange]. cbn [length] in Hp, Hrange.
  apply StronglySorted_inv in Hsort as [Hsort Hlt].
  destruct (_ <=? _)%nat eqn:Ea; [apply Nat.leb_le in Ea; cbn [length] in Ea; lia | clear Ea].
  destruct (Hbits 0%nat v eq_refl) as [Hb Hnb]. rewrite Nat.add_0_r in Hb, Hnb.
  assert (Hd : (i / BITS_MAX_INDEX < length bits)%nat) by (apply Nat.Div0.div_lt_upper_bound; lia).
  unfold null_bit in Hnb. destruct (lookup_lt_is_Some_2 bits _ Hd) as [b Eb].
  rewrite Eb in *. cbn [unwrap result_bind from_option] in *. unfold id in Hnb. rewrite Hnb.
  assert (Hbits' : forall k v, vs !! k = Some v ->
     (S i + k < BITS_MAX_INDEX * length bits)%nat /\ null_bit bits (S i + k) = is_null v).
  { intros k w Hk. replace (S i + k)%nat with (i + S k)%nat by lia. now apply Hbits. }
  assert (Hnext : forall w, (p <= i)%nat -> w = v ->
    deserialize_values bits (done ++ p :: rest) (S i) tys (S (length done)) (raws vs ++ tail)
      (got ++ w :: repeat DV.Null (length rest)) = Ok (got ++ project i (v :: vs) (p :: rest))).
  { intros w Hpi ->. assert (p = i) as -> by lia.
    specialize (IH (S i) (done ++ [i]) (got ++ [v]) rest tail Hbits').
    rewrite !length_app, <- !app_assoc in IH. cbn [length app] in IH.
    rewrite Nat.add_1_r in IH. rewrite IH; clear IH.
    - unfold project. cbn [map]. rewrite Nat.sub_diag. cbn [lookup list_lookup from_option].
      unfold id. do 3 f_equal. symmetry. now apply project_shift.
    - lia.
    - lia.
    - exact Hsort.
    - rewrite Forall_forall in *. intros q Hq. specialize (Hlt q Hq). specialize (Hrange q Hq). lia.
    - eapply nulls_projected_tail; [| exact Hnull]. lia. }
  destruct (is_null v) eqn:En.
  - destruct v; try discriminate. destruct (Hnull 0%nat eq_refl) as [Hin | Hall].
    + rewrite Nat.add_0_r in Hin. apply Hnext; [| reflexivity].
      apply elem_of_cons in Hin as [-> | Hin]; [lia |].
      rewrite Forall_forall in Hlt. specialize (Hlt i Hin). lia.
    + apply Forall_cons_1 in Hall as [Hq _]. lia.
  - destruct Hv as [-> | Hv]; [discriminate |].
    destruct (raw_roundtrip ty v Hv) as (raw & Hraw & Hfrom).
    unfold raws at 1. cbn [map concat]. unfold raw_of at 1. rewrite Hraw.
    fold (raws vs). rewrite <- app_assoc, Hfrom. cbn [result_bind].
    destruct (Nat.eqb_spec p i) as [-> | Hne].
    + rewrite insert_app_r_alt, Hgot, Nat.sub_diag by lia. cbn [length repeat insert list_insert].
      apply Hnext; [lia | reflexivity].
    + rewrite IH; try assumption.
      * rewrite project_shift; [reflexivity |].
        constructor; [lia |]. rewrite Forall_forall in *. intros q Hq. specialize (Hlt q Hq). lia.
      * lia.
      * now constructor.
      * constructor; [lia |]. rewrite Forall_forall in *. intros q Hq.
        specialize (Hlt q Hq). specialize (Hrange q Hq). lia.
      * now apply nulls_projected_skip in Hnull.
Qed.

Lemma bits_len_enough n : (n <= BITS_MAX_INDEX * bits_len n)%nat.
Proof.
  unfold bits_len, BITS_MAX_INDEX. pose proof (Nat.div_mod_eq (n + 8) 8).
  pose proof (Nat.mod_upper_bound (n + 8) 8). lia.
Qed.

Lemma sorted_is_sorted ps : StronglySorted lt ps -> is_sorted ps = true.
Proof.
  induction 1 as [|p ps Hs IH Hall]; [reflexivity |]. destruct ps as [|q ps]; [reflexivity |].
  cbn [is_sorted]. apply Forall_cons_1 in Hall as [Hlt _].
  rewrite (proj2 (Nat.leb_le p q)) by lia. exact IH.
Qed.

(** Serialization followed by a projected read. *)
Lemma deserialize_serialize types t pk_indices ps :
  Forall2 column_ok types (values t) -> ps <> [] -> StronglySorted lt ps ->
  Forall (fun p => p < length types)%nat ps -> nulls_projected 0 (values t) ps ->
  exists bs, serialize_to t types = Ok bs
    /\ deserialize_from types pk_indices ps (length ps) bs false
       = Ok (mk_tuple None (project 0 (values t) ps)).
Proof.
  intros Hok Hne Hsort Hrange Hnull. pose proof (Forall2_length _ _ _ Hok) as Hlen.
  unfold serialize_to. rewrite <- Hlen, Nat.eqb_refl. cbn [negb].
  set (n := bits_len (length types)).
  destruct (serialize_values_spec types (values t) Hok 0 (repeat 0 n) [])
    as (bits & Hs & Hl & Hn).
  { rewrite repeat_length, <- Hlen. apply bits_len_enough. }
  rewrite app_nil_r, app_nil_l in Hs. rewrite repeat_length in Hl.
  eexists. split; [exact Hs |]. unfold deserialize_from.
  rewrite (proj2 (Nat.eqb_neq (length ps) 0)) by (destruct ps; cbn; congruence).
  rewrite sorted_is_sorted, Nat.eqb_refl by assumption. cbn [negb orb]. fold n.
  rewrite length_app, Hl. rewrite (proj2 (Nat.ltb_ge _ _)) by lia.
  rewrite drop_app_exact by exact Hl.
  pose proof (deserialize_values_spec (bits ++ raws (values t)) types (values t) Hok 0 [] [] ps [])
    as Hd. rewrite app_nil_r in Hd. cbn [app length] in Hd. rewrite Hd; clear Hd; try assumption; try reflexivity; try lia.
  - intros k v Hk. assert (Hkl : (k < length (values t))%nat) by (eapply lookup_lt_Some; exact Hk).
    assert (Hkb : (k < BITS_MAX_INDEX * n)%nat)
      by (pose proof (bits_len_enough (length types)); unfold n; lia).
    split; [rewrite length_app, Hl; lia |]. cbn [Nat.add].
    specialize (Hn k). rewrite null_bit_repeat, orb_false_r in Hn.
    destruct (decide (0 <= k)%nat); [| lia]. rewrite Nat.sub_0_r, Hk in Hn. rewrite <- Hn.
    unfold null_bit. rewrite lookup_app_l; [reflexivity |].
    rewrite Hl. apply Nat.Div0.div_lt_upper_bound. lia.
  - eapply Forall_impl; [exact Hrange |]. cbn. lia.
Qed.

(** C30. Reading a stored tuple back returns the projected columns: for a row of
    values its column types can hold, [serialize_to] succeeds and
    [deserialize_from] with a strictly increasing projection returns exactly the
    projected columns, provided every null column before the last projected one
    is itself projected. *)
Theorem tuple_projection types t pk_indices ps :
  Forall2 column_ok types (values t) -> ps <> [] -> StronglySorted lt ps ->
  Forall (fun p => p < length types)%nat ps -> nulls_projected 0 (values t) ps ->
  exists bs, serialize_to t types = Ok bs
    /\ deserialize_from types pk_indices ps (length ps) bs false
       = Ok (mk_tuple None (project 0 (values t) ps)).
Proof. apply deserialize_serialize. Qed.

Lemma seq_sorted s n : StronglySorted lt (seq s n).
Proof.
  revert s; induction n as [|n IH]; intros s; cbn; constructor; auto.
  apply Forall_forall. intros x Hx. apply elem_of_seq in Hx. lia.
Qed.

Lemma project_all vs : project 0 vs (seq 0 (length vs)) = vs.
Proof.
  unfold project. apply list_eq_same_length with (n := length vs);
    [reflexivity | now rewrite length_map, length_seq |].
  intros i x y Hi Hx Hy. rewrite list_lookup_fmap, lookup_seq_lt in Hx by lia.
  cbn in Hx. rewrite Nat.sub_0_r, Hy in Hx. now injection Hx as <-.
Qed.

(** Storing and reading a whole row is the identity: with every column
    projected, nulls included, the row comes back unchanged. *)
Lemma tuple_roundtrip types t pk_indices :
  Forall2 column_ok types (values t) -> types <> [] ->
  exists bs, serialize_to t types = Ok bs
    /\ deserialize_from types pk_indices (seq 0 (length types)) (length types) bs false
       = Ok (mk_tuple None (values t)).
Proof.
  intros Hok Hne. pose proof (Forall2_length _ _ _ Hok) as Hlen.
  destruct (deserialize_serialize types t pk_indices (seq 0 (length types))) as (bs & Hs & Hd).
  - exact Hok.
  - destruct types; cbn; congruence.
  - apply seq_sorted.
  - apply Forall_forall. intros x Hx. apply elem_of_seq in Hx. lia.
  - intros k Hk. left. apply elem_of_seq. apply lookup_lt_Some in Hk. lia.
  - exists bs. split; [exact Hs |]. rewrite length_seq in Hd. rewrite Hd, Hlen. now rewrite project_all.
Qed.
End RoundTrip.

Section ProjectionBug.
Context {F : Foreign}.

(** A null in an unprojected column loses a projected value: the loop
    advances the projection index on every null column.  Row (NULL, 5) of two
    [INTEGER] columns, read with only the second column projected, comes back
    as null. *)
Theorem null_column_shifts_projection :
  exists bs, serialize_to (mk_tuple None [DV.Null; DV.Int32 5]) [LT.Integer; LT.Integer] = Ok bs
    /\ deserialize_from [LT.Integer; LT.Integer] [] [1%nat] 1 bs false
       = Ok (mk_tuple None [DV.Null]).
Proof. eexists. split; reflexivity. Qed.
End ProjectionBug.

(** ** Witnesses *)

Section Witnesses.
#[local] Existing Instance RefForeign.ref_foreign.
#[local] Existing Instance RefForeign.ref_laws.

Lemma tuple_projection_witness :
  exists bs,
    serialize_to (mk_tuple None [DV.Int32 (-7); DV.Int8 3; DV.Null])
      [LT.Integer; LT.Tinyint; LT.Boolean] = Ok bs
    /\ deserialize_from [LT.Integer; LT.Tinyint; LT.Boolean] [] [1%nat] 1 bs false
       = Ok (mk_tuple None (project 0 [DV.Int32 (-7); DV.Int8 3; DV.Null] [1%nat])).
Proof.
  apply (tuple_projection [LT.Integer; LT.Tinyint; LT.Boolean]
           (mk_tuple None [DV.Int32 (-7); DV.Int8 3; DV.Null]) [] [1%nat]).
  - repeat constructor; right; reflexivity || (left; reflexivity).
  - discriminate.
  - repeat constructor.
  - repeat constructor.
  - intros [|[|[|k]]] Hk; try discriminate. right. repeat constructor.
Defined.
End Witnesses.
