(* ===== verification/TableCodec.v ===== *)
(** * Keys

    [TableCodec] (src/src/storage/table_codec.rs): the keys of tuples, index
    entries, index and column metadata, statistics, tables and views, and the
    bounds of the key ranges that hold them.  [Index] and [IndexType] are those
    of src/src/types/index.rs.  The values that other serializers produce (a
    catalog record, a bincode tuple id) are arguments. *)

From S2P Require Import Prelude Bytes Types LogicalTypes Values Evaluators Memcomparable TupleCodec.

Definition ROOT_BYTES : bytes := [82; 111; 111; 116].
Definition VIEW_BYTES : bytes := [86; 105; 101; 119].
Definition HASH_BYTES : bytes := [72; 97; 115; 104].

Module CodecType.
Inductive CodecType := Column | IndexMeta | Index | Statistics | View | Tuple | Root | Hash.
End CodecType.
Abbreviation CodecType := CodecType.CodecType.

Inductive IndexType :=
| PrimaryKey (is_multiple : bool)
| Unique
| Normal
| Composite.

Section TableCodec.
Context {F : Foreign}.

Record Index := mk_index { index_id : Z; index_value : DataValue; index_ty : IndexType }.

(** [ColumnRelation] of src/src/catalog/column.rs; a column id is 16 bytes. *)
Inductive ColumnRelation :=
| NoRelation
| TableRelation (column_id : bytes) (table_name : bytes) (is_temp : bool).

Definition hash_bytes (table_name : bytes) : bytes := le_bytes 8 (sip_hash table_name).

(** ** Primary keys *)

Definition check_primary_key_type (ty : LogicalType) : Result unit :=
  match ty with
  | LT.Tinyint | LT.Smallint | LT.Integer | LT.Bigint
  | LT.UTinyint | LT.USmallint | LT.UInteger | LT.UBigint
  | LT.Char _ _ | LT.Varchar _ _ => Ok tt
  | _ => Err InvalidType
  end.

Fixpoint check_primary_key (value : DataValue) (indentation : nat) : Result unit :=
  if (1 <? indentation)%nat then Err PrimaryKeyTooManyLayers
  else if is_null value then Err NotNull
  else match value with
       | DV.Tuple values _ =>
           (fix go (l : list DataValue) : Result unit :=
              match l with
              | [] => Ok tt
              | v :: l' => let? _ := check_primary_key v (S indentation) in go l'
              end) values
       | _ => check_primary_key_type (logical_type value)
       end.

(** ** Prefixes and bounds *)

Definition key_prefix (ty : CodecType) (name : bytes) : bytes :=
  let table_bytes := hash_bytes name in
  match ty with
  | CodecType.Column => table_bytes ++ [48]
  | CodecType.IndexMeta => table_bytes ++ [49]
  | CodecType.Index => table_bytes ++ [51]
  | CodecType.Statistics => table_bytes ++ [52]
  | CodecType.Tuple => table_bytes ++ [56]
  | CodecType.Root => ROOT_BYTES ++ [BOUND_MIN_TAG] ++ table_bytes
  | CodecType.View => VIEW_BYTES ++ [BOUND_MIN_TAG] ++ table_bytes
  | CodecType.Hash => HASH_BYTES ++ [BOUND_MIN_TAG] ++ table_bytes
  end.

Definition tuple_bound (table_name : bytes) : bytes * bytes :=
  let op bound_id := key_prefix CodecType.Tuple table_name ++ [bound_id] in
  (op BOUND_MIN_TAG, op BOUND_MAX_TAG).

Definition index_meta_bound (table_name : bytes) : bytes * bytes :=
  let op bound_id := key_prefix CodecType.IndexMeta table_name ++ [bound_id] in
  (op BOUND_MIN_TAG, op BOUND_MAX_TAG).

Definition index_bound (table_name : bytes) (id : Z) : bytes * bytes :=
  let op bound_id :=
    key_prefix CodecType.Index table_name ++ [BOUND_MIN_TAG] ++ le_bytes 4 id ++ [bound_id] in
  (op BOUND_MIN_TAG, op BOUND_MAX_TAG).

Definition all_index_bound (table_name : bytes) : bytes * bytes :=
  let op bound_id := key_prefix CodecType.Index table_name ++ [bound_id] in
  (op BOUND_MIN_TAG, op BOUND_MAX_TAG).

Definition root_table_bound : bytes * bytes :=
  let op bound_id := ROOT_BYTES ++ [bound_id] in (op BOUND_MIN_TAG, op BOUND_MAX_TAG).

Definition table_bound (table_name : bytes) : bytes * bytes :=
  (key_prefix CodecType.Column table_name ++ [BOUND_MIN_TAG],
   key_prefix CodecType.IndexMeta table_name ++ [BOUND_MAX_TAG]).

Definition columns_bound (table_name : bytes) : bytes * bytes :=
  let op bound_id := key_prefix CodecType.Column table_name ++ [bound_id] in
  (op BOUND_MIN_TAG, op BOUND_MAX_TAG).

Definition statistics_bound (table_name : bytes) : bytes * bytes :=
  let op bound_id := key_prefix CodecType.Statistics table_name ++ [bound_id] in
  (op BOUND_MIN_TAG, op BOUND_MAX_TAG).

Definition view_bound : bytes * bytes :=
  let op bound_id := VIEW_BYTES ++ [bound_id] in (op BOUND_MIN_TAG, op BOUND_MAX_TAG).

(** ** Keys *)

Definition encode_tuple_key (table_name : bytes) (tuple_id : TupleId) : Result bytes :=
  let? _ := check_primary_key tuple_id 0 in
  memcomparable_encode tuple_id (key_prefix CodecType.Tuple table_name ++ [BOUND_MIN_TAG]).

Definition encode_tuple (table_name : bytes) (tuple : Tuple F) (types : list LogicalType)
  : Result (bytes * bytes) :=
  let? tuple_id := ok_or (pk tuple) PrimaryKeyNotFound in
  let? key := encode_tuple_key table_name tuple_id in
  let? value := serialize_to tuple types in
  Ok (key, value).

Definition encode_index_meta_key (table_name : bytes) (id : Z) : bytes :=
  key_prefix CodecType.IndexMeta table_name ++ [BOUND_MIN_TAG] ++ le_bytes 4 id.

Definition encode_index_bound_key (name : bytes) (index : Index) (is_upper : bool)
  : Result bytes :=
  let key_prefix :=
    key_prefix CodecType.Index name ++ [BOUND_MIN_TAG] ++ le_bytes 4 (index_id index)
    ++ [BOUND_MIN_TAG] in
  let? key := memcomparable_encode (index_value index) key_prefix in
  Ok (if is_upper then key ++ [BOUND_MAX_TAG] else key).

Definition encode_index_key (name : bytes) (index : Index) (tuple_id : option TupleId)
  : Result bytes :=
  let? key := encode_index_bound_key name index false in
  match tuple_id, index_ty index with
  | Some tuple_id, (Normal | Composite) => memcomparable_encode tuple_id key
  | _, _ => Ok key
  end.

(** [bincode] is the serializer of tuple ids. *)
Definition encode_index (bincode : TupleId -> bytes) (name : bytes) (index : Index)
    (tuple_id : TupleId) : Result (bytes * bytes) :=
  let? key := encode_index_key name index (Some tuple_id) in
  Ok (key, bincode tuple_id).

(** [col] is the serialized catalog record; the error message is dropped. *)
Definition encode_column (relation : ColumnRelation) (col : Result bytes)
  : Result (bytes * bytes) :=
  match relation with
  | TableRelation column_id table_name false =>
      let? col := col in
      Ok (key_prefix CodecType.Column table_name ++ [BOUND_MIN_TAG] ++ column_id, col)
  | _ => Err (InvalidColumn [])
  end.

Definition encode_statistics_path_key (table_name : bytes) (id : Z) : bytes :=
  key_prefix CodecType.Statistics table_name ++ [BOUND_MIN_TAG] ++ le_bytes 4 id.
Definition encode_statistics_path (table_name : bytes) (id : Z) (path : bytes) : bytes * bytes :=
  (encode_statistics_path_key table_name id, path).

Definition encode_view_key (view_name : bytes) : bytes := key_prefix CodecType.View view_name.
Definition encode_root_table_key (table_name : bytes) : bytes :=
  key_prefix CodecType.Root table_name.
Definition encode_table_hash_key (table_name : bytes) : bytes :=
  key_prefix CodecType.Hash table_name.
Definition encode_table_hash (table_name : bytes) : bytes * bytes :=
  (key_prefix CodecType.Hash table_name, []).
End TableCodec.
Arguments Index F : clear implicits.

(** ** Keys extend their prefix *)

Section Extends.
Context {F : Foreign}.

Lemma serialize_decimal_extends d b k :
  serialize_decimal d b = Ok k -> exists s, k = b ++ s.
Proof.
  unfold serialize_decimal. destruct (dec_is_zero d); intros H; inv_ok; [eauto |].
  destruct (negb _); inv_ok; eauto.
Qed.

Lemma memcomparable_encode_extends v b k :
  memcomparable_encode v b = Ok k -> exists s, k = b ++ s.
Proof.
  revert b k. induction v as [vs up IH | v Hv] using DataValue_nested_ind; intros b k.
  - destruct vs as [|v vs]; [discriminate |]. rewrite memcomparable_encode_tuple.
    revert b k. generalize dependent (v :: vs). clear.
    induction 1 as [|v l Hv _ IHl]; intros b k H; cbn [encode_components] in H; inv_ok.
    + exists []. now rewrite app_nil_r.
    + apply Hv in Hok as [s ->]. apply IHl in H as [s' ->]. rewrite <- !app_assoc. eauto.
  - destruct v; cbn [memcomparable_encode]; intros H; inv_ok; eauto using serialize_decimal_extends.
    + exists []. now rewrite app_nil_r.
    + rewrite encode_bytes_unfold, <- app_assoc. eauto.
    + now edestruct Hv.
Qed.

(** Every key of an index continues the table's index prefix with the minimum
    tag. *)
Lemma index_key_extends name index tuple_id k :
  encode_index_key name index tuple_id = Ok k ->
  exists s, k = key_prefix CodecType.Index name
                ++ BOUND_MIN_TAG :: le_bytes 4 (index_id index) ++ BOUND_MIN_TAG :: s.
Proof.
  unfold encode_index_key, encode_index_bound_key. intros H. inv_ok.
  apply memcomparable_encode_extends in Hok0 as [s ->].
  assert (Hk : exists s', k = (key_prefix CodecType.Index name ++ [BOUND_MIN_TAG]
                ++ le_bytes 4 (index_id index) ++ [BOUND_MIN_TAG]) ++ s').
  { destruct tuple_id as [tid|]; [| injection H as <-; eauto].
    destruct (index_ty index); try (injection H as <-; now eauto);
      apply memcomparable_encode_extends in H as [s' ->]; rewrite <- !app_assoc; eauto. }
  destruct Hk as [s' ->]. exists s'. rewrite <- !app_assoc. reflexivity.
Qed.
End Extends.

(** ** Bounds *)

Section Bounds.
Context {F : Foreign} {L : ForeignLaws F}.

Definition in_bound (k : bytes) (bound : bytes * bytes) : Prop :=
  lex_cmp bound.1 k <> Gt /\ lex_cmp k bound.2 = Lt.

Lemma lex_cmp_prefix_le a b : lex_cmp a (a ++ b) <> Gt.
Proof.
  destruct b as [|x b]; [rewrite app_nil_r, lex_cmp_refl | rewrite lex_cmp_prefix]; discriminate.
Qed.

(** A key that continues a prefix with the minimum tag lies in the prefix's
    range. *)
Lemma in_bound_prefix p s : in_bound (p ++ BOUND_MIN_TAG :: s) (p ++ [BOUND_MIN_TAG], p ++ [BOUND_MAX_TAG]).
Proof.
  split; cbn [fst snd].
  - rewrite lex_cmp_app. destruct s; discriminate.
  - now rewrite lex_cmp_app.
Qed.

(** And only continuations of the prefix lie in it. *)
Lemma in_bound_prefix_inv p a b k : in_bound k (p ++ [a], p ++ [b]) -> take (length p) k = p.
Proof.
  unfold in_bound. cbn [fst snd]. revert k. induction p as [|x p IH]; intros k [H1 H2]; [reflexivity |].
  destruct k as [|y k]; cbn [app lex_cmp length take] in *; [congruence |].
  destruct (Z.compare_spec x y) as [<- | Hlt | Hgt]; cbn [cmp_then] in H1.
  - rewrite Z.compare_refl in H2. f_equal. apply IH. auto.
  - rewrite (proj2 (Z.compare_gt_iff y x)) in H2 by lia. discriminate.
  - congruence.
Qed.

(** Every key lies in the ranges the scans use: tuple, index, index
    metadata, column, statistics, table and view keys are at least the minimum
    and below the maximum of their table's bound. *)
Theorem keys_in_bounds name :
  (forall id k, encode_tuple_key name id = Ok k -> in_bound k (tuple_bound name))
  /\ (forall index tuple_id k, encode_index_key name index tuple_id = Ok k ->
        in_bound k (index_bound name (index_id index)) /\ in_bound k (all_index_bound name))
  /\ (forall id, in_bound (encode_index_meta_key name id) (index_meta_bound name)
                 /\ in_bound (encode_index_meta_key name id) (table_bound name))
  /\ (forall cid col k v, encode_column (TableRelation cid name false) col = Ok (k, v) ->
        in_bound k (columns_bound name) /\ in_bound k (table_bound name))
  /\ (forall id path, in_bound (encode_statistics_path name id path).1 (statistics_bound name))
  /\ in_bound (encode_root_table_key name) root_table_bound
  /\ in_bound (encode_view_key name) view_bound.
Proof.
  assert (Htag : forall s t, lex_cmp (hash_bytes name ++ [48] ++ s)
                                 (hash_bytes name ++ [49] ++ t) = Lt) by (intros; now rewrite lex_cmp_app).
  split; [| split; [| split; [| split; [| split; [| split]]]]].
  - intros id k H. unfold encode_tuple_key in H. inv_ok.
    apply memcomparable_encode_extends in H as [s ->]. rewrite <- app_assoc. apply in_bound_prefix.
  - intros index tuple_id k H. apply index_key_extends in H as [s ->]. split; [| apply in_bound_prefix].
    pose proof (in_bound_prefix (key_prefix CodecType.Index name ++ BOUND_MIN_TAG :: le_bytes 4 (index_id index)) s) as Hb.
    unfold index_bound, in_bound in *. cbn [fst snd app] in *. now rewrite <- !app_assoc in *.
  - intros id. split; [apply in_bound_prefix |]. split; unfold table_bound; cbn [fst snd].
    + unfold encode_index_meta_key, key_prefix. rewrite <- !app_assoc. now rewrite Htag.
    + unfold encode_index_meta_key. now rewrite lex_cmp_app.
  - intros cid col k v H.
    assert (k = key_prefix CodecType.Column name ++ [BOUND_MIN_TAG] ++ cid) as ->
      by (unfold encode_column in H; destruct col; cbn [result_bind] in H; congruence).
    split; [apply in_bound_prefix |]. split; unfold table_bound; cbn [fst snd].
    + rewrite lex_cmp_app. destruct cid; discriminate.
    + unfold key_prefix. rewrite <- !app_assoc. apply Htag.
  - intros id path. apply in_bound_prefix.
  - apply (in_bound_prefix ROOT_BYTES).
  - apply (in_bound_prefix VIEW_BYTES).
Qed.

(** The kinds of keys stored per table and the range that holds each. *)
Definition scoped (ty : CodecType) : bool :=
  match ty with
  | CodecType.Root | CodecType.View | CodecType.Hash => false
  | _ => true
  end.
Definition scope_bound (ty : CodecType) (name : bytes) : bytes * bytes :=
  match ty with
  | CodecType.Column => columns_bound name
  | CodecType.IndexMeta => index_meta_bound name
  | CodecType.Index => all_index_bound name
  | CodecType.Statistics => statistics_bound name
  | _ => tuple_bound name
  end.

Lemma scoped_prefix_length ty name : scoped ty = true -> length (key_prefix ty name) = 9%nat.
Proof.
  intros Hs. destruct ty; try discriminate; unfold key_prefix, hash_bytes;
    now rewrite length_app, le_bytes_length.
Qed.

Lemma scope_bound_prefix ty name k :
  scoped ty = true -> in_bound k (scope_bound ty name) -> take 9 k = key_prefix ty name.
Proof.
  intros Hs H. rewrite <- (scoped_prefix_length ty name Hs). destruct ty; try discriminate; eapply in_bound_prefix_inv; exact H.
Qed.

Lemma hash_bytes_inj a b : hash_bytes a = hash_bytes b -> sip_hash a = sip_hash b.
Proof.
  intros H. apply (le_bytes_inj 8); [apply sip_hash_range | apply sip_hash_range | exact H].
Qed.

Lemma scoped_prefix_inj ty1 n1 ty2 n2 :
  scoped ty1 = true -> scoped ty2 = true -> key_prefix ty1 n1 = key_prefix ty2 n2 ->
  ty1 = ty2 /\ sip_hash n1 = sip_hash n2.
Proof.
  intros H1 H2 H. destruct ty1; try discriminate H1; destruct ty2; try discriminate H2;
    unfold key_prefix in H; apply app_inj_tail in H as [H Ht]; try discriminate Ht;
    split; auto using hash_bytes_inj.
Qed.

(** C23. Ranges of different tables and kinds are disjoint: a key inside the
    range of one kind of one table is in no range of another kind, and only in
    those of tables with the same 64-bit name hash; the ranges of two indexes
    of a table are disjoint too.  Scanning or dropping one range never touches
    another's keys. *)
Theorem bounds_disjoint k ty1 n1 ty2 n2 :
  scoped ty1 = true -> scoped ty2 = true ->
  in_bound k (scope_bound ty1 n1) -> in_bound k (scope_bound ty2 n2) ->
  (ty1 = ty2 /\ sip_hash n1 = sip_hash n2)
  /\ forall id1 id2, in_u 32 id1 = true -> in_u 32 id2 = true ->
       in_bound k (index_bound n1 id1) -> in_bound k (index_bound n2 id2) -> id1 = id2.
Proof.
  intros H1 H2 Hk1 Hk2. apply scope_bound_prefix in Hk1, Hk2; [| assumption ..].
  rewrite Hk1 in Hk2. apply scoped_prefix_inj in Hk2 as [Ht Hn]; [| assumption ..].
  split; [auto |]. intros id1 id2 Hi1%in_u_iff Hi2%in_u_iff Hb1 Hb2.
  unfold index_bound in Hb1, Hb2.
  assert (Hp : forall n id, in_bound k (index_bound n id) ->
    take 14 k = (key_prefix CodecType.Index n ++ [BOUND_MIN_TAG]) ++ le_bytes 4 id).
  { intros n id Hb. unfold index_bound in Hb.
    rewrite !app_assoc in Hb. apply in_bound_prefix_inv in Hb.
    now rewrite !length_app, le_bytes_length, scoped_prefix_length in Hb. }
  pose proof (Hp _ _ Hb1) as E1. pose proof (Hp _ _ Hb2) as E2. rewrite E1 in E2.
  apply app_inj_2 in E2 as [_ E2]; [| now rewrite !le_bytes_length].
  apply (le_bytes_inj 4); assumption.
Qed.

(** ** Index lookups *)

(** The first byte of the tuple id in a non-unique index key. *)
Definition tid_head (tid : TupleId) : Z := hd 0 (fixed_encoding tid).

(** C32. An equality scan on a non-unique index is exact: for an indexed value and a
    value searched for that are of fixed width (integers in range, booleans, dates,
    times, floats other than NaN; no nulls, strings, decimals or tuples) and
    comparable, and a tuple id of fixed width whose encoding does not start with the
    byte 255, the entry's key lies between the lower and the upper bound key of the
    value searched for exactly when the two values are equal. *)
Theorem index_eq_scan_exact name id a b c tid :
  key_component a = true -> key_component b = true -> partial_cmp a b = Some c ->
  fixed_width tid = true -> 0 <= tid_head tid < 255 ->
  exists k lo hi,
    encode_index_key name (mk_index id a Normal) (Some tid) = Ok k
    /\ encode_index_bound_key name (mk_index id b Normal) false = Ok lo
    /\ encode_index_bound_key name (mk_index id b Normal) true = Ok hi
    /\ (lex_cmp lo k <> Gt /\ lex_cmp k hi <> Gt <-> c = Eq).
Proof.
  intros Ha Hb Hc Hf Ht. unfold key_component in Ha, Hb. bool_to_prop.
  unfold encode_index_key, encode_index_bound_key. cbn [index_value index_id index_ty].
  rewrite !memcomparable_encode_fixed by assumption. cbn [result_bind].
  rewrite memcomparable_encode_fixed by assumption.
  do 3 eexists. split; [reflexivity |]. split; [reflexivity |]. split; [reflexivity |].
  rewrite <- !app_assoc, !lex_cmp_app.
  rewrite (lex_cmp_app_len (fixed_encoding a)) by (eapply fixed_encoding_length; eassumption).
  rewrite <- (app_nil_r (fixed_encoding b)) at 1.
  rewrite lex_cmp_app_len by (symmetry; eapply fixed_encoding_length; eassumption).
  rewrite (lex_cmp_antisym (fixed_encoding a) (fixed_encoding b)).
  rewrite (fixed_encoding_cmp a b) with (c := c) by assumption.
  destruct c; cbn [cmp_then CompOpp]; split; try (intros [? ?]; congruence); try discriminate.
  intros _. unfold tid_head in Ht. split; [destruct (fixed_encoding tid); discriminate |].
  destruct (fixed_encoding tid) as [|x s]; cbn in *; [discriminate |].
  rewrite (proj2 (Z.compare_lt_iff x BOUND_MAX_TAG)) by (unfold BOUND_MAX_TAG; lia). discriminate.
Qed.

(** Rows whose key ends in a tuple id that starts with byte 255 are missed:
    the entry of a [SMALLINT] primary key 32767 lies above the upper bound of
    its own index value, so an equality scan does not return the row. *)
Theorem index_eq_scan_misses name id v k hi :
  encode_index_key name (mk_index id v Normal) (Some (DV.Int16 32767)) = Ok k ->
  encode_index_bound_key name (mk_index id v Normal) true = Ok hi ->
  lex_cmp k hi = Gt.
Proof.
  unfold encode_index_key, encode_index_bound_key. cbn [index_value index_id index_ty].
  intros Hk Hhi. inv_ok. rewrite memcomparable_encode_fixed in Hk by reflexivity. inv_ok.
  rewrite lex_cmp_app. reflexivity.
Qed.

(** ** Primary keys *)

Definition pk_scalar (v : DataValue) : bool :=
  match v with
  | DV.Int8 _ | DV.Int16 _ | DV.Int32 _ | DV.Int64 _
  | DV.UInt8 _ | DV.UInt16 _ | DV.UInt32 _ | DV.UInt64 _ | DV.Utf8 _ _ _ => true
  | _ => false
  end.

Lemma check_scalar v i :
  (i <= 1)%nat -> (forall vs up, v <> DV.Tuple vs up) ->
  check_primary_key v i = Ok tt <-> pk_scalar v = true.
Proof.
  intros Hi Hv. destruct v; cbn [check_primary_key];
    rewrite (proj2 (Nat.ltb_ge _ _)) by lia; cbn; try (split; congruence); try (now edestruct Hv).
  destruct ty; split; reflexivity.
Qed.

(** A component of a composite key: a scalar (the empty tuple passes too). *)
Definition pk_component (v : DataValue) : bool :=
  match v with DV.Tuple [] _ => true | _ => pk_scalar v end.

Lemma check_component v : check_primary_key v 1 = Ok tt <-> pk_component v = true.
Proof.
  destruct v; try (apply check_scalar; [lia | discriminate]).
  destruct values as [|v vs]; [split; reflexivity |].
  cbn [check_primary_key is_null Nat.ltb Nat.leb pk_component pk_scalar].
  destruct v; cbn; split; discriminate.
Qed.

(** A value is accepted as a primary key exactly when it is an integer or a
    string, or a tuple of integers and strings (or empty tuples): nulls, other
    types and non-empty nested tuples are refused. *)
Theorem check_primary_key_spec v :
  check_primary_key v 0 = Ok tt
  <-> match v with
      | DV.Tuple vs _ => forallb pk_component vs = true
      | _ => pk_scalar v = true
      end.
Proof.
  destruct v; try (apply check_scalar; [lia | discriminate]).
  cbn [check_primary_key is_null Nat.ltb Nat.leb].
  induction values as [|v vs IH]; [split; reflexivity |].
  cbn [forallb]. rewrite andb_true_iff, <- check_component, <- IH.
  destruct (check_primary_key v 1) as [[]| |]; cbn [result_bind]; intuition congruence.
Qed.
End Bounds.

(** ** Witnesses *)

Section Witnesses.
#[local] Existing Instance RefForeign.ref_foreign.
#[local] Existing Instance RefForeign.ref_laws.

Lemma keys_in_bounds_witness :
  in_bound (encode_root_table_key [116; 49]) root_table_bound
  /\ in_bound (encode_view_key [116; 49]) view_bound.
Proof. apply (keys_in_bounds [116; 49]). Defined.

Lemma bounds_disjoint_witness :
  (CodecType.Tuple = CodecType.Tuple /\ sip_hash [116; 49] = sip_hash [116; 49])
  /\ forall id1 id2, in_u 32 id1 = true -> in_u 32 id2 = true ->
       in_bound (key_prefix CodecType.Tuple [116; 49] ++ [0; 7]) (index_bound [116; 49] id1) ->
       in_bound (key_prefix CodecType.Tuple [116; 49] ++ [0; 7]) (index_bound [116; 49] id2) ->
       id1 = id2.
Proof.
  apply (bounds_disjoint _ CodecType.Tuple [116; 49] CodecType.Tuple [116; 49]);
    try reflexivity; split; discriminate || reflexivity.
Defined.

Lemma index_eq_scan_exact_witness :
  exists k lo hi,
    encode_index_key [116] (mk_index 1 (DV.Int32 5) Normal) (Some (DV.Int32 9)) = Ok k
    /\ encode_index_bound_key [116] (mk_index 1 (DV.Int32 5) Normal) false = Ok lo
    /\ encode_index_bound_key [116] (mk_index 1 (DV.Int32 5) Normal) true = Ok hi
    /\ (lex_cmp lo k <> Gt /\ lex_cmp k hi <> Gt <-> Eq = Eq).
Proof.
  apply (index_eq_scan_exact [116] 1 (DV.Int32 5) (DV.Int32 5) Eq (DV.Int32 9));
    try reflexivity. split; reflexivity || discriminate.
Defined.

Lemma index_eq_scan_misses_witness :
  exists k hi,
    encode_index_key [116] (mk_index 1 (DV.Int32 5) Normal) (Some (DV.Int16 32767)) = Ok k
    /\ encode_index_bound_key [116] (mk_index 1 (DV.Int32 5) Normal) true = Ok hi
    /\ lex_cmp k hi = Gt.
Proof.
  do 2 eexists. split; [reflexivity |]. split; [reflexivity |].
  eapply (index_eq_scan_misses [116] 1 (DV.Int32 5)); reflexivity.
Defined.
End Witnesses.
