(* ===== verification/Lru.v ===== *)
(** * The LRU cache

    [LruCache] and [SharedLruCache] (src/src/utils/lru.rs): heap nodes chained
    into a doubly linked list by raw pointers, and a hash map whose keys are
    [KeyRef]s, raw pointers to the nodes that hold the keys.  The heap is an
    explicit finite map from addresses to nodes: following a pointer to a freed
    node is [Panic] (undefined behaviour in the source), [Box::leak] allocates
    and [Box::from_raw] frees.  Which [KeyRef]s the hash map reads to find a key
    depends on the hashes; the model reads all of them, so that a dangling one
    anywhere in the map is a [Panic]. *)

From stdpp Require Import gmap.
From S2P Require Import Prelude Bytes Types.

(** Addresses. *)
Abbreviation ptr := nat.

Section Lru.
Context {F : Foreign} {K : Type} `{Countable K} {V : Type}.

Record Node := mk_node { key : K; value : V; prev : option ptr; next : option ptr }.

Record LruCache := mk_lru {
  heap : gmap ptr Node;
  fresh : ptr;
  head : option ptr;
  tail : option ptr;
  inner : list (ptr * ptr);   (* [KeyRef] and node *)
  cap : nat
}.

(** ** Memory *)

Definition set_heap (s : LruCache) (h : gmap ptr Node) : LruCache :=
  mk_lru h (fresh s) (head s) (tail s) (inner s) (cap s).
Definition set_head (s : LruCache) (p : option ptr) : LruCache :=
  mk_lru (heap s) (fresh s) p (tail s) (inner s) (cap s).
Definition set_tail (s : LruCache) (p : option ptr) : LruCache :=
  mk_lru (heap s) (fresh s) (head s) p (inner s) (cap s).
Definition set_inner (s : LruCache) (m : list (ptr * ptr)) : LruCache :=
  mk_lru (heap s) (fresh s) (head s) (tail s) m (cap s).

Definition deref (s : LruCache) (p : ptr) : Result Node := unwrap (heap s !! p).
Definition set_prev (p : ptr) (q : option ptr) (s : LruCache) : Result LruCache :=
  let? n := deref s p in
  Ok (set_heap s (<[p := mk_node (key n) (value n) q (next n)]> (heap s))).
Definition set_next (p : ptr) (q : option ptr) (s : LruCache) : Result LruCache :=
  let? n := deref s p in
  Ok (set_heap s (<[p := mk_node (key n) (value n) (prev n) q]> (heap s))).

(** [Box::leak(Box::new(Node::new(key, value)))]. *)
Definition alloc (k : K) (v : V) (s : LruCache) : ptr * LruCache :=
  (fresh s, mk_lru (<[fresh s := mk_node k v None None]> (heap s)) (S (fresh s))
              (head s) (tail s) (inner s) (cap s)).
(** [Box::from_raw] moves the node out and frees it. *)
Definition free (p : ptr) (s : LruCache) : Result (V * LruCache) :=
  let? n := deref s p in Ok (value n, set_heap s (delete p (heap s))).

(** ** The hash map *)

(** [KeyRef::borrow], [KeyRef::eq], [KeyRef::hash]: the key of the node. *)
Definition ref_key (s : LruCache) (r : ptr) : Result K := let? n := deref s r in Ok (key n).
Definition entries (s : LruCache) : Result (list (K * (ptr * ptr))) :=
  try_map (fun e => let? k := ref_key s e.1 in Ok (k, e)) (inner s).

Definition node_of (k : K) (es : list (K * (ptr * ptr))) : option ptr :=
  option_map (fun e => e.2.2) (list.head (filter (fun e => e.1 = k) es)).

(** [HashMap::get], [HashMap::remove]. *)
Definition inner_get (k : K) (s : LruCache) : Result (option ptr) :=
  let? es := entries s in Ok (node_of k es).
Definition inner_remove (k : K) (s : LruCache) : Result (option ptr * LruCache) :=
  let? es := entries s in
  Ok (node_of k es, set_inner s (map snd (filter (fun e => e.1 <> k) es))).
(** [HashMap::insert] of a [KeyRef]: an entry with an equal key keeps its key. *)
Definition inner_insert (r node : ptr) (s : LruCache) : Result LruCache :=
  let? k := ref_key s r in
  let? es := entries s in
  Ok (set_inner s
    (match node_of k es with
     | Some _ => map (fun e => (e.2.1, if decide (e.1 = k) then node else e.2.2)) es
     | None => inner s ++ [(r, node)]
     end)).

(** ** Operations *)

Definition lru_new (cap : nat) : Result LruCache :=
  if (cap <? 1)%nat then Err CacheSizeOverFlow else Ok (mk_lru ∅ 0%nat None None [] cap).

Definition detach (node : ptr) (s : LruCache) : Result LruCache :=
  let? n := deref s node in
  let? s := match prev n with
            | Some p => set_next p (next n) s
            | None => Ok (set_head s (next n))
            end in
  let? n := deref s node in
  let? s := match next n with
            | Some p => set_prev p (prev n) s
            | None => Ok (set_tail s (prev n))
            end in
  let? s := set_prev node None s in
  set_next node None s.

Definition attach (node : ptr) (s : LruCache) : Result LruCache :=
  match head s with
  | Some h =>
      let? s := set_prev h (Some node) s in
      let? s := set_next node (Some h) s in
      let? s := set_prev node None s in
      Ok (set_head s (Some node))
  | None =>
      let? s := set_prev node None s in
      let? s := set_next node None s in
      Ok (set_tail (set_head s (Some node)) (Some node))
  end.

Definition expulsion (s : LruCache) : Result LruCache :=
  match tail s with
  | Some t =>
      if (cap s <=? length (inner s))%nat then
        let? s := detach t s in
        let? k := ref_key s t in
        let? '(_, s) := inner_remove k s in
        Ok s
      else Ok s
  | None => Ok s
  end.

Definition lru_put (k : K) (v : V) (s : LruCache) : Result (option V * LruCache) :=
  let '(node, s) := alloc k v s in
  let? k := ref_key s node in
  let? '(old_node, s) := inner_remove k s in
  let? s := match old_node with Some p => detach p s | None => Ok s end in
  let? s := expulsion s in
  let? s := attach node s in
  let? s := inner_insert node node s in
  match old_node with
  | Some p => let? '(old, s) := free p s in Ok (Some old, s)
  | None => Ok (None, s)
  end.

Definition get_node (k : K) (s : LruCache) : Result (option ptr * LruCache) :=
  let? found := inner_get k s in
  match found with
  | Some node =>
      let? s := detach node s in
      let? s := attach node s in
      Ok (Some node, s)
  | None => Ok (None, s)
  end.

Definition lru_get (k : K) (s : LruCache) : Result (option V * LruCache) :=
  let? '(node, s) := get_node k s in
  match node with
  | Some p => let? n := deref s p in Ok (Some (value n), s)
  | None => Ok (None, s)
  end.

Definition lru_remove (k : K) (s : LruCache) : Result (option V * LruCache) :=
  let? '(found, s) := inner_remove k s in
  match found with
  | Some node =>
      let? s := detach node s in
      let? '(v, s) := free node s in
      Ok (Some v, s)
  | None => Ok (None, s)
  end.

(** [fn_once] computes the value of a missing key and may fail. *)
Definition get_or_insert_node (k : K) (fn_once : K -> Result V) (s : LruCache)
  : Result (ptr * LruCache) :=
  let? found := inner_get k s in
  match found with
  | Some node =>
      let? s := detach node s in
      let? s := attach node s in
      Ok (node, s)
  | None =>
      let? v := fn_once k in
      let '(node, s) := alloc k v s in
      let? k := ref_key s node in
      let? '(old_node, s) := inner_remove k s in
      let? s := match old_node with Some p => detach p s | None => Ok s end in
      let? s := expulsion s in
      let? s := attach node s in
      let? s := inner_insert node node s in
      Ok (node, s)
  end.

Definition get_or_insert (k : K) (fn_once : K -> Result V) (s : LruCache)
  : Result (V * LruCache) :=
  let? '(node, s) := get_or_insert_node k fn_once s in
  let? n := deref s node in
  Ok (value n, s).

(** [Drop]: walk the list from the head and free every node; [fuel] bounds the
    walk. *)
Fixpoint lru_drop (fuel : nat) (s : LruCache) : Result LruCache :=
  match fuel, head s with
  | S fuel', Some node =>
      let? n := deref s node in
      lru_drop fuel' (set_head (set_heap s (delete node (heap s))) (next n))
  | _, _ => Ok s
  end.

Definition lru_len (s : LruCache) : nat := length (inner s).
Definition lru_is_empty (s : LruCache) : bool := (length (inner s) =? 0)%nat.
(** [iter] and [LruCacheIter::next], in the order of the hash map. *)
Definition lru_iter (s : LruCache) : Result (list (K * V)) :=
  try_map (fun e => let? n := deref s e.2 in Ok (key n, value n)) (inner s).
End Lru.

(** ** The sharded cache: [hash] is the hasher, a shard is behind a mutex *)

Section Shared.
Context {F : Foreign} {K : Type} `{Countable K} {V : Type}.
Variable hash : K -> Z.

Abbreviation SharedLruCache := (list (@LruCache K V)).

Definition shared_new (cap shared_size : nat) : Result SharedLruCache :=
  match shared_size with
  | O => Panic
  | _ =>
      if negb (cap mod shared_size =? 0)%nat then Err SharedNotAlign
      else try_map (fun _ => lru_new (cap / shared_size)) (seq 0 shared_size)
  end.

Definition shard (c : SharedLruCache) (k : K) : nat :=
  (Z.to_nat (hash k) mod length c)%nat.

(** Run an operation on the shard of a key. *)
Definition on_shard {A} (c : SharedLruCache) (k : K)
    (op : LruCache -> Result (A * LruCache)) : Result (A * SharedLruCache) :=
  let i := shard c k in
  let? s := unwrap (c !! i) in
  let? '(a, s) := op s in
  Ok (a, <[i := s]> c).

Definition shared_get (k : K) (c : SharedLruCache) : Result (option V * SharedLruCache) :=
  on_shard c k (lru_get k).
Definition shared_put (k : K) (v : V) (c : SharedLruCache) : Result (option V * SharedLruCache) :=
  on_shard c k (lru_put k v).
Definition shared_remove (k : K) (c : SharedLruCache) : Result (option V * SharedLruCache) :=
  on_shard c k (lru_remove k).
Definition shared_get_or_insert (k : K) (fn_once : K -> Result V) (c : SharedLruCache)
  : Result (V * SharedLruCache) := on_shard c k (get_or_insert k fn_once).
Definition shared_is_empty (c : SharedLruCache) : bool := forallb lru_is_empty c.
End Shared.
Arguments Node K V : clear implicits.
Arguments LruCache K V : clear implicits.

(** ** The list of nodes *)

Section Representation.
Context {F : Foreign} {K : Type} `{Countable K} {V : Type}.
Implicit Types (h : gmap ptr (Node K V)) (s : LruCache K V).

(** An entry of the list: address, key and value. *)
Record entry := mk_entry { eptr : ptr; ekey : K; evalue : V }.
Definition ptrs (l : list entry) : list ptr := map eptr l.
Definition keys (l : list entry) : list K := map ekey l.

Definition first (l : list entry) (nx : option ptr) : option ptr :=
  match l with [] => nx | e :: _ => Some (eptr e) end.
Fixpoint final (l : list entry) (pr : option ptr) : option ptr :=
  match l with [] => pr | e :: l' => final l' (Some (eptr e)) end.

(** A doubly linked segment between [pr] and [nx]. *)
Fixpoint dseg h (pr : option ptr) (l : list entry) (nx : option ptr) : Prop :=
  match l with
  | [] => True
  | e :: l' =>
      h !! eptr e = Some (mk_node (ekey e) (evalue e) pr (first l' nx))
      /\ dseg h (Some (eptr e)) l' nx
  end.

Lemma first_app l1 l2 nx : first (l1 ++ l2) nx = first l1 (first l2 nx).
Proof. now destruct l1. Qed.

Lemma final_app l1 l2 pr : final (l1 ++ l2) pr = final l2 (final l1 pr).
Proof. revert pr; induction l1 as [|e l1 IH]; intros pr; cbn; auto. Qed.

Lemma dseg_app h pr l1 l2 nx :
  dseg h pr (l1 ++ l2) nx <-> dseg h pr l1 (first l2 nx) /\ dseg h (final l1 pr) l2 nx.
Proof.
  revert pr; induction l1 as [|e l1 IH]; intros pr; cbn [app dseg final]; [tauto |].
  rewrite IH, first_app. tauto.
Qed.

Lemma dseg_frame h p n pr l nx : p ∉ ptrs l -> dseg (<[p := n]> h) pr l nx <-> dseg h pr l nx.
Proof.
  revert pr; induction l as [|e l IH]; intros pr Hp; cbn [dseg ptrs map] in *; [tauto |].
  apply not_elem_of_cons in Hp as [Hne Hp]. rewrite lookup_insert_ne by congruence.
  now rewrite IH.
Qed.

Lemma dseg_delete h p pr l nx : p ∉ ptrs l -> dseg (delete p h) pr l nx <-> dseg h pr l nx.
Proof.
  revert pr; induction l as [|e l IH]; intros pr Hp; cbn [dseg ptrs map] in *; [tauto |].
  apply not_elem_of_cons in Hp as [Hne Hp]. rewrite lookup_delete_ne by congruence.
  now rewrite IH.
Qed.

Lemma dseg_lookup h pr l nx p : dseg h pr l nx -> p ∈ ptrs l -> is_Some (h !! p).
Proof.
  revert pr; induction l as [|e l IH]; intros pr Hd Hp; cbn in *; [now apply elem_of_nil in Hp |].
  destruct Hd as [He Hd]. apply elem_of_cons in Hp as [-> | Hp]; eauto.
Qed.

(** The list a cache's pointers represent. *)
Record list_ok s (l : list entry) : Prop := mk_list_ok {
  lo_nodup : NoDup (ptrs l);
  lo_dseg : dseg (heap s) None l None;
  lo_head : head s = first l None;
  lo_tail : tail s = final l None
}.

(** Parts of the state the list operations do not touch. *)
Definition same_maps s s' : Prop :=
  inner s' = inner s /\ cap s' = cap s /\ fresh s' = fresh s.

Lemma final_nonempty l pr pr' : l <> [] -> final l pr = final l pr'.
Proof. destruct l; [congruence | reflexivity]. Qed.

(** Redirect the [next] of the last node of a segment. *)
Lemma dseg_set_next h pr l e nx nx' :
  dseg h pr (l ++ [e]) nx -> NoDup (ptrs (l ++ [e])) ->
  exists n, h !! eptr e = Some n
    /\ dseg (<[eptr e := mk_node (key n) (value n) (prev n) nx']> h) pr (l ++ [e]) nx'.
Proof.
  intros Hd Hn. apply dseg_app in Hd as [Hl He]. cbn [dseg first] in *.
  destruct He as [He _]. eexists. split; [exact He |].
  apply dseg_app. cbn [dseg first key value prev]. rewrite lookup_insert_eq.
  split; [| auto]. apply dseg_frame; [| exact Hl].
  unfold ptrs in Hn. rewrite map_app in Hn. apply NoDup_app in Hn as (_ & Hd & _).
  intros Hin. apply (Hd _ Hin). apply list_elem_of_here.
Qed.

(** Redirect the [prev] of the first node of a segment. *)
Lemma dseg_set_prev h pr pr' l e nx :
  dseg h pr (e :: l) nx -> NoDup (ptrs (e :: l)) ->
  exists n, h !! eptr e = Some n
    /\ dseg (<[eptr e := mk_node (key n) (value n) pr' (next n)]> h) pr' (e :: l) nx.
Proof.
  intros [He Hd] Hn. cbn [ptrs map] in Hn. apply NoDup_cons in Hn as [Hni Hn].
  eexists. split; [exact He |]. cbn [dseg key value next]. rewrite lookup_insert_eq.
  split; [reflexivity |]. now apply dseg_frame.
Qed.

Lemma dseg_ext h h' pr l nx :
  (forall q, q ∈ ptrs l -> h' !! q = h !! q) -> dseg h pr l nx -> dseg h' pr l nx.
Proof.
  revert pr; induction l as [|e l IH]; intros pr Hq Hd; cbn [dseg ptrs map] in *; [exact I |].
  destruct Hd as [He Hd]. rewrite Hq by apply list_elem_of_here. split; [exact He |].
  apply IH; [| exact Hd]. intros q Hin. apply Hq. now apply list_elem_of_further.
Qed.

Lemma unlink_prev s l1 nx nx' :
  dseg (heap s) None l1 nx -> NoDup (ptrs l1) ->
  exists s1,
    match final l1 None with Some p => set_next p nx' s | None => Ok (set_head s nx') end = Ok s1
    /\ dseg (heap s1) None l1 nx' /\ (forall q, q ∉ ptrs l1 -> heap s1 !! q = heap s !! q)
    /\ head s1 = match l1 with [] => nx' | _ => head s end
    /\ tail s1 = tail s /\ same_maps s s1.
Proof.
  intros Hd Hn. destruct l1 as [|e l1 _] using rev_ind; cbn [final].
  { eexists. repeat split. }
  rewrite final_app. cbn [final].
  destruct (dseg_set_next _ _ _ _ _ nx' Hd Hn) as (n & He & Hd').
  unfold set_next, deref. rewrite He. cbn [unwrap result_bind]. eexists. split; [reflexivity |].
  split; [exact Hd' |]. split; [| split; [now destruct l1 | repeat split]].
  intros q Hq. cbn [heap set_heap]. rewrite lookup_insert_ne; [reflexivity |].
  intros <-. apply Hq. unfold ptrs. rewrite map_app. apply elem_of_app. right. apply list_elem_of_here.
Qed.

Lemma unlink_next s l2 pr pr' :
  dseg (heap s) pr l2 None -> NoDup (ptrs l2) ->
  exists s2,
    match first l2 None with Some p => set_prev p pr' s | None => Ok (set_tail s pr') end = Ok s2
    /\ dseg (heap s2) pr' l2 None /\ (forall q, q ∉ ptrs l2 -> heap s2 !! q = heap s !! q)
    /\ tail s2 = match l2 with [] => pr' | _ => tail s end
    /\ head s2 = head s /\ same_maps s s2.
Proof.
  intros Hd Hn. destruct l2 as [|e l2]; cbn [first].
  { eexists. repeat split. }
  destruct (dseg_set_prev _ _ pr' _ _ _ Hd Hn) as (n & He & Hd').
  unfold set_prev, deref. rewrite He. cbn [unwrap result_bind]. eexists. split; [reflexivity |].
  split; [exact Hd' |]. split; [| repeat split].
  intros q Hq. cbn [heap set_heap]. rewrite lookup_insert_ne; [reflexivity |].
  intros <-. apply Hq. apply list_elem_of_here.
Qed.

Lemma ptrs_app l1 l2 : ptrs (l1 ++ l2) = ptrs l1 ++ ptrs l2.
Proof. apply map_app. Qed.

Lemma nodup_split l1 e l2 :
  NoDup (ptrs (l1 ++ e :: l2)) ->
  NoDup (ptrs l1) /\ NoDup (ptrs l2) /\ (eptr e ∉ ptrs l1) /\ (eptr e ∉ ptrs l2)
  /\ (forall q, q ∈ ptrs l1 -> q ∉ ptrs l2) /\ NoDup (ptrs (l1 ++ l2)).
Proof.
  rewrite !ptrs_app. cbn [ptrs map]. fold (ptrs l2).
  rewrite !NoDup_app, NoDup_cons. intros (H1 & H12 & He & H2).
  repeat split; try assumption.
  - intros Hin. apply (H12 _ Hin). apply list_elem_of_here.
  - intros q Hq Hq'. apply (H12 q Hq). now apply list_elem_of_further.
  - intros q Hq Hq'. apply (H12 q Hq). now apply list_elem_of_further.
Qed.

(** Writing both links of a node that is outside the list. *)
Lemma isolate s p n :
  heap s !! p = Some n ->
  exists s', result_bind (set_prev p None s) (set_next p None) = Ok s'
    /\ heap s' !! p = Some (mk_node (key n) (value n) None None)
    /\ (forall q, q <> p -> heap s' !! q = heap s !! q)
    /\ head s' = head s /\ tail s' = tail s /\ same_maps s s'.
Proof.
  intros Hp. unfold set_prev, set_next, deref. rewrite Hp. cbn [unwrap result_bind heap set_heap].
  rewrite lookup_insert_eq. cbn [unwrap result_bind]. eexists. split; [reflexivity |].
  cbn [heap set_heap key value prev next head tail]. rewrite lookup_insert_eq.
  repeat split. intros q Hq. now rewrite !lookup_insert_ne by congruence.
Qed.

(** [detach] takes one node out of the list and clears its links. *)
Lemma detach_spec s l1 e l2 :
  list_ok s (l1 ++ e :: l2) ->
  exists s', detach (eptr e) s = Ok s' /\ list_ok s' (l1 ++ l2)
    /\ heap s' !! eptr e = Some (mk_node (ekey e) (evalue e) None None)
    /\ (forall q, q ∉ ptrs (l1 ++ e :: l2) -> heap s' !! q = heap s !! q)
    /\ same_maps s s'.
Proof.
  intros [Hn Hd Hh Ht]. apply nodup_split in Hn as (Hn1 & Hn2 & He1 & He2 & H12 & Hn).
  apply dseg_app in Hd as [Hd1 [He Hd2]].
  destruct (unlink_prev s l1 _ (first l2 None) Hd1 Hn1) as (s1 & E1 & D1 & F1 & Hh1 & Ht1 & S1).
  assert (Hd2' : dseg (heap s1) (Some (eptr e)) l2 None).
  { eapply dseg_ext; [| exact Hd2]. intros q Hq. apply F1. intros Hq'. now apply (H12 q). }
  destruct (unlink_next s1 l2 _ (final l1 None) Hd2' Hn2) as (s2 & E2 & D2 & F2 & Ht2 & Hh2 & S2).
  assert (He' : heap s2 !! eptr e
                = Some (mk_node (ekey e) (evalue e) (final l1 None) (first l2 None)))
    by (rewrite F2, F1 by assumption; exact He).
  destruct (isolate s2 (eptr e) _ He') as (s3 & E3 & N3 & F3 & Hh3 & Ht3 & S3).
  exists s3. split.
  { unfold detach, deref at 1. rewrite He. cbn [unwrap result_bind prev next]. rewrite E1.
    cbn [result_bind]. unfold deref at 1. rewrite F1, He by assumption.
    cbn [unwrap result_bind prev next]. rewrite E2. exact E3. }
  split; [| split; [exact N3 | split]].
  - constructor.
    + exact Hn.
    + apply dseg_app. split.
      * eapply dseg_ext; [| exact D1]. intros q Hq. rewrite F3, F2; [reflexivity | |].
        -- intros Hq'. now apply (H12 q).
        -- intros ->. contradiction.
      * eapply dseg_ext; [| exact D2]. intros q Hq. apply F3. intros ->. contradiction.
    + rewrite Hh3, Hh2, Hh1, first_app. now destruct l1.
    + rewrite Ht3, Ht2, Ht1, Ht, !final_app. now destruct l2.
  - intros q Hq. rewrite ptrs_app in Hq. apply not_elem_of_app in Hq as [Hq1 Hq].
    apply not_elem_of_cons in Hq as [Hqe Hq2]. now rewrite F3, F2, F1.
  - unfold same_maps in *. intuition congruence.
Qed.

(** [attach] puts an isolated node in front. *)
Lemma attach_spec s l e :
  list_ok s l -> eptr e ∉ ptrs l ->
  (exists pr nx, heap s !! eptr e = Some (mk_node (ekey e) (evalue e) pr nx)) ->
  exists s', attach (eptr e) s = Ok s' /\ list_ok s' (e :: l)
    /\ (forall q, q ∉ ptrs (e :: l) -> heap s' !! q = heap s !! q) /\ same_maps s s'.
Proof.
  intros [Hn Hd Hh Ht] He (pr & nx & Hp). unfold attach. rewrite Hh.
  destruct l as [|e' l]; cbn [first].
  - unfold set_prev, set_next, deref. rewrite Hp. cbn [unwrap result_bind heap set_heap].
    rewrite lookup_insert_eq. cbn [unwrap result_bind]. eexists. split; [reflexivity |].
    split; [| split; [| repeat split]].
    + constructor; cbn [heap set_heap set_head set_tail head tail ptrs map dseg first final].
      * apply NoDup_singleton.
      * now rewrite lookup_insert_eq.
      * reflexivity.
      * reflexivity.
    + intros q Hq. cbn in *. apply not_elem_of_cons in Hq as [Hq _].
      now rewrite !lookup_insert_ne by congruence.
  - destruct (dseg_set_prev _ _ (Some (eptr e)) _ _ _ Hd Hn) as (n & He' & Hd').
    assert (Hne : eptr e' <> eptr e) by (intros Heq; apply He; rewrite <- Heq; apply list_elem_of_here).
    unfold set_prev at 1, deref at 1. rewrite He'. cbn [unwrap result_bind].
    unfold set_next, set_prev, deref. cbn [heap set_heap].
    rewrite lookup_insert_ne, Hp by assumption. cbn [unwrap result_bind heap set_heap].
    rewrite lookup_insert_eq. cbn [unwrap result_bind]. eexists. split; [reflexivity |].
    split; [| split; [| repeat split]].
    + constructor; cbn [heap set_heap set_head set_tail head tail].
      * cbn [ptrs map]. apply NoDup_cons. auto.
      * split; [now rewrite lookup_insert_eq |].
        apply dseg_frame; [assumption |]. apply dseg_frame; assumption.
      * reflexivity.
      * exact Ht.
    + intros q Hq. cbn [heap set_heap set_head]. cbn [ptrs map] in Hq.
      apply not_elem_of_cons in Hq as [Hq1 Hq]. apply not_elem_of_cons in Hq as [Hq2 Hq].
      now rewrite !lookup_insert_ne by congruence.
Qed.

(** ** The hash map of keys *)

Definition refs (l : list entry) : list (ptr * ptr) := map (fun e => (eptr e, eptr e)) l.
Definition tagged (l : list entry) : list (K * (ptr * ptr)) := map (fun e => (ekey e, (eptr e, eptr e))) l.

(** The nodes of the entries are there and hold their keys. *)
Definition readable h (l : list entry) : Prop :=
  forall e, e ∈ l -> exists n, h !! eptr e = Some n /\ key n = ekey e.

Lemma dseg_readable h pr l nx : dseg h pr l nx -> readable h l.
Proof.
  revert pr. induction l as [|e l IH]; intros pr Hd e' He'; [now apply elem_of_nil in He' |].
  destruct Hd as [He Hd]. apply elem_of_cons in He' as [-> | He']; [eauto | exact (IH _ Hd e' He')].
Qed.

Lemma keys_split l1 e l2 :
  NoDup (keys (l1 ++ e :: l2)) -> (ekey e ∉ keys (l1 ++ l2)) /\ NoDup (keys (l1 ++ l2)).
Proof.
  intros Hn. assert (Hperm : keys (l1 ++ e :: l2) ≡ₚ ekey e :: keys (l1 ++ l2)).
  { unfold keys. rewrite !map_app. cbn [map]. symmetry. apply Permutation_middle. }
  rewrite Hperm in Hn. now apply NoDup_cons in Hn.
Qed.

Lemma keys_perm l l' : l ≡ₚ l' -> keys l ≡ₚ keys l'.
Proof. unfold keys. now intros ->. Qed.

(** Reading the whole map. *)
Lemma entries_run s l : inner s ≡ₚ refs l -> readable (heap s) l ->
  exists l', l' ≡ₚ l /\ inner s = refs l' /\ entries s = Ok (tagged l').
Proof.
  intros (l' & Hi & Hl')%Permutation_map_inv Hr. exists l'. split; [now symmetry |]. split; [exact Hi |].
  assert (Hr' : readable (heap s) l') by (intros e He; apply Hr; now rewrite Hl').
  unfold entries. rewrite Hi. clear Hi Hl' Hr. induction l' as [|e l' IH]; [reflexivity |]. cbn [refs map try_map fst].
  destruct (Hr' e (list_elem_of_here _ _)) as (n & Hn & Hk). unfold ref_key at 1, deref at 1. rewrite Hn.
  cbn [unwrap result_bind]. rewrite Hk.
  rewrite IH by (intros x Hx; apply Hr'; now apply list_elem_of_further). reflexivity.
Qed.

Lemma tagged_absent l k : k ∉ keys l ->
  filter (fun e => e.1 = k) (tagged l) = [] /\ map snd (filter (fun e => e.1 <> k) (tagged l)) = refs l.
Proof.
  unfold tagged. induction l as [|e l IH]; intros Hk; [now split |]. cbn [keys map] in Hk.
  apply not_elem_of_cons in Hk as [Hne Hk]. destruct (IH Hk) as [H1 H2]. cbn [map].
  rewrite filter_cons_False, filter_cons_True by (cbn; congruence). cbn [map snd]. rewrite H2. now split.
Qed.

Lemma tagged_split l1 e l2 : NoDup (keys (l1 ++ e :: l2)) ->
  filter (fun x => x.1 = ekey e) (tagged (l1 ++ e :: l2)) = [(ekey e, (eptr e, eptr e))]
  /\ map snd (filter (fun x => x.1 <> ekey e) (tagged (l1 ++ e :: l2))) = refs (l1 ++ l2).
Proof.
  intros [Hni _]%keys_split. unfold keys in Hni. rewrite map_app in Hni. apply not_elem_of_app in Hni as [H1 H2].
  destruct (tagged_absent l1 _ H1) as [A1 B1], (tagged_absent l2 _ H2) as [A2 B2].
  unfold tagged, refs in *. rewrite !map_app. cbn [map]. rewrite !filter_app, map_app, A1, B1.
  rewrite filter_cons_True by reflexivity. rewrite A2, filter_cons_False by (cbn; tauto). now rewrite B2.
Qed.

(** The map has the keys of the entries and no other. *)
Lemma inner_present s l1 e l2 : inner s ≡ₚ refs (l1 ++ e :: l2) -> readable (heap s) (l1 ++ e :: l2) ->
  NoDup (keys (l1 ++ e :: l2)) ->
  inner_get (ekey e) s = Ok (Some (eptr e))
  /\ exists m, inner_remove (ekey e) s = Ok (Some (eptr e), set_inner s m) /\ m ≡ₚ refs (l1 ++ l2).
Proof.
  intros Hi Hr Hn. destruct (entries_run s _ Hi Hr) as (l' & Hp & _ & E).
  assert (He : e ∈ l') by (rewrite Hp, elem_of_app, elem_of_cons; auto).
  apply list_elem_of_split in He as (a & b & ->). rewrite <- (keys_perm _ _ Hp) in Hn.
  destruct (tagged_split a e b Hn) as [H1 H2]. unfold inner_get, inner_remove, node_of. rewrite E. cbn [result_bind].
  rewrite H1, H2. split; [reflexivity |]. eexists. split; [reflexivity |].
  unfold refs. apply Permutation_map, (Permutation_app_inv a b l1 l2 e Hp).
Qed.

Lemma inner_absent s l k : inner s ≡ₚ refs l -> readable (heap s) l -> k ∉ keys l ->
  inner_get k s = Ok None /\ (exists m, inner_remove k s = Ok (None, set_inner s m) /\ m ≡ₚ refs l)
  /\ forall p n, heap s !! p = Some n -> key n = k -> inner_insert p p s = Ok (set_inner s (inner s ++ [(p, p)])).
Proof.
  intros Hi Hr Hk. destruct (entries_run s _ Hi Hr) as (l' & Hp & _ & E). rewrite <- (keys_perm _ _ Hp) in Hk.
  destruct (tagged_absent l' k Hk) as [H1 H2]. unfold inner_get, inner_remove, inner_insert, node_of. rewrite E.
  cbn [result_bind]. rewrite H1, H2. split; [reflexivity |]. split.
  - eexists. split; [reflexivity |]. unfold refs. now rewrite Hp.
  - intros p n Hn <-. unfold ref_key, deref. rewrite Hn. cbn [unwrap result_bind]. now rewrite H1.
Qed.

Lemma refs_length s l : inner s ≡ₚ refs l -> length (inner s) = length l.
Proof. intros ->. unfold refs. apply length_map. Qed.

(** ** The abstract cache: keys and values, most recently used first *)

Definition spec_remove (k : K) (m : list (K * V)) : list (K * V) := filter (fun kv => kv.1 <> k) m.
Definition spec_lookup (k : K) (m : list (K * V)) : option V := (list_to_map m : gmap K V) !! k.
Definition spec_evict (c : nat) (m : list (K * V)) : list (K * V) :=
  if (c <=? length m)%nat then removelast m else m.
Definition spec_put (c : nat) (k : K) (v : V) (m : list (K * V)) : list (K * V) :=
  (k, v) :: spec_evict c (spec_remove k m).
Definition spec_get (k : K) (m : list (K * V)) : list (K * V) :=
  match spec_lookup k m with
  | Some v => (k, v) :: spec_remove k m
  | None => m
  end.

Definition abs (l : list entry) : list (K * V) := map (fun e => (ekey e, evalue e)) l.

Lemma abs_keys l : (abs l).*1 = keys l.
Proof. unfold abs. induction l as [|e l IH]; [reflexivity |]. cbn [map]. rewrite fmap_cons, IH. reflexivity. Qed.

Lemma spec_remove_absent k l : k ∉ keys l -> spec_remove k (abs l) = abs l.
Proof.
  unfold spec_remove, abs. induction l as [|e l IH]; intros Hk; [reflexivity |].
  cbn [keys map] in *. apply not_elem_of_cons in Hk as [Hne Hk].
  rewrite filter_cons_True by (cbn; congruence). f_equal. now apply IH.
Qed.

Lemma spec_remove_split l1 e l2 :
  NoDup (keys (l1 ++ e :: l2)) -> spec_remove (ekey e) (abs (l1 ++ e :: l2)) = abs (l1 ++ l2).
Proof.
  intros Hn. apply keys_split in Hn as [Hni _].
  pose proof (spec_remove_absent _ _ Hni) as Hr. unfold abs, spec_remove in *.
  rewrite !map_app in *. rewrite filter_app in *. cbn [map].
  rewrite filter_cons_False by (cbn; tauto). exact Hr.
Qed.

Lemma spec_lookup_split l1 e l2 :
  NoDup (keys (l1 ++ e :: l2)) -> spec_lookup (ekey e) (abs (l1 ++ e :: l2)) = Some (evalue e).
Proof.
  intros Hn. apply elem_of_list_to_map; [now rewrite abs_keys |].
  unfold abs. rewrite map_app. apply elem_of_app. right. apply list_elem_of_here.
Qed.

Lemma spec_lookup_none l k : k ∉ keys l -> spec_lookup k (abs l) = None.
Proof. intros Hk. apply not_elem_of_list_to_map_1. now rewrite abs_keys. Qed.

(** ** The invariant *)

Record map_ok s (l : list entry) : Prop := mk_map_ok {
  mo_list : list_ok s l;
  mo_inner : inner s ≡ₚ refs l;
  mo_keys : NoDup (keys l)
}.

Record lru_ok s (l : list entry) : Prop := mk_lru_ok {
  lk_map : map_ok s l;
  lk_fresh : forall p, is_Some (heap s !! p) -> (p < fresh s)%nat;
  lk_cap : (1 <= cap s)%nat;
  lk_len : (length l <= cap s)%nat
}.

(** Evict the last entry when the cache is full. *)
Definition evict (c : nat) (l : list entry) : list entry :=
  if (c <=? length l)%nat then removelast l else l.

Lemma map_removelast {A B} (f : A -> B) l : map f (removelast l) = removelast (map f l).
Proof.
  induction l as [|x [|y l] IH]; [reflexivity | reflexivity |].
  change (f x :: map f (removelast (y :: l)) = f x :: removelast (map f (y :: l))). now rewrite IH.
Qed.

Lemma abs_evict c l : abs (evict c l) = spec_evict c (abs l).
Proof.
  unfold evict, spec_evict, abs. rewrite length_map.
  destruct (_ <=? _)%nat; [apply map_removelast | reflexivity].
Qed.

Lemma evict_sub c l e : e ∈ evict c l -> e ∈ l.
Proof.
  unfold evict. destruct (_ <=? _)%nat; [| auto].
  destruct l as [|x l _] using rev_ind; [auto |]. rewrite removelast_last, elem_of_app. auto.
Qed.

Lemma evict_ptrs c l q : q ∈ ptrs (evict c l) -> q ∈ ptrs l.
Proof.
  unfold ptrs. rewrite !list_elem_of_fmap. intros (e & -> & He). eauto using evict_sub.
Qed.

Lemma evict_keys c l k : k ∈ keys (evict c l) -> k ∈ keys l.
Proof.
  unfold keys. rewrite !list_elem_of_fmap. intros (e & -> & He). eauto using evict_sub.
Qed.

Lemma list_ok_inner s l m : list_ok s l -> list_ok (set_inner s m) l.
Proof. intros [? ? ? ?]. now constructor. Qed.

Lemma map_readable s l : map_ok s l -> readable (heap s) l.
Proof. intros [[_ Hd _ _] _ _]. eapply dseg_readable, Hd. Qed.

(** Nodes whose heap changed only in their links are still readable. *)
Lemma readable_middle h l1 e l2 n : readable h (l1 ++ l2) -> h !! eptr e = Some n -> key n = ekey e ->
  readable h (l1 ++ e :: l2).
Proof.
  intros Hr Hn Hk x [Hx | [-> | Hx]%elem_of_cons]%elem_of_app; [| now exists n |]; apply Hr, elem_of_app; auto.
Qed.

Lemma expulsion_spec s l :
  map_ok s l ->
  exists s', expulsion s = Ok s' /\ map_ok s' (evict (cap s) l)
    /\ (forall q, q ∉ ptrs l -> heap s' !! q = heap s !! q)
    /\ cap s' = cap s /\ fresh s' = fresh s.
Proof.
  intros [Hl Hi Hk]. unfold expulsion, evict. rewrite (lo_tail _ _ Hl), (refs_length s l Hi).
  destruct l as [|e l _] using rev_ind.
  { exists s. cbn [final removelast length]. split; [reflexivity |].
    split; [destruct (cap s <=? 0)%nat; now constructor | auto]. }
  rewrite final_app. cbn [final]. destruct (_ <=? _)%nat; [| exists s; split; [reflexivity |]; split; [now constructor | auto]].
  destruct (detach_spec s l e [] Hl) as (s' & -> & Hl' & He & Hf & Hmi & Hmc & Hmf).
  cbn [result_bind]. unfold ref_key, deref. rewrite He. cbn [unwrap result_bind key].
  rewrite removelast_last. rewrite <- Hmi in Hi.
  assert (Hr : readable (heap s') (l ++ [e])).
  { eapply readable_middle; [eapply dseg_readable, (lo_dseg _ _ Hl') | exact He | reflexivity]. }
  destruct (inner_present s' l e [] Hi Hr Hk) as (_ & m & -> & Hm). cbn [result_bind].
  rewrite app_nil_r in Hl', Hm. eexists. split; [reflexivity |].
  apply keys_split in Hk as [_ Hk]. rewrite app_nil_r in Hk. split; [| repeat split; assumption].
  constructor; [now apply list_ok_inner | exact Hm | exact Hk].
Qed.

(** Eviction followed by the insertion of a new front node. *)
Lemma insert_front s l p k v :
  map_ok s l -> k ∉ keys l -> p ∉ ptrs l ->
  heap s !! p = Some (mk_node k v None None) ->
  exists s1 s2 s', expulsion s = Ok s1 /\ attach p s1 = Ok s2 /\ inner_insert p p s2 = Ok s'
    /\ map_ok s' (mk_entry p k v :: evict (cap s) l)
    /\ (forall q, q ∉ ptrs l -> q <> p -> heap s' !! q = heap s !! q)
    /\ cap s' = cap s /\ fresh s' = fresh s.
Proof.
  intros Hm Hk Hp Hh. destruct (expulsion_spec s l Hm) as (s1 & E1 & [Hl1 Hi1 Hk1] & F1 & C1 & Fr1).
  assert (Hp1 : p ∉ ptrs (evict (cap s) l)) by (intros Hin; now apply evict_ptrs in Hin).
  destruct (attach_spec s1 _ (mk_entry p k v) Hl1 Hp1) as (s2 & E2 & Hl2 & F2 & Hi2 & C2 & Fr2).
  { exists None, None. cbn [eptr ekey evalue]. now rewrite F1. }
  assert (Hke : k ∉ keys (evict (cap s) l)) by (intros Hin; now apply evict_keys in Hin).
  pose proof (dseg_readable _ _ _ _ (lo_dseg _ _ Hl2)) as Hr.
  destruct (Hr (mk_entry p k v) (list_elem_of_here _ _)) as (n & Hn & Hkn). cbn [eptr ekey] in Hn, Hkn.
  rewrite <- Hi2 in Hi1.
  destruct (inner_absent s2 _ k Hi1 (fun e He => Hr e (list_elem_of_further _ _ _ He)) Hke) as (_ & _ & Hins).
  do 3 eexists. split; [exact E1 |]. split; [exact E2 |]. split; [exact (Hins p n Hn Hkn) |].
  split; [| split; [| cbn [cap fresh set_inner]; split; congruence]].
  - constructor; [now apply list_ok_inner | |].
    + cbn [inner set_inner refs map eptr]. rewrite Hi1. symmetry. apply Permutation_cons_append.
    + cbn [keys map ekey]. now apply NoDup_cons.
  - intros q Hq Hne. cbn [heap set_inner]. rewrite F2; [now apply F1 |]. cbn [ptrs map eptr].
    apply not_elem_of_cons. split; [congruence |]. intros Hin. now apply evict_ptrs in Hin.
Qed.

(** ** Each operation implements the abstract one *)

Lemma ptr_live s l p : lru_ok s l -> p ∈ ptrs l -> (p < fresh s)%nat.
Proof. intros [[[_ Hd _ _] _ _] Hf _ _] Hp. apply Hf. eapply dseg_lookup; eassumption. Qed.

Lemma alloc_spec s l k v :
  lru_ok s l ->
  map_ok (alloc k v s).2 l /\ (fresh s ∉ ptrs l)
  /\ heap (alloc k v s).2 !! fresh s = Some (mk_node k v None None).
Proof.
  intros Hok. assert (Hp : fresh s ∉ ptrs l).
  { intros Hin. pose proof (ptr_live _ _ _ Hok Hin). lia. }
  destruct Hok as [[[Hn Hd Hh Ht] Hi Hk] _ _ _]. cbn [alloc snd heap].
  rewrite lookup_insert_eq. split; [| auto]. constructor; [constructor | |]; auto.
  cbn [heap]. now apply dseg_frame.
Qed.

(** Put the invariant together from the list and the heap's extent. *)
Lemma lru_ok_intro s s' l l' :
  lru_ok s l -> map_ok s' l' -> cap s' = cap s -> (fresh s <= fresh s')%nat ->
  (length l' <= cap s)%nat ->
  (forall q, (fresh s' <= q)%nat -> heap s' !! q = None) -> lru_ok s' l'.
Proof.
  intros [_ _ Hc _] Hm' Hc' Hf' Hlen Hnone. constructor; [assumption | | lia | lia].
  intros p [n Hp]. destruct (Nat.lt_ge_cases p (fresh s')) as [? | Hge]; [assumption |].
  rewrite Hnone in Hp by assumption. discriminate.
Qed.

Lemma fresh_none s l q : lru_ok s l -> (fresh s <= q)%nat -> heap s !! q = None.
Proof.
  intros [_ Hf _ _] Hq. destruct (heap s !! q) eqn:E; [| reflexivity].
  assert (q < fresh s)%nat by (apply Hf; rewrite E; eauto). lia.
Qed.

Lemma evict_length c l : (1 <= c)%nat -> (length l <= c)%nat -> (length (evict c l) < c)%nat.
Proof.
  intros Hc Hl. unfold evict. destruct (_ <=? _)%nat eqn:E; [| apply Nat.leb_gt in E; lia].
  destruct l as [|e l _] using rev_ind; [cbn; lia |]. rewrite removelast_last.
  rewrite length_app in Hl. cbn in Hl. lia.
Qed.

Lemma put_absent s l k v :
  lru_ok s l -> k ∉ keys l ->
  exists m s1 s2 s', inner_remove k (alloc k v s).2 = Ok (None, set_inner (alloc k v s).2 m)
    /\ expulsion (set_inner (alloc k v s).2 m) = Ok s1 /\ attach (fresh s) s1 = Ok s2
    /\ inner_insert (fresh s) (fresh s) s2 = Ok s'
    /\ lru_ok s' (mk_entry (fresh s) k v :: evict (cap s) l) /\ cap s' = cap s.
Proof.
  intros Hok Hk. destruct (alloc_spec s l k v Hok) as (Hm & Hp & Hh).
  destruct (inner_absent _ l k (mo_inner _ _ Hm) (map_readable _ _ Hm) Hk) as (_ & (m & Em & Hmi) & _).
  assert (Hm' : map_ok (set_inner (alloc k v s).2 m) l).
  { destruct Hm as [Hl _ Hk']. constructor; [now apply list_ok_inner | exact Hmi | exact Hk']. }
  destruct (insert_front _ l (fresh s) k v Hm' Hk Hp Hh) as (s1 & s2 & s' & E1 & E2 & E3 & Hm2 & F' & C' & Fr').
  exists m, s1, s2, s'. repeat (split; [assumption |]).
  cbn [alloc snd cap fresh set_inner] in *. split; [| exact C']. pose proof Hok as [_ _ Hc Hlen].
  apply (lru_ok_intro s _ l); try assumption.
  - lia.
  - cbn [length]. pose proof (evict_length _ _ Hc Hlen). lia.
  - intros q Hq. cbn [heap set_inner fresh] in *. rewrite F'.
    + cbn [heap]. rewrite lookup_insert_ne by lia.
      eapply fresh_none; [exact Hok | lia].
    + intros Hin. pose proof (ptr_live _ _ _ Hok Hin). lia.
    + lia.
Qed.

(** A key the map knows is the key of one entry of the list. *)
Lemma lookup_cases s l k :
  map_ok s l ->
  (exists l1 e l2, l = l1 ++ e :: l2 /\ ekey e = k /\ inner_get k s = Ok (Some (eptr e)))
  \/ ((k ∉ keys l) /\ inner_get k s = Ok None).
Proof.
  intros Hm. pose proof (map_readable _ _ Hm) as Hr. destruct Hm as [_ Hi Hk].
  destruct (decide (k ∈ keys l)) as [(e & -> & He)%list_elem_of_fmap | Hn].
  - left. apply list_elem_of_split in He as (l1 & l2 & ->). exists l1, e, l2.
    split; [reflexivity |]. split; [reflexivity |]. now apply (inner_present s l1 e l2).
  - right. split; [exact Hn |]. now apply (inner_absent s l k).
Qed.

(** Forgetting the key of an entry and detaching the node. *)
Lemma detach_key s l1 e l2 :
  map_ok s (l1 ++ e :: l2) ->
  exists m s', inner_remove (ekey e) s = Ok (Some (eptr e), set_inner s m)
    /\ detach (eptr e) (set_inner s m) = Ok s' /\ map_ok s' (l1 ++ l2)
    /\ heap s' !! eptr e = Some (mk_node (ekey e) (evalue e) None None)
    /\ (forall q, q ∉ ptrs (l1 ++ e :: l2) -> heap s' !! q = heap s !! q)
    /\ cap s' = cap s /\ fresh s' = fresh s.
Proof.
  intros Hmap. pose proof (map_readable _ _ Hmap) as Hr. destruct Hmap as [Hlist Hi Hk].
  destruct (inner_present s l1 e l2 Hi Hr Hk) as (_ & m & Em & Hm).
  destruct (detach_spec (set_inner s m) l1 e l2) as (s' & E & Hl & He & Hf & Hmi & Hmc & Hmf);
    [now apply list_ok_inner |].
  exists m, s'. split; [exact Em |]. split; [exact E |]. apply keys_split in Hk as [_ Hk].
  split; [| auto]. constructor; [exact Hl | | exact Hk]. rewrite Hmi. exact Hm.
Qed.

(** Freeing a node outside the list. *)
Lemma free_spec s l p n :
  map_ok s l -> p ∉ ptrs l -> heap s !! p = Some n ->
  exists s', free p s = Ok (value n, s') /\ map_ok s' l
    /\ (forall q, heap s' !! q = if decide (q = p) then None else heap s !! q)
    /\ cap s' = cap s /\ fresh s' = fresh s.
Proof.
  intros [[Hn Hd Hh Ht] Hi Hk] Hp Hh'. unfold free, deref. rewrite Hh'. cbn [unwrap result_bind].
  eexists. split; [reflexivity |]. split; [| split; [| auto]].
  - constructor; [constructor | |]; auto. cbn [heap set_heap]. now apply dseg_delete.
  - intros q. cbn [heap set_heap]. destruct (decide (q = p)) as [-> | Hne];
      [apply lookup_delete_eq | now apply lookup_delete_ne].
Qed.

Lemma ptrs_middle l1 e l2 q : q ∉ ptrs (l1 ++ e :: l2) <-> q <> eptr e /\ (q ∉ ptrs (l1 ++ l2)).
Proof. rewrite !ptrs_app. cbn [ptrs map]. rewrite !not_elem_of_app, not_elem_of_cons. tauto. Qed.

Lemma put_present s l1 e l2 v :
  lru_ok s (l1 ++ e :: l2) ->
  exists s', lru_put (ekey e) v s = Ok (Some (evalue e), s') /\ cap s' = cap s
    /\ lru_ok s' (mk_entry (fresh s) (ekey e) v :: evict (cap s) (l1 ++ l2)).
Proof.
  intros Hok. pose proof Hok as [Hmap Hf Hc Hlen].
  destruct (alloc_spec s _ (ekey e) v Hok) as (Hm1 & Hp & Hh1).
  pose proof (mo_keys _ _ Hmap) as Hkeys. pose proof (keys_split _ _ _ Hkeys) as (Hni & _).
  pose proof (nodup_split _ _ _ (lo_nodup _ _ (mo_list _ _ Hmap))) as (_ & _ & Hn1 & Hn2 & _ & _).
  assert (Hpe : eptr e ∉ ptrs (l1 ++ l2)) by now rewrite ptrs_app, not_elem_of_app.
  apply ptrs_middle in Hp as Hp2. destruct Hp2 as [Hne Hp2].
  destruct (detach_key _ l1 e l2 Hm1) as (m & s2 & Em & E2 & Hm2 & He2 & F2 & C2 & Fr2).
  cbn [alloc snd] in C2, Fr2, Hh1, F2, E2, Em. cbn [cap fresh] in C2, Fr2. cbn [heap] in F2, Hh1.
  destruct (insert_front s2 (l1 ++ l2) (fresh s) (ekey e) v Hm2 Hni Hp2) as
    (s3 & s4 & s4' & E3 & E4 & E4' & Hm4 & F4 & C4 & Fr4); [now rewrite F2 |].
  destruct (free_spec _ _ (eptr e) (mk_node (ekey e) (evalue e) None None) Hm4) as
    (s5 & E5 & Hm5 & F5 & C5 & Fr5).
  { cbn [ptrs map eptr]. apply not_elem_of_cons. split; [congruence |].
    intros Hin. now apply evict_ptrs in Hin. }
  { now rewrite F4. }
  exists s5. split; [| split; [congruence |]].
  - unfold lru_put, alloc. unfold ref_key, deref. cbn [heap]. rewrite Hh1. cbn [unwrap result_bind key].
    rewrite Em. cbn [result_bind]. rewrite E2. cbn [result_bind]. rewrite E3. cbn [result_bind].
    rewrite E4. cbn [result_bind]. rewrite E4'. cbn [result_bind]. now rewrite E5.
  - rewrite C2 in Hm5. apply (lru_ok_intro s _ (l1 ++ e :: l2)); try assumption; try congruence.
    + lia.
    + assert (length (l1 ++ l2) <= cap s)%nat by (rewrite length_app in *; cbn in Hlen; lia).
      pose proof (evict_length (cap s) (l1 ++ l2) Hc). cbn [length]. lia.
    + intros q Hq. rewrite F5. destruct (decide (q = eptr e)); [reflexivity |].
      assert (Hq' : q ∉ ptrs (l1 ++ e :: l2)).
      { intros Hin. pose proof (ptr_live _ _ _ Hok Hin). lia. }
      rewrite F4, F2 by (try assumption; try lia; now apply ptrs_middle in Hq').
      rewrite lookup_insert_ne by lia. eapply fresh_none; [exact Hok | lia].
Qed.

Lemma lru_put_spec s l k v :
  lru_ok s l ->
  exists s' l', lru_put k v s = Ok (spec_lookup k (abs l), s')
    /\ lru_ok s' l' /\ cap s' = cap s /\ abs l' = spec_put (cap s) k v (abs l).
Proof.
  intros Hok. pose proof Hok as [Hmap _ _ _]. pose proof (mo_keys _ _ Hmap) as Hkeys.
  unfold spec_put.
  destruct (lookup_cases s l k Hmap) as [(l1 & e & l2 & -> & <- & _) | [Hk _]].
  - destruct (put_present s l1 e l2 v Hok) as (s' & E & C & Hok'). do 2 eexists.
    rewrite spec_lookup_split, spec_remove_split by assumption.
    split; [exact E |]. split; [exact Hok' |]. split; [exact C |].
    cbn [abs map ekey evalue]. now rewrite <- abs_evict.
  - destruct (put_absent s l k v Hok Hk) as (m & s2 & s3 & s4 & Em & E2 & E3 & E4 & Hok' & C). do 2 eexists.
    rewrite spec_lookup_none, spec_remove_absent by assumption.
    split; [| split; [exact Hok' | split; [exact C |]]].
    + unfold lru_put. destruct (alloc_spec s l k v Hok) as (_ & _ & Hh). unfold alloc in *. cbn [snd] in *.
      unfold ref_key at 1, deref at 1. rewrite Hh. cbn [unwrap result_bind key]. rewrite Em. cbn [result_bind].
      rewrite E2. cbn [result_bind]. rewrite E3. cbn [result_bind]. now rewrite E4.
    + cbn [abs map ekey evalue]. now rewrite <- abs_evict.
Qed.

Lemma keys_to_front l1 e l2 : NoDup (keys (l1 ++ e :: l2)) -> NoDup (keys (e :: l1 ++ l2)).
Proof. intros [Hni Hn]%keys_split. cbn [keys map]. now apply NoDup_cons. Qed.

(** Moving an entry to the front. *)
Lemma touch_spec s l1 e l2 :
  lru_ok s (l1 ++ e :: l2) ->
  exists s1 s', detach (eptr e) s = Ok s1 /\ attach (eptr e) s1 = Ok s'
    /\ lru_ok s' (e :: l1 ++ l2) /\ cap s' = cap s.
Proof.
  intros Hok. pose proof Hok as [[Hl Hi Hk] Hf Hc Hlen].
  destruct (detach_spec s l1 e l2 Hl) as (s1 & E1 & Hl1 & He1 & F1 & Hi1 & C1 & Fr1).
  pose proof (nodup_split _ _ _ (lo_nodup _ _ Hl)) as (_ & _ & Hn1 & Hn2 & _ & _).
  destruct (attach_spec s1 (l1 ++ l2) e Hl1) as (s2 & E2 & Hl2 & F2 & Hi2 & C2 & Fr2).
  { now rewrite ptrs_app, not_elem_of_app. }
  { eauto. }
  exists s1, s2. split; [exact E1 |]. split; [exact E2 |]. split; [| congruence].
  pose proof (keys_to_front _ _ _ Hk) as Hk'.
  apply (lru_ok_intro s _ (l1 ++ e :: l2)); try assumption; try congruence; try lia.
  - constructor; [exact Hl2 | | exact Hk']. rewrite Hi2, Hi1, Hi. unfold refs. apply Permutation_map.
    symmetry. apply Permutation_middle.
  - rewrite length_app in Hlen. cbn [length] in *. rewrite length_app. lia.
  - intros q Hq. assert (Hq' : q ∉ ptrs (l1 ++ e :: l2)).
    { intros Hin. pose proof (ptr_live _ _ _ Hok Hin). lia. }
    rewrite F2, F1; [eapply fresh_none; [exact Hok | lia] | exact Hq' |].
    apply ptrs_middle in Hq' as [? ?]. cbn [ptrs map]. now apply not_elem_of_cons.
Qed.

Lemma lru_get_spec s l k :
  lru_ok s l ->
  exists s' l', lru_get k s = Ok (spec_lookup k (abs l), s')
    /\ lru_ok s' l' /\ cap s' = cap s /\ abs l' = spec_get k (abs l).
Proof.
  intros Hok. pose proof Hok as [Hmap _ _ _]. pose proof (mo_keys _ _ Hmap) as Hkeys.
  unfold lru_get, get_node, spec_get.
  destruct (lookup_cases s l k Hmap) as [(l1 & e & l2 & -> & <- & Hik) | [Hk Hik]]; rewrite Hik; cbn [result_bind].
  - destruct (touch_spec s l1 e l2 Hok) as (s1 & s' & E1 & E2 & Hok' & C).
    rewrite E1. cbn [result_bind]. rewrite E2. cbn [result_bind].
    unfold deref. rewrite (proj1 (lo_dseg _ _ (mo_list _ _ (lk_map _ _ Hok')))).
    cbn [unwrap result_bind value]. rewrite spec_lookup_split, spec_remove_split by assumption.
    do 2 eexists. split; [reflexivity |]. split; [exact Hok' |]. split; [exact C | reflexivity].
  - cbn [result_bind]. rewrite spec_lookup_none by assumption. eauto 6.
Qed.

Lemma lru_remove_spec s l k :
  lru_ok s l ->
  exists s' l', lru_remove k s = Ok (spec_lookup k (abs l), s')
    /\ lru_ok s' l' /\ cap s' = cap s /\ abs l' = spec_remove k (abs l).
Proof.
  intros Hok. pose proof Hok as [Hmap _ Hc Hlen]. pose proof (mo_keys _ _ Hmap) as Hkeys.
  unfold lru_remove.
  destruct (lookup_cases s l k Hmap) as [(l1 & e & l2 & -> & <- & _) | [Hk _]].
  - destruct (detach_key s l1 e l2 Hmap) as (m & s1 & Em & E1 & Hm1 & He1 & F1 & C1 & Fr1).
    rewrite Em. cbn [result_bind]. rewrite E1. cbn [result_bind].
    pose proof (nodup_split _ _ _ (lo_nodup _ _ (mo_list _ _ Hmap))) as (_ & _ & Hn1 & Hn2 & _ & _).
    destruct (free_spec s1 (l1 ++ l2) (eptr e) (mk_node (ekey e) (evalue e) None None) Hm1) as (s2 & E2 & Hm2 & F2 & C2 & Fr2);
      [now rewrite ptrs_app, not_elem_of_app | exact He1 |].
    rewrite E2. cbn [result_bind value]. rewrite spec_lookup_split, spec_remove_split by assumption.
    do 2 eexists. split; [reflexivity |]. split; [| split; [congruence | reflexivity]].
    apply (lru_ok_intro s _ (l1 ++ e :: l2)); try assumption; try congruence; try lia.
    + rewrite length_app in *. cbn in Hlen. lia.
    + intros q Hq. rewrite F2. destruct (decide (q = eptr e)); [reflexivity |].
      rewrite F1; [eapply fresh_none; [exact Hok | lia] |].
      intros Hin. pose proof (ptr_live _ _ _ Hok Hin). lia.
  - rewrite spec_lookup_none, spec_remove_absent by assumption.
    destruct (inner_absent s l k (mo_inner _ _ Hmap) (map_readable _ _ Hmap) Hk) as (_ & (m & Em & Hm) & _).
    rewrite Em. cbn [result_bind]. exists (set_inner s m), l. split; [reflexivity |]. split; [| now split].
    apply (lru_ok_intro s _ l); try assumption; try reflexivity.
    + constructor; [apply list_ok_inner, (mo_list _ _ Hmap) | exact Hm | exact Hkeys].
    + intros q Hq. exact (fresh_none s l q Hok Hq).
Qed.

Lemma get_or_insert_spec s l k fn_once :
  lru_ok s l ->
  match spec_lookup k (abs l), fn_once k with
  | Some v, _ =>
      exists s' l', get_or_insert k fn_once s = Ok (v, s')
        /\ lru_ok s' l' /\ cap s' = cap s /\ abs l' = spec_get k (abs l)
  | None, Ok v =>
      exists s' l', get_or_insert k fn_once s = Ok (v, s')
        /\ lru_ok s' l' /\ cap s' = cap s /\ abs l' = spec_put (cap s) k v (abs l)
  | None, Err err => get_or_insert k fn_once s = Err err
  | None, Panic => get_or_insert k fn_once s = Panic
  end.
Proof.
  intros Hok. pose proof Hok as [Hmap _ _ _]. pose proof (mo_keys _ _ Hmap) as Hkeys.
  unfold get_or_insert, get_or_insert_node, spec_get.
  destruct (lookup_cases s l k Hmap) as [(l1 & e & l2 & -> & <- & Hik) | [Hk Hik]]; rewrite Hik; cbn [result_bind].
  - rewrite spec_lookup_split, spec_remove_split by assumption.
    destruct (touch_spec s l1 e l2 Hok) as (s1 & s' & E1 & E2 & Hok' & C).
    rewrite E1. cbn [result_bind]. rewrite E2. cbn [result_bind].
    unfold deref. rewrite (proj1 (lo_dseg _ _ (mo_list _ _ (lk_map _ _ Hok')))).
    cbn [unwrap result_bind value].
    do 2 eexists. split; [reflexivity |]. split; [exact Hok' |]. split; [exact C | reflexivity].
  - rewrite spec_lookup_none by assumption. destruct (fn_once k) as [v | err |]; cbn [result_bind];
      [| reflexivity ..].
    destruct (put_absent s l k v Hok Hk) as (m & s2 & s3 & s4 & Em & E2 & E3 & E4 & Hok' & C).
    destruct (alloc_spec s l k v Hok) as (_ & _ & Hh). unfold alloc in *. cbn [snd] in *.
    unfold ref_key at 1, deref at 1. rewrite Hh. cbn [unwrap result_bind key]. rewrite Em. cbn [result_bind].
    rewrite E2. cbn [result_bind]. rewrite E3. cbn [result_bind]. rewrite E4. cbn [result_bind].
    pose proof (proj1 (lo_dseg _ _ (mo_list _ _ (lk_map _ _ Hok')))) as Hnode.
    cbn [eptr ekey evalue] in Hnode. unfold deref. rewrite Hnode. cbn [unwrap result_bind value].
    do 2 eexists. split; [reflexivity |]. split; [exact Hok' |]. split; [exact C |].
    unfold spec_put. rewrite spec_remove_absent by assumption. cbn [abs map ekey evalue].
    now rewrite <- abs_evict.
Qed.

(** ** Traces *)

Inductive lru_op :=
| OpPut (k : K) (v : V)
| OpGet (k : K)
| OpRemove (k : K).

Definition lru_step (op : lru_op) (s : LruCache K V) : Result (option V * LruCache K V) :=
  match op with
  | OpPut k v => lru_put k v s
  | OpGet k => lru_get k s
  | OpRemove k => lru_remove k s
  end.

Fixpoint lru_run (ops : list lru_op) (s : LruCache K V) : Result (list (option V)) :=
  match ops with
  | [] => Ok []
  | op :: ops' =>
      let? '(o, s) := lru_step op s in
      let? os := lru_run ops' s in
      Ok (o :: os)
  end.

Definition spec_step (c : nat) (op : lru_op) (m : list (K * V)) : option V * list (K * V) :=
  match op with
  | OpPut k v => (spec_lookup k m, spec_put c k v m)
  | OpGet k => (spec_lookup k m, spec_get k m)
  | OpRemove k => (spec_lookup k m, spec_remove k m)
  end.

Fixpoint spec_run (c : nat) (ops : list lru_op) (m : list (K * V)) : list (option V) :=
  match ops with
  | [] => []
  | op :: ops' => (spec_step c op m).1 :: spec_run c ops' (spec_step c op m).2
  end.

Lemma lru_step_spec op s l :
  lru_ok s l ->
  exists s' l', lru_step op s = Ok ((spec_step (cap s) op (abs l)).1, s')
    /\ lru_ok s' l' /\ cap s' = cap s /\ abs l' = (spec_step (cap s) op (abs l)).2.
Proof.
  intros Hok. destruct op; cbn [lru_step spec_step fst snd];
    eauto using lru_put_spec, lru_get_spec, lru_remove_spec.
Qed.

Lemma lru_new_ok c s : lru_new c = Ok s -> lru_ok s [] /\ cap s = c.
Proof.
  unfold lru_new. destruct (c <? 1)%nat eqn:E; intros Hs; inv_ok. apply Nat.ltb_ge in E.
  split; [| reflexivity]. constructor; cbn; try lia.
  - constructor; [constructor | |]; cbn; auto; apply NoDup_nil_2.
  - intros p [n Hp]. now rewrite lookup_empty in Hp.
Qed.

(** C10. The cache is a least-recently-used list: from a new cache of capacity at
    least one, every sequence of puts, gets and removes runs without following a
    dangling pointer, be it a link of the list, a node of the hash map or one of its
    [KeyRef]s, and returns what the abstract list returns, where a put or a hit
    moves the key to the front and a put into a full cache drops the last key. *)
Theorem lru_refines c s ops :
  lru_new c = Ok s -> lru_run ops s = Ok (spec_run c ops []).
Proof.
  intros [Hok <-]%lru_new_ok. change (@nil (K * V)) with (abs []).
  revert s Hok. generalize (@nil entry). induction ops as [|op ops IH]; intros l s Hok; [reflexivity |].
  cbn [lru_run spec_run]. destruct (lru_step_spec op s l Hok) as (s' & l' & -> & Hok' & Hc & Ha).
  cbn [result_bind]. rewrite (IH l' s' Hok'), Hc, Ha. reflexivity.
Qed.

Lemma drop_walk s pr l :
  NoDup (ptrs l) -> head s = first l None -> dseg (heap s) pr l None ->
  exists s', lru_drop (length l) s = Ok s' /\ head s' = None
    /\ forall q, heap s' !! q = if decide (q ∈ ptrs l) then None else heap s !! q.
Proof.
  revert s pr. induction l as [|e l IH]; intros s pr Hn Hh Hd; cbn [lru_drop length first] in *.
  { exists s. split; [reflexivity |]. split; [exact Hh |]. intros q.
    now rewrite decide_False by apply not_elem_of_nil. }
  rewrite Hh. destruct Hd as [He Hd]. unfold deref. rewrite He. cbn [unwrap result_bind next].
  cbn [ptrs map] in Hn. apply NoDup_cons in Hn as [Hni Hn].
  edestruct (IH (set_head (set_heap s (delete (eptr e) (heap s))) (first l None)))
    as (s' & E & Hh' & Hq);
    [exact Hn | reflexivity | cbn [heap set_head set_heap]; apply dseg_delete; eassumption |].
  exists s'. split; [exact E |]. split; [exact Hh' |]. intros q. rewrite Hq.
  cbn [heap set_head set_heap ptrs map]. fold (ptrs l).
  destruct (decide (q ∈ ptrs l)) as [Hin | Hin].
  - now rewrite decide_True by now apply list_elem_of_further.
  - destruct (decide (q = eptr e)) as [-> | Hne].
    + rewrite lookup_delete_eq. now rewrite decide_True by apply list_elem_of_here.
    + rewrite lookup_delete_ne by congruence. rewrite decide_False; [reflexivity |].
      rewrite elem_of_cons. tauto.
Qed.

(** Dropping a cache frees each listed node once: the walk reaches the end
    of the list without a dangling pointer, and leaves in the heap exactly the
    nodes that are not on the list. *)
Theorem lru_drop_frees s l :
  lru_ok s l ->
  exists s', lru_drop (length l) s = Ok s' /\ head s' = None
    /\ forall q, heap s' !! q = if decide (q ∈ ptrs l) then None else heap s !! q.
Proof. intros [[[Hn Hd Hh _] _ _] _ _ _]. eapply drop_walk; eassumption. Qed.

(** ** The sharded cache *)

Definition shards_ok (c : list (LruCache K V)) : Prop :=
  c <> [] /\ Forall (fun s => exists l, lru_ok s l) c.

Lemma shared_new_ok c n cs : shared_new c n = Ok cs -> shards_ok cs.
Proof.
  unfold shared_new. destruct n as [|n]; [discriminate |].
  destruct (negb _); [discriminate |]. intros H'. pose proof (try_map_length _ _ _ H') as Hlen.
  rewrite length_seq in Hlen. split; [destruct cs; discriminate || congruence |]. clear Hlen.
  revert cs H'. induction (seq 0 (S n)) as [|x xs IH]; intros cs H'; cbn [try_map] in H'; inv_ok.
  - constructor.
  - constructor; [| now apply IH]. apply lru_new_ok in Hok as [? _]. eauto.
Qed.

Lemma on_shard_ok hash {A} c k (op : LruCache K V -> Result (A * LruCache K V)) :
  shards_ok c -> exists s l, c !! shard hash c k = Some s /\ lru_ok s l.
Proof.
  intros [Hne Hall]. assert (Hlt : (shard hash c k < length c)%nat).
  { unfold shard. apply Nat.mod_upper_bound. destruct c; cbn; congruence. }
  apply lookup_lt_is_Some_2 in Hlt as [s Hs]. pose proof (proj1 (Forall_lookup _ _) Hall _ _ Hs) as [l Hl].
  eauto.
Qed.

Lemma spec_lookup_put c k v m : spec_lookup k (spec_put c k v m) = Some v.
Proof. unfold spec_lookup, spec_put. cbn [list_to_map]. apply lookup_insert_eq. Qed.

(** A put is visible: in a sharded cache, whatever the hasher, putting a
    value succeeds and the following get of the key, on the same shard, returns
    it; both keep every shard well formed. *)
Theorem shared_put_get hash (c : list (LruCache K V)) k v :
  shards_ok c ->
  exists old c1 c2, shared_put hash k v c = Ok (old, c1)
    /\ shared_get hash k c1 = Ok (Some v, c2) /\ shards_ok c1 /\ shards_ok c2.
Proof.
  intros Hok. destruct (on_shard_ok hash c k (lru_put k v) Hok) as (s & l & Hs & Hl).
  pose proof (lookup_lt_Some _ _ _ Hs) as Hlt. destruct Hok as [Hne Hall].
  unfold shared_put, shared_get, on_shard. rewrite Hs. cbn [unwrap result_bind].
  destruct (lru_put_spec s l k v Hl) as (s1 & l1 & -> & Hl1 & Hc1 & Ha1). cbn [result_bind].
  assert (Hsh : shard hash (<[shard hash c k := s1]> c) k = shard hash c k)
    by (unfold shard at 1 3; now rewrite length_insert).
  assert (Hok' : forall c' i s' l', shards_ok c' -> lru_ok s' l' -> shards_ok (<[i := s']> c')).
  { intros c' i s' l' [Hne' Hall'] Hl'. split; [now destruct c', i |]. apply Forall_insert; eauto. }
  assert (Hok1 : shards_ok (<[shard hash c k := s1]> c)) by (eapply Hok'; [now split | eassumption]).
  destruct (lru_get_spec s1 l1 k Hl1) as (s2 & l2 & E2 & Hl2 & _ & _).
  do 3 eexists. split; [reflexivity |].
  rewrite Hsh, list_lookup_insert_eq by assumption. cbn [unwrap result_bind].
  rewrite E2. cbn [result_bind].
  rewrite Ha1, spec_lookup_put. split; [reflexivity |]. split; [exact Hok1 |].
  eapply Hok'; eassumption.
Qed.
End Representation.

(** ** Concrete runs *)

Section Leak.
Context {F : Foreign}.

(** Two puts into a cache of capacity one, then the drop: the size before and
    the heap after. *)
Definition leak_run : Result (nat * list (ptr * Node nat nat)) :=
  let? s := lru_new (K := nat) 1 in
  let? '(_, s) := lru_put 1%nat 10%nat s in
  let? '(_, s) := lru_put 2%nat 20%nat s in
  let? s' := lru_drop 2 s in
  Ok (lru_len s, map_to_list (heap s')).

(** Evicting does not free: the first node survives the drop. *)
Lemma evicted_node_leaks : leak_run = Ok (1%nat, [(0%nat, mk_node 1%nat 10%nat None None)]).
Proof. vm_compute. reflexivity. Qed.
End Leak.

Section Examples.
#[local] Existing Instance RefForeign.ref_foreign.

Lemma lru_refines_witness :
  lru_run [OpPut 1%nat 10%nat; OpPut 2%nat 20%nat; OpGet 1%nat; OpPut 3%nat 30%nat; OpGet 2%nat]
    (mk_lru ∅ 0%nat None None [] 2%nat)
  = Ok (spec_run 2 [OpPut 1%nat 10%nat; OpPut 2%nat 20%nat; OpGet 1%nat; OpPut 3%nat 30%nat;
                    OpGet 2%nat] []).
Proof. apply (lru_refines 2). reflexivity. Defined.

Lemma lru_drop_frees_witness :
  exists s', lru_drop 0 (mk_lru (K := nat) (V := nat) ∅ 0%nat None None [] 1%nat) = Ok s'
    /\ head s' = None
    /\ forall q, heap s' !! q
         = if decide (q ∈ ptrs (K := nat) (V := nat) []) then None else (∅ : gmap nat (Node nat nat)) !! q.
Proof.
  apply (lru_drop_frees (K := nat) (V := nat) (mk_lru ∅ 0%nat None None [] 1%nat) []).
  apply (lru_new_ok 1%nat). reflexivity.
Defined.

Lemma shared_put_get_witness :
  exists c old c1 c2,
    shared_new (K := nat) (V := nat) 4 2 = Ok c
    /\ shared_put Z.of_nat 7%nat 70%nat c = Ok (old, c1)
    /\ shared_get Z.of_nat 7%nat c1 = Ok (Some 70%nat, c2) /\ shards_ok c1 /\ shards_ok c2.
Proof.
  eexists. edestruct (shared_put_get (K := nat) (V := nat) Z.of_nat) as (old & c1 & c2 & H).
  - apply (shared_new_ok 4 2). reflexivity.
  - exists old, c1, c2. split; [reflexivity | exact H].
Defined.
End Examples.
