(* ===== verification/Sort.v ===== *)
(** * Sorting

    The sort executor (src/src/execution/dql/sort.rs): the LSD radix sort on
    memcomparable keys used above 256 tuples, the comparison sort used below,
    and the choice between them.  Evaluating a sort expression on a tuple is an
    argument. *)

From Stdlib Require Import Sorting.Sorted.
From stdpp Require Import sorting.
From S2P Require Import Prelude Bytes Types LogicalTypes Values Evaluators Memcomparable TupleCodec.

Definition BUCKET_SIZE : nat := 256.

Section Radix.
Context {T : Type}.

(** The byte a key is distributed on: 0 past its end. *)
Definition radix_byte (i : nat) (key : bytes) : Z :=
  if (i <? length key)%nat then nth i key 0 else 0.

(** One pass: push every item on its byte's bucket, then append the buckets.  A
    byte is a [u8], so it always has a bucket. *)
Definition radix_push (i : nat) (buckets : list (list (T * bytes))) (x : T * bytes)
  : list (list (T * bytes)) :=
  alter (fun bucket => bucket ++ [x]) (Z.to_nat (radix_byte i x.2)) buckets.

Definition radix_pass (i : nat) (tuples : list (T * bytes)) : list (T * bytes) :=
  concat (fold_left (radix_push i) tuples (repeat [] BUCKET_SIZE)).

(** [for i in (0..max_len).rev()]. *)
Fixpoint radix_passes (n : nat) (tuples : list (T * bytes)) : list (T * bytes) :=
  match n with
  | O => tuples
  | S n' => radix_passes n' (radix_pass n' tuples)
  end.

Definition max_len (tuples : list (T * bytes)) : nat :=
  foldr Nat.max 0%nat (map (fun x => length x.2) tuples).

Definition radix_sort (tuples : list (T * bytes)) : list T :=
  map fst (match tuples with
           | [] => tuples
           | _ => radix_passes (max_len tuples) tuples
           end).
End Radix.

Section SortBy.
Context {F : Foreign}.
Variables (Expr T : Type).
(** [expr.eval(Some((tuple, schema)))]. *)
Variable eval : Expr -> T -> Result DataValue.

Record SortField := mk_sort_field { expr : Expr; asc : bool; nulls_first : bool }.

(** ** Radix *)

Definition sort_field_key (f : SortField) (tuple : T) : Result bytes :=
  let? v := eval (expr f) tuple in
  let? key := memcomparable_encode v [] in
  let key := if asc f then key else complement key in
  Ok (key ++ [if nulls_first f then 0 else 255]).

Definition sort_key (fields : list SortField) (tuple : T) : Result bytes :=
  try_fold (fun full f => let? key := sort_field_key f tuple in Ok (full ++ key)) fields [].

Definition sorted_radix (fields : list SortField) (tuples : list T) : Result (list T) :=
  let? keys := try_map (fun t => let? k := sort_key fields t in Ok (t, k)) tuples in
  Ok (radix_sort keys).

(** ** Comparison *)

Definition nulls_ordering (nulls_first : bool) : comparison := if nulls_first then Gt else Lt.

Definition field_cmp (f : SortField) (v1 v2 : DataValue) : comparison :=
  match is_null v1, is_null v2 with
  | false, true => nulls_ordering (nulls_first f)
  | true, false => CompOpp (nulls_ordering (nulls_first f))
  | _, _ =>
      let ordering := default Eq (partial_cmp v1 v2) in
      if asc f then ordering else CompOpp ordering
  end.

(** [eval_values[x]] is the column of the [x]-th sort field.  The vector has
    one entry per tuple, so filling column [x] panics when there are tuples but
    not more than [x] of them. *)
Fixpoint eval_values (x : nat) (fields : list SortField) (tuples : list T)
  : Result (list (list DataValue)) :=
  match fields with
  | [] => Ok []
  | f :: fields' =>
      let? column :=
        if negb (length tuples =? 0)%nat && (length tuples <=? x)%nat then Panic
        else try_map (eval (expr f)) tuples in
      let? columns := eval_values (S x) fields' tuples in
      Ok (column :: columns)
  end.

(** The closure given to [sort_by], on the offsets of two tuples. *)
Fixpoint fields_cmp (fields : list SortField) (columns : list (list DataValue)) (i j : nat)
  : comparison :=
  match fields, columns with
  | f :: fields', column :: columns' =>
      cmp_then (field_cmp f (nth i column DV.Null) (nth j column DV.Null))
               (fields_cmp fields' columns' i j)
  | _, _ => Eq
  end.

(** [slice::sort_by], a stable sort. *)
Fixpoint insert_by {A} (cmp : A -> A -> comparison) (x : A) (l : list A) : list A :=
  match l with
  | [] => [x]
  | y :: l' => if is_gt (cmp x y) then y :: insert_by cmp x l' else x :: y :: l'
  end.
Definition sort_by {A} (cmp : A -> A -> comparison) (l : list A) : list A :=
  foldr (insert_by cmp) [] l.

Definition sorted_fast (fields : list SortField) (tuples : list T) : Result (list T) :=
  let? columns := eval_values 0 fields tuples in
  let offsets := zip (seq 0 (length tuples)) tuples in
  Ok (map snd (sort_by (fun a b => fields_cmp fields columns a.1 b.1) offsets)).

(** ** The executor: [limit] tuples of the sorted input *)

Definition sort_execute (fields : list SortField) (limit : option nat) (input : list T)
  : Result (list T) :=
  let? sorted :=
    if (256 <? length input)%nat then sorted_radix fields input else sorted_fast fields input in
  Ok (take (default (length input) limit) sorted).
End SortBy.

(** ** Buckets *)

Section Buckets.
Context {A : Type} (f : A -> nat).
Definition buckets (s n : nat) (l : list A) : list A :=
  concat (map (fun b => filter (fun x => f x = b) l) (seq s n)).

Lemma buckets_skip s n x l : ~ (s <= f x < s + n)%nat -> buckets s n (x :: l) = buckets s n l.
Proof.
  revert s; induction n as [|n IH]; intros s Hx; [reflexivity |].
  unfold buckets in *. cbn [seq map concat]. rewrite IH, filter_cons_False by lia. reflexivity.
Qed.

Lemma buckets_cons s n x l :
  (s <= f x < s + n)%nat -> buckets s n (x :: l) ≡ₚ x :: buckets s n l.
Proof.
  revert s; induction n as [|n IH]; intros s Hx; [lia |].
  change (filter (fun y => f y = s) (x :: l) ++ buckets (S s) n (x :: l)
          ≡ₚ x :: filter (fun y => f y = s) l ++ buckets (S s) n l).
  destruct (decide (f x = s)) as [He | Hne].
  - rewrite filter_cons_True, buckets_skip by lia. reflexivity.
  - rewrite filter_cons_False, IH by lia. now rewrite <- Permutation_middle.
Qed.

Lemma buckets_perm n l : Forall (fun x => f x < n)%nat l -> buckets 0 n l ≡ₚ l.
Proof.
  induction 1 as [|x l Hx _ IH].
  - unfold buckets. induction (seq 0 n); cbn; auto.
  - rewrite buckets_cons, IH by lia. reflexivity.
Qed.

(** A class contained in one bucket is read off in order. *)
Lemma buckets_filter (P : A -> Prop) `{!forall x, Decision (P x)} b s n l :
  (forall x, P x -> f x = b) ->
  filter P (buckets s n l) = if decide (s <= b < s + n)%nat then filter P l else [].
Proof.
  intros HP. revert s; induction n as [|n IH]; intros s.
  { rewrite decide_False by lia. reflexivity. }
  change (buckets s (S n) l) with (filter (fun y => f y = s) l ++ buckets (S s) n l).
  rewrite filter_app, IH, list_filter_filter.
  destruct (decide (b = s)) as [-> | Hne].
  - rewrite decide_False, decide_True, app_nil_r by lia. apply list_filter_iff.
    intros x. split; [tauto | auto].
  - rewrite filter_none by (intros x _ [Hx Hs]; apply HP in Hx; congruence).
    destruct (decide (S s <= b < S s + n)%nat), (decide (s <= b < s + S n)%nat); try lia; reflexivity.
Qed.
End Buckets.

(** ** Radix sort is a stable sort *)

Section RadixProof.
Context {T : Type}.
Implicit Types (l : list (T * bytes)).

(** Buckets as filters. *)
Definition bucket (i : nat) (b : nat) l : list (T * bytes) :=
  filter (fun x => Z.to_nat (radix_byte i x.2) = b) l.

Lemma radix_push_buckets i l bs :
  length bs = BUCKET_SIZE ->
  fold_left (radix_push i) l bs = imap (fun b c => c ++ bucket i b l) bs.
Proof.
  revert bs; induction l as [|x l IH]; intros bs Hl; cbn [fold_left].
  - symmetry. apply list_eq. intros b. rewrite list_lookup_imap. unfold bucket. cbn.
    destruct (bs !! b); cbn; [| reflexivity]. now rewrite app_nil_r.
  - rewrite IH by now rewrite <- Hl; unfold radix_push; rewrite length_alter.
    apply list_eq. intros b. rewrite !list_lookup_imap. unfold radix_push, bucket.
    rewrite filter_cons.
    destruct (decide (Z.to_nat (radix_byte i x.2) = b)) as [<- | Hne].
    + rewrite list_lookup_alter_eq. destruct (bs !! _); cbn; [| reflexivity].
      now rewrite <- app_assoc.
    + rewrite list_lookup_alter_ne by congruence. reflexivity.
Qed.

Lemma radix_pass_buckets i l :
  radix_pass i l = concat (map (fun b => bucket i b l) (seq 0 BUCKET_SIZE)).
Proof.
  unfold radix_pass. rewrite radix_push_buckets by apply repeat_length. reflexivity.
Qed.

Lemma radix_byte_range i key : is_bytes key -> 0 <= radix_byte i key < 256.
Proof.
  intros Hk. unfold radix_byte. destruct (_ <? _)%nat eqn:E; [| lia]. apply Nat.ltb_lt in E.
  assert (Hin : nth i key 0 ∈ key) by (apply list_elem_of_In, nth_In; lia).
  now apply (proj1 (Forall_forall _ _) Hk) in Hin.
Qed.


(** The bytes of a key from position [i] up to [n], zero-padded. *)
Definition suffix_key (n i : nat) (x : T * bytes) : bytes :=
  map (fun j => radix_byte j x.2) (seq i (n - i)).

(** [out] is [l] sorted by [key], items with equal keys in their old order. *)
Record stable_sorted (key : T * bytes -> bytes) l (out : list (T * bytes)) : Prop := {
  ss_perm : out ≡ₚ l;
  ss_sorted : StronglySorted (fun x y => lex_cmp (key x) (key y) <> Gt) out;
  ss_stable : forall k, filter (fun x => key x = k) out = filter (fun x => key x = k) l
}.

Lemma suffix_key_cons n i x :
  (i < n)%nat -> suffix_key n i x = radix_byte i x.2 :: suffix_key n (S i) x.
Proof.
  intros Hi. unfold suffix_key. replace (n - i)%nat with (S (n - S i)) by lia. reflexivity.
Qed.

Lemma StronglySorted_filter {A} (R : relation A) (P : A -> Prop) `{!forall x, Decision (P x)} xs :
  StronglySorted R xs -> StronglySorted R (filter P xs).
Proof.
  induction 1 as [|x xs Hs IH Hx]; [constructor |]. rewrite filter_cons. destruct (decide (P x)); [| exact IH].
  constructor; [exact IH |]. apply Forall_forall. intros y Hy.
  apply list_elem_of_filter in Hy as [_ Hy]. now apply (proj1 (Forall_forall _ _) Hx).
Qed.

Lemma buckets_sorted n i s m out :
  (i < n)%nat -> (forall x, x ∈ out -> is_bytes x.2) ->
  StronglySorted (fun x y => lex_cmp (suffix_key n (S i) x) (suffix_key n (S i) y) <> Gt) out ->
  StronglySorted (fun x y => lex_cmp (suffix_key n i x) (suffix_key n i y) <> Gt)
    (buckets (fun x => Z.to_nat (radix_byte i x.2)) s m out).
Proof.
  intros Hi Hb Hs. revert s; induction m as [|m IH]; intros s; [constructor |].
  change (buckets (fun x => Z.to_nat (radix_byte i x.2)) s (S m) out)
    with (filter (fun x => Z.to_nat (radix_byte i x.2) = s) out
          ++ buckets (fun x => Z.to_nat (radix_byte i x.2)) (S s) m out).
  apply StronglySorted_app. split; [| split; [| apply IH]].
  - intros x y Hx Hy. apply list_elem_of_filter in Hx as [Hxs Hx].
    assert (Hy' : y ∈ out /\ (s < Z.to_nat (radix_byte i y.2))%nat).
    { clear -Hy. revert s Hy. induction m as [|m IH]; intros s Hy; [now apply elem_of_nil in Hy |].
      cbn [buckets] in Hy. unfold buckets in Hy. cbn [seq map concat] in Hy.
      apply elem_of_app in Hy as [Hy | Hy].
      - apply list_elem_of_filter in Hy as [Hy Hy']. split; [exact Hy' | lia].
      - destruct (IH (S s) Hy). split; [assumption | lia]. }
    destruct Hy' as [Hy' Hlt].
    rewrite (suffix_key_cons n i x), (suffix_key_cons n i y) by assumption. cbn [lex_cmp].
    pose proof (radix_byte_range i _ (Hb x Hx)). pose proof (radix_byte_range i _ (Hb y Hy')).
    rewrite (proj2 (Z.compare_lt_iff _ _)) by lia. discriminate.
  - apply (StronglySorted_filter _ (fun x => Z.to_nat (radix_byte i x.2) = s)) in Hs.
    assert (Hin : forall x, x ∈ filter (fun x => Z.to_nat (radix_byte i x.2) = s) out ->
                            radix_byte i x.2 = Z.of_nat s).
    { intros x Hx. apply list_elem_of_filter in Hx as [Hx Hx'].
      pose proof (radix_byte_range i _ (Hb x Hx')). lia. }
    revert Hin Hs. generalize (filter (fun x => Z.to_nat (radix_byte i x.2) = s) out). clear -Hi.
    intros l Hin. induction 1 as [|x l Hs IH Hx]; constructor.
    + apply IH. intros y Hy. apply Hin. now apply list_elem_of_further.
    + apply Forall_forall. intros y Hy.
      rewrite (suffix_key_cons n i x), (suffix_key_cons n i y) by assumption. cbn [lex_cmp].
      rewrite (Hin x), (Hin y), Z.compare_refl by (apply list_elem_of_here || now apply list_elem_of_further).
      now apply (proj1 (Forall_forall _ _) Hx).
Qed.

(** A pass on byte [i] extends the sort from positions above [i] to [i]. *)
Lemma radix_pass_step n i l out :
  (i < n)%nat -> (forall x, x ∈ l -> is_bytes x.2) ->
  stable_sorted (suffix_key n (S i)) l out -> stable_sorted (suffix_key n i) l (radix_pass i out).
Proof.
  intros Hi Hb [Hp Hs Hst]. rewrite radix_pass_buckets.
  change (concat (map (fun b => bucket i b out) (seq 0 BUCKET_SIZE)))
    with (buckets (fun x => Z.to_nat (radix_byte i x.2)) 0 BUCKET_SIZE out).
  assert (Hb' : forall x, x ∈ out -> is_bytes x.2) by (intros x Hx; rewrite Hp in Hx; auto).
  constructor.
  - rewrite buckets_perm; [exact Hp |]. apply Forall_forall. intros x Hx.
    pose proof (radix_byte_range i _ (Hb' x Hx)). unfold BUCKET_SIZE. lia.
  - now apply buckets_sorted.
  - intros [|b k].
    { rewrite !filter_none; [reflexivity | |];
        intros x _; rewrite suffix_key_cons by assumption; discriminate. }
    assert (Hsplit : forall xs : list (T * bytes),
      filter (fun x => suffix_key n i x = b :: k) xs
      = filter (fun x => radix_byte i x.2 = b) (filter (fun x => suffix_key n (S i) x = k) xs)).
    { intros xs. rewrite list_filter_filter. apply list_filter_iff. intros x.
      rewrite suffix_key_cons by assumption. split; [intros [= -> ->]; auto | intros [-> ->]; auto]. }
    rewrite (buckets_filter _ _ (Z.to_nat b)).
    2: { intros x Hx. rewrite suffix_key_cons in Hx by assumption. now injection Hx as -> _. }
    destruct (decide _) as [Hd | Hd]; [now rewrite !Hsplit, Hst |].
    symmetry. apply filter_none. intros x Hx Hk. rewrite suffix_key_cons in Hk by assumption.
    injection Hk as <- _. pose proof (radix_byte_range i _ (Hb x Hx)). unfold BUCKET_SIZE in Hd. lia.
Qed.

Lemma radix_passes_sorted n i l out :
  (i <= n)%nat -> (forall x, x ∈ l -> is_bytes x.2) ->
  stable_sorted (suffix_key n i) l out -> stable_sorted (suffix_key n 0) l (radix_passes i out).
Proof.
  revert out; induction i as [|i IH]; intros out Hi Hb Hs; [exact Hs |].
  cbn [radix_passes]. apply IH; [lia | exact Hb |]. apply radix_pass_step; [lia | exact Hb | exact Hs].
Qed.

Lemma radix_sort_passes l : exists out, radix_sort l = map fst out /\ out = radix_passes (max_len l) l.
Proof. eexists. split; [| reflexivity]. now destruct l. Qed.

(** Zero-padded keys read byte by byte. *)
Definition padded (n : nat) (x : T * bytes) : bytes := x.2 ++ repeat 0 (n - length x.2).

Lemma suffix_key_padded n (x : T * bytes) :
  (length x.2 <= n)%nat -> suffix_key n 0 x = padded n x.
Proof.
  intros Hl. unfold suffix_key, padded. rewrite Nat.sub_0_r. apply list_eq_same_length with (n := n).
  - now apply padded_length.
  - now rewrite length_map, length_seq.
  - intros i a b Hi Ha Hb. rewrite list_lookup_fmap, lookup_seq_lt in Ha by assumption.
    cbn in Ha. injection Ha as <-. unfold radix_byte. destruct (i <? length x.2)%nat eqn:E.
    + apply Nat.ltb_lt in E. rewrite lookup_app_l in Hb by assumption.
      apply nth_lookup_Some. exact Hb.
    + apply Nat.ltb_ge in E. rewrite lookup_app_r in Hb by assumption.
      apply list_elem_of_lookup_2, list_elem_of_In, repeat_spec in Hb. now subst.
Qed.

Lemma max_len_le l x : x ∈ l -> (length x.2 <= max_len l)%nat.
Proof.
  unfold max_len. induction l as [|y l IH]; intros Hx; [now apply elem_of_nil in Hx |].
  cbn. apply elem_of_cons in Hx as [-> | Hx]; [lia | specialize (IH Hx); lia].
Qed.

Lemma filter_ext_in {A} (P Q : A -> Prop) `{!forall x, Decision (P x)} `{!forall x, Decision (Q x)}
    (xs : list A) :
  (forall x, x ∈ xs -> P x <-> Q x) -> filter P xs = filter Q xs.
Proof.
  induction xs as [|x xs IH]; intros HPQ; [reflexivity |].
  assert (IH' : filter P xs = filter Q xs) by (apply IH; intros y Hy; apply HPQ; now right).
  pose proof (HPQ x (list_elem_of_here _ _)) as Hx. rewrite !filter_cons.
  destruct (decide (P x)), (decide (Q x)); tauto || now rewrite IH'.
Qed.

Lemma StronglySorted_ext {A} (R S : relation A) xs :
  (forall x y, x ∈ xs -> y ∈ xs -> R x y -> S x y) -> StronglySorted R xs -> StronglySorted S xs.
Proof.
  intros HRS Hs. induction Hs as [|x xs Hs IH Hx]; constructor.
  - apply IH. intros y z Hy Hz. apply HRS; now right.
  - apply Forall_forall. intros y Hy. apply HRS; [left | now right |].
    now apply (proj1 (Forall_forall _ _) Hx).
Qed.

(** C24. The radix sort is a stable sort of the keys: its output is the items of
    a permutation of the input in which the keys, padded with zeros to the
    longest, never decrease in byte order, and items with equal padded keys keep
    their input order. *)
Theorem radix_sort_stable l :
  (forall x, x ∈ l -> is_bytes x.2) ->
  exists out, radix_sort l = map fst out /\ out ≡ₚ l
    /\ StronglySorted (fun x y => lex_cmp (padded (max_len l) x) (padded (max_len l) y) <> Gt) out
    /\ forall k, filter (fun x => padded (max_len l) x = k) out
               = filter (fun x => padded (max_len l) x = k) l.
Proof.
  intros Hb. destruct (radix_sort_passes l) as (out & Ho & Hp).
  exists out. split; [exact Ho |].
  assert (Hss : stable_sorted (suffix_key (max_len l) 0) l out).
  { rewrite Hp. apply radix_passes_sorted; [lia | exact Hb |]. unfold suffix_key. rewrite Nat.sub_diag.
    split; [reflexivity | | reflexivity].
    clear. induction l as [|x l IH]; constructor; [exact IH |]. apply Forall_forall. discriminate. }
  destruct Hss as [Hperm Hsort Hst]. split; [exact Hperm |].
  assert (Hpad : forall x, x ∈ l -> suffix_key (max_len l) 0 x = padded (max_len l) x)
    by (intros x Hx; apply suffix_key_padded, max_len_le, Hx).
  assert (Hpad' : forall x, x ∈ out -> suffix_key (max_len l) 0 x = padded (max_len l) x)
    by (intros x Hx; rewrite Hperm in Hx; now apply Hpad).
  split.
  - revert Hsort. apply StronglySorted_ext. intros x y Hx Hy. now rewrite !Hpad' by assumption.
  - intros k. specialize (Hst k).
    rewrite (filter_ext_in _ (fun x => padded (max_len l) x = k) out) in Hst
      by (intros x Hx; now rewrite Hpad').
    rewrite (filter_ext_in _ (fun x => padded (max_len l) x = k) l) in Hst
      by (intros x Hx; now rewrite Hpad). exact Hst.
Qed.
End RadixProof.

(** ** Comparators *)

Section Comparators.
Context {A : Type}.

(** A total preorder on the elements that satisfy [P]. *)
Record preorder_on (P : A -> Prop) (cmp : A -> A -> comparison) : Prop := {
  po_antisym : forall a b, P a -> P b -> cmp b a = CompOpp (cmp a b);
  po_eq : forall a b c, P a -> P b -> P c -> cmp a b = Eq -> cmp a c = cmp b c;
  po_trans : forall a b c, P a -> P b -> P c -> cmp a b = Lt -> cmp b c = Lt -> cmp a c = Lt
}.

Lemma preorder_eq_sym P cmp a b :
  preorder_on P cmp -> P a -> P b -> cmp a b = Eq -> cmp b a = Eq.
Proof. intros [Ha _ _] HPa HPb H. now rewrite Ha, H. Qed.

Lemma preorder_then P c1 c2 :
  preorder_on P c1 -> preorder_on P c2 -> preorder_on P (fun a b => cmp_then (c1 a b) (c2 a b)).
Proof.
  intros H1 H2. constructor.
  - intros a b Ha Hb. rewrite (po_antisym _ _ H1), (po_antisym _ _ H2) by assumption.
    now destruct (c1 a b).
  - intros a b c Ha Hb Hc [E1 E2]%cmp_then_eq.
    now rewrite (po_eq _ _ H1 a b), (po_eq _ _ H2 a b) by assumption.
  - intros a b c Ha Hb Hc Hab Hbc.
    destruct (c1 a b) eqn:E1; cbn in Hab; try discriminate.
    + rewrite (po_eq _ _ H1 a b) by assumption. destruct (c1 b c) eqn:E2; cbn in *; try discriminate; auto.
      now apply (po_trans _ _ H2 a b).
    + destruct (c1 b c) eqn:E2; cbn in Hbc; try discriminate.
      * pose proof (preorder_eq_sym _ _ _ _ H1 Hb Hc E2) as E3.
        rewrite (po_antisym _ _ H1 c a), (po_eq _ _ H1 c b), (po_antisym _ _ H1 a b), E1 by assumption.
        reflexivity.
      * now rewrite (po_trans _ _ H1 a b c).
Qed.

Lemma preorder_opp P c : preorder_on P c -> preorder_on P (fun a b => CompOpp (c a b)).
Proof.
  intros H. constructor.
  - intros a b Ha Hb. now rewrite (po_antisym _ _ H a b).
  - intros x y z Hx Hy Hz E. f_equal. apply (po_eq _ _ H); try assumption. now destruct (c x y).
  - intros x y z Hx Hy Hz E1 E2. rewrite <- (po_antisym _ _ H x z) by assumption.
    apply (po_trans _ _ H z y x); try assumption; rewrite (po_antisym _ _ H) by assumption; assumption.
Qed.

(** ** The stable sort *)

Variable cmp : A -> A -> comparison.

Lemma insert_by_perm x l : insert_by cmp x l ≡ₚ x :: l.
Proof.
  induction l as [|y l IH]; cbn; [reflexivity |]. destruct (is_gt _); [| reflexivity].
  rewrite IH. apply Permutation_swap.
Qed.

Lemma sort_by_perm l : sort_by cmp l ≡ₚ l.
Proof. induction l as [|x l IH]; cbn; [reflexivity |]. now rewrite insert_by_perm, IH. Qed.

Lemma insert_by_sorted P x l :
  preorder_on P cmp -> P x -> Forall P l ->
  StronglySorted (fun a b => cmp a b <> Gt) l ->
  StronglySorted (fun a b => cmp a b <> Gt) (insert_by cmp x l).
Proof.
  intros Hp Hx Hl. induction 1 as [|y l Hs IH Hy]; cbn [insert_by].
  { repeat constructor. }
  apply Forall_cons_1 in Hl as [HPy Hl].
  destruct (cmp x y) eqn:E; cbn [is_gt].
  - constructor; [now constructor |]. constructor; [congruence |]. rewrite Forall_forall in Hy, Hl |- *.
    intros z Hz. rewrite (po_eq _ _ Hp x y) by auto. auto.
  - constructor; [now constructor |]. constructor; [congruence |]. rewrite Forall_forall in Hy, Hl |- *.
    intros z Hz. specialize (Hy z Hz). destruct (cmp y z) eqn:E2; [| | congruence].
    + pose proof (preorder_eq_sym _ _ _ _ Hp HPy (Hl z Hz) E2) as E3.
      rewrite (po_antisym _ _ Hp z x), (po_eq _ _ Hp z y), (po_antisym _ _ Hp x y), E by auto. discriminate.
    + rewrite (po_trans _ _ Hp x y z) by auto. discriminate.
  - constructor; [now apply IH |]. apply Forall_forall. intros z Hz. rewrite insert_by_perm in Hz.
    apply elem_of_cons in Hz as [-> | Hz].
    + rewrite (po_antisym _ _ Hp), E by assumption. discriminate.
    + now apply (proj1 (Forall_forall _ _) Hy).
Qed.

Lemma sort_by_sorted P l :
  preorder_on P cmp -> Forall P l -> StronglySorted (fun a b => cmp a b <> Gt) (sort_by cmp l).
Proof.
  intros Hp. induction 1 as [|x l Hx Hl IH]; cbn; [constructor |].
  apply (insert_by_sorted P); try assumption. change (Forall P (sort_by cmp l)). now rewrite sort_by_perm.
Qed.

(** Elements that compare equal to [e] keep their order. *)
Lemma sort_by_stable P l e :
  preorder_on P cmp -> P e -> Forall P l ->
  filter (fun x => cmp e x = Eq) (sort_by cmp l) = filter (fun x => cmp e x = Eq) l.
Proof.
  intros Hp He. induction 1 as [|x l Hx Hl IH]; [reflexivity |].
  change (sort_by cmp (x :: l)) with (insert_by cmp x (sort_by cmp l)).
  rewrite (filter_cons _ x l), <- IH.
  assert (Hs : Forall P (sort_by cmp l)) by now rewrite sort_by_perm.
  clear IH Hl. induction Hs as [|y s Hy Hs IHs]; cbn [insert_by]; [now rewrite filter_cons |].
  destruct (is_gt (cmp x y)) eqn:Eg; [| now rewrite filter_cons].
  rewrite !(filter_cons _ y), IHs.
  destruct (decide (cmp e x = Eq)) as [Ex | Ex], (decide (cmp e y = Eq)) as [Ey | Ey]; try reflexivity.
  pose proof (po_eq _ _ Hp e x y He Hx Hy Ex) as E. rewrite <- E in Eg. rewrite Ey in Eg. discriminate.
Qed.
End Comparators.

(** ** The comparison sort is correct *)

Section FastProof.
Context {F : Foreign} {L : ForeignLaws F}.
Context {Expr T : Type} (eval : Expr -> T -> Result DataValue).
Abbreviation SortField := (SortField Expr).

(** Values of one column: any two of them are comparable or null. *)
Definition column_comparable (column : list DataValue) : Prop :=
  forall v1 v2, v1 ∈ column -> v2 ∈ column ->
    is_null v1 = true \/ is_null v2 = true \/ partial_cmp v1 v2 <> None.

(** The values of a column other than nulls, compared with [partial_cmp]. *)
Lemma value_preorder column :
  column_comparable column ->
  preorder_on (fun v => v ∈ column /\ is_null v = false)
    (fun v1 v2 => default Eq (partial_cmp v1 v2)).
Proof.
  intros Hcol. constructor.
  - intros a b _ _. rewrite (partial_cmp_flip a b). now destruct (partial_cmp a b).
  - intros a b c [Ha Na] [Hb Nb] _ E. f_equal. apply partial_cmp_eq_l.
    destruct (Hcol a b Ha Hb) as [? | [? | Hn]]; try congruence.
    destruct (partial_cmp a b); cbn in E; congruence.
  - intros a b c _ _ _ E1 E2.
    destruct (partial_cmp a b) as [[]|] eqn:Eab; try discriminate.
    destruct (partial_cmp b c) as [[]|] eqn:Ebc; try discriminate.
    now rewrite (partial_cmp_trans a b c).
Qed.

Lemma field_preorder (f : SortField) column :
  column_comparable column -> preorder_on (fun v => v ∈ column) (field_cmp _ f).
Proof.
  intros Hcol.
  assert (Hv : preorder_on (fun v => v ∈ column /\ is_null v = false)
                 (fun v1 v2 => let o := default Eq (partial_cmp v1 v2) in
                               if asc _ f then o else CompOpp o)).
  { pose proof (value_preorder column Hcol) as Hp. destruct (asc _ f); [exact Hp |].
    now apply preorder_opp in Hp. }
  assert (Hn : forall v, is_null v = true -> v = DV.Null) by (intros []; discriminate || auto).
  unfold field_cmp. constructor.
  - intros a b Ha Hb. destruct (is_null a) eqn:Na, (is_null b) eqn:Nb.
    + rewrite (Hn a), (Hn b) by assumption. now destruct (asc _ f).
    + now destruct (nulls_first _ f).
    + now destruct (nulls_first _ f).
    + now apply (po_antisym _ _ Hv).
  - intros a b c Ha Hb Hc. destruct (is_null a) eqn:Na, (is_null b) eqn:Nb;
      [| destruct (nulls_first _ f); discriminate .. |].
    + now rewrite (Hn a), (Hn b) by assumption.
    + intros E. destruct (is_null c) eqn:Nc; [reflexivity |]. now apply (po_eq _ _ Hv).
  - intros a b c Ha Hb Hc. destruct (is_null a) eqn:Na, (is_null b) eqn:Nb, (is_null c) eqn:Nc;
      try (destruct (nulls_first _ f); cbn; congruence);
      try (rewrite (Hn a), (Hn b) by assumption; destruct (asc _ f); discriminate);
      try (rewrite (Hn b), (Hn c) by assumption; destruct (asc _ f); discriminate).
    now apply (po_trans _ _ Hv).
Qed.

Lemma fields_preorder (fields : list SortField) columns n :
  Forall (fun c => column_comparable c /\ length c = n) columns ->
  preorder_on (fun i => i < n)%nat (fields_cmp _ fields columns).
Proof.
  revert columns; induction fields as [|f fields IH]; intros columns Hc;
    [now constructor |].
  destruct columns as [|c columns]; [now constructor |].
  apply Forall_cons_1 in Hc as [[Hcomp Hlen] Hc].
  assert (Hin : forall i, (i < n)%nat -> nth i c DV.Null ∈ c)
    by (intros i Hi; apply list_elem_of_In, nth_In; lia).
  pose proof (field_preorder f c Hcomp) as Hf.
  apply (preorder_then (fun i => i < n)%nat
           (fun i j => field_cmp _ f (nth i c DV.Null) (nth j c DV.Null)) (fields_cmp _ fields columns));
    [| now apply IH].
  constructor.
  - intros i j Hi Hj. now apply (po_antisym _ _ Hf); auto.
  - intros i j k Hi Hj Hk. apply (po_eq _ _ Hf); auto.
  - intros i j k Hi Hj Hk. apply (po_trans _ _ Hf); auto.
Qed.

Lemma eval_values_length x (fields : list SortField) tuples columns :
  eval_values _ _ eval x fields tuples = Ok columns ->
  Forall (fun c => length c = length tuples) columns.
Proof.
  revert x columns; induction fields as [|f fields IH]; intros x columns H; cbn [eval_values] in H;
    inv_ok; [constructor |].
  destruct (_ && _); inv_ok. constructor; [| eauto].
  now apply try_map_length in Hok.
Qed.

(** The comparison sort is a stable sort by the comparator. *)
Lemma sorted_fast_ordered (fields : list SortField) tuples columns :
  eval_values _ _ eval 0 fields tuples = Ok columns -> Forall column_comparable columns ->
  exists out,
    sorted_fast _ _ eval fields tuples = Ok (map snd out)
    /\ out ≡ₚ zip (seq 0 (length tuples)) tuples
    /\ StronglySorted (fun a b => fields_cmp _ fields columns a.1 b.1 <> Gt) out
    /\ forall e, e ∈ zip (seq 0 (length tuples)) tuples ->
         filter (fun x => fields_cmp _ fields columns e.1 x.1 = Eq) out
         = filter (fun x => fields_cmp _ fields columns e.1 x.1 = Eq)
             (zip (seq 0 (length tuples)) tuples).
Proof.
  intros He Hcomp. unfold sorted_fast. rewrite He. cbn [result_bind].
  set (cmp := fun a b : nat * T => fields_cmp _ fields columns a.1 b.1).
  set (offsets := zip (seq 0 (length tuples)) tuples).
  assert (Hpre : preorder_on (fun a : nat * T => a.1 < length tuples)%nat cmp).
  { pose proof (eval_values_length _ _ _ _ He) as Hlen.
    pose proof (fields_preorder fields columns (length tuples)
                  (proj2 (Forall_and _ _) (conj Hcomp Hlen))) as Hp.
    constructor; unfold cmp; intros; [now apply (po_antisym _ _ Hp) | now apply (po_eq _ _ Hp)
                                     | now apply (po_trans _ _ Hp a.1 b.1)]. }
  assert (Hall : Forall (fun a : nat * T => a.1 < length tuples)%nat offsets).
  { apply Forall_forall. intros [i t] Hi. apply elem_of_zip_l in Hi. apply elem_of_seq in Hi. cbn. lia. }
  eexists. split; [reflexivity |]. split; [apply sort_by_perm |].
  split; [now apply (sort_by_sorted cmp _ _ Hpre) |].
  intros e Hin. apply (sort_by_stable cmp _ _ e Hpre); [| exact Hall].
  now apply (proj1 (Forall_forall _ _) Hall) in Hin.
Qed.

(** *** The order of the rows

    Stated on the values of the sort expressions, not on the comparator. *)

Variable v : Expr -> T -> DataValue.

(** [a] goes before [b] in one field: nulls go where the field places them, and
    other values ascend or descend. *)
Definition field_before (f : SortField) (a b : DataValue) : Prop :=
  match is_null a, is_null b with
  | true, true => False
  | true, false => nulls_first _ f = true
  | false, true => nulls_first _ f = false
  | false, false => partial_cmp a b = Some (if asc _ f then Lt else Gt)
  end.
Definition field_same (a b : DataValue) : Prop :=
  is_null a = true /\ is_null b = true \/ is_null a = false /\ is_null b = false /\ partial_cmp a b = Some Eq.

(** Rows by their first field that differs. *)
Fixpoint row_before (fields : list SortField) (t u : T) : Prop :=
  match fields with
  | [] => False
  | f :: fields =>
      field_before f (v (expr _ f) t) (v (expr _ f) u)
      \/ field_same (v (expr _ f) t) (v (expr _ f) u) /\ row_before fields t u
  end.
Definition row_same (fields : list SortField) (t u : T) : Prop :=
  Forall (fun f => field_same (v (expr _ f) t) (v (expr _ f) u)) fields.

Lemma field_cmp_before f a b : is_null a = true \/ is_null b = true \/ partial_cmp a b <> None ->
  match field_cmp _ f a b with Lt => field_before f a b | Eq => field_same a b | Gt => True end.
Proof.
  unfold field_cmp, field_before, field_same, nulls_ordering. intros Hc.
  assert (Hn : forall w : DataValue, is_null w = true -> w = DV.Null) by (intros []; discriminate || auto).
  destruct (is_null a) eqn:Na, (is_null b) eqn:Nb.
  - rewrite (Hn a), (Hn b) by assumption. destruct (asc _ f); cbn; auto.
  - now destruct (nulls_first _ f).
  - now destruct (nulls_first _ f).
  - destruct Hc as [? | [? | Hc]]; try discriminate.
    destruct (partial_cmp a b) as [[]|] eqn:E; [| | | congruence]; destruct (asc _ f); cbn; auto.
Qed.

(** The comparator on positions is this order on the rows. *)
Lemma fields_cmp_before fields tuples i j t u :
  tuples !! i = Some t -> tuples !! j = Some u ->
  Forall (fun f => column_comparable (map (v (expr _ f)) tuples)) fields ->
  match fields_cmp _ fields (map (fun f => map (v (expr _ f)) tuples) fields) i j with
  | Lt => row_before fields t u
  | Eq => row_same fields t u
  | Gt => True
  end.
Proof.
  intros Hi Hj Hc. induction Hc as [|f fields Hf _ IH]; cbn [map fields_cmp row_before]; [constructor |].
  assert (Hat : forall k w, tuples !! k = Some w -> nth k (map (v (expr _ f)) tuples) DV.Null = v (expr _ f) w
            /\ v (expr _ f) w ∈ map (v (expr _ f)) tuples).
  { intros k w Hk. split; [| now apply list_elem_of_fmap_2, list_elem_of_lookup_2 with k].
    rewrite nth_lookup, list_lookup_fmap, Hk. reflexivity. }
  destruct (Hat i t Hi) as [-> Hti], (Hat j u Hj) as [-> Huj].
  pose proof (field_cmp_before f _ _ (Hf _ _ Hti Huj)) as Hcmp.
  destruct (field_cmp _ f _ _); cbn [cmp_then]; [| now left | exact I].
  destruct (fields_cmp _ fields _ i j); [now constructor | now right | exact I].
Qed.

Lemma eval_values_columns x (fields : list SortField) tuples :
  (x + length fields <= length tuples)%nat \/ tuples = [] ->
  (forall f t, f ∈ fields -> t ∈ tuples -> eval (expr _ f) t = Ok (v (expr _ f) t)) ->
  eval_values _ _ eval x fields tuples = Ok (map (fun f => map (v (expr _ f)) tuples) fields).
Proof.
  revert x. induction fields as [|f fields IH]; intros x Hl He; cbn [eval_values map length] in *; [reflexivity |].
  assert (negb (length tuples =? 0)%nat && (length tuples <=? x)%nat = false) as ->.
  { destruct Hl as [Hl | ->]; [| reflexivity]. apply andb_false_iff. right. apply Nat.leb_gt. lia. }
  rewrite (try_map_ok _ (v (expr _ f))) by (intros t Ht; apply He; [apply list_elem_of_here | exact Ht]).
  cbn [result_bind]. rewrite IH; [reflexivity | |].
  - destruct Hl as [Hl | Hl]; [left; lia | now right].
  - intros g t Hg. apply He. now apply list_elem_of_further.
Qed.

(** Sorted and stable by a comparator: strictly sorted with the positions. *)
Lemma sorted_with_positions (cmp : nat * T -> nat * T -> comparison) out :
  (forall e, e ∈ out -> cmp e e = Eq) -> StronglySorted (fun a b => cmp a b <> Gt) out ->
  (forall e, e ∈ out -> StronglySorted (fun a b : nat * T => a.1 < b.1)%nat (filter (fun x => cmp e x = Eq) out)) ->
  StronglySorted (fun a b => cmp a b = Lt \/ cmp a b = Eq /\ (a.1 < b.1)%nat) out.
Proof.
  intros Hrefl. induction 1 as [|x out Hs IH Hx]; intros Hst; [constructor |]. constructor.
  - apply IH; [intros e He; apply Hrefl; now apply list_elem_of_further |].
    intros e He. specialize (Hst e (list_elem_of_further _ _ _ He)). rewrite filter_cons in Hst.
    destruct (decide _); [now inversion Hst | exact Hst].
  - specialize (Hst x (list_elem_of_here _ _)). rewrite filter_cons_True in Hst by apply Hrefl, list_elem_of_here.
    inversion Hst as [|? ? _ Hlt]; subst. rewrite Forall_forall in Hx, Hlt |- *. intros y Hy.
    specialize (Hx y Hy). destruct (cmp x y) eqn:E; [right | now left | congruence].
    split; [reflexivity | apply Hlt]. now apply list_elem_of_filter.
Qed.

Lemma offsets_sorted s (tuples : list T) :
  StronglySorted (fun a b : nat * T => a.1 < b.1)%nat (zip (seq s (length tuples)) tuples).
Proof.
  revert s. induction tuples as [|t tuples IH]; intros s; cbn; constructor; [apply IH |].
  apply Forall_forall. intros [i u] Hi. apply elem_of_zip_l, elem_of_seq in Hi. cbn. lia.
Qed.

Lemma offsets_lookup s (tuples : list T) i t : (i, t) ∈ zip (seq s (length tuples)) tuples -> tuples !! (i - s)%nat = Some t.
Proof.
  revert s. induction tuples as [|u tuples IH]; intros s; cbn [length seq zip zip_with]; [intros H; now apply elem_of_nil in H |].
  intros [[= -> ->] | H]%elem_of_cons; [now rewrite Nat.sub_diag |].
  pose proof (elem_of_zip_l _ _ _ _ H) as Hi. apply elem_of_seq in Hi. apply IH in H.
  replace (i - s)%nat with (S (i - S s)) by lia. exact H.
Qed.

(** C25. The comparison sort is a stable sort by the sort fields: when the sort
    expressions evaluate, the values of each are null or comparable, and there
    are at least as many tuples as fields (or none), the result is the tuples of
    a permutation of the numbered input in which each one goes before those that
    follow it: by the first field whose values differ, ascending or descending and
    nulls first or last as the field says, and by their old positions when all
    fields agree.  With fewer tuples than fields the code panics. *)
Theorem sorted_fast_stable (fields : list SortField) tuples :
  (length fields <= length tuples)%nat \/ tuples = [] ->
  (forall f t, f ∈ fields -> t ∈ tuples -> eval (expr _ f) t = Ok (v (expr _ f) t)) ->
  Forall (fun f => column_comparable (map (v (expr _ f)) tuples)) fields ->
  exists out,
    sorted_fast _ _ eval fields tuples = Ok (map snd out)
    /\ out ≡ₚ zip (seq 0 (length tuples)) tuples
    /\ StronglySorted (fun a b => row_before fields a.2 b.2 \/ row_same fields a.2 b.2 /\ (a.1 < b.1)%nat) out.
Proof.
  intros Hlen He Hc. pose proof (eval_values_columns 0 fields tuples Hlen He) as Hcols.
  assert (Hcc : Forall column_comparable (map (fun f => map (v (expr _ f)) tuples) fields)) by now apply Forall_map.
  destruct (sorted_fast_ordered fields tuples _ Hcols Hcc) as (out & Hout & Hperm & Hsort & Hst).
  exists out. split; [exact Hout |]. split; [exact Hperm |].
  set (cmp := fun a b : nat * T => fields_cmp _ fields (map (fun f => map (v (expr _ f)) tuples) fields) a.1 b.1) in *.
  assert (Hp : preorder_on (fun i => i < length tuples)%nat
                 (fields_cmp _ fields (map (fun f => map (v (expr _ f)) tuples) fields))).
  { apply fields_preorder, Forall_and. split; [exact Hcc | exact (eval_values_length _ _ _ _ Hcols)]. }
  assert (Hin : forall e, e ∈ out -> tuples !! e.1 = Some e.2).
  { intros [i t] Hi. rewrite Hperm in Hi. apply offsets_lookup in Hi. now rewrite Nat.sub_0_r in Hi. }
  assert (Hstrict : StronglySorted (fun a b => cmp a b = Lt \/ cmp a b = Eq /\ (a.1 < b.1)%nat) out).
  { apply sorted_with_positions; [| exact Hsort |].
    - intros e Hi%Hin%lookup_lt_Some. pose proof (po_antisym _ _ Hp e.1 e.1 Hi Hi) as Hr. unfold cmp.
      destruct (fields_cmp _ _ _ e.1 e.1); congruence || discriminate.
    - intros e Hi. specialize (Hst e). rewrite <- Hperm in Hst at 1.
      eapply eq_ind_r; [| exact (Hst Hi)]. apply StronglySorted_filter, offsets_sorted. }
  revert Hstrict. apply StronglySorted_ext. intros a b Ha Hb Hab.
  pose proof (fields_cmp_before fields tuples a.1 b.1 a.2 b.2 (Hin a Ha) (Hin b Hb) Hc) as Hr.
  destruct Hab as [E | [E Hlt]]; unfold cmp in E; rewrite E in Hr; auto.
Qed.

(** The comparison sort panics when there are more sort fields than tuples:
    the table of evaluated values has a row per tuple but is indexed by sort
    field, so ordering a single row by two columns aborts. *)
Theorem sorted_fast_panics (fields : list SortField) tuples :
  (forall e t, eval e t = Ok (v e t)) -> (0 < length tuples < length fields)%nat ->
  sorted_fast _ _ eval fields tuples = Panic.
Proof.
  intros Hv [H0 Hlt]. unfold sorted_fast.
  assert (Hp : forall x, (x <= length tuples < x + length fields)%nat ->
                         eval_values _ _ eval x fields tuples = Panic); [| now rewrite Hp by lia].
  clear Hlt. induction fields as [|f fields IH]; intros x Hx; cbn [eval_values length] in *; [lia |].
  rewrite (proj2 (Nat.eqb_neq _ _)) by lia. cbn [negb andb].
  destruct (length tuples <=? x)%nat eqn:E; [reflexivity |]. apply Nat.leb_gt in E.
  rewrite (try_map_ok _ (v (expr _ f))) by auto. cbn [result_bind].
  now rewrite IH by lia.
Qed.
End FastProof.

(** ** Where the radix keys disagree with the comparison *)

Section RadixKeys.
Context {F : Foreign}.
Abbreviation value_field nf := (mk_sort_field unit tt true nf).
Abbreviation value_key nf v := (sort_field_key unit DataValue (fun _ => Ok) (value_field nf) v).

(** Ascending with nulls last, the largest integer sorts after null; and a
    string of eight characters sorts before a shorter one that precedes it. *)
Lemma radix_nulls_last_misplaced :
  exists knull kmax, value_key false DV.Null = Ok knull
    /\ value_key false (DV.Int32 2147483647) = Ok kmax
    /\ lex_cmp knull kmax = Lt
    /\ field_cmp unit (value_field false) DV.Null (DV.Int32 2147483647) = Gt.
Proof. do 2 eexists. repeat split; reflexivity. Qed.

Lemma radix_strings_misordered :
  let z8 := DV.Utf8 (repeat 122 8) (Utf8Variable None) Characters in
  let a1 := DV.Utf8 [97] (Utf8Variable None) Characters in
  exists kz ka, value_key true z8 = Ok kz /\ value_key true a1 = Ok ka
    /\ lex_cmp kz ka = Lt /\ field_cmp unit (value_field true) z8 a1 = Gt.
Proof. do 2 eexists. repeat split; reflexivity. Qed.
End RadixKeys.

(** ** Witnesses *)

Section Witnesses.
#[local] Existing Instance RefForeign.ref_foreign.
#[local] Existing Instance RefForeign.ref_laws.

Lemma radix_sort_stable_witness :
  exists out : list (nat * bytes),
    radix_sort [(0%nat, [2; 1]); (1%nat, [1]); (2%nat, [2; 1]); (3%nat, [0; 9; 9])] = map fst out
    /\ out ≡ₚ [(0%nat, [2; 1]); (1%nat, [1]); (2%nat, [2; 1]); (3%nat, [0; 9; 9])]
    /\ StronglySorted (fun x y => lex_cmp (padded 3 x) (padded 3 y) <> Gt) out
    /\ forall k, filter (fun x => padded 3 x = k) out
               = filter (fun x => padded 3 x = k)
                   [(0%nat, [2; 1]); (1%nat, [1]); (2%nat, [2; 1]); (3%nat, [0; 9; 9])].
Proof.
  apply (radix_sort_stable [(0%nat, [2; 1]); (1%nat, [1]); (2%nat, [2; 1]); (3%nat, [0; 9; 9])]).
  apply Forall_forall. repeat constructor; unfold is_byte; cbn; lia.
Defined.

Lemma sorted_fast_stable_witness :
  exists out : list (nat * DataValue),
    sorted_fast unit DataValue (fun _ => Ok) [mk_sort_field unit tt true true]
      [DV.Int32 5; DV.Null; DV.Int32 3] = Ok (map snd out)
    /\ out ≡ₚ zip (seq 0 3) [DV.Int32 5; DV.Null; DV.Int32 3]
    /\ StronglySorted (fun a b => row_before (fun _ w => w) [mk_sort_field unit tt true true] a.2 b.2
         \/ row_same (fun _ w => w) [mk_sort_field unit tt true true] a.2 b.2 /\ (a.1 < b.1)%nat) out.
Proof.
  apply (sorted_fast_stable (fun _ => Ok) (fun _ w => w) [mk_sort_field unit tt true true]
           [DV.Int32 5; DV.Null; DV.Int32 3]); [left; cbn; lia | reflexivity |].
  constructor; [| constructor]. intros v1 v2 H1 H2.
  repeat first [apply elem_of_cons in H1 as [-> | H1] | apply elem_of_nil in H1 as []];
    repeat first [apply elem_of_cons in H2 as [-> | H2] | apply elem_of_nil in H2 as []];
    cbn; first [left; reflexivity | right; left; reflexivity | right; right; discriminate].
Defined.

Lemma sorted_fast_panics_witness :
  sorted_fast unit DataValue (fun _ => Ok)
    [mk_sort_field unit tt true true; mk_sort_field unit tt false true] [DV.Int32 5] = Panic.
Proof.
  apply (sorted_fast_panics (fun _ => Ok) (fun _ t => t)); [reflexivity | cbn; lia].
Defined.
End Witnesses.
