(* ===== verification/RangeDetacher.v ===== *)
(** * Ranges of an indexed column

    Merging the ranges a WHERE clause imposes on one column
    (src/src/expression/range_detacher.rs): the comparison of bounds, the merge of
    two ranges under AND and OR, the merge of sorted lists of ranges, and the
    ranges of a composite index.  Detaching a range from an expression is not
    modelled here.

    [merge_binary] and [extract_merge_ranges] call each other, and the recursion
    need not end ([or_merge_diverges]): they take fuel, [None] is running out of
    it. *)

From Stdlib Require Import Sorting.Sorted.
From S2P Require Import Prelude Bytes Types LogicalTypes Values.

Module Range.
Section Range.
Context {F : Foreign}.
#[local] Set Warnings "-register-all".
Inductive Range :=
| Scope (min max : Bound DataValue)
| Eq (v : DataValue)
| Dummy
| SortedRanges (ranges : list Range).
End Range.
Arguments Range F : clear implicits.
End Range.

Section Merge.
Context {F : Foreign}.
Abbreviation Range := (Range.Range F).

(** [RangeDetacher::bound_compared]. *)
Definition is_min_then_reverse (is_min : bool) (order : comparison) : comparison :=
  if is_min then order else CompOpp order.

Definition bound_compared (left_bound right_bound : Bound DataValue) (is_min : bool)
  : option comparison :=
  match left_bound, right_bound with
  | Bound.Unbounded, Bound.Unbounded => Some Eq
  | Bound.Unbounded, _ => Some (is_min_then_reverse is_min Lt)
  | _, Bound.Unbounded => Some (is_min_then_reverse is_min Gt)
  | Bound.Included l, Bound.Included r => partial_cmp l r
  | Bound.Included l, Bound.Excluded r =>
      option_map (fun order => cmp_then order (is_min_then_reverse is_min Lt))
        (partial_cmp l r)
  | Bound.Excluded l, Bound.Excluded r => partial_cmp l r
  | Bound.Excluded l, Bound.Included r =>
      option_map (fun order => cmp_then order (is_min_then_reverse is_min Gt))
        (partial_cmp l r)
  end.

Definition cmp_is (o : option comparison) (test : comparison -> bool) : bool :=
  match o with Some c => test c | None => false end.
Definition is_unbounded (b : Bound DataValue) : bool :=
  match b with Bound.Unbounded => true | _ => false end.
Definition is_excluded (b : Bound DataValue) : bool :=
  match b with Bound.Excluded _ => true | _ => false end.

(** The range between two bounds that compare equal. *)
Definition equal_bounds (min : Bound DataValue) : Range :=
  match min with
  | Bound.Included val => Range.Eq val
  | Bound.Excluded _ => Range.Dummy
  | Bound.Unbounded => Range.Scope Bound.Unbounded Bound.Unbounded
  end.

Definition or_scope_merge (left_min left_max right_min right_max : Bound DataValue) : Range :=
  if cmp_is (bound_compared left_max right_min false) is_lt
     || cmp_is (bound_compared right_max left_min false) is_lt
  then
    if cmp_is (bound_compared left_min right_min true) is_lt
    then Range.SortedRanges [Range.Scope left_min left_max; Range.Scope right_min right_max]
    else Range.SortedRanges [Range.Scope right_min right_max; Range.Scope left_min left_max]
  else
    let min := if cmp_is (bound_compared left_min right_min true) is_lt
               then left_min else right_min in
    let max := if cmp_is (bound_compared left_max right_max false) is_gt
               then left_max else right_max in
    match bound_compared min max (is_unbounded min) with
    | Some Eq => equal_bounds min
    | _ => Range.Scope min max
    end.

Definition and_scope_merge (left_min left_max right_min right_max : Bound DataValue) : Range :=
  let min := if cmp_is (bound_compared left_min right_min true) is_gt
             then left_min else right_min in
  let max := if cmp_is (bound_compared left_max right_max false) is_lt
             then left_max else right_max in
  match bound_compared min max (is_unbounded min) with
  | Some Gt => Range.Dummy
  | Some Eq => equal_bounds min
  | _ => Range.Scope min max
  end.

(** [process_exclude_bound_with_eq] of [merge_binary], which calls it for an OR. *)
Definition process_exclude_bound_with_eq (bound : Bound DataValue) (eq : DataValue)
  : Bound DataValue :=
  match bound with
  | Bound.Excluded bound_val =>
      if dv_eq bound_val eq then Bound.Included bound_val else Bound.Excluded bound_val
  | _ => bound
  end.

(** The arms of [merge_binary] for a scope and a value. *)
Definition merge_scope_eq (op : BinaryOperator) (min max : Bound DataValue) (eq : DataValue)
  : option Range :=
  match op with
  | BinaryOp.And =>
      let is_less :=
        is_lt (default (if is_unbounded min then Gt else Lt)
                 (bound_compared (Bound.Included eq) min true)) in
      if is_less || cmp_is (bound_compared (Bound.Included eq) max false) is_gt
      then Some Range.Dummy
      else Some (Range.Eq eq)
  | BinaryOp.Or =>
      if is_null eq then
        Some (if is_excluded min then Range.SortedRanges [Range.Eq eq; Range.Scope min max]
              else Range.Scope min max)
      else
        Some (match bound_compared (Bound.Excluded eq) min true with
              | Some Lt => Range.SortedRanges [Range.Eq eq; Range.Scope min max]
              | Some Eq => Range.Scope (process_exclude_bound_with_eq min eq) max
              | _ =>
                  match bound_compared (Bound.Excluded eq) max false with
                  | Some Gt => Range.SortedRanges [Range.Scope min max; Range.Eq eq]
                  | Some Eq => Range.Scope min (process_exclude_bound_with_eq max eq)
                  | _ => Range.Scope min max
                  end
              end)
  | _ => None
  end.

(** The arms for two values. *)
Definition merge_eq_eq (op : BinaryOperator) (left_val right_val : DataValue) : option Range :=
  match op with
  | BinaryOp.And =>
      if dv_eq left_val right_val then Some (Range.Eq left_val) else Some Range.Dummy
  | BinaryOp.Or =>
      if dv_eq left_val right_val then Some (Range.Eq left_val)
      else if cmp_is (partial_cmp left_val right_val) is_gt
      then Some (Range.SortedRanges [Range.Eq right_val; Range.Eq left_val])
      else Some (Range.SortedRanges [Range.Eq left_val; Range.Eq right_val])
  | _ => None
  end.

(** The arms of [merge_binary] that involve no sorted ranges;
    [extract_merge_ranges] calls [merge_binary] only there. *)
Definition merge_leaf (op : BinaryOperator) (left_binary right_binary : Range) : option Range :=
  match left_binary, right_binary with
  | Range.Dummy, binary | binary, Range.Dummy =>
      match op with
      | BinaryOp.And => Some Range.Dummy
      | BinaryOp.Or => Some binary
      | _ => None
      end
  | Range.Scope left_min left_max, Range.Scope right_min right_max =>
      match op with
      | BinaryOp.And => Some (and_scope_merge left_min left_max right_min right_max)
      | BinaryOp.Or => Some (or_scope_merge left_min left_max right_min right_max)
      | _ => None
      end
  | Range.Scope min max, Range.Eq eq | Range.Eq eq, Range.Scope min max =>
      merge_scope_eq op min max eq
  | Range.Eq left_val, Range.Eq right_val => merge_eq_eq op left_val right_val
  | _, _ => None
  end.

Definition ranges2range (merged_ranges : list Range) : Range :=
  match merged_ranges with
  | [] => Range.Dummy
  | [range] => range
  | _ => Range.SortedRanges merged_ranges
  end.

(** [Vec::insert] and [Vec::remove] at a position inside the vector. *)
Definition vec_insert (idx : nat) (range : Range) (ranges : list Range) : list Range :=
  take idx ranges ++ range :: drop idx ranges.
Definition vec_remove (idx : nat) (ranges : list Range) : list Range :=
  take idx ranges ++ drop (S idx) ranges.

Definition op_is_or (op : BinaryOperator) : bool :=
  match op with BinaryOp.Or => true | _ => false end.

(** What one iteration of the loop of [extract_merge_ranges] does: return,
    skip a range, or go on with a new [binary] and the range removed. *)
Inductive merge_step :=
| Insert
| Skip
| Merge (binary : option Range).

Definition scope_scope_step (op : BinaryOperator) (l_min l_max r_min r_max : Bound DataValue)
  : merge_step :=
  if cmp_is (bound_compared l_max r_min false) is_lt then Insert
  else if cmp_is (bound_compared l_min r_max true) is_gt then Skip
  else Merge (merge_leaf op (Range.Scope l_min l_max) (Range.Scope r_min r_max)).

Definition scope_eq_step (op : BinaryOperator) (l_min l_max : Bound DataValue) (r_val : DataValue)
  : merge_step :=
  let r_bound := Bound.Included r_val in
  if cmp_is (bound_compared l_max r_bound false) is_lt then Insert
  else if default (op_is_or op) (option_map is_gt (bound_compared l_min r_bound true)) then Skip
  else if is_null r_val then Merge (Some (Range.Scope l_min l_max))
  else Merge (merge_leaf op (Range.Scope l_min l_max) (Range.Eq r_val)).

Definition eq_eq_step (op : BinaryOperator) (l_val r_val : DataValue) : merge_step :=
  if cmp_is (partial_cmp l_val r_val) is_lt then Insert
  else if cmp_is (partial_cmp l_val r_val) is_gt then Skip
  else Merge (merge_leaf op (Range.Eq l_val) (Range.Eq r_val)).

Definition eq_scope_step (op : BinaryOperator) (l_val : DataValue) (r_min r_max : Bound DataValue)
  : merge_step :=
  let l_bound := Bound.Included l_val in
  if default (op_is_or op) (option_map is_lt (bound_compared l_bound r_min false)) then Insert
  else if cmp_is (bound_compared l_bound r_max true) is_gt then Skip
  else if is_null l_val then Merge (Some (Range.Scope r_min r_max))
  else Merge (merge_leaf op (Range.Eq l_val) (Range.Scope r_min r_max)).

(** [RangeDetacher::extract_merge_ranges]; the second result is [*idx] on
    return.  The last arm is [unreachable!] in a debug build; this is the release
    build. *)
Fixpoint extract_merge_ranges (fuel : nat) (op : BinaryOperator) (binary : option Range)
    (ranges : list Range) (idx : nat) : option (list Range * nat) :=
  match fuel with
  | O => None
  | S fuel' =>
      let go := extract_merge_ranges fuel' op in
      let run (b : Range) (step : merge_step) :=
        match step with
        | Insert => Some (vec_insert idx b ranges, idx)
        | Skip => go (Some b) ranges (S idx)
        | Merge binary' => go binary' (vec_remove idx ranges) idx
        end in
      match ranges !! idx with
      | None =>
          Some (match binary with Some range => ranges ++ [range] | None => ranges end, idx)
      | Some r_range =>
          match binary, r_range with
          | Some (Range.Scope l_min l_max as b), Range.Scope r_min r_max =>
              run b (scope_scope_step op l_min l_max r_min r_max)
          | Some (Range.Scope l_min l_max as b), Range.Eq r_val =>
              run b (scope_eq_step op l_min l_max r_val)
          | Some (Range.Eq l_val as b), Range.Eq r_val => run b (eq_eq_step op l_val r_val)
          | Some (Range.Eq l_val as b), Range.Scope r_min r_max =>
              run b (eq_scope_step op l_val r_min r_max)
          | Some Range.Dummy, _ =>
              match op with
              | BinaryOp.And => Some ([], idx)
              | BinaryOp.Or => go (Some r_range) (vec_remove idx ranges) idx
              | _ => go None ranges idx
              end
          | Some (Range.SortedRanges l_ranges), r_range =>
              match go (Some r_range) l_ranges 0%nat with
              | Some (out, _) => Some (out, idx)
              | None => None
              end
          | None, _ => Some (ranges, idx)
          | _, _ => Some ([], idx)
          end
      end
  end.

(** The loop over the left ranges of two sorted lists, which shares [idx]. *)
Fixpoint merge_all (fuel : nat) (op : BinaryOperator) (left_ranges right_ranges : list Range)
    (idx : nat) : option (list Range) :=
  match left_ranges with
  | [] => Some right_ranges
  | left_range :: left_ranges' =>
      match extract_merge_ranges fuel op (Some left_range) right_ranges idx with
      | Some (right_ranges', idx') => merge_all fuel op left_ranges' right_ranges' idx'
      | None => None
      end
  end.

(** [RangeDetacher::merge_binary]; the outer [option] is fuel, the inner one the
    code's. *)
Definition merge_binary (fuel : nat) (op : BinaryOperator) (left_binary right_binary : Range)
  : option (option Range) :=
  match left_binary, right_binary with
  | Range.Dummy, _ | _, Range.Dummy => Some (merge_leaf op left_binary right_binary)
  | Range.SortedRanges left_ranges, Range.SortedRanges right_ranges =>
      option_map (fun out => Some (ranges2range out)) (merge_all fuel op left_ranges right_ranges 0)
  | binary, Range.SortedRanges ranges | Range.SortedRanges ranges, binary =>
      option_map (fun out => Some (ranges2range out.1))
        (extract_merge_ranges fuel op (Some binary) ranges 0)
  | _, _ => Some (merge_leaf op left_binary right_binary)
  end.
End Merge.

(** ** Composite indexes *)

Section Combining.
Context {F : Foreign}.
Abbreviation Range := (Range.Range F).

Section TreeNode.
#[local] Set Warnings "-register-all".
Inductive TreeNode (T : Type) := mk_tree_node (value : option T) (children : list (TreeNode T)).
End TreeNode.
Arguments mk_tree_node {T} value children.

(** [TreeNode::enumeration] of a node whose value was taken, as it is for the
    root and for every recursive call. *)
Fixpoint enumeration {T} (path : list T) (node : TreeNode T) : list (list T) :=
  match node with
  | mk_tree_node _ [] => [path]
  | mk_tree_node _ children =>
      concat (map (fun child =>
        match child with
        | mk_tree_node (Some val) _ => enumeration (path ++ [val]) child
        | mk_tree_node None _ => enumeration path child
        end) children)
  end.

(** [build_subtree]: [subtree] is [build_tree(ranges, current_level + 1)] and
    [is_last] tells [current_level == ranges.len() - 1]. *)
Definition build_subtree (subtree : option (TreeNode DataValue)) (is_last : bool) (range : Range)
  : option (TreeNode DataValue) :=
  match range with
  | Range.Eq value =>
      match subtree with
      | None => None
      | Some (mk_tree_node _ children as subtree) =>
          Some (mk_tree_node (Some value)
                  (match children with [] => if is_last then [subtree] else [] | _ => [subtree] end))
      end
  | _ => None
  end.

(** [build_tree] on the ranges from [current_level] on. *)
Fixpoint build_tree (ranges : list Range) : option (TreeNode DataValue) :=
  match ranges with
  | [] => Some (mk_tree_node None [])
  | level :: ranges' =>
      let subtree := build_subtree (build_tree ranges') (length ranges' =? 0)%nat in
      option_map (mk_tree_node None)
        (mapM subtree (match level with
                       | Range.SortedRanges child_ranges => child_ranges
                       | range => [range]
                       end))
  end.

Fixpoint only_eq (range : Range) : bool :=
  match range with
  | Range.Eq _ => true
  | Range.SortedRanges ranges => forallb only_eq ranges
  | _ => false
  end.

Definition merge_value (tuple : list DataValue) (is_upper : bool) (value : DataValue) : DataValue :=
  DV.Tuple (tuple ++ [value]) is_upper.

Definition merge_value_on_bound (tuple : list DataValue) (is_upper : bool)
    (bound : Bound DataValue) : Bound DataValue :=
  match bound with
  | Bound.Included v => Bound.Included (merge_value tuple is_upper v)
  | Bound.Excluded v => Bound.Excluded (merge_value tuple is_upper v)
  | Bound.Unbounded =>
      match tuple with
      | [] => Bound.Unbounded
      | _ => Bound.Excluded (DV.Tuple tuple is_upper)
      end
  end.

(** The ranges [collect_tuple_range] pushes. *)
Fixpoint collect_tuple_range (tuple : list DataValue) (range : Range) : list Range :=
  match range with
  | Range.Scope min max =>
      [Range.Scope (merge_value_on_bound tuple false min) (merge_value_on_bound tuple true max)]
  | Range.Eq v => [Range.Eq (merge_value tuple false v)]
  | Range.Dummy => [Range.Dummy]
  | Range.SortedRanges ranges => concat (map (collect_tuple_range tuple) ranges)
  end.

Definition combining_eqs (self : Range) (eqs : list Range) : option Range :=
  match build_tree eqs with
  | None => None
  | Some node =>
      Some (ranges2range (concat (map (fun tuple => collect_tuple_range tuple self)
                                    (enumeration [] node))))
  end.
End Combining.

(** ** The values of a range *)

Section Semantics.
Context {F : Foreign}.
Abbreviation Range := (Range.Range F).

Definition above (min : Bound DataValue) (v : DataValue) : bool :=
  match min with
  | Bound.Unbounded => true
  | Bound.Included m => cmp_is (partial_cmp m v) is_le
  | Bound.Excluded m => cmp_is (partial_cmp m v) is_lt
  end.

(** A null sorts below every value of its column. *)
Definition below (max : Bound DataValue) (v : DataValue) : bool :=
  match max with
  | Bound.Unbounded => true
  | Bound.Included m => is_null v || cmp_is (partial_cmp m v) is_ge
  | Bound.Excluded m => is_null v || cmp_is (partial_cmp m v) is_gt
  end.

(** The column values a scan of the range visits. *)
Fixpoint contains (range : Range) (v : DataValue) : bool :=
  match range with
  | Range.Scope min max => above min v && below max v
  | Range.Eq e => dv_eq e v
  | Range.Dummy => false
  | Range.SortedRanges ranges => existsb (fun r => contains r v) ranges
  end.

Definition bound_values (b : Bound DataValue) : list DataValue :=
  match b with Bound.Included v | Bound.Excluded v => [v] | Bound.Unbounded => [] end.

(** The constants of a range. *)
Fixpoint range_values (range : Range) : list DataValue :=
  match range with
  | Range.Scope min max => bound_values min ++ bound_values max
  | Range.Eq e => [e]
  | Range.Dummy => []
  | Range.SortedRanges ranges => concat (map range_values ranges)
  end.

(** Values of one column: none is null and any two are comparable. *)
Definition comparable (vs : list DataValue) : Prop :=
  (forall a, a ∈ vs -> is_null a = false)
  /\ (forall a b, a ∈ vs -> b ∈ vs -> partial_cmp a b <> None).
End Semantics.

(** ** Ranks: finitely many comparable values behave like integers *)

Section Rank.
Context {F : Foreign} {L : ForeignLaws F}.

Definition rank (vs : list DataValue) (v : DataValue) : Z :=
  Z.of_nat (length (filter (fun x => partial_cmp x v = Some Lt) vs)).

Lemma partial_cmp_refl v w : partial_cmp v w <> None -> partial_cmp v v = Some Eq.
Proof.
  intros H. apply partial_cmp_eqb; [| apply dv_eq_refl].
  intros us up ->. now destruct w.
Qed.

Lemma partial_cmp_eq_r a b c : partial_cmp a b = Some Eq -> partial_cmp c a = partial_cmp c b.
Proof.
  intros H. rewrite (partial_cmp_flip a c), (partial_cmp_flip b c).
  now rewrite (partial_cmp_eq_l a b c H).
Qed.

Lemma rank_lt vs a b : a ∈ vs -> partial_cmp a b = Some Lt -> rank vs a < rank vs b.
Proof.
  intros Ha E. unfold rank. apply inj_lt.
  assert (Hsub : filter (fun x => partial_cmp x a = Some Lt) vs
                 = filter (fun x => partial_cmp x a = Some Lt)
                     (filter (fun x => partial_cmp x b = Some Lt) vs)).
  { clear Ha. induction vs as [|x vs IH]; [reflexivity |]. rewrite !filter_cons.
    destruct (decide (partial_cmp x a = Some Lt)) as [Hx | Hx].
    - rewrite decide_True by eauto using partial_cmp_trans.
      rewrite filter_cons, decide_True by assumption. now rewrite IH.
    - destruct (decide (partial_cmp x b = Some Lt));
        [rewrite filter_cons, decide_False by assumption |]; exact IH. }
  rewrite Hsub. apply (length_filter_lt _ _ a).
  - apply list_elem_of_filter. now split.
  - rewrite (partial_cmp_refl a b) by congruence. discriminate.
Qed.

Lemma rank_spec vs a b :
  comparable vs -> a ∈ vs -> b ∈ vs -> partial_cmp a b = Some (rank vs a ?= rank vs b).
Proof.
  intros [_ Hc] Ha Hb. destruct (partial_cmp a b) as [[]|] eqn:E; [| | | now destruct (Hc a b Ha Hb)].
  - f_equal. symmetry. apply Z.compare_eq_iff. unfold rank. do 2 f_equal.
    apply list_filter_iff. intros x. now rewrite (partial_cmp_eq_r a b x E).
  - f_equal. symmetry. apply Z.compare_lt_iff. now apply rank_lt.
  - f_equal. symmetry. apply Z.compare_gt_iff. apply rank_lt; [assumption |].
    rewrite (partial_cmp_flip a b), E. reflexivity.
Qed.

Lemma rank_eq vs a b :
  comparable vs -> a ∈ vs -> b ∈ vs -> dv_eq a b = (rank vs a =? rank vs b).
Proof.
  intros Hc Ha Hb.
  assert (Ht : forall us up, a <> DV.Tuple us up).
  { intros us up ->. destruct Hc as [_ Hc]. now apply (Hc _ b Ha Hb). }
  apply eq_true_iff_eq. rewrite <- (partial_cmp_eqb a b Ht), (rank_spec vs a b Hc Ha Hb), Z.eqb_eq.
  rewrite (inj_iff Some). apply Z.compare_eq_iff.
Qed.
End Rank.

(** ** Merging two scopes *)

(** Scopes that are not crossed, as merging produces them. *)
Definition scope_ok {F : Foreign} (min max : Bound DataValue) : bool :=
  is_unbounded min
  || match bound_compared min max false with
     | Some Lt => true
     | Some Eq => negb (is_excluded min)
     | _ => false
     end.

Fixpoint range_ok {F : Foreign} (range : Range.Range F) : bool :=
  match range with
  | Range.Scope min max => scope_ok min max
  | Range.Eq v => true
  | Range.Dummy => true
  | Range.SortedRanges ranges => forallb range_ok ranges
  end.

Section Scopes.
Context {F : Foreign} {L : ForeignLaws F}.
Variable vs : list DataValue.
Hypothesis Hvs : comparable vs.
Abbreviation bound_in b := (Forall (fun x => x ∈ vs) (bound_values b)).

Lemma comparable_not_null v : v ∈ vs -> is_null v = false.
Proof. apply Hvs. Qed.

(** Decide a fact on bounds by comparing the ranks of their values. *)
Ltac by_rank :=
  repeat match goal with b : Bound _ |- _ => destruct b as [?|?|] end;
  cbn [bound_values] in *;
  repeat match goal with
  | H : Forall _ [_] |- _ => apply Forall_cons_1 in H as [? _]
  | H : Forall _ [] |- _ => clear H
  end;
  cbn [contains existsb] in *;
  unfold scope_ok, above, below, equal_bounds, bound_compared, cmp_is, option_map,
    is_min_then_reverse, is_unbounded, is_excluded, CompOpp, is_le, is_ge, is_lt, is_gt, cmp_then in *;
  repeat (cbn [contains existsb range_ok forallb scope_ok above below bound_compared is_unbounded is_excluded cmp_is
    option_map is_min_then_reverse CompOpp cmp_then is_le is_ge is_lt is_gt negb orb andb] in *; match goal with
  | H : context [partial_cmp ?a ?b] |- _ => rewrite (rank_spec vs a b) in H by assumption
  | |- context [partial_cmp ?a ?b] => rewrite (rank_spec vs a b) by assumption
  | |- context [dv_eq ?a ?b] => rewrite (rank_eq vs a b) by assumption
  | |- context [is_null ?a] => rewrite (comparable_not_null a) by assumption
  | |- context [?a ?= ?b] => destruct (Z.compare_spec a b)
  | H : context [?a ?= ?b] |- _ => destruct (Z.compare_spec a b)
  | |- context [?a =? ?b] => destruct (Z.eqb_spec a b)
  end); try reflexivity; try congruence; try lia.

Definition tighter_min (l r : Bound DataValue) : Bound DataValue :=
  if cmp_is (bound_compared l r true) is_gt then l else r.
Definition tighter_max (l r : Bound DataValue) : Bound DataValue :=
  if cmp_is (bound_compared l r false) is_lt then l else r.
Definition looser_min (l r : Bound DataValue) : Bound DataValue :=
  if cmp_is (bound_compared l r true) is_lt then l else r.
Definition looser_max (l r : Bound DataValue) : Bound DataValue :=
  if cmp_is (bound_compared l r false) is_gt then l else r.

Lemma above_tighter l r v :
  bound_in l -> bound_in r -> v ∈ vs -> above (tighter_min l r) v = above l v && above r v.
Proof. unfold tighter_min. intros. by_rank. Qed.
Lemma below_tighter l r v :
  bound_in l -> bound_in r -> v ∈ vs -> below (tighter_max l r) v = below l v && below r v.
Proof. unfold tighter_max. intros. by_rank. Qed.
Lemma above_looser l r v :
  bound_in l -> bound_in r -> v ∈ vs -> above (looser_min l r) v = above l v || above r v.
Proof. unfold looser_min. intros. by_rank. Qed.
Lemma below_looser l r v :
  bound_in l -> bound_in r -> v ∈ vs -> below (looser_max l r) v = below l v || below r v.
Proof. unfold looser_max. intros. by_rank. Qed.

Lemma equal_bounds_spec min max v :
  bound_in min -> bound_in max -> v ∈ vs ->
  bound_compared min max (is_unbounded min) = Some Eq ->
  contains (equal_bounds min) v = above min v && below max v.
Proof. intros Hm HM Hv E. by_rank. Qed.

Lemma crossed_bounds min max v :
  bound_in min -> bound_in max -> v ∈ vs ->
  bound_compared min max (is_unbounded min) = Some Gt -> above min v && below max v = false.
Proof. intros Hm HM Hv E. by_rank. Qed.

Lemma and_scope_merge_spec l_min l_max r_min r_max v :
  bound_in l_min -> bound_in l_max -> bound_in r_min -> bound_in r_max -> v ∈ vs ->
  contains (and_scope_merge l_min l_max r_min r_max) v
  = contains (Range.Scope l_min l_max) v && contains (Range.Scope r_min r_max) v.
Proof.
  intros H1 H2 H3 H4 Hv. unfold and_scope_merge.
  change (if cmp_is (bound_compared l_min r_min true) is_gt then l_min else r_min)
    with (tighter_min l_min r_min).
  change (if cmp_is (bound_compared l_max r_max false) is_lt then l_max else r_max)
    with (tighter_max l_max r_max).
  assert (Hm : bound_in (tighter_min l_min r_min)) by (unfold tighter_min; now case_match).
  assert (HM : bound_in (tighter_max l_max r_max)) by (unfold tighter_max; now case_match).
  assert (Hgoal : above (tighter_min l_min r_min) v && below (tighter_max l_max r_max) v
                  = contains (Range.Scope l_min l_max) v && contains (Range.Scope r_min r_max) v).
  { rewrite above_tighter, below_tighter by assumption. cbn [contains].
    destruct (above l_min v), (above r_min v), (below l_max v); reflexivity. }
  rewrite <- Hgoal. destruct (bound_compared _ _ _) as [[]|] eqn:E; try reflexivity.
  - now apply equal_bounds_spec.
  - symmetry. now apply crossed_bounds.
Qed.

(** [v] is the value that ends one scope and starts the other, excluded from
    both. *)
Definition touches (max min : Bound DataValue) (v : DataValue) : bool :=
  match max, min with
  | Bound.Excluded a, Bound.Excluded b => dv_eq a v && dv_eq b v
  | _, _ => false
  end.

(** A gap between two scopes that are not apart is a touching value. *)
Lemma gap_touches max min v :
  bound_in max -> bound_in min -> v ∈ vs ->
  cmp_is (bound_compared max min false) is_lt = false ->
  below max v = false -> above min v = false -> touches max min v = true.
Proof. intros. unfold touches. by_rank. Qed.

Lemma or_scope_merge_spec l_min l_max r_min r_max v :
  bound_in l_min -> bound_in l_max -> bound_in r_min -> bound_in r_max -> v ∈ vs ->
  let l := Range.Scope l_min l_max in
  let r := Range.Scope r_min r_max in
  let m := or_scope_merge l_min l_max r_min r_max in
  (contains l v || contains r v = true -> contains m v = true)
  /\ (contains m v = true ->
      contains l v || contains r v || touches l_max r_min v || touches r_max l_min v = true).
Proof.
  intros H1 H2 H3 H4 Hv. cbn zeta. unfold or_scope_merge.
  destruct (cmp_is (bound_compared l_max r_min false) is_lt) eqn:E1; cbn [orb];
    [case_match; cbn [contains existsb]; split; rewrite ?orb_false_r, ?orb_true_iff; tauto |].
  destruct (cmp_is (bound_compared r_max l_min false) is_lt) eqn:E2;
    [case_match; cbn [contains existsb]; split; rewrite ?orb_false_r, ?orb_true_iff; tauto |].
  change (if cmp_is (bound_compared l_min r_min true) is_lt then l_min else r_min)
    with (looser_min l_min r_min).
  change (if cmp_is (bound_compared l_max r_max false) is_gt then l_max else r_max)
    with (looser_max l_max r_max).
  assert (Hm : bound_in (looser_min l_min r_min)) by (unfold looser_min; now case_match).
  assert (HM : bound_in (looser_max l_max r_max)) by (unfold looser_max; now case_match).
  match goal with |- context [contains ?m v] =>
    replace (contains m v) with (above (looser_min l_min r_min) v && below (looser_max l_max r_max) v)
      by (case_match; [case_match |]; try reflexivity; symmetry; now apply equal_bounds_spec)
  end.
  rewrite above_looser, below_looser by assumption. cbn [contains].
  pose proof (gap_touches l_max r_min v H2 H3 Hv E1).
  pose proof (gap_touches r_max l_min v H4 H1 Hv E2).
  destruct (above l_min v), (above r_min v), (below l_max v), (below r_max v); cbn in *;
    split; try discriminate; auto; intros _; rewrite ?orb_true_iff; auto.
Qed.

Lemma merge_scope_eq_and min max eq v :
  bound_in min -> bound_in max -> eq ∈ vs -> v ∈ vs ->
  exists m, merge_scope_eq BinaryOp.And min max eq = Some m
    /\ contains m v = contains (Range.Scope min max) v && contains (Range.Eq eq) v.
Proof.
  intros. unfold merge_scope_eq.
  destruct (_ || _) eqn:E; eexists; (split; [reflexivity |]); revert E; by_rank; discriminate.
Qed.

Lemma merge_scope_eq_or min max eq v :
  bound_in min -> bound_in max -> eq ∈ vs -> v ∈ vs -> scope_ok min max = true ->
  exists m, merge_scope_eq BinaryOp.Or min max eq = Some m
    /\ contains m v = contains (Range.Scope min max) v || contains (Range.Eq eq) v.
Proof.
  intros Hm HM He Hv. unfold merge_scope_eq. rewrite (comparable_not_null eq) by assumption.
  intros Hok. eexists. split; [reflexivity |]. revert Hok.
  unfold process_exclude_bound_with_eq, cmp_is. by_rank.
Qed.

Lemma merge_scope_eq_ok op min max eq m :
  bound_in min -> bound_in max -> eq ∈ vs -> scope_ok min max = true ->
  merge_scope_eq op min max eq = Some m -> range_ok m = true.
Proof.
  intros Hm HM He Hok. destruct op; cbn [merge_scope_eq]; try discriminate.
  - case_match; intros [= <-]; reflexivity.
  - rewrite (comparable_not_null eq) by assumption. intros [= <-]. revert Hok.
    unfold process_exclude_bound_with_eq. by_rank.
Qed.

Lemma equal_bounds_ok min : range_ok (equal_bounds min) = true.
Proof. now destruct min. Qed.

Lemma and_scope_merge_ok l_min l_max r_min r_max :
  bound_in l_min -> bound_in l_max -> bound_in r_min -> bound_in r_max ->
  range_ok (and_scope_merge l_min l_max r_min r_max) = true.
Proof.
  intros H1 H2 H3 H4. unfold and_scope_merge.
  fold (tighter_min l_min r_min). fold (tighter_max l_max r_max).
  assert (Hm : bound_in (tighter_min l_min r_min)) by (unfold tighter_min; now case_match).
  assert (HM : bound_in (tighter_max l_max r_max)) by (unfold tighter_max; now case_match).
  cbn zeta. generalize dependent (tighter_max l_max r_max).
  generalize dependent (tighter_min l_min r_min). clear H1 H2 H3 H4. intros min Hm max HM.
  destruct (bound_compared _ _ _) as [[]|] eqn:E; try reflexivity; [apply equal_bounds_ok | |];
    revert E; by_rank.
Qed.

Lemma or_scope_merge_ok l_min l_max r_min r_max :
  bound_in l_min -> bound_in l_max -> bound_in r_min -> bound_in r_max ->
  scope_ok l_min l_max = true -> scope_ok r_min r_max = true ->
  range_ok (or_scope_merge l_min l_max r_min r_max) = true.
Proof.
  intros H1 H2 H3 H4 Hl Hr. unfold or_scope_merge.
  destruct (_ || _); [case_match; cbn [range_ok forallb]; now rewrite Hl, Hr |].
  fold (looser_min l_min r_min). fold (looser_max l_max r_max). cbn zeta.
  destruct (bound_compared _ _ _) as [[]|] eqn:E; [apply equal_bounds_ok | ..];
    revert E Hl Hr; unfold looser_min, looser_max; by_rank.
Qed.

(** ** Merging two values *)

Lemma merge_eq_eq_spec a b v :
  a ∈ vs -> b ∈ vs -> v ∈ vs ->
  (exists m, merge_eq_eq BinaryOp.And a b = Some m /\ contains m v = dv_eq a v && dv_eq b v)
  /\ (exists m, merge_eq_eq BinaryOp.Or a b = Some m /\ contains m v = dv_eq a v || dv_eq b v).
Proof.
  intros Ha Hb Hv. unfold merge_eq_eq. rewrite (rank_eq vs a b) by assumption.
  split; destruct (Z.eqb_spec (rank vs a) (rank vs b)); try (destruct (cmp_is _ _));
    eexists; (split; [reflexivity |]); by_rank.
Qed.

Lemma merge_eq_eq_ok op a b m : merge_eq_eq op a b = Some m -> range_ok m = true.
Proof. destruct op; cbn; repeat case_match; intros [= <-]; reflexivity. Qed.
End Scopes.

(** ** The merge of two ranges *)

Definition flat {F : Foreign} (range : Range.Range F) : bool :=
  match range with Range.SortedRanges _ => false | _ => true end.

(** The value an OR of two scopes adds: excluded from both, between them. *)
Definition gap {F : Foreign} (l r : Range.Range F) (v : DataValue) : bool :=
  match l, r with
  | Range.Scope l_min l_max, Range.Scope r_min r_max =>
      touches l_max r_min v || touches r_max l_min v
  | _, _ => false
  end.

Section MergeProof.
Context {F : Foreign} {L : ForeignLaws F}.
Abbreviation Range := (Range.Range F).

Lemma merge_binary_flat fuel op (l r : Range) :
  flat l = true -> flat r = true -> merge_binary fuel op l r = Some (merge_leaf op l r).
Proof. destruct l, r; reflexivity || discriminate. Qed.

Ltac bounds_in := apply Forall_forall; intros ? ?; elem.

Lemma merge_leaf_and (l r : Range) v :
  flat l = true -> flat r = true -> comparable (v :: range_values l ++ range_values r) ->
  exists m, merge_leaf BinaryOp.And l r = Some m
    /\ contains m v = contains l v && contains r v.
Proof.
  intros Fl Fr Hc. destruct l as [l1 l2|a| |], r as [r1 r2|b| |]; try discriminate; cbn [merge_leaf];
    try (eexists; split; [reflexivity |]; cbn [contains]; now rewrite ?andb_false_r).
  - eexists; split; [reflexivity |]. eapply and_scope_merge_spec; [exact Hc | bounds_in ..| apply list_elem_of_here].
  - eapply merge_scope_eq_and; [exact Hc | bounds_in .. | | ]; elem.
  - rewrite andb_comm. eapply merge_scope_eq_and; [exact Hc | bounds_in .. | | ]; elem.
  - eapply merge_eq_eq_spec; [exact Hc | elem ..].
Qed.

(** A merge that is exactly the union satisfies the specification of an OR. *)
Lemma or_exact (l r : Range) v (merged : option Range) :
  (exists m, merged = Some m /\ contains m v = contains l v || contains r v) ->
  exists m, merged = Some m
    /\ (contains l v || contains r v = true -> contains m v = true)
    /\ (contains m v = true -> contains l v || contains r v || gap l r v = true).
Proof.
  intros (m & Hm & Hv). exists m. rewrite Hv. split; [exact Hm |]. split; [tauto |].
  intros ->. reflexivity.
Qed.

Lemma merge_leaf_or (l r : Range) v :
  flat l = true -> flat r = true -> comparable (v :: range_values l ++ range_values r) ->
  range_ok l = true -> range_ok r = true ->
  exists m, merge_leaf BinaryOp.Or l r = Some m
    /\ (contains l v || contains r v = true -> contains m v = true)
    /\ (contains m v = true -> contains l v || contains r v || gap l r v = true).
Proof.
  intros Fl Fr Hc Ol Or.
  destruct l as [l1 l2|a| |], r as [r1 r2|b| |]; try discriminate; cbn [merge_leaf] in *;
    try (apply or_exact; eexists; split; [reflexivity |]; cbn [contains]; now rewrite ?orb_false_r).
  - eexists; split; [reflexivity |]. cbn [gap]. rewrite orb_assoc.
    eapply or_scope_merge_spec; [exact Hc | bounds_in .. | apply list_elem_of_here].
  - apply or_exact. eapply merge_scope_eq_or; [exact Hc | bounds_in .. | elem | elem | exact Ol].
  - apply or_exact. rewrite orb_comm.
    eapply merge_scope_eq_or; [exact Hc | bounds_in .. | elem | elem | exact Or].
  - apply or_exact. eapply merge_eq_eq_spec; [exact Hc | elem ..].
Qed.

Lemma merge_leaf_ok op (l r m : Range) :
  flat l = true -> flat r = true -> comparable (range_values l ++ range_values r) ->
  range_ok l = true -> range_ok r = true -> merge_leaf op l r = Some m -> range_ok m = true.
Proof.
  intros Fl Fr Hc Ol Or. destruct l as [l1 l2|a| |], r as [r1 r2|b| |]; try discriminate;
    cbn [merge_leaf];
    try (destruct op; intros [= <-]; assumption || reflexivity).
  - destruct op; intros [= <-].
    + eapply and_scope_merge_ok; [exact Hc | bounds_in ..].
    + eapply or_scope_merge_ok; [exact Hc | bounds_in .. | exact Ol | exact Or].
  - eapply merge_scope_eq_ok; [exact Hc | bounds_in .. | elem | exact Ol].
  - eapply merge_scope_eq_ok; [exact Hc | bounds_in .. | elem | exact Or].
  - apply merge_eq_eq_ok.
Qed.

(** C26. Merging two ranges of one column, neither of them a list of ranges and no
    scope crossed, whose end points are not null and are comparable with each other
    and with the value asked for (the OR of a null range and a scope loses values,
    as [range_merge_loses_values] shows): an AND contains exactly the values both
    contain; an OR contains all the values either contains, and no others except a
    value excluded from both that two scopes touch at; neither yields a crossed
    scope. *)
Theorem merge_pair fuel (l r : Range) v :
  flat l = true -> flat r = true -> comparable (v :: range_values l ++ range_values r) ->
  range_ok l = true -> range_ok r = true ->
  (exists m, merge_binary fuel BinaryOp.And l r = Some (Some m) /\ range_ok m = true
     /\ contains m v = contains l v && contains r v)
  /\ (exists m, merge_binary fuel BinaryOp.Or l r = Some (Some m) /\ range_ok m = true
     /\ (contains l v || contains r v = true -> contains m v = true)
     /\ (contains m v = true -> contains l v || contains r v || gap l r v = true)).
Proof.
  intros Fl Fr Hc Ol Or. rewrite !merge_binary_flat by assumption.
  assert (Hc' : comparable (range_values l ++ range_values r)).
  { destruct Hc as [Hn Hc]. split; intros; [apply Hn | apply Hc]; now apply list_elem_of_further. }
  destruct (merge_leaf_and l r v) as (m1 & E1 & H1); try assumption.
  destruct (merge_leaf_or l r v) as (m2 & E2 & H2); try assumption.
  split; [exists m1; rewrite E1 | exists m2; rewrite E2]; repeat split; try apply H2; try assumption.
  - exact (merge_leaf_ok _ _ _ _ Fl Fr Hc' Ol Or E1).
  - exact (merge_leaf_ok _ _ _ _ Fl Fr Hc' Ol Or E2).
Qed.
End MergeProof.

(** ** Lists of values *)

Section InLists.
Context {F : Foreign} {L : ForeignLaws F}.
Abbreviation Range := (Range.Range F).
Abbreviation less := (fun a b : DataValue => partial_cmp a b = Some Lt).
Abbreviation eqs := (map (Range.Eq (F := F))).

(** The range of [c IN (vs)], the values in increasing order. *)
Definition in_list (vs : list DataValue) : Range := ranges2range (eqs vs).

Fixpoint insert_val (x : DataValue) (ys : list DataValue) : list DataValue :=
  match ys with
  | [] => [x]
  | y :: ys' =>
      match partial_cmp x y with
      | Some Lt => x :: ys
      | Some Gt => y :: insert_val x ys'
      | _ => x :: ys'
      end
  end.

(** How many of the values are below [x]. *)
Definition rank_in (x : DataValue) (ys : list DataValue) : nat :=
  length (filter (fun y => partial_cmp x y = Some Gt) ys).

Lemma eqs_lookup done y rest : eqs (done ++ y :: rest) !! length done = Some (Range.Eq y).
Proof. rewrite map_app, lookup_app_r; rewrite length_map; [| lia]. now rewrite Nat.sub_diag. Qed.

Lemma vec_insert_eqs x done rest :
  vec_insert (length done) (Range.Eq x) (eqs (done ++ rest)) = eqs (done ++ x :: rest).
Proof.
  unfold vec_insert. rewrite !map_app. cbn [map].
  now rewrite take_app_length', drop_app_length' by now rewrite length_map.
Qed.

Lemma vec_remove_eqs done y rest :
  vec_remove (length done) (eqs (done ++ y :: rest)) = eqs (done ++ rest).
Proof.
  unfold vec_remove. rewrite !map_app. cbn [map].
  rewrite take_app_length' by now rewrite length_map.
  replace (S (length done)) with (length (eqs done ++ [Range.Eq y]))
    by (rewrite length_app, length_map; cbn; lia).
  change (eqs done ++ Range.Eq y :: eqs rest) with (eqs done ++ [Range.Eq y] ++ eqs rest).
  rewrite app_assoc. now rewrite drop_app_length.
Qed.

Lemma comparable_sub (vs ws : list DataValue) :
  comparable vs -> (forall v, v ∈ ws -> v ∈ vs) -> comparable ws.
Proof. intros [Hn Hc] Hsub. split; eauto. Qed.

Lemma insert_val_front x ys : Forall (less x) ys -> insert_val x ys = x :: ys.
Proof. destruct 1 as [|y ys Hy _]; cbn; [reflexivity | now rewrite Hy]. Qed.

Lemma insert_val_skip x done rest :
  Forall (fun y => partial_cmp x y = Some Gt) done ->
  insert_val x (done ++ rest) = done ++ insert_val x rest.
Proof. induction 1 as [|y done Hy _ IH]; cbn; [reflexivity | now rewrite Hy, IH]. Qed.

Lemma merge_step_equal op (x y : DataValue) :
  op = BinaryOp.And \/ op = BinaryOp.Or -> partial_cmp x y = Some Eq ->
  eq_eq_step op x y = Merge (Some (Range.Eq x)).
Proof.
  intros Hop E. unfold eq_eq_step. rewrite E. cbn.
  assert (D : dv_eq x y = true).
  { apply partial_cmp_eqb; [| exact E]. intros us up ->. now destruct y. }
  destruct Hop as [-> | ->]; cbn; now rewrite D.
Qed.

(** Inserting a value in a sorted list of values, the values before [idx] done. *)
Lemma extract_eqs op x rest :
  op = BinaryOp.And \/ op = BinaryOp.Or -> StronglySorted less rest -> comparable (x :: rest) ->
  forall done fuel, (length rest < fuel)%nat ->
  extract_merge_ranges fuel op (Some (Range.Eq x)) (eqs (done ++ rest)) (length done)
  = Some (eqs (done ++ insert_val x rest), (length done + rank_in x rest)%nat).
Proof.
  intros Hop Hs. induction Hs as [|y rest Hs IH Hy]; intros Hc done fuel Hf;
    (destruct fuel as [|fuel]; [cbn in Hf; lia |]); cbn [extract_merge_ranges].
  - rewrite app_nil_r, lookup_ge_None_2 by (rewrite length_map; lia).
    cbn. rewrite map_app. do 2 f_equal. lia.
  - rewrite eqs_lookup. cbn in Hf.
    assert (Hc' : comparable (x :: rest))
      by (apply (comparable_sub _ _ Hc); intros v; elem).
    destruct (partial_cmp x y) as [[]|] eqn:E.
    + rewrite merge_step_equal by assumption. rewrite vec_remove_eqs, IH by (assumption || lia).
      cbn [insert_val rank_in]. unfold rank_in. rewrite filter_cons, E, decide_False by discriminate.
      rewrite insert_val_front; [reflexivity |].
      apply (Forall_impl _ _ _ Hy). intros z Hz. now rewrite (partial_cmp_eq_l x y z E).
    + unfold eq_eq_step. rewrite E. cbn [cmp_is is_lt]. rewrite vec_insert_eqs.
      cbn [insert_val]. rewrite E. unfold rank_in. do 2 f_equal.
      assert (Hnone : filter (fun z => partial_cmp x z = Some Gt) (y :: rest) = []).
      { apply filter_none. intros z [-> | Hz]%elem_of_cons; [congruence |].
        apply (proj1 (Forall_forall _ _) Hy) in Hz. rewrite (partial_cmp_trans x y z E Hz). discriminate. }
      rewrite Hnone. cbn. lia.
    + unfold eq_eq_step. rewrite E. cbn [cmp_is is_lt is_gt].
      replace (S (length done)) with (length (done ++ [y])) by (rewrite length_app; cbn; lia).
      replace (done ++ y :: rest) with ((done ++ [y]) ++ rest) by now rewrite <- app_assoc.
      rewrite IH by (assumption || lia). cbn [insert_val]. rewrite E. unfold rank_in.
      rewrite filter_cons, decide_True, <- app_assoc, length_app by assumption. cbn [length app].
      do 2 f_equal. lia.
    + destruct Hc as [_ Hc]. exfalso. apply (Hc x y); rewrite ?elem_of_cons; auto.
Qed.

Lemma insert_val_elem x ys z : z ∈ insert_val x ys -> z = x \/ z ∈ ys.
Proof.
  induction ys as [|y ys IH]; cbn; [rewrite list_elem_of_singleton; auto |].
  destruct (partial_cmp x y) as [[]|]; rewrite !elem_of_cons; intuition.
Qed.

Lemma insert_val_sorted x ys :
  comparable (x :: ys) -> StronglySorted less ys -> StronglySorted less (insert_val x ys).
Proof.
  intros Hc Hs. induction Hs as [|y ys Hs IH Hy]; cbn; [repeat constructor |].
  assert (Hc' : comparable (x :: ys))
    by (apply (comparable_sub _ _ Hc); intros v; elem).
  destruct (partial_cmp x y) as [[]|] eqn:E.
  - constructor; [assumption |]. apply (Forall_impl _ _ _ Hy). intros z Hz.
    now rewrite (partial_cmp_eq_l x y z E).
  - repeat (constructor; try assumption). apply (Forall_impl _ _ _ Hy).
    intros z Hz. now apply (partial_cmp_trans x y z).
  - constructor; [auto |]. apply Forall_forall. intros z Hz.
    destruct (insert_val_elem x ys z Hz) as [-> | Hin].
    + now rewrite (partial_cmp_flip x y), E.
    + now apply (proj1 (Forall_forall _ _) Hy).
  - destruct Hc as [_ Hc]. exfalso. apply (Hc x y); rewrite ?elem_of_cons; auto.
Qed.

Lemma contains_insert x ys v :
  comparable (v :: x :: ys) ->
  existsb (fun z => dv_eq z v) (insert_val x ys) = dv_eq x v || existsb (fun z => dv_eq z v) ys.
Proof.
  intros Hc. induction ys as [|y ys IH]; cbn; [reflexivity |].
  assert (Hc' : comparable (v :: x :: ys))
    by (apply (comparable_sub _ _ Hc); intros u; elem).
  destruct (partial_cmp x y) as [[]|] eqn:E; cbn [existsb].
  - assert (D : dv_eq x v = dv_eq y v).
    { rewrite (rank_eq _ x v Hc), (rank_eq _ y v Hc) by (rewrite !elem_of_cons; auto).
      rewrite (rank_spec _ x y Hc) in E by (rewrite !elem_of_cons; auto).
      injection E as E%Z.compare_eq. now rewrite E. }
    rewrite D. now destruct (dv_eq y v).
  - reflexivity.
  - rewrite IH by assumption. now destruct (dv_eq x v), (dv_eq y v).
  - destruct Hc as [_ Hc]. exfalso. apply (Hc x y); rewrite ?elem_of_cons; auto.
Qed.

Lemma insert_val_split x ys :
  comparable (x :: ys) -> StronglySorted less ys -> exists lo hi,
    insert_val x ys = lo ++ hi /\ length lo = rank_in x ys
    /\ Forall (fun y => partial_cmp x y = Some Gt) lo.
Proof.
  intros Hc Hs. induction Hs as [|y ys Hs IH Hy]; [exists [], [x]; now repeat split |].
  cbn [insert_val]. unfold rank_in. rewrite filter_cons.
  destruct (decide (partial_cmp x y = Some Gt)) as [E | E].
  - destruct IH as (lo & hi & -> & Hl & Hf);
      [apply (comparable_sub _ _ Hc); intros v; elem |].
    rewrite E. exists (y :: lo), hi. cbn. repeat split; [now rewrite Hl | now constructor].
  - assert (Hn : partial_cmp x y <> None) by (apply Hc; rewrite !elem_of_cons; auto).
    assert (Hnone : filter (fun z => partial_cmp x z = Some Gt) ys = []).
    { apply filter_none. intros z Hz Hgt. apply (proj1 (Forall_forall _ _) Hy) in Hz.
      destruct (partial_cmp x y) as [[]|] eqn:Exy; try congruence.
      - rewrite (partial_cmp_eq_l x y z Exy) in Hgt. congruence.
      - rewrite (partial_cmp_trans x y z Exy Hz) in Hgt. congruence. }
    rewrite Hnone. exists []. destruct (partial_cmp x y) as [[]|]; try congruence;
      eexists; now repeat split.
Qed.

Abbreviation union := (fold_left (fun acc x => insert_val x acc)).

Lemma insert_val_length x ys : (length (insert_val x ys) <= S (length ys))%nat.
Proof. induction ys as [|y ys IH]; cbn; [lia |]. case_match; [case_match |]; cbn; lia. Qed.

Lemma sorted_suffix (xs ys : list DataValue) :
  StronglySorted less (xs ++ ys) -> StronglySorted less ys.
Proof. induction xs as [|x xs IH]; [auto |]. intros H. apply IH. now inversion H. Qed.

Lemma merge_all_eqs op xs :
  op = BinaryOp.And \/ op = BinaryOp.Or -> StronglySorted less xs ->
  forall done rest fuel, StronglySorted less (done ++ rest) ->
  Forall (fun x => Forall (fun d => partial_cmp x d = Some Gt) done) xs ->
  comparable (xs ++ done ++ rest) -> (length xs + length rest < fuel)%nat ->
  merge_all fuel op (eqs xs) (eqs (done ++ rest)) (length done) = Some (eqs (union xs (done ++ rest))).
Proof.
  intros Hop Hs. induction Hs as [|x xs Hs IH Hx]; intros done rest fuel Hd Hgt Hc Hf;
    cbn [map merge_all fold_left length] in *; [reflexivity |].
  apply Forall_cons_1 in Hgt as [Hgx Hgt].
  assert (Hcx : comparable (x :: done ++ rest))
    by (apply (comparable_sub _ _ Hc); intros v; elem).
  assert (Hcr : comparable (x :: rest))
    by (apply (comparable_sub _ _ Hc); intros v; elem).
  assert (Hr : StronglySorted less rest) by exact (sorted_suffix _ _ Hd).
  rewrite extract_eqs by (assumption || lia).
  pose proof (insert_val_sorted x _ Hcx Hd) as Hd'. pose proof (insert_val_length x rest).
  rewrite (insert_val_skip x done rest Hgx) in *.
  destruct (insert_val_split x rest Hcr Hr) as (lo & hi & E & Hl & Hlo). rewrite E in *.
  rewrite <- Hl, <- length_app, app_assoc. rewrite length_app in H.
  apply IH; [now rewrite <- app_assoc | | | lia].
  - apply Forall_forall. intros x' Hx'. apply (proj1 (Forall_forall _ _) Hx) in Hx' as Hlt.
    apply Forall_app. split; [now apply (proj1 (Forall_forall _ _) Hgt) |].
    apply (Forall_impl _ _ _ Hlo). intros d Hdx.
    rewrite (partial_cmp_flip d x'), (partial_cmp_trans d x x'); [reflexivity | | exact Hlt].
    now rewrite (partial_cmp_flip x d), Hdx.
  - apply (comparable_sub _ _ Hc). intros v. rewrite <- app_assoc, <- E. cbn.
    intros [? | [? | Hv%insert_val_elem]%elem_of_app]%elem_of_app; elem.
Qed.

Lemma union_spec xs ys v :
  comparable (v :: xs ++ ys) -> StronglySorted less ys ->
  StronglySorted less (union xs ys)
  /\ existsb (fun z => dv_eq z v) (union xs ys)
     = existsb (fun z => dv_eq z v) xs || existsb (fun z => dv_eq z v) ys.
Proof.
  revert ys. induction xs as [|x xs IH]; intros ys Hc Hs; cbn; [auto |].
  destruct (IH (insert_val x ys)) as [H1 H2].
  - apply (comparable_sub _ _ Hc). intros u.
    intros [? | [? | Hu%insert_val_elem]%elem_of_app]%elem_of_cons; elem.
  - apply insert_val_sorted; [| assumption]. apply (comparable_sub _ _ Hc). intros u. elem.
  - split; [exact H1 |]. rewrite H2, contains_insert; [now rewrite !orb_assoc, (orb_comm (existsb _ xs)) |].
    apply (comparable_sub _ _ Hc). intros u. elem.
Qed.

Lemma contains_in_list vs v : contains (in_list vs) v = existsb (fun z => dv_eq z v) vs.
Proof.
  assert (H : existsb (fun r : Range => contains r v) (eqs vs) = existsb (fun z => dv_eq z v) vs)
    by (induction vs as [|u vs IH]; cbn; [reflexivity | now rewrite IH]).
  unfold in_list. destruct vs as [|u [|w vs]]; [reflexivity | cbn; now rewrite orb_false_r | exact H].
Qed.

Lemma in_lists_union fuel xs ys :
  comparable (xs ++ ys) -> StronglySorted less xs -> StronglySorted less ys ->
  (length xs + length ys < fuel)%nat ->
  exists zs, (zs = union xs ys \/ zs = union ys xs)
    /\ merge_binary fuel BinaryOp.Or (in_list xs) (in_list ys) = Some (Some (in_list zs)).
Proof.
  intros Hc Hx Hy Hf.
  destruct xs as [|x [|x' xs]]; [exists ys; split; [now left | reflexivity] | |].
  - destruct ys as [|y [|y' ys]]; [exists [x]; split; [now left | reflexivity] | |];
      (eexists; split; [left; reflexivity |]).
    + assert (Hxy : partial_cmp x y <> None) by (apply Hc; elem).
      assert (Ht : forall us up, x <> DV.Tuple us up) by (intros us up ->; now destruct y).
      pose proof (partial_cmp_eqb x y Ht) as Heq.
      cbn. destruct (dv_eq x y); [now rewrite (proj2 Heq eq_refl) |].
      destruct (partial_cmp x y) as [[]|]; try reflexivity; [| congruence].
      discriminate (proj1 Heq eq_refl).
    + pose proof (extract_eqs BinaryOp.Or x (y :: y' :: ys) (or_intror eq_refl) Hy Hc [] fuel) as E.
      cbn [in_list ranges2range map merge_binary app length] in *. rewrite E by lia. reflexivity.
  - destruct ys as [|y [|y' ys]]; [exists (x :: x' :: xs); split; [now right | reflexivity] | |];
      [eexists; split; [right; reflexivity |] | eexists; split; [left; reflexivity |]].
    + assert (Hc' : comparable (y :: x :: x' :: xs)) by (apply (comparable_sub _ _ Hc); intros u; elem).
      pose proof (extract_eqs BinaryOp.Or y (x :: x' :: xs) (or_intror eq_refl) Hx Hc' [] fuel) as E.
      cbn [in_list ranges2range map merge_binary app length] in *. rewrite E by lia. reflexivity.
    + pose proof (merge_all_eqs BinaryOp.Or (x :: x' :: xs) (or_intror eq_refl) Hx [] (y :: y' :: ys) fuel) as E.
      cbn [in_list ranges2range map merge_binary app length] in *. rewrite E; try assumption; [reflexivity |].
      apply Forall_forall. constructor.
Qed.

(** C29. IN lists: the OR of two lists of comparable non-null values in increasing
    order is the list of the values of either, in increasing order and without
    duplicates. *)
Theorem in_lists_or fuel xs ys v :
  comparable (v :: xs ++ ys) -> StronglySorted less xs -> StronglySorted less ys ->
  (length xs + length ys < fuel)%nat ->
  exists zs, merge_binary fuel BinaryOp.Or (in_list xs) (in_list ys) = Some (Some (in_list zs))
    /\ StronglySorted less zs
    /\ contains (in_list zs) v = contains (in_list xs) v || contains (in_list ys) v.
Proof.
  intros Hc Hx Hy Hf.
  assert (Hcy : comparable (v :: ys ++ xs)) by (apply (comparable_sub _ _ Hc); intros u; elem).
  destruct (in_lists_union fuel xs ys) as (zs & Hz & E);
    [apply (comparable_sub _ _ Hc); intros u; elem | assumption .. |].
  exists zs. split; [exact E |]. rewrite !contains_in_list.
  destruct Hz as [-> | ->]; [now apply union_spec |]. rewrite orb_comm. now apply union_spec.
Qed.
End InLists.

(** ** Composite indexes enumerate the product of the value lists *)

Section CombiningProof.
Context {F : Foreign}.
Abbreviation Range := (Range.Range F).

(** The tuples of one value per list, in lexicographic order of positions. *)
Fixpoint product {A} (ls : list (list A)) : list (list A) :=
  match ls with
  | [] => [[]]
  | l :: ls' => concat (map (fun x => map (cons x) (product ls')) l)
  end.

Lemma map_concat_map {A B C} (f : B -> C) (g : A -> list B) l :
  map f (concat (map g l)) = concat (map (fun x => map f (g x)) l).
Proof. rewrite concat_map, map_map. reflexivity. Qed.

Lemma mapM_eqs (sub : Range -> option (TreeNode DataValue)) f vs :
  (forall v, sub (Range.Eq v) = Some (f v)) -> mapM sub (map Range.Eq vs) = Some (map f vs).
Proof. intros Hsub. induction vs as [|v vs IH]; cbn; [reflexivity | now rewrite Hsub, IH]. Qed.

Lemma level_ranges (vs : list DataValue) :
  vs <> [] ->
  match in_list vs with Range.SortedRanges rs => rs | _ => [in_list vs] end = map Range.Eq vs.
Proof. destruct vs as [|v [|w vs]]; easy. Qed.

Lemma enumeration_node {T} path (node : TreeNode T) (vs : list T) :
  vs <> [] ->
  (match node with mk_tree_node _ value _ => value = None end) ->
  enumeration path (mk_tree_node _ None (map (fun v => mk_tree_node _ (Some v) [node]) vs))
  = concat (map (fun v => enumeration (path ++ [v]) node) vs).
Proof.
  intros Hvs Hn. destruct vs as [|v vs]; [easy |]. destruct node as [value children]. subst value.
  etransitivity; [refine (f_equal (concat (A:=_)) (map_map _ _ (v :: vs))) |].
  f_equal. apply map_ext. intros w. apply app_nil_r.
Qed.

Lemma build_tree_product (ls : list (list DataValue)) :
  Forall (fun l => l <> []) ls ->
  exists children, build_tree (map in_list ls) = Some (mk_tree_node _ None children)
    /\ (children = [] -> ls = [])
    /\ forall path, enumeration path (mk_tree_node _ None children) = map (app path) (product ls).
Proof.
  induction 1 as [|level ls Hl _ IH].
  - exists []. repeat split. intros path. cbn. now rewrite app_nil_r.
  - destruct IH as (children & E & Hc & Henum).
    exists (map (fun v => mk_tree_node _ (Some v) [mk_tree_node _ None children]) level).
    cbn [map build_tree]. rewrite E, length_map.
    rewrite level_ranges, (mapM_eqs _ (fun v => mk_tree_node _ (Some v) [mk_tree_node _ None children]));
      [| | assumption].
    2: { intros v. cbn. destruct children; [now rewrite Hc | reflexivity]. }
    destruct level as [|v level]; [easy |]. split; [reflexivity |]. split; [discriminate |].
    intros path. rewrite enumeration_node by easy. cbn [product]. rewrite map_concat_map. f_equal.
    apply map_ext. intros w. rewrite Henum, map_map. apply map_ext. intros t.
    now rewrite <- app_assoc.
Qed.

(** Combining the range of the last column of a composite index with IN
    lists on the columns before it produces, for each combination of the listed
    values in order, the ranges of that combination; no combination is missed. *)
Theorem combining_eqs_product (self : Range) (ls : list (list DataValue)) :
  Forall (fun l => l <> []) ls ->
  combining_eqs self (map in_list ls)
  = Some (ranges2range (concat (map (fun tuple => collect_tuple_range tuple self) (product ls)))).
Proof.
  intros Hls. destruct (build_tree_product ls Hls) as (children & E & _ & Henum).
  unfold combining_eqs. rewrite E, Henum. do 3 f_equal. now rewrite map_id.
Qed.
End CombiningProof.

(** ** Where merging goes wrong *)

Section Examples.
Context {F : Foreign}.
Abbreviation i := (fun z => @DV.Int32 F z).
Abbreviation lt := (fun z => Range.Scope Bound.Unbounded (Bound.Excluded (i z))).
Abbreviation gt := (fun z => Range.Scope (Bound.Excluded (i z)) Bound.Unbounded).

(** Merging with a list of ranges loses values.  An AND: [c > 3 AND (c < 3
    OR c = 7)] becomes the empty range, although 7 satisfies it.  An OR: [c < 5
    OR ((c > 1 AND c <= 3) OR c = 7 OR c = 9)] loses 9.  [c IS NULL OR c >= 3]
    loses the nulls. *)
Theorem range_merge_loses_values :
  let ranges1 := Range.SortedRanges [lt 3; Range.Eq (i 7)] in
  let ranges2 := Range.SortedRanges [Range.Scope (Bound.Excluded (i 1)) (Bound.Included (i 3));
                                     Range.Eq (i 7); Range.Eq (i 9)] in
  let ge3 := Range.Scope (Bound.Included (i 3)) Bound.Unbounded in
  (exists m, merge_binary 10 BinaryOp.And (gt 3) ranges1 = Some (Some m)
     /\ contains (gt 3) (i 7) = true /\ contains ranges1 (i 7) = true /\ contains m (i 7) = false)
  /\ (exists m, merge_binary 10 BinaryOp.Or (lt 5) ranges2 = Some (Some m)
     /\ contains ranges2 (i 9) = true /\ contains m (i 9) = false)
  /\ (exists m, merge_binary 10 BinaryOp.Or (Range.Eq DV.Null) ge3 = Some (Some m)
     /\ contains m DV.Null = false).
Proof. repeat split; eexists; repeat split; vm_compute; reflexivity. Qed.

(** An OR that does not cross-check unbounded ends returns overlapping
    ranges, so a scan visits a row twice: [c < 5 OR c < 3] becomes two scopes that
    both hold 1, and [c = 1] is kept beside a scope that holds it. *)
Theorem or_merge_overlaps :
  merge_binary 10 BinaryOp.Or (lt 5) (lt 3) = Some (Some (Range.SortedRanges [lt 3; lt 5]))
  /\ merge_binary 10 BinaryOp.Or (Range.SortedRanges [lt 3; gt 7]) (Range.Eq (i 1))
     = Some (Some (Range.SortedRanges [Range.Eq (i 1); lt 3; gt 7])).
Proof. split; vm_compute; reflexivity. Qed.

Abbreviation a := (Range.Scope (Bound.Excluded (i 1)) (Bound.Excluded (i 3))).
Abbreviation b := (Range.Scope (Bound.Included (i 3)) (Bound.Excluded (i 10))).
Abbreviation c := (Range.Scope (Bound.Included (i 3)) (Bound.Excluded (i 5))).

Lemma extract_diverges fuel :
  extract_merge_ranges fuel BinaryOp.Or (Some b) [a; c] 0 = None
  /\ extract_merge_ranges fuel BinaryOp.Or (Some c) [a; b] 0 = None
  /\ extract_merge_ranges fuel BinaryOp.Or (Some (Range.SortedRanges [a; b])) [c] 0 = None
  /\ extract_merge_ranges fuel BinaryOp.Or (Some (Range.SortedRanges [a; c])) [b] 0 = None.
Proof.
  induction fuel as [|fuel (H1 & H2 & H3 & H4)]; [now repeat split |].
  repeat split; cbn -[Z.compare]; cbn [Z.compare Pos.compare Pos.compare_cont]; cbn.
  all: rewrite ?H1, ?H2, ?H3, ?H4; reflexivity.
Qed.

(** C37. The recursion of [extract_merge_ranges] need not end: merging
    [c >= 3 AND c < 10] with [(c > 1 AND c < 3) OR (c >= 3 AND c < 5)] under an
    OR returns for no amount of fuel. *)
Theorem or_merge_diverges fuel :
  merge_binary fuel BinaryOp.Or b (Range.SortedRanges [a; c]) = None.
Proof. cbn [merge_binary]. now rewrite (proj1 (extract_diverges fuel)). Qed.
End Examples.

(** ** Witnesses *)

Section Witnesses.
#[local] Existing Instance RefForeign.ref_foreign.
#[local] Existing Instance RefForeign.ref_laws.

Lemma int32_comparable zs : comparable (map DV.Int32 zs).
Proof.
  split; [intros v (z & -> & _)%list_elem_of_fmap; reflexivity |].
  intros v w (z & -> & _)%list_elem_of_fmap (y & -> & _)%list_elem_of_fmap. discriminate.
Qed.

Lemma merge_pair_witness :
  let l := Range.Scope (Bound.Excluded (DV.Int32 1)) (Bound.Included (DV.Int32 5)) in
  let r := Range.Scope (Bound.Included (DV.Int32 3)) Bound.Unbounded in
  (exists m, merge_binary 1 BinaryOp.And l r = Some (Some m) /\ range_ok m = true
     /\ contains m (DV.Int32 4) = contains l (DV.Int32 4) && contains r (DV.Int32 4))
  /\ (exists m, merge_binary 1 BinaryOp.Or l r = Some (Some m) /\ range_ok m = true
     /\ (contains l (DV.Int32 4) || contains r (DV.Int32 4) = true -> contains m (DV.Int32 4) = true)
     /\ (contains m (DV.Int32 4) = true ->
         contains l (DV.Int32 4) || contains r (DV.Int32 4) || gap l r (DV.Int32 4) = true)).
Proof.
  apply merge_pair; try reflexivity. exact (int32_comparable [4; 1; 5; 3]).
Defined.

Lemma in_lists_or_witness :
  let xs := [DV.Int32 1; DV.Int32 4] in
  let ys := [DV.Int32 2; DV.Int32 4; DV.Int32 6] in
  exists zs, merge_binary 10 BinaryOp.Or (in_list xs) (in_list ys) = Some (Some (in_list zs))
    /\ StronglySorted (fun a b => partial_cmp a b = Some Lt) zs
    /\ contains (in_list zs) (DV.Int32 6)
       = contains (in_list xs) (DV.Int32 6) || contains (in_list ys) (DV.Int32 6).
Proof.
  apply in_lists_or;
    [exact (int32_comparable [6; 1; 4; 2; 4; 6]) | repeat constructor .. | cbn; lia].
Defined.

Lemma combining_eqs_product_witness :
  combining_eqs (Range.Eq (DV.Int32 9)) [in_list [DV.Int32 1; DV.Int32 2]; in_list [DV.Int32 3]]
  = Some (ranges2range (concat (map (fun tuple => collect_tuple_range tuple (Range.Eq (DV.Int32 9)))
                                  (product [[DV.Int32 1; DV.Int32 2]; [DV.Int32 3]])))).
Proof.
  apply (combining_eqs_product (Range.Eq (DV.Int32 9)) [[DV.Int32 1; DV.Int32 2]; [DV.Int32 3]]).
  repeat constructor; discriminate.
Defined.
End Witnesses.
