(* ===== verification/Join.v ===== *)
(** * Joins

    The two join executors: the hash join
    (src/src/execution/dql/join/hash_join.rs) and the nested loop join
    (src/src/execution/dql/join/nested_loop_join.rs).  An executor is a function
    from the tuples of its inputs to the tuples it yields; the first error it
    yields replaces them.  Evaluating an expression on a tuple and a schema is an
    argument, and so is the order in which a [HashMap] is drained. *)

From Stdlib Require Import Sorting.Sorted.
From S2P Require Import Prelude Bytes Types LogicalTypes Values TupleCodec.

Module JoinType.
Inductive JoinType := Inner | LeftOuter | LeftSemi | LeftAnti | RightOuter | Full | Cross.
End JoinType.
Abbreviation JoinType := JoinType.JoinType.

#[export] Instance JoinType_eq_dec : EqDecision JoinType.
Proof. solve_decision. Defined.

Definition joins_nullable (join_type : JoinType) : bool * bool :=
  match join_type with
  | JoinType.Inner => (false, false)
  | JoinType.LeftOuter | JoinType.LeftSemi | JoinType.LeftAnti => (false, true)
  | JoinType.RightOuter => (true, false)
  | JoinType.Full => (true, true)
  | JoinType.Cross => (true, true)
  end.

(** A column: what a join does not look at is [col]. *)
Record Column (Col : Type) := mk_column { col : Col; nullable : bool; in_join : bool }.
Arguments mk_column {Col} col nullable in_join.
Arguments col {Col} _.
Arguments nullable {Col} _.
Arguments in_join {Col} _.

Definition nullable_for_join {Col} (c : Column Col) (null : bool) : option (Column Col) :=
  if Bool.eqb (nullable c) null then None else Some (mk_column (col c) null true).

Section Joins.
Context {F : Foreign}.
Variables (Expr Col : Type).
Abbreviation Schema := (list (Column Col)).
Abbreviation Tuple := (TupleCodec.Tuple F).
(** [expr.eval(Some((tuple, schema)))]. *)
Variable eval : Expr -> Tuple -> Schema -> Result DataValue.

Definition nulls (n : nat) : list DataValue := repeat DV.Null n.

(** The two schemas side by side, columns made nullable as the join demands. *)
Definition for_join (force_nullable : bool) (schema : Schema) : Schema :=
  map (fun c => default c (nullable_for_join c force_nullable)) schema.
Definition merge_schema (left_schema right_schema : Schema) (ty : JoinType) : Schema :=
  for_join (joins_nullable ty).1 left_schema ++ for_join (joins_nullable ty).2 right_schema.

(** [Projection::projection], and [HashJoin::eval_keys]. *)
Definition projection (tuple : Tuple) (exprs : list Expr) (schema : Schema)
  : Result (list DataValue) :=
  try_map (fun expr => eval expr tuple schema) exprs.

(** ** Nested loop join *)

Record EqualCondition := mk_equal_condition {
  on_left_keys : list Expr;
  on_right_keys : list Expr;
  left_schema : Schema;
  right_schema : Schema
}.

Definition equals (cond : EqualCondition) (left_tuple right_tuple : Tuple) : Result bool :=
  match on_left_keys cond with
  | [] => Ok true
  | _ =>
      let? left_values := projection left_tuple (on_left_keys cond) (left_schema cond) in
      let? right_values := projection right_tuple (on_right_keys cond) (right_schema cond) in
      Ok (keys_eq left_values right_values)
  end.

(** [Option::or]. *)
Definition option_or {A} (a b : option A) : option A :=
  match a with Some _ => a | None => b end.

Definition emit_tuple (left_tuple right_tuple : Tuple) (ty : JoinType) (is_matched : bool)
  : option Tuple :=
  let left_len := length (values left_tuple) in
  let vs := values left_tuple ++ values right_tuple in
  let vs :=
    match ty, is_matched with
    | JoinType.Inner, false | JoinType.Cross, false | JoinType.LeftSemi, false => []
    | JoinType.LeftOuter, false | JoinType.Full, false =>
        take left_len vs ++ nulls (length vs - left_len)
    | JoinType.RightOuter, false => nulls left_len ++ drop left_len vs
    | JoinType.LeftSemi, true => take left_len vs
    | JoinType.LeftAnti, true => []
    | JoinType.LeftAnti, false => take left_len vs
    | _, _ => vs
    end in
  match vs with
  | [] => None
  | _ => Some (mk_tuple (option_or (pk left_tuple) (pk right_tuple)) vs)
  end.

Definition merge_tuple (left_tuple right_tuple : Tuple) (ty : JoinType) : Tuple :=
  mk_tuple (option_or (pk left_tuple) (pk right_tuple))
    (match ty with
     | JoinType.RightOuter => values right_tuple ++ values left_tuple
     | _ => values left_tuple ++ values right_tuple
     end).

(** [emit_tuple] with the operands a right outer join swaps back. *)
Definition emit (ty : JoinType) (left_tuple right_tuple : Tuple) (is_matched : bool) : option Tuple :=
  match ty with
  | JoinType.RightOuter => emit_tuple right_tuple left_tuple ty is_matched
  | _ => emit_tuple left_tuple right_tuple ty is_matched
  end.

(** What one pair of tuples yields, and [has_matched] after it. *)
Definition nl_pair (ty : JoinType) (filter : option Expr) (schema : Schema) (cond : EqualCondition)
    (has_matched : bool) (left_tuple right_tuple : Tuple) : Result (option Tuple * bool) :=
  let? eq := equals cond left_tuple right_tuple in
  match filter, eq with
  | None, true => Ok (emit ty left_tuple right_tuple true, true)
  | Some filter, true =>
      let? value := eval filter (merge_tuple left_tuple right_tuple ty) schema in
      match value with
      | DV.Boolean true =>
          Ok (match ty with
              | JoinType.LeftAnti => None
              | JoinType.LeftSemi =>
                  if has_matched then None else emit ty left_tuple right_tuple true
              | _ => emit ty left_tuple right_tuple true
              end, true)
      | DV.Boolean false | DV.Null => Ok (None, has_matched)
      | _ => Err InvalidType
      end
  | _, false => Ok (None, has_matched)
  end.

(** [FixedBitSet]: inserting past the capacity panics. *)
Definition bits_insert (bits : list bool) (i : nat) : Result (list bool) :=
  if (i <? length bits)%nat then Ok (<[i := true]> bits) else Panic.
Definition bits_contains (bits : list bool) (i : nat) : bool := default false (bits !! i).

(** The state a left tuple's loop over the right tuples carries. *)
Record nl_state := mk_nl_state {
  has_matched : bool;
  right_idx : nat;
  st_bitmap : option (list bool);
  st_first : list nat
}.

(** The bits set for a tuple that was yielded. *)
Definition nl_record (ty : JoinType) (s : nl_state) : Result nl_state :=
  match st_bitmap s with
  | Some bits =>
      let? bits := bits_insert bits (right_idx s) in
      Ok (mk_nl_state (has_matched s) (right_idx s) (Some bits) (st_first s))
  | None =>
      match ty with
      | JoinType.Full =>
          Ok (mk_nl_state (has_matched s) (right_idx s) None (st_first s ++ [right_idx s]))
      | _ => Ok s
      end
  end.

(** The loop over the right tuples; [LeftSemi] and [LeftAnti] leave it early. *)
Fixpoint nl_inner (ty : JoinType) (filter : option Expr) (schema : Schema) (cond : EqualCondition)
    (left_tuple : Tuple) (rights : list Tuple) (s : nl_state) : Result (list Tuple * nl_state) :=
  match rights with
  | [] => Ok ([], s)
  | right_tuple :: rights' =>
      let? '(tuple, matched) := nl_pair ty filter schema cond (has_matched s) left_tuple right_tuple in
      let s := mk_nl_state matched (right_idx s) (st_bitmap s) (st_first s) in
      match tuple, ty with
      | Some tuple, JoinType.LeftSemi => Ok ([tuple], s)
      | _, _ =>
          let? s := match tuple with Some _ => nl_record ty s | None => Ok s end in
          match ty, has_matched s with
          | JoinType.LeftAnti, true => Ok (option_list tuple, s)
          | _, _ =>
              let? '(out, s) :=
                nl_inner ty filter schema cond left_tuple rights'
                  (mk_nl_state (has_matched s) (S (right_idx s)) (st_bitmap s) (st_first s)) in
              Ok (option_list tuple ++ out, s)
          end
      end
  end.

(** The tuple yielded for a left tuple without a match. *)
Definition nl_unmatched (ty : JoinType) (right_schema_len : nat) (left_tuple : Tuple) : option Tuple :=
  match ty with
  | JoinType.LeftAnti => Some left_tuple
  | JoinType.LeftOuter | JoinType.LeftSemi | JoinType.RightOuter | JoinType.Full =>
      emit ty left_tuple (mk_tuple None (nulls right_schema_len)) false
  | _ => None
  end.

Fixpoint nl_outer (ty : JoinType) (filter : option Expr) (schema : Schema) (cond : EqualCondition)
    (lefts rights : list Tuple) (bitmap : option (list bool)) (first_matches : list nat)
  : Result (list Tuple * option (list bool) * list nat) :=
  match lefts with
  | [] => Ok ([], bitmap, first_matches)
  | left_tuple :: lefts' =>
      let? '(out, s) := nl_inner ty filter schema cond left_tuple rights
                          (mk_nl_state false 0 bitmap first_matches) in
      let bitmap :=
        match ty, st_bitmap s with
        | JoinType.Full, None => Some (repeat false (right_idx s))
        | _, b => b
        end in
      let last :=
        if has_matched s then None
        else nl_unmatched ty (length (right_schema cond)) left_tuple in
      let? '(rest, bitmap, first_matches) :=
        nl_outer ty filter schema cond lefts' rights bitmap (st_first s) in
      Ok (out ++ option_list last ++ rest, bitmap, first_matches)
  end.

(** The unmatched right tuples of a full join; [NULL_VALUE] is repeated
    [right_schema_len] times on the left. *)
Fixpoint nl_full (right_schema_len : nat) (bits : list bool) (rights : list Tuple) (idx : nat)
  : list Tuple :=
  match rights with
  | [] => []
  | right_tuple :: rights' =>
      (if bits_contains bits idx then []
       else [mk_tuple (pk right_tuple) (nulls right_schema_len ++ values right_tuple)])
      ++ nl_full right_schema_len bits rights' (S idx)
  end.

(** [ReadExecutor::execute] after the inputs and keys have been swapped for a right
    outer join.  The bitmap is unwrapped for each first match and each right
    tuple. *)
Definition nl_execute (ty : JoinType) (filter : option Expr) (schema : Schema)
    (cond : EqualCondition) (lefts rights : list Tuple) : Result (list Tuple) :=
  let? '(out, bitmap, first_matches) := nl_outer ty filter schema cond lefts rights None [] in
  match ty with
  | JoinType.Full =>
      match bitmap with
      | None => match first_matches, rights with [], [] => Ok out | _, _ => Panic end
      | Some bits =>
          let? bits := try_fold bits_insert first_matches bits in
          Ok (out ++ nl_full (length (right_schema cond)) bits rights 0)
      end
  | _ => Ok out
  end.

(** [From<(JoinOperator, LogicalPlan, LogicalPlan)> for NestedLoopJoin], then
    [execute].  [on] is empty for [JoinCondition::None]. *)
Definition nested_loop_join (ty : JoinType) (on : list (Expr * Expr)) (filter : option Expr)
    (left_sch right_sch : Schema) (lefts rights : list Tuple) : Result (list Tuple) :=
  let schema := merge_schema left_sch right_sch ty in
  match ty with
  | JoinType.RightOuter =>
      nl_execute ty filter schema (mk_equal_condition on.*2 on.*1 right_sch left_sch) rights lefts
  | _ =>
      nl_execute ty filter schema (mk_equal_condition on.*1 on.*2 left_sch right_sch) lefts rights
  end.

(** ** Hash join *)

(** [HashJoin::filter]. *)
Definition join_filter (tuple : Tuple) (schema : Schema) (filter : option Expr) (join_ty : JoinType)
    (left_schema_len : nat) : Result (option Tuple) :=
  match filter, join_ty with
  | None, _ | _, JoinType.Full | _, JoinType.Cross => Ok (Some tuple)
  | Some expr, _ =>
      let? value := eval expr tuple schema in
      match value with
      | DV.Boolean false | DV.Null =>
          match join_ty with
          | JoinType.LeftOuter =>
              if (left_schema_len <? length schema)%nat && (length (values tuple) <? length schema)%nat
              then Panic
              else Ok (Some (mk_tuple (pk tuple)
                     (take left_schema_len (values tuple) ++ nulls (length schema - left_schema_len)
                      ++ drop (length schema) (values tuple))))
          | JoinType.RightOuter =>
              if (length (values tuple) <? left_schema_len)%nat then Panic
              else Ok (Some (mk_tuple (pk tuple)
                     (nulls left_schema_len ++ drop left_schema_len (values tuple))))
          | _ => Ok None
          end
      | DV.Boolean true => Ok (Some tuple)
      | _ => Err InvalidType
      end
  end.

(** An entry of the build map: the tuples of a key, [is_used], [is_filtered]. *)
Record build_entry := mk_entry { tuples : list Tuple; is_used : bool; is_filtered : bool }.

(** The build map as an association list; a key occurs once. *)
Abbreviation build_map := (list (list DataValue * build_entry)).

(** [entry(values).or_insert_with(..).0.push(tuple)]. *)
Fixpoint build_push (key : list DataValue) (tuple : Tuple) (m : build_map) : build_map :=
  match m with
  | [] => [(key, mk_entry [tuple] false false)]
  | (k, e) :: m' =>
      if keys_eq k key
      then (k, mk_entry (tuples e ++ [tuple]) (is_used e) (is_filtered e)) :: m'
      else (k, e) :: build_push key tuple m'
  end.

Definition build_phase (on_left_keys : list Expr) (schema : Schema) (lefts : list Tuple)
  : Result build_map :=
  try_fold (fun m tuple =>
    let? key := projection tuple on_left_keys schema in Ok (build_push key tuple m)) lefts [].

(** The loop over the tuples of an entry: what is yielded, and for a semi join
    the bits of the tuples that pass the filter. *)
Definition probe_tuples (ty : JoinType) (filter : option Expr) (schema : Schema)
    (left_schema_len : nat) (entry_tuples : list Tuple) (right_tuple : Tuple)
  : Result (list (option Tuple)) :=
  try_map (fun left_tuple =>
    join_filter (mk_tuple (pk left_tuple) (values left_tuple ++ values right_tuple))
      schema filter ty left_schema_len) entry_tuples.

Definition probe_entry (ty : JoinType) (filter : option Expr) (schema : Schema)
    (left_schema_len : nat) (right_tuple : Tuple) (e : build_entry)
  : Result (list Tuple * build_entry) :=
  match ty with
  | JoinType.LeftSemi =>
      if is_filtered e then Ok ([], mk_entry (tuples e) true true)
      else
        let? passed := probe_tuples ty filter schema left_schema_len (tuples e) right_tuple in
        Ok ([], mk_entry (omap (fun '(t, p) => match p with Some _ => Some t | None => None end)
                           (zip (tuples e) passed)) true true)
  | JoinType.LeftAnti => Ok ([], mk_entry (tuples e) true (is_filtered e))
  | _ =>
      let? passed := probe_tuples ty filter schema left_schema_len (tuples e) right_tuple in
      Ok (omap id passed, mk_entry (tuples e) true (is_filtered e))
  end.

(** [get_mut] of a key, and the entry's new value. *)
Fixpoint probe_map (key : list DataValue) (f : build_entry -> Result (list Tuple * build_entry))
    (m : build_map) : option (Result (list Tuple * build_map)) :=
  match m with
  | [] => None
  | (k, e) :: m' =>
      if keys_eq k key then
        Some (let? '(out, e') := f e in Ok (out, (k, e') :: m'))
      else
        option_map (fun r => let? '(out, m'') := r in Ok (out, (k, e) :: m'')) (probe_map key f m')
  end.

(** One tuple of the probe phase. *)
Definition probe (ty : JoinType) (filter : option Expr) (schema : Schema) (left_schema_len : nat)
    (on_right_keys : list Expr) (m : build_map) (right_tuple : Tuple)
  : Result (list Tuple * build_map) :=
  let right_cols_len := length (values right_tuple) in
  let? key := projection right_tuple on_right_keys (drop left_schema_len schema) in
  let has_null := existsb is_null key in
  match (if has_null then None
         else probe_map key (probe_entry ty filter schema left_schema_len right_tuple) m) with
  | Some r => r
  | None =>
      match ty with
      | JoinType.RightOuter | JoinType.Full =>
          let empty_len := (length schema - right_cols_len)%nat in
          if (length schema <? right_cols_len)%nat then Panic else
          let? tuple :=
            join_filter (mk_tuple (pk right_tuple) (nulls empty_len ++ values right_tuple))
              schema filter ty left_schema_len in
          Ok (option_list tuple, m)
      | _ => Ok ([], m)
      end
  end.

Fixpoint probe_phase (ty : JoinType) (filter : option Expr) (schema : Schema)
    (left_schema_len : nat) (on_right_keys : list Expr) (rights : list Tuple) (m : build_map)
  : Result (list Tuple * build_map) :=
  match rights with
  | [] => Ok ([], m)
  | right_tuple :: rights' =>
      let? '(out, m) := probe ty filter schema left_schema_len on_right_keys m right_tuple in
      let? '(rest, m) := probe_phase ty filter schema left_schema_len on_right_keys rights' m in
      Ok (out ++ rest, m)
  end.

(** The tuples of an entry yielded after the probe phase.  A left tuple is not
    longer than the schema: the loop that pads it would not end. *)
Definition left_drop (ty : JoinType) (filter : option Expr) (schema : Schema)
    (left_schema_len : nat) (e : build_entry) : Result (list Tuple) :=
  match ty with
  | JoinType.LeftOuter | JoinType.Full =>
      Ok (if is_used e then []
          else map (fun t => mk_tuple (pk t) (values t ++ nulls (length schema - length (values t))))
                 (tuples e))
  | JoinType.LeftSemi | JoinType.LeftAnti =>
      let used := match ty with JoinType.LeftSemi => negb (is_used e) | _ => is_used e end in
      if used then Ok []
      else if is_filtered e then Ok (tuples e)
      else
        let? passed :=
          try_map (fun t => join_filter t schema filter ty left_schema_len) (tuples e) in
        Ok (omap id passed)
  | _ => Ok []
  end.

(** The order in which the build map is drained. *)
Variable drain : build_map -> build_map.

Definition hash_join (ty : JoinType) (on : list (Expr * Expr)) (filter : option Expr)
    (left_sch right_sch : Schema) (lefts rights : list Tuple) : Result (list Tuple) :=
  match ty with
  | JoinType.Cross => Panic
  | _ =>
      match on with
      | [] => Err (UnsupportedStmt [] (* the message is not modelled *))
      | _ =>
          let schema := merge_schema left_sch right_sch ty in
          let left_schema_len := length left_sch in
          let? m := build_phase on.*1 (take left_schema_len schema) lefts in
          let? '(out, m) := probe_phase ty filter schema left_schema_len on.*2 rights m in
          let? rest := try_map (fun ke => left_drop ty filter schema left_schema_len ke.2) (drain m) in
          Ok (out ++ concat rest)
      end
  end.
End Joins.

(** ** Reference semantics

    The rows of a join of two lists of tuples whose pairs match by [M]. *)

Section Reference.
Context {F : Foreign}.
Abbreviation Tuple := (TupleCodec.Tuple F).
Variable M : Tuple -> Tuple -> bool.

Definition row (l r : Tuple) : list DataValue := values l ++ values r.
Definition matched_left (R : list Tuple) (l : Tuple) : bool := existsb (M l) R.
Definition matched_right (L : list Tuple) (r : Tuple) : bool := existsb (fun l => M l r) L.

Definition inner_rows (L R : list Tuple) : list (list DataValue) :=
  concat (map (fun l => map (row l) (filter (fun r => M l r = true) R)) L).
Definition left_rows (right_len : nat) (L R : list Tuple) : list (list DataValue) :=
  map (fun l => values l ++ nulls right_len) (filter (fun l => matched_left R l = false) L).
Definition right_rows (left_len : nat) (L R : list Tuple) : list (list DataValue) :=
  map (fun r => nulls left_len ++ values r) (filter (fun r => matched_right L r = false) R).

Definition ref_join (ty : JoinType) (left_len right_len : nat) (L R : list Tuple)
  : list (list DataValue) :=
  match ty with
  | JoinType.Inner | JoinType.Cross => inner_rows L R
  | JoinType.LeftOuter => inner_rows L R ++ left_rows right_len L R
  | JoinType.RightOuter => inner_rows L R ++ right_rows left_len L R
  | JoinType.Full => inner_rows L R ++ left_rows right_len L R ++ right_rows left_len L R
  | JoinType.LeftSemi => map values (filter (fun l => matched_left R l = true) L)
  | JoinType.LeftAnti => map values (filter (fun l => matched_left R l = false) L)
  end.
End Reference.

(** ** Lists of lists *)

Lemma concat_map_app {A B} (f g : A -> list B) l :
  concat (map (fun x => f x ++ g x) l) ≡ₚ concat (map f l) ++ concat (map g l).
Proof.
  induction l as [|x l IH]; cbn; [reflexivity |]. rewrite IH. solve_Permutation.
Qed.

Lemma concat_map_if {A B} (P : A -> Prop) `{!forall x, Decision (P x)} (f : A -> B) l :
  concat (map (fun x => if decide (P x) then [f x] else []) l) = map f (filter P l).
Proof.
  induction l as [|x l IH]; [reflexivity |]. rewrite filter_cons. cbn [map concat]. rewrite IH.
  now case_decide.
Qed.

(** A double loop may run in either order. *)
Lemma concat_map_swap {A B C} (f : A -> B -> list C) la lb :
  concat (map (fun a => concat (map (f a) lb)) la)
  ≡ₚ concat (map (fun b => concat (map (fun a => f a b) la)) lb).
Proof.
  induction la as [|a la IH]; cbn.
  - induction lb; [reflexivity | assumption].
  - rewrite IH. symmetry. apply (concat_map_app (f a) (fun b => concat (map (fun a => f a b) la)) lb).
Qed.

Section LoopOrder.
Context {F : Foreign}.
Abbreviation Tuple := (TupleCodec.Tuple F).

Lemma inner_rows_right_major (M : Tuple -> Tuple -> bool) L R :
  concat (map (fun r => map (fun l => row l r) (filter (fun l => M l r = true) L)) R)
  ≡ₚ inner_rows M L R.
Proof.
  unfold inner_rows.
  rewrite (map_ext _ (fun r => concat (map (fun l => if decide (M l r = true) then [row l r] else []) L))).
  - rewrite concat_map_swap. erewrite map_ext; [reflexivity |]. intros l.
    apply (concat_map_if (fun r => M l r = true)).
  - intros r. symmetry. apply (concat_map_if (fun l => M l r = true)).
Qed.
End LoopOrder.

Lemma nulls_length {F : Foreign} n : length (nulls n) = n.
Proof. apply repeat_length. Qed.

(** ** The nested loop join *)

Section NestedLoop.
Context {F : Foreign} {Expr Col : Type}.
Abbreviation Tuple := (TupleCodec.Tuple F).
Abbreviation Schema := (list (Column Col)).
Variable eval : Expr -> Tuple -> Schema -> Result DataValue.
Variables (ty : JoinType) (flt : option Expr) (schema : Schema) (cond : EqualCondition Expr Col).

(** Whether the executor matches a pair: equal keys, and the filter is true. *)
Definition nl_match (l r : Tuple) : Result bool :=
  let? eq := equals _ _ eval cond l r in
  match flt, eq with
  | Some filter, true =>
      let? value := eval filter (merge_tuple l r ty) schema in
      match value with
      | DV.Boolean b => Ok b
      | DV.Null => Ok false
      | _ => Err InvalidType
      end
  | _, _ => Ok eq
  end.

Variable M : Tuple -> Tuple -> bool.
Hypothesis not_full : ty <> JoinType.Full.

(** The row of a pair, in the order of the original inputs. *)
Definition pair_row (l r : Tuple) : list DataValue :=
  match ty with
  | JoinType.LeftSemi => values l
  | JoinType.RightOuter => row r l
  | _ => row l r
  end.

Lemma emit_match l r :
  ty <> JoinType.LeftAnti -> values l <> [] ->
  exists t, emit ty l r true = Some t /\ values t = pair_row l r.
Proof.
  intros Ht Hl. destruct l as [pl vl], r as [pr vr]. cbn [values] in Hl.
  destruct vl as [|v vl]; [easy |].
  unfold emit, emit_tuple, pair_row, row. cbn [values pk length].
  destruct ty; try easy; try (eexists; split; reflexivity).
  - rewrite take_app_length' by reflexivity. eexists; split; reflexivity.
  - destruct vr; eexists; split; reflexivity.
Qed.

(** What the loop over the right tuples yields for a left tuple. *)
Definition left_yield (R : list Tuple) (l : Tuple) : list (list DataValue) :=
  match ty with
  | JoinType.LeftSemi => if existsb (M l) R then [values l] else []
  | JoinType.LeftAnti => []
  | _ => map (pair_row l) (filter (fun r => M l r = true) R)
  end.

Lemma nl_pair_spec hm l r :
  nl_match l r = Ok (M l r) -> values l <> [] -> (ty = JoinType.LeftSemi -> hm = false) ->
  exists t, nl_pair _ _ eval ty flt schema cond hm l r = Ok (t, hm || M l r)
    /\ map values (option_list t)
       = (if M l r then match ty with JoinType.LeftAnti => [] | _ => [pair_row l r] end else []).
Proof.
  intros Hm Hl Hs. unfold nl_match in Hm. unfold nl_pair.
  destruct (equals _ _ eval cond l r) as [[]| |]; cbn [result_bind] in *; [| | discriminate ..].
  2: { exists None. replace (M l r) with false by (destruct flt; congruence).
       rewrite orb_false_r. now destruct flt. }
  assert (Hemit : exists t, emit ty l r true = t
            /\ map values (option_list t) = match ty with JoinType.LeftAnti => [] | _ => [pair_row l r] end).
  { destruct (decide (ty = JoinType.LeftAnti)) as [-> | Ht]; [now exists None |].
    destruct (emit_match l r Ht Hl) as (t & -> & Ev). exists (Some t). cbn. rewrite Ev. now destruct ty. }
  destruct Hemit as (t & Et & Ev).
  destruct flt as [f |].
  - destruct (eval f _ _) as [v | |]; cbn [result_bind] in *; [| discriminate ..].
    destruct v as [|[]| | | | | | | | | | | | | | | | | ]; try discriminate; inv_ok.
    + exists None. now rewrite <- Hm, orb_false_r.
    + exists (emit ty l r true). rewrite <- Hm, orb_true_r. split; [| exact Ev].
      clear Ev. destruct ty; auto. now rewrite Hs.
    + exists None. now rewrite <- Hm, orb_false_r.
  - inv_ok. exists (emit ty l r true). rewrite <- Hm, orb_true_r. now split.
Qed.

Lemma filter_cons_bool {A} (f : A -> bool) x l :
  filter (fun y => f y = true) (x :: l) = (if f x then [x] else []) ++ filter (fun y => f y = true) l.
Proof. rewrite filter_cons. destruct (f x) eqn:E; case_decide; easy. Qed.

(** A semi join leaves the loop at the first tuple it yields, an anti join at the
    first match. *)
Definition leaves (matched : bool) : bool :=
  match ty with JoinType.LeftSemi | JoinType.LeftAnti => matched | _ => false end.

Lemma nl_inner_cons l r R hm idx fm :
  nl_match l r = Ok (M l r) -> values l <> [] ->
  (ty = JoinType.LeftSemi \/ ty = JoinType.LeftAnti -> hm = false) ->
  exists t,
    map values (option_list t)
      = (if M l r then match ty with JoinType.LeftAnti => [] | _ => [pair_row l r] end else [])
    /\ nl_inner _ _ eval ty flt schema cond l (r :: R) (mk_nl_state hm idx None fm)
       = (if leaves (M l r) then Ok (option_list t, mk_nl_state (hm || M l r) idx None fm)
          else let? '(out, s) := nl_inner _ _ eval ty flt schema cond l R
                                   (mk_nl_state (hm || M l r) (S idx) None fm) in
               Ok (option_list t ++ out, s)).
Proof.
  intros Hr Hl Hs. cbn [nl_inner has_matched right_idx st_bitmap st_first].
  destruct (nl_pair_spec hm l r Hr Hl) as (t & -> & Ev); [tauto |]. exists t. split; [exact Ev |].
  cbn [result_bind]. unfold nl_record, leaves. cbn [st_bitmap].
  destruct t as [t |], ty; try congruence; cbn in Ev |- *; try (destruct (M l r); congruence);
    try (rewrite Hs by auto); try (destruct (M l r); reflexivity || discriminate); reflexivity.
Qed.

Lemma nl_inner_spec l R :
  Forall (fun r => nl_match l r = Ok (M l r)) R -> values l <> [] ->
  forall hm idx fm, (ty = JoinType.LeftSemi \/ ty = JoinType.LeftAnti -> hm = false) ->
  exists out s, nl_inner _ _ eval ty flt schema cond l R (mk_nl_state hm idx None fm) = Ok (out, s)
    /\ map values out = left_yield R l /\ has_matched s = hm || existsb (M l) R
    /\ st_bitmap s = None /\ st_first s = fm.
Proof.
  intros HR Hl. induction HR as [|r R Hr _ IH]; intros hm idx fm Hs.
  - eexists _, _. split; [reflexivity |]. cbn. rewrite orb_false_r. split; [| auto].
    unfold left_yield. now destruct ty.
  - destruct (nl_inner_cons l r R hm idx fm Hr Hl Hs) as (t & Ev & ->). cbn [existsb].
    destruct (leaves (M l r)) eqn:El.
    + eexists _, _. split; [reflexivity |]. cbn [has_matched st_bitmap st_first].
      unfold leaves in El. unfold left_yield, pair_row in *. cbn [existsb]. rewrite Ev.
      destruct ty; try discriminate; rewrite El; cbn; rewrite ?orb_true_r; auto.
    + destruct (IH (hm || M l r) (S idx) fm) as (out & s & -> & Eo & Em & Eb & Ef).
      { intros Ht. rewrite Hs by assumption. unfold leaves in El. now destruct Ht as [-> | ->]. }
      cbn [result_bind]. eexists _, _. split; [reflexivity |].
      rewrite Em, orb_assoc. split; [| auto]. rewrite map_app, Ev, Eo.
      unfold leaves in El. unfold left_yield. cbn [existsb]. rewrite filter_cons_bool.
      destruct ty; try (rewrite El; reflexivity); now destruct (M l r).
Qed.

(** The row a left tuple without a match gives. *)
Definition left_last (right_len : nat) (R : list Tuple) (l : Tuple) : list (list DataValue) :=
  if decide (matched_left M R l = false) then
    match ty with
    | JoinType.LeftAnti => [values l]
    | JoinType.LeftOuter => [values l ++ nulls right_len]
    | JoinType.RightOuter => [nulls right_len ++ values l]
    | _ => []
    end
  else [].

Lemma nl_unmatched_spec n l :
  values l <> [] ->
  map values (option_list (nl_unmatched ty n l))
  = match ty with
    | JoinType.LeftAnti => [values l]
    | JoinType.LeftOuter => [values l ++ nulls n]
    | JoinType.RightOuter => [nulls n ++ values l]
    | _ => []
    end.
Proof.
  intros Hl. destruct l as [pl [|v vl]]; [easy |].
  unfold nl_unmatched, emit, emit_tuple. cbn [values pk].
  destruct ty; try reflexivity; try congruence.
  - rewrite take_app_length, length_app, nulls_length, Nat.add_comm, Nat.add_sub. reflexivity.
  - rewrite drop_app_length, nulls_length. now destruct n.
Qed.

Lemma nl_outer_spec L R fm :
  (forall l r, l ∈ L -> r ∈ R -> nl_match l r = Ok (M l r)) ->
  Forall (fun l => values l <> []) L ->
  exists out, nl_outer _ _ eval ty flt schema cond L R None fm = Ok (out, None, fm)
    /\ map values out = concat (map (fun l => left_yield R l ++ left_last (length (right_schema _ _ cond)) R l) L).
Proof.
  intros HM HL. revert fm HM. induction HL as [|l L Hl _ IH]; intros fm HM; [now exists [] |].
  cbn [nl_outer]. destruct (nl_inner_spec l R) with (hm := false) (idx := 0%nat) (fm := fm)
    as (out & s & -> & Eo & Em & Eb & Ef); [| assumption | auto |].
  { apply Forall_forall. intros r Hr. apply HM; [apply list_elem_of_here | assumption]. }
  cbn [result_bind]. rewrite Eb, Ef, Em.
  destruct (IH fm) as (rest & Er & Ev); [intros; apply HM; [now apply list_elem_of_further | assumption] |].
  replace (match ty with JoinType.Full => Some (repeat false (right_idx s)) | _ => None end)
    with (@None (list bool)) by now destruct ty.
  rewrite Er. cbn [result_bind]. eexists. split; [reflexivity |].
  rewrite !map_app, Eo, Ev. cbn [map concat]. rewrite <- app_assoc. do 2 f_equal.
  unfold left_last, matched_left. cbn [orb].
  destruct (existsb (M l) R); [now rewrite decide_False |].
  rewrite decide_True by reflexivity. now apply nl_unmatched_spec.
Qed.
End NestedLoop.

Section NestedLoopSpec.
Context {F : Foreign} {L' : ForeignLaws F} {Expr Col : Type}.
Abbreviation Tuple := (TupleCodec.Tuple F).
Abbreviation Schema := (list (Column Col)).
Variable eval : Expr -> Tuple -> Schema -> Result DataValue.

(** Whether the nested loop join matches a left and a right tuple; a right outer
    join evaluates the pair the other way round. *)
Definition nested_loop_match (ty : JoinType) (on : list (Expr * Expr)) (flt : option Expr)
    (left_sch right_sch : Schema) (l r : Tuple) : Result bool :=
  let schema := merge_schema Col left_sch right_sch ty in
  match ty with
  | JoinType.RightOuter =>
      nl_match eval ty flt schema (mk_equal_condition Expr Col on.*2 on.*1 right_sch left_sch) r l
  | _ => nl_match eval ty flt schema (mk_equal_condition Expr Col on.*1 on.*2 left_sch right_sch) l r
  end.

Lemma left_last_rows ty M n (L R : list Tuple) :
  concat (map (left_last ty M n R) L)
  = match ty with
    | JoinType.LeftAnti => map values (filter (fun l => matched_left M R l = false) L)
    | JoinType.LeftOuter => left_rows M n L R
    | JoinType.RightOuter => map (fun l => nulls n ++ values l) (filter (fun l => matched_left M R l = false) L)
    | _ => []
    end.
Proof.
  unfold left_last, left_rows. destruct ty; try apply (concat_map_if (fun l => matched_left M R l = false));
    induction L as [|l L IH]; cbn; try reflexivity; rewrite IH; now case_decide.
Qed.

Lemma left_yield_rows ty M (L R : list Tuple) :
  ty <> JoinType.Full ->
  concat (map (left_yield ty M R) L)
  = match ty with
    | JoinType.LeftSemi => map values (filter (fun l => matched_left M R l = true) L)
    | JoinType.LeftAnti => []
    | JoinType.RightOuter =>
        concat (map (fun l => map (fun r => row r l) (filter (fun r => M l r = true) R)) L)
    | _ => inner_rows M L R
    end.
Proof.
  intros Ht. unfold left_yield, pair_row. destruct ty; try reflexivity; try congruence.
  - rewrite <- (concat_map_if (fun l => matched_left M R l = true)). f_equal. apply map_ext. intros l.
    unfold matched_left. case_decide as E; [now rewrite E |]. now destruct (existsb _ _).
  - induction L; [reflexivity | assumption].
Qed.

(** The rows of the nested loop join are those of the reference join on the
    pairs it matches. *)
Lemma nested_loop_join_rows ty on flt left_sch right_sch M L R :
  ty <> JoinType.Full ->
  (forall l r, l ∈ L -> r ∈ R -> nested_loop_match ty on flt left_sch right_sch l r = Ok (M l r)) ->
  Forall (fun t => values t <> []) (L ++ R) ->
  exists out, nested_loop_join _ _ eval ty on flt left_sch right_sch L R = Ok out
    /\ map values out ≡ₚ ref_join M ty (length left_sch) (length right_sch) L R.
Proof.
  intros Ht HM [HL HR]%Forall_app. unfold nested_loop_match in HM.
  destruct (decide (ty = JoinType.RightOuter)) as [-> | Hr].
  - destruct (nl_outer_spec eval JoinType.RightOuter flt (merge_schema Col left_sch right_sch JoinType.RightOuter)
      (mk_equal_condition Expr Col on.*2 on.*1 right_sch left_sch) (fun r l => M l r) Ht R L [])
      as (out & E & Ev); [auto | assumption |].
    exists out. unfold nested_loop_join, nl_execute. rewrite E. split; [reflexivity |].
    rewrite Ev, concat_map_app, left_last_rows, left_yield_rows by discriminate. cbn [right_schema ref_join].
    now rewrite inner_rows_right_major.
  - destruct (nl_outer_spec eval ty flt (merge_schema Col left_sch right_sch ty)
      (mk_equal_condition Expr Col on.*1 on.*2 left_sch right_sch) M Ht L R [])
      as (out & E & Ev); [intros l r Hl Hr'; specialize (HM l r Hl Hr'); now destruct ty | assumption |].
    exists out. unfold nested_loop_join, nl_execute. split.
    + destruct ty; try congruence; now rewrite E.
    + rewrite Ev, concat_map_app, left_last_rows, left_yield_rows by assumption.
      destruct ty; try congruence; cbn [right_schema ref_join]; now rewrite ?app_nil_r.
Qed.

(** Two keys of the same length agree when their values are pairwise equal; two
    nulls are. *)
Definition same_key (k1 k2 : list DataValue) : bool := forallb (fun p => dv_eq p.1 p.2) (zip k1 k2).

(** The filter accepts a pair, or refuses it with false or null; without a filter
    every pair is accepted.  It is read on the row of the pair under the schema
    of the join; the tuple id is that of the tuple the executor has on its left,
    and of the other one if that has none. *)
Definition accepts (ty : JoinType) (flt : option Expr) (left_sch right_sch : Schema) (l r : Tuple) (b : bool) : Prop :=
  let tid := match ty, pk l, pk r with
             | JoinType.RightOuter, _, Some k => Some k
             | JoinType.RightOuter, left_pk, None => left_pk
             | _, Some k, _ => Some k
             | _, None, right_pk => right_pk
             end in
  match flt with
  | None => b = true
  | Some f => exists v, eval f (mk_tuple tid (values l ++ values r)) (merge_schema Col left_sch right_sch ty) = Ok v
      /\ (v = DV.Boolean b \/ v = DV.Null /\ b = false)
  end.

Lemma keys_eq_same_key (k1 k2 : list DataValue) : length k1 = length k2 -> keys_eq k1 k2 = same_key k1 k2.
Proof.
  unfold same_key. revert k2. induction k1 as [|v k1 IH]; intros [|w k2] E; try discriminate; [reflexivity |].
  cbn. f_equal. apply IH. now injection E.
Qed.

Lemma equals_same_key lks rks lsch rsch l r kl kr :
  length lks = length rks ->
  projection _ _ eval l lks lsch = Ok kl -> projection _ _ eval r rks rsch = Ok kr ->
  equals _ _ eval (mk_equal_condition Expr Col lks rks lsch rsch) l r = Ok (same_key kl kr).
Proof.
  intros Hlen Hl Hr. pose proof (try_map_length _ _ _ Hl) as El. pose proof (try_map_length _ _ _ Hr) as Er.
  unfold equals. cbn [on_left_keys on_right_keys left_schema right_schema]. destruct lks as [|lk lks].
  - cbn in Hl. apply Ok_inj in Hl as <-. reflexivity.
  - rewrite Hl, Hr. cbn [result_bind]. rewrite keys_eq_same_key by congruence. reflexivity.
Qed.

Lemma accepts_value ty flt left_sch right_sch l r b : accepts ty flt left_sch right_sch l r b ->
  match flt with
  | None => b = true
  | Some f => exists v, eval f (match ty with JoinType.RightOuter => merge_tuple r l ty | _ => merge_tuple l r ty end)
                (merge_schema Col left_sch right_sch ty) = Ok v
      /\ (v = DV.Boolean b \/ v = DV.Null /\ b = false)
  end.
Proof.
  unfold accepts, merge_tuple, option_or. destruct flt as [f|]; [| auto]. destruct ty, (pk l), (pk r); auto.
Qed.

Lemma nested_loop_match_spec ty on flt left_sch right_sch l r kl kr b :
  projection _ _ eval l on.*1 left_sch = Ok kl -> projection _ _ eval r on.*2 right_sch = Ok kr ->
  (same_key kl kr = true -> accepts ty flt left_sch right_sch l r b) ->
  nested_loop_match ty on flt left_sch right_sch l r = Ok (same_key kl kr && b).
Proof.
  intros Hl Hr Hb. assert (Hlen : length on.*1 = length on.*2) by now rewrite !length_fmap.
  assert (Hsym : same_key kr kl = same_key kl kr).
  { pose proof (try_map_length _ _ _ Hl). pose proof (try_map_length _ _ _ Hr).
    rewrite <- !keys_eq_same_key by congruence. apply keys_eq_sym. }
  pose proof (equals_same_key on.*1 on.*2 left_sch right_sch l r kl kr Hlen Hl Hr) as E1.
  pose proof (equals_same_key on.*2 on.*1 right_sch left_sch r l kr kl (eq_sym Hlen) Hr Hl) as E2. rewrite Hsym in E2.
  assert (Hb' := fun E => accepts_value _ _ _ _ _ _ _ (Hb E)). clear Hb.
  unfold nested_loop_match, nl_match.
  destruct ty; rewrite ?E1, ?E2; cbn [result_bind];
    (destruct (same_key kl kr); [specialize (Hb' eq_refl) | now destruct flt]);
    (destruct flt as [f|]; [| now rewrite Hb']);
    destruct Hb' as (v & -> & [-> | [-> ->]]); reflexivity.
Qed.

(** C9. The nested loop join implements every join but the full one: when the
    keys of the tuples evaluate and the filter evaluates on the pairs with equal
    keys, its rows are those of the reference join on the pairs whose keys are
    pairwise equal, two nulls counting as equal, and that the filter accepts, up
    to order.  An empty ON list matches every pair; tuples have a column. *)
Theorem nested_loop_join_correct ty on flt left_sch right_sch lkey rkey pass L R :
  ty <> JoinType.Full ->
  (forall l, l ∈ L -> projection _ _ eval l on.*1 left_sch = Ok (lkey l)) ->
  (forall r, r ∈ R -> projection _ _ eval r on.*2 right_sch = Ok (rkey r)) ->
  (forall l r, l ∈ L -> r ∈ R -> same_key (lkey l) (rkey r) = true ->
     accepts ty flt left_sch right_sch l r (pass l r)) ->
  Forall (fun t => values t <> []) (L ++ R) ->
  exists out, nested_loop_join _ _ eval ty on flt left_sch right_sch L R = Ok out
    /\ map values out
       ≡ₚ ref_join (fun l r => same_key (lkey l) (rkey r) && pass l r) ty (length left_sch) (length right_sch) L R.
Proof.
  intros Ht Hl Hr Hp. apply nested_loop_join_rows; [exact Ht |]. intros l r Hl' Hr'.
  apply nested_loop_match_spec; auto.
Qed.

(** A full nested loop join of an empty left input panics when the right
    input has a tuple: the bitmap is only made for the first left tuple. *)
Theorem full_join_empty_left_panics on flt left_sch right_sch r R :
  nested_loop_join _ _ eval JoinType.Full on flt left_sch right_sch [] (r :: R) = Panic.
Proof. reflexivity. Qed.
End NestedLoopSpec.

(** ** The hash join *)

Section HashJoin.
Context {F : Foreign} {L' : ForeignLaws F}.
Abbreviation Tuple := (TupleCodec.Tuple F).

Abbreviation build_map := (list (list DataValue * build_entry)).
Abbreviation unique := (StronglySorted (fun a b : list DataValue * build_entry => keys_eq a.1 b.1 = false)).

(** The entry [get] finds. *)
Fixpoint entry_of (key : list DataValue) (m : build_map) : option build_entry :=
  match m with
  | [] => None
  | (k, e) :: m' => if keys_eq k key then Some e else entry_of key m'
  end.

Lemma entry_of_congr k1 k2 m : keys_eq k1 k2 = true -> entry_of k1 m = entry_of k2 m.
Proof.
  intros E. induction m as [|[k e] m IH]; cbn; [reflexivity |].
  now rewrite !(keys_eq_sym k), (keys_eq_congr k1 k2 k E), IH.
Qed.

Lemma build_push_entry key t m k :
  entry_of k (build_push key t m)
  = if keys_eq key k then
      Some (match entry_of k m with
            | Some e => mk_entry (tuples e ++ [t]) (is_used e) (is_filtered e)
            | None => mk_entry [t] false false
            end)
    else entry_of k m.
Proof.
  induction m as [|[k' e] m IH]; cbn; [now destruct (keys_eq key k) |].
  destruct (keys_eq k' key) eqn:E; cbn.
  - rewrite (keys_eq_congr k' key k E). now destruct (keys_eq key k).
  - destruct (keys_eq k' k) eqn:E'; [| exact IH].
    destruct (keys_eq key k) eqn:E''; [| reflexivity].
    rewrite keys_eq_sym in E''. rewrite keys_eq_sym, <- (keys_eq_congr k key k' E'') in E.
    rewrite keys_eq_sym in E. congruence.
Qed.

Lemma build_push_elem key t m x :
  x ∈ build_push key t m -> keys_eq x.1 key = true \/ x ∈ m.
Proof.
  induction m as [|[k e] m IH]; cbn.
  - intros ->%list_elem_of_singleton. left. apply keys_eq_refl.
  - destruct (keys_eq k key) eqn:E; intros [-> | Hx]%elem_of_cons; cbn; rewrite ?elem_of_cons; tauto.
Qed.

Lemma build_push_unique key t m : unique m -> unique (build_push key t m).
Proof.
  induction 1 as [|[k e] m Hm IH Hk]; cbn; [repeat constructor |].
  destruct (keys_eq k key) eqn:E; constructor; try assumption.
  apply Forall_forall. intros x [Hx | Hx]%build_push_elem;
    [| now apply (proj1 (Forall_forall _ _) Hk)].
  cbn. rewrite keys_eq_sym, (keys_eq_congr _ _ k Hx), keys_eq_sym. exact E.
Qed.

(** The tuples of the entries whose key satisfies [P]. *)
Definition select (P : list DataValue -> bool) (m : build_map) : list Tuple :=
  concat (map (fun ke => if P ke.1 then tuples ke.2 else []) m).

Lemma select_push (P : list DataValue -> bool) key t m :
  (forall k, keys_eq k key = true -> P k = P key) ->
  select P (build_push key t m) ≡ₚ (if P key then [t] else []) ++ select P m.
Proof.
  intros HP. induction m as [|[k e] m IH]; cbn; [now destruct (P key) |].
  destruct (keys_eq k key) eqn:E; unfold select in *; cbn [map concat fst snd tuples].
  - rewrite (HP k E). destruct (P key); [| reflexivity]. solve_Permutation.
  - rewrite IH. destruct (P k), (P key); solve_Permutation.
Qed.
End HashJoin.

Section HashProof.
Context {F : Foreign} {L' : ForeignLaws F} {Expr Col : Type}.
Abbreviation Tuple := (TupleCodec.Tuple F).
Abbreviation Schema := (list (Column Col)).
Abbreviation build_map := (list (list DataValue * build_entry)).
Abbreviation unique := (StronglySorted (fun a b : list DataValue * build_entry => keys_eq a.1 b.1 = false)).
Variable eval : Expr -> Tuple -> Schema -> Result DataValue.
Variables (ty : JoinType) (flt : option Expr) (schema : Schema) (left_len : nat).
Variables (left_keys right_keys : list Expr).
Variables (lkey rkey : Tuple -> list DataValue) (pass : Tuple -> Tuple -> bool).

(** The filter on a pair. *)
Definition join_pass (l r : Tuple) : Result bool :=
  match flt with
  | None => Ok true
  | Some f =>
      let? v := eval f (mk_tuple (pk l) (row l r)) schema in
      match v with
      | DV.Boolean b => Ok b
      | DV.Null => Ok false
      | _ => Err InvalidType
      end
  end.

Hypothesis Hty : ty <> JoinType.Cross.
Hypothesis Hflt : flt = None \/ ty = JoinType.Inner.

(** *** Build phase *)

Record built (L : list Tuple) (m : build_map) : Prop := mk_built {
  built_unique : unique m;
  built_flags : Forall (fun ke => is_used ke.2 = false /\ is_filtered ke.2 = false) m;
  built_entry : forall k,
    entry_of k m = match filter (fun l => keys_eq (lkey l) k = true) L with
                   | [] => None
                   | ts => Some (mk_entry ts false false)
                   end;
  built_select : forall P, (forall k k', keys_eq k k' = true -> P k = P k') ->
    select P m ≡ₚ filter (fun l => P (lkey l) = true) L
}.

Lemma built_push L m t : built L m -> built (L ++ [t]) (build_push (lkey t) t m).
Proof.
  intros [Hu Hf He Hs]. constructor.
  - now apply build_push_unique.
  - clear -Hf. induction Hf as [|[k e] m [H1 H2] Hm IH]; cbn; [now repeat constructor |].
    destruct (keys_eq k (lkey t)); constructor; auto.
  - intros k. rewrite build_push_entry, He, filter_app, filter_cons_bool.
    destruct (keys_eq (lkey t) k).
    + destruct (filter _ L); reflexivity.
    + rewrite app_nil_r. reflexivity.
  - intros P HP. rewrite select_push by auto. rewrite filter_app, filter_cons_bool, Hs by assumption.
    cbn. rewrite app_nil_r. apply Permutation_app_comm.
Qed.

Lemma build_phase_spec L :
  (forall l, l ∈ L -> projection _ _ eval l left_keys (take left_len schema) = Ok (lkey l)) ->
  exists m, build_phase _ _ eval left_keys (take left_len schema) L = Ok m /\ built L m.
Proof.
  intros HL. unfold build_phase.
  assert (Hgen : forall L0 m, built L0 m -> exists m', try_fold (fun m tuple =>
      let? key := projection _ _ eval tuple left_keys (take left_len schema) in
      Ok (build_push key tuple m)) L m = Ok m' /\ built (L0 ++ L) m').
  { induction L as [|l L IH]; intros L0 m Hm; cbn; [exists m; now rewrite app_nil_r |].
    rewrite HL by apply list_elem_of_here. cbn [result_bind].
    destruct (IH (fun x Hx => HL x (list_elem_of_further _ _ _ Hx)) (L0 ++ [l]) _ (built_push _ _ _ Hm))
      as (m' & E & Hm'). exists m'. now rewrite <- app_assoc in Hm'. }
  destruct (Hgen [] []) as (m & E & Hm); [| now exists m].
  constructor; [constructor .. | reflexivity | reflexivity].
Qed.

(** *** Probe phase *)

Definition hits (k : list DataValue) (r : Tuple) : bool :=
  negb (existsb is_null (rkey r)) && keys_eq k (rkey r).

(** The build map after the right tuples [R] have been probed. *)
Definition mark (R : list Tuple) (m : build_map) : build_map :=
  map (fun ke => (ke.1, mk_entry (tuples ke.2) (existsb (hits ke.1) R)
                          (match ty with JoinType.LeftSemi => existsb (hits ke.1) R | _ => false end))) m.

Lemma entry_of_elem k (m : build_map) e : entry_of k m = Some e -> exists k', (k', e) ∈ m /\ keys_eq k' k = true.
Proof.
  induction m as [|[k' e'] m IH]; cbn; [discriminate |].
  destruct (keys_eq k' k) eqn:E; intros H.
  - injection H as ->. exists k'. split; [apply list_elem_of_here | exact E].
  - destruct (IH H) as (k'' & Hin & E'). exists k''. split; [now apply list_elem_of_further | exact E'].
Qed.

Lemma probe_map_spec key f g h (m : build_map) :
  unique m -> (forall k e, (k, e) ∈ m -> keys_eq k key = true -> f e = Ok (g e, h e)) ->
  probe_map key f m
  = match entry_of key m with
    | None => None
    | Some e => Some (Ok (g e, map (fun ke => (ke.1, if keys_eq ke.1 key then h ke.2 else ke.2)) m))
    end.
Proof.
  intros Hu Hf. induction Hu as [|[k e] m Hm IH Hk]; cbn; [reflexivity |].
  destruct (keys_eq k key) eqn:E.
  - rewrite (Hf k e) by (apply list_elem_of_here || assumption). cbn. do 4 f_equal.
    symmetry. rewrite <- map_id. apply map_ext_in. intros [k' e'] Hin%list_elem_of_In. cbn.
    apply (proj1 (Forall_forall _ _) Hk) in Hin. cbn in Hin.
    rewrite (keys_eq_congr k key k' E), keys_eq_sym in Hin. now rewrite Hin.
  - rewrite IH by (intros; eapply Hf; [apply list_elem_of_further |]; eauto).
    now destruct (entry_of key m).
Qed.

Abbreviation joined := (fun l r : Tuple => mk_tuple (pk l) (row l r)).
Abbreviation yields := (match ty with JoinType.LeftSemi | JoinType.LeftAnti => false | _ => true end).

Lemma join_pass_none l r : join_pass l r = Ok (pass l r) -> flt = None -> pass l r = true.
Proof. unfold join_pass. intros H Hn. rewrite Hn in H. apply Ok_inj in H. exact (eq_sym H). Qed.

Lemma join_filter_pair l r :
  join_pass l r = Ok (pass l r) ->
  join_filter _ _ eval (joined l r) schema flt ty left_len
  = Ok (if pass l r then Some (joined l r) else None).
Proof.
  unfold join_pass, join_filter. destruct flt as [f |].
  - destruct Hflt as [? | ->]; [discriminate |].
    destruct (eval f _ _) as [v | |]; cbn [result_bind]; [| discriminate ..].
    destruct v as [|[]| | | | | | | | | | | | | | | | | ]; intros H; inv_ok; now rewrite <- H.
  - intros H. inv_ok. now rewrite <- H.
Qed.

Lemma omap_pass r ts :
  omap id (map (fun l => if pass l r then Some (joined l r) else None) ts)
  = map (fun l => joined l r) (filter (fun l => pass l r = true) ts).
Proof.
  induction ts as [|l ts IH]; [reflexivity |]. rewrite filter_cons_bool. cbn [map omap list_omap].
  destruct (pass l r); cbn; now rewrite <- IH.
Qed.

Lemma semi_keeps r ts :
  (forall l, l ∈ ts -> pass l r = true) ->
  omap (fun '(t, p) => match p with Some _ => Some t | None => None end)
    (zip ts (map (fun l => if pass l r then Some (joined l r) else None) ts)) = ts.
Proof.
  induction ts as [|l ts IH]; intros Hp; [reflexivity |]. cbn.
  rewrite Hp by apply list_elem_of_here. cbn. f_equal. apply IH.
  intros x Hx. apply Hp. now apply list_elem_of_further.
Qed.

Lemma probe_entry_spec r e :
  (forall l, l ∈ tuples e -> join_pass l r = Ok (pass l r)) ->
  probe_entry _ _ eval ty flt schema left_len r e
  = Ok (if yields then map (fun l => joined l r) (filter (fun l => pass l r = true) (tuples e)) else [],
        mk_entry (tuples e) true (match ty with JoinType.LeftSemi => true | _ => is_filtered e end)).
Proof.
  intros Hp.
  assert (Ht : probe_tuples _ _ eval ty flt schema left_len (tuples e) r
               = Ok (map (fun l => if pass l r then Some (joined l r) else None) (tuples e))).
  { apply try_map_ok. intros l Hl. apply join_filter_pair. auto. }
  unfold probe_entry. rewrite Ht. cbn [result_bind]. rewrite omap_pass.
  destruct ty; try reflexivity.
  destruct (is_filtered e); [reflexivity |]. rewrite semi_keeps; [reflexivity |].
  intros l Hl. destruct Hflt as [Hn | ?]; [| discriminate].
  exact (join_pass_none l r (Hp l Hl) Hn).
Qed.

Lemma mark_unique R m : unique m -> unique (mark R m).
Proof.
  induction 1 as [|ke m Hm IH Hk]; cbn; constructor; [exact IH |].
  apply Forall_map. exact Hk.
Qed.

Lemma mark_entry R m k :
  match entry_of k m with
  | None => entry_of k (mark R m) = None
  | Some e => exists e', entry_of k (mark R m) = Some e' /\ tuples e' = tuples e
  end.
Proof.
  induction m as [|[k' e'] m IH]; cbn; [reflexivity |].
  destruct (keys_eq k' k); [eexists; now split | exact IH].
Qed.

Lemma entry_of_none k (m : build_map) ke : entry_of k m = None -> ke ∈ m -> keys_eq ke.1 k = false.
Proof.
  induction m as [|[k' e'] m IH]; cbn; [now intros _ ?%not_elem_of_nil |].
  destruct (keys_eq k' k) eqn:E; [discriminate |].
  intros H [-> | Hin]%elem_of_cons; auto.
Qed.

Lemma mark_skip R m r : (forall ke, ke ∈ m -> hits ke.1 r = false) -> mark (R ++ [r]) m = mark R m.
Proof.
  intros Hh. apply map_ext_in. intros ke Hin%list_elem_of_In.
  rewrite existsb_app. cbn. rewrite (Hh ke Hin), !orb_false_r. reflexivity.
Qed.

Lemma hits_key k r : existsb is_null (rkey r) = false -> hits k r = keys_eq k (rkey r).
Proof. intros Hn. unfold hits. now rewrite Hn. Qed.

Lemma mark_hit R m r :
  existsb is_null (rkey r) = false ->
  map (fun ke => (ke.1, if keys_eq ke.1 (rkey r)
                        then mk_entry (tuples ke.2) true
                               (match ty with JoinType.LeftSemi => true | _ => is_filtered ke.2 end)
                        else ke.2)) (mark R m)
  = mark (R ++ [r]) m.
Proof.
  intros Hn. unfold mark. rewrite map_map. apply map_ext. intros [k e]. cbn.
  rewrite existsb_app. cbn. rewrite (hits_key k r Hn).
  destruct (keys_eq k (rkey r)); rewrite ?orb_true_r, ?orb_false_r; [| reflexivity].
  now destruct ty.
Qed.

(** The pairs the executor matches. *)
Definition hash_match (l r : Tuple) : bool := hits (lkey l) r && pass l r.

(** The rows yielded while a right tuple is probed. *)
Definition right_yield (L : list Tuple) (r : Tuple) : list (list DataValue) :=
  if yields then
    map (fun l => row l r) (filter (fun l => hash_match l r = true) L)
    ++ (if decide (matched_right hash_match L r = false) then
          match ty with
          | JoinType.RightOuter | JoinType.Full => [nulls left_len ++ values r]
          | _ => []
          end
        else [])
  else [].

Lemma filter_pass (L : list Tuple) r :
  existsb is_null (rkey r) = false ->
  filter (fun l => pass l r = true) (filter (fun l => keys_eq (lkey l) (rkey r) = true) L)
  = filter (fun l => hash_match l r = true) L.
Proof.
  intros Hn. induction L as [|l L IH]; [reflexivity |]. rewrite !filter_cons_bool, filter_app, IH.
  unfold hash_match. rewrite (hits_key _ _ Hn). destruct (keys_eq _ _); [| reflexivity].
  rewrite filter_cons_bool. cbn. now rewrite app_nil_r.
Qed.

Lemma no_match_filter (L : list Tuple) r :
  filter (fun l => hash_match l r = true) L = [] <-> matched_right hash_match L r = false.
Proof.
  unfold matched_right. induction L as [|l L IH]; [easy |]. rewrite filter_cons_bool. cbn [existsb].
  destruct (hash_match l r); [easy | exact IH].
Qed.

Lemma map_values_joined r ts : map values (map (fun l => joined l r) ts) = map (fun l => row l r) ts.
Proof. rewrite map_map. reflexivity. Qed.

(** A right tuple that hits no entry. *)
Lemma probe_miss L R r m0 :
  length schema = (left_len + length (values r))%nat ->
  (forall l, l ∈ L -> hash_match l r = false) ->
  exists out,
    match ty with
    | JoinType.RightOuter | JoinType.Full =>
        let empty_len := (length schema - length (values r))%nat in
        if (length schema <? length (values r))%nat then Panic else
        let? tuple := join_filter _ _ eval (mk_tuple (pk r) (nulls empty_len ++ values r))
                        schema flt ty left_len in
        Ok (option_list tuple, mark R m0)
    | _ => Ok ([], mark R m0)
    end = Ok (out, mark R m0) /\ map values out = right_yield L r.
Proof.
  intros Hlen Hno.
  assert (Hf : filter (fun l => hash_match l r = true) L = [])
    by (apply filter_none; intros l Hl; now rewrite Hno).
  unfold right_yield. rewrite Hf. rewrite decide_True by now apply no_match_filter.
  replace (length schema - length (values r))%nat with left_len by lia.
  rewrite (proj2 (Nat.ltb_ge _ _)) by lia. unfold join_filter.
  destruct ty; try (eexists; split; reflexivity); try (eexists; split; [reflexivity |]; reflexivity).
  - destruct Hflt as [-> | ?]; [eexists; split; reflexivity | discriminate].
  - destruct flt; eexists; split; reflexivity.
Qed.

Lemma built_tuples L m k e l : built L m -> (k, e) ∈ m -> l ∈ tuples e -> l ∈ L.
Proof.
  intros Hb Hin Hl. pose proof (built_select _ _ Hb (fun _ => true) (fun _ _ _ => eq_refl)) as Hs.
  assert (Hl' : l ∈ select (fun _ => true) m).
  { unfold select. apply list_elem_of_In, in_concat. exists (tuples e).
    split; [| now apply list_elem_of_In]. apply in_map_iff. exists (k, e).
    split; [reflexivity | now apply list_elem_of_In]. }
  rewrite Hs in Hl'. now apply list_elem_of_filter in Hl'.
Qed.

(** A right tuple that hits the entry [e]. *)
Lemma probe_hit L r e :
  existsb is_null (rkey r) = false ->
  (forall l, l ∈ L -> join_pass l r = Ok (pass l r)) ->
  tuples e = filter (fun l => keys_eq (lkey l) (rkey r) = true) L -> tuples e <> [] ->
  map values (if yields then map (fun l => joined l r) (filter (fun l => pass l r = true) (tuples e)) else [])
  = right_yield L r.
Proof.
  intros Hn Hp Ht Hne. unfold right_yield.
  assert (Hm : flt = None -> matched_right hash_match L r = true).
  { intros Hf. destruct (matched_right hash_match L r) eqn:Em; [reflexivity |].
    apply no_match_filter in Em. rewrite <- (filter_pass L r Hn), <- Ht in Em.
    destruct (tuples e) as [|l ts] eqn:El; [easy |]. rewrite filter_cons_bool in Em.
    assert (Hl : l ∈ L) by (assert (Hl : l ∈ l :: ts) by apply list_elem_of_here;
      rewrite Ht in Hl; now apply list_elem_of_filter in Hl).
    now rewrite (join_pass_none l r (Hp l Hl) Hf) in Em. }
  rewrite Ht, (filter_pass L r Hn), <- map_values_joined.
  destruct ty; try reflexivity; try (case_decide; now rewrite app_nil_r).
  - destruct Hflt as [Hf | ?]; [| discriminate]. rewrite decide_False by (rewrite Hm; easy).
    now rewrite app_nil_r.
  - destruct Hflt as [Hf | ?]; [| discriminate]. rewrite decide_False by (rewrite Hm; easy).
    now rewrite app_nil_r.
Qed.

Lemma probe_spec L R r m0 :
  built L m0 ->
  projection _ _ eval r right_keys (drop left_len schema) = Ok (rkey r) ->
  (forall l, l ∈ L -> join_pass l r = Ok (pass l r)) ->
  length schema = (left_len + length (values r))%nat ->
  exists out, probe _ _ eval ty flt schema left_len right_keys (mark R m0) r
              = Ok (out, mark (R ++ [r]) m0)
    /\ map values out = right_yield L r.
Proof.
  intros Hb Hr Hp Hlen. unfold probe. rewrite Hr. cbn [result_bind].
  destruct (existsb is_null (rkey r)) eqn:Hn.
  { rewrite mark_skip by (intros; unfold hits; now rewrite Hn).
    apply probe_miss; [assumption |]. intros l _. unfold hash_match, hits. now rewrite Hn. }
  rewrite (probe_map_spec (rkey r) _
    (fun e => if yields then map (fun l => joined l r) (filter (fun l => pass l r = true) (tuples e)) else [])
    (fun e => mk_entry (tuples e) true (match ty with JoinType.LeftSemi => true | _ => is_filtered e end))).
  2: { apply mark_unique, Hb. }
  2: { intros k e Hin _. apply probe_entry_spec. intros l Hl. apply Hp.
       apply list_elem_of_fmap in Hin as ([k0 e0] & [= -> ->] & Hin). cbn in Hl.
       exact (built_tuples L m0 k0 e0 l Hb Hin Hl). }
  pose proof (mark_entry R m0 (rkey r)) as Hm. pose proof (built_entry _ _ Hb (rkey r)) as He.
  destruct (entry_of (rkey r) m0) as [e |] eqn:E0.
  - destruct Hm as (e' & -> & Ht). cbn [result_bind]. rewrite mark_hit by assumption.
    eexists. split; [reflexivity |].
    apply probe_hit; try assumption; rewrite Ht; destruct (filter _ L); try discriminate;
      injection He as ->; easy.
  - rewrite Hm. rewrite mark_skip.
    + apply probe_miss; [assumption |]. intros l Hl. unfold hash_match. rewrite hits_key by assumption.
      destruct (keys_eq (lkey l) (rkey r)) eqn:Ek; [| reflexivity].
      assert (Hin : l ∈ filter (fun l => keys_eq (lkey l) (rkey r) = true) L)
        by now apply list_elem_of_filter.
      destruct (filter _ L); [now apply not_elem_of_nil in Hin | discriminate].
    + intros ke Hke. rewrite hits_key by assumption. now apply (entry_of_none _ m0).
Qed.

Lemma probe_phase_spec L m0 :
  built L m0 ->
  forall R R0,
  (forall r, r ∈ R -> projection _ _ eval r right_keys (drop left_len schema) = Ok (rkey r)
     /\ length schema = (left_len + length (values r))%nat
     /\ forall l, l ∈ L -> join_pass l r = Ok (pass l r)) ->
  exists out, probe_phase _ _ eval ty flt schema left_len right_keys R (mark R0 m0)
              = Ok (out, mark (R0 ++ R) m0)
    /\ map values out = concat (map (right_yield L) R).
Proof.
  intros Hb. induction R as [|r R IH]; intros R0 HR.
  - exists []. now rewrite app_nil_r.
  - destruct (HR r) as (Hr & Hlen & Hp); [apply list_elem_of_here |]. cbn [probe_phase].
    destruct (probe_spec L R0 r m0 Hb Hr Hp Hlen) as (out & -> & Eo). cbn [result_bind].
    destruct (IH (R0 ++ [r])) as (rest & -> & Er); [intros x Hx; apply HR; now apply list_elem_of_further |].
    cbn [result_bind]. exists (out ++ rest). rewrite <- app_assoc. split; [reflexivity |].
    rewrite map_app, Eo, Er. reflexivity.
Qed.

Lemma mark_nil L m0 : built L m0 -> mark [] m0 = m0.
Proof.
  intros Hb. unfold mark. rewrite <- map_id. apply map_ext_in. intros [k [ts u f]] Hin%list_elem_of_In.
  apply (proj1 (Forall_forall _ _) (built_flags _ _ Hb)) in Hin as [Hu Hf].
  cbn in *. subst. now destruct ty.
Qed.

(** *** Left drop *)

Definition unused (R : list Tuple) (k : list DataValue) : bool := negb (existsb (hits k) R).

(** The tuples of an entry that are dropped at the end. *)
Definition dropped (ke : list DataValue * build_entry) : list Tuple :=
  match ty with
  | JoinType.LeftOuter | JoinType.Full =>
      if is_used ke.2 then []
      else map (fun t => mk_tuple (pk t) (values t ++ nulls (length schema - length (values t))))
             (tuples ke.2)
  | JoinType.LeftSemi => if is_used ke.2 then tuples ke.2 else []
  | JoinType.LeftAnti => if is_used ke.2 then [] else tuples ke.2
  | _ => []
  end.

Lemma omap_id_some {A} (l : list A) : omap id (map Some l) = l.
Proof. induction l as [|x l IH]; cbn; [reflexivity | now f_equal]. Qed.

Lemma left_drop_spec R m0 ke :
  ke ∈ mark R m0 -> left_drop _ _ eval ty flt schema left_len ke.2 = Ok (dropped ke).
Proof.
  intros ([k e] & -> & _)%list_elem_of_fmap. unfold left_drop, dropped. cbn [fst snd is_used is_filtered tuples].
  destruct ty; try reflexivity.
  - now destruct (existsb (hits k) R).
  - destruct (existsb (hits k) R); [reflexivity |].
    destruct Hflt as [-> | ?]; [| discriminate].
    rewrite (try_map_ok _ Some) by reflexivity. cbn. f_equal. apply omap_id_some.
Qed.

Lemma concat_map_perm {A B} (f : A -> list B) l k : l ≡ₚ k -> concat (map f l) ≡ₚ concat (map f k).
Proof. intros H. rewrite <- !flat_map_concat_map. now rewrite H. Qed.

Lemma hits_congr R k k' : keys_eq k k' = true -> existsb (hits k) R = existsb (hits k') R.
Proof.
  intros E. induction R as [|r R IH]; cbn; [reflexivity |]. unfold hits at 1 3.
  now rewrite (keys_eq_congr k k' (rkey r) E), IH.
Qed.

Lemma matched_left_hits (L R : list Tuple) l :
  flt = None -> (forall l r, l ∈ L -> r ∈ R -> join_pass l r = Ok (pass l r)) -> l ∈ L ->
  matched_left hash_match R l = existsb (hits (lkey l)) R.
Proof.
  intros Hf Hp Hl. unfold matched_left.
  assert (Hp' : forall r, r ∈ R -> pass l r = true)
    by (intros r Hr; exact (join_pass_none l r (Hp l r Hl Hr) Hf)).
  clear Hp. induction R as [|r R IH]; cbn; [reflexivity |].
  unfold hash_match at 1. rewrite Hp' by apply list_elem_of_here. rewrite andb_true_r.
  f_equal. apply IH. intros x Hx. apply Hp'. now apply list_elem_of_further.
Qed.

Lemma filter_ext_elem {A} (P Q : A -> bool) (l : list A) :
  (forall x, x ∈ l -> P x = Q x) -> filter (fun x => P x = true) l = filter (fun x => Q x = true) l.
Proof.
  induction l as [|x l IH]; intros H; [reflexivity |]. rewrite !filter_cons_bool.
  rewrite (H x) by apply list_elem_of_here. f_equal. apply IH. intros y Hy. apply H.
  now apply list_elem_of_further.
Qed.

(** The left tuples whose key satisfies [P], as the entries hold them. *)
Lemma dropped_select L R m0 (P : list DataValue -> bool) (f : Tuple -> list DataValue) :
  built L m0 -> (forall k k', keys_eq k k' = true -> P k = P k') ->
  concat (map (fun ke => if P ke.1 then map f (tuples ke.2) else []) (mark R m0))
  ≡ₚ map f (filter (fun l => P (lkey l) = true) L).
Proof.
  intros Hb HP. rewrite <- (built_select _ _ Hb P HP). unfold select, mark.
  rewrite concat_map, !map_map. apply Permutation_refl'. f_equal. apply map_ext. intros [k e]. cbn.
  now destruct (P k).
Qed.

Lemma mark_used R m0 ke : ke ∈ mark R m0 -> is_used ke.2 = negb (unused R ke.1).
Proof.
  intros ([k e] & -> & _)%list_elem_of_fmap. unfold unused. cbn. now rewrite negb_involutive.
Qed.

Lemma unused_congr R k k' : keys_eq k k' = true -> unused R k = unused R k'.
Proof. intros E. unfold unused. f_equal. now apply hits_congr. Qed.

Lemma dropped_filter L R m0 (keep : bool) (f g : Tuple -> list DataValue) :
  built L m0 -> flt = None -> (forall l, l ∈ L -> f l = g l) ->
  (forall l r, l ∈ L -> r ∈ R -> join_pass l r = Ok (pass l r)) ->
  concat (map (fun ke => if Bool.eqb (is_used ke.2) keep then map f (tuples ke.2) else []) (mark R m0))
  ≡ₚ map g (filter (fun l => matched_left hash_match R l = keep) L).
Proof.
  intros Hb Hf Hfg Hp.
  transitivity (concat (map (fun ke => if Bool.eqb (negb (unused R ke.1)) keep
                                       then map f (tuples ke.2) else []) (mark R m0))).
  { apply Permutation_refl'. f_equal. apply map_ext_in. intros ke Hin%list_elem_of_In.
    now rewrite (mark_used R m0 ke Hin). }
  rewrite (dropped_select L R m0 (fun k => Bool.eqb (negb (unused R k)) keep) f Hb)
    by (intros k k' E; now rewrite (unused_congr R k k' E)).
  apply Permutation_refl'.
  rewrite (filter_ext_elem _ (fun l => Bool.eqb (matched_left hash_match R l) keep)).
  2: { intros l Hl. rewrite (matched_left_hits L R l Hf Hp Hl). unfold unused. now rewrite negb_involutive. }
  transitivity (map g (filter (fun l => Bool.eqb (matched_left hash_match R l) keep = true) L)).
  - apply map_ext_in. intros l [_ Hl]%list_elem_of_In%list_elem_of_filter. auto.
  - f_equal. apply list_filter_iff. intros l. apply eqb_true_iff.
Qed.

Lemma dropped_rows L R m0 right_len :
  built L m0 -> Forall (fun l => length (values l) = left_len) L ->
  length schema = (left_len + right_len)%nat ->
  (forall l r, l ∈ L -> r ∈ R -> join_pass l r = Ok (pass l r)) ->
  map values (concat (map dropped (mark R m0)))
  ≡ₚ match ty with
     | JoinType.LeftOuter | JoinType.Full => left_rows hash_match right_len L R
     | JoinType.LeftSemi => map values (filter (fun l => matched_left hash_match R l = true) L)
     | JoinType.LeftAnti => map values (filter (fun l => matched_left hash_match R l = false) L)
     | _ => []
     end.
Proof.
  intros Hb HL Hs Hp.
  assert (Hnone : ty <> JoinType.Inner -> flt = None) by (destruct Hflt; tauto).
  assert (Hfg : forall l, l ∈ L -> values l ++ nulls (length schema - length (values l))
                                  = values l ++ nulls right_len).
  { intros l Hl. apply (proj1 (Forall_forall _ _) HL) in Hl. do 2 f_equal. lia. }
  pose proof (fun f g => dropped_filter L R m0 false f g Hb) as Hout.
  pose proof (fun f g => dropped_filter L R m0 true f g Hb) as Hsemi.
  rewrite concat_map, map_map. unfold dropped, left_rows.
  destruct ty; try (clear; induction (mark R m0); [reflexivity | assumption]);
    specialize (Hnone ltac:(easy)).
  - etransitivity; [| apply (Hout _ _ Hnone Hfg Hp)].
    apply Permutation_refl'. f_equal. apply map_ext. intros ke.
    destruct (is_used ke.2); cbn; [reflexivity | now rewrite map_map].
  - etransitivity; [| apply (Hsemi values _ Hnone (fun _ _ => eq_refl) Hp)].
    apply Permutation_refl'. f_equal. apply map_ext. intros ke. now destruct (is_used ke.2).
  - etransitivity; [| apply (Hout values _ Hnone (fun _ _ => eq_refl) Hp)].
    apply Permutation_refl'. f_equal. apply map_ext. intros ke. now destruct (is_used ke.2).
  - etransitivity; [| apply (Hout _ _ Hnone Hfg Hp)].
    apply Permutation_refl'. f_equal. apply map_ext. intros ke.
    destruct (is_used ke.2); cbn; [reflexivity | now rewrite map_map].
Qed.

Lemma right_yield_rows L R :
  concat (map (right_yield L) R)
  ≡ₚ match ty with
     | JoinType.LeftSemi | JoinType.LeftAnti => []
     | JoinType.RightOuter | JoinType.Full => inner_rows hash_match L R ++ right_rows hash_match left_len L R
     | _ => inner_rows hash_match L R
     end.
Proof.
  assert (Hnil : forall (f : Tuple -> list (list DataValue)), (forall r, f r = []) -> concat (map f R) = [])
    by (intros f Hf; induction R as [|r R IH]; cbn; [reflexivity | now rewrite Hf, IH]).
  unfold right_yield. destruct ty; try (rewrite Hnil by reflexivity; reflexivity);
    rewrite concat_map_app, inner_rows_right_major.
  1, 2, 5: rewrite Hnil by (intros r; now case_decide); now rewrite app_nil_r.
  all: apply Permutation_app_head, Permutation_refl'; unfold right_rows;
    apply (concat_map_if (fun r => matched_right hash_match L r = false)).
Qed.
End HashProof.

Lemma merge_schema_length {Col} (l r : list (Column Col)) ty :
  length (merge_schema Col l r ty) = (length l + length r)%nat.
Proof. unfold merge_schema, for_join. now rewrite length_app, !length_map. Qed.

Section HashSpec.
Context {F : Foreign} {L' : ForeignLaws F} {Expr Col : Type}.
Abbreviation Tuple := (TupleCodec.Tuple F).
Abbreviation Schema := (list (Column Col)).
Variable eval : Expr -> Tuple -> Schema -> Result DataValue.
Variable drain : list (list DataValue * build_entry) -> list (list DataValue * build_entry).
Hypothesis drain_perm : forall m, drain m ≡ₚ m.

(** C7. The hash join implements every join when there is no filter, and the
    inner join also with one: when keys and filter evaluate, in whatever order the
    map is drained, its rows are those of the reference join on the pairs with
    equal keys, none of them null, that pass the filter, up to order. *)
Theorem hash_join_correct ty on flt left_sch right_sch lkey rkey pass L R :
  let schema := merge_schema Col left_sch right_sch ty in
  ty <> JoinType.Cross -> on <> [] -> flt = None \/ ty = JoinType.Inner ->
  (forall l, l ∈ L -> projection _ _ eval l on.*1 (take (length left_sch) schema) = Ok (lkey l)) ->
  (forall r, r ∈ R -> projection _ _ eval r on.*2 (drop (length left_sch) schema) = Ok (rkey r)) ->
  (forall l r, l ∈ L -> r ∈ R -> join_pass eval flt schema l r = Ok (pass l r)) ->
  Forall (fun l => length (values l) = length left_sch) L ->
  Forall (fun r => length (values r) = length right_sch) R ->
  exists out, hash_join _ _ eval drain ty on flt left_sch right_sch L R = Ok out
    /\ map values out
       ≡ₚ ref_join (hash_match lkey rkey pass) ty (length left_sch) (length right_sch) L R.
Proof.
  intros schema Ht Hon Hflt Hl Hr Hp HL HR.
  assert (Hlen : length schema = (length left_sch + length right_sch)%nat) by apply merge_schema_length.
  destruct (build_phase_spec eval schema (length left_sch) on.*1 lkey L Hl) as (m & Em & Hb).
  destruct (probe_phase_spec eval ty flt schema (length left_sch) on.*2 lkey rkey pass Ht Hflt L m Hb R [])
    as (out & Eo & Vo).
  { intros r Hr'. repeat split; [now apply Hr | | auto].
    apply (proj1 (Forall_forall _ _) HR) in Hr'. lia. }
  erewrite mark_nil in Eo by eassumption. cbn [app] in Eo.
  exists (out ++ concat (map (dropped ty schema) (drain (mark ty rkey R m)))). split.
  - unfold hash_join. fold schema. destruct on as [|o on]; [easy |]. rewrite Em. cbn [result_bind].
    rewrite Eo. cbn [result_bind]. rewrite (try_map_ok _ (dropped ty schema)).
    + now destruct ty.
    + intros ke Hke. rewrite drain_perm in Hke. eapply left_drop_spec; eassumption.
  - rewrite map_app, Vo. erewrite right_yield_rows by eassumption.
    rewrite (concat_map_perm (dropped ty schema) _ _ (drain_perm _)).
    rewrite (dropped_rows eval ty flt schema (length left_sch) lkey rkey pass Ht Hflt L R m
               (length right_sch) Hb HL Hlen Hp).
    destruct ty; cbn [ref_join]; rewrite ?app_nil_r; try easy.
    rewrite <- app_assoc. apply Permutation_app_head, Permutation_app_comm.
Qed.
End HashSpec.

(** ** Where the joins go wrong *)

Section Examples.
Context {F : Foreign}.
Abbreviation i := (fun z => @DV.Int32 F z).
Abbreviation b := (fun z => @DV.Boolean F z).

(** Expressions that read a column by its position. *)
Definition column_eval (e : nat) (t : TupleCodec.Tuple F) (_ : list (Column unit)) : Result DataValue :=
  unwrap (values t !! e).
Definition columns (n : nat) : list (Column unit) := repeat (mk_column tt true false) n.

Definition left1 : TupleCodec.Tuple F := mk_tuple None [i 1].
Definition right_true : TupleCodec.Tuple F := mk_tuple None [i 1; b true].
Definition right_false : TupleCodec.Tuple F := mk_tuple None [i 1; b false].

(** [left JOIN right ON left.0 = right.0 AND right.1]. *)
Definition filtered_join (ty : JoinType) (R : list (TupleCodec.Tuple F)) : Result (list (list DataValue)) :=
  let? out := hash_join _ _ column_eval id ty [(0%nat, 0%nat)] (Some 2%nat) (columns 1) (columns 2) [left1] R in
  Ok (map values out).
Definition filtered_match (l r : TupleCodec.Tuple F) : bool :=
  keys_eq (take 1 (values l)) (take 1 (values r))
  && match values r !! 1%nat with Some (DV.Boolean true) => true | _ => false end.

(** With a filter besides the equality, the hash join is wrong for outer,
    semi and anti joins.  A left outer join adds a row of nulls for each pair that
    fails the filter although the left tuple has a match; a semi join only looks
    at the first right tuple of a key and drops a left tuple that matches a later
    one; an anti join drops a left tuple whose only pair fails the filter. *)
Theorem hash_join_filter_wrong :
  filtered_join JoinType.LeftOuter [right_true; right_false]
    = Ok [[i 1; i 1; b true]; [i 1; DV.Null; DV.Null]]
  /\ ref_join filtered_match JoinType.LeftOuter 1 2 [left1] [right_true; right_false]
    = [[i 1; i 1; b true]]
  /\ filtered_join JoinType.LeftSemi [right_false; right_true] = Ok []
  /\ ref_join filtered_match JoinType.LeftSemi 1 2 [left1] [right_false; right_true] = [[i 1]]
  /\ filtered_join JoinType.LeftAnti [right_false] = Ok []
  /\ ref_join filtered_match JoinType.LeftAnti 1 2 [left1] [right_false] = [[i 1]].
Proof. repeat split; vm_compute; reflexivity. Qed.

(** The two executors disagree on null keys: joining a null with a null,
    the nested loop join yields the pair and the hash join does not. *)
Theorem null_keys_disagree :
  let t := mk_tuple None [@DV.Null F] in
  (let? out := nested_loop_join _ _ column_eval JoinType.Inner [(0%nat, 0%nat)] None (columns 1) (columns 1) [t] [t] in
   Ok (map values out)) = Ok [[DV.Null; DV.Null]]
  /\ hash_join _ _ column_eval id JoinType.Inner [(0%nat, 0%nat)] None (columns 1) (columns 1) [t] [t] = Ok [].
Proof. split; vm_compute; reflexivity. Qed.
End Examples.

(** ** Witnesses *)

Section Witnesses.
#[local] Existing Instance RefForeign.ref_foreign.
#[local] Existing Instance RefForeign.ref_laws.

Abbreviation key := (fun t : TupleCodec.Tuple _ => take 1 (values t)).

Abbreviation second_true := (fun _ r : TupleCodec.Tuple _ =>
  match values r !! 1%nat with Some (DV.Boolean true) => true | _ => false end).

Lemma nested_loop_join_correct_witness :
  exists out,
    nested_loop_join _ _ column_eval JoinType.LeftOuter [(0%nat, 0%nat)] (Some 2%nat)
      (columns 1) (columns 2) [left1] [right_true; right_false] = Ok out
    /\ map values out ≡ₚ ref_join (fun l r => same_key (key l) (key r) && second_true l r) JoinType.LeftOuter
                          (length (columns 1)) (length (columns 2)) [left1] [right_true; right_false].
Proof.
  apply nested_loop_join_correct; [discriminate | | | | repeat constructor; discriminate].
  - intros l ->%list_elem_of_singleton. reflexivity.
  - intros r [-> | ->%list_elem_of_singleton]%elem_of_cons; reflexivity.
  - intros l r ->%list_elem_of_singleton [-> | ->%list_elem_of_singleton]%elem_of_cons _;
      eexists; (split; [reflexivity | now left]).
Defined.

Lemma hash_join_correct_witness :
  exists out,
    hash_join _ _ column_eval id JoinType.Inner [(0%nat, 0%nat)] (Some 2%nat)
      (columns 1) (columns 2) [left1] [right_true; right_false] = Ok out
    /\ map values out ≡ₚ ref_join (hash_match key key
                            (fun _ r => match values r !! 1%nat with Some (DV.Boolean true) => true | _ => false end))
                          JoinType.Inner (length (columns 1)) (length (columns 2))
                          [left1] [right_true; right_false].
Proof.
  apply hash_join_correct; [reflexivity | discriminate | discriminate | now right | | | | |].
  - intros l ->%list_elem_of_singleton. reflexivity.
  - intros r [-> | ->%list_elem_of_singleton]%elem_of_cons; reflexivity.
  - intros l r ->%list_elem_of_singleton [-> | ->%list_elem_of_singleton]%elem_of_cons; reflexivity.
  - repeat constructor.
  - repeat constructor.
Defined.
End Witnesses.
