(* ===== verification/CmSketch.v ===== *)
(** * Count-min sketch

    The frequency sketch of column statistics
    (src/src/optimizer/core/cm_sketch.rs), with conservative updates and
    saturating counters.  The keyed hashes of the SipHash library are two functions
    to [u64].  The width and the number of rows are computed by the code from
    floating point tolerances; the quotients it rounds are arguments here. *)

From S2P Require Import Prelude Bytes Types LogicalTypes Values RangeDetacher.

Section CmSketch.
Context {F : Foreign}.
Variable K : Type.

Record CountMinSketch := mk_sketch {
  counters : list (list Z);
  offsets : list Z;
  hashers : (K -> Z) * (K -> Z);
  mask : Z;
  k_num : nat
}.

(** [checked_next_power_of_two] of a positive [usize]. *)
Definition checked_next_power_of_two (n : Z) : option Z :=
  let p := 2 ^ Z.log2_up n in
  if p <=? usize_max then Some p else None.

(** [width] is [(2.0 / e).round() as usize]. *)
Definition optimal_width (width : Z) : Result Z :=
  unwrap (checked_next_power_of_two (Z.max 2 width)).

(** [ratio] is [((1.0 - probability).ln() / 0.5f64.ln()) as usize]. *)
Definition optimal_k_num (ratio : nat) : nat := Nat.max 1 ratio.

Definition sketch_mask (width : Z) : Z := width - 1.

Definition sketch_new (width : Z) (ratio : nat) (sips : (K -> Z) * (K -> Z)) : Result CountMinSketch :=
  let? width := optimal_width width in
  let k_num := optimal_k_num ratio in
  Ok (mk_sketch (repeat (repeat 0 (Z.to_nat width)) k_num) (repeat 0 k_num) sips
        (sketch_mask width) k_num).

(** The hash of row [k_i]: the two keyed hashes, then their combinations. *)
Definition hash (s : CountMinSketch) (key : K) (k_i : nat) : Z :=
  match k_i with
  | 0%nat => (hashers s).1 key
  | 1%nat => (hashers s).2 key
  | _ => as_u 64 ((hashers s).1 key
                  + (as_u 64 (Z.of_nat k_i * (hashers s).2 key)) mod 0xffffffffffffffc5)
  end.

Definition offset (s : CountMinSketch) (key : K) (k_i : nat) : Z :=
  Z.land (hash s key k_i) (mask s).

(** [self.counters[k_i][offset]]. *)
Definition counter (cs : list (list Z)) (k_i : nat) (o : Z) : Result Z :=
  let? row := unwrap (cs !! k_i) in
  unwrap (row !! Z.to_nat o).

(** [Iterator::min] and [unwrap]. *)
Definition min_unwrap (l : list Z) : Result Z :=
  match l with
  | [] => Panic
  | x :: l' => Ok (fold_left Z.min l' x)
  end.

Definition estimate (s : CountMinSketch) (key : K) : Result Z :=
  let? cells := try_map (fun k_i => counter (counters s) k_i (offset s key k_i)) (seq 0 (k_num s)) in
  min_unwrap cells.

(** The second loop of [add]: the cells that hold the lowest count grow. *)
Definition bump (offs : list Z) (lowest value : Z) (cs : list (list Z)) (k_i : nat)
  : Result (list (list Z)) :=
  let? o := unwrap (offs !! k_i) in
  let? c := counter cs k_i o in
  if c =? lowest
  then Ok (alter (fun row => <[Z.to_nat o := saturating_add_usize c value]> row) k_i cs)
  else Ok cs.

Definition add (s : CountMinSketch) (key : K) (value : Z) : Result CountMinSketch :=
  let offs := map (offset s key) (seq 0 (k_num s)) in
  let? cells := try_map (fun k_i => counter (counters s) k_i (offset s key k_i)) (seq 0 (k_num s)) in
  let? lowest := min_unwrap cells in
  let? cs := try_fold (bump offs lowest value) (seq 0 (k_num s)) (counters s) in
  Ok (mk_sketch cs offs (hashers s) (mask s) (k_num s)).

Definition increment (s : CountMinSketch) (key : K) : Result CountMinSketch := add s key 1.

(** [clear] also draws new hash keys. *)
Definition clear (s : CountMinSketch) (sips : (K -> Z) * (K -> Z)) : CountMinSketch :=
  mk_sketch (map (fun row => map (fun _ => 0) row) (counters s)) (offsets s) sips (mask s) (k_num s).
End CmSketch.

(** [CountMinSketch<DataValue>::collect_count]; the sum panics on overflow. *)
Definition collect_count {F : Foreign} (s : CountMinSketch DataValue) (ranges : list (Range.Range F))
  : Result Z :=
  try_fold (fun count range =>
    let? n := match range with Range.Eq value => estimate DataValue s value | _ => Ok 0 end in
    if count + n <=? usize_max then Ok (count + n) else Panic) ranges 0.

(** ** Estimates never undercount *)

Section Proofs.
Context {F : Foreign} {K : Type} `{EqDecision K}.
Abbreviation sketch := (CountMinSketch K).

(** The shape of a sketch: [k_num] rows of [mask + 1] counters in range. *)
Record sketch_ok (s : sketch) : Prop := mk_sketch_ok {
  ok_rows : (1 <= k_num _ s)%nat;
  ok_len : length (counters _ s) = k_num _ s;
  ok_mask : exists p, 0 <= p /\ mask _ s = Z.ones p;
  ok_width : Forall (fun row => Z.of_nat (length row) = mask _ s + 1
                                /\ Forall (fun c => 0 <= c <= usize_max) row) (counters _ s)
}.

Definition cell (cs : list (list Z)) (k_i : nat) (o : Z) : Z :=
  default 0 (row ← cs !! k_i; row !! Z.to_nat o).

Lemma offset_range s key k_i : sketch_ok s -> 0 <= offset _ s key k_i <= mask _ s.
Proof.
  intros Hs. destruct (ok_mask s Hs) as (p & Hp & Hm). unfold offset. rewrite Hm, Z.land_ones by assumption.
  pose proof (Z.mod_pos_bound (hash _ s key k_i) (2 ^ p) ltac:(apply Z.pow_pos_nonneg; lia)).
  rewrite Z.ones_equiv. lia.
Qed.

Lemma counter_cell (s : sketch) cs k_i o :
  length cs = k_num _ s -> Forall (fun row => Z.of_nat (length row) = mask _ s + 1) cs ->
  (k_i < k_num _ s)%nat -> 0 <= o <= mask _ s -> counter (F := F) cs k_i o = Ok (cell cs k_i o).
Proof.
  intros Hl Hw Hk Ho. unfold counter, cell.
  destruct (cs !! k_i) as [row |] eqn:E; [| apply lookup_ge_None in E; lia]. cbn.
  assert (Hr : Z.of_nat (length row) = mask _ s + 1) by exact (Forall_lookup_1 _ _ _ _ Hw E).
  destruct (row !! Z.to_nat o) eqn:E'; [reflexivity | apply lookup_ge_None in E'; lia].
Qed.

(** Rows of the right number and width. *)
Definition shape (s : sketch) (cs : list (list Z)) : Prop :=
  length cs = k_num _ s /\ Forall (fun row => Z.of_nat (length row) = mask _ s + 1) cs.

Lemma bump_spec (s : sketch) offs lowest value cs k_i o :
  shape s cs -> (k_i < k_num _ s)%nat -> offs !! k_i = Some o -> 0 <= o <= mask _ s ->
  exists cs', bump (F := F) offs lowest value cs k_i = Ok cs' /\ shape s cs'
    /\ forall k o', 0 <= o' ->
         cell cs' k o' = if bool_decide (k = k_i /\ o' = o /\ cell cs k o' = lowest)
                         then saturating_add_usize (cell cs k o') value else cell cs k o'.
Proof.
  intros [Hl Hw] Hk Eo Ho. unfold bump. rewrite Eo. cbn [unwrap result_bind].
  rewrite (counter_cell s) by assumption. cbn [result_bind].
  destruct (Z.eqb_spec (cell cs k_i o) lowest) as [E | E].
  - eexists. split; [reflexivity |]. split.
    + split; [now rewrite length_alter |]. apply Forall_alter; [assumption |].
      intros row _ Hr. now rewrite length_insert.
    + intros k o' Ho'. destruct (lookup_lt_is_Some_2 cs k_i ltac:(lia)) as [row Er].
      pose proof (Forall_lookup_1 _ _ _ _ Hw Er) as Hr. cbn in Hr. unfold cell.
      destruct (decide (k = k_i)) as [-> | Hne].
      * rewrite list_lookup_alter_eq, Er. cbn [fmap option_fmap option_map mbind option_bind]. destruct (decide (o' = o)) as [-> | Hno].
        -- rewrite list_lookup_insert_eq by lia. cbn [default]. unfold cell in E. rewrite Er in E.
           now rewrite bool_decide_true.
        -- rewrite list_lookup_insert_ne by lia. rewrite bool_decide_false by tauto. reflexivity.
      * rewrite list_lookup_alter_ne by congruence. rewrite bool_decide_false by tauto. reflexivity.
  - eexists. split; [reflexivity |]. split; [now split |]. intros k o' Ho'.
    rewrite bool_decide_false; [reflexivity |]. intros (-> & -> & ?). contradiction.
Qed.

Lemma bumps_spec (s : sketch) offs lowest value ks :
  length offs = k_num _ s -> Forall (fun o => 0 <= o <= mask _ s) offs ->
  NoDup ks -> Forall (fun k => k < k_num _ s)%nat ks -> forall cs, shape s cs ->
  exists cs', try_fold (bump (F := F) offs lowest value) ks cs = Ok cs' /\ shape s cs'
    /\ forall k o, 0 <= o ->
         cell cs' k o = if bool_decide (k ∈ ks /\ offs !! k = Some o /\ cell cs k o = lowest)
                        then saturating_add_usize (cell cs k o) value else cell cs k o.
Proof.
  intros Hlen Hoffs Hnd Hks. induction Hnd as [|k ks Hk Hnd IH]; intros cs Hcs.
  - exists cs. split; [reflexivity |]. split; [exact Hcs |]. intros k o _.
    rewrite bool_decide_false; [reflexivity |]. intros [[]%not_elem_of_nil _].
  - apply Forall_cons_1 in Hks as [Hkn Hks].
    destruct (lookup_lt_is_Some_2 offs k ltac:(lia)) as [o Eo].
    pose proof (Forall_lookup_1 _ _ _ _ Hoffs Eo) as Ho. cbn in Ho. cbn [try_fold].
    destruct (bump_spec s offs lowest value cs k o Hcs Hkn Eo Ho) as (cs1 & -> & Hcs1 & Hc1).
    cbn [result_bind]. destruct (IH Hks cs1 Hcs1) as (cs2 & E2 & Hcs2 & Hc2).
    exists cs2. split; [exact E2 |]. split; [exact Hcs2 |]. intros k' o' Ho'.
    rewrite Hc2, Hc1 by assumption. clear Hc1 Hc2.
    destruct (decide (k' = k)) as [-> | Hne].
    + rewrite (bool_decide_false (k ∈ ks /\ _)) by tauto.
      assert (Hiff : (k = k /\ o' = o /\ cell cs k o' = lowest)
              <-> (k ∈ k :: ks /\ offs !! k = Some o' /\ cell cs k o' = lowest)).
      { rewrite Eo, elem_of_cons, (inj_iff Some). intuition congruence. }
      now rewrite (bool_decide_ext _ _ Hiff).
    + rewrite (bool_decide_false (k' = k /\ _)) by tauto.
      assert (Hiff : (k' ∈ ks /\ offs !! k' = Some o' /\ cell cs k' o' = lowest)
              <-> (k' ∈ k :: ks /\ offs !! k' = Some o' /\ cell cs k' o' = lowest))
        by (rewrite elem_of_cons; tauto).
      now rewrite (bool_decide_ext _ _ Hiff).
Qed.

Lemma fold_min_spec l x :
  fold_left Z.min l x <= x /\ Forall (fun y => fold_left Z.min l x <= y) l
  /\ (fold_left Z.min l x = x \/ fold_left Z.min l x ∈ l).
Proof.
  revert x. induction l as [|y l IH]; intros x; cbn; [repeat split; auto; lia |].
  destruct (IH (Z.min x y)) as (H1 & H2 & H3). repeat split; [lia | constructor; [lia | assumption] |].
  rewrite elem_of_cons. destruct H3 as [H3 | H3]; [| tauto].
  rewrite H3. destruct (Z.min_spec x y) as [[_ ->] | [_ ->]]; auto.
Qed.

(** The lowest of the cells of a key. *)
Definition is_lowest (s : sketch) (cs : list (list Z)) key (m : Z) : Prop :=
  (forall k, (k < k_num _ s)%nat -> m <= cell cs k (offset _ s key k))
  /\ exists k, (k < k_num _ s)%nat /\ m = cell cs k (offset _ s key k).

Lemma lowest_spec (s : sketch) key :
  sketch_ok s -> exists cells m,
    try_map (fun k_i => counter (F := F) (counters _ s) k_i (offset _ s key k_i)) (seq 0 (k_num _ s)) = Ok cells
    /\ min_unwrap (F := F) cells = Ok m /\ is_lowest s (counters _ s) key m.
Proof.
  intros Hs.
  assert (Hmap : try_map (fun k_i => counter (F := F) (counters _ s) k_i (offset _ s key k_i)) (seq 0 (k_num _ s))
    = Ok (map (fun k_i => cell (counters _ s) k_i (offset _ s key k_i)) (seq 0 (k_num _ s)))).
  { apply try_map_ok. intros k Hk%elem_of_seq. apply (counter_cell s); [apply Hs | | lia | now apply offset_range].
    apply (Forall_impl _ _ _ (ok_width s Hs)). tauto. }
  rewrite Hmap. clear Hmap. pose proof (ok_rows s Hs) as Hr.
  destruct (k_num _ s) as [|n] eqn:En; [lia |]. cbn [seq map].
  set (f := fun k_i => cell (counters _ s) k_i (offset _ s key k_i)).
  destruct (fold_min_spec (map f (seq 1 n)) (f 0%nat)) as (H1 & H2 & H3).
  eexists _, (fold_left Z.min (map f (seq 1 n)) (f 0%nat)). split; [reflexivity |]. split; [reflexivity |].
  split; rewrite En.
  - intros [|k] Hk; [exact H1 |]. apply (proj1 (Forall_forall _ _) H2). apply list_elem_of_fmap.
    exists (S k). split; [reflexivity | apply elem_of_seq; lia].
  - destruct H3 as [H3 | (k & H3 & Hk)%list_elem_of_fmap]; [exists 0%nat; auto with lia |].
    apply elem_of_seq in Hk. exists k. split; [lia | exact H3].
Qed.

Lemma shape_ok s : sketch_ok s -> shape s (counters _ s).
Proof.
  intros Hs. split; [apply Hs |]. apply (Forall_impl _ _ _ (ok_width s Hs)). tauto.
Qed.

(** The counters hold the counts of the keys seen, up to saturation, and none
    exceeds the number of increments. *)
Record counted (s : sketch) (seen : list K) : Prop := mk_counted {
  counted_ok : sketch_ok s;
  counted_lower : forall key k, (k < k_num _ s)%nat ->
    Z.min (Z.of_nat (length (filter (fun x => x = key) seen))) usize_max
    <= cell (counters _ s) k (offset _ s key k);
  counted_upper : forall k o, 0 <= o -> cell (counters _ s) k o <= Z.of_nat (length seen)
}.

Lemma cell_rows (mask_ : Z) (cs : list (list Z)) :
  (forall k o, 0 <= o -> 0 <= cell cs k o <= usize_max) ->
  Forall (fun row => Z.of_nat (length row) = mask_ + 1) cs ->
  Forall (fun row => Z.of_nat (length row) = mask_ + 1 /\ Forall (fun c => 0 <= c <= usize_max) row) cs.
Proof.
  intros Hc Hw. apply Forall_lookup. intros k row Er.
  split; [exact (Forall_lookup_1 _ _ _ _ Hw Er) |]. apply Forall_lookup. intros o c Ec.
  specialize (Hc k (Z.of_nat o) ltac:(lia)). unfold cell in Hc. rewrite Er in Hc. cbn in Hc.
  now rewrite Nat2Z.id, Ec in Hc.
Qed.

Lemma cell_range s k o : sketch_ok s -> 0 <= cell (counters _ s) k o <= usize_max.
Proof.
  intros Hs. unfold cell. destruct (counters _ s !! k) as [row |] eqn:Er; cbn; [| easy].
  destruct (row !! Z.to_nat o) as [c |] eqn:Ec; cbn; [| easy].
  pose proof (Forall_lookup_1 _ _ _ _ (ok_width s Hs) Er) as [_ Hr].
  exact (Forall_lookup_1 _ _ _ _ Hr Ec).
Qed.

Lemma increment_spec s key seen :
  counted s seen -> exists s', increment _ s key = Ok s' /\ counted s' (seen ++ [key])
    /\ hashers _ s' = hashers _ s /\ mask _ s' = mask _ s /\ k_num _ s' = k_num _ s.
Proof.
  intros [Hs Hlo Hup]. unfold increment, add.
  destruct (lowest_spec s key Hs) as (cells & m & -> & Hm & Hall & kmin & Hkmin & Em).
  cbn [result_bind]. rewrite Hm. cbn [result_bind].
  destruct (bumps_spec s (map (offset _ s key) (seq 0 (k_num _ s))) m 1 (seq 0 (k_num _ s)))
    with (cs := counters _ s) as (cs & -> & [Hl Hw] & Hc);
    [now rewrite length_map, length_seq | | apply NoDup_seq | | now apply shape_ok |].
  { apply Forall_map, Forall_forall. intros k _. now apply offset_range. }
  { apply Forall_forall. intros k Hk%elem_of_seq. lia. }
  assert (Hrange : forall k o, 0 <= o -> 0 <= cell cs k o <= usize_max).
  { intros k o Ho. rewrite Hc by assumption. pose proof (cell_range s k o Hs).
    unfold saturating_add_usize. case_bool_decide; lia. }
  cbn [result_bind]. eexists. split; [reflexivity |]. split; [| auto].
  assert (Hoff : forall k, (k < k_num _ s)%nat ->
    map (offset _ s key) (seq 0 (k_num _ s)) !! k = Some (offset _ s key k)).
  { intros k Hk. rewrite list_lookup_fmap, lookup_seq_lt by assumption. reflexivity. }
  constructor; cbn [counters hashers mask k_num].
  - constructor; cbn; [apply Hs | exact Hl | apply Hs | now apply cell_rows].
  - intros key' k Hk. change (offset _ (mk_sketch _ cs _ _ _ _) key' k) with (offset _ s key' k).
    rewrite Hc by now apply offset_range.
    rewrite filter_app, length_app. pose proof (Hlo key' k Hk) as Hlo'. pose proof (Hall k Hk).
    pose proof (cell_range s k (offset _ s key' k) Hs).
    assert (Hk' : k ∈ seq 0 (k_num _ s)) by (apply elem_of_seq; lia).
    destruct (decide (key = key')) as [<- | Hne].
    + rewrite filter_cons_True, filter_nil by reflexivity. cbn [length].
      unfold saturating_add_usize. case_bool_decide as Hb; [lia |].
      assert (cell (counters _ s) k (offset _ s key k) <> m) by (intros E; apply Hb; auto). 
      assert (Z.min (Z.of_nat (length (filter (fun x => x = key) seen))) usize_max <= m)
        by (rewrite Em; now apply Hlo).
      lia.
    + rewrite filter_cons_False, filter_nil by congruence. cbn [length].
      unfold saturating_add_usize. case_bool_decide; lia.
  - intros k o Ho. rewrite Hc, length_app by assumption. cbn [length]. specialize (Hup k o Ho).
    unfold saturating_add_usize. case_bool_decide; lia.
Qed.

(** Increments one after the other. *)
Definition increments (s : sketch) (keys : list K) : Result sketch := try_fold (increment K) keys s.

Lemma increments_spec s seen keys :
  counted s seen -> exists s', increments s keys = Ok s' /\ counted s' (seen ++ keys).
Proof.
  revert s seen. induction keys as [|key keys IH]; intros s seen Hc; cbn;
    [exists s; now rewrite app_nil_r |].
  destruct (increment_spec s key seen Hc) as (s1 & -> & Hc1 & _). cbn [result_bind].
  destruct (IH s1 (seen ++ [key]) Hc1) as (s2 & E & Hc2). exists s2. now rewrite <- app_assoc in Hc2.
Qed.

Lemma next_power_of_two n w :
  2 <= n -> checked_next_power_of_two n = Some w -> exists p, 0 <= p /\ w = 2 ^ p.
Proof.
  unfold checked_next_power_of_two. intros Hn. destruct (_ <=? _); [| discriminate].
  intros [= <-]. exists (Z.log2_up n). split; [apply Z.log2_up_nonneg | reflexivity].
Qed.

Lemma sketch_new_counted width ratio sips s : sketch_new K width ratio sips = Ok s -> counted s [].
Proof.
  unfold sketch_new, optimal_width. destruct (checked_next_power_of_two _) as [w |] eqn:E; [| discriminate].
  destruct (next_power_of_two (Z.max 2 width) w ltac:(lia) E) as (p & Hp & ->).
  pose proof (Z.pow_pos_nonneg 2 p ltac:(lia) Hp) as Hpos. cbn [unwrap result_bind]. intros H. inv_ok.
  assert (Hzero : forall k o, cell (repeat (repeat 0 (Z.to_nat (2 ^ p))) (optimal_k_num ratio)) k o = 0).
  { intros k o. unfold cell. destruct (_ !! k) as [row |] eqn:Er; [| reflexivity].
    apply list_elem_of_lookup_2, list_elem_of_In, repeat_spec in Er. subst row. cbn.
    destruct (repeat _ _ !! Z.to_nat o) as [c |] eqn:Ec; [| reflexivity].
    apply list_elem_of_lookup_2, list_elem_of_In, repeat_spec in Ec. now subst c. }
  constructor; cbn [counters hashers mask k_num].
  - constructor; cbn [counters hashers mask k_num].
    + unfold optimal_k_num. lia.
    + apply repeat_length.
    + exists p. split; [exact Hp |]. unfold sketch_mask. rewrite Z.ones_equiv. lia.
    + apply cell_rows; [intros; rewrite Hzero; unfold usize_max; lia |].
      apply Forall_forall. intros row Hr%list_elem_of_In%repeat_spec. subst row.
      rewrite repeat_length. unfold sketch_mask. lia.
  - intros. rewrite Hzero, filter_nil. cbn [length Z.of_nat]. unfold usize_max. lia.
  - intros. rewrite Hzero. cbn. lia.
Qed.

(** C38. After any sequence of increments on a new sketch, the estimate of a key
    is at least the number of times it was incremented (up to the saturation of
    the counters) and at most the number of increments. *)
Theorem estimate_bounds width ratio sips s0 keys key :
  sketch_new K width ratio sips = Ok s0 ->
  exists s e, increments s0 keys = Ok s /\ estimate K s key = Ok e
    /\ Z.min (Z.of_nat (length (filter (fun x => x = key) keys))) usize_max <= e
    /\ e <= Z.of_nat (length keys).
Proof.
  intros H0. destruct (increments_spec s0 [] keys (sketch_new_counted _ _ _ _ H0)) as (s & E & Hc).
  destruct (lowest_spec s key (counted_ok _ _ Hc)) as (cells & m & Ec & Em & Hall & k & Hk & ->).
  exists s, (cell (counters _ s) k (offset _ s key k)). split; [exact E |]. unfold estimate.
  rewrite Ec. cbn [result_bind]. split; [exact Em |].
  split; [now apply (counted_lower _ _ Hc) | apply (counted_upper _ _ Hc)].
  now apply offset_range, Hc.
Qed.
End Proofs.

(** Adding more than one at a time loses the bound: two rows, keys 0 and 1 that
    collide in the first row only; after adding 5 for key 0 its estimate is 1,
    because only the cells at the lowest count grow. *)
Lemma add_many_undercounts {F : Foreign} :
  (let? s := sketch_new Z 2 2 ((fun _ => 0), (fun k => k)) in
   let? s := add Z s 1 1 in
   let? s := add Z s 0 5 in
   estimate Z s 0) = Ok 1.
Proof. vm_compute. reflexivity. Qed.

Section Witnesses.
#[local] Existing Instance RefForeign.ref_foreign.

Lemma estimate_bounds_witness :
  exists s e, increments (mk_sketch Z (repeat (repeat 0 4) 2) (repeat 0 2%nat) ((fun k => k), (fun k => 2 * k)) 3 2)
                [1; 5; 1] = Ok s
    /\ estimate Z s 1 = Ok e
    /\ Z.min (Z.of_nat (length (filter (fun x => x = 1) [1; 5; 1]))) usize_max <= e
    /\ e <= Z.of_nat (length [1; 5; 1]).
Proof. apply (estimate_bounds 4 2 ((fun k => k), (fun k => 2 * k))). reflexivity. Defined.
End Witnesses.

