(* ===== verification/KvStore.v ===== *)
(** * The key-value store

    The [Transaction] trait's primitive operations (src/src/storage/mod.rs) as
    a class, and its implementation over RocksDB (src/src/storage/rocksdb.rs).
    RocksDB itself is the class [RocksDb]: point reads and writes, and an
    iterator over the keys in byte order.  An iterator is the sequence of the
    items it still has to yield, each of which may be an I/O error. *)

From stdpp Require Import gmap sorting.
From S2P Require Import Prelude Bytes Types.

Abbreviation kv := (list Z * list Z)%type.

(** ** Interfaces *)

Section Interface.
Context {F : Foreign}.

Definition KvIter : Type := list (Result kv).

(** [InnerIter::try_next]. *)
Definition try_next (it : KvIter) : Result (option kv) * KvIter :=
  match it with
  | [] => (Ok None, [])
  | Ok e :: it' => (Ok (Some e), it')
  | Err x :: it' => (Err x, it')
  | Panic :: it' => (Panic, it')
  end.

(** The required methods of [Transaction]. *)
Class Transaction (T : Type) := {
  tx_get : T -> bytes -> Result (option bytes);
  tx_set : bytes -> bytes -> T -> Result T;
  tx_remove : bytes -> T -> Result T;
  tx_range : T -> Bound bytes -> Bound bytes -> Result KvIter
}.

(** RocksDB: [Transaction::{get, put, delete, iterator, prefix_iterator}] of the
    binding.  An iterator starts at the first key or at the first key from a
    given one on; with [prefix_same_as_start] (a prefix iterator) it ends at the
    first key whose 4-byte prefix, the length the prefix extractor is set to,
    differs from the start's. *)
Inductive IteratorMode := Start | From (key : bytes).

Class RocksDb (D : Type) := {
  db_get : D -> bytes -> Result (option bytes);
  db_put : bytes -> bytes -> D -> Result D;
  db_delete : bytes -> D -> Result D;
  db_iterator : D -> bool -> IteratorMode -> list (Result kv)
}.

(** ** The RocksDB transaction *)

Record RocksIter := mk_rocks_iter { upper : Bound bytes; iter : list (Result kv) }.

Definition rocks_try_next (it : RocksIter) : Result (option kv) * RocksIter :=
  match iter it with
  | [] => (Ok None, it)
  | item :: rest =>
      let it' := mk_rocks_iter (upper it) rest in
      match item with
      | Ok (key, value) =>
          let upper_bound_check :=
            match upper it with
            | Bound.Included upper => is_le (lex_cmp key upper)
            | Bound.Excluded upper => is_lt (lex_cmp key upper)
            | Bound.Unbounded => true
            end in
          if negb upper_bound_check then (Ok None, it') else (Ok (Some (key, value)), it')
      | Err x => (Err x, it')
      | Panic => (Panic, it')
      end
  end.

(** The items [rocks_try_next] yields before the first [None]. *)
Fixpoint rocks_drain (fuel : nat) (it : RocksIter) : KvIter :=
  match fuel with
  | O => []
  | S fuel =>
      match rocks_try_next it with
      | (Ok None, _) => []
      | (Ok (Some e), it') => Ok e :: rocks_drain fuel it'
      | (Err x, it') => Err x :: rocks_drain fuel it'
      | (Panic, it') => Panic :: rocks_drain fuel it'
      end
  end.
Definition rocks_items (it : RocksIter) : KvIter := rocks_drain (length (iter it)) it.

(** The number of bytes two keys agree on. *)
Fixpoint common_len (a b : bytes) : nat :=
  match a, b with
  | x :: a', y :: b' => if x =? y then S (common_len a' b') else 0%nat
  | _, _ => 0%nat
  end.

Section Rocks.
Context {D : Type} {R : RocksDb D}.

Definition rocks_get (tx : D) (key : bytes) : Result (option bytes) := db_get tx key.
Definition rocks_set (key value : bytes) (tx : D) : Result D := db_put key value tx.
Definition rocks_remove (key : bytes) (tx : D) : Result D := db_delete key tx.

Definition rocks_range (tx : D) (min max : Bound bytes) : Result RocksIter :=
  let min :=
    match min with
    | Bound.Included bytes => Some bytes
    | Bound.Excluded bytes => Some (bytes ++ [0])
    | Bound.Unbounded => None
    end in
  let lower := match min with Some bytes => From bytes | None => Start end in
  match min, max with
  | Some min_bytes, (Bound.Included max_bytes | Bound.Excluded max_bytes) =>
      let len := common_len min_bytes max_bytes in
      if (len =? 0)%nat then Panic (* [debug_assert!(len > 0)] *)
      else Ok (mk_rocks_iter max (db_iterator tx true lower))
  | _, _ => Ok (mk_rocks_iter max (db_iterator tx false lower))
  end.

#[global] Instance rocks_transaction : Transaction D := {|
  tx_get := rocks_get;
  tx_set := rocks_set;
  tx_remove := rocks_remove;
  tx_range tx min max := let? it := rocks_range tx min max in Ok (rocks_items it)
|}.
End Rocks.
End Interface.

(** ** The contents of a store *)

Abbreviation store := (gmap (list Z) (list Z)).

Definition key_le (a b : kv) : Prop := lex_cmp a.1 b.1 <> Gt.
#[global] Instance key_le_dec : RelDecision key_le.
Proof. intros a b. unfold key_le. apply _. Defined.

(** The entries in key order. *)
Definition entries (m : store) : list kv := merge_sort key_le (map_to_list m).

Definition above_min (min : Bound bytes) (k : bytes) : Prop :=
  match min with
  | Bound.Included b => lex_cmp b k <> Gt
  | Bound.Excluded b => lex_cmp b k = Lt
  | Bound.Unbounded => True
  end.
Definition below_max (max : Bound bytes) (k : bytes) : Prop :=
  match max with
  | Bound.Included b => lex_cmp k b <> Gt
  | Bound.Excluded b => lex_cmp k b = Lt
  | Bound.Unbounded => True
  end.
Definition within (min max : Bound bytes) (k : bytes) : Prop := above_min min k /\ below_max max k.
#[global] Instance above_min_dec min k : Decision (above_min min k).
Proof. unfold above_min. destruct min; apply _. Defined.
#[global] Instance below_max_dec max k : Decision (below_max max k).
Proof. unfold below_max. destruct max; apply _. Defined.
#[global] Instance within_dec min max k : Decision (within min max k).
Proof. unfold within. apply _. Defined.

(** The entries of a range, in key order. *)
Definition scan (m : store) (min max : Bound bytes) : list kv :=
  filter (fun e => within min max e.1) (entries m).

Definition bound_key_of (b : Bound bytes) : option bytes :=
  match b with
  | Bound.Included k | Bound.Excluded k => Some k
  | Bound.Unbounded => None
  end.
Definition PREFIX_LEN : nat := 4.
Definition keys_ok (m : store) : Prop := map_Forall (fun k _ => is_bytes k) m.

(** A range the prefix iterator can serve: both ends extend one 4-byte prefix. *)
Definition scannable (min max : Bound bytes) : Prop :=
  exists p, length p = PREFIX_LEN
    /\ (exists s, bound_key_of min = Some (p ++ s)) /\ (exists s, bound_key_of max = Some (p ++ s)).

Class RocksLaws `{Foreign} (D : Type) {R : RocksDb D} := {
  db_contents : D -> store;
  db_get_ok : forall d k, db_get d k = Ok (db_contents d !! k);
  db_put_ok : forall d k v, exists d', db_put k v d = Ok d'
    /\ db_contents d' = <[k := v]> (db_contents d);
  db_delete_ok : forall d k, exists d', db_delete k d = Ok d'
    /\ db_contents d' = delete k (db_contents d);
  db_iterator_from : forall d k, (PREFIX_LEN <= length k)%nat ->
    db_iterator d true (From k)
    = map Ok (filter (fun e => lex_cmp k e.1 <> Gt /\ take PREFIX_LEN e.1 = take PREFIX_LEN k)
                (entries (db_contents d)))
}.

Class TransactionLaws `{Foreign} (T : Type) {X : Transaction T} := {
  contents : T -> store;
  tx_get_ok : forall t k, tx_get t k = Ok (contents t !! k);
  tx_set_ok : forall t k v, exists t', tx_set k v t = Ok t'
    /\ contents t' = <[k := v]> (contents t);
  tx_remove_ok : forall t k, exists t', tx_remove k t = Ok t'
    /\ contents t' = delete k (contents t);
  tx_range_ok : forall t min max, scannable min max -> keys_ok (contents t) ->
    tx_range t min max = Ok (map Ok (scan (contents t) min max))
}.

(** ** Order *)

Lemma lex_le_trans a b c : lex_cmp a b <> Gt -> lex_cmp b c <> Gt -> lex_cmp a c <> Gt.
Proof.
  destruct (lex_cmp a b) eqn:E1, (lex_cmp b c) eqn:E2; intros; try congruence.
  - apply lex_cmp_eq in E1, E2. subst. now rewrite lex_cmp_refl.
  - apply lex_cmp_eq in E1. subst. now rewrite E2.
  - apply lex_cmp_eq in E2. subst. now rewrite E1.
  - now rewrite (lex_cmp_trans a b c).
Qed.

Lemma lex_le_total a b : lex_cmp a b <> Gt \/ lex_cmp b a <> Gt.
Proof. rewrite (lex_cmp_antisym a b). destruct (lex_cmp a b); cbn; intuition discriminate. Qed.

#[global] Instance key_le_trans : Transitive key_le.
Proof. intros a b c. apply lex_le_trans. Qed.
#[global] Instance key_le_total : Total key_le.
Proof. intros a b. apply lex_le_total. Qed.

Definition key_lt (a b : kv) : Prop := lex_cmp a.1 b.1 = Lt.

Lemma elem_of_entries m e : e ∈ entries m <-> m !! e.1 = Some e.2.
Proof.
  unfold entries. rewrite merge_sort_Permutation. destruct e. apply elem_of_map_to_list.
Qed.

Lemma strict_sorted l :
  NoDup l.*1 -> StronglySorted key_le l -> StronglySorted key_lt l.
Proof.
  induction l as [|a l IH]; intros Hd Hs; [constructor |].
  apply StronglySorted_inv in Hs as [Hs Ha]. apply NoDup_cons in Hd as [Hn Hd].
  constructor; [auto |]. rewrite Forall_forall in *. intros e He.
  specialize (Ha e He). unfold key_le, key_lt in *.
  destruct (lex_cmp a.1 e.1) eqn:E; try congruence.
  apply lex_cmp_eq in E. destruct Hn. rewrite E. now apply list_elem_of_fmap_2.
Qed.

Lemma entries_sorted m : StronglySorted key_lt (entries m).
Proof.
  apply strict_sorted.
  - unfold entries. rewrite merge_sort_Permutation. apply NoDup_fst_map_to_list.
  - apply StronglySorted_merge_sort; apply _.
Qed.

Lemma filter_sorted {A} (R : A -> A -> Prop) (P : A -> Prop) `{!forall x, Decision (P x)} l :
  StronglySorted R l -> StronglySorted R (filter P l).
Proof.
  induction 1 as [|a l Hs IH Ha]; [constructor |].
  destruct (decide (P a)) as [HP | HP].
  - rewrite filter_cons_True by assumption. constructor; [assumption |].
    rewrite Forall_forall in *. intros x [_ Hx]%list_elem_of_filter. auto.
  - now rewrite filter_cons_False.
Qed.

Lemma scan_sorted m min max : StronglySorted key_lt (scan m min max).
Proof. apply filter_sorted, entries_sorted. Qed.

Lemma elem_of_scan m min max e :
  e ∈ scan m min max <-> within min max e.1 /\ m !! e.1 = Some e.2.
Proof. unfold scan. now rewrite list_elem_of_filter, elem_of_entries. Qed.

(** Strictly sorted lists with the same elements are equal. *)
Lemma sorted_unique l1 l2 :
  StronglySorted key_lt l1 -> StronglySorted key_lt l2 ->
  (forall e, e ∈ l1 <-> e ∈ l2) -> l1 = l2.
Proof.
  assert (Hirr : forall e, ~ key_lt e e) by (intros e; unfold key_lt; now rewrite lex_cmp_refl).
  intros H1. revert l2. induction H1 as [|a l1 H1 IH Ha]; intros l2 H2 He.
  { destruct l2 as [|b l2]; [reflexivity |].
    exfalso. apply (not_elem_of_nil b), He, list_elem_of_here. }
  destruct H2 as [|b l2 H2 Hb].
  { exfalso. apply (not_elem_of_nil a), He, list_elem_of_here. }
  rewrite Forall_forall in Ha, Hb.
  assert (a = b) as <-.
  { destruct (proj1 (elem_of_cons _ _ _) (proj1 (He a) (list_elem_of_here _ _))) as [|Hab]; [assumption |].
    destruct (proj1 (elem_of_cons _ _ _) (proj2 (He b) (list_elem_of_here _ _))) as [|Hba]; [congruence |].
    destruct (Hirr a). eapply lex_cmp_trans; [apply Ha | apply Hb]; assumption. }
  f_equal. apply IH; [assumption |]. intros e. specialize (He e). rewrite !elem_of_cons in He.
  split; intros Hin.
  - destruct (proj1 He (or_intror Hin)) as [-> |]; [| assumption]. destruct (Hirr a). auto.
  - destruct (proj2 He (or_intror Hin)) as [-> |]; [| assumption]. destruct (Hirr a). auto.
Qed.

(** A range is determined by what it holds. *)
Lemma scan_ext m m' min max :
  (forall k, within min max k -> m !! k = m' !! k) -> scan m min max = scan m' min max.
Proof.
  intros H. apply sorted_unique; try apply scan_sorted.
  intros e. rewrite !elem_of_scan. split; intros [Hw Hm]; split; auto; [now rewrite <- H | now rewrite H].
Qed.

(** ** Prefixes *)

(** Whatever lies between two extensions of a prefix extends it. *)
Lemma between_prefix p s t k :
  lex_cmp (p ++ s) k <> Gt -> lex_cmp k (p ++ t) <> Gt -> exists u, k = p ++ u.
Proof.
  revert k. induction p as [|x p IH]; intros k H1 H2; [now exists k |].
  destruct k as [|y k]; cbn in *; [congruence |].
  destruct (Z.compare_spec x y) as [<- | |]; cbn in *; try congruence.
  - rewrite Z.compare_refl in H2. destruct (IH k H1 H2) as [u ->]. now exists u.
  - rewrite (proj2 (Z.compare_gt_iff y x)) in H2 by assumption. cbn in H2. congruence.
Qed.

Lemma common_len_app p s t : (length p <= common_len (p ++ s) (p ++ t))%nat.
Proof. induction p as [|x p IH]; cbn; [lia |]. rewrite Z.eqb_refl. lia. Qed.

(** Appending a zero byte gives the next key. *)
Lemma lex_cmp_successor b k : is_bytes k -> lex_cmp (b ++ [0]) k <> Gt <-> lex_cmp b k = Lt.
Proof.
  revert k. induction b as [|x b IH]; intros k Hk; cbn [app].
  - destruct Hk as [|y k Hy Hk]; cbn [lex_cmp]; [split; congruence |]. unfold is_byte in Hy.
    destruct (Z.compare_spec 0 y); try lia; cbn [cmp_then]; [| split; congruence].
    destruct k; cbn; split; congruence.
  - destruct Hk as [|y k Hy Hk]; cbn [lex_cmp]; [split; congruence |].
    destruct (x ?= y); cbn [cmp_then]; [now apply IH | split; congruence ..].
Qed.

(** ** The RocksDB transaction implements the interface *)

Section RocksCorrect.
Context {F : Foreign} {D : Type} {R : RocksDb D} {L : RocksLaws D}.

Definition upper_check (upper : Bound bytes) (key : bytes) : bool :=
  match upper with
  | Bound.Included upper => is_le (lex_cmp key upper)
  | Bound.Excluded upper => is_lt (lex_cmp key upper)
  | Bound.Unbounded => true
  end.

Lemma upper_check_spec upper k : upper_check upper k = true <-> below_max upper k.
Proof.
  destruct upper as [u | u |]; cbn; [| | tauto]; unfold is_le, is_lt, is_gt;
    destruct (lex_cmp k u); cbn; intuition congruence.
Qed.

Lemma below_max_mono upper a b : below_max upper b -> lex_cmp a b = Lt -> below_max upper a.
Proof.
  destruct upper as [u | u |]; cbn; intros H Hab; [| | exact I].
  - eapply lex_le_trans; [| exact H]. now rewrite Hab.
  - eapply lex_cmp_trans; eassumption.
Qed.

(** Stopping at the first key past the upper bound loses nothing: the keys are
    sorted. *)
Lemma rocks_items_sorted u l :
  StronglySorted key_lt l ->
  rocks_items (mk_rocks_iter u (map Ok l))
  = map Ok (filter (fun e => below_max u e.1) l).
Proof.
  unfold rocks_items. cbn [iter].
  induction 1 as [|[k v] l Hs IH Ha]; [reflexivity |].
  cbn [map length rocks_drain rocks_try_next iter upper].
  fold (upper_check u k).
  destruct (upper_check u k) eqn:E; cbn [negb].
  - rewrite filter_cons_True by now apply upper_check_spec. cbn [map]. f_equal. exact IH.
  - assert (Hk : ~ below_max u k) by (rewrite <- upper_check_spec; congruence).
    rewrite filter_cons_False by exact Hk. rewrite filter_none; [reflexivity |].
    rewrite Forall_forall in Ha. intros e He Hb. apply Hk. eapply below_max_mono; [exact Hb |].
    now apply (Ha e He).
Qed.

Lemma filter_twice {A} (P Q S : A -> Prop) `{!forall x, Decision (P x)}
    `{!forall x, Decision (Q x)} `{!forall x, Decision (S x)} (l : list A) :
  (forall x, x ∈ l -> S x <-> P x /\ Q x) -> filter P (filter Q l) = filter S l.
Proof.
  intros HPQ. rewrite list_filter_filter. induction l as [|x l IH]; [reflexivity |].
  pose proof (HPQ x (list_elem_of_here _ _)) as Hx.
  assert (Hl : filter (fun x => P x /\ Q x) l = filter S l)
    by (apply IH; intros y Hy; apply HPQ; now apply list_elem_of_further).
  destruct (decide (S x)) as [HS | HS].
  - rewrite !filter_cons_True by tauto. now f_equal.
  - rewrite !filter_cons_False by tauto. exact Hl.
Qed.

Lemma range_items tx min max :
  scannable min max -> keys_ok (db_contents tx) ->
  exists it, rocks_range tx min max = Ok it /\ rocks_items it = map Ok (scan (db_contents tx) min max).
Proof.
  intros (p & Hp & [s Hs] & [t Ht]) Hok.
  set (lo := match min with Bound.Excluded b => b ++ [0] | _ => p ++ s end).
  assert (Hlo : exists s', lo = p ++ s').
  { destruct min; cbn in *; [eauto | injection Hs as -> | discriminate].
    exists (s ++ [0]). unfold lo. now rewrite app_assoc. }
  assert (Habove : forall k, is_bytes k -> lex_cmp lo k <> Gt <-> above_min min k).
  { intros k Hk. unfold lo. destruct min as [b | b |]; cbn in *; try discriminate; injection Hs as ->;
      [reflexivity | now apply lex_cmp_successor]. }
  assert (Hr : rocks_range tx min max = Ok (mk_rocks_iter max (db_iterator tx true (From lo)))).
  { assert (Hc : forall t', (common_len lo (p ++ t') =? 0)%nat = false).
    { intros t'. destruct Hlo as [s' ->]. apply Nat.eqb_neq.
      pose proof (common_len_app p s' t'). unfold PREFIX_LEN in Hp. lia. }
    unfold rocks_range.
    destruct min as [b | b |]; cbn in Hs; try discriminate; injection Hs as ->; cbn [lo] in *;
      (destruct max as [c | c |]; cbn in Ht; try discriminate; injection Ht as ->); unfold lo in *; now rewrite Hc. }
  eexists. split; [exact Hr |].
  destruct Hlo as [s' Elo].
  rewrite db_iterator_from by (rewrite Elo, length_app; lia).
  rewrite rocks_items_sorted by apply filter_sorted, entries_sorted. f_equal.
  apply filter_twice. intros [k v] Hin. cbn [fst].
  apply elem_of_entries in Hin. cbn in Hin. specialize (Hok k v Hin). cbn in Hok.
  unfold within. rewrite <- Habove by exact Hok.
  assert (Htake : forall u, take PREFIX_LEN (p ++ u) = p) by (intros u; rewrite <- Hp; apply take_app_length).
  rewrite Elo, Htake. split; [| tauto]. intros [H1 H2]. split; [exact H2 |]. split; [exact H1 |].
  destruct (between_prefix p s' t k H1) as [u ->]; [| apply Htake].
  destruct max as [c | c |]; cbn in Ht, H2; try discriminate; injection Ht as ->; [exact H2 | now rewrite H2].
Qed.

#[global] Program Instance rocks_transaction_laws : TransactionLaws D := {| contents := db_contents |}.
Next Obligation. intros. apply db_get_ok. Qed.
Next Obligation. intros. apply db_put_ok. Qed.
Next Obligation. intros. apply db_delete_ok. Qed.
Next Obligation.
  intros t min max Hs Hk. cbn. destruct (range_items t min max Hs Hk) as (it & -> & Hit).
  cbn [result_bind]. now rewrite Hit.
Qed.

(** C27. A range scan returns exactly the entries of the range in key order,
    although RocksDB is only asked to seek to the lower end: appending a zero
    byte makes an excluded lower end exact, the first key past the upper end
    stops the scan, and the 4-byte prefix iterator misses nothing when both ends
    share a 4-byte prefix. *)
Theorem rocks_range_exact tx min max :
  scannable min max -> keys_ok (db_contents tx) ->
  exists it l, rocks_range tx min max = Ok it /\ rocks_items it = map Ok l
    /\ StronglySorted key_lt l
    /\ forall k v, (k, v) ∈ l <-> db_get tx k = Ok (Some v) /\ within min max k.
Proof.
  intros Hs Hk. destruct (range_items tx min max Hs Hk) as (it & Hr & Hit).
  exists it, (scan (db_contents tx) min max). repeat split; [exact Hr | exact Hit | apply scan_sorted | ..].
  - rewrite db_get_ok. apply elem_of_scan in H as [_ H]. cbn in H. now rewrite H.
  - apply elem_of_scan in H as [[H _] _]. exact H.
  - apply elem_of_scan in H as [[_ H] _]. exact H.
  - intros [Hg Hw]. apply elem_of_scan. split; [exact Hw |]. rewrite db_get_ok in Hg. now inv_ok.
Qed.
End RocksCorrect.

(** ** A reference store

    RocksDB as a finite map: it never fails. *)

Module RefRocks.
Section RefRocks.
Context {F : Foreign}.

#[global] Instance ref_rocks : RocksDb store := {|
  db_get m k := Ok (m !! k);
  db_put k v m := Ok (<[k := v]> m);
  db_delete k m := Ok (delete k m);
  db_iterator m prefix mode :=
    map Ok (match mode with
            | Start => entries m
            | From k =>
                filter (fun e => lex_cmp k e.1 <> Gt
                                 /\ (prefix = true -> take PREFIX_LEN e.1 = take PREFIX_LEN k)) (entries m)
            end)
|}.

#[global] Program Instance ref_rocks_laws : RocksLaws store := {| db_contents m := m |}.
Next Obligation. reflexivity. Qed.
Next Obligation. intros. eauto. Qed.
Next Obligation. intros. eauto. Qed.
Next Obligation.
  intros m k _. cbn. f_equal. apply list_filter_iff. intros e. tauto.
Qed.
End RefRocks.
End RefRocks.

Section Witnesses.
#[local] Existing Instance RefForeign.ref_foreign.

Lemma rocks_range_exact_witness :
  exists it l,
    rocks_range (D := store) {[ [1; 2; 3; 4; 5] := [9] ]} (Bound.Excluded [1; 2; 3; 4])
      (Bound.Included [1; 2; 3; 4; 255]) = Ok it
    /\ rocks_items it = map Ok l /\ StronglySorted key_lt l
    /\ forall k v, (k, v) ∈ l
         <-> db_get (D := store) {[ [1; 2; 3; 4; 5] := [9] ]} k = Ok (Some v)
             /\ within (Bound.Excluded [1; 2; 3; 4]) (Bound.Included [1; 2; 3; 4; 255]) k.
Proof.
  apply (rocks_range_exact (D := store)).
  - exists [1; 2; 3; 4]. split; [reflexivity |]. split; [exists [] | exists [255]]; reflexivity.
  - apply map_Forall_singleton. repeat constructor; lia.
Defined.
End Witnesses.
