(* ===== verification/Cache.v ===== *)
(** * Caches

    What the storage asks of its caches, as a class, and the proof that the
    sharded LRU cache of src/src/utils/lru.rs (Lru.v) provides it: a lookup
    returns what was put last unless it was removed or evicted, and never
    anything else. *)

From stdpp Require Import gmap.
From S2P Require Import Prelude Bytes Types Lru.

Class Cache `{Foreign} (K V C : Type) := {
  cache_get : K -> C -> Result (option V * C);
  cache_put : K -> V -> C -> Result (option V * C);
  cache_remove : K -> C -> Result (option V * C);
  cache_get_or_insert : K -> (K -> Result V) -> C -> Result (V * C)
}.

(** [cached c k] is what the cache holds for [k]; putting a key may evict others. *)
Class CacheLaws `{Foreign} (K V C : Type) {X : Cache K V C} := {
  cache_ok : C -> Prop;
  cached : C -> K -> option V;
  cache_get_ok : forall c k, cache_ok c -> exists c', cache_get k c = Ok (cached c k, c')
    /\ cache_ok c' /\ forall k', cached c' k' = cached c k';
  cache_put_ok : forall c k v, cache_ok c -> exists old c', cache_put k v c = Ok (old, c')
    /\ cache_ok c' /\ cached c' k = Some v
    /\ forall k', k' <> k -> cached c' k' = cached c k' \/ cached c' k' = None;
  cache_remove_ok : forall c k, cache_ok c -> exists old c', cache_remove k c = Ok (old, c')
    /\ cache_ok c' /\ cached c' k = None /\ forall k', k' <> k -> cached c' k' = cached c k';
  cache_insert_hit : forall c k f v, cache_ok c -> cached c k = Some v ->
    exists c', cache_get_or_insert k f c = Ok (v, c') /\ cache_ok c'
      /\ forall k', cached c' k' = cached c k';
  cache_insert_miss : forall c k f v, cache_ok c -> cached c k = None -> f k = Ok v ->
    exists c', cache_get_or_insert k f c = Ok (v, c') /\ cache_ok c' /\ cached c' k = Some v
      /\ forall k', k' <> k -> cached c' k' = cached c k' \/ cached c' k' = None
}.

(** ** The sharded LRU cache *)

Section SharedLru.
Context {F : Foreign} {K : Type} `{Countable K} {V : Type}.
Variable hash : K -> Z.
#[local] Abbreviation Shards := (list (LruCache K V)).

#[global] Instance shared_lru : Cache K V Shards := {|
  cache_get := shared_get hash;
  cache_put := shared_put hash;
  cache_remove := shared_remove hash;
  cache_get_or_insert := shared_get_or_insert hash
|}.

Definition lru_view (s : LruCache K V) (k : K) : option V :=
  match inner_get k s with
  | Ok (Some p) => match heap s !! p with Some n => Some (value n) | None => None end
  | _ => None
  end.

Lemma lru_view_spec s l k : lru_ok s l -> lru_view s k = spec_lookup k (abs l).
Proof.
  intros Hok. pose proof (lk_map _ _ Hok) as Hmap. unfold lru_view.
  destruct (lookup_cases s l k Hmap) as [(l1 & e & l2 & -> & <- & Hik) | [Hk Hik]]; rewrite Hik.
  - rewrite spec_lookup_split by apply (mo_keys _ _ Hmap).
    pose proof (lo_dseg _ _ (mo_list _ _ Hmap)) as Hd. apply dseg_app in Hd as [_ Hd].
    cbn [dseg] in Hd. destruct Hd as [-> _]. reflexivity.
  - now rewrite spec_lookup_none.
Qed.

Implicit Types m : list (K * V).

Lemma spec_lookup_some m k v : NoDup m.*1 -> spec_lookup k m = Some v <-> (k, v) ∈ m.
Proof. intros Hn. symmetry. now apply elem_of_list_to_map. Qed.

Lemma sub_lookup m m' k : NoDup m.*1 -> NoDup m'.*1 -> (forall e, e ∈ m' -> e ∈ m) ->
  spec_lookup k m' = spec_lookup k m \/ spec_lookup k m' = None.
Proof.
  intros Hn Hn' Hsub. destruct (spec_lookup k m') as [v|] eqn:E; [left | now right].
  apply spec_lookup_some in E; [| exact Hn']. symmetry. apply spec_lookup_some; auto.
Qed.

Lemma spec_remove_lookup m k k' : NoDup m.*1 ->
  spec_lookup k' (spec_remove k m) = if decide (k' = k) then None else spec_lookup k' m.
Proof.
  intros Hn.
  assert (Hn' : NoDup (spec_remove k m).*1).
  { unfold spec_remove. induction m as [|e m IH]; [constructor |].
    cbn in Hn. apply NoDup_cons in Hn as [He Hn].
    destruct (decide (e.1 <> k)); [rewrite filter_cons_True by assumption | rewrite filter_cons_False by assumption; auto].
    cbn. apply NoDup_cons. split; [| auto]. intros Hin. apply He.
    apply list_elem_of_fmap in Hin as (x & -> & Hx). apply list_elem_of_filter in Hx as [_ Hx].
    now apply list_elem_of_fmap_2. }
  destruct (decide (k' = k)) as [-> | Hne].
  - destruct (spec_lookup k (spec_remove k m)) as [v|] eqn:E; [| reflexivity].
    apply spec_lookup_some in E; [| exact Hn']. apply list_elem_of_filter in E as [E _]. now destruct E.
  - apply option_eq. intros v. rewrite !spec_lookup_some by assumption.
    unfold spec_remove. rewrite list_elem_of_filter. cbn. tauto.
Qed.

Lemma spec_cons_lookup m k v k' :
  spec_lookup k' ((k, v) :: m) = if decide (k' = k) then Some v else spec_lookup k' m.
Proof.
  unfold spec_lookup. cbn [list_to_map fst snd]. destruct (decide (k' = k)) as [-> | Hne].
  - apply lookup_insert_eq.
  - now apply lookup_insert_ne.
Qed.

Lemma spec_get_lookup m k k' : NoDup m.*1 -> spec_lookup k' (spec_get k m) = spec_lookup k' m.
Proof.
  intros Hn. unfold spec_get. destruct (spec_lookup k m) as [v|] eqn:E; [| reflexivity].
  rewrite spec_cons_lookup, spec_remove_lookup by assumption.
  destruct (decide (k' = k)) as [-> |]; congruence.
Qed.

Lemma spec_put_lookup c m k v k' : NoDup (spec_put c k v m).*1 -> NoDup m.*1 -> k' <> k ->
  spec_lookup k' (spec_put c k v m) = spec_lookup k' m \/ spec_lookup k' (spec_put c k v m) = None.
Proof.
  intros Hn' Hn Hne. unfold spec_put in *. rewrite spec_cons_lookup.
  destruct (decide (k' = k)); [congruence |].
  cbn in Hn'. apply NoDup_cons in Hn' as [_ Hn'].
  apply sub_lookup; try assumption. intros e He.
  assert (Hin : e ∈ spec_remove k m).
  { unfold spec_evict in He. destruct (_ <=? _)%nat; [| exact He].
    clear - He. induction (spec_remove k m) as [|x l IH]; [exact He |].
    cbn in He. destruct l as [|y l]; [now apply elem_of_nil in He |].
    apply elem_of_cons in He as [-> | He]; [apply list_elem_of_here | apply list_elem_of_further; auto]. }
  now apply list_elem_of_filter in Hin as [_ Hin].
Qed.

Lemma lru_ok_nodup (s : LruCache K V) l : lru_ok s l -> NoDup (abs l).*1.
Proof. intros Hok. rewrite abs_keys. apply (mo_keys _ _ (lk_map _ _ Hok)). Qed.

Definition shared_view (c : Shards) (k : K) : option V :=
  match c !! shard hash c k with Some s => lru_view s k | None => None end.

(** An operation on one shard leaves the others as they are. *)
Lemma on_shard_run {A} (c : Shards) k (op : LruCache K V -> Result (A * LruCache K V)) s a s' l' :
  shards_ok c -> c !! shard hash c k = Some s -> op s = Ok (a, s') -> lru_ok s' l' ->
  exists c', on_shard hash c k op = Ok (a, c') /\ shards_ok c'
    /\ forall k', shared_view c' k'
         = if decide (shard hash c k' = shard hash c k) then lru_view s' k' else shared_view c k'.
Proof.
  intros [Hne Hall] Hs Hop Hok. exists (<[shard hash c k := s']> c).
  unfold on_shard. rewrite Hs. cbn [unwrap result_bind]. rewrite Hop. split; [reflexivity |].
  split; [split; [generalize (shard hash c k); intros i; now destruct c, i | apply Forall_insert; eauto] |].
  pose proof (lookup_lt_Some _ _ _ Hs) as Hlt.
  intros k'. unfold shared_view.
  assert (Hsh : shard hash (<[shard hash c k := s']> c) k' = shard hash c k')
    by (unfold shard; now rewrite length_insert).
  rewrite Hsh. destruct (decide (shard hash c k' = shard hash c k)) as [-> | Hd].
  - now rewrite list_lookup_insert_eq.
  - now rewrite list_lookup_insert_ne.
Qed.

(** The sharded LRU cache is a cache: a get returns what the cache holds and
    changes nothing but the recency order, a put holds the new value and may only
    evict others, a remove forgets its key and no other, and [get_or_insert]
    computes the value only on a miss; all keep every shard well formed. *)
#[global] Program Instance shared_lru_laws : CacheLaws K V Shards := {|
  cache_ok := shards_ok;
  cached := shared_view
|}.
Next Obligation.
  intros c k Hok. destruct (on_shard_ok hash c k (lru_get k) Hok) as (s & l & Hs & Hl).
  destruct (lru_get_spec s l k Hl) as (s' & l' & E & Hl' & _ & Ha).
  destruct (on_shard_run c k _ _ _ _ _ Hok Hs E Hl') as (c' & Hc & Hok' & Hv).
  exists c'. cbn. unfold shared_get. rewrite Hc. split; [| split; [exact Hok' |]].
  - unfold shared_view. rewrite Hs. now rewrite (lru_view_spec s l).
  - intros k'. rewrite Hv. destruct (decide _) as [Hsh |]; [| reflexivity].
    unfold shared_view. rewrite Hsh, Hs, (lru_view_spec s' l'), (lru_view_spec s l), Ha by assumption.
    apply spec_get_lookup. eapply lru_ok_nodup. eassumption.
Qed.
Next Obligation.
  intros c k v Hok. destruct (on_shard_ok hash c k (lru_put k v) Hok) as (s & l & Hs & Hl).
  destruct (lru_put_spec s l k v Hl) as (s' & l' & E & Hl' & _ & Ha).
  destruct (on_shard_run c k _ _ _ _ _ Hok Hs E Hl') as (c' & Hc & Hok' & Hv).
  eexists _, c'. cbn. unfold shared_put. rewrite Hc. split; [reflexivity |]. split; [exact Hok' |].
  rewrite Hv, decide_True, (lru_view_spec s' l'), Ha, spec_lookup_put by auto. split; [reflexivity |].
  intros k' Hne. rewrite Hv. destruct (decide _) as [Hsh |]; [| now left].
  unfold shared_view. rewrite Hsh, Hs, (lru_view_spec s' l'), (lru_view_spec s l), Ha by assumption.
  apply spec_put_lookup; [rewrite <- Ha | | exact Hne]; eapply lru_ok_nodup; eassumption.
Qed.
Next Obligation.
  intros c k Hok. destruct (on_shard_ok hash c k (lru_remove k) Hok) as (s & l & Hs & Hl).
  destruct (lru_remove_spec s l k Hl) as (s' & l' & E & Hl' & _ & Ha).
  destruct (on_shard_run c k _ _ _ _ _ Hok Hs E Hl') as (c' & Hc & Hok' & Hv).
  eexists _, c'. cbn. unfold shared_remove. rewrite Hc. split; [reflexivity |]. split; [exact Hok' |].
  pose proof (lru_ok_nodup s l Hl) as Hn. split.
  - rewrite Hv, decide_True, (lru_view_spec s' l'), Ha, spec_remove_lookup by auto.
    now rewrite decide_True.
  - intros k' Hne. rewrite Hv. destruct (decide _) as [Hsh |]; [| reflexivity].
    unfold shared_view. rewrite Hsh, Hs, (lru_view_spec s' l'), (lru_view_spec s l), Ha by assumption.
    rewrite spec_remove_lookup by assumption. now rewrite decide_False.
Qed.
Next Obligation.
  intros c k f v Hok Hh. destruct (on_shard_ok hash c k (get_or_insert k f) Hok) as (s & l & Hs & Hl).
  pose proof (get_or_insert_spec s l k f Hl) as Hspec. unfold shared_view in Hh.
  rewrite Hs, (lru_view_spec s l) in Hh by assumption. rewrite Hh in Hspec.
  destruct Hspec as (s' & l' & E & Hl' & _ & Ha).
  destruct (on_shard_run c k _ _ _ _ _ Hok Hs E Hl') as (c' & Hc & Hok' & Hv).
  exists c'. cbn. unfold shared_get_or_insert. rewrite Hc. split; [reflexivity |]. split; [exact Hok' |].
  intros k'. rewrite Hv. destruct (decide _) as [Hsh |]; [| reflexivity].
  unfold shared_view. rewrite Hsh, Hs, (lru_view_spec s' l'), (lru_view_spec s l), Ha by assumption.
  apply spec_get_lookup. eapply lru_ok_nodup. eassumption.
Qed.
Next Obligation.
  intros c k f v Hok Hm Hf. destruct (on_shard_ok hash c k (get_or_insert k f) Hok) as (s & l & Hs & Hl).
  pose proof (get_or_insert_spec s l k f Hl) as Hspec. unfold shared_view in Hm.
  rewrite Hs, (lru_view_spec s l) in Hm by assumption. rewrite Hm, Hf in Hspec.
  destruct Hspec as (s' & l' & E & Hl' & _ & Ha).
  destruct (on_shard_run c k _ _ _ _ _ Hok Hs E Hl') as (c' & Hc & Hok' & Hv).
  exists c'. cbn. unfold shared_get_or_insert. rewrite Hc. split; [reflexivity |]. split; [exact Hok' |].
  rewrite Hv, decide_True, (lru_view_spec s' l'), Ha, spec_lookup_put by auto. split; [reflexivity |].
  intros k' Hne. rewrite Hv. destruct (decide _) as [Hsh |]; [| now left].
  unfold shared_view. rewrite Hsh, Hs, (lru_view_spec s' l'), (lru_view_spec s l), Ha by assumption.
  apply spec_put_lookup; [rewrite <- Ha | | exact Hne]; eapply lru_ok_nodup; eassumption.
Qed.
End SharedLru.
