(* ===== verification/Catalog.v ===== *)
(** * The catalog

    Columns (src/src/catalog/column.rs), tables (src/src/catalog/table.rs) and
    index metadata (src/src/types/index.rs).  A column's default is an
    expression: the type of expressions is a parameter, [ExprOps] what the
    catalog asks of them.  The [BTreeMap]s are only looked up, so they are
    finite maps.  Column ids are the 16 bytes of a ULID; a generator is the list
    of ids it will return (running out is the [MonotonicError] that
    [generate().unwrap()] panics on). *)

From stdpp Require Import gmap sorting.
From S2P Require Import Prelude Bytes Types LogicalTypes Values TableCodec.

Abbreviation ColumnId := (list Z).
Abbreviation Generator := (list (list Z)).

(** ** Columns *)

Record ColumnSummary := mk_summary { cs_name : bytes; relation : ColumnRelation }.

Section Columns.
Context {E : Type}.

Record ColumnDesc := mk_desc {
  column_datatype : LogicalType;
  primary : option nat;
  is_unique : bool;
  col_default : option E
}.

Record ColumnCatalog := mk_column {
  summary : ColumnSummary;
  nullable : bool;
  desc : ColumnDesc;
  in_join : bool
}.
End Columns.
Arguments ColumnDesc E : clear implicits.
Arguments ColumnCatalog E : clear implicits.

(** What the catalog needs of expressions: [has_table_ref_column] and the
    evaluation without a tuple. *)
Class ExprOps `{Foreign} (E : Type) := {
  has_table_ref_column : E -> bool;
  eval_none : E -> Result DataValue
}.

Section Column.
Context {F : Foreign} {E : Type} {X : ExprOps E}.

Definition desc_new (column_datatype : LogicalType) (primary : option nat) (is_unique : bool)
    (default : option E) : Result (ColumnDesc E) :=
  match default with
  | Some expr =>
      if has_table_ref_column expr then Err DefaultNotColumnRef
      else Ok (mk_desc column_datatype primary is_unique default)
  | None => Ok (mk_desc column_datatype primary is_unique default)
  end.

Definition column_new (column_name : bytes) (nullable : bool) (column_desc : ColumnDesc E)
  : ColumnCatalog E :=
  mk_column (mk_summary column_name NoRelation) nullable column_desc false.

Definition new_dummy (column_name : bytes) : Result (ColumnCatalog E) :=
  match desc_new (LT.Varchar None Characters) None false None with
  | Ok d => Ok (mk_column (mk_summary column_name NoRelation) true d false)
  | _ => Panic
  end.

Definition column_id (c : ColumnCatalog E) : option ColumnId :=
  match relation (summary c) with
  | NoRelation => None
  | TableRelation id _ _ => Some id
  end.
Definition column_name (c : ColumnCatalog E) : bytes := cs_name (summary c).
Definition column_table (c : ColumnCatalog E) : option bytes :=
  match relation (summary c) with
  | NoRelation => None
  | TableRelation _ name _ => Some name
  end.
Definition full_name (c : ColumnCatalog E) : bytes :=
  match column_table c with
  | Some name => name ++ [46] ++ column_name c
  | None => column_name c
  end.
Definition set_relation (r : ColumnRelation) (c : ColumnCatalog E) : ColumnCatalog E :=
  mk_column (mk_summary (column_name c) r) (nullable c) (desc c) (in_join c).
Definition set_name (name : bytes) (c : ColumnCatalog E) : ColumnCatalog E :=
  mk_column (mk_summary name (relation (summary c))) (nullable c) (desc c) (in_join c).
Definition set_ref_table (table_name : bytes) (id : ColumnId) (is_temp : bool)
    (c : ColumnCatalog E) : ColumnCatalog E :=
  set_relation (TableRelation id table_name is_temp) c.
Definition datatype (c : ColumnCatalog E) : LogicalType := column_datatype (desc c).
Definition default_value (c : ColumnCatalog E) : Result (option DataValue) :=
  match col_default (desc c) with
  | Some expr => let? v := eval_none expr in Ok (Some v)
  | None => Ok None
  end.
End Column.

(** ** Index metadata *)

Record IndexMeta := mk_index_meta {
  im_id : Z;
  column_ids : list ColumnId;
  im_table_name : bytes;
  pk_ty : LogicalType;
  value_ty : LogicalType;
  im_name : bytes;
  im_ty : IndexType
}.

(** ** Tables *)

Section Table.
Context {F : Foreign} {E : Type} {X : ExprOps E}.

Record TableCatalog := mk_table {
  tname : bytes;
  column_idxs : gmap (list Z) (ColumnId * nat);
  columns : gmap (list Z) nat;
  indexes : list IndexMeta;
  schema_ref : list (ColumnCatalog E);
  primary_keys : list (nat * ColumnCatalog E);
  primary_key_indices : list nat;
  primary_key_type : option LogicalType
}.

Definition get_unique_index (t : TableCatalog) (col_id : ColumnId) : Result (option IndexMeta) :=
  (fix find (l : list IndexMeta) : Result (option IndexMeta) :=
     match l with
     | [] => Ok None
     | meta :: l' =>
         match im_ty meta with
         | Unique =>
             let? id := unwrap (head (column_ids meta)) in
             if bool_decide (id = col_id) then Ok (Some meta) else find l'
         | _ => find l'
         end
     end) (indexes t).

Definition get_column_by_id (t : TableCatalog) (id : ColumnId) : Result (option (ColumnCatalog E)) :=
  match columns t !! id with
  | Some i => let? c := unwrap (schema_ref t !! i) in Ok (Some c)
  | None => Ok None
  end.
Definition get_column_by_name (t : TableCatalog) (name : bytes)
  : Result (option (ColumnCatalog E)) :=
  match column_idxs t !! name with
  | Some (_, i) => let? c := unwrap (schema_ref t !! i) in Ok (Some c)
  | None => Ok None
  end.
Definition contains_column (t : TableCatalog) (name : bytes) : bool :=
  bool_decide (is_Some (column_idxs t !! name)).
Definition columns_len (t : TableCatalog) : nat := size (columns t).
Definition types (t : TableCatalog) : list LogicalType := map datatype (schema_ref t).

Definition add_column (col : ColumnCatalog E) (t : TableCatalog) (generator : Generator)
  : Result (ColumnId * TableCatalog * Generator) :=
  if bool_decide (is_Some (column_idxs t !! column_name col))
  then Err (DuplicateColumn (column_name col))
  else
    match generator with
    | [] => Panic
    | col_id :: generator =>
        let col := set_relation (TableRelation col_id (tname t) false) col in
        let n := length (schema_ref t) in
        Ok (col_id,
            mk_table (tname t) (<[column_name col := (col_id, n)]> (column_idxs t))
              (<[col_id := n]> (columns t)) (indexes t) (schema_ref t ++ [col])
              (primary_keys t) (primary_key_indices t) (primary_key_type t),
            generator)
    end.

Definition build_pk_type (primary_keys : list (nat * ColumnCatalog E)) : LogicalType :=
  match primary_keys with
  | [(_, c)] => datatype c
  | l => LT.Tuple (map (fun p => datatype p.2) l)
  end.

(** The error message of a missing column is the id's printed form. *)
Definition add_index_meta (name : bytes) (ids : list ColumnId) (ty : IndexType)
    (t : TableCatalog) : Result (IndexMeta * TableCatalog) :=
  if existsb (fun index => bool_decide (im_name index = name)) (indexes t)
  then Err (DuplicateIndex name)
  else
    let? index_id :=
      match last (indexes t) with
      | Some index => if im_id index + 1 <? 2 ^ 32 then Ok (im_id index + 1) else Panic
      | None => Ok 0
      end in
    let pk_ty := default (build_pk_type (primary_keys t)) (primary_key_type t) in
    let? val_tys :=
      try_map (fun id => let? c := get_column_by_id t id in
                         let? c := ok_or c (ColumnNotFound id) in
                         Ok (datatype c)) ids in
    let value_ty := match val_tys with [ty] => ty | _ => LT.Tuple val_tys end in
    let index := mk_index_meta index_id ids (tname t) pk_ty value_ty name ty in
    Ok (index,
        mk_table (tname t) (column_idxs t) (columns t) (indexes t ++ [index]) (schema_ref t)
          (primary_keys t) (primary_key_indices t) (Some pk_ty)).

(** [sorted_by_key] is stable. *)
Fixpoint insert_by {A} (k : nat) (a : A) (l : list (nat * A)) : list (nat * A) :=
  match l with
  | [] => [(k, a)]
  | (k', a') :: l' => if (k <? k')%nat then (k, a) :: l else (k', a') :: insert_by k a l'
  end.
Definition sorted_by_key {A} (l : list (nat * A)) : list (nat * A) :=
  fold_left (fun acc e => insert_by e.1 e.2 acc) l [].

Definition build_primary_keys (schema : list (ColumnCatalog E))
  : list (nat * ColumnCatalog E) * list nat :=
  let keyed :=
    omap (fun ic => match primary (desc ic.2) with
                    | Some p_i => Some (p_i, (ic.1, ic.2))
                    | None => None
                    end) (imap (fun i column => (i, column)) schema) in
  let keys := map snd (sorted_by_key keyed) in
  (keys, map fst keys).

Definition empty_table (name : bytes) : TableCatalog := mk_table name ∅ ∅ [] [] [] [] None.

Fixpoint add_columns (cols : list (ColumnCatalog E)) (t : TableCatalog) (generator : Generator)
  : Result TableCatalog :=
  match cols with
  | [] => Ok t
  | col :: cols' =>
      match add_column col t generator with
      | Ok (_, t, generator) => add_columns cols' t generator
      | _ => Panic (* [add_column(..).unwrap()] *)
      end
  end.

Definition with_primary_keys (t : TableCatalog) : TableCatalog :=
  let '(keys, indices) := build_primary_keys (schema_ref t) in
  mk_table (tname t) (column_idxs t) (columns t) (indexes t) (schema_ref t) keys indices
    (primary_key_type t).

Definition table_new (name : bytes) (cols : list (ColumnCatalog E)) (generator : Generator)
  : Result TableCatalog :=
  match cols with
  | [] => Err ColumnsEmpty
  | _ => let? t := add_columns cols (empty_table name) generator in Ok (with_primary_keys t)
  end.

Fixpoint reload_columns (i : nat) (cols : list (ColumnCatalog E))
    (idxs : gmap (list Z) (ColumnId * nat)) (ids : gmap (list Z) nat)
  : Result (gmap (list Z) (ColumnId * nat) * gmap (list Z) nat) :=
  match cols with
  | [] => Ok (idxs, ids)
  | c :: cols' =>
      let? id := ok_or (column_id c) (InvalidColumn []) in
      reload_columns (S i) cols' (<[column_name c := (id, i)]> idxs) (<[id := i]> ids)
  end.

Definition reload (name : bytes) (column_refs : list (ColumnCatalog E)) (indexes : list IndexMeta)
  : Result TableCatalog :=
  let? '(idxs, ids) := reload_columns 0 column_refs ∅ ∅ in
  let '(keys, indices) := build_primary_keys column_refs in
  Ok (mk_table name idxs ids indexes column_refs keys indices None).
End Table.
Arguments TableCatalog E : clear implicits.

(** ** The invariant of a table *)

Section Invariant.
Context {F : Foreign} {E : Type} {X : ExprOps E}.
Implicit Types (t : TableCatalog E) (c : ColumnCatalog E) (schema : list (ColumnCatalog E)).

(** The two maps index the schema by name and by id. *)
Record maps_ok schema (idxs : gmap (list Z) (ColumnId * nat)) (ids : gmap (list Z) nat) : Prop := {
  idxs_ok : forall name id i, idxs !! name = Some (id, i)
    <-> exists c, schema !! i = Some c /\ column_name c = name /\ column_id c = Some id;
  ids_ok : forall id i, ids !! id = Some i
    <-> exists c, schema !! i = Some c /\ column_id c = Some id
}.

Lemma maps_ok_nil : maps_ok [] ∅ ∅.
Proof.
  split; intros; rewrite lookup_empty; split; try discriminate; intros (c & Hc & _);
    now rewrite lookup_nil in Hc.
Qed.

Lemma lookup_snoc_cases {A} (l : list A) x i y :
  (l ++ [x]) !! i = Some y <-> l !! i = Some y \/ (i = length l /\ y = x).
Proof.
  rewrite lookup_app_Some. split.
  - intros [H | [Hi H]]; [now left |]. apply list_lookup_singleton_Some in H as [H ->].
    right. split; [lia | reflexivity].
  - intros [H | [-> ->]]; [now left |]. right. split; [lia |]. now rewrite Nat.sub_diag.
Qed.

(** A column with a new name and a new id extends the schema. *)
Lemma maps_ok_snoc schema idxs ids c id :
  maps_ok schema idxs ids -> idxs !! column_name c = None -> ids !! id = None ->
  column_id c = Some id ->
  maps_ok (schema ++ [c]) (<[column_name c := (id, length schema)]> idxs)
    (<[id := length schema]> ids).
Proof.
  intros [Hn Hi] Hname Hid Hc. split.
  - intros name id' i. destruct (decide (name = column_name c)) as [-> | Hne].
    + rewrite lookup_insert_eq. split.
      * intros [= <- <-]. exists c. rewrite lookup_snoc_cases. auto.
      * intros (c' & Hs & Hcn & Hci). apply lookup_snoc_cases in Hs as [Hs | [-> ->]]; [| congruence].
        assert (Hx : idxs !! column_name c = Some (id', i)) by (apply Hn; eauto). congruence.
    + rewrite lookup_insert_ne by congruence. rewrite Hn. split.
      * intros (c' & Hs & ?). exists c'. rewrite lookup_snoc_cases. tauto.
      * intros (c' & Hs & Hcn & Hci). apply lookup_snoc_cases in Hs as [Hs | [-> ->]]; [eauto | congruence].
  - intros id' i. destruct (decide (id' = id)) as [-> | Hne].
    + rewrite lookup_insert_eq. split.
      * intros [= <-]. exists c. rewrite lookup_snoc_cases. auto.
      * intros (c' & Hs & Hci). apply lookup_snoc_cases in Hs as [Hs | [-> ->]]; [| congruence].
        assert (Hx : ids !! id = Some i) by (apply Hi; eauto). congruence.
    + rewrite lookup_insert_ne by congruence. rewrite Hi. split.
      * intros (c' & Hs & ?). exists c'. rewrite lookup_snoc_cases. tauto.
      * intros (c' & Hs & Hci). apply lookup_snoc_cases in Hs as [Hs | [-> ->]]; [eauto | congruence].
Qed.

(** The maps are determined by the schema. *)
Lemma maps_ok_unique schema idxs ids idxs' ids' :
  maps_ok schema idxs ids -> maps_ok schema idxs' ids' -> idxs = idxs' /\ ids = ids'.
Proof.
  intros [Hn Hi] [Hn' Hi']. split; apply map_eq; intros k; apply option_eq.
  - intros [id i]. now rewrite Hn, Hn'.
  - intros i. now rewrite Hi, Hi'.
Qed.

Record table_ok t : Prop := mk_table_ok {
  ok_maps : maps_ok (schema_ref t) (column_idxs t) (columns t);
  ok_columns : Forall (fun c => exists id, relation (summary c) = TableRelation id (tname t) false)
                 (schema_ref t);
  ok_keys : (primary_keys t, primary_key_indices t) = build_primary_keys (schema_ref t);
  ok_index_ids : StronglySorted Z.lt (map im_id (indexes t));
  ok_index_range : Forall (fun m => 0 <= im_id m < 2 ^ 32) (indexes t);
  ok_index_names : NoDup (map im_name (indexes t))
}.

Lemma snoc_sorted (l : list Z) x :
  StronglySorted Z.lt l -> Forall (fun y => y < x) l -> StronglySorted Z.lt (l ++ [x]).
Proof.
  induction 1 as [|y l Hs IH Hy]; intros Hx; cbn; [repeat constructor |].
  apply Forall_cons_1 in Hx as [Hyx Hx]. constructor; [auto |].
  apply Forall_app. split; [exact Hy |]. now repeat constructor.
Qed.

Lemma sorted_last_max (l : list Z) m :
  StronglySorted Z.lt l -> last l = Some m -> Forall (fun y => y <= m) l.
Proof.
  intros Hs Hl. apply last_Some in Hl as [l' ->].
  induction l' as [|y l' IH]; cbn in *; [repeat constructor; lia |].
  apply StronglySorted_inv in Hs as [Hs Hy]. constructor; [| auto].
  apply Forall_app in Hy as [_ Hy]. apply Forall_cons_1 in Hy as [Hy _]. lia.
Qed.

(** The ids of a table's indexes stay distinct, sorted and in range. *)
Lemma add_index_meta_ok name ids ty t index t' :
  table_ok t -> add_index_meta name ids ty t = Ok (index, t') ->
  table_ok t' /\ indexes t' = indexes t ++ [index] /\ schema_ref t' = schema_ref t
  /\ tname t' = tname t /\ im_name index = name /\ im_ty index = ty /\ column_ids index = ids.
Proof.
  intros Hok H. unfold add_index_meta in H.
  destruct (existsb _ _) eqn:Ex; [discriminate |].
  assert (Hid : exists id, match last (indexes t) with
      | Some index => if im_id index + 1 <? 2 ^ 32 then Ok (im_id index + 1) else Panic
      | None => @Ok (DatabaseError F) Z 0
      end = Ok id /\ 0 <= id < 2 ^ 32 /\ Forall (fun y => y < id) (map im_id (indexes t))).
  { destruct (last (indexes t)) as [m|] eqn:El.
    - destruct (im_id m + 1 <? 2 ^ 32) eqn:Eb; [| discriminate H]. bool_to_prop.
      eexists. split; [reflexivity |].
      assert (Hm : m ∈ indexes t) by (apply last_Some in El as [l' ->]; elem).
      pose proof (proj1 (Forall_forall _ _) (ok_index_range t Hok) m Hm) as Hr. cbn in Hr.
      split; [lia |]. eapply Forall_impl; [eapply sorted_last_max; [apply (ok_index_ids t Hok)|] |].
      + rewrite fmap_last, El. reflexivity.
      + cbn. lia.
    - apply last_None in El. rewrite El. exists 0. repeat split; [lia | constructor]. }
  destruct Hid as (id & Eid & Hr & Hlt). rewrite Eid in H. cbn [result_bind] in H. inv_ok.
  split; [| cbn; auto 10]. destruct Hok as [Hm Hc Hk Hi Hrng Hn]. split; cbn; auto.
  - rewrite map_app. now apply snoc_sorted.
  - apply Forall_app. split; [exact Hrng |]. now repeat constructor.
  - rewrite map_app. apply NoDup_app. split; [exact Hn |]. split; [| apply NoDup_singleton].
    intros x Hx Hx'. apply list_elem_of_singleton in Hx' as ->. cbn in Hx.
    apply list_elem_of_fmap in Hx as (m & Hnm & Hmi).
    assert (Ht : existsb (fun index => bool_decide (im_name index = name)) (indexes t) = true).
    { apply existsb_exists. exists m. split; [now apply list_elem_of_In |]. now apply bool_decide_eq_true. }
    congruence.
Qed.
End Invariant.

(** ** Building and reloading tables *)

Section Build.
Context {F : Foreign} {E : Type} {X : ExprOps E}.
Implicit Types (t : TableCatalog E) (c : ColumnCatalog E) (cols : list (ColumnCatalog E)).

(** The columns of a table with the ids the generator gave them. *)
Definition placed (name : bytes) (gen : Generator) cols : list (ColumnCatalog E) :=
  zip_with (fun id c => set_relation (TableRelation id name false) c) gen cols.

(** What [add_column] keeps while a table is being built. *)
Definition building t (gen : Generator) : Prop :=
  maps_ok (schema_ref t) (column_idxs t) (columns t)
  /\ Forall (fun c => exists id, relation (summary c) = TableRelation id (tname t) false) (schema_ref t)
  /\ forall id, id ∈ gen -> columns t !! id = None.

Lemma add_column_ok col t id gen :
  building t (id :: gen) -> id ∉ gen -> column_idxs t !! column_name col = None ->
  exists t', add_column col t (id :: gen) = Ok (id, t', gen) /\ building t' gen
    /\ schema_ref t' = schema_ref t ++ [set_relation (TableRelation id (tname t) false) col]
    /\ tname t' = tname t /\ indexes t' = indexes t
    /\ (forall n, column_idxs t' !! n = None <-> column_idxs t !! n = None /\ n <> column_name col).
Proof.
  intros (Hm & Hc & Hf) Hid Hname. unfold add_column. rewrite bool_decide_eq_false_2
    by (rewrite Hname; apply is_Some_None).
  eexists. split; [reflexivity |]. cbn [schema_ref tname indexes column_idxs columns].
  split; [split; [| split] |].
  - apply (maps_ok_snoc _ _ _ (set_relation (TableRelation id (tname t) false) col));
      [exact Hm | exact Hname | apply Hf, list_elem_of_here | reflexivity].
  - apply Forall_app. split; [exact Hc |]. repeat constructor. now eexists.
  - intros id' Hin. cbn [columns]. rewrite lookup_insert_ne by congruence.
    apply Hf. now apply list_elem_of_further.
  - do 3 (split; [reflexivity |]). intros n. change (column_name (set_relation _ col)) with (column_name col).
    rewrite lookup_insert_None. intuition congruence.
Qed.

Lemma add_columns_ok cols : forall t gen,
  building t gen -> NoDup gen -> NoDup (map column_name cols) ->
  (forall c, c ∈ cols -> column_idxs t !! column_name c = None) ->
  (length cols <= length gen)%nat ->
  exists t', add_columns cols t gen = Ok t' /\ building t' []
    /\ schema_ref t' = schema_ref t ++ placed (tname t) gen cols
    /\ tname t' = tname t /\ indexes t' = indexes t.
Proof.
  induction cols as [|c cols IH]; intros t gen Hb Hg Hn Hfresh Hlen; cbn [add_columns].
  { exists t. destruct Hb as (Hm & Hc & _). unfold placed. rewrite zip_with_nil_r, app_nil_r.
    repeat split; try assumption; try apply Hm. intros id Hid. now apply not_elem_of_nil in Hid. }
  destruct gen as [|id gen]; cbn in Hlen; [lia |].
  apply NoDup_cons in Hg as [Hid Hg]. cbn [map] in Hn. apply NoDup_cons in Hn as [Hcn Hn].
  destruct (add_column_ok c t id gen Hb Hid) as (t1 & -> & Hb1 & Hs1 & Ht1 & Hi1 & Hx1);
    [apply Hfresh, list_elem_of_here |].
  destruct (IH t1 gen Hb1 Hg Hn) as (t' & -> & Hb' & Hs' & Ht' & Hi'); [| lia |].
  - intros c' Hc'. apply Hx1. split; [apply Hfresh; now apply list_elem_of_further |].
    intros Heq. apply Hcn. rewrite <- Heq. apply list_elem_of_In, in_map, list_elem_of_In, Hc'.
  - exists t'. rewrite Hs', Hs1, Ht', Ht1, Hi', Hi1. rewrite <- app_assoc. auto.
Qed.

Lemma table_new_built name cols gen :
  cols <> [] -> NoDup (map column_name cols) -> NoDup gen -> (length cols <= length gen)%nat ->
  exists t, table_new name cols gen = Ok t /\ table_ok t /\ tname t = name
    /\ schema_ref t = placed name gen cols /\ indexes t = [].
Proof.
  intros Hne Hn Hg Hlen.
  assert (Hb : building (empty_table (E := E) name) gen).
  { split; [apply maps_ok_nil | split; [constructor |]]. intros. apply lookup_empty. }
  destruct (add_columns_ok cols (empty_table name) gen Hb Hg Hn) as (t & Ht & (Hm & Hc & _) & Hs & Htn & Hi);
    [intros; apply lookup_empty | exact Hlen |].
  exists (with_primary_keys t). unfold table_new. destruct cols as [|c0 cols]; [congruence |].
  rewrite Ht. cbn [result_bind]. unfold with_primary_keys.
  destruct (build_primary_keys (schema_ref t)) as [keys indices] eqn:Ek. cbn.
  split; [reflexivity |]. rewrite Htn. split; [| now repeat split].
  rewrite Htn in Hc. split; cbn; rewrite ?Hi; auto; constructor.
Qed.

(** Duplicate column names make [table_new] panic: the error of [add_column] is
    unwrapped. *)
Lemma table_new_duplicate name c d gen id :
  column_name c = column_name d -> table_new name [c; d] (id :: gen) = Panic.
Proof.
  intros Hcd. cbn [table_new add_columns]. unfold add_column at 1.
  cbn [empty_table column_idxs]. rewrite lookup_empty, bool_decide_eq_false_2 by apply is_Some_None.
  cbn [add_columns]. unfold add_column. cbn [column_idxs].
  change (column_name (set_relation _ c)) with (column_name c).
  rewrite Hcd, lookup_insert_eq, bool_decide_eq_true_2 by eauto. reflexivity.
Qed.

Lemma reload_columns_ok cols : forall schema idxs ids idxs' ids',
  maps_ok schema idxs ids -> maps_ok (schema ++ cols) idxs' ids' ->
  Forall (fun c => is_Some (column_id c)) cols ->
  reload_columns (length schema) cols idxs ids = Ok (idxs', ids').
Proof.
  induction cols as [|c cols IH]; intros schema idxs ids idxs' ids' Hm Hm' Hc; cbn [reload_columns].
  { rewrite app_nil_r in Hm'. now destruct (maps_ok_unique _ _ _ _ _ Hm Hm') as [-> ->]. }
  apply Forall_cons_1 in Hc as [[id Hid] Hc]. rewrite Hid. cbn [ok_or result_bind].
  assert (Hpos : (schema ++ c :: cols) !! length schema = Some c) by now rewrite list_lookup_middle.
  assert (Hsub : forall i c', schema !! i = Some c' ->
      (schema ++ c :: cols) !! i = Some c' /\ i <> length schema).
  { intros i c' Hi. pose proof (lookup_lt_Some _ _ _ Hi). split; [now apply lookup_app_l_Some | lia]. }
  destruct Hm' as [Hn' Hi'].
  replace (S (length schema)) with (length (schema ++ [c])) by (rewrite length_app; cbn; lia).
  apply IH; [| | exact Hc].
  - apply maps_ok_snoc; try assumption.
    + destruct (idxs !! column_name c) as [[id' i]|] eqn:El; [| reflexivity].
      destruct (proj1 (idxs_ok _ _ _ Hm _ _ _) El) as (c' & Hs & Hcn & Hci).
      destruct (Hsub _ _ Hs) as [Hs' Hne].
      pose proof (proj2 (Hn' (column_name c) id' i) (ex_intro _ c' (conj Hs' (conj Hcn Hci)))) as E1.
      pose proof (proj2 (Hn' (column_name c) id (length schema))
                    (ex_intro _ c (conj Hpos (conj eq_refl Hid)))) as E2. congruence.
    + destruct (ids !! id) as [i|] eqn:El; [| reflexivity].
      destruct (proj1 (ids_ok _ _ _ Hm _ _) El) as (c' & Hs & Hci).
      destruct (Hsub _ _ Hs) as [Hs' Hne].
      pose proof (proj2 (Hi' id i) (ex_intro _ c' (conj Hs' Hci))) as E1.
      pose proof (proj2 (Hi' id (length schema)) (ex_intro _ c (conj Hpos Hid))) as E2. congruence.
  - rewrite <- app_assoc. now split.
Qed.

Definition forget_pk_type t : TableCatalog E :=
  mk_table (tname t) (column_idxs t) (columns t) (indexes t) (schema_ref t) (primary_keys t)
    (primary_key_indices t) None.

(** Reloading a table from its columns and indexes gives it back (the cached
    primary-key type is recomputed on demand). *)
Lemma reload_ok t : table_ok t -> reload (tname t) (schema_ref t) (indexes t) = Ok (forget_pk_type t).
Proof.
  intros [Hm Hc Hk _ _ _]. unfold reload.
  rewrite (reload_columns_ok (schema_ref t) [] ∅ ∅ (column_idxs t) (columns t));
    [| apply maps_ok_nil | exact Hm |].
  - cbn [result_bind]. rewrite <- Hk. reflexivity.
  - eapply Forall_impl; [exact Hc |]. intros c [id Hid]. unfold column_id. rewrite Hid. eauto.
Qed.
End Build.

(** ** Primary keys *)

Section PrimaryKeys.
Context {F : Foreign} {E : Type}.

Lemma insert_key_perm {A} k (a : A) l : insert_by k a l ≡ₚ (k, a) :: l.
Proof.
  induction l as [|[k' a'] l IH]; cbn [insert_by]; [reflexivity |].
  destruct (k <? k')%nat; [reflexivity |]. rewrite IH. apply Permutation_swap.
Qed.

Lemma sorted_by_key_perm {A} (l : list (nat * A)) : sorted_by_key l ≡ₚ l.
Proof.
  unfold sorted_by_key. rewrite <- (app_nil_l l) at 2. generalize (@nil (nat * A)).
  induction l as [|[k a] l IH]; intros acc; cbn [fold_left]; [now rewrite app_nil_r |].
  rewrite IH. cbn [fst snd]. rewrite insert_key_perm. cbn [app]. apply Permutation_middle.
Qed.

Definition key_at_most {A} (x y : nat * A) : Prop := (x.1 <= y.1)%nat.

Lemma insert_key_sorted {A} k (a : A) l :
  StronglySorted key_at_most l -> StronglySorted key_at_most (insert_by k a l).
Proof.
  induction 1 as [|[k' a'] l Hs IH Ha]; cbn [insert_by]; [repeat constructor |].
  destruct (k <? k')%nat eqn:Ek.
  - apply Nat.ltb_lt in Ek. constructor; [now constructor |]. constructor; [cbn; unfold key_at_most; cbn; lia |].
    eapply Forall_impl; [exact Ha |]. unfold key_at_most. cbn. lia.
  - apply Nat.ltb_ge in Ek. constructor; [exact IH |]. rewrite insert_key_perm.
    constructor; [exact Ek | exact Ha].
Qed.

Lemma sorted_by_key_sorted {A} (l : list (nat * A)) : StronglySorted key_at_most (sorted_by_key l).
Proof.
  unfold sorted_by_key. assert (Hn : StronglySorted key_at_most (@nil (nat * A))) by constructor.
  revert Hn. generalize (@nil (nat * A)). induction l as [|[k a] l IH]; intros acc Hacc; cbn; [exact Hacc |].
  apply IH. now apply insert_key_sorted.
Qed.

(** Positions picked from an enumeration are distinct. *)
Lemma NoDup_positions {A B} (f : nat -> A -> option (B * (nat * A))) (l : list A) :
  (forall i x e, f i x = Some e -> e.2.1 = i) -> forall n,
  Forall (fun i => n <= i)%nat (map (fst ∘ snd) (omap (fun ic => f ic.1 ic.2) (imap (fun i c => (n + i, c)%nat) l)))
  /\ NoDup (map (fst ∘ snd) (omap (fun ic => f ic.1 ic.2) (imap (fun i c => (n + i, c)%nat) l))).
Proof.
  intros Hf. induction l as [|x l IH]; intros n; [split; constructor |].
  cbn [imap omap list_omap fst snd]. rewrite Nat.add_0_r.
  assert (Hshift : imap ((fun i c => (n + i, c)%nat) ∘ S) l = imap (fun i c => (S n + i, c)%nat) l).
  { apply imap_ext. intros i y _. unfold compose. f_equal. lia. }
  rewrite Hshift. destruct (IH (S n)) as [IHle IHnd].
  destruct (f n x) as [e|] eqn:Ef.
  - cbn [map]. rewrite (Hf _ _ _ Ef : (fst ∘ snd) e = n). split.
    + constructor; [lia |]. eapply Forall_impl; [exact IHle |]. cbn. lia.
    + constructor; [| exact IHnd]. intros Hn. rewrite Forall_forall in IHle.
      specialize (IHle n Hn). lia.
  - split; [| exact IHnd]. eapply Forall_impl; [exact IHle |]. cbn. lia.
Qed.

(** A table's primary keys are the columns declared primary, each once with
    its position in the schema, in the order of their declared key positions;
    the index list is the list of these positions. *)
Lemma build_primary_keys_lists (schema : list (ColumnCatalog E)) keys indices :
  build_primary_keys schema = (keys, indices) ->
  (forall i c, (i, c) ∈ keys <-> schema !! i = Some c /\ is_Some (primary (desc c)))
  /\ StronglySorted (fun a b => default 0 (primary (desc a.2)) <= default 0 (primary (desc b.2)))%nat keys
  /\ indices = map fst keys /\ NoDup indices.
Proof.
  unfold build_primary_keys. intros [= <- <-].
  set (keyed := omap _ _).
  assert (Hin : forall p i c, (p, (i, c)) ∈ keyed <-> schema !! i = Some c /\ primary (desc c) = Some p).
  { intros p i c. unfold keyed. rewrite list_elem_of_omap. split.
    - intros ([j d] & Hj & Hp). apply elem_of_lookup_imap in Hj as (j' & d' & [= -> ->] & Hj).
      cbn in Hp. destruct (primary (desc d')) eqn:Ep; [| discriminate]. injection Hp as -> -> ->. auto.
    - intros [Hs Hp]. exists (i, c). split; [apply elem_of_lookup_imap; eauto |]. cbn. now rewrite Hp. }
  split; [| split; [| split; [reflexivity |]]].
  - intros i c. rewrite list_elem_of_fmap. split.
    + intros ([p [j d]] & [= -> ->] & Hj). rewrite sorted_by_key_perm in Hj. apply Hin in Hj as [? ?]. eauto.
    + intros [Hs [p Hp]]. exists (p, (i, c)). split; [reflexivity |]. rewrite sorted_by_key_perm.
      apply Hin. auto.
  - assert (Hp : Forall (fun e : nat * (nat * ColumnCatalog E) => primary (desc e.2.2) = Some e.1) (sorted_by_key keyed)).
    { rewrite sorted_by_key_perm. apply Forall_forall. intros [p [i c]] He. now apply Hin in He as [_ He]. }
    revert Hp. induction (sorted_by_key_sorted keyed) as [|e l Hs IH Ha]; intros Hp; cbn; [constructor |].
    apply Forall_cons_1 in Hp as [He Hp]. constructor; [auto |].
    rewrite Forall_fmap. rewrite Forall_forall in *. intros x Hx. unfold compose. cbn.
    rewrite He, (Hp x Hx). exact (Ha x Hx).
  - rewrite <- list_fmap_compose. rewrite sorted_by_key_perm.
    apply (NoDup_positions (fun i c => match primary (desc c) with
                                       | Some p_i => Some (p_i, (i, c))
                                       | None => None
                                       end) schema) with (n := 0%nat).
    intros i c e He. destruct (primary (desc c)); [| discriminate]. now injection He as <-.
Qed.

(** C28. A table built from columns with distinct names satisfies the catalog
    invariant: the name and id maps find exactly the schema's columns, every
    column carries the table's name and its own id, and it has no index yet; its
    primary keys are exactly the columns that declare a key position, each once
    with its position in the schema, in the order of the declared positions. *)
Theorem table_new_ok name (cols : list (ColumnCatalog E)) gen :
  cols <> [] -> NoDup (map column_name cols) -> NoDup gen -> (length cols <= length gen)%nat ->
  exists t, table_new name cols gen = Ok t /\ table_ok t /\ tname t = name
    /\ schema_ref t = placed name gen cols /\ indexes t = []
    /\ (forall i c, (i, c) ∈ primary_keys t <-> schema_ref t !! i = Some c /\ is_Some (primary (desc c)))
    /\ StronglySorted (fun a b => default 0 (primary (desc a.2)) <= default 0 (primary (desc b.2)))%nat (primary_keys t)
    /\ primary_key_indices t = map fst (primary_keys t) /\ NoDup (primary_key_indices t).
Proof.
  intros Hne Hn Hg Hlen. destruct (table_new_built name cols gen Hne Hn Hg Hlen) as (t & Ht & Hok & Htn & Hs & Hi).
  exists t. repeat (split; [assumption |]). apply build_primary_keys_lists. symmetry. apply (ok_keys t Hok).
Qed.
End PrimaryKeys.

(** ** Witnesses *)

Section Witnesses.
#[local] Existing Instance RefForeign.ref_foreign.

(** Expressions that are constants. *)
#[local] Instance const_expr : ExprOps DataValue := {|
  has_table_ref_column _ := false;
  eval_none v := Ok v
|}.

Definition col (name : Z) (pk : option nat) : ColumnCatalog (DV.DataValue RefForeign.ref_foreign) :=
  column_new [name] false (mk_desc LT.Integer pk false None).

Lemma table_new_ok_witness :
  exists t, table_new [116] [col 97 (Some 1%nat); col 98 None; col 99 (Some 0%nat)] [[1]; [2]; [3]] = Ok t
    /\ table_ok t /\ primary_key_indices t = [2; 0]%nat /\ NoDup (primary_key_indices t)
    /\ primary_key_indices t = map fst (primary_keys t).
Proof.
  destruct (table_new_ok [116] [col 97 (Some 1%nat); col 98 None; col 99 (Some 0%nat)] [[1]; [2]; [3]])
    as (t & Ht & Hok & _ & _ & _ & _ & _ & Hi & Hd).
  - discriminate.
  - apply (bool_decide_unpack _). reflexivity.
  - apply (bool_decide_unpack _). reflexivity.
  - cbn. lia.
  - exists t. split; [exact Ht |]. split; [exact Hok |]. split; [| split; [exact Hd | exact Hi]].
    injection Ht as <-. reflexivity.
Defined.
End Witnesses.
