(* ===== verification/Cast.v ===== *)
(** * Casts

    [DataValue::cast] (src/src/types/value.rs) with its macros [varchar_cast!],
    [numeric_to_boolean!], [float_to_int!] and [decimal_to_int!].  The class
    [CastForeign] holds what the casts call outside the repository: the
    conversions of [rust_decimal], the parsers and formatters of [chrono], and
    the decimal texts of floating-point numbers. *)

From Stdlib Require Import Floats.SpecFloat.
From S2P Require Import Prelude Bytes Types LogicalTypes Values Floats Evaluators.

(** ** Third-party code *)

Class CastForeign `{F : Foreign} := {
  (** rust_decimal *)
  dec_from_int : Z -> Decimal;
  dec_from_float : Z -> Z -> option Decimal;
  dec_to_float : Z -> Decimal -> option Z;
  dec_to_i128 : Decimal -> option Z;
  dec_trunc_with_scale : Decimal -> Z -> Decimal;
  dec_round_dp_away : Decimal -> Z -> Decimal;
  dec_from_str : bytes -> option Decimal;
  dec_to_string : Decimal -> bytes;
  (** the text of a float of the given width, and its parser *)
  float_to_string : Z -> Z -> bytes;
  float_from_str : Z -> bytes -> option Z;
  (** chrono: dates are days from the common era, times are seconds from
      midnight and nanoseconds; the first argument of a parser or formatter is
      the format string *)
  date_parse : bytes -> bytes -> option Z;
  naive_datetime_parse : bytes -> bytes -> option Z;
  time_parse : bytes -> bytes -> option (Z * Z);
  datetime_parse : bytes -> bytes -> option DateTime;
  date_midnight : Z -> option Z;
  dt_days : DateTime -> Z;
  dt_time : DateTime -> Z * Z;
  date_print : bytes -> Z -> option bytes;
  time_print : bytes -> Z -> Z -> option bytes;
  dt_print : bytes -> DateTime -> bytes
}.

Class CastLaws `{F : Foreign} (C : CastForeign) : Prop := {
  dec_from_int_spec : forall z, - 2 ^ 96 < z < 2 ^ 96 ->
    dec_mantissa (dec_from_int z) = z /\ dec_scale (dec_from_int z) = 0;
  dec_to_i128_spec : forall d, dec_to_i128 d = Some (Z.quot (dec_mantissa d) (10 ^ dec_scale d));
  dec_to_float_range : forall w d b, dec_to_float w d = Some b -> in_u w b = true;
  dec_to_string_bytes : forall d, forallb (in_u 8) (dec_to_string d) = true;
  float_to_string_bytes : forall w b, forallb (in_u 8) (float_to_string w b) = true;
  float_from_str_range : forall w s b, float_from_str w s = Some b -> in_u w b = true;
  date_parse_range : forall f s d, date_parse f s = Some d -> in_i 32 d = true;
  naive_datetime_parse_range : forall f s t, naive_datetime_parse f s = Some t -> in_i 64 t = true;
  time_parse_range : forall f s a b, time_parse f s = Some (a, b) -> 0 <= a < 86400 /\ 0 <= b;
  date_midnight_spec : forall d t, date_midnight d = Some t ->
    t = (d - 719163) * 86400 /\ in_i 64 t = true;
  dt_days_spec : forall d, dt_days d = dt_timestamp d / 86400 + 719163 /\ in_i 32 (dt_days d) = true;
  dt_time_spec : forall d, (dt_time d).1 = dt_timestamp d mod 86400 /\ 0 <= (dt_time d).2 < 1000000000;
  dt_timestamp_range : forall d, in_i 64 (dt_timestamp d) = true;
  dt_millis_range : forall d, in_i 64 (dt_timestamp_millis d) = true;
  dt_micros_range : forall d, in_i 64 (dt_timestamp_micros d) = true;
  dt_nanos_range : forall d n, dt_timestamp_nanos_opt d = Some n -> in_i 64 n = true;
  date_print_bytes : forall f d s, date_print f d = Some s -> forallb (in_u 8) s = true;
  time_print_bytes : forall f a b s, time_print f a b = Some s -> forallb (in_u 8) s = true;
  dt_print_bytes : forall f d, forallb (in_u 8) (dt_print f d) = true
}.

(** The format strings. *)
Definition DATE_FMT : bytes := [37; 89; 45; 37; 109; 45; 37; 100].
Definition TIME_FMT : bytes := [37; 72; 58; 37; 77; 58; 37; 83].
Definition DATE_TIME_FMT : bytes := DATE_FMT ++ [32] ++ TIME_FMT.
Definition TIME_FMT_WITHOUT_ZONE : bytes := TIME_FMT ++ [37; 46; 102].
Definition TIME_STAMP_FMT_WITHOUT_ZONE : bytes := DATE_TIME_FMT ++ [37; 46; 102].
Definition TIME_STAMP_FMT_WITH_ZONE : bytes := TIME_STAMP_FMT_WITHOUT_ZONE ++ [37; 122].
Definition TIME_STAMP_FMT_WITHOUT_PRECISION : bytes := DATE_TIME_FMT ++ [37; 122].

(** ** Integers as text ([Display] and [FromStr] of the integer types) *)

Fixpoint show_digits (fuel : nat) (z : Z) (acc : bytes) : bytes :=
  match fuel with
  | O => acc
  | S fuel =>
      let acc := (48 + z mod 10) :: acc in
      if z <? 10 then acc else show_digits fuel (z / 10) acc
  end.
(** A 64-bit integer has at most 20 digits. *)
Definition show_int (z : Z) : bytes :=
  if z <? 0 then 45 :: show_digits 20 (- z) [] else show_digits 20 z [].

Definition is_digit (b : Z) : bool := (48 <=? b) && (b <=? 57).
Fixpoint parse_digits (s : bytes) (acc : Z) : option Z :=
  match s with
  | [] => Some acc
  | b :: s' => if is_digit b then parse_digits s' (10 * acc + (b - 48)) else None
  end.
(** An optional sign ([-] only for signed types), at least one digit, in range. *)
Definition parse_int (signed : bool) (w : Z) (s : bytes) : option Z :=
  let in_range z := if (if signed then in_i w z else in_u w z) then Some z else None in
  match s with
  | [] => None
  | b :: s' =>
      if (b =? 45) && signed then
        match s' with
        | [] => None
        | _ => match parse_digits s' 0 with Some z => in_range (- z) | None => None end
        end
      else if b =? 43 then
        match s' with
        | [] => None
        | _ => match parse_digits s' 0 with Some z => in_range z | None => None end
        end
      else match parse_digits s 0 with Some z => in_range z | None => None end
  end.

Definition TRUE_BYTES : bytes := [116; 114; 117; 101].
Definition FALSE_BYTES : bytes := [102; 97; 108; 115; 101].
Definition show_bool (b : bool) : bytes := if b then TRUE_BYTES else FALSE_BYTES.
Definition parse_bool (s : bytes) : option bool :=
  if bool_decide (s = TRUE_BYTES) then Some true
  else if bool_decide (s = FALSE_BYTES) then Some false else None.

(** ** Conversions between numbers *)

(** [v as f32], [v as f64] and [From]. *)
Definition f_of_int (w v : Z) : Z := f_encode w (binary_normalize (f_prec w) (f_emax w) v 0 false).
(** [v as f32] of an [f64]. *)
Definition f32_of_f64 (a : Z) : Z :=
  f_encode 32 (match f_decode 64 a with
               | S754_finite s m e => binary_round (f_prec 32) (f_emax 32) s m e
               | x => x
               end).
(** The integer part of a finite float. *)
Definition f_trunc (x : spec_float) : Z :=
  match x with
  | S754_finite s m e =>
      let a := if 0 <=? e then Zpos m * 2 ^ e else Zpos m / 2 ^ (- e) in
      if s then - a else a
  | _ => 0
  end.
(** [x as int]: truncation, saturating at the ends of the range; NaN is 0. *)
Definition f_as_int (w bits lo hi : Z) : Z :=
  match f_decode w bits with
  | S754_infinity true => lo
  | S754_infinity false => hi
  | x => Z.max lo (Z.min hi (f_trunc x))
  end.

Definition int_min (signed : bool) (w : Z) : Z := if signed then - 2 ^ (w - 1) else 0.
Definition int_max (signed : bool) (w : Z) : Z := if signed then 2 ^ (w - 1) - 1 else 2 ^ w - 1.

Section Cast.
Context {F : Foreign} {C : CastForeign}.

(** [float_to_int!]. *)
Definition float_to_int (w bits : Z) (signed : bool) (iw : Z) : Result Z :=
  if f_is_nan w bits then Ok 0
  else if (f_key w bits <=? 0) || (f_key w (f_of_int w (int_max signed iw)) <? f_key w bits)
  then Err OverFlow
  else Ok (f_as_int w bits (int_min signed iw) (int_max signed iw)).

(** [decimal_to_int!]: [as] wraps. *)
Definition decimal_to_int (d : Decimal) (signed : bool) (w : Z) : Result Z :=
  let wrap z := if signed then as_i w z else as_u w z in
  if dec_is_sign_negative d then
    if negb signed then Ok 0
    else
      let min := dec_from_int (int_min signed w) in
      if is_le (dec_cmp d min) then Ok (int_min signed w)
      else let? z := unwrap (dec_to_i128 d) in Ok (wrap z)
  else
    let max := dec_from_int (int_max signed w) in
    if is_ge (dec_cmp d max) then Ok (int_max signed w)
    else let? z := unwrap (dec_to_i128 d) in Ok (wrap z).

(** [numeric_to_boolean!]. *)
Definition numeric_to_boolean (value : Z) (from_ty : LogicalType) : Result DataValue :=
  match value with
  | 0 => Ok (DV.Boolean false)
  | 1 => Ok (DV.Boolean true)
  | _ => Err (CastFail from_ty LT.Boolean)
  end.

(** [varchar_cast!]. *)
Definition varchar_cast (s_value : bytes) (len : option Z) (ty : Utf8Type) (unit : CharLengthUnits)
  : Result DataValue :=
  if match len with Some len => check_string_len s_value len unit | None => false end
  then Err TooLong
  else Ok (DV.Utf8 s_value ty unit).

(** The two text targets. *)
Definition cast_char (s : bytes) (len : Z) (unit : CharLengthUnits) : Result DataValue :=
  varchar_cast s (Some len) (Utf8Fixed len) unit.
Definition cast_varchar (s : bytes) (len : option Z) (unit : CharLengthUnits) : Result DataValue :=
  varchar_cast s len (Utf8Variable len) unit.

Definition decimal_round_i (option : option Z) (decimal : Decimal) : Decimal :=
  match option with
  | Some scale => dec_trunc_with_scale decimal scale
  | None => decimal
  end.
Definition decimal_round_f (option : option Z) (decimal : Decimal) : Decimal :=
  match option with
  | Some scale => dec_round_dp_away decimal scale
  | None => decimal
  end.

Definition format_date (value : Z) : option bytes := date_print DATE_FMT value.
Definition format_datetime (value : Z) : option bytes :=
  match dt_from_timestamp value 0 with
  | Some dt => Some (dt_print DATE_TIME_FMT dt)
  | None => None
  end.
Definition format_time (value precision : Z) : Result (option bytes) :=
  let? '(v, n) := unpack value precision in Ok (time_print TIME_FMT_WITHOUT_ZONE v n).
Definition format_timestamp (value precision : Z) : Result (option bytes) :=
  let? dt := from_timestamp_precision value precision in
  Ok (match dt with
      | Some dt => Some (dt_print TIME_STAMP_FMT_WITHOUT_ZONE dt)
      | None => None
      end).

Definition cast_fail {A} (self : DataValue) (to : LogicalType) : Result A :=
  Err (CastFail (logical_type self) to).

(** The integer targets of an integer: [try_from], or [into] where the target
    contains the source's range. *)
Definition int_target (z : Z) (to : LogicalType) : option (Result DataValue) :=
  let try_from (fits : bool) (ctor : Z -> DataValue) : option (Result DataValue) :=
    Some (if fits then Ok (ctor z) else Err TryFromInt) in
  match to with
  | LT.Tinyint => try_from (in_i 8 z) DV.Int8
  | LT.Smallint => try_from (in_i 16 z) DV.Int16
  | LT.Integer => try_from (in_i 32 z) DV.Int32
  | LT.Bigint => try_from (in_i 64 z) DV.Int64
  | LT.UTinyint => try_from (in_u 8 z) DV.UInt8
  | LT.USmallint => try_from (in_u 16 z) DV.UInt16
  | LT.UInteger => try_from (in_u 32 z) DV.UInt32
  | LT.UBigint => try_from (in_u 64 z) DV.UInt64
  | _ => None
  end.

Definition cast_boolean (self : DataValue) (value : bool) (to : LogicalType) : Result DataValue :=
  let z := if value then 1 else 0 in
  match to with
  | LT.SqlNull => Ok DV.Null
  | LT.Boolean => Ok (DV.Boolean value)
  | LT.Tinyint => Ok (DV.Int8 z)
  | LT.UTinyint => Ok (DV.UInt8 z)
  | LT.Smallint => Ok (DV.Int16 z)
  | LT.USmallint => Ok (DV.UInt16 z)
  | LT.Integer => Ok (DV.Int32 z)
  | LT.UInteger => Ok (DV.UInt32 z)
  | LT.Bigint => Ok (DV.Int64 z)
  | LT.UBigint => Ok (DV.UInt64 z)
  | LT.Float => Ok (DV.Float32 (f_of_int 32 z))
  | LT.Double => Ok (DV.Float64 (f_of_int 64 z))
  | LT.Char len unit => cast_char (show_bool value) len unit
  | LT.Varchar len unit => cast_varchar (show_bool value) len unit
  | _ => cast_fail self to
  end.

(** The targets a 32-bit and a 64-bit float share. *)
Definition cast_float (w : Z) (self : DataValue) (value : Z) (to : LogicalType) : Result DataValue :=
  let to_int signed iw (ctor : Z -> DataValue) : Result DataValue :=
    let? z := float_to_int w value signed iw in Ok (ctor z) in
  match to with
  | LT.SqlNull => Ok DV.Null
  | LT.Char len unit => cast_char (float_to_string w value) len unit
  | LT.Varchar len unit => cast_varchar (float_to_string w value) len unit
  | LT.Decimal _ option =>
      let? decimal := ok_or (dec_from_float w value) (CastFail (logical_type self) to) in
      Ok (DV.Decimal (decimal_round_f option decimal))
  | LT.Tinyint => to_int true 8 DV.Int8
  | LT.Smallint => to_int true 16 DV.Int16
  | LT.Integer => to_int true 32 DV.Int32
  | LT.Bigint => to_int true 64 DV.Int64
  | LT.UTinyint => to_int false 8 DV.UInt8
  | LT.USmallint => to_int false 16 DV.UInt16
  | LT.UInteger => to_int false 32 DV.UInt32
  | LT.UBigint => to_int false 64 DV.UInt64
  | _ => cast_fail self to
  end.

Definition cast_float32 (self : DataValue) (value : Z) (to : LogicalType) : Result DataValue :=
  match to with
  | LT.Float => Ok (DV.Float32 value)
  | LT.Double => Ok (DV.Float64 (f64_of_f32 value))
  | _ => cast_float 32 self value to
  end.
Definition cast_float64 (self : DataValue) (value : Z) (to : LogicalType) : Result DataValue :=
  match to with
  | LT.Float => Ok (DV.Float32 (f32_of_f64 value))
  | LT.Double => Ok (DV.Float64 value)
  | _ => cast_float 64 self value to
  end.

(** The signed integers. *)
Definition cast_int (self : DataValue) (value : Z) (to : LogicalType) : Result DataValue :=
  match int_target value to with
  | Some r => r
  | None =>
      match to with
      | LT.SqlNull => Ok DV.Null
      | LT.Float => Ok (DV.Float32 (f_of_int 32 value))
      | LT.Double => Ok (DV.Float64 (f_of_int 64 value))
      | LT.Char len unit => cast_char (show_int value) len unit
      | LT.Varchar len unit => cast_varchar (show_int value) len unit
      | LT.Decimal _ option => Ok (DV.Decimal (decimal_round_i option (dec_from_int value)))
      | LT.Boolean => numeric_to_boolean value (logical_type self)
      | _ => cast_fail self to
      end
  end.

(** The unsigned integers. *)
Definition cast_uint (self : DataValue) (value : Z) (to : LogicalType) : Result DataValue :=
  match int_target value to with
  | Some r => r
  | None =>
      match to with
      | LT.SqlNull => Ok DV.Null
      | LT.Float => Ok (DV.Float32 (f_of_int 32 value))
      | LT.Double => Ok (DV.Float64 (f_of_int 64 value))
      | LT.Char len unit => cast_char (show_int value) len unit
      | LT.Varchar len unit => cast_varchar (show_int value) len unit
      | LT.Decimal _ option => Ok (DV.Decimal (decimal_round_i option (dec_from_int value)))
      | LT.Boolean => numeric_to_boolean value (logical_type self)
      | _ => cast_fail self to
      end
  end.

(** [value.contains("+")]. *)
Definition contains_plus (s : bytes) : bool := existsb (Z.eqb 43) s.
Definition UTC_SUFFIX : bytes := [43; 48; 48; 58; 48; 48].

(** A string to a timestamp. *)
Definition cast_str_timestamp (self : DataValue) (value : bytes) (to : LogicalType)
    (precision : Z) (zone : bool) : Result DataValue :=
  let fmt :=
    match precision, zone with
    | 0, false => DATE_TIME_FMT
    | 0, true => TIME_STAMP_FMT_WITHOUT_PRECISION
    | (3 | 6 | 9), false => TIME_STAMP_FMT_WITHOUT_ZONE
    | _, _ => TIME_STAMP_FMT_WITH_ZONE
    end in
  let complete_value :=
    if zone then (if contains_plus value then value else value ++ UTC_SUFFIX) else value in
  if (precision =? 0) && negb zone then
    let? t := ok_or (naive_datetime_parse fmt complete_value) ParseDate in
    Ok (DV.Time64 t precision zone)
  else
    let parsed := ok_or (datetime_parse fmt complete_value) ParseDate in
    let? value :=
      match precision with
      | 3 => let? dt := parsed in Ok (dt_timestamp_millis dt)
      | 6 => let? dt := parsed in Ok (dt_timestamp_micros dt)
      | 9 =>
          let? dt := parsed in
          ok_or (dt_timestamp_nanos_opt dt) (CastFail (logical_type self) to)
      | 0 => let? dt := parsed in Ok (dt_timestamp dt)
      | _ => Panic
      end in
    Ok (DV.Time64 value precision zone).

Definition cast_str_time (value : bytes) (precision : Z) : Result DataValue :=
  let fmt := if precision =? 0 then TIME_FMT else TIME_FMT_WITHOUT_ZONE in
  let? '(v, nano) :=
    let? '(secs, nanos) := ok_or (time_parse fmt value) ParseDate in
    Ok (if precision =? 0 then (secs, 0) else (secs, nanos)) in
  let? packed := pack v nano precision in
  Ok (DV.Time32 packed precision).

Definition cast_utf8 (self : DataValue) (value : bytes) (to : LogicalType) : Result DataValue :=
  let int signed w (ctor : Z -> DataValue) : Result DataValue :=
    let? z := ok_or (parse_int signed w value) ParseInt in Ok (ctor z) in
  match to with
  | LT.SqlNull => Ok DV.Null
  | LT.Boolean => let? b := ok_or (parse_bool value) ParseBool in Ok (DV.Boolean b)
  | LT.Tinyint => int true 8 DV.Int8
  | LT.UTinyint => int false 8 DV.UInt8
  | LT.Smallint => int true 16 DV.Int16
  | LT.USmallint => int false 16 DV.UInt16
  | LT.Integer => int true 32 DV.Int32
  | LT.UInteger => int false 32 DV.UInt32
  | LT.Bigint => int true 64 DV.Int64
  | LT.UBigint => int false 64 DV.UInt64
  | LT.Float => let? f := ok_or (float_from_str 32 value) ParseFloat in Ok (DV.Float32 f)
  | LT.Double => let? f := ok_or (float_from_str 64 value) ParseFloat in Ok (DV.Float64 f)
  | LT.Char len unit => cast_char value len unit
  | LT.Varchar len unit => cast_varchar value len unit
  | LT.Date => let? d := unwrap (date_parse DATE_FMT value) in Ok (DV.Date32 d)
  | LT.DateTime =>
      let? t :=
        match naive_datetime_parse DATE_TIME_FMT value with
        | Some t => Ok t
        | None =>
            match date_parse DATE_FMT value with
            | Some d => unwrap (date_midnight d)
            | None => Err ParseDate
            end
        end in
      Ok (DV.Date64 t)
  | LT.Time precision => cast_str_time value (default 0 precision)
  | LT.TimeStamp precision zone => cast_str_timestamp self value to (default 0 precision) zone
  | LT.Decimal _ _ => let? d := ok_or (dec_from_str value) TryFromDecimal in Ok (DV.Decimal d)
  | _ => cast_fail self to
  end.

Definition cast_date32 (self : DataValue) (value : Z) (to : LogicalType) : Result DataValue :=
  let fail := CastFail (logical_type self) to in
  match to with
  | LT.SqlNull => Ok DV.Null
  | LT.Char len unit => let? s := ok_or (format_date value) fail in cast_char s len unit
  | LT.Varchar len unit => let? s := ok_or (format_date value) fail in cast_varchar s len unit
  | LT.Date => Ok (DV.Date32 value)
  | LT.DateTime => let? t := ok_or (date_midnight value) fail in Ok (DV.Date64 t)
  | _ => cast_fail self to
  end.

Definition cast_date64 (self : DataValue) (value : Z) (to : LogicalType) : Result DataValue :=
  let fail := CastFail (logical_type self) to in
  match to with
  | LT.SqlNull => Ok DV.Null
  | LT.Char len unit => let? s := ok_or (format_datetime value) fail in cast_char s len unit
  | LT.Varchar len unit => let? s := ok_or (format_datetime value) fail in cast_varchar s len unit
  | LT.Date => let? dt := ok_or (dt_from_timestamp value 0) fail in Ok (DV.Date32 (dt_days dt))
  | LT.DateTime => Ok (DV.Date64 value)
  | LT.Time precision =>
      let precision := default 0 precision in
      let? dt := ok_or (dt_from_timestamp value 0) fail in
      let? packed := pack (dt_time dt).1 0 0 in
      Ok (DV.Time32 packed precision)
  | LT.TimeStamp precision zone => Ok (DV.Time64 value (default 0 precision) zone)
  | _ => cast_fail self to
  end.

Definition cast_time32 (self : DataValue) (value precision : Z) (to : LogicalType)
  : Result DataValue :=
  let fail := CastFail (logical_type self) to in
  match to with
  | LT.SqlNull => Ok DV.Null
  | LT.Char len unit =>
      let? s := format_time value precision in
      let? s := ok_or s fail in cast_char s len unit
  | LT.Varchar len unit =>
      let? s := format_time value precision in
      let? s := ok_or s fail in cast_varchar s len unit
  | LT.Time to_precision => Ok (DV.Time32 value (default 0 to_precision))
  | _ => cast_fail self to
  end.

Definition cast_time64 (self : DataValue) (value precision : Z) (to : LogicalType)
  : Result DataValue :=
  let fail := CastFail (logical_type self) to in
  let instant : Result DateTime :=
    let? dt := from_timestamp_precision value precision in ok_or dt fail in
  match to with
  | LT.SqlNull => Ok DV.Null
  | LT.Char len unit =>
      let? s := format_timestamp value precision in
      let? s := ok_or s fail in cast_char s len unit
  | LT.Varchar len unit =>
      let? s := format_timestamp value precision in
      let? s := ok_or s fail in cast_varchar s len unit
  | LT.Date => let? dt := instant in Ok (DV.Date32 (dt_days dt))
  | LT.DateTime => let? dt := instant in Ok (DV.Date64 (dt_timestamp dt))
  | LT.Time p =>
      let p := default 0 p in
      let? dt := instant in
      let? packed := pack (dt_time dt).1 (dt_time dt).2 p in
      Ok (DV.Time32 packed p)
  | LT.TimeStamp to_precision zone => Ok (DV.Time64 value (default 0 to_precision) zone)
  | _ => cast_fail self to
  end.

Definition cast_decimal (self : DataValue) (value : Decimal) (to : LogicalType) : Result DataValue :=
  let fail := CastFail (logical_type self) to in
  let to_int signed w (ctor : Z -> DataValue) : Result DataValue :=
    let? z := decimal_to_int value signed w in Ok (ctor z) in
  match to with
  | LT.SqlNull => Ok DV.Null
  | LT.Float => let? f := ok_or (dec_to_float 32 value) fail in Ok (DV.Float32 f)
  | LT.Double => let? f := ok_or (dec_to_float 64 value) fail in Ok (DV.Float64 f)
  | LT.Decimal _ _ => Ok (DV.Decimal value)
  | LT.Char len unit => cast_char (dec_to_string value) len unit
  | LT.Varchar len unit => cast_varchar (dec_to_string value) len unit
  | LT.Tinyint => to_int true 8 DV.Int8
  | LT.Smallint => to_int true 16 DV.Int16
  | LT.Integer => to_int true 32 DV.Int32
  | LT.Bigint => to_int true 64 DV.Int64
  | LT.UTinyint => to_int false 8 DV.UInt8
  | LT.USmallint => to_int false 16 DV.UInt16
  | LT.UInteger => to_int false 32 DV.UInt32
  | LT.UBigint => to_int false 64 DV.UInt64
  | _ => cast_fail self to
  end.

(** The loop of the tuple case: [types[i]] past the end panics. *)
Fixpoint cast (self : DataValue) (to : LogicalType) {struct self} : Result DataValue :=
  let? value :=
    match self with
    | DV.Null => Ok DV.Null
    | DV.Boolean value => cast_boolean self value to
    | DV.Float32 value => cast_float32 self value to
    | DV.Float64 value => cast_float64 self value to
    | DV.Int8 value | DV.Int16 value | DV.Int32 value | DV.Int64 value => cast_int self value to
    | DV.UInt8 value | DV.UInt16 value | DV.UInt32 value | DV.UInt64 value =>
        cast_uint self value to
    | DV.Utf8 value _ _ => cast_utf8 self value to
    | DV.Date32 value => cast_date32 self value to
    | DV.Date64 value => cast_date64 self value to
    | DV.Time32 value precision => cast_time32 self value precision to
    | DV.Time64 value precision _ => cast_time64 self value precision to
    | DV.Decimal value => cast_decimal self value to
    | DV.Tuple values is_upper =>
        match to with
        | LT.Tuple types =>
            let? values :=
              (fix go (values : list DataValue) (types : list LogicalType) : Result (list DataValue) :=
                 match values with
                 | [] => Ok []
                 | value :: values =>
                     match types with
                     | [] => Panic
                     | ty :: types =>
                         let? value :=
                           if decide (ty = logical_type value) then Ok value else cast value ty in
                         let? values := go values types in
                         Ok (value :: values)
                     end
                 end) values types in
            Ok (DV.Tuple values is_upper)
        | _ => cast_fail self to
        end
    end in
  let? _ := check_len value to in
  Ok value.
End Cast.

(** ** Integers and their texts *)

Lemma show_digits_spec fuel : forall z acc,
  0 <= z < 10 ^ Z.of_nat (S fuel) ->
  exists ds, show_digits (S fuel) z acc = ds ++ acc /\ ds <> [] /\ forallb is_digit ds = true
    /\ forall rest a, parse_digits (ds ++ rest) a
                      = parse_digits rest (a * 10 ^ Z.of_nat (length ds) + z).
Proof.
  induction fuel as [|fuel IH]; intros z acc Hz.
  - assert (Hz10 : 0 <= z < 10) by (change (10 ^ Z.of_nat 1) with 10 in Hz; lia).
    exists [48 + z]. cbn [show_digits]. rewrite Z.mod_small, (proj2 (Z.ltb_lt z 10)) by lia.
    assert (Hd : is_digit (48 + z) = true) by (unfold is_digit; apply andb_true_iff; lia).
    cbn [app forallb length parse_digits]. rewrite Hd. repeat split; [discriminate |].
    intros rest a. f_equal. change (10 ^ Z.of_nat 1) with 10. lia.
  - cbn [show_digits] in *. pose proof (Z.mod_pos_bound z 10 ltac:(lia)) as Hm.
    assert (Hd : is_digit (48 + z mod 10) = true) by (unfold is_digit; apply andb_true_iff; lia).
    destruct (z <? 10) eqn:E; bool_to_prop.
    + exists [48 + z mod 10]. cbn [app forallb length parse_digits]. rewrite Hd.
      repeat split; [discriminate |]. intros rest a. f_equal. change (10 ^ Z.of_nat 1) with 10.
      rewrite Z.mod_small by lia. lia.
    + destruct (IH (z / 10) ((48 + z mod 10) :: acc)) as (ds & Hs & Hne & Hds & Hp).
      { rewrite (Nat2Z.inj_succ (S fuel)), Z.pow_succ_r in Hz by lia.
        split; [apply Z.div_pos; lia | apply Z.div_lt_upper_bound; lia]. }
      exists (ds ++ [48 + z mod 10]). rewrite <- app_assoc. split; [exact Hs |].
      split; [now destruct ds |]. rewrite forallb_app. cbn [forallb]. rewrite Hds, Hd. split; [reflexivity |].
      intros rest a. rewrite <- app_assoc, Hp. cbn [app parse_digits]. rewrite Hd. f_equal.
      rewrite length_app, Nat2Z.inj_add. cbn [length]. change (Z.of_nat 1) with 1.
      rewrite Z.pow_add_r by lia. pose proof (Z.div_mod z 10 ltac:(lia)). lia.
Qed.

Lemma is_digit_not_sign b : is_digit b = true -> (b =? 45) = false /\ (b =? 43) = false.
Proof. unfold is_digit. intros H. bool_to_prop. split; apply Z.eqb_neq; lia. Qed.

(** Printing an integer and parsing the text gives it back. *)
Lemma parse_show_int (signed : bool) w z :
  0 < w <= 64 -> (if signed then in_i w z else in_u w z) = true ->
  parse_int signed w (show_int z) = Some z.
Proof.
  intros Hw Hz.
  assert (Hb : - 10 ^ 20 < z < 10 ^ 20).
  { assert (2 ^ w <= 2 ^ 64) by (apply Z.pow_le_mono_r; lia).
    assert (2 ^ (w - 1) <= 2 ^ 64) by (apply Z.pow_le_mono_r; lia).
    change (2 ^ 64) with 18446744073709551616 in *. change (10 ^ 20) with 100000000000000000000.
    destruct signed; [apply in_i_iff in Hz | apply in_u_iff in Hz]; lia. }
  unfold show_int. destruct (z <? 0) eqn:Es; bool_to_prop.
  - destruct (show_digits_spec 19 (- z) []) as (ds & -> & Hne & Hds & Hp).
    { change (Z.of_nat 20) with 20. lia. }
    destruct signed; [| apply in_u_iff in Hz; lia].
    rewrite app_nil_r. cbn [parse_int]. rewrite Z.eqb_refl. cbn [andb].
    destruct ds as [|d ds]; [congruence |].
    rewrite <- (app_nil_r (d :: ds)), Hp. cbn [parse_digits].
    rewrite Z.mul_0_l, Z.add_0_l, Z.opp_involutive, Hz. reflexivity.
  - destruct (show_digits_spec 19 z []) as (ds & -> & Hne & Hds & Hp).
    { change (Z.of_nat 20) with 20. lia. }
    rewrite app_nil_r. destruct ds as [|d ds]; [congruence |].
    cbn [forallb] in Hds. apply andb_prop in Hds as [Hd _]. apply is_digit_not_sign in Hd as [Hm Hpl].
    unfold parse_int. rewrite Hm, Hpl. cbn [andb].
    rewrite <- (app_nil_r (d :: ds)), Hp. cbn [parse_digits].
    now rewrite Z.mul_0_l, Z.add_0_l, Hz.
Qed.

Lemma show_int_bytes z : 0 <= z < 10 ^ 20 \/ - 10 ^ 20 < z < 0 -> forallb (in_u 8) (show_int z) = true.
Proof.
  intros Hz.
  assert (Hdig : forall ds, forallb is_digit ds = true -> forallb (in_u 8) ds = true).
  { induction ds as [|d ds IH]; cbn [forallb]; [reflexivity |]. intros [Hd H]%andb_prop.
    rewrite IH by assumption. unfold is_digit in Hd. bool_to_prop. apply andb_true_iff.
    split; [apply in_u_iff; cbn; lia | reflexivity]. }
  unfold show_int. destruct (z <? 0) eqn:Es; bool_to_prop.
  - destruct (show_digits_spec 19 (- z) []) as (ds & -> & _ & Hds & _).
    { change (Z.of_nat 20) with 20. lia. }
    rewrite app_nil_r. cbn [forallb]. now rewrite Hdig.
  - destruct (show_digits_spec 19 z []) as (ds & -> & _ & Hds & _).
    { change (Z.of_nat 20) with 20. lia. }
    rewrite app_nil_r. now apply Hdig.
Qed.

Section Integers.
Context {F : Foreign} {C : CastForeign}.

(** The integer a value holds, and the integer types. *)
Definition int_of (v : DataValue) : option Z :=
  match v with
  | DV.Int8 z | DV.Int16 z | DV.Int32 z | DV.Int64 z
  | DV.UInt8 z | DV.UInt16 z | DV.UInt32 z | DV.UInt64 z => Some z
  | _ => None
  end.
Definition int_type (ty : LogicalType) : bool := is_numeric ty && negb (is_floating_point_numeric ty)
  && match ty with LT.Decimal _ _ => false | _ => true end.
Definition fits (ty : LogicalType) (z : Z) : bool :=
  match ty with
  | LT.Tinyint => in_i 8 z
  | LT.Smallint => in_i 16 z
  | LT.Integer => in_i 32 z
  | LT.Bigint => in_i 64 z
  | LT.UTinyint => in_u 8 z
  | LT.USmallint => in_u 16 z
  | LT.UInteger => in_u 32 z
  | LT.UBigint => in_u 64 z
  | _ => false
  end.

Lemma cast_int_uint self z to : cast_uint self z to = cast_int self z to.
Proof. reflexivity. Qed.

Lemma cast_of_int v z to : int_of v = Some z ->
  cast v to = let? value := cast_int v z to in let? _ := check_len value to in Ok value.
Proof. destruct v; cbn; intros [= ->]; reflexivity. Qed.

(** The integer casts: the same number when the target's range holds it, and
    [TryFromInt] otherwise. *)
Lemma cast_int_to v z to : int_of v = Some z -> int_type to = true ->
  if fits to z
  then exists v', cast v to = Ok v' /\ int_of v' = Some z /\ has_type to v' = true
  else cast v to = Err TryFromInt.
Proof.
  intros Hv Ht. rewrite (cast_of_int v z) by assumption. unfold cast_int.
  destruct to; try discriminate; cbn [int_target fits];
    match goal with |- context [if ?b then _ else _] => destruct b end; cbn; eauto.
Qed.

Lemma int_of_ok v z : int_of v = Some z -> value_ok v = true -> fits (logical_type v) z = true.
Proof. destruct v; cbn; congruence. Qed.

(** The ranges nest along the implicit casts. *)
Lemma implicit_range from to z :
  int_type from = true -> int_type to = true -> can_implicit_cast from to = true ->
  fits from z = true -> fits to z = true.
Proof.
  unfold can_implicit_cast. destruct (decide (from = to)) as [-> |]; [auto |].
  destruct from; try discriminate; destruct to; try discriminate; intros _ _ _;
    cbn [fits]; rewrite ?in_i_iff, ?in_u_iff; cbn; lia.
Qed.

(** Implicit integer casts are lossless: whenever the type checker allows
    an implicit cast between two integer types, casting any value of the source
    type succeeds and keeps the number. *)
Theorem implicit_int_cast v z to :
  int_of v = Some z -> value_ok v = true -> int_type to = true ->
  can_implicit_cast (logical_type v) to = true ->
  exists v', cast v to = Ok v' /\ int_of v' = Some z /\ has_type to v' = true.
Proof.
  intros Hv Hok Ht Hc. pose proof (cast_int_to v z to Hv Ht) as H.
  rewrite (implicit_range (logical_type v) to z) in H; auto.
  - destruct v; cbn in Hv; try discriminate; reflexivity.
  - now apply int_of_ok.
Qed.

(** C33. Explicit integer casts are checked: the result is the same number
    exactly when it lies in the target's range, and the error is [TryFromInt]
    otherwise; nothing wraps. *)
Theorem explicit_int_cast v z to :
  int_of v = Some z -> int_type to = true ->
  (fits to z = true -> exists v', cast v to = Ok v' /\ int_of v' = Some z)
  /\ (fits to z = false -> cast v to = Err TryFromInt).
Proof.
  intros Hv Ht. pose proof (cast_int_to v z to Hv Ht) as H.
  destruct (fits to z); split; intros; try discriminate; [| exact H].
  destruct H as (v' & ? & ? & _). eauto.
Qed.

Lemma int_type_parse from z unit : int_type from = true -> fits from z = true ->
  exists v', cast (DV.Utf8 (show_int z) (Utf8Variable None) unit) from = Ok v'
    /\ int_of v' = Some z /\ logical_type v' = from.
Proof.
  intros Ht Hf. destruct from; try discriminate; cbn [fits] in Hf; cbn [cast cast_utf8];
    rewrite (parse_show_int _ _ z) by (assumption || lia); cbn; eauto.
Qed.

(** C34. Integers survive a round trip through text: casting an integer to an
    unbounded [VARCHAR] and back to its own type gives the same number. *)
Theorem int_text_roundtrip v z unit :
  int_of v = Some z -> value_ok v = true ->
  exists s v', cast v (LT.Varchar None unit) = Ok s
    /\ cast s (logical_type v) = Ok v' /\ int_of v' = Some z
    /\ logical_type v' = logical_type v.
Proof.
  intros Hv Hok.
  destruct (int_type_parse (logical_type v) z unit) as (v' & Hc & Hz & Hty).
  { destruct v; cbn in Hv; try discriminate; reflexivity. }
  { now apply int_of_ok. }
  exists (DV.Utf8 (show_int z) (Utf8Variable None) unit), v'.
  rewrite (cast_of_int v z) by assumption. auto.
Qed.
End Integers.

(** ** Typing *)

Section Typing.
Context {F : Foreign} {L : ForeignLaws F} {C : CastForeign} {CL : CastLaws C}.

(** In the range of the variant's machine type, leaving the bit patterns of
    floats aside. *)
Fixpoint sized (v : DataValue) : bool :=
  match v with
  | DV.Float32 _ | DV.Float64 _ => true
  | DV.Tuple vs _ => forallb sized vs
  | _ => value_ok v
  end.

Definition typed (to : LogicalType) (v : DataValue) : Prop :=
  has_type to v = true /\ sized v = true.

Lemma varchar_cast_typed s len ty unit v :
  varchar_cast s len ty unit = Ok v -> forallb (in_u 8) s = true ->
  v = DV.Utf8 s ty unit /\ sized v = true.
Proof.
  unfold varchar_cast. match goal with |- (if ?b then _ else _) = _ -> _ => destruct b end;
    intros; inv_ok; auto.
Qed.

Lemma cast_text s v to :
  match to with
  | LT.Char len unit => cast_char s len unit = Ok v
  | LT.Varchar len unit => cast_varchar s len unit = Ok v
  | _ => False
  end -> forallb (in_u 8) s = true -> typed to v.
Proof.
  unfold cast_char, cast_varchar.
  destruct to; try tauto; intros H Hs; apply varchar_cast_typed in H as [-> Hv]; try assumption;
    now split.
Qed.

Lemma int_in_min_max (signed : bool) w z :
  0 < w -> int_min signed w <= z <= int_max signed w ->
  (if signed then in_i w z else in_u w z) = true.
Proof. unfold int_min, int_max. destruct signed; intros; rewrite ?in_i_iff, ?in_u_iff; lia. Qed.

Lemma int_min_max signed w : 0 < w -> int_min signed w <= 0 <= int_max signed w.
Proof.
  intros Hw. pose proof (Z.pow_pos_nonneg 2 (w - 1)). pose proof (Z.pow_pos_nonneg 2 w).
  unfold int_min, int_max. destruct signed; lia.
Qed.

Lemma float_to_int_range w bits signed iw z :
  0 < iw -> float_to_int w bits signed iw = Ok z ->
  (if signed then in_i iw z else in_u iw z) = true.
Proof.
  intros Hw H. pose proof (int_min_max signed iw Hw) as Hm. unfold float_to_int in H.
  destruct (f_is_nan w bits); [inv_ok; apply int_in_min_max; lia |].
  destruct (_ || _); inv_ok. apply int_in_min_max; [assumption |]. unfold f_as_int.
  destruct (f_decode w bits) as [| [] | |]; lia.
Qed.

Lemma wrap_range (signed : bool) w z : 0 < w ->
  (if signed then in_i w (if signed then as_i w z else as_u w z)
   else in_u w (if signed then as_i w z else as_u w z)) = true.
Proof.
  intros Hw. destruct signed; [apply in_i_iff | apply in_u_iff]; auto using as_i_range.
  apply as_u_range. lia.
Qed.

Lemma decimal_to_int_range d signed w z :
  0 < w -> decimal_to_int d signed w = Ok z -> (if signed then in_i w z else in_u w z) = true.
Proof.
  intros Hw H. pose proof (int_min_max signed w Hw) as Hm. unfold decimal_to_int in H.
  repeat match type of H with
  | (if ?b then _ else _) = Ok _ => destruct b
  | context [unwrap ?o] => destruct o; cbn [unwrap result_bind] in H
  end; inv_ok; (apply wrap_range; assumption) || (apply int_in_min_max; lia).
Qed.

Lemma pack_range a b p v : 0 <= a -> pack a b p = Ok v -> in_u 32 v = true.
Proof.
  unfold pack. intros Ha. destruct (_ || _) eqn:E; [discriminate |]. intros H. inv_ok.
  apply orb_false_elim in E as [_ E]. bool_to_prop. unfold ONE_DAY_TO_SEC in E.
  apply in_u_iff. pose proof (as_u_range 32 (Z.shiftl (b / a0) (pack_shift p)) ltac:(lia)) as Hr.
  split; [apply Z.lor_nonneg; lia |].
  set (x := as_u 32 _) in *.
  assert (Hx : Z.log2 x < 32) by (destruct (Z.eq_dec x 0) as [-> |]; [reflexivity | apply Z.log2_lt_pow2; lia]).
  assert (Hal : Z.log2 a < 32).
  { destruct (Z.eq_dec a 0) as [-> |]; [reflexivity | apply Z.log2_lt_pow2; [lia |]].
    change (2 ^ 32) with 4294967296. lia. }
  destruct (Z.eq_dec (Z.lor x a) 0) as [-> |]; [reflexivity |].
  apply Z.log2_lt_pow2; [pose proof (proj2 (Z.lor_nonneg x a)); lia |].
  rewrite Z.log2_lor by lia. lia.
Qed.

Lemma ok_or_ok {E A} (o : option A) (e : E) a : ok_or o e = Ok a -> o = Some a.
Proof. destruct o; cbn; congruence. Qed.
Lemma unwrap_ok {E A} (o : option A) a : @unwrap E A o = Ok a -> o = Some a.
Proof. destruct o; cbn; congruence. Qed.

(** Invert a cast that succeeded and close the cases the range lemmas cover. *)
Ltac cast_cases :=
  intros; inv_ok;
  repeat match goal with
  | H : ok_or _ _ = Ok _ |- _ => apply ok_or_ok in H
  | H : unwrap _ = Ok _ |- _ => apply unwrap_ok in H
  end; inv_ok;
  try (split; [reflexivity |]); try reflexivity; try discriminate; try assumption.

Lemma cast_boolean_typed self value to v : cast_boolean self value to = Ok v -> typed to v.
Proof.
  unfold cast_boolean, cast_fail. destruct to; cast_cases; try (now destruct value).
  - eapply cast_text with (to := LT.Char _ _); [eassumption | now destruct value].
  - eapply cast_text with (to := LT.Varchar _ _); [eassumption | now destruct value].
Qed.

Lemma cast_float_typed w self value to v : cast_float w self value to = Ok v -> typed to v.
Proof.
  unfold cast_float, cast_fail. destruct to; cast_cases;
    try (match goal with H : float_to_int _ _ _ _ = Ok _ |- _ => eapply (float_to_int_range _ _ _ _ _) in H; [exact H | lia] end).
  - eapply cast_text with (to := LT.Char _ _); [eassumption | apply float_to_string_bytes].
  - eapply cast_text with (to := LT.Varchar _ _); [eassumption | apply float_to_string_bytes].
Qed.

Lemma int_text z : in_i 64 z = true \/ in_u 64 z = true -> forallb (in_u 8) (show_int z) = true.
Proof.
  intros Hz. apply show_int_bytes. change (10 ^ 20) with 100000000000000000000.
  destruct Hz as [Hz | Hz]; [apply in_i_iff in Hz; cbn in Hz | apply in_u_iff in Hz; cbn in Hz]; lia.
Qed.

Lemma cast_int_typed self z to v :
  in_i 64 z = true \/ in_u 64 z = true -> cast_int self z to = Ok v -> typed to v.
Proof.
  intros Hz H. unfold cast_int, cast_fail in H.
  destruct to; cbn [int_target] in H;
    try (match type of H with (if ?b then _ else _) = _ => destruct b eqn:Hb end); inv_ok;
    try (split; [reflexivity | assumption || reflexivity]).
  - unfold numeric_to_boolean in H. destruct z as [|[]|]; inv_ok; now split.
  - eapply cast_text with (to := LT.Char _ _); [eassumption | now apply int_text].
  - eapply cast_text with (to := LT.Varchar _ _); [eassumption | now apply int_text].
Qed.

Lemma parse_int_range (signed : bool) w s z :
  parse_int signed w s = Some z -> (if signed then in_i w z else in_u w z) = true.
Proof.
  assert (Hr : forall x, (if (if signed then in_i w x else in_u w x) then Some x else None) = Some z ->
    (if signed then in_i w z else in_u w z) = true).
  { intros x Hx. destruct (if signed then in_i w x else in_u w x) eqn:E; [| discriminate].
    now injection Hx as <-. }
  unfold parse_int. destruct s as [|b s]; [discriminate |].
  destruct (_ && _); [destruct s; [discriminate |] | destruct (b =? 43); [destruct s; [discriminate |] |]];
    match goal with |- match ?o with _ => _ end = _ -> _ => destruct o end; (discriminate || apply Hr).
Qed.

Lemma cast_str_time_typed value p v tp :
  cast_str_time value p = Ok v -> typed (LT.Time tp) v.
Proof.
  unfold cast_str_time. cast_cases. eapply pack_range; [| eassumption].
  match goal with H : time_parse _ _ = Some _ |- _ => apply time_parse_range in H end.
  destruct (p =? 0); inv_ok; lia.
Qed.

Lemma cast_str_timestamp_typed self value to p zone v tp tz :
  cast_str_timestamp self value to p zone = Ok v -> typed (LT.TimeStamp tp tz) v.
Proof.
  unfold cast_str_timestamp. destruct (_ && _).
  - cast_cases. eapply naive_datetime_parse_range. eassumption.
  - intros H. inv_ok. split; [reflexivity |]. cbn [sized value_ok].
    repeat match goal with
    | H : match ?z with _ => _ end = Ok _ |- _ => destruct z; try discriminate H
    end; cast_cases;
      first [apply dt_timestamp_range | apply dt_millis_range | apply dt_micros_range
            | eapply dt_nanos_range; eassumption].
Qed.

Lemma cast_utf8_typed self value to v :
  forallb (in_u 8) value = true -> cast_utf8 self value to = Ok v -> typed to v.
Proof.
  intros Hs. unfold cast_utf8, cast_fail. destruct to; cast_cases;
    try (match goal with H : parse_int _ _ _ = Some _ |- _ => apply parse_int_range in H; exact H end).
  - eapply cast_text with (to := LT.Char _ _); eassumption.
  - eapply cast_text with (to := LT.Varchar _ _); eassumption.
  - eapply date_parse_range. eassumption.
  - cbn [sized value_ok]. destruct (naive_datetime_parse _ _) eqn:E.
    + inv_ok. eapply naive_datetime_parse_range. eassumption.
    + destruct (date_parse _ _); cast_cases. eapply date_midnight_spec. eassumption.
  - eapply cast_str_time_typed. eassumption.
  - eapply cast_str_timestamp_typed. eassumption.
Qed.

Lemma cast_date32_typed self value to v :
  in_i 32 value = true -> cast_date32 self value to = Ok v -> typed to v.
Proof.
  intros Hv. unfold cast_date32, cast_fail, format_date. destruct to; cast_cases.
  - eapply cast_text with (to := LT.Char _ _); [eassumption | eapply date_print_bytes; eassumption].
  - eapply cast_text with (to := LT.Varchar _ _); [eassumption | eapply date_print_bytes; eassumption].
  - eapply date_midnight_spec. eassumption.
Qed.

Lemma format_datetime_bytes v s : format_datetime v = Some s -> forallb (in_u 8) s = true.
Proof. unfold format_datetime. destruct (dt_from_timestamp v 0); intros [= <-]. apply dt_print_bytes. Qed.

Lemma format_time_bytes v p s : format_time v p = Ok (Some s) -> forallb (in_u 8) s = true.
Proof. unfold format_time. cast_cases. eapply time_print_bytes. eassumption. Qed.

Lemma format_timestamp_bytes v p s : format_timestamp v p = Ok (Some s) -> forallb (in_u 8) s = true.
Proof.
  unfold format_timestamp. destruct (from_timestamp_precision v p) as [[d|] | |]; cbn [result_bind];
    intros H; try discriminate H. apply Ok_inj in H. injection H as <-. apply dt_print_bytes.
Qed.

Lemma dt_time_nonneg d : 0 <= (dt_time d).1.
Proof. destruct (dt_time_spec d) as [-> _]. apply Z.mod_pos_bound. lia. Qed.

Lemma cast_date64_typed self value to v :
  in_i 64 value = true -> cast_date64 self value to = Ok v -> typed to v.
Proof.
  intros Hv. unfold cast_date64, cast_fail. destruct to; cast_cases.
  - eapply cast_text with (to := LT.Char _ _); [eassumption | eapply format_datetime_bytes; eassumption].
  - eapply cast_text with (to := LT.Varchar _ _); [eassumption | eapply format_datetime_bytes; eassumption].
  - apply dt_days_spec.
  - eapply pack_range; [| eassumption]. apply dt_time_nonneg.
Qed.

Lemma cast_time32_typed self value p to v :
  in_u 32 value = true -> cast_time32 self value p to = Ok v -> typed to v.
Proof.
  intros Hv. unfold cast_time32, cast_fail. destruct to; cast_cases; subst.
  - eapply cast_text with (to := LT.Char _ _); [eassumption | eapply format_time_bytes; eassumption].
  - eapply cast_text with (to := LT.Varchar _ _); [eassumption | eapply format_time_bytes; eassumption].
Qed.

Lemma cast_time64_typed self value p to v :
  in_i 64 value = true -> cast_time64 self value p to = Ok v -> typed to v.
Proof.
  intros Hv. unfold cast_time64, cast_fail. destruct to; cast_cases; subst.
  - eapply cast_text with (to := LT.Char _ _); [eassumption | eapply format_timestamp_bytes; eassumption].
  - eapply cast_text with (to := LT.Varchar _ _); [eassumption | eapply format_timestamp_bytes; eassumption].
  - apply dt_days_spec.
  - apply dt_timestamp_range.
  - eapply pack_range; [| eassumption]. apply dt_time_nonneg.
Qed.

Lemma cast_decimal_typed self value to v : cast_decimal self value to = Ok v -> typed to v.
Proof.
  unfold cast_decimal, cast_fail. destruct to; cast_cases;
    try (match goal with H : decimal_to_int _ _ _ = Ok _ |- _ => apply decimal_to_int_range in H; [exact H | lia] end).
  - eapply cast_text with (to := LT.Char _ _); [eassumption | apply dec_to_string_bytes].
  - eapply cast_text with (to := LT.Varchar _ _); [eassumption | apply dec_to_string_bytes].
Qed.

(** The element loop of a tuple cast. *)
Fixpoint cast_elements (values : list DataValue) (types : list LogicalType)
  : Result (list DataValue) :=
  match values, types with
  | [], _ => Ok []
  | _ :: _, [] => Panic
  | value :: values, ty :: types =>
      let? value := if decide (ty = logical_type value) then Ok value else cast value ty in
      let? values := cast_elements values types in
      Ok (value :: values)
  end.

Lemma cast_tuple values up types :
  cast (DV.Tuple values up) (LT.Tuple types)
  = let? values := cast_elements values types in Ok (DV.Tuple values up).
Proof.
  cbn [cast].
  assert (Hgo : forall vs ts,
    (fix go (values : list DataValue) (types : list LogicalType) : Result (list DataValue) :=
       match values with
       | [] => Ok []
       | value :: values =>
           match types with
           | [] => Panic
           | ty :: types =>
               let? value := if decide (ty = logical_type value) then Ok value else cast value ty in
               let? values := go values types in
               Ok (value :: values)
           end
       end) vs ts = cast_elements vs ts).
  { induction vs as [|v vs IH]; intros [|t ts]; reflexivity || (cbn [cast_elements]; now rewrite IH). }
  rewrite Hgo. destruct (cast_elements values types); reflexivity.
Qed.

Lemma cast_result_typed v to v' :
  sized v = true -> cast v to = Ok v' -> typed to v'.
Proof.
  revert to v'.
  induction v as [vs up IH | v Hv] using DataValue_nested_ind; intros to v' Hs H.
  - destruct to; try (cbn in H; unfold cast_fail in H; discriminate H).
    rewrite cast_tuple in H. inv_ok. unfold typed. rewrite has_type_tuple. cbn [sized] in *.
    revert types a Hok. induction IH as [|v vs Hv _ IHvs]; intros [|t ts] ws Hc; cbn [cast_elements] in Hc;
      inv_ok; cbn [forallb have_types] in *; try (now split).
    apply andb_prop in Hs as [Hsv Hsvs].
    match goal with Hc : cast_elements vs _ = Ok _ |- _ => destruct (IHvs Hsvs _ _ Hc) as [-> ->] end.
    rewrite !andb_true_r. destruct (decide (t = logical_type v)) as [-> | _]; [inv_ok | now apply (Hv t)].
    split; [apply logical_type_typed | assumption].
  - assert (Hi : forall w z, w <= 64 -> in_i w z = true \/ in_u w z = true -> in_i 64 z = true \/ in_u 64 z = true).
    { intros w z Hw Hz. assert (2 ^ (w - 1) <= 2 ^ 63 /\ 2 ^ w <= 2 ^ 64) as [? ?]
        by (split; apply Z.pow_le_mono_r; lia).
      rewrite !in_i_iff, !in_u_iff in *. change (64 - 1) with 63. lia. }
    destruct v; cbn [sized value_ok cast] in *; inv_ok;
      try (match goal with H : cast_uint _ _ _ = Ok _ |- _ => rewrite cast_int_uint in H end).
    + split; [apply has_type_null | reflexivity].
    + eapply cast_boolean_typed; eassumption.
    + destruct to; try (exact (cast_float_typed 32 (DV.Float32 bits) bits _ _ Hok)); cbn in Hok; inv_ok; now split.
    + destruct to; try (exact (cast_float_typed 64 (DV.Float64 bits) bits _ _ Hok)); cbn in Hok; inv_ok; now split.
    + eapply cast_int_typed; [eapply (Hi 8); [lia | eauto] | eassumption].
    + eapply cast_int_typed; [eapply (Hi 16); [lia | eauto] | eassumption].
    + eapply cast_int_typed; [eapply (Hi 32); [lia | eauto] | eassumption].
    + eapply cast_int_typed; [eapply (Hi 64); [lia | eauto] | eassumption].
    + eapply cast_int_typed; [eapply (Hi 8); [lia | eauto] | eassumption].
    + eapply cast_int_typed; [eapply (Hi 16); [lia | eauto] | eassumption].
    + eapply cast_int_typed; [eapply (Hi 32); [lia | eauto] | eassumption].
    + eapply cast_int_typed; [eapply (Hi 64); [lia | eauto] | eassumption].
    + eapply cast_utf8_typed; eassumption.
    + eapply cast_date32_typed; eassumption.
    + eapply cast_date64_typed; eassumption.
    + eapply cast_time32_typed; eassumption.
    + eapply cast_time64_typed; eassumption.
    + eapply cast_decimal_typed; eassumption.
    + exfalso. eapply Hv. reflexivity.
Qed.

(** C21. Casts produce values of their target type: whenever [cast] succeeds on
    a well-formed value, the result is null or the variant of the target type,
    with its integer in the range of the variant's machine type (strings stay
    byte strings, times 32-bit, timestamps 64-bit), element by element for tuples,
    each of the type the target has for it.  The lengths, precisions and scales of
    the target are not part of the claim, nor is the number of elements. *)
Theorem cast_typed v to v' :
  sized v = true -> cast v to = Ok v' -> has_type to v' = true /\ sized v' = true.
Proof. apply cast_result_typed. Qed.
End Typing.

(** ** Decimals to integers *)

Section Decimals.
Context {F : Foreign} {L : ForeignLaws F} {C : CastForeign} {CL : CastLaws C}.

Lemma dec_cmp_from_int d z : - 2 ^ 96 < z < 2 ^ 96 ->
  dec_cmp d (dec_from_int z) = (dec_mantissa d ?= z * 10 ^ dec_scale d).
Proof.
  intros Hz. rewrite dec_cmp_spec. unfold dec_scaled.
  destruct (dec_from_int_spec z Hz) as [-> ->]. pose proof (dec_scale_range d) as Hs.
  replace (10 ^ (28 - 0)) with (10 ^ dec_scale d * 10 ^ (28 - dec_scale d))
    by (rewrite <- Z.pow_add_r by lia; f_equal; lia).
  rewrite Z.mul_assoc. symmetry. apply Zmult_compare_compat_r.
  apply Z.lt_gt, Z.pow_pos_nonneg; lia.
Qed.

(** The integer part, rounded towards zero. *)
Definition dec_trunc (d : Decimal) : Z := Z.quot (dec_mantissa d) (10 ^ dec_scale d).

Lemma trunc_upper d z : 0 <= z ->
  (dec_mantissa d < z * 10 ^ dec_scale d -> dec_trunc d < z \/ (z = 0 /\ dec_trunc d <= 0))
  /\ (z * 10 ^ dec_scale d <= dec_mantissa d -> z <= dec_trunc d).
Proof.
  intros Hz. unfold dec_trunc. pose proof (dec_scale_range d).
  pose proof (Z.pow_pos_nonneg 10 (dec_scale d) ltac:(lia) ltac:(lia)) as Hp.
  set (p := 10 ^ dec_scale d) in *. set (m := dec_mantissa d).
  destruct (Z.le_gt_cases 0 m).
  - rewrite Z.quot_div_nonneg by lia. split; intros.
    + left. apply Z.div_lt_upper_bound; lia.
    + apply Z.div_le_lower_bound; lia.
  - replace m with (- (- m)) by lia. rewrite Z.quot_opp_l, Z.quot_div_nonneg by lia.
    pose proof (Z.div_pos (- m) p ltac:(lia) Hp). split; intros; [lia | nia].
Qed.

Lemma trunc_lower d z : z <= 0 ->
  (z * 10 ^ dec_scale d < dec_mantissa d -> z <= dec_trunc d)
  /\ (dec_mantissa d <= z * 10 ^ dec_scale d -> dec_trunc d <= z).
Proof.
  intros Hz. unfold dec_trunc. pose proof (dec_scale_range d).
  pose proof (Z.pow_pos_nonneg 10 (dec_scale d) ltac:(lia) ltac:(lia)) as Hp.
  set (p := 10 ^ dec_scale d) in *. set (m := dec_mantissa d).
  destruct (Z.le_gt_cases 0 m).
  - rewrite Z.quot_div_nonneg by lia. pose proof (Z.div_pos m p ltac:(lia) Hp).
    split; intros; [lia |]. assert (m = 0) as -> by nia. rewrite Z.div_0_l by lia. nia.
  - replace m with (- (- m)) by lia. rewrite Z.quot_opp_l, Z.quot_div_nonneg by lia. split; intros.
    + assert (- m / p < - z + 1) by (apply Z.div_lt_upper_bound; lia). lia.
    + assert (- z <= - m / p) by (apply Z.div_le_lower_bound; lia). lia.
Qed.

(** A decimal is cast to an integer by dropping its fraction and clamping
    to the target's range: it never wraps, never fails, and negative decimals
    become 0 in unsigned targets. *)
Theorem decimal_to_int_spec d signed w :
  0 < w <= 64 ->
  decimal_to_int d signed w
  = Ok (Z.max (int_min signed w) (Z.min (int_max signed w) (dec_trunc d))).
Proof.
  intros Hw. pose proof (int_min_max signed w ltac:(lia)) as Hmm.
  assert (Hr : - 2 ^ 96 < int_min signed w /\ int_max signed w < 2 ^ 96).
  { assert (2 ^ (w - 1) <= 2 ^ 64 /\ 2 ^ w <= 2 ^ 64) as [? ?] by (split; apply Z.pow_le_mono_r; lia).
    change (2 ^ 64) with 18446744073709551616 in *. change (2 ^ 96) with 79228162514264337593543950336.
    unfold int_min, int_max. destruct signed; lia. }
  assert (Hwrap : forall z, int_min signed w <= z <= int_max signed w ->
    (if signed then as_i w z else as_u w z) = z).
  { intros z Hz. unfold int_min, int_max in Hz.
    destruct signed; [apply as_i_small | apply as_u_small]; lia. }
  unfold decimal_to_int. rewrite dec_to_i128_spec. cbn [unwrap result_bind]. fold (dec_trunc d).
  destruct (trunc_upper d (int_max signed w)) as [U1 U2]; [lia |].
  destruct (trunc_lower d (int_min signed w)) as [L1 L2]; [lia |].
  destruct (trunc_upper d 0) as [U3 U4]; [lia |]. destruct (trunc_lower d 0) as [L3 L4]; [lia |].
  rewrite Z.mul_0_l in *. rewrite !dec_cmp_from_int by lia. unfold is_le, is_ge, is_gt, is_lt.
  destruct (dec_is_sign_negative d) eqn:Es.
  - assert (Hm : dec_mantissa d <= 0).
    { destruct (Z.eq_dec (dec_mantissa d) 0); [lia |]. rewrite dec_sign_spec in Es by assumption. bool_to_prop. lia. }
    destruct signed; cbn [negb].
    + destruct (Z.compare_spec (dec_mantissa d) (int_min true w * 10 ^ dec_scale d)); cbn [negb];
        f_equal; try rewrite Hwrap; lia.
    + f_equal. unfold int_min in *. lia.
  - assert (Hm : 0 <= dec_mantissa d).
    { destruct (Z.eq_dec (dec_mantissa d) 0); [lia |]. rewrite dec_sign_spec in Es by assumption. bool_to_prop. lia. }
    destruct (Z.compare_spec (dec_mantissa d) (int_max signed w * 10 ^ dec_scale d)); cbn [negb];
      f_equal; try rewrite Hwrap; lia.
Qed.
End Decimals.

(** ** Casts that go wrong *)

Section Flaws.
Context {F : Foreign} {L : ForeignLaws F} {C : CastForeign}.

(** Zero and negative floats cannot be cast to any integer type: the range
    check of [float_to_int!] starts at zero, also for signed targets. *)
Lemma nonpositive_float_overflow bits to :
  f_is_nan 64 bits = false -> f_key 64 bits <= 0 -> int_type to = true ->
  cast (DV.Float64 bits) to = Err OverFlow.
Proof.
  intros Hn Hk Ht.
  assert (Hf : forall signed iw, float_to_int 64 bits signed iw = Err OverFlow).
  { intros. unfold float_to_int. rewrite Hn, (proj2 (Z.leb_le _ 0)) by assumption. reflexivity. }
  destruct to; try discriminate; cbn [cast cast_float64 cast_float]; rewrite Hf; reflexivity.
Qed.

(** A string that is not a date makes the cast to [DATE] panic. *)
Lemma bad_date_panics s ty unit :
  date_parse DATE_FMT s = None -> cast (DV.Utf8 s ty unit) LT.Date = Panic.
Proof. intros H. cbn [cast cast_utf8]. now rewrite H. Qed.

(** Changing the precision of a timestamp changes the instant: the cast
    keeps the count and relabels its unit, so a count of seconds cast to
    [TIMESTAMP(3)] is read back as milliseconds. *)
Theorem timestamp_cast_moves v zone d d' :
  v <> 0 -> from_timestamp_precision v 0 = Ok (Some d) -> from_timestamp_precision v 3 = Ok (Some d') ->
  cast (DV.Time64 v 0 zone) (LT.TimeStamp (Some 3) zone) = Ok (DV.Time64 v 3 zone)
  /\ dt_timestamp_millis d = 1000 * dt_timestamp_millis d'
  /\ dt_timestamp_millis d <> dt_timestamp_millis d'.
Proof.
  intros Hv Hd Hd'. split; [reflexivity |]. cbn in Hd, Hd'. apply Ok_inj in Hd, Hd'.
  apply dt_from_timestamp_spec in Hd as (_ & -> & _).
  apply dt_from_millis_spec in Hd' as (_ & -> & _). change (0 / 1000000) with 0. lia.
Qed.
End Flaws.

(** ** Witnesses *)

Module RefCast.
#[local] Existing Instance RefForeign.ref_foreign.

(** Texts of floats and of dates other than the empty one are not parsed. *)
#[global] Instance ref_cast : CastForeign := {|
  dec_from_int z := RefForeign.new z 0;
  dec_from_float _ _ := None;
  dec_to_float _ _ := None;
  dec_to_i128 d := Some (Z.quot (RefForeign.d_m d) (10 ^ RefForeign.d_s d));
  dec_trunc_with_scale d _ := d;
  dec_round_dp_away d _ := d;
  dec_from_str s := match parse_int true 64 s with Some z => Some (RefForeign.new z 0) | None => None end;
  dec_to_string d := le_bytes 12 (RefForeign.d_m d);
  float_to_string _ _ := [];
  float_from_str _ _ := None;
  date_parse _ _ := None;
  naive_datetime_parse _ _ := None;
  time_parse _ _ := None;
  datetime_parse _ _ := None;
  date_midnight d := if in_i 32 d then Some ((d - 719163) * 86400) else None;
  dt_days d := RefForeign.t_s d / 86400 + 719163;
  dt_time d := (RefForeign.t_s d mod 86400, RefForeign.t_n d mod 1000000000);
  date_print _ d := Some (le_bytes 4 d);
  time_print _ a b := Some (le_bytes 4 a ++ le_bytes 4 b);
  dt_print _ d := le_bytes 8 (RefForeign.t_s d)
|}.

Lemma le_bytes_u8 n z : forallb (in_u 8) (le_bytes n z) = true.
Proof.
  apply forallb_forall. intros x Hx%list_elem_of_In. apply in_u_iff.
  pose proof (le_bytes_is_bytes n z) as H. unfold is_bytes in H. rewrite Forall_forall in H.
  exact (H x Hx).
Qed.

#[global] Instance ref_cast_laws : CastLaws ref_cast.
Proof.
  assert (Hdt : forall d : RefForeign.instant, - 8334601228800 <= RefForeign.t_s d <= 8210266876799
                          /\ 0 <= RefForeign.t_n d < 2000000000).
  { intros [s n H]. unfold RefForeign.dt_ok in H. bool_to_prop. cbn. lia. }
  constructor; cbn -[Z.pow RefForeign.new le_bytes]; try discriminate.
  - intros z Hz. unfold RefForeign.new, RefForeign.clamp, RefForeign.dec_ok. cbn [RefForeign.d_m RefForeign.d_s].
    rewrite (proj2 (Z.ltb_lt _ _)), (proj2 (Z.ltb_lt _ _)) by lia. auto.
  - reflexivity.
  - intros d. apply le_bytes_u8.
  - reflexivity.
  - intros d t. destruct (in_i 32 d) eqn:Hd; intros [= <-]. split; [reflexivity |].
    rewrite in_i_iff in *. cbn in *. lia.
  - intros d. split; [reflexivity |]. apply in_i_iff. destruct (Hdt d) as [Hd _].
    pose proof (Z.div_le_lower_bound (RefForeign.t_s d) 86400 (-97000000)).
    pose proof (Z.div_lt_upper_bound (RefForeign.t_s d) 86400 97000000). cbn. lia.
  - intros d. split; [reflexivity |]. apply Z.mod_pos_bound. lia.
  - intros d. apply in_i_iff. destruct (Hdt d). cbn. lia.
  - intros d. apply in_i_iff. destruct (Hdt d) as [Hd Hn].
    pose proof (Z.div_pos (RefForeign.t_n d) 1000000 ltac:(lia) ltac:(lia)).
    pose proof (Z.div_lt_upper_bound (RefForeign.t_n d) 1000000 2000). cbn. lia.
  - intros d. apply in_i_iff. destruct (Hdt d) as [Hd Hn].
    pose proof (Z.div_pos (RefForeign.t_n d) 1000 ltac:(lia) ltac:(lia)).
    pose proof (Z.div_lt_upper_bound (RefForeign.t_n d) 1000 2000000). cbn. lia.
  - intros d n. destruct (in_i 64 _) eqn:Hn; [| discriminate]. now intros [= <-].
  - intros f d s Hs. assert (le_bytes 4 d = s) as <- by congruence. apply le_bytes_u8.
  - intros f a b s Hs. assert (le_bytes 4 a ++ le_bytes 4 b = s) as <- by congruence. now rewrite forallb_app, !le_bytes_u8.
  - intros f d. apply le_bytes_u8.
Qed.
End RefCast.

Section Witnesses.
#[local] Existing Instance RefForeign.ref_foreign.
#[local] Existing Instance RefForeign.ref_laws.
#[local] Existing Instance RefCast.ref_cast.
#[local] Existing Instance RefCast.ref_cast_laws.

Lemma implicit_int_cast_witness :
  exists v', cast (DV.UInt16 65535) LT.Bigint = Ok v' /\ int_of v' = Some 65535
    /\ has_type LT.Bigint v' = true.
Proof. apply (implicit_int_cast (DV.UInt16 65535) 65535 LT.Bigint); reflexivity. Defined.

Lemma explicit_int_cast_witness : cast (DV.Int32 (-1)) LT.UTinyint = Err TryFromInt.
Proof. apply (explicit_int_cast (DV.Int32 (-1)) (-1) LT.UTinyint); reflexivity. Defined.

Lemma int_text_roundtrip_witness :
  exists s v', cast (DV.Int64 (-9223372036854775808)) (LT.Varchar None Characters) = Ok s
    /\ cast s LT.Bigint = Ok v' /\ int_of v' = Some (-9223372036854775808)
    /\ logical_type v' = LT.Bigint.
Proof. apply (int_text_roundtrip (DV.Int64 (-9223372036854775808))); reflexivity. Defined.

Lemma cast_typed_witness :
  has_type (LT.Tuple [LT.Bigint; LT.Date]) (DV.Tuple [DV.Int64 1; DV.Date32 719163] false) = true
  /\ sized (DV.Tuple [DV.Int64 1; DV.Date32 719163] false) = true.
Proof. apply (cast_typed (DV.Tuple [DV.Int32 1; DV.Date64 0] false) (LT.Tuple [LT.Bigint; LT.Date])); reflexivity. Defined.

Lemma decimal_to_int_spec_witness :
  decimal_to_int (dec_new (-12345) 1) true 8
  = Ok (Z.max (int_min true 8) (Z.min (int_max true 8) (dec_trunc (dec_new (-12345) 1)))).
Proof. apply (decimal_to_int_spec (dec_new (-12345) 1) true 8). lia. Defined.

Lemma timestamp_cast_moves_witness :
  exists d d', from_timestamp_precision 7 0 = Ok (Some d) /\ from_timestamp_precision 7 3 = Ok (Some d')
    /\ dt_timestamp_millis d <> dt_timestamp_millis d'.
Proof.
  do 2 eexists. split; [reflexivity |]. split; [reflexivity |].
  eapply (timestamp_cast_moves 7 false); [discriminate | reflexivity | reflexivity].
Defined.
End Witnesses.
