(* ===== verification/Storage.v ===== *)
(** * Storage

    The provided methods of the [Transaction] trait of src/src/storage/mod.rs,
    over the key-value interface of KvStore.v: tables, views, columns, indexes
    and tuples as keys and values, and the three shared caches. The readers are
    in Readers.v.

    An operation is a state transformer that returns a result and the state it
    leaves behind, also when it fails: the writes made before an error stay.
    The caches are the interface [Cache] of Cache.v, the serializers of the
    catalog records the class [CatalogCodec]. *)

From stdpp Require Import gmap sorting.
From S2P Require Import Prelude Bytes Types LogicalTypes Values Evaluators Cast Memcomparable.
From S2P Require Import TupleCodec TableCodec KvStore Lru Cache Catalog.

(** ** Interfaces *)

(** The serializers of src/src/serdes and of [bincode]; decoding a view may read
    tables through the transaction and the table cache. *)
Class CatalogCodec `{Foreign} (E V T TC : Type) := {
  ser_column : ColumnCatalog E -> Result bytes;
  de_column : bytes -> bytes -> Result (ColumnCatalog E);
  ser_index_meta : IndexMeta -> Result bytes;
  de_index_meta : bytes -> Result IndexMeta;
  ser_table_meta : bytes -> Result bytes;
  de_table_meta : bytes -> Result bytes;
  view_name : V -> bytes;
  ser_view : V -> Result bytes;
  de_view : bytes -> T -> TC -> Result V * TC;
  bincode : TupleId -> bytes;
  unbincode : bytes -> Result TupleId
}.

(** ** State *)

Section State.
Context {F : Foreign} {T TC VC MC : Type}.

Record Db := mk_db { tx : T; table_cache : TC; view_cache : VC; meta_cache : MC }.

Definition M (A : Type) : Type := Db -> Result A * Db.
Definition ret {A} (a : A) : M A := fun s => (Ok a, s).
Definition lift {A} (r : Result A) : M A := fun s => (r, s).
Definition fail {A} (e : DatabaseError F) : M A := lift (Err e).
Definition bind {A B} (m : M A) (k : A -> M B) : M B := fun s =>
  match m s with
  | (Ok a, s') => k a s'
  | (Err e, s') => (Err e, s')
  | (Panic, s') => (Panic, s')
  end.
End State.
Arguments Db T TC VC MC : clear implicits.
Arguments M {F} T TC VC MC A.

Notation "'let!' x ':=' m 'in' k" := (bind m (fun x => k))
  (at level 10, x binder, m at level 100, k at level 200) : kite_scope.

Section Storage.
Context {F : Foreign} {CF : CastForeign} {E : Type} {X : ExprOps E}.
Context {T : Type} {TX : Transaction T}.
Context {V St : Type} {TC VC MC : Type}.
Context {CT : Cache bytes (TableCatalog E) TC} {CV : Cache bytes V VC} {CM : Cache (bytes * Z) St MC}.
Context {Codec : CatalogCodec E V T TC}.

#[local] Abbreviation Db := (Db T TC VC MC).
#[local] Abbreviation M := (M T TC VC MC).

Fixpoint for_each {A} (f : A -> M unit) (l : list A) : M unit :=
  match l with
  | [] => ret tt
  | x :: l' => let! _ := f x in for_each f l'
  end.

Definition set_tx (t : T) (s : Db) : Db := mk_db t (table_cache s) (view_cache s) (meta_cache s).
Definition set_table_cache (c : TC) (s : Db) : Db := mk_db (tx s) c (view_cache s) (meta_cache s).
Definition set_view_cache (c : VC) (s : Db) : Db := mk_db (tx s) (table_cache s) c (meta_cache s).
Definition set_meta_cache (c : MC) (s : Db) : Db := mk_db (tx s) (table_cache s) (view_cache s) c.

(** The primitives; a failing one leaves its part of the state as it was. *)
Definition get (key : bytes) : M (option bytes) := fun s => (tx_get (tx s) key, s).
Definition upd {A B} (r : Result A) (f : A -> B * Db) (s : Db) : Result B * Db :=
  match r with
  | Ok a => let '(b, s') := f a in (Ok b, s')
  | Err e => (Err e, s)
  | Panic => (Panic, s)
  end.
Definition set (key value : bytes) : M unit := fun s =>
  upd (tx_set key value (tx s)) (fun t => (tt, set_tx t s)) s.
Definition remove (key : bytes) : M unit := fun s =>
  upd (tx_remove key (tx s)) (fun t => (tt, set_tx t s)) s.
Definition range (min max : Bound bytes) : M KvIter := fun s => (tx_range (tx s) min max, s).

Definition table_cache_get (k : bytes) : M (option (TableCatalog E)) := fun s =>
  upd (cache_get k (table_cache s)) (fun p => (p.1, set_table_cache p.2 s)) s.
Definition table_cache_put (k : bytes) (v : TableCatalog E) : M unit := fun s =>
  upd (cache_put k v (table_cache s)) (fun p => (tt, set_table_cache p.2 s)) s.
Definition table_cache_remove (k : bytes) : M unit := fun s =>
  upd (cache_remove k (table_cache s)) (fun p => (tt, set_table_cache p.2 s)) s.
Definition view_cache_get (k : bytes) : M (option V) := fun s =>
  upd (cache_get k (view_cache s)) (fun p => (p.1, set_view_cache p.2 s)) s.
Definition view_cache_put (k : bytes) (v : V) : M unit := fun s =>
  upd (cache_put k v (view_cache s)) (fun p => (tt, set_view_cache p.2 s)) s.
Definition view_cache_remove (k : bytes) : M unit := fun s =>
  upd (cache_remove k (view_cache s)) (fun p => (tt, set_view_cache p.2 s)) s.
Definition meta_cache_put (k : bytes * Z) (v : St) : M unit := fun s =>
  upd (cache_put k v (meta_cache s)) (fun p => (tt, set_meta_cache p.2 s)) s.
Definition meta_cache_remove (k : bytes * Z) : M unit := fun s =>
  upd (cache_remove k (meta_cache s)) (fun p => (tt, set_meta_cache p.2 s)) s.

(** ** Data ranges *)

(** [while let Some((key, _)) = iter.try_next()?]. *)
Fixpoint collect_keys (it : KvIter) : Result (list bytes) :=
  match it with
  | [] => Ok []
  | item :: it' =>
      let? e := item in
      let? keys := collect_keys it' in
      Ok (e.1 :: keys)
  end.

Definition _drop_data (bound : bytes * bytes) : M unit :=
  let! iter := range (Bound.Included bound.1) (Bound.Included bound.2) in
  let! data_keys := lift (collect_keys iter) in
  for_each remove data_keys.

(** [while let Some((key, value)) = iter.try_next().ok().flatten()]: the loop
    ends silently at the first error. *)
Fixpoint until_error (it : KvIter) : list kv :=
  match it with
  | Ok e :: it' => e :: until_error it'
  | _ => []
  end.

(** ** Tables *)

Definition starts_with (key prefix : bytes) : bool :=
  bool_decide (take (length prefix) key = prefix).

Fixpoint collect_table (table_name table_min : bytes) (l : list kv)
    (columns : list (ColumnCatalog E)) (index_metas : list IndexMeta)
  : Result (list (ColumnCatalog E) * list IndexMeta) :=
  match l with
  | [] => Ok (columns, index_metas)
  | (key, value) :: l' =>
      if starts_with key table_min then
        let? c := de_column table_name value in
        collect_table table_name table_min l' (columns ++ [c]) index_metas
      else
        let? m := de_index_meta value in
        collect_table table_name table_min l' columns (index_metas ++ [m])
  end.

Definition table_collect (table_name : bytes)
  : M (option (list (ColumnCatalog E) * list IndexMeta)) :=
  let '(table_min, table_max) := table_bound table_name in
  let! column_iter := range (Bound.Included table_min) (Bound.Included table_max) in
  let! '(columns, index_metas) :=
    lift (collect_table table_name table_min (until_error column_iter) [] []) in
  ret (match columns with [] => None | _ => Some (columns, index_metas) end).

Definition table_cache_get_or_insert (k : bytes) (f : bytes -> Result (TableCatalog E))
  : M (TableCatalog E) := fun s =>
  upd (cache_get_or_insert k f (table_cache s)) (fun p => (p.1, set_table_cache p.2 s)) s.

Definition table (table_name : bytes) : M (option (TableCatalog E)) :=
  let! cached := table_cache_get table_name in
  match cached with
  | Some table => ret (Some table)
  | None =>
      let! collected := table_collect table_name in
      match collected with
      | None => ret None
      | Some (columns, indexes) =>
          let! table :=
            table_cache_get_or_insert table_name (fun _ => reload table_name columns indexes) in
          ret (Some table)
      end
  end.

Definition table_metas : M (list bytes) :=
  let '(min, max) := root_table_bound in
  let! iter := range (Bound.Included min) (Bound.Included max) in
  lift (try_map (fun e => de_table_meta e.2) (until_error iter)).

Definition check_name_hash (table_name : bytes) : M unit :=
  let '(hash_key, value) := encode_table_hash table_name in
  let! found := get hash_key in
  match found with
  | Some _ => fail (DuplicateSourceHash table_name)
  | None => set hash_key value
  end.

Definition drop_name_hash (table_name : bytes) : M unit :=
  remove (encode_table_hash_key table_name).

(** [encode_index_meta]. *)
Definition encode_index_meta (table_name : bytes) (m : IndexMeta) : Result (bytes * bytes) :=
  let? value := ser_index_meta m in
  Ok (encode_index_meta_key table_name (im_id m), value).

Definition set_index_meta (table_name : bytes) (m : IndexMeta) : M unit :=
  let! '(key, value) := lift (encode_index_meta table_name m) in set key value.

Definition set_column (c : ColumnCatalog E) : M unit :=
  let! '(key, value) := lift (encode_column (relation (summary c)) (ser_column c)) in set key value.

Definition UK : bytes := [117; 107; 95].            (* "uk_" *)
Definition INDEX_SUFFIX : bytes := [95; 105; 110; 100; 101; 120]. (* "_index" *)
Definition PK_INDEX : bytes := [112; 107] ++ INDEX_SUFFIX.        (* "pk_index" *)

(** The loop over the columns: a unique index per unique column that is not
    part of the primary key. *)
Fixpoint create_unique_metas (cols : list (ColumnCatalog E)) (t : TableCatalog E)
  : M (TableCatalog E) :=
  match cols with
  | [] => ret t
  | col :: cols' =>
      let! col_id := lift (ok_or (column_id col) PrimaryKeyNotFound) in
      match primary (desc col) with
      | Some _ => create_unique_metas cols' t
      | None =>
          if is_unique (desc col) then
            let! '(meta_ref, t) :=
              lift (Catalog.add_index_meta (UK ++ column_name col ++ INDEX_SUFFIX) [col_id] Unique t) in
            let! _ := set_index_meta (tname t) meta_ref in
            create_unique_metas cols' t
          else create_unique_metas cols' t
      end
  end.

Definition create_index_meta_from_column (t : TableCatalog E) : M (TableCatalog E) :=
  let! t := create_unique_metas (schema_ref t) t in
  let! primary_keys := lift (try_map (fun p => unwrap (column_id p.2)) (primary_keys t)) in
  let pk_index_ty := PrimaryKey (negb (length primary_keys =? 1)%nat) in
  let! '(meta_ref, t) := lift (Catalog.add_index_meta PK_INDEX primary_keys pk_index_ty t) in
  let! _ := set_index_meta (tname t) meta_ref in
  ret t.

(** [generator] lists the ids the table's columns will get. *)
Definition create_table (generator : Generator) (table_name : bytes)
    (columns : list (ColumnCatalog E)) (if_not_exists : bool) : M bytes :=
  let! table_catalog := lift (table_new table_name columns generator) in
  let! _ := for_each (fun p => lift (check_primary_key_type (datatype p.2)))
              (primary_keys table_catalog) in
  let table_key := encode_root_table_key table_name in
  let! value := lift (ser_table_meta table_name) in
  let! found := get table_key in
  match found with
  | Some _ => if if_not_exists then ret table_name else fail TableExists
  | None =>
      let! _ := check_name_hash table_name in
      let! table_catalog := create_index_meta_from_column table_catalog in
      let! _ := set table_key value in
      let! _ := for_each set_column (schema_ref table_catalog) in
      let! _ := table_cache_put table_name table_catalog in
      ret table_name
  end.

Definition drop_data (table_name : bytes) : M unit :=
  let! _ := _drop_data (tuple_bound table_name) in
  let! _ := _drop_data (all_index_bound table_name) in
  _drop_data (statistics_bound table_name).

(** The removal of the statistics directory is left out: its result is
    ignored. *)
Definition drop_table (table_name : bytes) (if_exists : bool) : M unit :=
  let! found := table table_name in
  match found with
  | None => if if_exists then ret tt else fail TableNotFound
  | Some _ =>
      let! _ := drop_name_hash table_name in
      let! _ := drop_data table_name in
      let! _ := _drop_data (columns_bound table_name) in
      let! _ := _drop_data (index_meta_bound table_name) in
      let! _ := remove (encode_root_table_key table_name) in
      table_cache_remove table_name
  end.

(** ** Views *)

Definition view_cache_get_or_insert (k : bytes) (f : TC -> Result V * TC) : M V := fun s =>
  let '(decoded, tc) := f (table_cache s) in
  let s := set_table_cache tc s in
  upd (cache_get_or_insert k (fun _ => decoded) (view_cache s)) (fun p => (p.1, set_view_cache p.2 s)) s.

Definition view (view_name : bytes) : M (option V) :=
  let! cached := view_cache_get view_name in
  match cached with
  | Some v => ret (Some v)
  | None =>
      let! found := get (encode_view_key view_name) in
      match found with
      | None => ret None
      | Some bytes =>
          let! v := (fun s => view_cache_get_or_insert view_name (de_view bytes (tx s)) s) in
          ret (Some v)
      end
  end.

Fixpoint decode_views (l : list kv) : M (list V) :=
  match l with
  | [] => ret []
  | (_, value) :: l' =>
      let! meta := (fun s => let '(r, tc) := de_view value (tx s) (table_cache s) in
                             (r, set_table_cache tc s)) in
      let! metas := decode_views l' in
      ret (meta :: metas)
  end.
Definition views : M (list V) :=
  let '(min, max) := view_bound in
  let! iter := range (Bound.Included min) (Bound.Included max) in
  decode_views (until_error iter).

Definition create_view (v : V) (or_replace : bool) : M unit :=
  let view_key := encode_view_key (view_name v) in
  let! value := lift (ser_view v) in
  let! found := get view_key in
  let already_exists := match found with Some _ => true | None => false end in
  if negb or_replace && already_exists then fail ViewExists else
  let! _ := if negb already_exists then check_name_hash (view_name v) else ret tt in
  let! _ := set view_key value in
  view_cache_put (view_name v) v.

Definition drop_view (name : bytes) (if_exists : bool) : M unit :=
  let! _ := drop_name_hash name in
  let! found := view name in
  match found with
  | None => if if_exists then ret tt else fail ViewNotFound
  | Some _ =>
      let! _ := remove (encode_view_key name) in
      view_cache_remove name
  end.

(** ** Statistics paths *)

Definition save_table_meta (table_name : bytes) (path : bytes) (index_id : Z) (meta : St) : M unit :=
  let! _ := meta_cache_put (table_name, index_id) meta in
  let '(key, value) := encode_statistics_path table_name index_id path in
  set key value.

Definition table_meta_path (table_name : bytes) (index_id : Z) : M (option bytes) :=
  let! found := get (encode_statistics_path_key table_name index_id) in
  match found with
  | Some bytes => if utf8_valid bytes then ret (Some bytes) else fail FromUtf8Error
  | None => ret None
  end.

Definition remove_table_meta (table_name : bytes) (index_id : Z) : M unit :=
  let! _ := remove (encode_statistics_path_key table_name index_id) in
  meta_cache_remove (table_name, index_id).

(** ** Columns and indexes *)

Definition add_index_meta (table_name : bytes) (index_name : bytes) (column_ids : list ColumnId)
    (ty : IndexType) : M Z :=
  let! found := table table_name in
  match found with
  | Some table =>
      let! '(index_meta, _) := lift (Catalog.add_index_meta index_name column_ids ty table) in
      let! _ := set_index_meta table_name index_meta in
      let! _ := table_cache_remove table_name in
      ret (im_id index_meta)
  | None => fail TableNotFound
  end.

Definition find_column (name : bytes) (t : TableCatalog E) : option (ColumnCatalog E) :=
  list.head (filter (fun c => column_name c = name) (schema_ref t)).

Definition add_column (generator : Generator) (table_name : bytes) (column : ColumnCatalog E)
    (if_not_exists : bool) : M ColumnId :=
  let! found := table table_name in
  match found with
  | Some table =>
      let! missing_default :=
        if negb (nullable column) then
          let! d := lift (default_value column) in
          ret (match d with None => true | Some _ => false end)
        else ret false in
      if missing_default then fail NeedNullAbleOrDefault else
      match find_column (column_name column) table with
      | Some col =>
          if if_not_exists then lift (unwrap (column_id col))
          else fail (DuplicateColumn (column_name column))
      | None =>
          let! '(col_id, table, _) := lift (Catalog.add_column column table generator) in
          let! table :=
            if is_unique (desc column) then
              let! '(meta_ref, table) :=
                lift (Catalog.add_index_meta (UK ++ column_name column) [col_id] Unique table) in
              let! _ := set_index_meta table_name meta_ref in
              ret table
            else ret table in
          let! column := lift (get_column_by_id table col_id) in
          let! column := lift (unwrap column) in
          let! _ := set_column column in
          let! _ := table_cache_remove table_name in
          ret col_id
      end
  | None => fail TableNotFound
  end.

Definition drop_column (table_name : bytes) (name : bytes) : M unit :=
  let! found := table table_name in
  match found with
  | Some table_catalog =>
      let! column := lift (get_column_by_name table_catalog name) in
      let! column := lift (unwrap column) in
      let! '(key, _) := lift (encode_column (relation (summary column)) (ser_column column)) in
      let! _ := remove key in
      let! _ :=
        for_each (fun index_meta =>
          let! id := lift (unwrap (column_id column)) in
          if negb (bool_decide (id ∈ column_ids index_meta)) then ret tt else
          let! '(index_meta_key, _) := lift (encode_index_meta table_name index_meta) in
          let! _ := remove index_meta_key in
          let! _ := _drop_data (index_bound table_name (im_id index_meta)) in
          remove_table_meta table_name (im_id index_meta)) (indexes table_catalog) in
      table_cache_remove table_name
  | None => fail TableNotFound
  end.

Definition drop_index (table_name : bytes) (index_name : bytes) (if_exists : bool) : M unit :=
  let! found := table table_name in
  let! table := lift (ok_or found TableNotFound) in
  match list.head (filter (fun index => im_name index = index_name) (indexes table)) with
  | None => if if_exists then ret tt else fail TableNotFound
  | Some index_meta =>
      match im_ty index_meta with
      | PrimaryKey _ | Unique => fail InvalidIndex
      | Normal | Composite =>
          let index_id := im_id index_meta in
          let! _ := remove (encode_index_meta_key table_name index_id) in
          let! _ := _drop_data (index_bound table_name index_id) in
          let! _ := remove (encode_statistics_path_key table_name index_id) in
          table_cache_remove table_name
      end
  end.

Definition is_primary_key (ty : IndexType) : bool :=
  match ty with PrimaryKey _ => true | _ => false end.

Definition add_index (table_name : bytes) (index : Index F) (tuple_id : TupleId) : M unit :=
  if is_primary_key (index_ty index) then ret tt else
  let! '(key, value) := lift (encode_index bincode table_name index tuple_id) in
  match index_ty index with
  | Unique =>
      let! found := get key in
      match found with
      | Some bytes => if bool_decide (bytes = value) then ret tt else fail DuplicateUniqueValue
      | None => set key value
      end
  | _ => set key value
  end.

Definition del_index (table_name : bytes) (index : Index F) (tuple_id : TupleId) : M unit :=
  if is_primary_key (index_ty index) then ret tt else
  let! key := lift (encode_index_key table_name index (Some tuple_id)) in
  remove key.

(** ** Tuples *)

Definition append_tuple (table_name : bytes) (tuple : Tuple F) (types : list LogicalType)
    (is_overwrite : bool) : M unit :=
  let! '(key, value) := lift (encode_tuple table_name tuple types) in
  let! exists_ :=
    if negb is_overwrite then
      let! found := get key in
      ret (match found with Some _ => true | None => false end)
    else ret false in
  if exists_ then fail DuplicatePrimaryKey else set key value.

Definition remove_tuple (table_name : bytes) (tuple_id : TupleId) : M unit :=
  let! key := lift (encode_tuple_key table_name tuple_id) in
  remove key.
End Storage.

(** ** Running the primitives *)

Section Runs.
Context {F : Foreign} {T : Type} {TX : Transaction T} {TL : TransactionLaws T}.
Context {TC VC MC : Type}.
#[local] Abbreviation Db := (Db T TC VC MC).
#[local] Abbreviation M := (M T TC VC MC).
Implicit Types (s : Db) (m : store).

(** The state after an operation that only wrote to the store: the caches are
    as before and the store holds [m]. *)
Definition wrote s m s' : Prop := s' = set_tx (tx s') s /\ contents (tx s') = m.

Lemma wrote_refl s : wrote s (contents (tx s)) s.
Proof. now destruct s. Qed.

Lemma wrote_trans s m s1 m' s2 : wrote s m s1 -> wrote s1 m' s2 -> wrote s m' s2.
Proof. intros [H1 _] [H2 <-]. split; [| reflexivity]. rewrite H2 at 1. now rewrite H1. Qed.

Lemma wrote_caches s m s' : wrote s m s' ->
  table_cache s' = table_cache s /\ view_cache s' = view_cache s /\ meta_cache s' = meta_cache s.
Proof. intros [-> _]. auto. Qed.

Lemma bind_ok {A B} (m : M A) (k : A -> M B) s a s' :
  m s = (Ok a, s') -> bind m k s = k a s'.
Proof. unfold bind. now intros ->. Qed.

Lemma get_run k s : get k s = (Ok (contents (tx s) !! k), s).
Proof. unfold get. now rewrite tx_get_ok. Qed.

Lemma set_run k v s : exists s', set k v s = (Ok tt, s') /\ wrote s (<[k := v]> (contents (tx s))) s'.
Proof.
  destruct (tx_set_ok (tx s) k v) as (t & Ht & Hc). unfold set. rewrite Ht. cbn [upd].
  eexists. split; [reflexivity |]. now split.
Qed.

Lemma remove_run k s : exists s', remove k s = (Ok tt, s') /\ wrote s (delete k (contents (tx s))) s'.
Proof.
  destruct (tx_remove_ok (tx s) k) as (t & Ht & Hc). unfold remove. rewrite Ht. cbn [upd].
  eexists. split; [reflexivity |]. now split.
Qed.

Definition delete_all (keys : list bytes) (m : store) : store := fold_left (fun m k => delete k m) keys m.

Lemma lookup_delete_all keys : forall m k,
  delete_all keys m !! k = if decide (k ∈ keys) then None else m !! k.
Proof.
  induction keys as [|k' keys IH]; intros m k; cbn.
  - destruct (decide (k ∈ [])) as [H|]; [now apply elem_of_nil in H | reflexivity].
  - fold (delete_all keys (delete k' m)). rewrite IH.
    destruct (decide (k ∈ keys)), (decide (k ∈ k' :: keys)) as [Hin|Hin];
      rewrite ?elem_of_cons in *; try tauto.
    + destruct Hin as [-> |]; [apply lookup_delete_eq | tauto].
    + apply lookup_delete_ne. intros ->. tauto.
Qed.

Lemma for_each_remove keys : forall s,
  exists s', for_each remove keys s = (Ok tt, s') /\ wrote s (delete_all keys (contents (tx s))) s'.
Proof.
  induction keys as [|k keys IH]; intros s; cbn [for_each].
  - exists s. split; [reflexivity | apply wrote_refl].
  - destruct (remove_run k s) as (s1 & H1 & W1). rewrite (bind_ok _ _ _ _ _ H1).
    destruct (IH s1) as (s2 & H2 & W2). exists s2. split; [exact H2 |].
    eapply wrote_trans; [exact W1 |]. destruct W1 as [_ W1]. cbn. now rewrite <- W1.
Qed.

Lemma collect_keys_ok l : collect_keys (map Ok l) = Ok (map fst l).
Proof. induction l as [|e l IH]; cbn; [reflexivity |]. now rewrite IH. Qed.

Lemma until_error_ok l : until_error (map Ok l) = l.
Proof. induction l as [|e l IH]; cbn; [reflexivity |]. now rewrite IH. Qed.

(** A range whose two ends extend the same prefix of at least 4 bytes. *)
Lemma scannable_prefix p a b :
  (PREFIX_LEN <= length p)%nat -> scannable (Bound.Included (p ++ a)) (Bound.Included (p ++ b)).
Proof.
  intros Hp. exists (take PREFIX_LEN p). rewrite length_take. split; [lia |].
  split; [exists (drop PREFIX_LEN p ++ a) | exists (drop PREFIX_LEN p ++ b)];
    cbn [bound_key_of]; now rewrite app_assoc, take_drop.
Qed.

(** The store without a range of keys. *)
Definition outside (bound : bytes * bytes) m : store :=
  filter (fun e => ~ within (Bound.Included bound.1) (Bound.Included bound.2) e.1) m.

Lemma lookup_outside bound m k :
  outside bound m !! k
  = if decide (within (Bound.Included bound.1) (Bound.Included bound.2) k) then None else m !! k.
Proof.
  unfold outside. destruct (decide _) as [H | H].
  - apply map_lookup_filter_None. right. intros v _ Hn. exact (Hn H).
  - destruct (m !! k) as [v|] eqn:E.
    + now apply map_lookup_filter_Some.
    + apply map_lookup_filter_None. now left.
Qed.

Lemma keys_ok_outside bound m : keys_ok m -> keys_ok (outside bound m).
Proof. intros H k v Hk. apply map_lookup_filter_Some in Hk as [Hk _]. exact (H k v Hk). Qed.

(** [_drop_data] removes exactly the keys of its range. *)
Lemma drop_range_run bound s :
  scannable (Bound.Included bound.1) (Bound.Included bound.2) -> keys_ok (contents (tx s)) ->
  exists s', _drop_data bound s = (Ok tt, s') /\ wrote s (outside bound (contents (tx s))) s'.
Proof.
  intros Hs Hk. unfold _drop_data, bind, range at 1. rewrite tx_range_ok by assumption. cbn [lift].
  unfold lift. rewrite collect_keys_ok.
  destruct (for_each_remove (map fst (scan (contents (tx s)) (Bound.Included bound.1) (Bound.Included bound.2))) s)
    as (s' & Hr & Hw & Hc). exists s'. split; [exact Hr |]. split; [exact Hw |]. rewrite Hc.
  apply map_eq. intros k. rewrite lookup_delete_all, lookup_outside.
  destruct (decide (k ∈ _)) as [Hin | Hin], (decide (within _ _ _)) as [Hb | Hb]; try reflexivity.
  - destruct Hb. apply list_elem_of_fmap in Hin as ([k' v] & -> & He). now apply elem_of_scan in He as [He _].
  - destruct (contents (tx s) !! k) as [v|] eqn:E; [| reflexivity]. destruct Hin.
    apply list_elem_of_fmap. exists (k, v). split; [reflexivity |]. now apply elem_of_scan.
Qed.

Lemma hash_bytes_length name : length (hash_bytes name) = 8%nat.
Proof. apply le_bytes_length. Qed.

Lemma scoped_scannable ty name : scoped ty = true ->
  scannable (Bound.Included (scope_bound ty name).1) (Bound.Included (scope_bound ty name).2).
Proof.
  intros Hs. destruct ty; try discriminate; cbn [scope_bound fst snd columns_bound index_meta_bound
    all_index_bound statistics_bound tuple_bound key_prefix]; apply scannable_prefix;
    rewrite length_app, hash_bytes_length; cbn; unfold PREFIX_LEN; lia.
Qed.

Definition in_scope (ty : CodecType) (name k : bytes) : Prop :=
  within (Bound.Included (scope_bound ty name).1) (Bound.Included (scope_bound ty name).2) k.

Lemma scope_prefix ty name k : scoped ty = true -> in_scope ty name k ->
  exists u, k = key_prefix ty name ++ u.
Proof.
  intros Hs [H1 H2]. destruct ty; try discriminate;
    exact (between_prefix (key_prefix _ name) [BOUND_MIN_TAG] [BOUND_MAX_TAG] k H1 H2).
Qed.

(** Ranges of different kinds, or of tables with different name hashes, are
    disjoint. *)
Lemma scopes_disjoint `{!ForeignLaws F} ty1 n1 ty2 n2 k :
  scoped ty1 = true -> scoped ty2 = true -> in_scope ty1 n1 k -> in_scope ty2 n2 k ->
  ty1 = ty2 /\ sip_hash n1 = sip_hash n2.
Proof.
  intros H1 H2 [u1 E1]%scope_prefix [u2 E2]%scope_prefix; try assumption.
  apply (scoped_prefix_inj ty1 n1 ty2 n2); try assumption.
  assert (Hl : length (key_prefix ty1 n1) = length (key_prefix ty2 n2))
    by (now rewrite !scoped_prefix_length).
  rewrite E1 in E2. apply app_inj_1 in E2 as [E2 _]; assumption.
Qed.

Lemma in_bound_within k b : in_bound k b -> within (Bound.Included b.1) (Bound.Included b.2) k.
Proof. intros [H1 H2]. split; [exact H1 |]. cbn. now rewrite H2. Qed.
End Runs.

(** ** Tables *)

Section Tables.
Context {F : Foreign} {FL : ForeignLaws F} {E : Type} {X : ExprOps E}.
Context {T : Type} {TX : Transaction T} {TL : TransactionLaws T}.
Context {V St TC VC MC : Type}.
Context {CT : Cache bytes (TableCatalog E) TC} {CTL : CacheLaws bytes (TableCatalog E) TC}.
Context {CV : Cache bytes V VC} {CVL : CacheLaws bytes V VC}.
Context {CM : Cache (bytes * Z) St MC}.
Context {Codec : CatalogCodec E V T TC}.
#[local] Abbreviation Db := (Db T TC VC MC).
Implicit Types (s : Db) (m : store) (name : bytes).

(** Keys are byte strings and the caches are well formed. *)
Definition db_ok s : Prop :=
  keys_ok (contents (tx s)) /\ cache_ok (table_cache s) /\ cache_ok (view_cache s).

Lemma wrote_ok s m s' : db_ok s -> wrote s m s' -> keys_ok m -> db_ok s'.
Proof. intros (_ & H2 & H3) [Hw <-] Hk. rewrite Hw. now repeat split. Qed.

(** Dropping a table's data removes exactly its data: every tuple, index
    and statistics key of the table goes, and every other key of the store,
    the table's columns and index metadata and the data of tables with another
    name hash, stays as it was; the caches are not touched. *)
Theorem drop_data_exact name s :
  db_ok s ->
  exists s', drop_data name s = (Ok tt, s') /\ db_ok s'
    /\ (forall id k, encode_tuple_key name id = Ok k -> contents (tx s') !! k = None)
    /\ (forall index id k, encode_index_key name index id = Ok k -> contents (tx s') !! k = None)
    /\ (forall id, contents (tx s') !! encode_statistics_path_key name id = None)
    /\ (forall ty n k, scoped ty = true -> in_bound k (scope_bound ty n) ->
          sip_hash n <> sip_hash name \/ ty = CodecType.Column \/ ty = CodecType.IndexMeta ->
          contents (tx s') !! k = contents (tx s) !! k)
    /\ table_cache s' = table_cache s /\ view_cache s' = view_cache s.
Proof.
  intros Hok. pose proof Hok as (Hk & _).
  destruct (drop_range_run (tuple_bound name) s) as (s1 & R1 & W1);
    [apply (scoped_scannable CodecType.Tuple); reflexivity | exact Hk |].
  assert (Hk1 : keys_ok (contents (tx s1))) by (destruct W1 as [_ ->]; now apply keys_ok_outside).
  destruct (drop_range_run (all_index_bound name) s1) as (s2 & R2 & W2);
    [apply (scoped_scannable CodecType.Index); reflexivity | exact Hk1 |].
  assert (Hk2 : keys_ok (contents (tx s2))) by (destruct W2 as [_ ->]; now apply keys_ok_outside).
  destruct (drop_range_run (statistics_bound name) s2) as (s3 & R3 & W3);
    [apply (scoped_scannable CodecType.Statistics); reflexivity | exact Hk2 |].
  assert (W : wrote s (outside (statistics_bound name) (outside (all_index_bound name)
                (outside (tuple_bound name) (contents (tx s))))) s3).
  { eapply wrote_trans; [exact W1 |]. eapply wrote_trans; [exact W2 |].
    destruct W1 as [_ <-]. destruct W2 as [_ <-]. exact W3. }
  exists s3. split.
  { unfold drop_data. now rewrite (bind_ok _ _ _ _ _ R1), (bind_ok _ _ _ _ _ R2). }
  split; [eapply wrote_ok; [exact Hok | exact W | now do 3 apply keys_ok_outside] |].
  destruct (wrote_caches _ _ _ W) as (Ht & Hv & _).
  assert (Hl : forall k, contents (tx s3) !! k
    = if decide (in_scope CodecType.Tuple name k \/ in_scope CodecType.Index name k
                 \/ in_scope CodecType.Statistics name k) then None else contents (tx s) !! k).
  { intros k. destruct W as [_ ->]. rewrite !lookup_outside. unfold in_scope. cbn [scope_bound].
    repeat destruct (decide _); tauto || reflexivity. }
  assert (Hgone : forall ty k, ty = CodecType.Tuple \/ ty = CodecType.Index \/ ty = CodecType.Statistics ->
    in_bound k (scope_bound ty name) -> contents (tx s3) !! k = None).
  { intros ty k Hty Hb%in_bound_within. rewrite Hl. destruct (decide _) as [|Hn]; [reflexivity |].
    destruct Hn. unfold in_scope. destruct Hty as [-> | [-> | ->]]; auto. }
  split; [| split; [| split; [| split; [| split; assumption]]]].
  - intros id k Hkey. apply (Hgone CodecType.Tuple); [auto |].
    unfold encode_tuple_key in Hkey. inv_ok. apply memcomparable_encode_extends in Hkey as [u ->].
    rewrite <- app_assoc. apply in_bound_prefix.
  - intros index id k Hkey. apply (Hgone CodecType.Index); [auto |].
    destruct (index_key_extends name index id k Hkey) as [u ->]. apply in_bound_prefix.
  - intros id. apply (Hgone CodecType.Statistics); [auto |]. apply in_bound_prefix.
  - intros ty n k Hty Hb Hne. rewrite Hl. destruct (decide _) as [Hin | _]; [exfalso | reflexivity].
    apply in_bound_within in Hb. fold (in_scope ty n k) in Hb.
    assert (Hd : forall ty', scoped ty' = true -> in_scope ty' name k -> ty = ty' /\ sip_hash n = sip_hash name)
      by (intros ty' Hty' Hin'; now apply (scopes_disjoint ty n ty' name k)).
    destruct Hin as [Hin | [Hin | Hin]]; apply Hd in Hin as [-> ?]; try reflexivity; intuition congruence.
Qed.

(** *** The catalog lookup *)

Lemma table_tx name s r s1 : table name s = (r, s1) -> tx s1 = tx s.
Proof.
  unfold table, bind, table_cache_get, table_cache_get_or_insert, upd.
  destruct (cache_get name (table_cache s)) as [[[t|] c] | |]; cbn [fst snd].
  - intros [= _ <-]. reflexivity.
  - unfold table_collect, bind, range, lift, ret. destruct (table_bound name) as [lo hi].
    cbn [tx set_table_cache]. destruct (tx_range _ _ _) as [it | |]; [| intros [= _ <-]; reflexivity ..].
    destruct (collect_table _ _ _ _ _) as [[[|col cols] metas] | |];
      try (intros [= _ <-]; reflexivity). cbn [table_cache].
    destruct (cache_get_or_insert _ _ _) as [[t c'] | |]; intros [= _ <-]; reflexivity.
  - intros [= _ <-]. reflexivity.
  - intros [= _ <-]. reflexivity.
Qed.

(** A cached table is returned as it is. *)
Lemma table_hit name s t : db_ok s -> cached (table_cache s) name = Some t ->
  exists s1, table name s = (Ok (Some t), s1) /\ tx s1 = tx s /\ db_ok s1
    /\ view_cache s1 = view_cache s
    /\ forall n, cached (table_cache s1) n = cached (table_cache s) n.
Proof.
  intros (Hk & Ht & Hv) Hc. destruct (cache_get_ok (table_cache s) name Ht) as (c & Hg & Hok & Hsame).
  exists (set_table_cache c s). unfold table, bind, table_cache_get, upd. rewrite Hg. cbn [fst snd].
  rewrite Hc. now repeat split.
Qed.

(** What the store knows of a table. *)
Definition stored_table name m : Result (option (list (ColumnCatalog E) * list IndexMeta)) :=
  let '(lo, hi) := table_bound name in
  let? '(columns, metas) :=
    collect_table name lo (scan m (Bound.Included lo) (Bound.Included hi)) [] [] in
  Ok (match columns with [] => None | _ => Some (columns, metas) end).

Lemma table_bound_scannable name :
  scannable (Bound.Included (table_bound name).1) (Bound.Included (table_bound name).2).
Proof.
  unfold table_bound, key_prefix. cbn [fst snd]. rewrite <- !app_assoc. apply scannable_prefix.
  rewrite hash_bytes_length. unfold PREFIX_LEN. lia.
Qed.

Lemma table_collect_run name s : keys_ok (contents (tx s)) ->
  table_collect name s = (stored_table name (contents (tx s)), s).
Proof.
  intros Hk. pose proof (table_bound_scannable name) as Hs.
  unfold table_collect, stored_table, bind, range, lift, ret.
  destruct (table_bound name) as [lo hi]. cbn [fst snd] in Hs.
  rewrite tx_range_ok, until_error_ok by assumption.
  destruct (collect_table _ _ _ _ _) as [[columns metas] | |]; reflexivity.
Qed.

(** A table that is not cached is read from the store and cached. *)
Lemma table_miss name s : db_ok s -> cached (table_cache s) name = None ->
  match stored_table name (contents (tx s)) with
  | Ok None => exists s1, table name s = (Ok None, s1) /\ tx s1 = tx s /\ db_ok s1
      /\ view_cache s1 = view_cache s
      /\ forall n, cached (table_cache s1) n = cached (table_cache s) n
  | Ok (Some (columns, metas)) => forall t, reload name columns metas = Ok t ->
      exists s1, table name s = (Ok (Some t), s1) /\ tx s1 = tx s /\ db_ok s1
        /\ view_cache s1 = view_cache s /\ cached (table_cache s1) name = Some t
  | _ => True
  end.
Proof.
  intros (Hk & Ht & Hv) Hc. destruct (cache_get_ok (table_cache s) name Ht) as (c & Hg & Hok & Hsame).
  assert (Hrun : table name s
    = (let! collected := table_collect name in
       match collected with
       | None => ret None
       | Some (columns, indexes) =>
           let! t := table_cache_get_or_insert name (fun _ => reload name columns indexes) in
           ret (Some t)
       end) (set_table_cache c s)).
  { unfold table at 1, bind at 1, table_cache_get, upd. rewrite Hg. cbn [fst snd]. now rewrite Hc. }
  rewrite Hrun. unfold bind at 1 3. rewrite table_collect_run by exact Hk. cbn [tx set_table_cache].
  destruct (stored_table name (contents (tx s))) as [[[columns metas]|] | |]; [| | exact I | exact I].
  - intros t Hr. unfold bind, table_cache_get_or_insert, upd. cbn [table_cache set_table_cache].
    destruct (cache_insert_miss c name (fun _ => reload name columns metas) t Hok) as (c' & Hi & Hok' & Hn & _).
    { now rewrite Hsame. } { exact Hr. }
    rewrite Hi. cbn [fst snd]. eexists. split; [reflexivity |]. cbn. now repeat split.
  - eexists. split; [reflexivity |]. cbn. now repeat split.
Qed.

(** *** Dropping tables *)

(** The keys a table owns. *)
Definition owned name (k : bytes) : Prop :=
  in_scope CodecType.Tuple name k \/ in_scope CodecType.Index name k
  \/ in_scope CodecType.Statistics name k \/ in_scope CodecType.Column name k
  \/ in_scope CodecType.IndexMeta name k
  \/ k = encode_table_hash_key name \/ k = encode_root_table_key name.
#[local] Instance in_scope_dec ty name k : Decision (in_scope ty name k).
Proof. unfold in_scope. apply _. Defined.
#[local] Instance owned_dec name k : Decision (owned name k).
Proof. unfold owned. apply _. Defined.

(** Between the first column key and the last index-metadata key there are only
    column and index-metadata keys. *)
Definition well_keyed name m : Prop :=
  forall k v, m !! k = Some v ->
  within (Bound.Included (table_bound name).1) (Bound.Included (table_bound name).2) k ->
  in_scope CodecType.Column name k \/ in_scope CodecType.IndexMeta name k.

(** Drop the five ranges of a table and its two single keys. *)
Lemma drop_ranges_run name s : db_ok s ->
  exists s', (let! _ := drop_name_hash name in
              let! _ := drop_data name in
              let! _ := _drop_data (columns_bound name) in
              let! _ := _drop_data (index_meta_bound name) in
              remove (encode_root_table_key name)) s = (Ok tt, s')
    /\ exists m, wrote s m s' /\ keys_ok m
       /\ forall k, m !! k = if decide (owned name k) then None else contents (tx s) !! k.
Proof.
  intros Hok. pose proof Hok as (Hk & _).
  destruct (remove_run (encode_table_hash_key name) s) as (s0 & R0 & W0).
  assert (Hdel : forall k m, keys_ok m -> keys_ok (delete k m)).
  { intros k m Hm k' v Hk'. apply lookup_delete_Some in Hk' as [_ Hk']. exact (Hm k' v Hk'). }
  assert (Hok0 : db_ok s0) by (eapply wrote_ok; [exact Hok | exact W0 | now apply Hdel]).
  assert (Hstep : forall s ty, db_ok s -> scoped ty = true ->
    exists s', _drop_data (scope_bound ty name) s = (Ok tt, s')
      /\ wrote s (outside (scope_bound ty name) (contents (tx s))) s' /\ db_ok s').
  { intros s' ty Hok' Hty. pose proof Hok' as (Hk' & _).
    destruct (drop_range_run (scope_bound ty name) s' (scoped_scannable ty name Hty) Hk') as (s2 & R & W).
    exists s2. split; [exact R |]. split; [exact W |].
    eapply wrote_ok; [exact Hok' | exact W | now apply keys_ok_outside]. }
  destruct (Hstep s0 CodecType.Tuple Hok0 eq_refl) as (s1 & R1 & W1 & Hok1).
  destruct (Hstep s1 CodecType.Index Hok1 eq_refl) as (s2 & R2 & W2 & Hok2).
  destruct (Hstep s2 CodecType.Statistics Hok2 eq_refl) as (s3 & R3 & W3 & Hok3).
  destruct (Hstep s3 CodecType.Column Hok3 eq_refl) as (s4 & R4 & W4 & Hok4).
  destruct (Hstep s4 CodecType.IndexMeta Hok4 eq_refl) as (s5 & R5 & W5 & Hok5).
  destruct (remove_run (encode_root_table_key name) s5) as (s6 & R6 & W6).
  exists s6. cbn [scope_bound] in *. split.
  { unfold drop_name_hash, drop_data. rewrite (bind_ok _ _ _ _ _ R0).
    rewrite (bind_ok _ _ s0 tt s3); [| now rewrite (bind_ok _ _ _ _ _ R1), (bind_ok _ _ _ _ _ R2)].
    now rewrite (bind_ok _ _ _ _ _ R4), (bind_ok _ _ _ _ _ R5). }
  exists (contents (tx s6)). split.
  { assert (W : wrote s (delete (encode_root_table_key name) (contents (tx s5))) s6)
      by (exact (wrote_trans _ _ _ _ _ (wrote_trans _ _ _ _ _ (wrote_trans _ _ _ _ _ (wrote_trans _ _ _ _ _
            (wrote_trans _ _ _ _ _ (wrote_trans _ _ _ _ _ W0 W1) W2) W3) W4) W5) W6)).
    split; [apply W | reflexivity]. }
  destruct W0 as [_ C0], W1 as [_ C1], W2 as [_ C2], W3 as [_ C3], W4 as [_ C4], W5 as [_ C5], W6 as [_ C6].
  split; [rewrite C6; apply Hdel; exact (proj1 Hok5) |].
  intros k. rewrite C6, C5, C4, C3, C2, C1, C0. unfold owned, in_scope. cbn [scope_bound].
  destruct (decide (k = encode_root_table_key name)) as [-> | Hr].
  { rewrite lookup_delete_eq. destruct (decide _); tauto || reflexivity. }
  rewrite lookup_delete_ne by congruence. rewrite !lookup_outside.
  destruct (decide (k = encode_table_hash_key name)) as [-> | Hh].
  { rewrite lookup_delete_eq. repeat destruct (decide _); tauto || reflexivity. }
  rewrite lookup_delete_ne by congruence.
  repeat destruct (decide _); tauto || reflexivity.
Qed.

(** C19. Dropping a table removes everything it owns and nothing else: tuples,
    index entries, statistics, columns, index metadata, the name hash and the
    root record go, every other key keeps its value, the table leaves the cache,
    and looking it up afterwards finds no table. *)
Theorem drop_table_exact name s t s1 if_exists :
  db_ok s -> db_ok s1 -> well_keyed name (contents (tx s)) -> table name s = (Ok (Some t), s1) ->
  exists s' s2, drop_table name if_exists s = (Ok tt, s')
    /\ (forall k, owned name k -> contents (tx s') !! k = None)
    /\ (forall k, ~ owned name k -> contents (tx s') !! k = contents (tx s) !! k)
    /\ table name s' = (Ok None, s2).
Proof.
  intros Hok Hok1 Hwk Ht. pose proof (table_tx _ _ _ _ Ht) as Htx.
  destruct (drop_ranges_run name s1 Hok1) as (s3 & R & m & W & Hkm & Hm).
  assert (Hok3 : db_ok s3) by (eapply wrote_ok; eassumption).
  pose proof Hok3 as (Hk3 & Hc3 & Hv3).
  destruct (cache_remove_ok (table_cache s3) name Hc3) as (old & c & Hrm & Hcok & Hnone & _).
  set (s4 := set_table_cache c s3).
  assert (Hdrop : drop_table name if_exists s = (Ok tt, s4)).
  { unfold drop_table. rewrite (bind_ok _ _ _ _ _ Ht).
    transitivity ((let! _ := (let! _ := drop_name_hash name in
                    let! _ := drop_data name in
                    let! _ := _drop_data (columns_bound name) in
                    let! _ := _drop_data (index_meta_bound name) in
                    remove (encode_root_table_key name)) in table_cache_remove name) s1).
    { unfold bind. repeat (destruct (_ s1) as [[] ?] || destruct (_ _ s1) as [[] ?]); try reflexivity.
      all: repeat match goal with |- context [match ?x with _ => _ end] => destruct x; try reflexivity end. }
    rewrite (bind_ok _ _ _ _ _ R). unfold table_cache_remove, upd. now rewrite Hrm. }
  assert (Hok4 : db_ok s4) by (split; [exact Hk3 |]; now split).
  assert (Hc : contents (tx s4) = m) by (destruct W as [_ W]; exact W).
  pose proof (table_miss name s4 Hok4 Hnone) as Hmiss.
  assert (Hstored : stored_table name (contents (tx s4)) = Ok None).
  { unfold stored_table. pose proof (table_bound_scannable name) as _. rewrite Hc.
    destruct (table_bound name) as [lo hi] eqn:Etb.
    replace (scan m (Bound.Included lo) (Bound.Included hi)) with (@nil kv); [reflexivity |].
    symmetry. apply elem_of_nil_inv. intros [k v] [Hw Hl]%elem_of_scan. cbn in Hw, Hl.
    rewrite Hm in Hl. destruct (decide (owned name k)) as [|Hno]; [discriminate |].
    rewrite Htx in Hl. destruct Hno. unfold owned.
    destruct (Hwk k v Hl) as [? | ?]; [rewrite Etb; exact Hw | tauto | tauto]. }
  rewrite Hstored in Hmiss. destruct Hmiss as (s5 & Ht5 & _).
  exists s4, s5. split; [exact Hdrop |]. rewrite Hc.
  split; [| split; [| exact Ht5]]; intros k Hko; rewrite Hm; destruct (decide (owned name k)); try tauto.
  now rewrite Htx.
Qed.

(** *** Names *)

Lemma check_name_hash_run name s :
  match contents (tx s) !! encode_table_hash_key name with
  | Some _ => check_name_hash name s = (Err (DuplicateSourceHash name), s)
  | None => exists s', check_name_hash name s = (Ok tt, s')
      /\ wrote s (<[encode_table_hash_key name := []]> (contents (tx s))) s'
  end.
Proof.
  unfold check_name_hash, encode_table_hash, bind. fold (encode_table_hash_key name).
  rewrite get_run. destruct (contents (tx s) !! encode_table_hash_key name); [reflexivity |].
  apply set_run.
Qed.

(** Tables and views share one name space: while a name is registered,
    creating a table of that name fails with [TableExists] or
    [DuplicateSourceHash] (or silently does nothing with IF NOT EXISTS on an
    existing table), and creating a view that does not exist yet fails with
    [DuplicateSourceHash]; neither writes anything to the store. *)
Theorem registered_name_is_taken name s h :
  contents (tx s) !! encode_table_hash_key name = Some h ->
  (forall gen cols t value, table_new name cols gen = Ok t ->
     Forall (fun p => check_primary_key_type (datatype p.2) = Ok tt) (primary_keys t) ->
     ser_table_meta name = Ok value ->
     contents (tx s) !! encode_root_table_key name = None ->
     create_table gen name cols false s = (Err (DuplicateSourceHash name), s))
  /\ (forall v value or_replace, view_name v = name -> ser_view v = Ok value ->
        contents (tx s) !! encode_view_key name = None ->
        create_view v or_replace s = (Err (DuplicateSourceHash name), s)).
Proof.
  intros Hh. pose proof (check_name_hash_run name s) as Hn. rewrite Hh in Hn. split.
  - intros gen cols t value Ht Hpk Hv Hr. unfold create_table, lift.
    rewrite (bind_ok _ _ s t s) by now rewrite Ht.
    rewrite (bind_ok _ _ s tt s).
    2:{ clear - Hpk. induction Hpk as [|p l Hp _ IH]; cbn [for_each]; [reflexivity |].
        rewrite (bind_ok _ _ s tt s) by now rewrite Hp. exact IH. }
    rewrite (bind_ok _ _ s value s) by now rewrite Hv.
    rewrite (bind_ok _ _ _ _ _ (get_run _ s)), Hr. unfold bind. now rewrite Hn.
  - intros v value or_replace <- Hv Hr. unfold create_view, lift.
    rewrite (bind_ok _ _ s value s) by now rewrite Hv.
    rewrite (bind_ok _ _ _ _ _ (get_run _ s)), Hr. rewrite andb_false_r. cbn [negb].
    unfold bind. now rewrite Hn.
Qed.

(** DROP VIEW IF EXISTS on the name of a table unregisters the table: it
    succeeds, removes the table's name hash and nothing else, and a view of the
    same name can be created next to the table. *)
Theorem drop_view_unregisters_table name s v value :
  db_ok s -> cached (view_cache s) name = None ->
  contents (tx s) !! encode_view_key name = None ->
  view_name v = name -> ser_view v = Ok value ->
  exists s1 s2, drop_view name true s = (Ok tt, s1)
    /\ contents (tx s1) = delete (encode_table_hash_key name) (contents (tx s))
    /\ create_view v false s1 = (Ok tt, s2)
    /\ contents (tx s2) !! encode_root_table_key name = contents (tx s) !! encode_root_table_key name.
Proof.
  intros Hok Hc Hnv <- Hv. set (name := view_name v) in *.
  destruct (remove_run (encode_table_hash_key name) s) as (s0 & R0 & W0).
  pose proof W0 as [E0 C0]. pose proof Hok as (_ & _ & Hvok).
  destruct (cache_get_ok (view_cache s) name Hvok) as (c & Hg & Hcok & Hsame).
  assert (Hg0 : cache_get name (view_cache s0) = Ok (None, c)) by (rewrite E0, <- Hc; exact Hg).
  set (s1 := set_view_cache c s0).
  assert (Hn1 : contents (tx s1) !! encode_view_key name = None).
  { cbn. rewrite C0, lookup_delete_ne by discriminate. exact Hnv. }
  assert (Hdrop : drop_view name true s = (Ok tt, s1)).
  { unfold drop_view, drop_name_hash. rewrite (bind_ok _ _ _ _ _ R0).
    rewrite (bind_ok _ _ s0 None s1); [reflexivity |].
    unfold view. rewrite (bind_ok _ _ s0 None s1).
    - rewrite (bind_ok _ _ _ _ _ (get_run _ s1)), Hn1. reflexivity.
    - unfold view_cache_get, upd. now rewrite Hg0. }
  pose proof (check_name_hash_run name s1) as Hh. cbn [tx s1 set_view_cache] in Hh.
  rewrite C0, lookup_delete_eq in Hh. destruct Hh as (s2 & R2 & W2).
  destruct (set_run (encode_view_key name) value s2) as (s3 & R3 & W3).
  assert (Hc3 : view_cache s3 = c) by (destruct W3 as [-> _], W2 as [-> _]; reflexivity).
  destruct (cache_put_ok c name v Hcok) as (old & c' & Hp & _).
  exists s1, (set_view_cache c' s3). split; [exact Hdrop |]. split; [exact C0 |]. split.
  - unfold create_view, lift. rewrite (bind_ok _ _ s1 value s1) by now rewrite Hv.
    rewrite (bind_ok _ _ _ _ _ (get_run _ s1)). fold name. rewrite Hn1. cbn [negb andb].
    rewrite (bind_ok _ _ _ _ _ R2), (bind_ok _ _ _ _ _ R3).
    unfold view_cache_put, upd. now rewrite Hc3, Hp.
  - cbn [tx set_view_cache]. destruct W3 as [_ ->], W2 as [_ ->].
    rewrite !lookup_insert_ne by discriminate.
    now rewrite lookup_delete_ne by discriminate.
Qed.
End Tables.

(** ** Witnesses

    A database over the reference store, with one-shard caches; a column is
    stored as its name, a view is its name. *)

Module RefStore.
Section RefStore.
Context {F : Foreign}.

#[global] Instance unit_expr : ExprOps unit := {|
  has_table_ref_column _ := false;
  eval_none _ := Ok DV.Null
|}.

Abbreviation TableShards := (list (LruCache (list Z) (TableCatalog unit))).
Abbreviation ViewShards := (list (LruCache (list Z) (list Z))).
Abbreviation MetaShards := (list (LruCache (list Z * Z) unit)).
#[global] Instance table_lru : Cache (list Z) (TableCatalog unit) TableShards := shared_lru (fun _ => 0).
#[global] Instance table_lru_laws : CacheLaws (list Z) (TableCatalog unit) TableShards :=
  shared_lru_laws (fun _ => 0).
#[global] Instance view_lru : Cache (list Z) (list Z) ViewShards := shared_lru (fun _ => 0).
#[global] Instance view_lru_laws : CacheLaws (list Z) (list Z) ViewShards := shared_lru_laws (fun _ => 0).
#[global] Instance meta_lru : Cache (list Z * Z) unit MetaShards := shared_lru (fun _ => 0).

#[global] Instance ref_codec : CatalogCodec unit (list Z) store TableShards := {|
  ser_column c := Ok (column_name c);
  de_column name b :=
    Ok (mk_column (mk_summary b (TableRelation b name false)) true
          (mk_desc LT.Integer (Some 0%nat) false None) false);
  ser_index_meta m := Ok (le_bytes 4 (im_id m));
  de_index_meta b :=
    Ok (mk_index_meta (of_le b) [] [] LT.Integer LT.Integer b (PrimaryKey false));
  ser_table_meta name := Ok name;
  de_table_meta b := Ok b;
  view_name v := v;
  ser_view v := Ok v;
  de_view b _ tc := (Ok b, tc);
  bincode _ := [];
  unbincode _ := Ok DV.Null
|}.

Definition empty_shards {K} `{Countable K} {V} : list (LruCache K V) := [mk_lru ∅ 0%nat None None [] 4%nat].
Lemma empty_shards_ok {K} `{Countable K} {V} : shards_ok (empty_shards (K := K) (V := V)).
Proof. apply (shared_new_ok 4 1). reflexivity. Qed.

Definition ref_db (m : store) : Db store TableShards ViewShards MetaShards :=
  mk_db m empty_shards empty_shards empty_shards.

Lemma ref_db_ok m : keys_ok m -> db_ok (ref_db m).
Proof. intros Hm. split; [exact Hm |]. split; apply empty_shards_ok. Qed.
End RefStore.
End RefStore.

Section Witnesses.
#[local] Existing Instance RefForeign.ref_foreign.
#[local] Existing Instance RefForeign.ref_laws.
Import RefStore.

(** A store with the column "a" of the table "t" and one tuple. *)
Definition t_store : store :=
  {[ key_prefix CodecType.Column [116] ++ [0; 97] := [97];
     key_prefix CodecType.Tuple [116] ++ [0; 128; 0; 0; 7] := [0; 7; 0; 0; 0] ]}.

Lemma t_store_ok : keys_ok t_store.
Proof.
  apply map_Forall_insert_2; [| apply map_Forall_singleton];
    repeat constructor; unfold is_byte; vm_compute; intuition discriminate.
Qed.

Lemma drop_data_exact_witness :
  exists s', drop_data [116] (ref_db t_store) = (Ok tt, s') /\ db_ok s'
    /\ (forall id k, encode_tuple_key [116] id = Ok k -> contents (tx s') !! k = None)
    /\ (forall index id k, encode_index_key [116] index id = Ok k -> contents (tx s') !! k = None)
    /\ (forall id, contents (tx s') !! encode_statistics_path_key [116] id = None)
    /\ (forall ty n k, scoped ty = true -> in_bound k (scope_bound ty n) ->
          sip_hash n <> sip_hash [116] \/ ty = CodecType.Column \/ ty = CodecType.IndexMeta ->
          contents (tx s') !! k = contents (tx (ref_db t_store)) !! k)
    /\ table_cache s' = empty_shards /\ view_cache s' = empty_shards.
Proof. apply (drop_data_exact [116] (ref_db t_store)), ref_db_ok, t_store_ok. Defined.

Lemma drop_table_exact_witness :
  exists s s' s2 : Db store (list (LruCache (list Z) (TableCatalog unit)))
                     (list (LruCache (list Z) (list Z))) (list (LruCache (list Z * Z) unit)),
    contents (tx s) = t_store /\ drop_table [116] false s = (Ok tt, s')
    /\ (forall k, owned [116] k -> contents (tx s') !! k = None)
    /\ table [116] s' = (Ok None, s2).
Proof.
  destruct (cache_put_ok (CacheLaws := table_lru_laws) empty_shards [116] (empty_table (E := unit) [116])
              empty_shards_ok)
    as (old & c & _ & Hc & Ht & _).
  set (s := set_table_cache c (ref_db t_store)).
  assert (Hok : db_ok s) by (split; [exact t_store_ok |]; split; [exact Hc | exact empty_shards_ok]).
  destruct (table_hit [116] s _ Hok Ht) as (s1 & Hhit & _ & Hok1 & _).
  destruct (drop_table_exact [116] s (empty_table (E := unit) [116]) s1 false Hok Hok1) as (s' & s2 & Hd & Hown & _ & Hn).
  - intros k v Hk [Hlo Hhi]. change (t_store !! k = Some v) in Hk.
    unfold t_store in Hk. apply lookup_insert_Some in Hk as [[<- _] | [_ Hk]].
    + left. split; discriminate.
    + apply lookup_singleton_Some in Hk as [<- _]. exfalso. apply Hhi. reflexivity.
  - exact Hhit.
  - exists s, s', s2. auto.
Defined.

Lemma registered_name_is_taken_witness :
  create_view [116] false (ref_db {[ encode_table_hash_key [116] := [] ]})
  = (Err (DuplicateSourceHash [116]), ref_db {[ encode_table_hash_key [116] := [] ]}).
Proof.
  refine (proj2 (registered_name_is_taken [116] (ref_db {[ encode_table_hash_key [116] := [] ]}) [] _)
            [116] [116] false eq_refl eq_refl _).
  - apply lookup_singleton_eq.
  - apply lookup_singleton_ne. discriminate.
Defined.

Lemma drop_view_unregisters_table_witness :
  exists s1 s2,
    drop_view [116] true (ref_db {[ encode_table_hash_key [116] := [] ]}) = (Ok tt, s1)
    /\ contents (tx s1) = delete (encode_table_hash_key [116])
                             (contents (tx (ref_db {[ encode_table_hash_key [116] := [] ]})))
    /\ create_view [116] false s1 = (Ok tt, s2)
    /\ contents (tx s2) !! encode_root_table_key [116]
       = contents (tx (ref_db {[ encode_table_hash_key [116] := [] ]})) !! encode_root_table_key [116].
Proof.
  apply (drop_view_unregisters_table [116] (ref_db {[ encode_table_hash_key [116] := [] ]}) [116] [116]).
  - apply ref_db_ok, map_Forall_singleton. repeat constructor; unfold is_byte; vm_compute; intuition discriminate.
  - reflexivity.
  - apply lookup_singleton_ne. discriminate.
  - reflexivity.
  - reflexivity.
Defined.
End Witnesses.
