(* ===== verification/Readers.v ===== *)
(** * Readers

    The sequential reader [TupleIter] and the index reader [IndexIter] of
    src/src/storage/mod.rs, with [read], [read_by_index] and the four index
    implementations behind [IndexImpl]. *)

From stdpp Require Import gmap sorting.
From S2P Require Import Prelude Bytes Types LogicalTypes Values Evaluators Cast Memcomparable.
From S2P Require Import TupleCodec TableCodec RangeDetacher KvStore Cache Catalog Storage.

Section Readers.
Context {F : Foreign} {CF : CastForeign} {E : Type} {X : ExprOps E}.
Context {T : Type} {TX : Transaction T}.
Context {V St : Type} {TC VC MC : Type}.
Context {CT : Cache bytes (TableCatalog E) TC} {CV : Cache bytes V VC} {CM : Cache (bytes * Z) St MC}.
Context {Codec : CatalogCodec E V T TC}.
#[local] Abbreviation Db := (Db T TC VC MC).
#[local] Abbreviation M := (M T TC VC MC).

(** ** The sequential reader *)

(** A [BTreeMap<usize, ColumnRef>] is its list of entries in key order. *)
Fixpoint btree_insert {A} (k : nat) (a : A) (m : list (nat * A)) : list (nat * A) :=
  match m with
  | [] => [(k, a)]
  | (k', a') :: m' =>
      if (k <? k')%nat then (k, a) :: m
      else if (k =? k')%nat then (k, a) :: m'
      else (k', a') :: btree_insert k a m'
  end.

(** The position of an element of a sorted list without duplicates: what
    [binary_search] returns. *)
Fixpoint position (x : nat) (l : list nat) : option nat :=
  match l with
  | [] => None
  | y :: l' => if (x =? y)%nat then Some 0%nat else option_map Nat.succ (position x l')
  end.
Definition remap_pk_indices (projection pk_indices : list nat) : list nat :=
  omap (fun pk => position pk projection) pk_indices.

(** The columns a reader returns: those asked for, and the primary keys when
    none is asked for or the tuple id is needed. *)
Definition reader_columns (t : TableCatalog E) (columns : list (nat * ColumnCatalog E)) (with_pk : bool)
  : list (nat * ColumnCatalog E) :=
  if (length columns =? 0)%nat || with_pk
  then fold_left (fun m p => btree_insert p.1 p.2 m) (primary_keys t) columns
  else columns.

Record TupleIter := mk_tuple_iter {
  ti_offset : nat;
  ti_limit : option nat;
  ti_types : list LogicalType;
  ti_columns : list (ColumnCatalog E);
  ti_pk_indices : list nat;
  ti_projections : list nat;
  ti_with_pk : bool;
  ti_iter : KvIter
}.

Definition read (table_name : bytes) (bounds : option nat * option nat)
    (columns : list (nat * ColumnCatalog E)) (with_pk : bool) : M TupleIter :=
  let! found := table table_name in
  let! table := lift (ok_or found TableNotFound) in
  let columns := reader_columns table columns with_pk in
  let tuple_columns := map snd columns in
  let projections := map fst columns in
  let '(min, max) := tuple_bound table_name in
  let! iter := range (Bound.Included min) (Bound.Included max) in
  ret (mk_tuple_iter (default 0%nat bounds.1) bounds.2 (types table) tuple_columns
         (remap_pk_indices projections (primary_key_indices table)) projections with_pk iter).

Definition set_iter (it : TupleIter) (offset : nat) (limit : option nat) (iter : KvIter) : TupleIter :=
  mk_tuple_iter offset limit (ti_types it) (ti_columns it) (ti_pk_indices it) (ti_projections it)
    (ti_with_pk it) iter.

(** [while self.offset > 0 { if self.iter.try_next()?.is_none() { .. } .. }]. *)
Fixpoint skip_offset (offset : nat) (iter : KvIter) : Result bool * (nat * KvIter) :=
  match offset with
  | O => (Ok true, (O, iter))
  | S offset' =>
      match try_next iter with
      | (Ok None, iter) => (Ok false, (offset, iter))
      | (Ok (Some _), iter) => skip_offset offset' iter
      | (Err e, iter) => (Err e, (offset, iter))
      | (Panic, iter) => (Panic, (offset, iter))
      end
  end.

Definition decode_tuple (types : list LogicalType) (pk_indices projections : list nat)
    (columns : list (ColumnCatalog E)) (value : bytes) (with_pk : bool) : Result (Tuple F) :=
  deserialize_from types pk_indices projections (length columns) value with_pk.

Definition next_tuple (it : TupleIter) : Result (option (Tuple F)) * TupleIter :=
  match skip_offset (ti_offset it) (ti_iter it) with
  | (Ok true, (offset, iter)) =>
      match try_next iter with
      | (Ok (Some (_, value)), iter) =>
          match ti_limit it with
          | Some O => (Ok None, set_iter it offset (Some O) iter)
          | limit =>
              let limit := match limit with Some n => Some (n - 1)%nat | None => None end in
              let it := set_iter it offset limit iter in
              (let? tuple := decode_tuple (ti_types it) (ti_pk_indices it) (ti_projections it)
                               (ti_columns it) value (ti_with_pk it) in Ok (Some tuple), it)
          end
      | (Ok None, iter) => (Ok None, set_iter it offset (ti_limit it) iter)
      | (Err e, iter) => (Err e, set_iter it offset (ti_limit it) iter)
      | (Panic, iter) => (Panic, set_iter it offset (ti_limit it) iter)
      end
  | (Ok false, (offset, iter)) => (Ok None, set_iter it offset (ti_limit it) iter)
  | (Err e, (offset, iter)) => (Err e, set_iter it offset (ti_limit it) iter)
  | (Panic, (offset, iter)) => (Panic, set_iter it offset (ti_limit it) iter)
  end.

(** ** Index lookups *)

Record IndexImplParams := mk_params {
  tuple_schema_ref : list (ColumnCatalog E);
  projections : list nat;
  index_meta : IndexMeta;
  ip_table_name : bytes;
  table_types : list LogicalType;
  with_pk : bool;
  ip_tx : T
}.

Inductive IndexResult :=
| RTuple (tuple : option (Tuple F))
| RScope (iter : KvIter).

Definition try_cast (params : IndexImplParams) (val : DataValue) : Result DataValue :=
  let value_ty := value_ty (index_meta params) in
  if decide (logical_type val = value_ty) then Ok val else cast val value_ty.

Definition decode_row (params : IndexImplParams) (pk_indices : list nat) (bytes : bytes)
  : Result (Tuple F) :=
  decode_tuple (table_types params) pk_indices (projections params) (tuple_schema_ref params) bytes
    (with_pk params).

Definition get_tuple_by_id (params : IndexImplParams) (pk_indices : list nat) (tuple_id : TupleId)
  : Result (option (Tuple F)) :=
  let? key := encode_tuple_key (ip_table_name params) tuple_id in
  let? found := tx_get (ip_tx params) key in
  match found with
  | Some bytes => let? t := decode_row params pk_indices bytes in Ok (Some t)
  | None => Ok None
  end.

(** [TableCodec::decode_index]. *)
Definition decode_index (bytes : bytes) : Result TupleId := unbincode bytes.

Definition secondary_index_lookup (bytes : bytes) (pk_indices : list nat) (params : IndexImplParams)
  : Result (Tuple F) :=
  let? tuple_id := decode_index bytes in
  let? found := get_tuple_by_id params pk_indices tuple_id in
  ok_or found (TupleIdNotFound tuple_id).

(** The trait [IndexImpl] as a record of its three methods. *)
Record IndexImpl := mk_impl {
  impl_index_lookup : bytes -> list nat -> IndexImplParams -> Result (Tuple F);
  impl_eq_to_res : DataValue -> list nat -> IndexImplParams -> Result IndexResult;
  impl_bound_key : IndexImplParams -> DataValue -> bool -> Result bytes
}.

Definition pk_index_lookup (bytes : bytes) (pk_indices : list nat) (params : IndexImplParams)
  : Result (Tuple F) :=
  decode_row params pk_indices bytes.
Definition pk_eq_to_res (value : DataValue) (pk_indices : list nat) (params : IndexImplParams)
  : Result IndexResult :=
  let? key := encode_tuple_key (ip_table_name params) value in
  let? found := tx_get (ip_tx params) key in
  match found with
  | Some bytes => let? t := decode_row params pk_indices bytes in Ok (RTuple (Some t))
  | None => Ok (RTuple None)
  end.
Definition pk_bound_key (params : IndexImplParams) (value : DataValue) (_ : bool) : Result bytes :=
  encode_tuple_key (ip_table_name params) value.
Definition PrimaryKeyIndexImpl : IndexImpl := mk_impl pk_index_lookup pk_eq_to_res pk_bound_key.

Definition unique_bound_key (params : IndexImplParams) (value : DataValue) (_ : bool) : Result bytes :=
  let index := mk_index (im_id (index_meta params)) value Unique in
  encode_index_key (ip_table_name params) index None.
Definition unique_eq_to_res (value : DataValue) (pk_indices : list nat) (params : IndexImplParams)
  : Result IndexResult :=
  let? key := unique_bound_key params value false in
  let? found := tx_get (ip_tx params) key in
  match found with
  | None => Ok (RTuple None)
  | Some bytes =>
      let? tuple_id := decode_index bytes in
      let? found := get_tuple_by_id params pk_indices tuple_id in
      let? tuple := ok_or found (TupleIdNotFound tuple_id) in
      Ok (RTuple (Some tuple))
  end.
Definition UniqueIndexImpl : IndexImpl := mk_impl secondary_index_lookup unique_eq_to_res unique_bound_key.

Definition normal_bound_key (params : IndexImplParams) (value : DataValue) (is_upper : bool) : Result bytes :=
  let index := mk_index (im_id (index_meta params)) value Normal in
  encode_index_bound_key (ip_table_name params) index is_upper.
Definition normal_eq_to_res (value : DataValue) (_ : list nat) (params : IndexImplParams)
  : Result IndexResult :=
  let? min := normal_bound_key params value false in
  let? max := normal_bound_key params value true in
  let? iter := tx_range (ip_tx params) (Bound.Included min) (Bound.Included max) in
  Ok (RScope iter).
Definition NormalIndexImpl : IndexImpl := mk_impl secondary_index_lookup normal_eq_to_res normal_bound_key.

Definition composite_bound_key (params : IndexImplParams) (value : DataValue) (is_upper : bool)
  : Result bytes :=
  let index := mk_index (im_id (index_meta params)) value Composite in
  encode_index_bound_key (ip_table_name params) index is_upper.
Definition composite_eq_to_res (value : DataValue) (_ : list nat) (params : IndexImplParams)
  : Result IndexResult :=
  let? min := composite_bound_key params value false in
  let? max := composite_bound_key params value true in
  let? iter := tx_range (ip_tx params) (Bound.Included min) (Bound.Included max) in
  Ok (RScope iter).
Definition CompositeIndexImpl : IndexImpl :=
  mk_impl secondary_index_lookup composite_eq_to_res composite_bound_key.

Definition instance (index_type : IndexType) : IndexImpl :=
  match index_type with
  | PrimaryKey _ => PrimaryKeyIndexImpl
  | Unique => UniqueIndexImpl
  | Normal => NormalIndexImpl
  | Composite => CompositeIndexImpl
  end.
Definition index_lookup (ty : IndexType) : bytes -> list nat -> IndexImplParams -> Result (Tuple F) :=
  impl_index_lookup (instance ty).
Definition eq_to_res (ty : IndexType) : DataValue -> list nat -> IndexImplParams -> Result IndexResult :=
  impl_eq_to_res (instance ty).
Definition bound_key (ty : IndexType) : IndexImplParams -> DataValue -> bool -> Result bytes :=
  impl_bound_key (instance ty).

(** ** The index reader *)

Inductive IndexIterState := Init | InRange (iter : KvIter) | Over.

Record IndexIter := mk_index_iter {
  ii_offset : nat;
  ii_limit : option nat;
  ii_pk_indices : list nat;
  ii_params : IndexImplParams;
  inner : IndexType;
  ranges : list (Range.Range F);
  state : IndexIterState
}.

Definition read_by_index (table_name : bytes) (bounds : option nat * option nat)
    (columns : list (nat * ColumnCatalog E)) (index_meta : IndexMeta) (ranges : list (Range.Range F))
    (with_pk : bool) : M IndexIter :=
  let! found := table table_name in
  let! table := lift (ok_or found TableNotFound) in
  let columns := reader_columns table columns with_pk in
  let tuple_columns := map snd columns in
  let projections := map fst columns in
  fun s =>
    (Ok (mk_index_iter (default 0%nat bounds.1) bounds.2
           (remap_pk_indices projections (primary_key_indices table))
           (mk_params tuple_columns projections index_meta (tname table) (types table) with_pk (tx s))
           (im_ty index_meta) ranges Init), s).

Definition offset_move (offset : nat) : bool * nat :=
  match offset with
  | O => (false, O)
  | S n => (true, n)
  end.
Definition limit_sub (limit : option nat) : option nat :=
  match limit with Some n => Some (n - 1)%nat | None => None end.

Definition ii_set (it : IndexIter) (offset : nat) (limit : option nat) (ranges : list (Range.Range F))
    (state : IndexIterState) : IndexIter :=
  mk_index_iter offset limit (ii_pk_indices it) (ii_params it) (inner it) ranges state.

Definition check_bound (value : Bound bytes) (bound : bytes) : Bound bytes :=
  match value with Bound.Unbounded => Bound.Included bound | _ => value end.

Definition bound_encode (it : IndexIter) (bound : Bound DataValue) (is_upper : bool)
  : Result (Bound bytes) :=
  match bound with
  | Bound.Included val =>
      let? val := try_cast (ii_params it) val in
      let? key := bound_key (inner it) (ii_params it) val is_upper in
      Ok (Bound.Included key)
  | Bound.Excluded val =>
      let? val := try_cast (ii_params it) val in
      let? key := bound_key (inner it) (ii_params it) val is_upper in
      Ok (Bound.Excluded key)
  | Bound.Unbounded => Ok Bound.Unbounded
  end.

(** The iterator a scope opens. *)
Definition open_scope (it : IndexIter) (min max : Bound DataValue) : Result KvIter :=
  let params := ii_params it in
  let '(bound_min, bound_max) :=
    match im_ty (index_meta params) with
    | PrimaryKey _ => tuple_bound (ip_table_name params)
    | _ => index_bound (ip_table_name params) (im_id (index_meta params))
    end in
  let? encode_min := bound_encode it min false in
  let encode_min := check_bound encode_min bound_min in
  let? encode_max := bound_encode it max true in
  let encode_max := check_bound encode_max bound_max in
  tx_range (ip_tx params) encode_min encode_max.

(** The [Range] state: skip the offset, look the next row up; [None] when the
    iterator is exhausted and the state goes back to [Init]. *)
Fixpoint scan_range (it : IndexIter) (offset : nat) (iter : KvIter) {struct iter}
  : Result (option (Tuple F)) * (nat * option nat * KvIter) :=
  match iter with
  | [] => (Ok None, (offset, ii_limit it, []))
  | Ok (_, bytes) :: iter' =>
      match offset with
      | S offset => scan_range it offset iter'
      | O =>
          (let? tuple := index_lookup (inner it) bytes (ii_pk_indices it) (ii_params it) in
           Ok (Some tuple), (O, limit_sub (ii_limit it), iter'))
      end
  | Err e :: iter' => (Err e, (offset, ii_limit it, iter'))
  | Panic :: iter' => (Panic, (offset, ii_limit it, iter'))
  end.

(** The loop from the [Init] state: one range after the other. *)
Fixpoint init_loop (it : IndexIter) (offset : nat) (ranges : list (Range.Range F))
  : Result (option (Tuple F)) * IndexIter :=
  match ranges with
  | [] => (Ok None, ii_set it offset (ii_limit it) [] Over)
  | binary :: ranges' =>
      let run iter :=
        match scan_range it offset iter with
        | (Ok None, (offset, _, _)) => init_loop it offset ranges'
        | (r, (offset, limit, iter)) => (r, ii_set it offset limit ranges' (InRange iter))
        end in
      let stuck := ii_set it offset (ii_limit it) ranges' Init in
      match binary with
      | Range.Scope min max =>
          match open_scope it min max with
          | Ok iter => run iter
          | Err e => (Err e, stuck)
          | Panic => (Panic, stuck)
          end
      | Range.Eq val =>
          match (let? val := try_cast (ii_params it) val in
                 eq_to_res (inner it) val (ii_pk_indices it) (ii_params it)) with
          | Ok (RTuple tuple) =>
              let '(moved, offset) := offset_move offset in
              if moved then init_loop it offset ranges'
              else (Ok tuple, ii_set it offset (limit_sub (ii_limit it)) ranges' Init)
          | Ok (RScope iter) => run iter
          | Err e => (Err e, stuck)
          | Panic => (Panic, stuck)
          end
      | _ => init_loop it offset ranges'
      end
  end.

Definition index_next_tuple (it : IndexIter) : Result (option (Tuple F)) * IndexIter :=
  match ii_limit it with
  | Some O => (Ok None, ii_set it (ii_offset it) (Some O) (ranges it) Over)
  | _ =>
      match state it with
      | Init => init_loop it (ii_offset it) (ranges it)
      | InRange iter =>
          match scan_range it (ii_offset it) iter with
          | (Ok None, (offset, _, _)) => init_loop it offset (ranges it)
          | (r, (offset, limit, iter)) => (r, ii_set it offset limit (ranges it) (InRange iter))
          end
      | Over => (Ok None, it)
      end
  end.
End Readers.

(** ** Draining a reader *)

Section Drain.
Context {F : Foreign} {I : Type}.
Variable next : I -> Result (option (Tuple F)) * I.

(** Call a reader until it returns [None]; [None] is running out of calls. *)
Fixpoint drain (calls : nat) (it : I) : option (Result (list (Tuple F))) :=
  match calls with
  | O => None
  | S calls =>
      match next it with
      | (Ok None, _) => Some (Ok [])
      | (Ok (Some t), it') =>
          match drain calls it' with
          | Some (Ok ts) => Some (Ok (t :: ts))
          | r => r
          end
      | (Err e, _) => Some (Err e)
      | (Panic, _) => Some Panic
      end
  end.
End Drain.

(** The rows an offset and a limit leave. *)
Definition window {A} (offset : nat) (limit : option nat) (l : list A) : list A :=
  match limit with
  | Some n => take n (drop offset l)
  | None => drop offset l
  end.

Lemma window_map {A B} (f : A -> B) o n l : window o n (map f l) = map f (window o n l).
Proof. unfold window. destruct n; now rewrite skipn_map, ?firstn_map. Qed.

Lemma window_elem {A} o n (l : list A) x : x ∈ window o n l -> x ∈ l.
Proof.
  assert (Hd : x ∈ drop o l -> x ∈ l).
  { intros H. rewrite <- (take_drop o l). apply elem_of_app. now right. }
  unfold window. destruct n as [n|]; [| exact Hd]. intros H. apply Hd.
  rewrite <- (take_drop n (drop o l)). apply elem_of_app. now left.
Qed.

Section Sequential.
Context {F : Foreign} {E : Type}.
Implicit Types it : TupleIter (E := E).

Lemma skip_offset_ok n l :
  skip_offset n (map Ok l)
  = ((Ok (n <=? length l)%nat, ((n - length l)%nat, map Ok (drop n l)))
     : Result bool * (nat * KvIter)).
Proof.
  revert l; induction n as [|n IH]; intros l; [reflexivity |].
  destruct l as [|e l]; [reflexivity |]. cbn [skip_offset map try_next length drop].
  rewrite IH. reflexivity.
Qed.

(** A reader that is called until it returns [None]. *)
Lemma next_tuple_drains it l (dec : kv -> Tuple F) :
  ti_iter it = map Ok l ->
  (forall e, e ∈ l -> decode_tuple (ti_types it) (ti_pk_indices it) (ti_projections it)
                        (ti_columns it) e.2 (ti_with_pk it) = Ok (dec e)) ->
  drain next_tuple (S (length l)) it
  = Some (Ok (map dec (window (ti_offset it) (ti_limit it) l))).
Proof.
  enough (Hgen : forall n it l, (length l < n)%nat -> ti_iter it = map Ok l ->
    (forall e, e ∈ l -> decode_tuple (ti_types it) (ti_pk_indices it) (ti_projections it)
                          (ti_columns it) e.2 (ti_with_pk it) = Ok (dec e)) ->
    drain next_tuple n it = Some (Ok (map dec (window (ti_offset it) (ti_limit it) l)))).
  { intros Hi Hd. apply Hgen; [lia | exact Hi | exact Hd]. }
  clear it l. induction n as [|n IH]; intros it l Hn Hi Hd; [lia |].
  cbn [drain]. unfold next_tuple. rewrite Hi, skip_offset_ok.
  destruct (Nat.leb_spec (ti_offset it) (length l)) as [Ho | Ho].
  2:{ unfold window. rewrite drop_ge by lia. destruct (ti_limit it); [now rewrite take_nil | reflexivity]. }
  pose proof (drop_ge l (ti_offset it)) as Hge. unfold window.
  destruct (drop (ti_offset it) l) as [|[k v] l'] eqn:El; cbn [map try_next].
  { destruct (ti_limit it); [now rewrite take_nil | reflexivity]. }
  assert (Hsub : forall e, e ∈ (k, v) :: l' -> e ∈ l).
  { intros e He. rewrite <- El in He. rewrite <- (take_drop (ti_offset it) l). apply elem_of_app. now right. }
  assert (Hlen : (length l' < n)%nat).
  { assert (H : length (drop (ti_offset it) l) = S (length l')) by now rewrite El.
    rewrite length_drop in H. lia. }
  pose proof (Hd (k, v) (Hsub _ (list_elem_of_here _ _))) as Hdec. cbn [snd] in Hdec.
  assert (Hrec : forall limit', drain next_tuple n (set_iter it (ti_offset it - length l) limit' (map Ok l'))
                 = Some (Ok (map dec (window 0 limit' l')))).
  { intros limit'. rewrite (IH _ l'); [| exact Hlen | reflexivity |].
    - cbn [ti_offset ti_limit set_iter]. now replace (ti_offset it - length l)%nat with 0%nat by lia.
    - intros e He. apply Hd, Hsub. now apply list_elem_of_further. }
  destruct (ti_limit it) as [[|m]|]; [reflexivity | |];
    cbn [ti_types ti_pk_indices ti_projections ti_columns ti_with_pk set_iter];
    rewrite Hdec; cbn [result_bind]; rewrite Hrec; unfold window; cbn [drop take map];
    rewrite ?Nat.sub_0_r; cbn [Nat.sub]; rewrite ?Nat.sub_0_r; reflexivity.
Qed.
(** Reading a table returns the window the bounds ask for: over a scan that
    yields the entries [l], calling [next_tuple] until it returns [None] gives
    the decoded rows from the offset on, at most as many as the limit, after at
    most one call more than there are rows. *)
Theorem tuple_iter_window it l (dec : kv -> Tuple F) :
  ti_iter it = map Ok l ->
  (forall e, e ∈ l -> decode_tuple (ti_types it) (ti_pk_indices it) (ti_projections it)
                        (ti_columns it) e.2 (ti_with_pk it) = Ok (dec e)) ->
  drain next_tuple (S (length l)) it
  = Some (Ok (map dec (window (ti_offset it) (ti_limit it) l))).
Proof. apply next_tuple_drains. Qed.
End Sequential.

(** ** The index reader *)

Section IndexReader.
Context {F : Foreign} {CF : CastForeign} {E : Type} {T : Type} {TX : Transaction T}.
Context {V TC : Type} {Codec : CatalogCodec E V T TC}.
#[local] Abbreviation IndexIter := (IndexIter (E := E) (T := T)).
Implicit Types it : IndexIter.

Definition lookup it (bytes : bytes) : Result (Tuple F) :=
  index_lookup (inner it) bytes (ii_pk_indices it) (ii_params it).
Definition lookups it (l : list kv) (rows : list (Tuple F)) : Prop :=
  Forall2 (fun e t => lookup it e.2 = Ok t) l rows.

(** What an equality resolves to. *)
Definition resolve it (val : DataValue) : Result IndexResult :=
  let? val := try_cast (ii_params it) val in
  eq_to_res (inner it) val (ii_pk_indices it) (ii_params it).

(** The rows of a range; an equality on a primary or unique key has to hit. *)
Definition range_rows it (r : Range.Range F) (rows : list (Tuple F)) : Prop :=
  match r with
  | Range.Scope min max => exists l, open_scope it min max = Ok (map Ok l) /\ lookups it l rows
  | Range.Eq val =>
      (exists t, resolve it val = Ok (RTuple (Some t)) /\ rows = [t])
      \/ (exists l, resolve it val = Ok (RScope (map Ok l)) /\ lookups it l rows)
  | _ => rows = []
  end.

(** The rows an iterator has still to return. *)
Definition pending it (rows : list (Tuple F)) : Prop :=
  match state it with
  | Init => exists rowss, Forall2 (range_rows it) (ranges it) rowss /\ rows = concat rowss
  | InRange iter => exists l rows0 rowss, iter = map Ok l /\ lookups it l rows0
      /\ Forall2 (range_rows it) (ranges it) rowss /\ rows = rows0 ++ concat rowss
  | Over => rows = []
  end.

Lemma scan_range_ok it l rows : lookups it l rows -> forall offset,
  scan_range it offset (map Ok l)
  = match drop offset rows with
    | [] => (Ok None, ((offset - length rows)%nat, ii_limit it, []))
    | t :: _ => (Ok (Some t), (0%nat, limit_sub (ii_limit it), map Ok (drop (S offset) l)))
    end.
Proof.
  induction 1 as [|[k b] t l rows Ht _ IH]; intros offset; cbn [map scan_range].
  { rewrite drop_nil. cbn [length]. now rewrite Nat.sub_0_r. }
  destruct offset as [|offset]; [| exact (IH offset)].
  cbn [snd] in Ht. unfold lookup in Ht. rewrite Ht. reflexivity.
Qed.

(** The step a call makes. *)
Definition steps it (r : Result (option (Tuple F)) * IndexIter) (offset : nat)
    (rows : list (Tuple F)) : Prop :=
  match drop offset rows with
  | [] => exists it', r = (Ok None, it')
  | t :: rest => exists it', r = (Ok (Some t), it') /\ pending it' rest /\ ii_offset it' = 0%nat
      /\ ii_limit it' = limit_sub (ii_limit it)
  end.

Lemma drop_app_cases {A} n (l k : list A) :
  drop n (l ++ k) = match drop n l with [] => drop (n - length l) k | x :: r => x :: r ++ k end.
Proof.
  rewrite drop_app. destruct (drop n l) as [|x r] eqn:Ed; [reflexivity |].
  assert (n - length l = 0)%nat as ->; [| reflexivity].
  assert (H : length (drop n l) = S (length r)) by now rewrite Ed. rewrite length_drop in H. lia.
Qed.

(** A range that is being scanned, followed by the ranges still to open. *)
Lemma run_steps it l rows0 rowss rs offset k :
  lookups it l rows0 -> Forall2 (range_rows it) rs rowss ->
  (forall offset, steps it (k offset) offset (concat rowss)) ->
  steps it (match scan_range it offset (map Ok l) with
            | (Ok None, (offset, _, _)) => k offset
            | (r, (offset, limit, iter)) => (r, ii_set it offset limit rs (InRange iter))
            end) offset (rows0 ++ concat rowss).
Proof.
  intros Hl Hrs Hk. rewrite (scan_range_ok it l rows0 Hl). unfold steps.
  rewrite drop_app_cases. destruct (drop offset rows0) as [|t rest] eqn:Ed; [apply Hk |].
  eexists. split; [reflexivity |]. split; [| now split].
  exists (drop (S offset) l), rest, rowss. split; [reflexivity |]. split; [| now split].
  assert (Hr : rest = drop (S offset) rows0).
  { replace (S offset) with (offset + 1)%nat by lia. rewrite <- drop_drop, Ed. reflexivity. }
  rewrite Hr. exact (Forall2_drop _ _ _ _ Hl).
Qed.

Lemma init_loop_steps it rs rowss : Forall2 (range_rows it) rs rowss ->
  forall offset, steps it (init_loop it offset rs) offset (concat rowss).
Proof.
  induction 1 as [|r rows rs rowss Hr Hrs IH]; intros offset; cbn [init_loop concat].
  { unfold steps. rewrite drop_nil. eauto. }
  destruct r as [min max | val | | sub]; cbn [range_rows] in Hr.
  - destruct Hr as (l & Ho & Hl). rewrite Ho. now apply run_steps.
  - fold (resolve it val). destruct Hr as [(t & He & ->) | (l & He & Hl)]; rewrite He.
    + destruct offset as [|offset]; cbn [offset_move].
      * unfold steps. cbn [drop app]. eexists. split; [reflexivity |]. split; [| now split].
        exists rowss. now split.
      * apply IH.
    + now apply run_steps.
  - subst rows. apply IH.
  - subst rows. apply IH.
Qed.

Lemma next_steps it rows : pending it rows -> ii_limit it <> Some 0%nat ->
  steps it (index_next_tuple it) (ii_offset it) rows.
Proof.
  unfold pending, index_next_tuple. intros Hp Hl. destruct (ii_limit it) as [[|n]|]; [congruence | |];
    destruct (state it) as [|iter|];
    (destruct Hp as (rowss & Hrs & ->) || destruct Hp as (l & rows0 & rowss & -> & Hlk & Hrs & ->) || subst rows).
  all: try (now apply init_loop_steps).
  all: try (apply run_steps; [assumption | assumption | now apply init_loop_steps]).
  all: unfold steps; rewrite drop_nil; eauto.
Qed.

(** C20. The index reader returns the window of the concatenated ranges: when
    every equality on a primary or unique key finds its row, calling
    [index_next_tuple] until [None] yields the rows of the ranges in order, from
    the offset on and at most as many as the limit. *)
Theorem index_iter_window it rowss :
  state it = Init -> Forall2 (range_rows it) (ranges it) rowss ->
  drain index_next_tuple (S (length (concat rowss))) it
  = Some (Ok (window (ii_offset it) (ii_limit it) (concat rowss))).
Proof.
  enough (Hgen : forall n it rows, (length rows < n)%nat -> pending it rows ->
    drain index_next_tuple n it = Some (Ok (window (ii_offset it) (ii_limit it) rows))).
  { intros Hs Hr. apply Hgen; [lia |]. unfold pending. rewrite Hs. eauto. }
  clear it rowss. induction n as [|n IH]; intros it rows Hn Hp; [lia |]. cbn [drain].
  destruct (decide (ii_limit it = Some 0%nat)) as [Hz | Hz].
  { unfold index_next_tuple, window. rewrite Hz. cbn [take]. reflexivity. }
  pose proof (next_steps it rows Hp Hz) as Hst. unfold steps in Hst.
  pose proof (length_drop rows (ii_offset it)) as Hlen.
  unfold window. destruct (drop (ii_offset it) rows) as [|t rest].
  { destruct Hst as (it' & ->). destruct (ii_limit it); [now rewrite take_nil | reflexivity]. }
  destruct Hst as (it' & -> & Hp' & Ho' & Hl'). cbn [length] in Hlen.
  rewrite (IH it' rest); [| lia | exact Hp']. rewrite Ho', Hl'. unfold window. cbn [drop].
  destruct (ii_limit it) as [[|m]|]; [congruence | | reflexivity].
  cbn [limit_sub take]. do 4 f_equal. lia.
Qed.

(** A missing key ends an index scan: when the first range is an equality
    on a primary or unique key that no row has, the reader returns [None] at
    once, whatever rows the other ranges hold. *)
Theorem index_iter_stops_at_missing_key it val rs calls :
  state it = Init -> ii_offset it = 0%nat -> ii_limit it <> Some 0%nat ->
  ranges it = Range.Eq val :: rs -> resolve it val = Ok (RTuple None) ->
  drain index_next_tuple (S calls) it = Some (Ok []).
Proof.
  intros Hs Ho Hl Hr Hv. cbn [drain]. unfold index_next_tuple.
  destruct (ii_limit it) as [[|n]|]; [congruence | |];
    rewrite Hs, Hr, Ho; cbn [init_loop]; fold (resolve it val); now rewrite Hv.
Qed.
End IndexReader.

Section Witnesses.
#[local] Existing Instance RefForeign.ref_foreign.
#[local] Existing Instance RefCast.ref_cast.

Definition id_column : ColumnCatalog unit :=
  mk_column (mk_summary [97] (TableRelation [97] [116] false)) false
    (mk_desc LT.Integer (Some 0%nat) false None) false.

(** A table "t" with one integer column, and the stored row 7. *)
Definition row_7 : bytes := [0; 7; 0; 0; 0].
Definition seq_iter : TupleIter :=
  mk_tuple_iter 1 (Some 1%nat) [LT.Integer] [id_column] [0%nat] [0%nat] true
    [Ok ([1], [0; 5; 0; 0; 0]); Ok ([2], row_7); Ok ([3], [0; 9; 0; 0; 0])].

Lemma tuple_iter_window_witness :
  drain next_tuple 4 seq_iter = Some (Ok [mk_tuple (Some (DV.Int32 7)) [DV.Int32 7]]).
Proof.
  apply (tuple_iter_window seq_iter
           [([1], [0; 5; 0; 0; 0]); ([2], row_7); ([3], [0; 9; 0; 0; 0])]
           (fun e => let z := of_le (drop 1 e.2) in mk_tuple (Some (DV.Int32 z)) [DV.Int32 z]));
    [reflexivity |].
  intros e He. repeat (apply elem_of_cons in He as [-> | He]; [reflexivity |]).
  now apply not_elem_of_nil in He.
Defined.

Definition row_7_store : store :=
  {[ key_prefix CodecType.Tuple [116] ++ [0; 128; 0; 0; 7] := row_7 ]}.
Definition index_iter (rs : list (Range.Range RefForeign.ref_foreign)) : IndexIter (E := unit) (T := store) :=
  mk_index_iter 0 None [0%nat]
    (mk_params [id_column] [0%nat]
       (mk_index_meta 0 [] [] LT.Integer LT.Integer [112] (PrimaryKey false)) [116] [LT.Integer] true row_7_store)
    (PrimaryKey false) rs Init.

Lemma index_iter_window_witness :
  drain index_next_tuple 2 (index_iter [Range.Eq (DV.Int32 7)])
  = Some (Ok [mk_tuple (Some (DV.Int32 7)) [DV.Int32 7]]).
Proof.
  apply (index_iter_window (index_iter [Range.Eq (DV.Int32 7)])
           [[mk_tuple (Some (DV.Int32 7)) [DV.Int32 7]]]); [reflexivity |].
  constructor; [| constructor]. left. eexists. split; reflexivity.
Defined.

Lemma index_iter_stops_at_missing_key_witness :
  drain index_next_tuple 5 (index_iter [Range.Eq (DV.Int32 6); Range.Eq (DV.Int32 7)]) = Some (Ok []).
Proof.
  apply (index_iter_stops_at_missing_key (index_iter [Range.Eq (DV.Int32 6); Range.Eq (DV.Int32 7)])
           (DV.Int32 6) [Range.Eq (DV.Int32 7)] 4); try reflexivity. discriminate.
Defined.
End Witnesses.
