(* ===== verification/TableStore.v ===== *)
(** * Tables as maps

    The abstract specification of a table's rows and the proof that the storage
    implements it: a table with a single integer primary key is a finite map
    from keys to rows; inserting, overwriting and deleting rows through
    [append_tuple] and [remove_tuple], and reading through [read] and
    [next_tuple], act on the store as on that map, and a scan lists the rows in
    the numeric order of their keys.  The proof composes the tuple format, the
    key encoding, the key-value interface and the sequential reader. *)

From stdpp Require Import gmap sorting.
From S2P Require Import Prelude Bytes Types LogicalTypes Values Evaluators Cast Memcomparable.
From S2P Require Import TupleCodec TableCodec RangeDetacher KvStore Lru Cache Catalog Storage Readers.

(** The specification: rows by key, listed in key order. *)
Section Spec.
Context {F : Foreign}.

Definition row : Type := list DataValue.
Abbreviation rows := (gmap Z row).

Definition row_le (a b : Z * row) : Prop := a.1 <= b.1.
#[global] Instance row_le_dec : RelDecision row_le.
Proof. intros a b. unfold row_le. apply _. Defined.
#[global] Instance row_le_trans : Transitive row_le.
Proof. intros a b c. unfold row_le. lia. Qed.
#[global] Instance row_le_total : Total row_le.
Proof. intros a b. unfold row_le. lia. Qed.

Definition listed (m : rows) : list (Z * row) := merge_sort row_le (map_to_list m).

Inductive row_op :=
| Insert (z : Z) (r : row)
| Overwrite (z : Z) (r : row)
| Delete (z : Z).

Definition spec_step (op : row_op) (m : rows) : Result unit * rows :=
  match op with
  | Insert z r =>
      match m !! z with
      | Some _ => (Err DuplicatePrimaryKey, m)
      | None => (Ok tt, <[z := r]> m)
      end
  | Overwrite z r => (Ok tt, <[z := r]> m)
  | Delete z => (Ok tt, delete z m)
  end.

Fixpoint spec_run (ops : list row_op) (m : rows) : list (Result unit) * rows :=
  match ops with
  | [] => ([], m)
  | op :: ops' =>
      let '(r, m1) := spec_step op m in
      let '(rs, m2) := spec_run ops' m1 in
      (r :: rs, m2)
  end.

Lemma elem_of_listed m z r : (z, r) ∈ listed m <-> m !! z = Some r.
Proof. unfold listed. rewrite merge_sort_Permutation. apply elem_of_map_to_list. Qed.

Lemma listed_length m : length (listed m) = size m.
Proof. unfold listed. now rewrite merge_sort_Permutation, length_map_to_list. Qed.
End Spec.
Abbreviation rows := (gmap Z row).

Section Table.
Context {F : Foreign} {FL : ForeignLaws F} {E : Type} {X : ExprOps E}.
Context {T : Type} {TX : Transaction T} {TL : TransactionLaws T}.
Context {V TC VC MC : Type}.
Context {CT : Cache bytes (TableCatalog E) TC} {Codec : CatalogCodec E V T TC}.
#[local] Abbreviation Db := (Db T TC VC MC).
Implicit Types (s : Db) (m : rows).

(** The table: its name, the integer type of its key, the types of its columns
    and the position of the key among them. *)
Variables (name : bytes) (vt : ValueType) (tys : list LogicalType) (pki : nat).

Definition pk_vt (vt : ValueType) : bool :=
  match vt with
  | VT.Int8 | VT.Int16 | VT.Int32 | VT.Int64
  | VT.UInt8 | VT.UInt16 | VT.UInt32 | VT.UInt64 => true
  | _ => false
  end.
Hypothesis Hvt : pk_vt vt = true.

Definition row_tuple (z : Z) (r : row) : Tuple F := mk_tuple (Some (int_value vt z)) r.

(** A row of the table with key [z]. *)
Definition row_ok (z : Z) (r : row) : Prop :=
  in_int vt z = true /\ Forall2 column_ok tys r /\ r !! pki = Some (int_value vt z).
Definition op_ok (op : row_op) : Prop :=
  match op with
  | Insert z r | Overwrite z r => row_ok z r
  | Delete z => in_int vt z = true
  end.

Definition run_op (op : row_op) : M T TC VC MC unit :=
  match op with
  | Insert z r => append_tuple name (row_tuple z r) tys false
  | Overwrite z r => append_tuple name (row_tuple z r) tys true
  | Delete z => remove_tuple name (int_value vt z)
  end.

Fixpoint run_ops (ops : list row_op) (s : Db) : list (Result unit) * Db :=
  match ops with
  | [] => ([], s)
  | op :: ops' =>
      let '(r, s1) := run_op op s in
      let '(rs, s2) := run_ops ops' s1 in
      (r :: rs, s2)
  end.

(** ** Keys and values of rows *)

Definition row_key (z : Z) : bytes :=
  key_prefix CodecType.Tuple name ++ [BOUND_MIN_TAG] ++ fixed_encoding (int_value vt z).

Lemma row_key_encode z : encode_tuple_key name (int_value vt z) = Ok (row_key z).
Proof.
  unfold encode_tuple_key, row_key.
  assert (Hp : check_primary_key (int_value vt z) 0 = Ok tt) by (destruct vt; discriminate || reflexivity).
  assert (Hf : fixed_width (int_value vt z) = true) by (destruct vt; discriminate || reflexivity).
  rewrite Hp. cbn [result_bind]. rewrite memcomparable_encode_fixed by exact Hf.
  now rewrite <- app_assoc.
Qed.

Lemma row_key_cmp a b : in_int vt a = true -> in_int vt b = true ->
  lex_cmp (row_key a) (row_key b) = (a ?= b).
Proof.
  intros Ha Hb. unfold row_key. rewrite !lex_cmp_app.
  apply fixed_encoding_cmp; destruct vt; try discriminate; reflexivity || assumption.
Qed.

Lemma row_key_inj a b : in_int vt a = true -> in_int vt b = true -> row_key a = row_key b -> a = b.
Proof.
  intros Ha Hb H. apply Z.compare_eq_iff. rewrite <- row_key_cmp, H by assumption. apply lex_cmp_refl.
Qed.

Lemma row_key_scope z : in_scope CodecType.Tuple name (row_key z).
Proof. apply in_bound_within, in_bound_prefix. Qed.

Lemma row_key_bytes z : is_bytes (row_key z).
Proof.
  unfold row_key, key_prefix, hash_bytes, BOUND_MIN_TAG. repeat apply Forall_app_2; try apply le_bytes_is_bytes;
    try (repeat constructor; unfold is_byte; lia).
  destruct vt; discriminate || apply be_bytes_is_bytes.
Qed.

(** A stored row: what [serialize_to] writes and every reader returns. *)
Definition full : list nat := seq 0 (length tys).

Lemma deserialize_with_pk pk_indices ps n bs :
  deserialize_from tys pk_indices ps n bs true
  = let? t := deserialize_from tys pk_indices ps n bs false in
    let? key := primary_projection pk_indices (values t) in
    Ok (mk_tuple (Some key) (values t)).
Proof.
  unfold deserialize_from. destruct (_ || _ || _); [reflexivity |].
  destruct (_ <? _)%nat; [reflexivity |]. now destruct (deserialize_values _ _ _ _ _ _ _).
Qed.

Lemma row_stored z r : row_ok z r -> exists bs, serialize_to (row_tuple z r) tys = Ok bs
  /\ deserialize_from tys [pki] full (length tys) bs true = Ok (row_tuple z r).
Proof.
  intros (Hz & Hr & Hk). pose proof (Forall2_length _ _ _ Hr) as Hlen.
  assert (Hne : tys <> []).
  { apply lookup_lt_Some in Hk. intros ->. cbn in Hlen. unfold row in *. lia. }
  destruct (deserialize_serialize tys (row_tuple z r) [pki] full) as (bs & Hs & Hd).
  - exact Hr.
  - unfold full. destruct tys; cbn; congruence.
  - apply seq_sorted.
  - apply Forall_forall. intros x Hx. apply elem_of_seq in Hx. lia.
  - intros k Hkn. left. apply elem_of_seq. apply lookup_lt_Some in Hkn. cbn in Hkn. lia.
  - exists bs. split; [exact Hs |]. unfold full in *. rewrite length_seq in Hd.
    rewrite deserialize_with_pk, Hd. cbn [result_bind values]. rewrite Hlen, project_all.
    assert (Hp : primary_projection [pki] r = unwrap (r !! pki)) by reflexivity.
    cbn [values row_tuple]. now rewrite Hp, Hk.
Qed.

(** ** The representation *)

Record represents s m : Prop := mk_represents {
  rep_rows : map_Forall row_ok m;
  rep_keys : keys_ok (contents (tx s));
  rep_store : forall k v, in_scope CodecType.Tuple name k ->
    contents (tx s) !! k = Some v
    <-> exists z r, m !! z = Some r /\ k = row_key z /\ serialize_to (row_tuple z r) tys = Ok v
}.

Lemma rep_lookup s m z : represents s m -> in_int vt z = true ->
  is_Some (contents (tx s) !! row_key z) <-> is_Some (m !! z).
Proof.
  intros [Hm _ Hs] Hz. split.
  - intros [v Hv]. apply Hs in Hv as (z' & r & Hr & Hk & _); [| apply row_key_scope].
    apply row_key_inj in Hk as ->; [eauto | assumption | apply (Hm z' r Hr)].
  - intros [r Hr]. destruct (row_stored z r (Hm z r Hr)) as (bs & Hb & _).
    exists bs. apply Hs; [apply row_key_scope | eauto].
Qed.

Lemma represents_insert s m z r bs s' :
  represents s m -> row_ok z r -> serialize_to (row_tuple z r) tys = Ok bs ->
  wrote s (<[row_key z := bs]> (contents (tx s))) s' -> represents s' (<[z := r]> m).
Proof.
  intros [Hm Hk Hs] Hr Hb [_ Hc]. split; rewrite ?Hc.
  - now apply map_Forall_insert_2.
  - apply map_Forall_insert_2; [apply row_key_bytes | exact Hk].
  - intros k v Hin. destruct (decide (k = row_key z)) as [-> | Hne].
    + rewrite lookup_insert_eq. split.
      * intros [= <-]. exists z, r. rewrite lookup_insert_eq. auto.
      * intros (z' & r' & Hl & Hkey & Hser). destruct (decide (z = z')) as [<- | Hz].
        { rewrite lookup_insert_eq in Hl. congruence. }
        rewrite lookup_insert_ne in Hl by assumption. destruct Hz.
        apply row_key_inj; [apply Hr | apply (Hm z' r' Hl) | exact Hkey].
    + rewrite lookup_insert_ne by congruence. rewrite Hs by assumption. split.
      * intros (z' & r' & Hl & -> & Hser). exists z', r'.
        rewrite lookup_insert_ne by congruence. auto.
      * intros (z' & r' & Hl & -> & Hser). rewrite lookup_insert_ne in Hl by congruence. eauto.
Qed.

Lemma represents_delete s m z s' :
  represents s m -> in_int vt z = true ->
  wrote s (delete (row_key z) (contents (tx s))) s' -> represents s' (delete z m).
Proof.
  intros [Hm Hk Hs] Hz [_ Hc]. split; rewrite ?Hc.
  - now apply map_Forall_delete.
  - now apply map_Forall_delete.
  - intros k v Hin. rewrite lookup_delete_Some, Hs by assumption. split.
    + intros [Hne (z' & r & Hl & -> & Hser)]. exists z', r. rewrite lookup_delete_ne by congruence. auto.
    + intros (z' & r & Hl & -> & Hser). apply lookup_delete_Some in Hl as [Hzz Hl]. split; [| eauto].
      intros Hkey. apply Hzz, row_key_inj; [exact Hz | apply (Hm z' r Hl) | exact Hkey].
Qed.

Lemma append_run s z r bs ow : row_ok z r -> serialize_to (row_tuple z r) tys = Ok bs ->
  append_tuple name (row_tuple z r) tys ow s
  = if negb ow && bool_decide (is_Some (contents (tx s) !! row_key z))
    then (Err DuplicatePrimaryKey, s) else set (row_key z) bs s.
Proof.
  intros Hr Hb. unfold append_tuple, lift.
  rewrite (bind_ok _ _ s (row_key z, bs) s).
  2:{ unfold encode_tuple, row_tuple. cbn [pk ok_or result_bind]. rewrite row_key_encode. cbn [result_bind].
      unfold row_tuple in Hb. rewrite Hb. reflexivity. }
  destruct ow; cbn [negb andb]; [reflexivity |].
  unfold bind. rewrite get_run. now destruct (contents (tx s) !! row_key z).
Qed.

(** One operation behaves like its specification. *)
Lemma run_op_refines op s m : op_ok op -> represents s m ->
  exists s', run_op op s = ((spec_step op m).1, s') /\ represents s' (spec_step op m).2.
Proof.
  intros Hop Hrep. destruct op as [z r | z r | z]; cbn [run_op spec_step op_ok] in *.
  - destruct (row_stored z r Hop) as (bs & Hb & _). rewrite (append_run s z r bs) by assumption.
    pose proof (rep_lookup s m z Hrep (proj1 Hop)) as Hl. cbn [negb andb].
    destruct (m !! z) as [r'|] eqn:Em; cbn [fst snd].
    + rewrite bool_decide_eq_true_2 by (apply Hl; eauto). eauto.
    + rewrite bool_decide_eq_false_2 by (intros H%Hl; now apply is_Some_None in H).
      destruct (set_run (row_key z) bs s) as (s' & -> & W). exists s'. split; [reflexivity |].
      eapply represents_insert; eassumption.
  - destruct (row_stored z r Hop) as (bs & Hb & _). rewrite (append_run s z r bs) by assumption.
    cbn [negb andb fst snd]. destruct (set_run (row_key z) bs s) as (s' & -> & W).
    exists s'. split; [reflexivity |]. eapply represents_insert; eassumption.
  - unfold remove_tuple, lift. rewrite (bind_ok _ _ s (row_key z) s) by now rewrite row_key_encode.
    destruct (remove_run (row_key z) s) as (s' & -> & W). exists s'. split; [reflexivity |].
    now apply (represents_delete s m z).
Qed.

(** C1. The storage of a table whose primary key is one column of an integer
    type refines a finite map from integers to rows: any sequence of inserts,
    overwrites and deletes returns the results the map specification gives,
    [DuplicatePrimaryKey] exactly when a key is already present, and leaves a
    store that represents the map the specification ends in.  The rows have their
    key at the position of the key column and values their columns store as they
    are ([column_ok], which leaves out padded CHAR values); character, floating
    point, decimal and composite keys are not covered. *)
Theorem table_refines_map ops s m :
  Forall op_ok ops -> represents s m ->
  exists s', run_ops ops s = ((spec_run ops m).1, s') /\ represents s' (spec_run ops m).2.
Proof.
  intros Hops. revert s m. induction Hops as [|op ops Hop _ IH]; intros s m Hrep; cbn [run_ops spec_run].
  { exists s. auto. }
  destruct (run_op_refines op s m Hop Hrep) as (s1 & -> & Hrep1).
  destruct (spec_step op m) as [r m1]. cbn [fst snd] in *.
  destruct (IH s1 m1 Hrep1) as (s2 & -> & Hrep2).
  destruct (spec_run ops m1) as [rs m2]. cbn [fst snd] in *. eauto.
Qed.

(** ** Reading *)

Definition row_bytes (z : Z) (r : row) : bytes :=
  match serialize_to (row_tuple z r) tys with Ok bs => bs | _ => [] end.
Definition row_entry (e : Z * row) : kv := (row_key e.1, row_bytes e.1 e.2).

Lemma listed_sorted m : StronglySorted row_le (listed m).
Proof. apply StronglySorted_merge_sort; apply _. Qed.

Lemma listed_nodup m : NoDup (map fst (listed m)).
Proof.
  change (map fst (listed m)) with ((listed m).*1). unfold listed. rewrite merge_sort_Permutation.
  apply NoDup_fst_map_to_list.
Qed.

(** A scan of the table's range lists the rows in the order of their keys. *)
Lemma scan_rows s m : represents s m ->
  scan (contents (tx s)) (Bound.Included (tuple_bound name).1) (Bound.Included (tuple_bound name).2)
  = map row_entry (listed m).
Proof.
  intros Hrep. destruct Hrep as [Hm Hk Hs]. apply sorted_unique.
  - apply scan_sorted.
  - assert (Hin : Forall (fun e => in_int vt e.1 = true) (listed m)).
    { apply Forall_forall. intros [z r] He%elem_of_listed. apply (Hm z r He). }
    pose proof (listed_nodup m) as Hnd. revert Hin Hnd.
    induction (listed_sorted m) as [|e l Hl IH Ha]; intros Hin Hnd; cbn; [constructor |].
    apply Forall_cons_1 in Hin as [He Hin]. cbn in Hnd. apply NoDup_cons in Hnd as [Hn Hnd].
    constructor; [auto |]. apply Forall_map. rewrite Forall_forall in *. intros x Hx.
    unfold key_lt, row_entry. cbn [fst]. rewrite row_key_cmp; [| exact He | now apply Hin].
    specialize (Ha x Hx). unfold row_le in Ha. apply Z.compare_lt_iff.
    enough (e.1 <> x.1) by lia. intros Heq. apply Hn. rewrite Heq. now apply list_elem_of_fmap_2.
  - intros [k v]. rewrite elem_of_scan. cbn [fst snd]. split.
    + intros [Hw Hl]. apply Hs in Hl as (z & r & Hr & -> & Hser); [| exact Hw].
      apply list_elem_of_fmap. exists (z, r). split; [| now apply elem_of_listed].
      unfold row_entry, row_bytes. cbn [fst snd]. now rewrite Hser.
    + intros ([z r] & [= -> ->] & He)%list_elem_of_fmap. apply elem_of_listed in He.
      split; [apply row_key_scope |]. apply Hs; [apply row_key_scope |]. exists z, r.
      split; [exact He |]. split; [reflexivity |]. unfold row_bytes.
      destruct (row_stored z r (Hm z r He)) as (bs & -> & _). reflexivity.
Qed.

Lemma position_seq n i p : (p < n)%nat -> position (i + p) (seq i n) = Some p.
Proof.
  revert i p. induction n as [|n IH]; intros i p Hp; [lia |]. cbn [seq position].
  destruct (Nat.eqb_spec (i + p) i) as [H | H]; [f_equal; lia |].
  destruct p as [|p]; [lia |]. replace (i + S p)%nat with (S i + p)%nat by lia.
  rewrite IH by lia. reflexivity.
Qed.

(** C5. Reading a table whose primary key is one column of an integer type lists
    its rows in the numeric order of the keys: [read] with every column projected
    succeeds, and calling [next_tuple] until [None] returns the rows of the
    represented map, each with its key as tuple id, in increasing order of the
    keys, restricted to the window of the offset and the limit.  The rows are as
    in [represents]; for character keys the order is another
    ([string_key_order_broken]). *)
Theorem read_lists_rows s m t s1 columns bounds :
  represents s m -> table name s = (Ok (Some t), s1) ->
  types t = tys -> primary_key_indices t = [pki] -> (pki < length tys)%nat ->
  map fst (reader_columns t columns true) = full ->
  exists it s2, read name bounds columns true s = (Ok it, s2)
    /\ drain next_tuple (S (size m)) it
       = Some (Ok (map (fun e => row_tuple e.1 e.2)
                     (window (default 0%nat bounds.1) bounds.2 (listed m)))).
Proof.
  intros Hrep Ht Htys Hpk Hpki Hfull.
  pose proof (table_tx _ _ _ _ Ht) as Htx.
  assert (Hscan : tx_range (tx s1) (Bound.Included (tuple_bound name).1) (Bound.Included (tuple_bound name).2)
                  = Ok (map Ok (map row_entry (listed m)))).
  { rewrite Htx, tx_range_ok, (scan_rows s m Hrep); [reflexivity | | apply (rep_keys s m Hrep)].
    apply (scoped_scannable CodecType.Tuple). reflexivity. }
  assert (Hpos : position pki full = Some pki) by exact (position_seq _ 0%nat pki Hpki).
  eexists. exists s1. split.
  { unfold read, lift. rewrite (bind_ok _ _ _ _ _ Ht).
    rewrite (bind_ok _ _ s1 t s1) by reflexivity.
    destruct (tuple_bound name) as [lo hi] eqn:Etb. cbn [fst snd] in Hscan.
    unfold bind, range. rewrite Hscan. reflexivity. }
  pose proof (next_tuple_drains (E := E)) as Hw.
  specialize (Hw (mk_tuple_iter (default 0%nat bounds.1) bounds.2 (types t) (map snd (reader_columns t columns true))
           (remap_pk_indices (map fst (reader_columns t columns true)) (primary_key_indices t))
           (map fst (reader_columns t columns true)) true (map Ok (map row_entry (listed m))))
     (map row_entry (listed m))
     (fun e => match deserialize_from tys [pki] full (length tys) e.2 true with Ok t => t | _ => mk_tuple None [] end)
     eq_refl).
  cbn [ti_types ti_pk_indices ti_projections ti_columns ti_with_pk ti_offset ti_limit] in Hw.
  assert (Hdec : forall e, e ∈ listed m ->
    deserialize_from tys [pki] full (length tys) (row_entry e).2 true = Ok (row_tuple e.1 e.2)).
  { intros [z r] He%elem_of_listed. destruct (row_stored z r (rep_rows s m Hrep z r He)) as (bs & Hs & Hd).
    unfold row_entry, row_bytes. cbn [fst snd]. now rewrite Hs. }
  rewrite length_map, listed_length in Hw. rewrite Hw.
  - do 2 f_equal. rewrite window_map, map_map. apply map_ext_in.
    intros e He%list_elem_of_In%window_elem. now rewrite Hdec.
  - intros e (e' & -> & He')%list_elem_of_fmap. rewrite Hdec by exact He'.
    unfold decode_tuple. rewrite Htys, Hpk, Hfull. unfold remap_pk_indices. cbn [omap list_omap].
    rewrite Hpos. rewrite length_map. rewrite <- (length_map fst), Hfull. unfold full. rewrite length_seq.
    fold full. apply Hdec. exact He'.
Qed.
End Table.

Section Witnesses.
#[local] Existing Instance RefForeign.ref_foreign.
#[local] Existing Instance RefForeign.ref_laws.
Import RefStore.

(** The table "t" of Readers.v with its single column a 32 bit integer key. *)
Definition t_catalog : TableCatalog unit :=
  mk_table [116] {[ [97] := ([97], 0%nat) ]} {[ [97] := 0%nat ]} [] [id_column] [(0%nat, id_column)] [0%nat]
    (Some LT.Integer).

Lemma empty_represents s : contents (tx s) = (∅ : store) ->
  represents [116] VT.Int32 [LT.Integer] 0 (s : Db store (list (LruCache (list Z) (TableCatalog unit)))
    (list (LruCache (list Z) (list Z))) (list (LruCache (list Z * Z) unit))) ∅.
Proof.
  intros He. split; rewrite ?He; [apply map_Forall_empty | apply map_Forall_empty |].
  intros k v _. split; [intros H; now rewrite lookup_empty in H |].
  intros (z & r & H & _). now rewrite lookup_empty in H.
Qed.

Lemma row_ok_5 : row_ok VT.Int32 [LT.Integer] 0 5 [DV.Int32 5].
Proof. split; [reflexivity |]. split; [| reflexivity]. repeat constructor; cbn; lia. Qed.

Lemma table_refines_map_witness :
  exists s', run_ops [116] VT.Int32 [LT.Integer]
               [Insert 5 [DV.Int32 5]; Insert 5 [DV.Int32 5]; Delete 5] (ref_db ∅)
             = ([Ok tt; Err DuplicatePrimaryKey; Ok tt], s')
    /\ represents [116] VT.Int32 [LT.Integer] 0 s' ∅.
Proof.
  destruct (table_refines_map [116] VT.Int32 [LT.Integer] 0 eq_refl
           [Insert 5 [DV.Int32 5]; Insert 5 [DV.Int32 5]; Delete 5] (ref_db ∅) ∅) as (s' & Hr & Hs).
  - repeat constructor; apply row_ok_5.
  - now apply empty_represents.
  - exists s'. split; [exact Hr | exact Hs].
Defined.

Lemma read_lists_rows_witness :
  exists (s s2 : Db store (list (LruCache (list Z) (TableCatalog unit)))
                     (list (LruCache (list Z) (list Z))) (list (LruCache (list Z * Z) unit))) it,
    read [116] (None, None) [] true s = (Ok it, s2)
    /\ drain next_tuple 2 it = Some (Ok [mk_tuple (Some (DV.Int32 5)) [DV.Int32 5]]).
Proof.
  destruct (cache_put_ok (CacheLaws := table_lru_laws) empty_shards [116] t_catalog empty_shards_ok)
    as (old & c & _ & Hc & Ht & _).
  set (s0 := set_table_cache c (ref_db ∅)).
  destruct (row_stored VT.Int32 [LT.Integer] 0 5 [DV.Int32 5] row_ok_5) as (bs & Hb & _).
  destruct (set_run (row_key [116] VT.Int32 5) bs s0) as (s & _ & W).
  assert (Hrep : represents [116] VT.Int32 [LT.Integer] 0 s {[ 5 := [DV.Int32 5] ]}).
  { eapply (represents_insert [116] VT.Int32 [LT.Integer] 0 eq_refl);
      [apply (empty_represents s0); reflexivity | exact row_ok_5 | exact Hb | exact W]. }
  assert (Hok : db_ok s).
  { split; [exact (rep_keys _ _ _ _ _ _ Hrep) |]. destruct W as [-> _]. split; [exact Hc | exact empty_shards_ok]. }
  destruct W as [Es _].
  destruct (table_hit [116] s t_catalog Hok) as (s1 & Hhit & _); [now rewrite Es |].
  destruct (read_lists_rows [116] VT.Int32 [LT.Integer] 0 eq_refl s {[ 5 := [DV.Int32 5] ]} t_catalog s1 []
              (None, None)) as (it & s2 & Hr & Hd);
    [exact Hrep | exact Hhit | reflexivity | reflexivity | cbn; lia | reflexivity |].
  exists s, s2, it. split; [exact Hr | exact Hd].
Defined.
End Witnesses.
