(* ===== verification/Text.v ===== *)
(** * Texts of values, types and operators

    The [Display] implementations of [DataValue] (src/src/types/value.rs),
    [LogicalType] (src/src/types/mod.rs) and the operators
    (src/src/expression/mod.rs), from which expressions take their names.  What
    Rust's float formatting and the SQL parser's enumerations print is the class
    [TextForeign]. *)

From Stdlib Require String Ascii.
Export String.StringSyntax.
#[global] Delimit Scope string_scope with string.
From S2P Require Import Prelude Bytes Types LogicalTypes Values Floats Evaluators Cast.

(** A literal as bytes. *)
Fixpoint str (s : String.string) : bytes :=
  match s with
  | String.EmptyString => []
  | String.String a s' => Z.of_N (Ascii.N_of_ascii a) :: str s'
  end.
Arguments str s%_string.

Class TextForeign := {
  (** [format!("{:?}", x)] and [format!("{:.n$}", x)] of a float *)
  float_debug : Z -> Z -> bytes;
  float_fixed : Z -> Z -> nat -> bytes;
  (** [Display] of sqlparser's [CharLengthUnits] *)
  units_display : CharLengthUnits -> bytes
}.

(** [Itertools::join]. *)
Fixpoint join (sep : bytes) (l : list bytes) : bytes :=
  match l with
  | [] => []
  | [s] => s
  | s :: l' => s ++ sep ++ join sep l'
  end.

Section Text.
Context {F : Foreign} {C : CastForeign} {X : TextForeign}.

(** [formatted_string.find('.')]. *)
Fixpoint find_byte (b : Z) (s : bytes) : option nat :=
  match s with
  | [] => None
  | x :: s' => if x =? b then Some 0%nat else option_map Nat.succ (find_byte b s')
  end.

(** [format_float_option!]. *)
Definition format_float_option (w bits : Z) : bytes :=
  let formatted_string := float_debug w bits in
  match find_byte 46 formatted_string with
  | Some i => float_fixed w bits (length formatted_string - i - 1)
  | None => float_fixed w bits 1
  end.

(** [fmt::Display for DataValue]; formatting a date out of chrono's range
    panics. *)
Fixpoint value_display (v : DataValue) : Result bytes :=
  match v with
  | DV.Boolean e => Ok (show_bool e)
  | DV.Float32 e => Ok (format_float_option 32 e)
  | DV.Float64 e => Ok (format_float_option 64 e)
  | DV.Int8 e | DV.Int16 e | DV.Int32 e | DV.Int64 e
  | DV.UInt8 e | DV.UInt16 e | DV.UInt32 e | DV.UInt64 e => Ok (show_int e)
  | DV.Utf8 e _ _ => Ok e
  | DV.Null => Ok (str "null")
  | DV.Date32 e => unwrap (format_date e)
  | DV.Date64 e => unwrap (format_datetime e)
  | DV.Time32 e precision => let? s := format_time e precision in unwrap s
  | DV.Time64 e precision _ => let? s := format_timestamp e precision in unwrap s
  | DV.Decimal e => Ok (dec_to_string e)
  | DV.Tuple values _ =>
      let? texts :=
        (fix go (l : list DataValue) : Result (list bytes) :=
           match l with
           | [] => Ok []
           | v :: l' => let? s := value_display v in let? ss := go l' in Ok (s :: ss)
           end) values in
      Ok (str "(" ++ join (str ", ") texts ++ str ")")
  end.

(** [format!("{:?}", option)]. *)
Definition option_debug (o : option Z) : bytes :=
  match o with
  | Some z => str "Some(" ++ show_int z ++ str ")"
  | None => str "None"
  end.

Fixpoint type_display (ty : LogicalType) : bytes :=
  match ty with
  | LT.SqlNull => str "SqlNull"
  | LT.Boolean => str "Boolean"
  | LT.Tinyint => str "Tinyint"
  | LT.UTinyint => str "UTinyint"
  | LT.Smallint => str "Smallint"
  | LT.USmallint => str "USmallint"
  | LT.Integer => str "Integer"
  | LT.UInteger => str "UInteger"
  | LT.Bigint => str "Bigint"
  | LT.UBigint => str "UBigint"
  | LT.Float => str "Float"
  | LT.Double => str "Double"
  | LT.Char len units => str "Char(" ++ show_int len ++ str ", " ++ units_display units ++ str ")"
  | LT.Varchar len units => str "Varchar(" ++ option_debug len ++ str ", " ++ units_display units ++ str ")"
  | LT.Date => str "Date"
  | LT.DateTime => str "DateTime"
  | LT.TimeStamp precision zone =>
      str "TimeStamp(" ++ option_debug precision ++ str ", " ++ show_bool zone ++ str ")"
  | LT.Time precision => str "Time(" ++ option_debug precision ++ str ")"
  | LT.Decimal precision scale =>
      str "Decimal(" ++ option_debug precision ++ str ", " ++ option_debug scale ++ str ")"
  | LT.Tuple types => str "(" ++ join (str ", ") (map type_display types) ++ str ")"
  end.
End Text.

Definition unary_op_display (op : UnaryOperator) : bytes :=
  match op with
  | UnaryOp.Plus => str "+"
  | UnaryOp.Minus => str "-"
  | UnaryOp.Not => str "!"
  end.

Definition like_op (escape_char : option Z) : bytes :=
  match escape_char with
  | Some escape_char => str "(escape: " ++ utf8_encode escape_char ++ str ")"
  | None => []
  end.
Definition binary_op_display (op : BinaryOperator) : bytes :=
  match op with
  | BinaryOp.Plus => str "+"
  | BinaryOp.Minus => str "-"
  | BinaryOp.Multiply => str "*"
  | BinaryOp.Divide => str "/"
  | BinaryOp.Modulo => str "mod"
  | BinaryOp.StringConcat => str "&"
  | BinaryOp.Gt => str ">"
  | BinaryOp.Lt => str "<"
  | BinaryOp.GtEq => str ">="
  | BinaryOp.LtEq => str "<="
  | BinaryOp.Spaceship => str "<=>"
  | BinaryOp.Eq => str "="
  | BinaryOp.NotEq => str "!="
  | BinaryOp.And => str "&&"
  | BinaryOp.Or => str "||"
  | BinaryOp.Like escape_char => str "like" ++ like_op escape_char
  | BinaryOp.NotLike escape_char => str "not like" ++ like_op escape_char
  end.
