(* ===== verification/Expression.v ===== *)
(** * Expression trees

    [ScalarExpression] of src/src/expression/mod.rs with its names, types and
    queries, its evaluation (src/src/expression/evaluator.rs) and the visitors
    that bind evaluators and references.  Functions registered by users are known
    by their summary, what they compute is the class [ExprForeign]; so are the
    regular expressions of [TRIM]. *)

From stdpp Require Import gmap.
From S2P Require Import Prelude Bytes Types LogicalTypes Values Floats Evaluators Cast.
From S2P Require Import Text TupleCodec TableCodec Catalog.

#[global] Instance ColumnRelation_eq_dec : EqDecision ColumnRelation.
Proof. solve_decision. Defined.
#[global] Instance ColumnSummary_eq_dec : EqDecision ColumnSummary.
Proof. solve_decision. Defined.

(** ** Data *)

Inductive AggKind := Avg | Max | Min | Sum | Count.
Definition allow_distinct (kind : AggKind) : bool :=
  match kind with Sum | Count => true | _ => false end.

Inductive TrimWhereField := TrimBoth | TrimLeading | TrimTrailing.

Record FunctionSummary := mk_function { fn_name : bytes; fn_arg_types : list LogicalType }.

(** [AliasType]; its expressions are those of [ScalarExpression]. *)
Inductive AliasType (E : Type) := AliasName (name : bytes) | AliasExpr (expr : E).
Arguments AliasName {E} name.
Arguments AliasExpr {E} expr.

Module SE.
Section ScalarExpression.
#[local] Set Warnings "-register-all".
Context {F : Foreign}.
Inductive ScalarExpression :=
| Constant (v : DV.DataValue F)
| ColumnRef (column : ColumnCatalog ScalarExpression)
| Alias (expr : ScalarExpression) (alias : AliasType ScalarExpression)
| TypeCast (expr : ScalarExpression) (ty : LogicalType)
| IsNull (negated : bool) (expr : ScalarExpression)
| Unary (op : UnaryOperator) (expr : ScalarExpression) (evaluator : option UnaryEvaluatorBox)
    (ty : LogicalType)
| Binary (op : BinaryOperator) (left_expr right_expr : ScalarExpression)
    (evaluator : option BinaryEvaluatorBox) (ty : LogicalType)
| AggCall (distinct : bool) (kind : AggKind) (args : list ScalarExpression) (ty : LogicalType)
| In (negated : bool) (expr : ScalarExpression) (args : list ScalarExpression)
| Between (negated : bool) (expr left_expr right_expr : ScalarExpression)
| SubString (expr : ScalarExpression) (for_expr from_expr : option ScalarExpression)
| Position (expr in_expr : ScalarExpression)
| Trim (expr : ScalarExpression) (trim_what_expr : option ScalarExpression)
    (trim_where : option TrimWhereField)
| Empty
| Reference (expr : ScalarExpression) (pos : nat)
| Tuple (exprs : list ScalarExpression)
| ScalaFunction (args : list ScalarExpression) (inner : FunctionSummary)
| TableFunction (args : list ScalarExpression) (inner : FunctionSummary)
| If (condition left_expr right_expr : ScalarExpression) (ty : LogicalType)
| IfNull (left_expr right_expr : ScalarExpression) (ty : LogicalType)
| NullIf (left_expr right_expr : ScalarExpression) (ty : LogicalType)
| Coalesce (exprs : list ScalarExpression) (ty : LogicalType)
| CaseWhen (operand_expr : option ScalarExpression)
    (expr_pairs : list (ScalarExpression * ScalarExpression))
    (else_expr : option ScalarExpression) (ty : LogicalType).
End ScalarExpression.
Arguments ScalarExpression F : clear implicits.
End SE.
Abbreviation ScalarExpression := (SE.ScalarExpression _).
Abbreviation Column := (ColumnCatalog (SE.ScalarExpression _)).
(** What an expression is evaluated on: [Option<(&Tuple, &[ColumnRef])>]. *)
Abbreviation Row F := (option (TupleCodec.Tuple F * list (ColumnCatalog (SE.ScalarExpression F)))).

Class ExprForeign `{F : Foreign} := {
  (** user functions, by their summary *)
  fn_eval : FunctionSummary -> list (SE.ScalarExpression F) -> Row F -> Result DataValue;
  fn_return_type : FunctionSummary -> LogicalType;
  (** regex: [escape], and [Regex::new(pattern)?.replace_all(text, dollar-1)] *)
  regex_escape : bytes -> bytes;
  regex_keep_first_group : bytes -> bytes -> option bytes
}.

(** ** Shape *)

Section Shape.
Context {F : Foreign} {EF : ExprForeign}.

Fixpoint unpack_alias (self : ScalarExpression) : ScalarExpression :=
  match self with
  | SE.Alias _ (AliasExpr expr) => unpack_alias expr
  | SE.Alias expr _ => unpack_alias expr
  | _ => self
  end.

Fixpoint return_type (self : ScalarExpression) : Result LogicalType :=
  match self with
  | SE.Constant v => Ok (logical_type v)
  | SE.ColumnRef col => Ok (datatype col)
  | SE.Binary _ _ _ _ ty | SE.Unary _ _ _ ty | SE.TypeCast _ ty | SE.AggCall _ _ _ ty
  | SE.If _ _ _ ty | SE.IfNull _ _ ty | SE.NullIf _ _ ty | SE.Coalesce _ ty
  | SE.CaseWhen _ _ _ ty => Ok ty
  | SE.IsNull _ _ | SE.In _ _ _ | SE.Between _ _ _ _ => Ok LT.Boolean
  | SE.SubString _ _ _ => Ok (LT.Varchar None Characters)
  | SE.Position _ _ => Ok LT.Integer
  | SE.Trim _ _ _ => Ok (LT.Varchar None Characters)
  | SE.Alias expr _ | SE.Reference expr _ => return_type expr
  | SE.Empty | SE.TableFunction _ _ => Panic
  | SE.Tuple exprs =>
      let? types :=
        (fix go (l : list (SE.ScalarExpression F)) : Result (list LogicalType) :=
           match l with
           | [] => Ok []
           | e :: l' => let? t := return_type e in let? ts := go l' in Ok (t :: ts)
           end) exprs in
      Ok (LT.Tuple types)
  | SE.ScalaFunction _ inner => Ok (fn_return_type inner)
  end.

Definition opt_any (f : ScalarExpression -> bool) (o : option ScalarExpression) : bool :=
  match o with Some e => f e | None => false end.

Fixpoint has_table_ref_column (self : ScalarExpression) : bool :=
  match self with
  | SE.Constant _ | SE.Empty => false
  | SE.ColumnRef column =>
      bool_decide (is_Some (column_table column)) && bool_decide (is_Some (column_id column))
  | SE.Alias expr _ | SE.TypeCast expr _ | SE.IsNull _ expr | SE.Unary _ expr _ _
  | SE.Reference expr _ => has_table_ref_column expr
  | SE.Binary _ left_expr right_expr _ _ | SE.IfNull left_expr right_expr _
  | SE.NullIf left_expr right_expr _ => has_table_ref_column left_expr || has_table_ref_column right_expr
  | SE.AggCall _ _ args _ | SE.Tuple args | SE.ScalaFunction args _ | SE.TableFunction args _
  | SE.Coalesce args _ => existsb has_table_ref_column args
  | SE.In _ expr args => has_table_ref_column expr || existsb has_table_ref_column args
  | SE.Between _ expr left_expr right_expr | SE.If expr left_expr right_expr _ =>
      has_table_ref_column expr || has_table_ref_column left_expr || has_table_ref_column right_expr
  | SE.SubString expr for_expr from_expr =>
      has_table_ref_column expr || opt_any has_table_ref_column for_expr
      || opt_any has_table_ref_column from_expr
  | SE.Position expr in_expr => has_table_ref_column expr || has_table_ref_column in_expr
  | SE.Trim expr trim_what_expr _ => has_table_ref_column expr || opt_any has_table_ref_column trim_what_expr
  | SE.CaseWhen operand_expr expr_pairs else_expr _ =>
      opt_any has_table_ref_column operand_expr || opt_any has_table_ref_column else_expr
      || existsb (fun p => has_table_ref_column p.1 || has_table_ref_column p.2) expr_pairs
  end.

(** [||] on results: the second operand is not evaluated after [true]. *)
Definition or_else (a b : Result bool) : Result bool :=
  let? x := a in if x then Ok true else b.
Definition try_any (f : ScalarExpression -> Result bool) : list ScalarExpression -> Result bool :=
  fix go l := match l with [] => Ok false | e :: l' => or_else (f e) (go l') end.
Definition opt_try (f : ScalarExpression -> Result bool) (o : option ScalarExpression) : Result bool :=
  match o with Some e => f e | None => Ok false end.

Fixpoint has_agg_call (self : ScalarExpression) : Result bool :=
  match self with
  | SE.AggCall _ _ _ _ => Ok true
  | SE.Constant _ | SE.ColumnRef _ => Ok false
  | SE.Alias expr _ | SE.TypeCast expr _ | SE.IsNull _ expr | SE.Unary _ expr _ _ => has_agg_call expr
  | SE.Binary _ left_expr right_expr _ _ | SE.IfNull left_expr right_expr _
  | SE.NullIf left_expr right_expr _ => or_else (has_agg_call left_expr) (has_agg_call right_expr)
  | SE.In _ expr args => or_else (has_agg_call expr) (try_any has_agg_call args)
  | SE.Between _ expr left_expr right_expr | SE.If expr left_expr right_expr _ =>
      or_else (or_else (has_agg_call expr) (has_agg_call left_expr)) (has_agg_call right_expr)
  | SE.SubString expr for_expr from_expr =>
      or_else (or_else (has_agg_call expr) (opt_try has_agg_call for_expr)) (opt_try has_agg_call from_expr)
  | SE.Position expr in_expr => or_else (has_agg_call expr) (has_agg_call in_expr)
  | SE.Trim expr trim_what_expr _ => or_else (has_agg_call expr) (opt_try has_agg_call trim_what_expr)
  | SE.Reference _ _ | SE.Empty | SE.TableFunction _ _ => Panic
  | SE.Tuple args | SE.ScalaFunction args _ | SE.Coalesce args _ => try_any has_agg_call args
  | SE.CaseWhen operand_expr expr_pairs else_expr _ =>
      or_else (or_else (opt_try has_agg_call operand_expr)
        ((fix go (l : list (ScalarExpression * ScalarExpression)) : Result bool :=
            match l with
            | [] => Ok false
            | (e1, e2) :: l' => or_else (or_else (has_agg_call e1) (has_agg_call e2)) (go l')
            end) expr_pairs))
        (opt_try has_agg_call else_expr)
  end.
End Shape.

(** ** Names and columns *)

Section Names.
Context {F : Foreign} {C : CastForeign} {TF : TextForeign} {EF : ExprForeign}.

Definition agg_kind_debug (kind : AggKind) : bytes :=
  match kind with
  | Avg => str "Avg" | Max => str "Max" | Min => str "Min" | Sum => str "Sum" | Count => str "Count"
  end.

(** [exprs.iter().map(output_name).join(", ")]. *)
Definition join_names (f : ScalarExpression -> Result bytes) : list ScalarExpression -> Result bytes :=
  fun l => let? names := (fix go l := match l with
                                      | [] => Ok []
                                      | e :: l' => let? s := f e in let? ss := go l' in Ok (s :: ss)
                                      end) l in
           Ok (join (str ", ") names).
Definition opt_name (f : ScalarExpression -> Result bytes) (tag suffix : bytes) (o : option ScalarExpression)
  : Result bytes :=
  match o with
  | Some e => let? s := f e in Ok (tag ++ s ++ suffix)
  | None => Ok []
  end.

Definition trim_where_text (trim_where : option TrimWhereField) (what : bytes) : bytes :=
  match trim_where with
  | Some TrimBoth => str "both '" ++ what ++ str "' from"
  | Some TrimLeading => str "leading '" ++ what ++ str "' from"
  | Some TrimTrailing => str "trailing '" ++ what ++ str "' from"
  | None => match what with [] => [] | _ => str "'" ++ what ++ str "' from" end
  end.

Fixpoint output_name (self : ScalarExpression) : Result bytes :=
  match self with
  | SE.Constant value => value_display value
  | SE.ColumnRef col => Ok (full_name col)
  | SE.Alias _ (AliasName alias) => Ok alias
  | SE.Alias expr (AliasExpr alias_expr) =>
      let? e := output_name expr in
      let? a := output_name alias_expr in
      Ok (str "(" ++ e ++ str ") as (" ++ a ++ str ")")
  | SE.TypeCast expr ty =>
      let? e := output_name expr in Ok (str "cast (" ++ e ++ str " as " ++ type_display ty ++ str ")")
  | SE.IsNull negated expr =>
      let? e := output_name expr in
      Ok (e ++ str " " ++ if negated then str "is not null" else str "is null")
  | SE.Unary op expr _ _ => let? e := output_name expr in Ok (unary_op_display op ++ e)
  | SE.Binary op left_expr right_expr _ _ =>
      let? l := output_name left_expr in
      let? r := output_name right_expr in
      Ok (str "(" ++ l ++ str " " ++ binary_op_display op ++ str " " ++ r ++ str ")")
  | SE.AggCall distinct kind args _ =>
      let? args_str := join_names output_name args in
      Ok (agg_kind_debug kind ++ str "("
            ++ (if allow_distinct kind && distinct then str "distinct " else []) ++ args_str ++ str ")")
  | SE.In negated expr args =>
      let? args_string := join_names output_name args in
      let? e := output_name expr in
      Ok (e ++ str " " ++ (if negated then str "not in" else str "in") ++ str " (" ++ args_string ++ str ")")
  | SE.Between negated expr left_expr right_expr =>
      let? e := output_name expr in
      let? l := output_name left_expr in
      let? r := output_name right_expr in
      Ok (e ++ str " " ++ (if negated then str "not between" else str "between")
            ++ str " [" ++ l ++ str ", " ++ r ++ str "]")
  | SE.SubString expr for_expr from_expr =>
      let? e := output_name expr in
      let? from := opt_name output_name (str ", from: ") [] from_expr in
      let? for_ := opt_name output_name (str ", for: ") [] for_expr in
      Ok (str "substring(" ++ e ++ from ++ for_ ++ str ")")
  | SE.Position expr in_expr =>
      let? e := output_name expr in
      let? i := output_name in_expr in
      Ok (str "position(" ++ e ++ str " in " ++ i ++ str ")")
  | SE.Trim expr trim_what_expr trim_where =>
      let? what := match trim_what_expr with Some e => output_name e | None => Ok (str " ") end in
      let? e := output_name expr in
      Ok (str "trim(" ++ trim_where_text trim_where what ++ str " " ++ e ++ str ")")
  | SE.Reference expr _ => output_name expr
  | SE.Empty => Panic
  | SE.Tuple args => let? args_str := join_names output_name args in Ok (str "(" ++ args_str ++ str ")")
  | SE.ScalaFunction args inner | SE.TableFunction args inner =>
      let? args_str := join_names output_name args in Ok (fn_name inner ++ str "(" ++ args_str ++ str ")")
  | SE.If condition left_expr right_expr _ =>
      let? c := output_name condition in
      let? l := output_name left_expr in
      let? r := output_name right_expr in
      Ok (str "if " ++ c ++ str " (" ++ l ++ str ", " ++ r ++ str ")")
  | SE.IfNull left_expr right_expr _ =>
      let? l := output_name left_expr in
      let? r := output_name right_expr in
      Ok (str "ifnull(" ++ l ++ str ", " ++ r ++ str ")")
  | SE.NullIf left_expr right_expr _ =>
      let? l := output_name left_expr in
      let? r := output_name right_expr in
      Ok (str "ifnull(" ++ l ++ str ", " ++ r ++ str ")")
  | SE.Coalesce exprs _ => let? s := join_names output_name exprs in Ok (str "coalesce(" ++ s ++ str ")")
  | SE.CaseWhen operand_expr expr_pairs else_expr _ =>
      let? pairs :=
        (fix go (l : list (ScalarExpression * ScalarExpression)) : Result (list bytes) :=
           match l with
           | [] => Ok []
           | (when_expr, then_expr) :: l' =>
               let? w := output_name when_expr in
               let? t := output_name then_expr in
               let? rest := go l' in
               Ok ((str "when " ++ w ++ str " then " ++ t) :: rest)
           end) expr_pairs in
      let? operand := opt_name output_name [] (str " ") operand_expr in
      let? els := opt_name output_name (str "else ") (str " ") else_expr in
      Ok (str "case " ++ operand ++ join (str " ") pairs ++ str " " ++ els ++ str "end")
  end.

(** The derived column is built without a default, so [ColumnDesc::new] does not
    fail. *)
Definition derived_column (self : ScalarExpression) : Result Column :=
  let? name := output_name self in
  let? ty := return_type self in
  Ok (column_new name true (mk_desc ty None false None)).
Fixpoint output_column (self : ScalarExpression) : Result Column :=
  match self with
  | SE.ColumnRef col => Ok col
  | SE.Alias _ (AliasExpr expr) | SE.Reference expr _ => output_column expr
  | _ => derived_column self
  end.

Definition collect_all (f : ScalarExpression -> Result (list Column)) : list ScalarExpression -> Result (list Column) :=
  fix go l := match l with
              | [] => Ok []
              | e :: l' => let? a := f e in let? b := go l' in Ok (a ++ b)
              end.

(** [columns_collect]: the columns in the order they are pushed. *)
Fixpoint columns_collect (only_column_ref : bool) (expr : ScalarExpression) : Result (list Column) :=
  let collect := columns_collect only_column_ref in
  let opt (o : option ScalarExpression) : Result (list Column) :=
    match o with Some e => collect e | None => Ok [] end in
  let two a b := let? x := collect a in let? y := collect b in Ok (x ++ y) in
  let three a b c :=
    let? x := collect a in let? y := collect b in let? z := collect c in Ok (x ++ y ++ z) in
  let? own := if only_column_ref then Ok [] else let? c := output_column expr in Ok [c] in
  let? inner :=
    match expr with
    | SE.ColumnRef col => Ok [col]
    | SE.Alias e _ | SE.TypeCast e _ | SE.IsNull _ e | SE.Unary _ e _ _ => collect e
    | SE.Binary _ l r _ _ | SE.IfNull l r _ | SE.NullIf l r _ | SE.Position l r => two l r
    | SE.AggCall _ _ args _ | SE.ScalaFunction args _ | SE.TableFunction args _ | SE.Tuple args
    | SE.Coalesce args _ => collect_all collect args
    | SE.In _ e args => let? x := collect e in let? y := collect_all collect args in Ok (x ++ y)
    | SE.Between _ e l r | SE.If e l r _ => three e l r
    | SE.SubString e for_expr from_expr =>
        let? x := collect e in let? y := opt for_expr in let? z := opt from_expr in Ok (x ++ y ++ z)
    | SE.Trim e what _ => let? x := collect e in let? y := opt what in Ok (x ++ y)
    | SE.Constant _ => Ok []
    | SE.Reference _ _ | SE.Empty => Panic
    | SE.CaseWhen operand_expr expr_pairs else_expr _ =>
        let? x := opt operand_expr in
        let? y := (fix go (l : list (ScalarExpression * ScalarExpression)) : Result (list Column) :=
                     match l with
                     | [] => Ok []
                     | (e1, e2) :: l' =>
                         let? a := collect e1 in let? b := collect e2 in let? c := go l' in Ok (a ++ b ++ c)
                     end) expr_pairs in
        let? z := opt else_expr in
        Ok (x ++ y ++ z)
    end in
  Ok (own ++ inner).
Definition referenced_columns (self : ScalarExpression) (only_column_ref : bool) : Result (list Column) :=
  columns_collect only_column_ref self.
End Names.

(** ** Evaluation *)

Section Eval.
Context {F : Foreign} {C : CastForeign} {TF : TextForeign} {EF : ExprForeign}.

(** [iter().find_position(p)], the index only. *)
Fixpoint find_position {A} (p : A -> Result bool) (l : list A) : Result (option nat) :=
  match l with
  | [] => Ok None
  | x :: l' =>
      let? b := p x in
      if b then Ok (Some 0%nat) else let? i := find_position p l' in Ok (option_map Nat.succ i)
  end.

(** [tuple.values[i]]. *)
Definition value_at (t : TupleCodec.Tuple F) (i : nat) : Result DataValue := unwrap (values t !! i).

Definition check_cast (value : DataValue) (return_type : LogicalType) : Result DataValue :=
  if decide (logical_type value = return_type) then Ok value else cast value return_type.

Definition as_i32 (v : DataValue) : option Z := match v with DV.Int32 z => Some z | _ => None end.
Definition utf8 (v : DataValue) : option bytes := match v with DV.Utf8 s _ _ => Some s | _ => None end.
Definition varchar : LogicalType := LT.Varchar None Characters.
Definition text_value (s : bytes) : DataValue := DV.Utf8 s (Utf8Variable None) Characters.

(** [while from < 0 { from += len_i + 1 }] on 32-bit integers. The loop ends
    within [-from] rounds when [len_i] is not negative, that is on strings below
    two gigabytes; [Panic] also stands for the loop not ending on longer ones. *)
Fixpoint wrap_from (fuel : nat) (from len_i : Z) : Result Z :=
  if 0 <=? from then Ok from
  else if negb (in_i 32 (len_i + 1) && in_i 32 (from + (len_i + 1))) then Panic
  else match fuel with
       | O => Panic
       | S fuel => wrap_from fuel (from + (len_i + 1)) len_i
       end.

(** [String::split_off]: it panics inside of a character. *)
Definition is_char_boundary (s : bytes) (i : nat) : bool :=
  match s !! i with
  | Some b => negb ((0x80 <=? b) && (b <? 0xC0))
  | None => (i =? length s)%nat
  end.
Definition split_off (s : bytes) (i : nat) : Result (bytes * bytes) :=
  if is_char_boundary s i then Ok (take i s, drop i s) else Panic.

Definition saturating_sub_i32 (a b : Z) : Z := Z.max (- 2 ^ 31) (Z.min (2 ^ 31 - 1) (a - b)).

(** [FROM num]: [None] is past the end of the string. *)
Definition substring_from (string : bytes) (num : Z) : Result (option bytes) :=
  let from := saturating_sub_i32 num 1 in
  let len_i := as_i 32 (Z.of_nat (length string)) in
  let? from := wrap_from (Z.to_nat (- from)) from len_i in
  if len_i <? from then Ok None
  else let? '(_, rest) := split_off string (Z.to_nat from) in Ok (Some rest).
(** [FOR num]. *)
Definition substring_for (string : bytes) (num : Z) : Result bytes :=
  let for_i := Z.min (as_u 64 num) (Z.of_nat (length string)) in
  let? '(kept, _) := split_off string (Z.to_nat for_i) in Ok kept.

(** [str::find]: the first position of a pattern. *)
Fixpoint find_sub (s pattern : bytes) : option nat :=
  if bool_decide (take (length pattern) s = pattern) then Some 0%nat
  else match s with
       | [] => None
       | _ :: s' => option_map Nat.succ (find_sub s' pattern)
       end.
Definition position_of (s pattern : bytes) : Result DataValue :=
  match find_sub s pattern with
  | Some pos =>
      let z := as_i 32 (Z.of_nat pos) + 1 in
      if in_i 32 z then Ok (DV.Int32 z) else Panic
  | None => Ok (DV.Int32 0)
  end.

Definition trim_regex (trim_where : option TrimWhereField) (trim_what : bytes) : bytes :=
  let skip := str "(?:" ++ regex_escape trim_what ++ str ")*" in
  let keep := str "([\w\W]*?)" in
  match trim_where with
  | Some TrimBoth | None => str "^" ++ skip ++ keep ++ skip ++ str "$"
  | Some TrimLeading => str "^" ++ skip ++ keep
  | Some TrimTrailing => keep ++ skip ++ str "$"
  end.

(** The [WHEN] test of a [CASE] with an operand. *)
Definition case_equals (operand_value when_value : DataValue) : Result bool :=
  let ty := logical_type operand_value in
  let? evaluator := binary_create ty BinaryOp.Eq in
  let? when_value := check_cast when_value ty in
  let? v := binary_eval evaluator operand_value when_value in
  is_true v.

Definition between_result (negated : bool) (value left right : DataValue) : DataValue :=
  match option_map is_ge (partial_cmp value left), option_map is_le (partial_cmp value right) with
  | Some true, Some true => DV.Boolean (xorb negated true)
  | None, _ | _, None => DV.Null
  | _, _ => DV.Boolean (xorb negated false)
  end.

Fixpoint eval (self : ScalarExpression) (tuple : Row F) : Result DataValue :=
  let text e := let? v := eval e tuple in let? v := cast v varchar in Ok (utf8 v) in
  let num e := let? v := eval e tuple in let? v := cast v LT.Integer in Ok (as_i32 v) in
  match self with
  | SE.Constant val => Ok val
  | SE.ColumnRef col =>
      match tuple with
      | None => Ok DV.Null
      | Some (tuple, schema) =>
          let? i := find_position (fun c => Ok (bool_decide (summary c = summary col))) schema in
          match i with Some i => value_at tuple i | None => Ok DV.Null end
      end
  | SE.Alias expr alias =>
      match tuple with
      | None => Ok DV.Null
      | Some (tuple, schema) =>
          let? i := find_position (fun c =>
            match alias with
            | AliasName alias => Ok (bool_decide (column_table c = None) && bool_decide (column_name c = alias))
            | AliasExpr alias_expr =>
                let? out := output_column alias_expr in Ok (bool_decide (summary out = summary c))
            end) schema in
          match i with
          | Some i => value_at tuple i
          | None => eval expr (Some (tuple, schema))
          end
      end
  | SE.TypeCast expr ty => let? v := eval expr tuple in cast v ty
  | SE.Binary _ left_expr right_expr evaluator _ =>
      let? lv := eval left_expr tuple in
      let? rv := eval right_expr tuple in
      let? ev := ok_or evaluator EvaluatorNotFound in
      binary_eval ev lv rv
  | SE.IsNull negated expr =>
      let? v := eval expr tuple in Ok (DV.Boolean (xorb negated (is_null v)))
  | SE.In negated expr args =>
      let? value := eval expr tuple in
      if is_null value then Ok DV.Null
      else
        (fix go (l : list (SE.ScalarExpression F)) : Result DataValue :=
           match l with
           | [] => Ok (DV.Boolean (xorb negated false))
           | arg :: l' =>
               let? arg_value := eval arg tuple in
               if is_null arg_value then Ok DV.Null
               else if dv_eq arg_value value then Ok (DV.Boolean (xorb negated true))
               else go l'
           end) args
  | SE.Unary _ expr evaluator _ =>
      let? value := eval expr tuple in
      let? ev := ok_or evaluator EvaluatorNotFound in
      unary_eval ev value
  | SE.AggCall _ _ _ _ => Panic
  | SE.Between negated expr left_expr right_expr =>
      let? value := eval expr tuple in
      let? lv := eval left_expr tuple in
      let? rv := eval right_expr tuple in
      Ok (between_result negated value lv rv)
  | SE.SubString expr for_expr from_expr =>
      let? string := text expr in
      match string with
      | None => Ok DV.Null
      | Some string =>
          let? from := match from_expr with
                       | None => Ok (Some string)
                       | Some from_expr =>
                           let? n := num from_expr in
                           match n with None => Ok None | Some n => substring_from string n end
                       end in
          match from with
          | None => Ok DV.Null
          | Some string =>
              match for_expr with
              | None => Ok (text_value string)
              | Some for_expr =>
                  let? n := num for_expr in
                  match n with
                  | None => Ok DV.Null
                  | Some n => let? s := substring_for string n in Ok (text_value s)
                  end
              end
          end
      end
  | SE.Position expr in_expr =>
      let? pattern := text expr in
      let? s := text in_expr in
      position_of (default [] s) (default [] pattern)
  | SE.Trim expr trim_what_expr trim_where =>
      let? string := text expr in
      match string with
      | None => Ok DV.Null
      | Some string =>
          let? trim_what := match trim_what_expr with
                            | None => Ok (str " ")
                            | Some e => let? s := text e in Ok (default [] s)
                            end in
          let? trimmed := unwrap (regex_keep_first_group (trim_regex trim_where trim_what) string) in
          Ok (text_value trimmed)
      end
  | SE.Reference _ pos =>
      match tuple with
      | None => Ok DV.Null
      | Some (tuple, _) => Ok (default DV.Null (values tuple !! pos))
      end
  | SE.Tuple exprs =>
      let? values :=
        (fix go (l : list (SE.ScalarExpression F)) : Result (list DataValue) :=
           match l with
           | [] => Ok []
           | e :: l' => let? v := eval e tuple in let? vs := go l' in Ok (v :: vs)
           end) exprs in
      Ok (DV.Tuple values false)
  | SE.ScalaFunction args inner => let? v := fn_eval inner args tuple in cast v (fn_return_type inner)
  | SE.Empty | SE.TableFunction _ _ => Panic
  | SE.If condition left_expr right_expr ty =>
      let? c := eval condition tuple in
      let? b := is_true c in
      if b then let? v := eval left_expr tuple in check_cast v ty
      else let? v := eval right_expr tuple in check_cast v ty
  | SE.IfNull left_expr right_expr ty =>
      let? value := eval left_expr tuple in
      let? value := if is_null value then eval right_expr tuple else Ok value in
      check_cast value ty
  | SE.NullIf left_expr right_expr ty =>
      let? value := eval left_expr tuple in
      let? rv := eval right_expr tuple in
      check_cast (if dv_eq rv value then DV.Null else value) ty
  | SE.Coalesce exprs ty =>
      let? value :=
        (fix go (l : list (SE.ScalarExpression F)) : Result DataValue :=
           match l with
           | [] => Ok DV.Null
           | e :: l' => let? temp := eval e tuple in if is_null temp then go l' else Ok temp
           end) exprs in
      check_cast value ty
  | SE.CaseWhen operand_expr expr_pairs else_expr ty =>
      let? operand := match operand_expr with
                      | Some e => let? v := eval e tuple in Ok (Some v)
                      | None => Ok None
                      end in
      let? result :=
        (fix go (l : list (SE.ScalarExpression F * SE.ScalarExpression F)) : Result DataValue :=
           match l with
           | [] => match else_expr with Some e => eval e tuple | None => Ok DV.Null end
           | (when_expr, result_expr) :: l' =>
               let? when_value := eval when_expr tuple in
               let? b := match operand with
                         | Some operand_value => case_equals operand_value when_value
                         | None => is_true when_value
                         end in
               if b then eval result_expr tuple else go l'
           end) expr_pairs in
      check_cast result ty
  end.
End Eval.

(** What the catalog asks of expressions. *)
#[global] Instance scalar_expr_ops `{F : Foreign} `{C : !CastForeign} `{TF : TextForeign} `{EF : !ExprForeign}
  : ExprOps (SE.ScalarExpression F) := {|
  Catalog.has_table_ref_column := has_table_ref_column;
  eval_none e := eval e None
|}.

(** ** Visitors *)

(** A visitor is a monadic function on expressions: its errors, and its state
    when it has one, are in the monad. *)
#[global] Instance result_mret {E} : MRet (result E) := fun A a => Ok a.
#[global] Instance result_mbind {E} : MBind (result E) := fun A B k m => result_bind m k.

Section Walk.
Context {F : Foreign} {M : Type -> Type} {MR : MRet M} {MB : MBind M}.
#[local] Notation "'let*' x ':=' m 'in' k" := (mbind (fun x => k) m)
  (at level 10, x binder, m at level 100, k at level 200).

Definition try_all (f : ScalarExpression -> M (SE.ScalarExpression F))
  : list ScalarExpression -> M (list (SE.ScalarExpression F)) :=
  fix go l := match l with
              | [] => mret []
              | e :: l' => let* e := f e in let* l' := go l' in mret (e :: l')
              end.
Definition try_opt (f : ScalarExpression -> M (SE.ScalarExpression F)) (o : option ScalarExpression)
  : M (option (SE.ScalarExpression F)) :=
  match o with Some e => let* e := f e in mret (Some e) | None => mret None end.

(** [walk_mut_expr] with the default methods of [VisitorMut], which visit the
    children in the order of the match; the expression of an alias type is not
    visited. *)
Definition walk_mut_expr (visit : ScalarExpression -> M (SE.ScalarExpression F)) (expr : ScalarExpression)
  : M (SE.ScalarExpression F) :=
  match expr with
  | SE.Constant _ | SE.ColumnRef _ | SE.Empty => mret expr
  | SE.Alias e alias => let* e := visit e in mret (SE.Alias e alias)
  | SE.TypeCast e ty => let* e := visit e in mret (SE.TypeCast e ty)
  | SE.IsNull negated e => let* e := visit e in mret (SE.IsNull negated e)
  | SE.Unary op e ev ty => let* e := visit e in mret (SE.Unary op e ev ty)
  | SE.Binary op l r ev ty => let* l := visit l in let* r := visit r in mret (SE.Binary op l r ev ty)
  | SE.AggCall distinct kind args ty =>
      let* args := try_all visit args in mret (SE.AggCall distinct kind args ty)
  | SE.In negated e args =>
      let* e := visit e in let* args := try_all visit args in mret (SE.In negated e args)
  | SE.Between negated e l r =>
      let* e := visit e in let* l := visit l in let* r := visit r in mret (SE.Between negated e l r)
  | SE.SubString e for_expr from_expr =>
      let* e := visit e in
      let* for_expr := try_opt visit for_expr in
      let* from_expr := try_opt visit from_expr in
      mret (SE.SubString e for_expr from_expr)
  | SE.Position e i => let* e := visit e in let* i := visit i in mret (SE.Position e i)
  | SE.Trim e what wh => let* e := visit e in let* what := try_opt visit what in mret (SE.Trim e what wh)
  | SE.Reference e pos => let* e := visit e in mret (SE.Reference e pos)
  | SE.Tuple exprs => let* exprs := try_all visit exprs in mret (SE.Tuple exprs)
  | SE.ScalaFunction args inner => let* args := try_all visit args in mret (SE.ScalaFunction args inner)
  | SE.TableFunction args inner => let* args := try_all visit args in mret (SE.TableFunction args inner)
  | SE.If c l r ty =>
      let* c := visit c in let* l := visit l in let* r := visit r in mret (SE.If c l r ty)
  | SE.IfNull l r ty => let* l := visit l in let* r := visit r in mret (SE.IfNull l r ty)
  | SE.NullIf l r ty => let* l := visit l in let* r := visit r in mret (SE.NullIf l r ty)
  | SE.Coalesce exprs ty => let* exprs := try_all visit exprs in mret (SE.Coalesce exprs ty)
  | SE.CaseWhen operand pairs els ty =>
      let* operand := try_opt visit operand in
      let* pairs :=
        (fix go (l : list (ScalarExpression * ScalarExpression)) : M (list (SE.ScalarExpression F * SE.ScalarExpression F)) :=
           match l with
           | [] => mret []
           | (e1, e2) :: l' =>
               let* e1 := visit e1 in let* e2 := visit e2 in let* l' := go l' in mret ((e1, e2) :: l')
           end) pairs in
      let* els := try_opt visit els in
      mret (SE.CaseWhen operand pairs els ty)
  end.
End Walk.

Section Visitors.
Context {F : Foreign} {C : CastForeign} {TF : TextForeign} {EF : ExprForeign}.

(** [BindEvaluator]. *)
Definition signed_type (ty : LogicalType) : LogicalType :=
  match ty with
  | LT.UTinyint => LT.Tinyint
  | LT.USmallint => LT.Smallint
  | LT.UInteger => LT.Integer
  | LT.UBigint => LT.Bigint
  | _ => ty
  end.
Definition fn_cast (expr : ScalarExpression) (ty : LogicalType) : Result ScalarExpression :=
  let? own := return_type expr in
  Ok (if decide (own = ty) then expr else SE.TypeCast expr ty).

Fixpoint bind_evaluator (self : ScalarExpression) : Result ScalarExpression :=
  match self with
  | SE.Unary op expr _ _ty =>
      let? expr := bind_evaluator expr in
      let? ty := return_type expr in
      let expr := if is_unsigned_numeric ty then SE.TypeCast expr (signed_type ty) else expr in
      let? evaluator := unary_create ty op in
      Ok (SE.Unary op expr (Some evaluator) _ty)
  | SE.Binary op left_expr right_expr _ _ty =>
      let? left_expr := bind_evaluator left_expr in
      let? right_expr := bind_evaluator right_expr in
      let? lt := return_type left_expr in
      let? rt := return_type right_expr in
      let? ty := max_logical_type lt rt in
      let? left_expr := fn_cast left_expr ty in
      let? right_expr := fn_cast right_expr ty in
      let? evaluator := binary_create ty op in
      Ok (SE.Binary op left_expr right_expr (Some evaluator) _ty)
  | _ => walk_mut_expr bind_evaluator self
  end.

(** [TryReference]. *)
Fixpoint try_reference (output_exprs : list ScalarExpression) (self : ScalarExpression)
  : Result ScalarExpression :=
  let? clone_expr := walk_mut_expr (try_reference output_exprs) self in
  let? self_column := output_column clone_expr in
  let? found := find_position (fun e =>
    let? c := output_column e in Ok (bool_decide (summary self_column = summary c))) output_exprs in
  Ok (match found with
      | Some pos => SE.Reference clone_expr pos
      | None => clone_expr
      end).
End Visitors.
