(* ===== verification/ExprTyping.v ===== *)
(** * Typing of expressions

    Evaluating an expression whose evaluators were bound gives values of the
    type the expression announces: [bind_evaluator] inserts the casts that make
    the operands of every operator agree, and evaluation respects the types of
    the row's columns. *)

From S2P Require Import Prelude Bytes Types LogicalTypes Values Floats Evaluators Cast.
From S2P Require Import Text TupleCodec TableCodec Catalog Expression.

(** ** Induction over expressions *)

Section Children.
Context {F : Foreign}.

Definition opt_children (o : option ScalarExpression) : list (SE.ScalarExpression F) :=
  match o with Some e => [e] | None => [] end.

(** The expressions a visitor descends to, in its order. *)
Definition children (e : ScalarExpression) : list (SE.ScalarExpression F) :=
  match e with
  | SE.Constant _ | SE.ColumnRef _ | SE.Empty => []
  | SE.Alias e _ | SE.TypeCast e _ | SE.IsNull _ e | SE.Unary _ e _ _ | SE.Reference e _ => [e]
  | SE.Binary _ l r _ _ | SE.Position l r | SE.IfNull l r _ | SE.NullIf l r _ => [l; r]
  | SE.AggCall _ _ args _ | SE.Tuple args | SE.ScalaFunction args _ | SE.TableFunction args _
  | SE.Coalesce args _ => args
  | SE.In _ e args => e :: args
  | SE.Between _ e l r | SE.If e l r _ => [e; l; r]
  | SE.SubString e o1 o2 => e :: opt_children o1 ++ opt_children o2
  | SE.Trim e o _ => e :: opt_children o
  | SE.CaseWhen o pairs els _ =>
      opt_children o ++ concat (map (fun p => [p.1; p.2]) pairs) ++ opt_children els
  end.

Lemma expr_ind (P : ScalarExpression -> Prop) :
  (forall e, Forall P (children e) -> P e) -> forall e, P e.
Proof.
  intros H. fix IH 1. intros e. apply H.
  assert (Hopt : forall o, Forall P (opt_children o)) by (intros [e'|]; repeat constructor; apply IH).
  assert (Hlist : forall l, Forall P l) by (induction l; constructor; [apply IH | assumption]).
  assert (Hpairs : forall pairs, Forall P (concat (map (fun p => [p.1; p.2]) pairs))).
  { induction pairs as [|[e1 e2] pairs IHp]; cbn [map concat app fst snd]; [constructor |].
    constructor; [apply IH | constructor; [apply IH | exact IHp]]. }
  destruct e; cbn [children]; repeat constructor; repeat apply Forall_app_2;
    first [apply IH | apply Hopt | apply Hpairs | apply Hlist].
Qed.
End Children.

(** ** Operators keep values in range *)

Section Operators.
Context {F : Foreign}.

Lemma sized_null : sized DV.Null = true.
Proof. reflexivity. Qed.

Lemma int_value_sized vt z l a : int_proj vt l = Some a -> in_int vt z = true -> sized (int_value vt z) = true.
Proof. destruct vt; destruct l; cbn; try discriminate; auto. Qed.

Lemma of_cmp_op_sized op c v : of_cmp_op op c = Ok v -> sized v = true.
Proof. intros H. apply of_cmp_op_bool in H as [b ->]. reflexivity. Qed.

Lemma int_proj_sized vt l z : int_proj vt l = Some z -> sized l = true -> in_int vt z = true.
Proof. destruct vt; destruct l; cbn; try discriminate; intros [= <-]; auto. Qed.

Lemma in_int_rem vt a b : in_int vt a = true -> in_int vt (Z.rem a b) = true.
Proof.
  intros Ha. pose proof (Z.rem_bound_abs a b). destruct (decide (b = 0)) as [-> | Hb].
  { now rewrite Z.rem_0_r_ext by lia. }
  assert (Z.abs (Z.rem a b) <= Z.abs a) by (rewrite <- Z.rem_abs by exact Hb; apply Z.rem_le; lia).
  assert (0 <= a -> 0 <= Z.rem a b) by (intros; now apply Z.rem_nonneg).
  assert (a <= 0 -> Z.rem a b <= 0) by (intros; now apply Z.rem_nonpos).
  pose proof (Z.pow_nonneg 2 (int_width vt - 1)). unfold in_int in *.
  destruct (int_signed vt); rewrite ?in_i_iff, ?in_u_iff in *; lia.
Qed.

Lemma int_eval_sized vt op l r v : sized l = true ->
  int_binary_eval vt op l r = Ok v -> sized v = true.
Proof.
  intros Hl H. unfold int_binary_eval in H. apply eval2_ok in H as [-> | (a & b & Ha & Hb & H)]; [reflexivity |].
  assert (Hck : forall z, checked vt z = Ok v -> sized v = true).
  { intros z Hz. unfold checked in Hz. destruct (in_int vt z) eqn:E; [| discriminate].
    inv_ok. now apply (int_value_sized vt z l a). }
  destruct op; try (eapply of_cmp_op_sized; exact H); try (eapply Hck; exact H).
  - inv_ok. reflexivity.
  - destruct (_ || _) in H; [discriminate |]. inv_ok. apply (int_value_sized vt _ l a); [exact Ha |].
    now apply in_int_rem, (int_proj_sized vt l).
Qed.

Lemma unpack_nonneg v p a b : 0 <= v -> unpack v p = Ok (a, b) -> 0 <= a.
Proof.
  unfold unpack. intros Hv H. inv_ok. destruct (_ <=? _) in H; inv_ok. apply Z.land_nonneg. now left.
Qed.

Lemma carry_seconds_nonneg fuel a n : 0 <= a -> 0 <= (carry_seconds fuel a n).1.
Proof.
  revert a n. induction fuel as [|fuel IH]; intros a n Ha; cbn [carry_seconds fst]; [exact Ha |].
  destruct (_ <? _); [apply IH; lia | exact Ha].
Qed.

Lemma time_eval_sized op l r v : sized l = true -> sized r = true ->
  time_binary_eval op l r = Ok v -> sized v = true.
Proof.
  intros Hl Hr H. unfold time_binary_eval in H.
  apply eval2_ok in H as [-> | ([v1 p1] & [v2 p2] & Ha & Hb & H)]; [reflexivity |].
  destruct l; try discriminate. destruct r; try discriminate. cbn in Ha, Hb, Hl, Hr.
  injection Ha as -> ->. injection Hb as -> ->. rewrite in_u_iff in *.
  destruct op; try (inv_ok; eapply of_cmp_op_sized; eassumption).
  - unfold time_plus in H. inv_ok. destruct (_ <=? _) in H; [discriminate |].
    pose proof (carry_seconds_nonneg 5 z (z0 + z2)) as Hn.
    destruct (carry_seconds 5 z (z0 + z2)) as [s1 n]. cbn [fst] in Hn.
    destruct (_ <=? _) in H; [discriminate |]. destruct (_ <? _) in H; inv_ok; [reflexivity |].
    cbn [sized value_ok]. eapply pack_range; [| eassumption].
    apply unpack_nonneg in Hok, Hok0; lia.
  - unfold time_minus in H. inv_ok. destruct (_ <? _) eqn:E in H; inv_ok; [reflexivity |].
    bool_to_prop. cbn [sized value_ok]. eapply pack_range; [| eassumption]. lia.
Qed.

Lemma evaluator_sized ty op ev l r v :
  binary_create ty op = Ok ev -> sized l = true -> sized r = true ->
  binary_eval ev l r = Ok v -> sized v = true.
Proof.
  intros Hc Hl Hr He. destruct ev as [vt op' | op' | op' | op' | op' | | op']; cbn [binary_eval] in He.
  - unfold numeric_binary_eval in He. destruct vt; try exact (int_eval_sized _ _ l r v Hl He).
    all: apply eval2_ok in He as [-> | (a & b & _ & _ & He)]; [reflexivity |].
    all: destruct op'; unfold decimal_arith in He; inv_ok; try reflexivity; try discriminate;
      try (eapply of_cmp_op_sized; eassumption).
  - eapply time_eval_sized; [exact Hl | exact Hr | exact He].
  - apply eval2_ok in He as [-> | ([a p] & [b q] & _ & _ & He)]; [reflexivity |].
    inv_ok. destruct a0, a1; inv_ok; try reflexivity; eapply of_cmp_op_sized; eassumption.
  - unfold boolean_binary_eval, boolean_and_eval, boolean_or_eval, eval2 in He.
    destruct op'; destruct l as [|[]| | | | | | | | | | | | | | | | |];
      destruct r as [|[]| | | | | | | | | | | | | | | | |]; cbn in He; inv_ok; reflexivity || discriminate.
  - apply eval2_ok in He as [-> | (a & b & Ha & Hb & He)]; [reflexivity |].
    destruct l; try discriminate. destruct r; try discriminate. cbn in Ha, Hb, Hl, Hr.
    injection Ha as ->. injection Hb as ->.
    destruct op'; inv_ok; try reflexivity; try (eapply of_cmp_op_sized; eassumption).
    cbn [sized value_ok]. now rewrite forallb_app, Hl, Hr.
  - inv_ok. reflexivity.
  - unfold tuple_binary_eval in He. destruct l; destruct r; inv_ok; try reflexivity; try discriminate.
    destruct op'; inv_ok; try reflexivity; (destruct (tuple_cmp _ _ _ _); inv_ok; [eapply of_cmp_op_sized; eassumption | reflexivity]).
Qed.

(** A unary operator keeps the type of its operand. *)
Lemma unary_typed ty op ev v v' :
  unary_create ty op = Ok ev -> typed ty v -> unary_eval ev v = Ok v' -> typed ty v'.
Proof.
  intros Hc [Ht Hs] He.
  destruct ty; try discriminate Hc; destruct op; try discriminate Hc; cbn in Hc; inv_ok;
    destruct v; try discriminate Ht; cbn in He;
    try (match type of He with (if ?b then _ else _) = _ => destruct b eqn:E end);
    inv_ok; try (now split); now (split; [reflexivity | exact E]).
Qed.
End Operators.

(** ** Well-formed and bound expressions *)

(** A predicate on every node a visitor reaches. *)
#[local] Set Warnings "-register-all".
Inductive all_nodes {F : Foreign} (P : SE.ScalarExpression F -> Prop) (e : SE.ScalarExpression F) : Prop :=
| all_nodes_intro : P e -> Forall (all_nodes P) (children e) -> all_nodes P e.

Class ExprLaws `{F : Foreign} (EF : ExprForeign) : Prop := {
  (** functions return values in the range of their variant *)
  fn_eval_sized : forall f args row v, fn_eval f args row = Ok v -> sized v = true;
  (** replacing in a byte string gives one *)
  regex_keep_bytes : forall p s t, regex_keep_first_group p s = Some t ->
    forallb (in_u 8) s = true -> forallb (in_u 8) t = true
}.

Section Typing.
Context {F : Foreign} {L : ForeignLaws F} {C : CastForeign} {CL : CastLaws C}.
Context {TF : TextForeign} {EF : ExprForeign} {EL : ExprLaws EF}.
Variables (tuple : TupleCodec.Tuple F) (schema : list (ColumnCatalog (SE.ScalarExpression F))).
#[local] Abbreviation row := (Some (tuple, schema)).

Definition alias_matches (alias : AliasType ScalarExpression) (c : Column) : Prop :=
  match alias with
  | AliasName name => column_table c = None /\ column_name c = name
  | AliasExpr e => exists out, output_column e = Ok out /\ summary out = summary c
  end.

(** The columns a node resolves to carry the node's type, and the operators
    announce the type the binder gives them. *)
Definition resolves (e : ScalarExpression) : Prop :=
  match e with
  | SE.Constant v => sized v = true
  | SE.ColumnRef col => forall c, c ∈ schema -> summary c = summary col -> datatype c = datatype col
  | SE.Alias expr alias => forall c ty, c ∈ schema -> alias_matches alias c ->
      return_type expr = Ok ty -> datatype c = ty
  | SE.Reference expr pos => forall c ty, schema !! pos = Some c -> return_type expr = Ok ty ->
      datatype c = ty
  | _ => True
  end.
Definition announces (e : ScalarExpression) : Prop :=
  match e with
  | SE.Unary op expr _ ty =>
      match op with UnaryOp.Not => ty = LT.Boolean | _ => return_type expr = Ok ty end
  | SE.Binary op l r _ ty => forall lt rt m, return_type l = Ok lt -> return_type r = Ok rt ->
      max_logical_type lt rt = Ok m -> ty = result_type m op
  | _ => True
  end.
Definition well_formed : ScalarExpression -> Prop := all_nodes (fun e => resolves e /\ announces e).

(** After binding: every operator has the evaluator of its operands' type. *)
Definition has_evaluator (e : ScalarExpression) : Prop :=
  match e with
  | SE.Unary op expr ev ty => exists u, ev = Some u /\ unary_create ty op = Ok u /\ return_type expr = Ok ty
  | SE.Binary op l r ev ty => exists m b, ev = Some b /\ binary_create m op = Ok b
      /\ return_type l = Ok m /\ return_type r = Ok m /\ ty = result_type m op
  | _ => True
  end.
Definition bound : ScalarExpression -> Prop := all_nodes (fun e => resolves e /\ has_evaluator e).

(** ** Binding *)

(** Unfold a default visit in the [result] monad. *)
Ltac unfold_walk H := cbv [walk_mut_expr mbind result_mbind mret result_mret] in H; cbn beta iota in H.

Lemma try_all_children (f : ScalarExpression -> Result ScalarExpression) l l' : try_all f l = Ok l' -> Forall2 (fun a b => f a = Ok b) l l'.
Proof.
  revert l'. induction l as [|e l IH]; intros l' H; cbn [try_all] in H; unfold_walk H; inv_ok; constructor; auto.
Qed.
Lemma try_opt_children (f : ScalarExpression -> Result ScalarExpression) o o' : try_opt f o = Ok o' ->
  Forall2 (fun a b => f a = Ok b) (opt_children o) (opt_children o').
Proof. destruct o; cbn [try_opt opt_children]; intros H; unfold_walk H; inv_ok; repeat constructor; assumption. Qed.

(** A default visit visits every child and keeps the node. *)
Lemma walk_children (f : ScalarExpression -> Result ScalarExpression) e e' : walk_mut_expr f e = Ok e' ->
  Forall2 (fun a b => f a = Ok b) (children e) (children e').
Proof.
  intros H. destruct e; unfold_walk H; inv_ok; cbn [children];
    repeat first [ apply try_all_children; assumption | apply try_opt_children; assumption
                 | assumption | constructor | apply Forall2_app ].
  revert a0 Hok0. induction expr_pairs as [|[e1 e2] pairs IH]; intros ps H; inv_ok; [constructor |].
  cbn. repeat constructor; try assumption. now apply IH.
Qed.

Lemma return_type_tuple exprs :
  return_type (SE.Tuple exprs) = let? types := try_map return_type exprs in Ok (LT.Tuple types).
Proof.
  cbn [return_type]. f_equal. induction exprs as [|e l IH]; [reflexivity |]. cbn [try_map]. now rewrite IH.
Qed.

Lemma return_types_same l l' : Forall2 (fun a b => return_type b = return_type a) l l' ->
  try_map return_type l' = try_map return_type l.
Proof. induction 1 as [|a b l l' Hab _ IH]; [reflexivity |]. cbn [try_map]. now rewrite Hab, IH. Qed.

Definition same_type (a b : ScalarExpression) : Prop := return_type b = return_type a.

(** The nodes the visitor leaves alone keep their type and stay resolved. *)
Lemma walk_keeps (f : ScalarExpression -> Result ScalarExpression) e e' : walk_mut_expr f e = Ok e' ->
  Forall2 same_type (children e) (children e') ->
  same_type e e' /\ (resolves e -> resolves e').
Proof.
  intros H Hs. unfold same_type.
  destruct e; unfold_walk H; inv_ok; cbn [children] in Hs; try (now split).
  - apply Forall2_cons in Hs as [Hs _]. split; [exact Hs |]. cbn [resolves].
    intros Hr c ty. unfold same_type in Hs. rewrite Hs. apply Hr.
  - apply Forall2_cons in Hs as [Hs _]. split; [exact Hs |]. cbn [resolves].
    intros Hr c ty. unfold same_type in Hs. rewrite Hs. apply Hr.
  - split; [| auto]. rewrite !return_type_tuple. now rewrite (return_types_same exprs a).
Qed.

Lemma fn_cast_spec e ty e' : fn_cast e ty = Ok e' -> bound e ->
  bound e' /\ return_type e' = Ok ty.
Proof.
  unfold fn_cast. intros H He. inv_ok. destruct (decide (a = ty)) as [-> | _]; [auto |].
  split; [| reflexivity]. constructor; [now split |]. constructor; [exact He | constructor].
Qed.

(** Binding an expression gives every operator its evaluator and keeps the
    type. *)
Lemma bind_bound e : well_formed e -> forall e', bind_evaluator e = Ok e' -> bound e' /\ same_type e e'.
Proof.
  induction e as [e IH] using expr_ind. intros [[Hr Ha] Hch] e' H.
  assert (Hkids : forall l', Forall2 (fun a b => bind_evaluator a = Ok b) (children e) l' ->
            Forall bound l' /\ Forall2 same_type (children e) l').
  { revert IH Hch. generalize (children e). intros l IH Hch l' H2.
    induction H2 as [|a b l l' Hab _ IH2]; [split; constructor |].
    apply Forall_cons_1 in IH as [IHa IH], Hch as [Hca Hch].
    destruct (IHa Hca b Hab), (IH2 IH Hch). split; constructor; assumption. }
  assert (Hwalk : walk_mut_expr bind_evaluator e = Ok e' -> has_evaluator e' -> bound e' /\ same_type e e').
  { intros Hw He. destruct (Hkids _ (walk_children _ _ _ Hw)) as [Hb Hs].
    destruct (walk_keeps _ _ _ Hw Hs) as [Hty Hres]. split; [| exact Hty].
    constructor; [split; [now apply Hres | exact He] | exact Hb]. }
  destruct e; try (apply Hwalk; [exact H |]; cbn [bind_evaluator] in H; unfold_walk H; inv_ok; exact I).
  - cbn [bind_evaluator] in H. inv_ok.
    destruct (Hkids [a]) as [Hb Hs]; [now repeat constructor |].
    apply Forall_cons_1 in Hb as [Hb _]. apply Forall2_cons in Hs as [Hs _]. unfold same_type in Hs.
    assert (Hu : is_unsigned_numeric a0 = false) by (destruct a0; cbn in Hok1; reflexivity || discriminate).
    rewrite Hu. split; [| reflexivity].
    assert (Hty : a0 = ty).
    { destruct op; cbn [announces] in Ha; try (rewrite <- Hs, Hok0 in Ha; congruence).
      destruct a0; cbn in Hok1; congruence. }
    subst a0. constructor; [split; [exact I |] | constructor; [assumption | constructor]].
    exists a1. repeat split; assumption.
  - cbn [bind_evaluator] in H. inv_ok.
    destruct (Hkids [a; a0]) as [Hb Hs]; [now repeat constructor |].
    apply Forall_cons_1 in Hb as [Hb1 Hb]. apply Forall_cons_1 in Hb as [Hb2 _].
    apply Forall2_cons in Hs as [Hs1 Hs]. apply Forall2_cons in Hs as [Hs2 _].
    destruct (fn_cast_spec _ _ _ Hok4 Hb1), (fn_cast_spec _ _ _ Hok5 Hb2).
    split; [| reflexivity]. constructor; [split; [exact I |] | constructor; [assumption | constructor; [assumption | constructor]]].
    exists a3, a6. repeat split; try assumption. unfold same_type in *. cbn [announces] in Ha.
    apply (Ha a1 a2 a3); congruence.
Qed.

(** ** Evaluation *)

Lemma check_cast_typed v ty v' : sized v = true -> check_cast v ty = Ok v' -> typed ty v'.
Proof.
  unfold check_cast. intros Hs H. destruct (decide (logical_type v = ty)) as [<- | _].
  - inv_ok. split; [apply logical_type_typed | exact Hs].
  - eapply cast_result_typed; eassumption.
Qed.

Lemma find_position_spec {A} (p : A -> Result bool) l i : find_position p l = Ok (Some i) ->
  exists x, l !! i = Some x /\ p x = Ok true.
Proof.
  revert i. induction l as [|x l IH]; intros i H; cbn [find_position] in H; inv_ok; [discriminate |].
  destruct a; inv_ok.
  - injection H as <-. eauto.
  - destruct a; [| discriminate]. injection H as <-. cbn. eauto.
Qed.

Hypothesis Hrow : Forall2 (fun c v => typed (datatype c) v) schema (values tuple).

Lemma value_at_typed i c v : schema !! i = Some c -> value_at tuple i = Ok v -> typed (datatype c) v.
Proof.
  intros Hc Hv. unfold value_at in Hv. destruct (values tuple !! i) as [w|] eqn:Ew; cbn in Hv; inv_ok.
  exact (Forall2_lookup_lr _ _ _ _ _ _ Hrow Hc Ew).
Qed.

Definition sound_value (e : ScalarExpression) (v : DataValue) : Prop :=
  sized v = true /\ forall ty, return_type e = Ok ty -> has_type ty v = true.
Definition sound (e : ScalarExpression) : Prop := forall v, eval e row = Ok v -> sound_value e v.

(** A result of a known type. *)
Lemma sound_typed v ty : typed ty v ->
  sized v = true /\ forall t, @Ok (DatabaseError F) _ ty = Ok t -> has_type t v = true.
Proof. intros [Ht Hs]. split; [exact Hs |]. intros t H. now inv_ok. Qed.

Lemma text_sized e s : sound e ->
  (let? v := eval e row in let? v := cast v varchar in Ok (utf8 v)) = Ok (Some s) ->
  forallb (in_u 8) s = true.
Proof.
  intros He H. inv_ok. destruct (He _ Hok) as [Hs _].
  destruct (cast_result_typed _ _ _ Hs Hok0) as [_ Hz]. destruct a0; try discriminate H.
  cbn in H. injection H as ->. exact Hz.
Qed.

Lemma forallb_take_drop (f : Z -> bool) n l : forallb f l = true ->
  forallb f (take n l) = true /\ forallb f (drop n l) = true.
Proof. intros H. rewrite <- (take_drop n l), forallb_app in H. now apply andb_prop in H. Qed.

Lemma substring_from_bytes s n r : substring_from s n = Ok (Some r) ->
  forallb (in_u 8) s = true -> forallb (in_u 8) r = true.
Proof.
  unfold substring_from, split_off. intros H Hs. inv_ok. destruct (_ <? _) in H; inv_ok; [discriminate |].
  destruct (is_char_boundary _ _) in Hok0; inv_ok. injection H as <-. now apply forallb_take_drop.
Qed.
Lemma substring_for_bytes s n r : substring_for s n = Ok r ->
  forallb (in_u 8) s = true -> forallb (in_u 8) r = true.
Proof.
  unfold substring_for, split_off. intros H Hs. inv_ok.
  destruct (is_char_boundary _ _) in Hok; inv_ok. now apply forallb_take_drop.
Qed.

Lemma text_typed s : forallb (in_u 8) s = true -> typed varchar (text_value s).
Proof. now split. Qed.

Lemma null_typed ty : typed ty DV.Null.
Proof. split; [apply has_type_null | reflexivity]. Qed.
Lemma bool_typed b : typed LT.Boolean (DV.Boolean b).
Proof. now split. Qed.

Lemma column_sound col v : resolves (SE.ColumnRef col) -> eval (SE.ColumnRef col) row = Ok v ->
  typed (datatype col) v.
Proof.
  intros Hr H. cbn [eval] in H. inv_ok. destruct a as [i|]; [| inv_ok; apply null_typed].
  apply find_position_spec in Hok as (c & Hc & Hs). inv_ok. apply bool_decide_eq_true in Hs.
  rewrite <- (Hr c); [now apply (value_at_typed i) | now apply list_elem_of_lookup_2 with i | exact Hs].
Qed.

Lemma alias_sound expr alias : resolves (SE.Alias expr alias) -> sound expr -> sound (SE.Alias expr alias).
Proof.
  intros Hr He v H. cbn [eval] in H. inv_ok. destruct a as [i|]; [| exact (He v H)].
  apply find_position_spec in Hok as (c & Hc & Hm). pose proof (value_at_typed i c v Hc H) as [Ht Hs].
  split; [exact Hs |]. intros ty Hty. rewrite <- (Hr c ty); [exact Ht | now apply list_elem_of_lookup_2 with i | | exact Hty].
  destruct alias; cbn [alias_matches]; inv_ok.
  - apply andb_prop in Hm as [H1 H2]. apply bool_decide_eq_true in H1, H2. now split.
  - apply bool_decide_eq_true in Hm. eauto.
Qed.

Lemma in_sound negated e args v : eval (SE.In negated e args) row = Ok v -> typed LT.Boolean v.
Proof.
  cbn [eval]. intros H. inv_ok. destruct (is_null a); [inv_ok; apply null_typed |].
  induction args as [|arg args IH]; inv_ok; [apply bool_typed |].
  destruct (is_null a0); [inv_ok; apply null_typed |].
  destruct (dv_eq a0 a); [inv_ok; apply bool_typed | now apply IH].
Qed.

Lemma substring_sound e fo fr v : Forall sound (children (SE.SubString e fo fr)) ->
  eval (SE.SubString e fo fr) row = Ok v -> typed varchar v.
Proof.
  intros Hk H. apply Forall_cons_1 in Hk as [He _].
  destruct (let? v := eval e row in let? v := cast v varchar in Ok (utf8 v)) as [o| |] eqn:Et;
    cbn [eval] in H; rewrite Et in H; cbn [result_bind] in H; try discriminate.
  destruct o as [s|]; [| inv_ok; apply null_typed]. pose proof (text_sized e s He Et) as Hs.
  apply result_bind_ok in H as ([r|] & Hr & H); [| inv_ok; apply null_typed].
  assert (Hb : forallb (in_u 8) r = true).
  { destruct fr as [fr|]; inv_ok; [| now injection Hr as <-].
    destruct (as_i32 _); [eapply substring_from_bytes; eassumption | discriminate]. }
  destruct fo as [fo|]; inv_ok; [| now apply text_typed].
  destruct (as_i32 _); inv_ok; [| apply null_typed]. eapply text_typed, substring_for_bytes; eassumption.
Qed.

Lemma trim_sound e what wh v : sound e -> eval (SE.Trim e what wh) row = Ok v -> typed varchar v.
Proof.
  intros He H. destruct (let? v := eval e row in let? v := cast v varchar in Ok (utf8 v)) as [o| |] eqn:Et;
    cbn [eval] in H; rewrite Et in H; cbn [result_bind] in H; try discriminate.
  destruct o as [s|]; [| inv_ok; apply null_typed]. pose proof (text_sized e s He Et) as Hs.
  apply result_bind_ok in H as (tw & _ & H). apply result_bind_ok in H as (t & Ht & H). inv_ok.
  apply unwrap_ok in Ht. eapply text_typed, regex_keep_bytes; eassumption.
Qed.

Lemma position_sound s p v : position_of s p = Ok v -> typed LT.Integer v.
Proof.
  unfold position_of. destruct (find_sub s p); [| intros; inv_ok; now split].
  destruct (in_i 32 _) eqn:E; intros; inv_ok. now split.
Qed.

Lemma tuple_sound exprs v : Forall sound exprs -> eval (SE.Tuple exprs) row = Ok v -> sound_value (SE.Tuple exprs) v.
Proof.
  intros Hk H. cbn [eval] in H. inv_ok. unfold sound_value. rewrite return_type_tuple. cbn [sized].
  assert (Hv : forallb sized a = true /\ forall tys, try_map return_type exprs = Ok tys -> have_types a tys = true).
  { revert a Hok. induction Hk as [|e l He _ IH]; intros vs H; inv_ok; [now split |].
    destruct (He _ Hok) as [Hs Ht]. destruct (IH _ eq_refl) as [Hss Hts]. cbn [forallb try_map]. rewrite Hs, Hss.
    split; [reflexivity |]. intros tys Htys. inv_ok. cbn [have_types]. rewrite (Ht _ eq_refl), (Hts _ eq_refl). reflexivity. }
  destruct Hv as [Hs Ht]. split; [exact Hs |]. intros ty Hty. inv_ok. rewrite has_type_tuple. exact (Ht _ eq_refl).
Qed.

Lemma coalesce_sound exprs ty v : Forall sound exprs -> eval (SE.Coalesce exprs ty) row = Ok v -> typed ty v.
Proof.
  intros Hk H. cbn [eval] in H. inv_ok. eapply check_cast_typed; [| exact H]. clear H. revert a Hok.
  induction Hk as [|e l He _ IH]; intros w H; inv_ok; [reflexivity |].
  destruct (is_null a); [now apply IH | inv_ok; now apply (He w)].
Qed.

Lemma case_sound operand pairs els ty v : Forall sound (children (SE.CaseWhen operand pairs els ty)) ->
  eval (SE.CaseWhen operand pairs els ty) row = Ok v -> typed ty v.
Proof.
  intros Hk H. cbn [eval children] in *. apply Forall_app in Hk as [_ Hk]. apply Forall_app in Hk as [Hp Hels].
  inv_ok. eapply check_cast_typed; [| exact H]. clear H Hok. revert a0 Hok0.
  induction pairs as [|[w r] pairs IH]; intros x H.
  - destruct els as [els|]; inv_ok; [| reflexivity]. apply Forall_cons_1 in Hels as [He _]. now apply He.
  - cbn [map concat app] in Hp. apply Forall_cons_1 in Hp as [_ Hp]. apply Forall_cons_1 in Hp as [Hr Hp].
    inv_ok. destruct a1; [now apply Hr | now apply IH].
Qed.

Lemma sound_sized e v : sound e -> eval e row = Ok v -> sized v = true.
Proof. intros He Hv. apply (He v Hv). Qed.

(** Evaluation of a bound expression is sound. *)
Lemma eval_sound e : bound e -> sound e.
Proof.
  induction e as [e IH] using expr_ind. intros [[Hr He] Hch].
  assert (Hk : Forall sound (children e)).
  { rewrite Forall_forall in *. intros x Hx. exact (IH x Hx (Hch x Hx)). }
  destruct e; try (pose proof Hk as Hk1; apply Forall_cons_1 in Hk1 as [H1 Hk1]).
  3: { now apply alias_sound. }
  all: intros w Hw; try (cbn [eval] in Hw; discriminate Hw); cbn [return_type].
  - cbn [eval] in Hw. inv_ok. apply sound_typed. split; [apply logical_type_typed | exact Hr].
  - now apply sound_typed, column_sound.
  - cbn [eval] in Hw. inv_ok. apply sound_typed. eapply cast_result_typed; [eapply (sound_sized _ _ H1); eassumption | exact Hw].
  - cbn [eval] in Hw. inv_ok. apply sound_typed, bool_typed.
  - cbn [eval] in Hw. destruct He as (u & -> & Hu & Ht). inv_ok. cbn in Hok0. inv_ok.
    apply sound_typed. destruct (H1 _ Hok). eapply unary_typed; [exact Hu | split; eauto | exact Hw].
  - cbn [eval] in Hw. destruct He as (m & b & -> & Hb & Hl & Hrt & ->). inv_ok. cbn in Hok1. inv_ok.
    apply Forall_cons_1 in Hk1 as [H2 _]. destruct (H1 _ Hok), (H2 _ Hok0). apply sound_typed. split.
    + eapply evaluator_typed; [exact Hb | | | exact Hw]; auto.
    + eapply evaluator_sized; [exact Hb | | | exact Hw]; assumption.
  - eapply sound_typed, in_sound; eassumption.
  - cbn [eval] in Hw. inv_ok. apply sound_typed. unfold between_result.
    repeat case_match; apply bool_typed || apply null_typed.
  - eapply sound_typed, substring_sound; eassumption.
  - cbn [eval] in Hw. inv_ok. eapply sound_typed, position_sound; eassumption.
  - eapply sound_typed, trim_sound; eassumption.
  - cbn [eval] in Hw. inv_ok. destruct (values tuple !! pos) as [x|] eqn:Ex; cbn [default].
    + destruct (Forall2_lookup_r _ _ _ _ _ Hrow Ex) as (c & Hc & Ht & Hs).
      split; [exact Hs |]. intros ty Hty. now rewrite <- (Hr c ty).
    + split; [reflexivity |]. intros. apply has_type_null.
  - exact (tuple_sound _ _ Hk Hw).
  - cbn [eval] in Hw. inv_ok. apply sound_typed. eapply cast_result_typed; [eapply fn_eval_sized; exact Hok | exact Hw].
  - apply Forall_cons_1 in Hk1 as [H2 Hk1]. apply Forall_cons_1 in Hk1 as [H3 _].
    cbn [eval] in Hw. inv_ok. apply sound_typed. destruct a0; inv_ok; (eapply check_cast_typed; [| exact Hw]);
      [eapply (sound_sized _ _ H2); eassumption | now apply (sound_sized _ _ H3)].
  - apply Forall_cons_1 in Hk1 as [H2 _]. cbn [eval] in Hw. inv_ok. apply sound_typed.
    eapply check_cast_typed; [| exact Hw]. destruct (is_null a); [eapply (sound_sized _ _ H2); eassumption | inv_ok; now apply (sound_sized _ _ H1)].
  - cbn [eval] in Hw. inv_ok. apply sound_typed. eapply check_cast_typed; [| exact Hw].
    destruct (dv_eq _ _); [reflexivity | eapply (sound_sized _ _ H1); eassumption].
  - eapply sound_typed, coalesce_sound; eassumption.
  - eapply sound_typed, case_sound; eassumption.
Qed.

(** C8. Expressions are type-safe: when the binder's types are consistent with
    the schema, binding the evaluators succeeded and evaluation of the bound
    expression on a row of that schema returns a value, the value is null or of
    the type the expression announces, element by element for tuples, and its
    integers are in the range of their machine type. *)
Theorem bound_eval_typed e e' ty v :
  well_formed e -> bind_evaluator e = Ok e' -> return_type e = Ok ty -> eval e' row = Ok v ->
  has_type ty v = true /\ sized v = true.
Proof.
  intros Hw Hb Ht Hv. destruct (bind_bound e Hw e' Hb) as [He Hs].
  destruct (eval_sound e' He v Hv) as [Hz Hty]. split; [| exact Hz]. apply Hty. now rewrite Hs.
Qed.
End Typing.

(** ** Witness *)

(** No functions; patterns match nothing. *)
Module RefExpr.
Section RefExpr.
Context {F : Foreign}.
#[global] Instance ref_text : TextForeign := {|
  float_debug _ b := show_int b;
  float_fixed _ b _ := show_int b;
  units_display _ := []
|}.
#[global] Instance ref_expr : ExprForeign := {|
  fn_eval _ _ _ := Ok DV.Null;
  fn_return_type _ := LT.SqlNull;
  regex_escape s := s;
  regex_keep_first_group _ s := Some s
|}.
#[global] Instance ref_expr_laws : ExprLaws ref_expr.
Proof. split; cbn; intros; [now inv_ok | congruence]. Qed.

(** Columns of a table "t". *)
Definition column (name : Z) (ty : LogicalType) : ColumnCatalog (SE.ScalarExpression F) :=
  mk_column (mk_summary [name] (TableRelation [name] [116] false)) true (mk_desc ty None false None) false.
End RefExpr.
End RefExpr.

Section Witnesses.
#[local] Existing Instance RefForeign.ref_foreign.
#[local] Existing Instance RefForeign.ref_laws.
#[local] Existing Instance RefCast.ref_cast.
#[local] Existing Instance RefCast.ref_cast_laws.
Import RefExpr.

(** [c + 1] on a SMALLINT column: the column is cast to INTEGER. *)
Definition plus_one : ScalarExpression :=
  SE.Binary BinaryOp.Plus (SE.ColumnRef (column 99 LT.Smallint)) (SE.Constant (DV.Int32 1)) None LT.Integer.

Lemma bound_eval_typed_witness :
  exists e', bind_evaluator plus_one = Ok e'
    /\ eval e' (Some (mk_tuple None [DV.Int16 41], [column 99 LT.Smallint])) = Ok (DV.Int32 42)
    /\ has_type LT.Integer (DV.Int32 42) = true /\ sized (DV.Int32 42) = true.
Proof.
  eexists. split; [reflexivity |]. split; [reflexivity |].
  eapply (bound_eval_typed (mk_tuple None [DV.Int16 41]) [column 99 LT.Smallint]) with (e := plus_one).
  - repeat constructor.
  - unfold plus_one. constructor; [split; [exact I |] |].
    + cbn [announces]. intros lt rt m Hl Hr Hm. cbn in Hl, Hr. inv_ok. apply Ok_inj in Hm. now subst m.
    + repeat constructor. cbn [resolves]. intros c Hc Hs.
      apply list_elem_of_singleton in Hc as ->. reflexivity.
  - reflexivity.
  - reflexivity.
  - reflexivity.
Defined.
End Witnesses.
