(* ===== verification/Simplify.v ===== *)
(** * Simplification of predicates

    The visitors of src/src/expression/simplify.rs: [ConstantCalculator], which
    folds constant operators, and [Simplify], which rewrites [IN] and [BETWEEN]
    and moves operators off a column of a comparison. *)

From stdpp Require Import gmap.
From S2P Require Import Prelude Bytes Types LogicalTypes Values Floats Evaluators Cast.
From S2P Require Import Text TupleCodec TableCodec Catalog Expression ExprTyping.

(** ** Constants and columns of an expression *)

Section Unpack.
Context {F : Foreign} {C : CastForeign} {TF : TextForeign} {EF : ExprForeign}.

(** [Result::ok]; a panic is not caught. *)
Definition ok {A} (m : Result A) : Result (option A) :=
  match m with Ok a => Ok (Some a) | Err _ => Ok None | Panic => Panic end.
(** [x.and_then(..)] and [?] on an [Option] inside of a computation. *)
Definition and_then {A B} (m : Result (option A)) (k : A -> Result (option B)) : Result (option B) :=
  let? o := m in match o with Some a => k a | None => Ok None end.

Fixpoint unpack_val (self : ScalarExpression) : Result (option (DV.DataValue F)) :=
  match self with
  | SE.Constant val => Ok (Some val)
  | SE.Alias expr _ => unpack_val expr
  | SE.TypeCast expr ty => and_then (unpack_val expr) (fun val => ok (cast val ty))
  | SE.IsNull _ expr => and_then (unpack_val expr) (fun val => Ok (Some (DV.Boolean (is_null val))))
  | SE.Unary op expr evaluator ty =>
      and_then (unpack_val expr) (fun value =>
      and_then (match evaluator with Some ev => Ok (Some ev) | None => ok (unary_create ty op) end) (fun ev =>
      let? v := unary_eval ev value in Ok (Some v)))
  | SE.Binary op left_expr right_expr evaluator ty =>
      and_then (unpack_val left_expr) (fun lv =>
      and_then (unpack_val right_expr) (fun rv =>
      and_then (ok (check_cast lv ty)) (fun lv =>
      and_then (ok (check_cast rv ty)) (fun rv =>
      and_then (match evaluator with Some ev => Ok (Some ev) | None => ok (binary_create ty op) end) (fun ev =>
      ok (binary_eval ev lv rv))))))
  | _ => Ok None
  end.

Fixpoint unpack_col (is_deep : bool) (self : ScalarExpression) : option (ColumnCatalog (SE.ScalarExpression F)) :=
  match self with
  | SE.ColumnRef col => Some col
  | SE.Alias expr _ => unpack_col is_deep expr
  | SE.Unary _ expr _ _ => unpack_col is_deep expr
  | SE.Binary _ left_expr right_expr _ _ =>
      if negb is_deep then None
      else match unpack_col true left_expr with
           | Some col => Some col
           | None => unpack_col true right_expr
           end
  | _ => None
  end.

(** ** Constant folding *)

Fixpoint constant_calculator (expr : ScalarExpression) : Result ScalarExpression :=
  match expr with
  | SE.Unary op arg_expr evaluator ty =>
      let? arg_expr := constant_calculator arg_expr in
      match arg_expr with
      | SE.Constant unary_val =>
          let? ev := match evaluator with Some ev => Ok ev | None => unary_create ty op end in
          let? value := unary_eval ev unary_val in
          Ok (SE.Constant value)
      | _ => Ok (SE.Unary op arg_expr evaluator ty)
      end
  | SE.Binary op left_expr right_expr evaluator bty =>
      let? lt := return_type left_expr in
      let? rt := return_type right_expr in
      let? ty := max_logical_type lt rt in
      let? left_expr := constant_calculator left_expr in
      let? right_expr := constant_calculator right_expr in
      match left_expr, right_expr with
      | SE.Constant left_val, SE.Constant right_val =>
          let? ev := binary_create ty op in
          let? left_val := check_cast left_val ty in
          let? right_val := check_cast right_val ty in
          let? value := binary_eval ev left_val right_val in
          Ok (SE.Constant value)
      | _, _ => Ok (SE.Binary op left_expr right_expr evaluator bty)
      end
  | _ => walk_mut_expr constant_calculator expr
  end.
End Unpack.

(** ** Simplify *)

Section Simplify.
Context {F : Foreign} {C : CastForeign} {TF : TextForeign} {EF : ExprForeign}.

Inductive Replace :=
| ReplaceBinary (column_expr val_expr : SE.ScalarExpression F) (op : BinaryOperator) (ty : LogicalType)
    (is_column_left : bool)
| ReplaceUnary (child_expr : SE.ScalarExpression F) (op : UnaryOperator) (ty : LogicalType).

(** The state is the stack [replaces], its top first; [None] is running out of
    fuel. *)
Definition Sm (A : Type) : Type := list Replace -> option (Result (A * list Replace)).
#[global] Instance sm_ret : MRet Sm := fun A a rs => Some (Ok (a, rs)).
#[global] Instance sm_bind : MBind Sm := fun A B k m rs =>
  match m rs with
  | Some (Ok (a, rs)) => k a rs
  | Some (Err e) => Some (Err e)
  | Some Panic => Some Panic
  | None => None
  end.
Definition sm_lift {A} (r : Result A) : Sm A := fun rs => Some (let? a := r in Ok (a, rs)).
Definition push (r : Replace) : Sm unit := fun rs => Some (Ok (tt, r :: rs)).
Definition pop : Sm (option Replace) := fun rs =>
  match rs with
  | [] => Some (Ok (None, []))
  | r :: rs => Some (Ok (Some r, rs))
  end.
Definition no_replaces : Sm bool := fun rs => Some (Ok (match rs with [] => true | _ => false end, rs)).
#[local] Notation "'let*' x ':=' m 'in' k" := (mbind (fun x => k) m)
  (at level 10, x binder, m at level 100, k at level 200).

Definition is_arithmetic (op : BinaryOperator) : bool :=
  match op with
  | BinaryOp.Plus | BinaryOp.Divide | BinaryOp.Minus | BinaryOp.Multiply => true
  | _ => false
  end.

Definition comparison_flip (op : BinaryOperator) : BinaryOperator :=
  match op with
  | BinaryOp.Gt => BinaryOp.Lt
  | BinaryOp.GtEq => BinaryOp.LtEq
  | BinaryOp.Lt => BinaryOp.Gt
  | BinaryOp.LtEq => BinaryOp.GtEq
  | op => op
  end.
(** [op_flip]; only arithmetic operators are recorded, others are unreachable. *)
Definition op_flip (op : BinaryOperator) : Result BinaryOperator :=
  match op with
  | BinaryOp.Plus => Ok BinaryOp.Minus
  | BinaryOp.Minus => Ok BinaryOp.Plus
  | BinaryOp.Multiply => Ok BinaryOp.Divide
  | BinaryOp.Divide => Ok BinaryOp.Multiply
  | _ => Panic
  end.

(** The operands and the operator of a comparison, left side first. *)
Abbreviation Sides := (SE.ScalarExpression F * SE.ScalarExpression F * BinaryOperator)%type.

Definition fix_unary (child_expr : ScalarExpression) (fix_op : UnaryOperator) (fix_ty : LogicalType)
    (val_expr : ScalarExpression) (op : BinaryOperator) : Sides :=
  (child_expr, SE.Unary fix_op val_expr None fix_ty,
   match fix_op with
   | UnaryOp.Plus => op
   | UnaryOp.Minus =>
       match op with
       | BinaryOp.Plus => BinaryOp.Minus
       | BinaryOp.Minus => BinaryOp.Plus
       | BinaryOp.Multiply => BinaryOp.Divide
       | BinaryOp.Divide => BinaryOp.Multiply
       | op => comparison_flip op
       end
   | UnaryOp.Not => comparison_flip op
   end).

Definition fix_binary (column_expr val_expr : ScalarExpression) (fix_op : BinaryOperator)
    (fix_ty : LogicalType) (is_column_left : bool) (right_expr : ScalarExpression) (op : BinaryOperator)
  : Result Sides :=
  if is_column_left then
    let? fixed_op := op_flip fix_op in
    Ok (column_expr, SE.Binary fixed_op right_expr val_expr None fix_ty, op)
  else
    let op := match fix_op with
              | BinaryOp.Minus | BinaryOp.Multiply => comparison_flip op
              | _ => op
              end in
    Ok (column_expr, SE.Binary fix_op val_expr right_expr None fix_ty, op).

(** The disjunction or conjunction an [IN] list becomes. *)
Definition in_expansion (negated : bool) (arg_expr arg : ScalarExpression) (args : list ScalarExpression)
  : ScalarExpression :=
  let '(op_1, op_2) := if negated then (BinaryOp.NotEq, BinaryOp.And) else (BinaryOp.Eq, BinaryOp.Or) in
  fold_left (fun new_expr arg =>
               SE.Binary op_2 (SE.Binary op_1 arg_expr arg None LT.Boolean) new_expr None LT.Boolean)
    args (SE.Binary op_1 arg_expr arg None LT.Boolean).

Definition between_expansion (negated : bool) (arg_expr left_expr right_expr : ScalarExpression)
  : ScalarExpression :=
  let '(op, left_op, right_op) :=
    if negated then (BinaryOp.Or, BinaryOp.Lt, BinaryOp.Gt) else (BinaryOp.And, BinaryOp.GtEq, BinaryOp.LtEq) in
  SE.Binary op (SE.Binary left_op arg_expr left_expr None LT.Boolean)
    (SE.Binary right_op arg_expr right_expr None LT.Boolean) None LT.Boolean.

(** Record the operator between a column and another operand; the operand is
    taken out of the expression. *)
Definition record_binary (is_deep : bool) (op : BinaryOperator) (left_expr right_expr : ScalarExpression)
    (ty : LogicalType) (otherwise : Sm (SE.ScalarExpression F * SE.ScalarExpression F))
  : Sm (SE.ScalarExpression F * SE.ScalarExpression F) :=
  match unpack_col is_deep left_expr, unpack_col is_deep right_expr with
  | Some col, None =>
      let* _ := push (ReplaceBinary (SE.ColumnRef col) right_expr op ty true) in mret (left_expr, SE.Empty)
  | None, Some col =>
      let* _ := push (ReplaceBinary (SE.ColumnRef col) left_expr op ty false) in mret (SE.Empty, right_expr)
  | None, None => otherwise
  | Some _, Some _ => mret (left_expr, right_expr)
  end.

Fixpoint simplify (fuel : nat) (expr : ScalarExpression) {struct fuel} : Sm (SE.ScalarExpression F) :=
  match fuel with
  | O => fun _ => None
  | S fuel =>
      match expr with
      | SE.Unary op arg_expr _ ty =>
          let* val := sm_lift (unpack_val expr) in
          match val with
          | Some value => mret (SE.Constant value)
          | None => let* _ := push (ReplaceUnary arg_expr op ty) in mret expr
          end
      | SE.Binary op left_expr right_expr ev ty =>
          let* '(left_expr, right_expr, op) := fix_expr fuel left_expr right_expr op in
          (* [(c1 - 1) and (c1 + 2)] cannot fix! *)
          let* '(right_expr, left_expr, op) := fix_expr fuel right_expr left_expr op in
          if is_arithmetic op then
            let* '(left_expr, right_expr) :=
              record_binary false op left_expr right_expr ty
                (let* (empty : bool) := no_replaces in
                 if empty then mret (left_expr, right_expr)
                 else record_binary true op left_expr right_expr ty (mret (left_expr, right_expr))) in
            mret (SE.Binary op left_expr right_expr ev ty)
          else mret (SE.Binary op left_expr right_expr ev ty)
      | SE.TypeCast _ _ =>
          let* val := sm_lift (unpack_val expr) in
          mret (match val with Some val => SE.Constant val | None => expr end)
      | SE.IsNull _ _ =>
          let* val := sm_lift (unpack_val expr) in
          mret (match val with Some val => SE.Constant (DV.Boolean (is_null val)) | None => expr end)
      | SE.In negated arg_expr args =>
          match args with
          | [] => mret expr
          | arg :: args => walk_mut_expr (simplify fuel) (in_expansion negated arg_expr arg args)
          end
      | SE.Between negated arg_expr left_expr right_expr =>
          walk_mut_expr (simplify fuel) (between_expansion negated arg_expr left_expr right_expr)
      | _ => walk_mut_expr (simplify fuel) expr
      end
  end
with fix_expr (fuel : nat) (left_expr right_expr : ScalarExpression) (op : BinaryOperator) {struct fuel}
  : Sm Sides :=
  match fuel with
  | O => fun _ => None
  | S fuel =>
      let* left_expr := simplify fuel left_expr in
      if is_arithmetic op then mret (left_expr, right_expr, op)
      else apply_replaces fuel left_expr right_expr op
  end
(** [while let Some(replace) = self.replaces.pop()]. *)
with apply_replaces (fuel : nat) (left_expr right_expr : ScalarExpression) (op : BinaryOperator) {struct fuel}
  : Sm Sides :=
  match fuel with
  | O => fun _ => None
  | S fuel =>
      let* replace := pop in
      match replace with
      | None => mret (left_expr, right_expr, op)
      | Some (ReplaceBinary column_expr val_expr fix_op ty is_column_left) =>
          let* '(left_expr, right_expr, op) :=
            sm_lift (fix_binary column_expr val_expr fix_op ty is_column_left right_expr op) in
          apply_replaces fuel left_expr right_expr op
      | Some (ReplaceUnary child_expr fix_op ty) =>
          let '(left_expr, right_expr, op) := fix_unary child_expr fix_op ty right_expr op in
          let* '(left_expr, right_expr, op) := fix_expr fuel left_expr right_expr op in
          apply_replaces fuel left_expr right_expr op
      end
  end.

(** [Simplify::default().visit(expr)]. *)
Definition simplified (fuel : nat) (expr : ScalarExpression) : option (Result ScalarExpression) :=
  match simplify fuel expr [] with
  | Some (Ok (e, _)) => Some (Ok e)
  | Some (Err e) => Some (Err e)
  | Some Panic => Some Panic
  | None => None
  end.
End Simplify.

(** ** What simplification keeps *)

Section Meaning.
Context {F : Foreign} {L : ForeignLaws F} {C : CastForeign} {TF : TextForeign} {EF : ExprForeign}.

(** Binding and evaluating, as the executor does with a filter. *)
Definition run (e : ScalarExpression) (row : Row F) : Result (DV.DataValue F) :=
  let? e := bind_evaluator e in eval e row.

Definition int_const (z : Z) : SE.ScalarExpression F := SE.Constant (DV.Int32 z).
Definition comparison_of (op : BinaryOperator) (l r : ScalarExpression) : SE.ScalarExpression F :=
  SE.Binary op l r None LT.Boolean.
Definition int_arith (op : BinaryOperator) (l r : ScalarExpression) : SE.ScalarExpression F :=
  SE.Binary op l r None LT.Integer.
Definition negation (e : ScalarExpression) : SE.ScalarExpression F := SE.Unary UnaryOp.Not e None LT.Boolean.

(** The result of an operator on two numbers, null when the column is. *)
Definition int_cmp (op : BinaryOperator) (x : option Z) (y : Z) : Result (DV.DataValue F) :=
  match x with Some x => of_cmp_op op (x ?= y) | None => Ok DV.Null end.
Definition int_opt (x : option Z) : DV.DataValue F :=
  match x with Some x => DV.Int32 x | None => DV.Null end.

Lemma int_cmp_eval op x y : compare_op op = true ->
  binary_eval (NumericBinary VT.Int32 op) (int_opt x) (DV.Int32 y) = int_cmp op x y.
Proof. intros Hop. destruct x; [| reflexivity]. destruct op; discriminate || reflexivity. Qed.

Lemma max_same m : max_logical_type m m = Ok m.
Proof. unfold max_logical_type. now rewrite decide_True by reflexivity. Qed.

(** Binding an operator whose operands have one type inserts no cast. *)
Lemma bind_same op l r ev0 ty m ev l' r' :
  bind_evaluator l = Ok l' -> bind_evaluator r = Ok r' -> return_type l' = Ok m -> return_type r' = Ok m ->
  binary_create m op = Ok ev ->
  bind_evaluator (SE.Binary op l r ev0 ty) = Ok (SE.Binary op l' r' (Some ev) ty).
Proof.
  intros Hl Hr Htl Htr Hev. cbn [bind_evaluator]. rewrite Hl, Hr. cbn [result_bind].
  rewrite Htl, Htr. cbn [result_bind]. rewrite max_same. cbn [result_bind]. unfold fn_cast.
  rewrite Htl, Htr. cbn [result_bind]. rewrite !decide_True by reflexivity. cbn [result_bind]. now rewrite Hev.
Qed.

Lemma create_int op : compare_op op = true \/ is_arithmetic op = true ->
  binary_create LT.Integer op = Ok (NumericBinary VT.Int32 op).
Proof. destruct op; intros [H | H]; discriminate || reflexivity. Qed.
Lemma create_bool op : op = BinaryOp.And \/ op = BinaryOp.Or ->
  binary_create LT.Boolean op = Ok (BooleanBinary op).
Proof. intros [-> | ->]; reflexivity. Qed.

Section Column.
Variables (col : ColumnCatalog (SE.ScalarExpression F)) (row : Row F) (x : option Z).
Hypothesis Hty : datatype col = LT.Integer.
Hypothesis Hx : eval (SE.ColumnRef col) row = Ok (int_opt x).

Lemma bind_const z : bind_evaluator (int_const z) = Ok (int_const z).
Proof. reflexivity. Qed.
Lemma eval_const z : eval (int_const z) row = Ok (DV.Int32 z).
Proof. reflexivity. Qed.
Lemma bind_column : bind_evaluator (SE.ColumnRef col) = Ok (SE.ColumnRef col).
Proof. reflexivity. Qed.
Lemma column_type : return_type (SE.ColumnRef col) = Ok LT.Integer.
Proof. cbn [return_type]. now rewrite Hty. Qed.

(** Integer arithmetic and comparisons, bound. *)
Lemma bind_arith op l r l' r' :
  is_arithmetic op = true -> bind_evaluator l = Ok l' -> bind_evaluator r = Ok r' ->
  return_type l' = Ok LT.Integer -> return_type r' = Ok LT.Integer ->
  bind_evaluator (int_arith op l r)
  = Ok (SE.Binary op l' r' (Some (NumericBinary VT.Int32 op)) LT.Integer).
Proof. intros Hop ? ? ? ?. eapply bind_same; try eassumption. apply create_int. auto. Qed.
Lemma bind_comparison op l r l' r' :
  compare_op op = true -> bind_evaluator l = Ok l' -> bind_evaluator r = Ok r' ->
  return_type l' = Ok LT.Integer -> return_type r' = Ok LT.Integer ->
  bind_evaluator (comparison_of op l r)
  = Ok (SE.Binary op l' r' (Some (NumericBinary VT.Int32 op)) LT.Boolean).
Proof. intros Hop ? ? ? ?. eapply bind_same; try eassumption. apply create_int. auto. Qed.

Lemma eval_bound op l r ev ty lv rv : eval l row = Ok lv -> eval r row = Ok rv ->
  eval (SE.Binary op l r (Some ev) ty) row = binary_eval ev lv rv.
Proof. intros Hl Hr. cbn [eval]. now rewrite Hl, Hr. Qed.

(** Addition and subtraction of 32-bit integers in range. *)
Definition apply_op (op : BinaryOperator) (a b : Z) : Z :=
  match op with BinaryOp.Plus => a + b | _ => a - b end.
Lemma eval_arith op l r a b : op = BinaryOp.Plus \/ op = BinaryOp.Minus ->
  eval l row = Ok (int_opt a) -> eval r row = Ok (DV.Int32 b) ->
  (forall a', a = Some a' -> in_i 32 (apply_op op a' b) = true) ->
  eval (SE.Binary op l r (Some (NumericBinary VT.Int32 op)) LT.Integer) row
  = Ok (int_opt (option_map (fun a => apply_op op a b) a)).
Proof.
  intros Hop Hl Hr Hin. rewrite (eval_bound _ _ _ _ _ _ _ Hl Hr). destruct a as [a|]; [| now destruct Hop as [-> | ->]].
  specialize (Hin a eq_refl). destruct Hop as [-> | ->]; cbn [binary_eval numeric_binary_eval];
    unfold int_binary_eval; cbn [int_opt eval2 int_proj option_map apply_op] in *;
    unfold eval2, checked; cbn [int_proj]; change (in_int VT.Int32) with (in_i 32); now rewrite Hin.
Qed.

(** C35. Moving an integer constant to the other side of a comparison on an INTEGER
    column [c] keeps the predicate: [c + k < v] becomes [c < v - k] and [c - k < v]
    becomes [c < v + k], for every comparison operator, and both give the same truth
    value on every row, null included, when neither sum overflows 32 bits. *)
Theorem simplify_moves_constant fuel aop op k v :
  (10 <= fuel)%nat -> aop = BinaryOp.Plus \/ aop = BinaryOp.Minus -> compare_op op = true ->
  let before := comparison_of op (int_arith aop (SE.ColumnRef col) (int_const k)) (int_const v) in
  let flipped := if decide (aop = BinaryOp.Plus) then BinaryOp.Minus else BinaryOp.Plus in
  let after := comparison_of op (SE.ColumnRef col) (int_arith flipped (int_const v) (int_const k)) in
  simplified fuel before = Some (Ok after)
  /\ ((forall x', x = Some x' -> in_i 32 (apply_op aop x' k) = true) -> in_i 32 (apply_op flipped v k) = true ->
      run before row = run after row).
Proof.
  intros Hf Haop Hop before flipped after. split.
  { replace fuel with (10 + (fuel - 10))%nat by lia. generalize (fuel - 10)%nat as n. intros n.
    destruct Haop; subst aop; destruct op; discriminate || reflexivity. }
  intros Hin1 Hin2. assert (Hfl : flipped = BinaryOp.Plus \/ flipped = BinaryOp.Minus)
    by (unfold flipped; destruct (decide _); auto).
  assert (Har : forall o, o = BinaryOp.Plus \/ o = BinaryOp.Minus -> is_arithmetic o = true) by (intros o [-> | ->]; reflexivity).
  unfold run, before, after.
  rewrite (bind_comparison op _ _ _ _ Hop
             (bind_arith aop _ _ _ _ (Har _ Haop) bind_column (bind_const k) column_type eq_refl)
             (bind_const v) eq_refl eq_refl).
  rewrite (bind_comparison op _ _ _ _ Hop bind_column
             (bind_arith flipped _ _ _ _ (Har _ Hfl) (bind_const v) (bind_const k) eq_refl eq_refl)
             column_type eq_refl).
  cbn [result_bind].
  rewrite (eval_bound _ _ _ _ _ _ _ (eval_arith aop _ _ x k Haop Hx (eval_const k) Hin1) (eval_const v)).
  rewrite (eval_bound _ _ _ _ _ _ _ Hx
             (eval_arith flipped (int_const v) (int_const k) (Some v) k Hfl (eval_const v) (eval_const k)
                ltac:(intros ? [= <-]; exact Hin2))).
  cbn [option_map int_opt]. rewrite !int_cmp_eval by exact Hop. destruct x as [x'|]; [| reflexivity].
  cbn [option_map int_cmp]. f_equal. destruct Haop; subst aop.
  - change flipped with BinaryOp.Minus. cbn [apply_op].
    rewrite <- (Z.add_compare_mono_l k x' (v - k)). f_equal; lia.
  - change flipped with BinaryOp.Plus. cbn [apply_op].
    rewrite <- (Z.add_compare_mono_l k (x' - k) v). f_equal; lia.
Qed.

(** ** IN and BETWEEN *)

(** A truth value, null when the column is. *)
Definition truth (b : bool) : DV.DataValue F := match x with Some _ => DV.Boolean b | None => DV.Null end.
Definition hits (z : Z) : bool := match x with Some a => a =? z | None => false end.

Lemma eval_cmp op b k : compare_op op = true ->
  (forall a, x = Some a -> cmp_op op (a ?= k) = Some b) ->
  exists e, bind_evaluator (comparison_of op (SE.ColumnRef col) (int_const k)) = Ok e
    /\ return_type e = Ok LT.Boolean /\ eval e row = Ok (truth b).
Proof.
  intros Hop Hcmp. eexists.
  split; [exact (bind_comparison op _ _ _ _ Hop bind_column (bind_const k) column_type eq_refl) |].
  split; [reflexivity |]. rewrite (eval_bound _ _ _ _ _ _ _ Hx (eval_const k)), int_cmp_eval by exact Hop.
  unfold truth, int_cmp, of_cmp_op. destruct x as [a|]; [now rewrite (Hcmp a eq_refl) | reflexivity].
Qed.

Lemma eval_hit (negated : bool) z :
  let op := if negated then BinaryOp.NotEq else BinaryOp.Eq in
  exists e, bind_evaluator (comparison_of op (SE.ColumnRef col) (int_const z)) = Ok e
    /\ return_type e = Ok LT.Boolean /\ eval e row = Ok (truth (xorb negated (hits z))).
Proof.
  apply eval_cmp; [now destruct negated |]. intros a Ha. unfold hits. rewrite Ha, Z.eqb_compare.
  now destruct negated, (a ?= z).
Qed.

(** Joining truth values with [AND] or [OR]. *)
Lemma eval_join (is_and : bool) e1 e2 b1 b2 e1' e2' :
  let op := if is_and then BinaryOp.And else BinaryOp.Or in
  bind_evaluator e1 = Ok e1' -> return_type e1' = Ok LT.Boolean -> eval e1' row = Ok (truth b1) ->
  bind_evaluator e2 = Ok e2' -> return_type e2' = Ok LT.Boolean -> eval e2' row = Ok (truth b2) ->
  exists e, bind_evaluator (comparison_of op e1 e2) = Ok e /\ return_type e = Ok LT.Boolean
    /\ eval e row = Ok (truth (if is_and then b1 && b2 else b1 || b2)).
Proof.
  intros op B1 T1 E1 B2 T2 E2. assert (Hc : binary_create LT.Boolean op = Ok (BooleanBinary op))
    by (apply create_bool; unfold op; destruct is_and; auto).
  eexists. split; [exact (bind_same op _ _ _ _ _ _ _ _ B1 B2 T1 T2 Hc) |]. split; [reflexivity |].
  rewrite (eval_bound _ _ _ _ _ _ _ E1 E2). unfold truth, op. destruct x, is_and, b1, b2; reflexivity.
Qed.

Lemma in_fold (negated : bool) zs acc acc' b :
  let '(op_1, op_2) := if negated then (BinaryOp.NotEq, BinaryOp.And) else (BinaryOp.Eq, BinaryOp.Or) in
  bind_evaluator acc = Ok acc' -> return_type acc' = Ok LT.Boolean ->
  eval acc' row = Ok (truth (xorb negated b)) ->
  exists e, bind_evaluator (fold_left (fun new_expr arg =>
               SE.Binary op_2 (SE.Binary op_1 (SE.ColumnRef col) arg None LT.Boolean) new_expr None LT.Boolean)
               (map int_const zs) acc) = Ok e
    /\ eval e row = Ok (truth (xorb negated (b || existsb hits zs))).
Proof.
  destruct negated; revert acc acc' b; induction zs as [|z zs IH]; intros acc acc' b B T E; cbn [map fold_left existsb].
  1, 3: exists acc'; rewrite orb_false_r; auto.
  - destruct (eval_hit true z) as (e1 & B1 & T1 & E1). destruct (eval_join true _ _ _ _ _ _ B1 T1 E1 B T E) as (e & Be & Te & Ee).
    destruct (IH _ _ (b || hits z) Be Te) as (e' & Be' & Ee').
    { rewrite Ee. f_equal. f_equal. now destruct b, (hits z). }
    exists e'. split; [exact Be' |]. now rewrite orb_assoc.
  - destruct (eval_hit false z) as (e1 & B1 & T1 & E1). destruct (eval_join false _ _ _ _ _ _ B1 T1 E1 B T E) as (e & Be & Te & Ee).
    destruct (IH _ _ (b || hits z) Be Te) as (e' & Be' & Ee').
    { rewrite Ee. f_equal. f_equal. now destruct b, (hits z). }
    exists e'. split; [exact Be' |]. now rewrite orb_assoc.
Qed.

(** Evaluating [IN] directly. *)
Lemma run_in negated zs : zs <> [] ->
  run (SE.In negated (SE.ColumnRef col) (map int_const zs)) row = Ok (truth (xorb negated (existsb hits zs))).
Proof.
  intros Hne. unfold run. cbn [bind_evaluator].
  assert (Hw : walk_mut_expr bind_evaluator (SE.In negated (SE.ColumnRef col) (map int_const zs))
               = Ok (SE.In negated (SE.ColumnRef col) (map int_const zs))).
  { assert (Ha : try_all bind_evaluator (map int_const zs) = Ok (map int_const zs)).
    { clear Hne. induction zs as [|z zs IH]; [reflexivity |]. cbn [map try_all].
      cbv [mbind result_mbind mret result_mret] in *. now rewrite bind_const, IH. }
    transitivity (let? args := try_all bind_evaluator (map int_const zs) in
                  Ok (SE.In negated (SE.ColumnRef col) args)); [reflexivity | now rewrite Ha]. }
  rewrite Hw. cbn [result_bind]. cbn [eval] in Hx |- *. rewrite Hx. cbn [result_bind]. unfold truth, hits.
  destruct x as [a|]; [| reflexivity]. cbn [int_opt is_null]. clear Hne Hw.
  induction zs as [|z zs IH]; [reflexivity |]. cbn [map existsb]. rewrite eval_const. cbn [result_bind is_null].
  assert (Hd : dv_eq (DV.Int32 z) (DV.Int32 a) = (a =? z)) by (cbn; apply Z.eqb_sym).
  rewrite Hd. destruct (a =? z); [reflexivity | exact IH].
Qed.

(** C36. Expanding [IN] and [BETWEEN] keeps their meaning: on an integer column
    and integer constants, the disjunction (or conjunction of inequalities) that
    replaces [IN] and the two comparisons that replace [BETWEEN] evaluate to what
    the original evaluates to on every row, negated or not, null included. *)
Theorem expansions_correct negated z zs lo hi :
  run (in_expansion negated (SE.ColumnRef col) (int_const z) (map int_const zs)) row
  = run (SE.In negated (SE.ColumnRef col) (map int_const (z :: zs))) row
  /\ run (between_expansion negated (SE.ColumnRef col) (int_const lo) (int_const hi)) row
     = run (SE.Between negated (SE.ColumnRef col) (int_const lo) (int_const hi)) row.
Proof.
  split.
  - rewrite run_in by discriminate. destruct (eval_hit negated z) as (e1 & B1 & T1 & E1).
    unfold in_expansion, run. cbn [existsb].
    destruct negated; [destruct (in_fold true zs _ _ _ B1 T1 E1) as (e & Be & Ee)
                      | destruct (in_fold false zs _ _ _ B1 T1 E1) as (e & Be & Ee)];
      cbn [comparison_of] in Be; unfold comparison_of in Be; rewrite Be; exact Ee.
  - set (c1 := match x with Some a => a ?= lo | None => Eq end). set (c2 := match x with Some a => a ?= hi | None => Eq end).
    set (left_op := if negated then BinaryOp.Lt else BinaryOp.GtEq).
    set (right_op := if negated then BinaryOp.Gt else BinaryOp.LtEq).
    destruct (eval_cmp left_op (xorb negated (is_ge c1)) lo) as (e1 & B1 & T1 & E1).
    { unfold left_op. now destruct negated. }
    { intros a Ha. unfold c1. rewrite Ha. unfold left_op. now destruct negated, (a ?= lo). }
    destruct (eval_cmp right_op (xorb negated (is_le c2)) hi) as (e2 & B2 & T2 & E2).
    { unfold right_op. now destruct negated. }
    { intros a Ha. unfold c2. rewrite Ha. unfold right_op. now destruct negated, (a ?= hi). }
    destruct (eval_join (negb negated) _ _ _ _ _ _ B1 T1 E1 B2 T2 E2) as (e & Be & _ & Ee).
    assert (Hexp : between_expansion negated (SE.ColumnRef col) (int_const lo) (int_const hi)
                   = comparison_of (if negb negated then BinaryOp.And else BinaryOp.Or)
                       (comparison_of left_op (SE.ColumnRef col) (int_const lo))
                       (comparison_of right_op (SE.ColumnRef col) (int_const hi))) by now destruct negated.
    unfold run. rewrite Hexp, Be. cbn [result_bind]. rewrite Ee.
    transitivity (let? value := eval (SE.ColumnRef col) row in
                  Ok (between_result negated value (DV.Int32 lo) (DV.Int32 hi))); [| reflexivity].
    rewrite Hx. cbn [result_bind]. f_equal. unfold between_result, truth, c1, c2. destruct x as [a|]; [| reflexivity].
    cbn [int_opt partial_cmp option_map]. now destruct negated, (a ?= lo), (a ?= hi).
Qed.
End Column.
End Meaning.

(** ** What simplification changes *)

Section Counterexamples.
Context {F : Foreign} {C : CastForeign} {TF : TextForeign} {EF : ExprForeign}.
Import RefExpr.

Definition col_a : SE.ScalarExpression F := SE.ColumnRef (column 97 LT.Integer).
Definition col_b : SE.ScalarExpression F := SE.ColumnRef (column 98 LT.Integer).
Definition row_ab (a b : Z) : Row F :=
  Some (mk_tuple None [DV.Int32 a; DV.Int32 b], [column 97 LT.Integer; column 98 LT.Integer]).

(** Simplification changes predicates: [NOT a > 5 AND NOT b > 3] loses its
    negations, [1 + a > 2] becomes [a > 1 + 2], [1 IS NOT NULL] becomes false,
    and [a + 1 IN (5)] keeps a hole where the constant was, so that binding it
    panics; each of them is true on a row before. *)
Theorem simplify_changes_predicates :
  (exists e, simplified 20 (comparison_of BinaryOp.And
       (negation (comparison_of BinaryOp.Gt col_a (int_const 5)))
       (negation (comparison_of BinaryOp.Gt col_b (int_const 3)))) = Some (Ok e)
     /\ run (comparison_of BinaryOp.And
          (negation (comparison_of BinaryOp.Gt col_a (int_const 5)))
          (negation (comparison_of BinaryOp.Gt col_b (int_const 3)))) (row_ab 1 1) = Ok (DV.Boolean true)
     /\ run e (row_ab 1 1) = Ok (DV.Boolean false))
  /\ (exists e, simplified 20 (comparison_of BinaryOp.Gt (int_arith BinaryOp.Plus (int_const 1) col_a) (int_const 2))
        = Some (Ok e)
     /\ run (comparison_of BinaryOp.Gt (int_arith BinaryOp.Plus (int_const 1) col_a) (int_const 2)) (row_ab 2 0)
        = Ok (DV.Boolean true)
     /\ run e (row_ab 2 0) = Ok (DV.Boolean false))
  /\ (simplified 20 (SE.IsNull true (int_const 1)) = Some (Ok (SE.Constant (DV.Boolean false)))
     /\ run (SE.IsNull true (int_const 1)) None = Ok (DV.Boolean true))
  /\ (exists e, simplified 20 (SE.In false (int_arith BinaryOp.Plus col_a (int_const 1)) [int_const 5]) = Some (Ok e)
     /\ run (SE.In false (int_arith BinaryOp.Plus col_a (int_const 1)) [int_const 5]) (row_ab 4 0)
        = Ok (DV.Boolean true)
     /\ run e (row_ab 4 0) = Panic).
Proof.
  split; [| split; [| split]].
  - eexists. split; [reflexivity |]. split; reflexivity.
  - eexists. split; [reflexivity |]. split; reflexivity.
  - split; reflexivity.
  - eexists. split; [reflexivity |]. split; reflexivity.
Qed.

(** Outside of a filter [IN] and [BETWEEN] are not expanded and compare values of
    different types without a cast: a BIGINT column is in no list of INTEGER
    constants and between none of them. *)
Lemma untyped_membership :
  let col := column 97 LT.Bigint in
  let row : Row F := Some (mk_tuple None [DV.Int64 2], [col]) in
  run (SE.In false (SE.ColumnRef col) [int_const 1; int_const 2]) row = Ok (DV.Boolean false)
  /\ run (SE.Between false (SE.ColumnRef col) (int_const 1) (int_const 3)) row = Ok DV.Null.
Proof. split; reflexivity. Qed.

(** Negating an unsigned column never binds: the cast to the signed type is
    inserted after the type was read. *)
Lemma unsigned_minus_unbound ty op e :
  is_unsigned_numeric ty = true -> return_type e = Ok ty -> bind_evaluator e = Ok e ->
  bind_evaluator (SE.Unary op e None ty) = Err (UnsupportedUnaryOperator ty op).
Proof.
  intros Hu Ht Hb. cbn [bind_evaluator]. rewrite Hb. cbn [result_bind]. rewrite Ht. cbn [result_bind].
  destruct ty; try discriminate Hu; reflexivity.
Qed.

(** [NULLIF] and [IFNULL] of the same operands have the same name, by which
    [try_reference] finds the output column of an expression. *)
Lemma nullif_named_ifnull l r ty ty' : output_name (SE.NullIf l r ty) = output_name (SE.IfNull l r ty').
Proof. reflexivity. Qed.
End Counterexamples.

Section Witnesses.
#[local] Existing Instance RefForeign.ref_foreign.
#[local] Existing Instance RefForeign.ref_laws.
#[local] Existing Instance RefCast.ref_cast.
Import RefExpr.

Lemma simplify_moves_constant_witness :
  simplified 10 (comparison_of BinaryOp.Lt (int_arith BinaryOp.Plus col_a (int_const 1)) (int_const 5))
  = Some (Ok (comparison_of BinaryOp.Lt col_a (int_arith BinaryOp.Minus (int_const 5) (int_const 1))))
  /\ run (comparison_of BinaryOp.Lt (int_arith BinaryOp.Plus col_a (int_const 1)) (int_const 5)) (row_ab 3 0)
     = run (comparison_of BinaryOp.Lt col_a (int_arith BinaryOp.Minus (int_const 5) (int_const 1))) (row_ab 3 0).
Proof.
  destruct (simplify_moves_constant (column 97 LT.Integer) (row_ab 3 0) (Some 3) eq_refl eq_refl 10
              BinaryOp.Plus BinaryOp.Lt 1 5) as [Hs Hr].
  - lia.
  - now left.
  - reflexivity.
  - split; [exact Hs |]. apply Hr; [intros x' [= <-]; reflexivity | reflexivity].
Defined.

Lemma expansions_correct_witness :
  run (in_expansion false col_a (int_const 1) (map int_const [2; 3])) (row_ab 3 0)
  = run (SE.In false col_a (map int_const [1; 2; 3])) (row_ab 3 0).
Proof.
  exact (proj1 (expansions_correct (column 97 LT.Integer) (row_ab 3 0) (Some 3) eq_refl eq_refl false 1 [2; 3] 0 0)).
Defined.
End Witnesses.
