(* ===== verification/Detach.v ===== *)
(** * Detaching ranges from predicates

    [RangeDetacher::detach] of src/src/expression/range_detacher.rs: the range of
    one column a predicate implies, from which the optimizer builds index
    scans. *)

From stdpp Require Import gmap.
From S2P Require Import Prelude Bytes Types LogicalTypes Values Floats Evaluators Cast.
From S2P Require Import Text TupleCodec TableCodec Catalog Expression ExprTyping Simplify RangeDetacher.

Section Detach.
Context {F : Foreign} {C : CastForeign} {TF : TextForeign} {EF : ExprForeign}.
(** [RangeDetacher]. *)
Variables (table_name : bytes) (target_id : ColumnId).

Definition is_belong (col : ColumnCatalog (SE.ScalarExpression F)) : bool :=
  bool_decide (column_table col = Some table_name).

Definition new_range (op : BinaryOperator) (col : ColumnCatalog (SE.ScalarExpression F)) (val : DataValue)
    (is_flip : bool) : Result (option (Range.Range F)) :=
  if negb (is_belong col) || negb (bool_decide (column_id col = Some target_id)) then Ok None
  else
    let? val := check_cast val (datatype col) in
    let op := if is_flip then comparison_flip op else op in
    Ok (match op with
        | BinaryOp.Gt => Some (Range.Scope (Bound.Excluded val) Bound.Unbounded)
        | BinaryOp.Lt => Some (Range.Scope Bound.Unbounded (Bound.Excluded val))
        | BinaryOp.GtEq => Some (Range.Scope (Bound.Included val) Bound.Unbounded)
        | BinaryOp.LtEq => Some (Range.Scope Bound.Unbounded (Bound.Included val))
        | BinaryOp.Eq | BinaryOp.Spaceship => Some (Range.Eq val)
        | _ => None
        end).

Definition check_or (op : BinaryOperator) (binary : Range.Range F) : option (Range.Range F) :=
  match op with BinaryOp.Or => None | _ => Some binary end.

(** A comparison of a column with a constant, on either side. *)
Definition detach_comparison (op : BinaryOperator) (left_expr right_expr : ScalarExpression)
  : Result (option (Range.Range F)) :=
  let? rv := unpack_val right_expr in
  match unpack_col false left_expr, rv with
  | Some col, Some val => new_range op col val false
  | _, _ =>
      let? lv := unpack_val left_expr in
      match lv, unpack_col false right_expr with
      | Some val, Some col => new_range op col val true
      | _, _ => Ok None
      end
  end.

(** [None] is running out of the fuel of [merge_binary]. *)
Fixpoint detach (fuel : nat) (expr : ScalarExpression) : option (Result (option (Range.Range F))) :=
  match expr with
  | SE.Binary op left_expr right_expr _ _ =>
      match detach fuel left_expr with
      | Some (Ok l) =>
          match detach fuel right_expr with
          | Some (Ok r) =>
              match l, r with
              | Some left_binary, Some right_binary =>
                  match merge_binary fuel op left_binary right_binary with
                  | Some merged => Some (Ok merged)
                  | None => None
                  end
              | None, None => Some (detach_comparison op left_expr right_expr)
              | Some binary, None | None, Some binary => Some (Ok (check_or op binary))
              end
          | other => other
          end
      | other => other
      end
  | SE.Alias expr _ | SE.TypeCast expr _ | SE.Unary _ expr _ _ | SE.In _ expr _ | SE.Between _ expr _ _
  | SE.SubString expr _ _ | SE.Position expr _ | SE.Trim expr _ _ => detach fuel expr
  | SE.IsNull negated expr =>
      match expr with
      | SE.ColumnRef column =>
          Some (Ok (if bool_decide (column_id column = Some target_id) && is_belong column
                    then if negated then None else Some (Range.Eq DV.Null)
                    else None))
      | SE.Tuple _ | SE.TableFunction _ _ | SE.Reference _ _ | SE.Empty => Some Panic
      | _ => detach fuel expr
      end
  | SE.Constant _ | SE.ColumnRef _ => Some (Ok None)
  | SE.Tuple _ | SE.AggCall _ _ _ _ | SE.ScalaFunction _ _ | SE.If _ _ _ _ | SE.IfNull _ _ _
  | SE.NullIf _ _ _ | SE.Coalesce _ _ | SE.CaseWhen _ _ _ _ => Some (Ok None)
  | SE.TableFunction _ _ | SE.Reference _ _ | SE.Empty => Some Panic
  end.
End Detach.

(** ** Conjunctions *)

Section Conjunctions.
Context {F : Foreign} {L : ForeignLaws F} {C : CastForeign} {TF : TextForeign} {EF : ExprForeign}.
Variables (table_name : bytes) (target_id : ColumnId) (col : ColumnCatalog (SE.ScalarExpression F)) (fuel : nat).
Hypothesis Hty : datatype col = LT.Integer.
Hypothesis Htable : column_table col = Some table_name.
Hypothesis Hid : column_id col = Some target_id.
#[local] Abbreviation detach := (detach table_name target_id fuel).

Definition int_value (v : DV.DataValue F) : Prop := exists z, v = DV.Int32 z.
Definition int_range (r : Range.Range F) : Prop := flat r = true /\ Forall int_value (range_values r).

(** What detaching promises of a predicate: the values that satisfy it are in
    the range, none is null, and an exact predicate is satisfied by no other. *)
Definition implies_range (b : bool) (p : SE.ScalarExpression F) (r : option (Range.Range F)) : Prop :=
  (b = true -> r <> None)
  /\ forall rg, r = Some rg -> int_range rg
  /\ forall row x, eval (SE.ColumnRef col) row = Ok (int_opt x) ->
     (run p row = Ok (DV.Boolean true) -> exists x', x = Some x' /\ contains rg (DV.Int32 x') = true)
     /\ (b = true -> forall x', x = Some x' -> contains rg (DV.Int32 x') = true ->
         run p row = Ok (DV.Boolean true)).

(** Conjunctions of comparisons of the column with constants and of other
    predicates, whose own range is none or sound; [true] when there are none of the
    latter and no inequation. *)
Inductive conjunction : bool -> SE.ScalarExpression F -> Prop :=
| conj_left op k : compare_op op = true ->
    conjunction (negb (bool_decide (op = BinaryOp.NotEq))) (comparison_of op (SE.ColumnRef col) (int_const k))
| conj_right op k : compare_op op = true ->
    conjunction (negb (bool_decide (op = BinaryOp.NotEq))) (comparison_of op (int_const k) (SE.ColumnRef col))
| conj_other e r : detach e = Some (Ok r) -> implies_range false e r ->
    unpack_col false e = None -> unpack_val e = Ok None ->
    (forall e', bind_evaluator e = Ok e' -> return_type e' = Ok LT.Boolean) -> conjunction false e
| conj_and b1 b2 p q : conjunction b1 p -> conjunction b2 q ->
    conjunction (b1 && b2) (comparison_of BinaryOp.And p q).

Lemma conjunction_opaque b p : conjunction b p -> unpack_col false p = None /\ unpack_val p = Ok None.
Proof.
  induction 1 as [op k Hop | op k Hop | e r _ _ Hc Hv _ | b1 b2 p q _ [IHc IHv] _ _];
    try (split; reflexivity); [now split |].
  split; [reflexivity |]. unfold comparison_of. cbn [unpack_val]. now rewrite IHv.
Qed.

Lemma conjunction_boolean b p : conjunction b p ->
  forall p', bind_evaluator p = Ok p' -> return_type p' = Ok LT.Boolean.
Proof.
  induction 1 as [op k Hop | op k Hop | e r _ _ _ _ Hb | b1 b2 p q _ _ _ _]; [..| exact Hb |];
    intros p' H; unfold comparison_of in H; cbn [bind_evaluator] in H; inv_ok; reflexivity.
Qed.

(** A conjunction is true exactly when its parts are. *)
Lemma run_and b1 b2 p q row : conjunction b1 p -> conjunction b2 q ->
  run (comparison_of BinaryOp.And p q) row = Ok (DV.Boolean true) <->
  run p row = Ok (DV.Boolean true) /\ run q row = Ok (DV.Boolean true).
Proof.
  intros Hp Hq. unfold run at 1. unfold comparison_of.
  destruct (bind_evaluator p) as [p'| |] eqn:Ep;
    [| unfold run; rewrite Ep; cbn [bind_evaluator]; rewrite Ep; cbn [result_bind]; intuition discriminate ..].
  destruct (bind_evaluator q) as [q'| |] eqn:Eq;
    [| unfold run; rewrite Ep, Eq; cbn [bind_evaluator]; rewrite Ep, Eq; cbn [result_bind]; intuition discriminate ..].
  rewrite (bind_same BinaryOp.And p q None LT.Boolean LT.Boolean (BooleanBinary BinaryOp.And) p' q' Ep Eq
             (conjunction_boolean b1 p Hp p' Ep) (conjunction_boolean b2 q Hq q' Eq) eq_refl).
  unfold run. rewrite Ep, Eq. cbn [result_bind eval].
  destruct (eval p' row) as [vp| |]; cbn [result_bind]; [| intuition discriminate ..].
  destruct (eval q' row) as [vq| |]; cbn [result_bind]; [| intuition discriminate ..].
  cbn [ok_or result_bind]. split.
  - destruct vp as [|[]| | | | | | | | | | | | | | | | |]; destruct vq as [|[]| | | | | | | | | | | | | | | | |];
      cbn; intros H; try discriminate H; auto.
  - intros [[= ->] [= ->]]. reflexivity.
Qed.

(** ** One comparison *)

Definition comparison_range (op : BinaryOperator) (val : DV.DataValue F) : option (Range.Range F) :=
  match op with
  | BinaryOp.Gt => Some (Range.Scope (Bound.Excluded val) Bound.Unbounded)
  | BinaryOp.Lt => Some (Range.Scope Bound.Unbounded (Bound.Excluded val))
  | BinaryOp.GtEq => Some (Range.Scope (Bound.Included val) Bound.Unbounded)
  | BinaryOp.LtEq => Some (Range.Scope Bound.Unbounded (Bound.Included val))
  | BinaryOp.Eq | BinaryOp.Spaceship => Some (Range.Eq val)
  | _ => None
  end.

Lemma new_range_int op k is_flip :
  new_range table_name target_id op col (DV.Int32 k) is_flip
  = Ok (comparison_range (if is_flip then comparison_flip op else op) (DV.Int32 k)).
Proof.
  unfold new_range, is_belong. rewrite Htable, Hid, !bool_decide_true by reflexivity. cbn [negb orb].
  unfold check_cast. rewrite Hty, decide_True by reflexivity. reflexivity.
Qed.

Lemma comparison_range_contains op k x r : compare_op op = true -> comparison_range op (DV.Int32 k) = Some r ->
  flat r = true /\ range_ok r = true
  /\ (contains r (DV.Int32 x) = true <-> int_cmp op (Some x) k = Ok (DV.Boolean true)).
Proof.
  intros Hop. unfold int_cmp, of_cmp_op. rewrite (Z.compare_antisym k x).
  destruct op; try discriminate Hop; cbn [comparison_range]; intros [= <-];
    (split; [reflexivity |]); (split; [reflexivity |]);
    cbn; try destruct (Z.eqb_spec k x); destruct (Z.compare_spec k x); cbn; intuition (congruence || lia).
Qed.

Lemma int_cmp_eval_flip op x y : compare_op op = true ->
  binary_eval (NumericBinary VT.Int32 op) (DV.Int32 y) (int_opt x) = int_cmp (comparison_flip op) x y.
Proof.
  intros Hop. destruct x as [x|]; [| now destruct op]. unfold int_cmp, of_cmp_op.
  rewrite (Z.compare_antisym y x). destruct op; try discriminate; cbn; now destruct (y ?= x).
Qed.

(** ** Ranges of integers *)

Lemma int_values_comparable (vs : list (DV.DataValue F)) : Forall int_value vs -> comparable vs.
Proof.
  intros H. rewrite Forall_forall in H.
  split; [intros a Ha | intros a b Ha Hb; destruct (H b Hb) as [? ->]]; destruct (H a Ha) as [? ->]; discriminate || reflexivity.
Qed.

(** The AND of two flat ranges is flat and keeps to their constants. *)
Lemma merge_leaf_and_int (l r m : Range.Range F) :
  int_range l -> int_range r -> merge_leaf BinaryOp.And l r = Some m -> int_range m.
Proof.
  intros [Fl Hl] [Fr Hr]. destruct l as [l1 l2|a| |], r as [r1 r2|b| |]; try discriminate; cbn [merge_leaf];
    try (intros [= <-]; split; [reflexivity | constructor]).
  - intros [= <-]. cbn [range_values] in Hl, Hr. apply Forall_app in Hl as [Hl1 Hl2], Hr as [Hr1 Hr2].
    unfold and_scope_merge, int_range.
    set (min := if cmp_is (bound_compared l1 r1 true) is_gt then l1 else r1).
    set (max := if cmp_is (bound_compared l2 r2 false) is_lt then l2 else r2).
    assert (Forall int_value (bound_values min)) by (subst min; case_match; assumption).
    assert (Forall int_value (bound_values max)) by (subst max; case_match; assumption).
    assert (Forall int_value (range_values (Range.Scope min max))) by now apply Forall_app.
    destruct (bound_compared min max (is_unbounded min)) as [[]|]; try (split; [reflexivity | auto]).
    destruct min; (split; [reflexivity | auto]).
  - cbn [merge_scope_eq]. destruct (_ || _); intros [= <-]; split; auto.
  - cbn [merge_scope_eq]. destruct (_ || _); intros [= <-]; split; auto.
  - cbn [merge_eq_eq]. destruct (dv_eq a b); intros [= <-]; split; auto.
Qed.

(** A comparison whose value on a row is [int_cmp op]. *)
Lemma comparison_implies op k p :
  compare_op op = true ->
  (forall row x, eval (SE.ColumnRef col) row = Ok (int_opt x) -> run p row = int_cmp op x k) ->
  implies_range (negb (bool_decide (op = BinaryOp.NotEq))) p (comparison_range op (DV.Int32 k)).
Proof.
  intros Hop Hrun. split; [destruct op; discriminate |]. intros rg Hrg.
  assert (Hint : int_range rg).
  { destruct op; try discriminate; injection Hrg as <-; (split; [reflexivity |]);
      cbn; repeat constructor; now exists k. }
  split; [exact Hint |]. intros row x Hx. rewrite (Hrun row x Hx). split.
  - destruct x as [x|]; [| discriminate]. intros H. exists x. split; [reflexivity |].
    now apply (comparison_range_contains op k x rg Hop Hrg).
  - intros _ x' -> Hc. now apply (comparison_range_contains op k x' rg Hop Hrg).
Qed.

Lemma run_left op k row x : compare_op op = true -> eval (SE.ColumnRef col) row = Ok (int_opt x) ->
  run (comparison_of op (SE.ColumnRef col) (int_const k)) row = int_cmp op x k.
Proof.
  intros Hop Hx. unfold run.
  rewrite (bind_comparison op _ _ _ _ Hop (bind_column col) (bind_const k) (column_type col Hty) eq_refl).
  cbn [result_bind]. rewrite (eval_bound row _ _ _ _ _ _ _ Hx (eval_const row k)). now apply int_cmp_eval.
Qed.
Lemma run_right op k row x : compare_op op = true -> eval (SE.ColumnRef col) row = Ok (int_opt x) ->
  run (comparison_of op (int_const k) (SE.ColumnRef col)) row = int_cmp (comparison_flip op) x k.
Proof.
  intros Hop Hx. unfold run.
  rewrite (bind_comparison op _ _ _ _ Hop (bind_const k) (bind_column col) eq_refl (column_type col Hty)).
  cbn [result_bind]. rewrite (eval_bound row _ _ _ _ _ _ _ (eval_const row k) Hx). now apply int_cmp_eval_flip.
Qed.

Lemma detach_left op k : detach (comparison_of op (SE.ColumnRef col) (int_const k))
  = Some (Ok (comparison_range op (DV.Int32 k))).
Proof.
  change (Some (new_range table_name target_id op col (DV.Int32 k) false)
          = Some (Ok (comparison_range op (DV.Int32 k)))). now rewrite new_range_int.
Qed.
Lemma detach_right op k : detach (comparison_of op (int_const k) (SE.ColumnRef col))
  = Some (Ok (comparison_range (comparison_flip op) (DV.Int32 k))).
Proof.
  change (Some (new_range table_name target_id op col (DV.Int32 k) true)
          = Some (Ok (comparison_range (comparison_flip op) (DV.Int32 k)))). now rewrite new_range_int.
Qed.

(** Two ranges of conjuncts, merged. *)
Lemma and_implies b1 b2 p q l r :
  conjunction b1 p -> conjunction b2 q -> implies_range b1 p (Some l) -> implies_range b2 q (Some r) ->
  exists m, merge_binary fuel BinaryOp.And l r = Some (Some m)
    /\ implies_range (b1 && b2) (comparison_of BinaryOp.And p q) (Some m).
Proof.
  intros Cp Cq [_ Hp] [_ Hq].
  destruct (Hp l eq_refl) as [[Fl Vl] Hl]. destruct (Hq r eq_refl) as [[Fr Vr] Hr].
  assert (Hc : forall x, comparable (DV.Int32 x :: range_values l ++ range_values r)).
  { intros x. apply int_values_comparable. constructor; [now exists x | now apply Forall_app]. }
  destruct (merge_leaf_and l r (DV.Int32 0) Fl Fr (Hc 0)) as (m & Em & _).
  exists m. rewrite merge_binary_flat, Em by assumption. split; [reflexivity |].
  split; [discriminate |]. intros rg [= <-].
  split; [now apply (merge_leaf_and_int l r) |]. intros row x Hx.
  destruct (Hl row x Hx) as [Hl1 Hl2], (Hr row x Hx) as [Hr1 Hr2].
  assert (Hm : forall x', contains m (DV.Int32 x') = contains l (DV.Int32 x') && contains r (DV.Int32 x')).
  { intros x'. destruct (merge_leaf_and l r (DV.Int32 x') Fl Fr (Hc x')) as (m' & Em' & Hm'). congruence. }
  rewrite (run_and b1 b2 p q row Cp Cq). split.
  - intros [Tp Tq]. destruct (Hl1 Tp) as (x' & -> & H1), (Hr1 Tq) as (x'' & [= <-] & H2).
    exists x'. now rewrite Hm, H1, H2.
  - intros [-> ->]%andb_prop x' -> H. rewrite Hm in H. apply andb_prop in H as [H1 H2].
    apply (run_and true true p q row Cp Cq). split; [exact (Hl2 eq_refl x' eq_refl H1) | exact (Hr2 eq_refl x' eq_refl H2)].
Qed.

(** A conjunct with a range beside one without. *)
Lemma and_alone b1 b2 p q r : b1 && b2 = false -> conjunction b1 p -> conjunction b2 q ->
  implies_range b1 p r \/ implies_range b2 q r ->
  implies_range (b1 && b2) (comparison_of BinaryOp.And p q) r.
Proof.
  intros Hb Cp Cq [[_ H] | [_ H]]; (split; [congruence |]); intros rg Hrg; destruct (H rg Hrg) as [Hi Hr];
    (split; [exact Hi |]); intros row x Hx; destruct (Hr row x Hx) as [Hs _];
    rewrite (run_and b1 b2 p q row Cp Cq); split; [tauto | congruence | tauto | congruence].
Qed.

(** The range of a conjunction, by induction on it. *)
Lemma detach_implies b p : conjunction b p ->
  exists r, detach p = Some (Ok r) /\ implies_range b p r.
Proof.
  induction 1 as [op k Hop | op k Hop | e r Hd Hi _ _ _ | b1 b2 p q Cp IHp Cq IHq].
  - exists (comparison_range op (DV.Int32 k)). split; [apply detach_left |].
    apply comparison_implies; [exact Hop |]. intros row x. now apply run_left.
  - exists (comparison_range (comparison_flip op) (DV.Int32 k)). split; [apply detach_right |].
    replace (bool_decide (op = BinaryOp.NotEq)) with (bool_decide (comparison_flip op = BinaryOp.NotEq))
      by now destruct op.
    apply comparison_implies; [now destruct op |]. intros row x. now apply run_right.
  - exists r. auto.
  - destruct IHp as (l & Dl & Hl), IHq as (r & Dr & Hr). unfold comparison_of. cbn [Detach.detach].
    rewrite Dl, Dr. destruct (conjunction_opaque b1 p Cp) as [Pc Pv], (conjunction_opaque b2 q Cq) as [Qc Qv].
    destruct l as [l|], r as [r|].
    + destruct (and_implies b1 b2 p q l r Cp Cq Hl Hr) as (m & -> & Hm). now exists (Some m).
    + exists (Some l). split; [reflexivity |]. apply and_alone; auto.
      destruct b2; [now destruct Hr as [[] _] | apply andb_false_r].
    + exists (Some r). split; [reflexivity |]. apply and_alone; auto. destruct b1; [now destruct Hl as [[] _] | reflexivity].
    + exists None. unfold detach_comparison. rewrite Pc, Pv, Qv. split; [reflexivity |]. apply and_alone; auto.
      destruct b1; [now destruct Hl as [[] _] | reflexivity].
Qed.

End Conjunctions.

(** ** Where the range is not implied *)

Section Counterexamples.
Context {F : Foreign} {C : CastForeign} {TF : TextForeign} {EF : ExprForeign}.
Import RefExpr.
#[local] Abbreviation detach_a := (detach (F := F) [116] [97] 10).
#[local] Abbreviation above_5 := (Range.Scope (Bound.Excluded (DV.Int32 5)) Bound.Unbounded).

(** The detached range loses rows that satisfy the predicate: [NOT a > 5]
    yields the range of [a > 5], [(a > 5) = (b > 5)] the range of [a > 5] (only
    OR drops a range that stands beside none), and [(a > 5) IS NULL] as well. *)
Theorem detach_unsound :
  (detach_a (negation (comparison_of BinaryOp.Gt col_a (int_const 5))) = Some (Ok (Some above_5))
   /\ run (negation (comparison_of BinaryOp.Gt col_a (int_const 5))) (row_ab 1 0) = Ok (DV.Boolean true))
  /\ (let same := comparison_of BinaryOp.Eq (comparison_of BinaryOp.Gt col_a (int_const 5))
                    (comparison_of BinaryOp.Gt col_b (int_const 5)) in
      detach_a same = Some (Ok (Some above_5)) /\ run same (row_ab 1 1) = Ok (DV.Boolean true))
  /\ (let unknown := SE.IsNull false (comparison_of BinaryOp.Gt col_a (int_const 5)) in
      detach_a unknown = Some (Ok (Some above_5))
      /\ run unknown (Some (mk_tuple None [DV.Null; DV.Null], [column 97 LT.Integer; column 98 LT.Integer]))
         = Ok (DV.Boolean true))
  /\ contains (F := F) above_5 (DV.Int32 1) = false.
Proof. repeat split. Qed.
End Counterexamples.

Section Witnesses.
#[local] Existing Instance RefForeign.ref_foreign.
#[local] Existing Instance RefForeign.ref_laws.
#[local] Existing Instance RefCast.ref_cast.
Import RefExpr.

End Witnesses.
