(* ===== verification/Aggregates.v ===== *)
(** * Aggregation

    The accumulators of src/src/execution/dql/aggregate/ and the executors that
    feed them: [SimpleAggExecutor], one group, and [HashAggExecutor], a group for
    every key.  An executor is a function from the tuples of its input to the
    tuples it yields, or the first error it yields; the order in which the map
    of groups is drained is an argument. *)

From Stdlib Require Import Sorting.Sorted.
From S2P Require Import Prelude Bytes Types LogicalTypes Values Floats Evaluators Cast.
From S2P Require Import Text TupleCodec TableCodec Catalog Expression ExprTyping.

(** ** Accumulators *)

Section Accumulators.
Context {F : Foreign} {C : CastForeign}.

Record SumAccumulator := mk_sum { sum_result : DV.DataValue F; sum_evaluator : BinaryEvaluatorBox }.

(** The implementors of [Accumulator]. *)
Inductive Accumulator :=
| CountAccumulator (result : Z)
| DistinctCountAccumulator (distinct_values : list (DV.DataValue F))
| SumAcc (inner : SumAccumulator)
| DistinctSumAccumulator (distinct_values : list (DV.DataValue F)) (inner : SumAccumulator)
| MinMaxAccumulator (inner : option (DV.DataValue F)) (op : BinaryOperator)
| AvgAccumulator (inner : option SumAccumulator) (count : Z).

Definition sum_new (ty : LogicalType) : Result SumAccumulator :=
  if negb (is_numeric ty) then Panic
  else let? evaluator := binary_create ty BinaryOp.Plus in Ok (mk_sum DV.Null evaluator).

Definition sum_update (self : SumAccumulator) (value : DV.DataValue F) : Result SumAccumulator :=
  if is_null value then Ok self
  else if is_null (sum_result self) then Ok (mk_sum value (sum_evaluator self))
  else let? result := binary_eval (sum_evaluator self) (sum_result self) value in
       Ok (mk_sum result (sum_evaluator self)).

(** [HashSet<DataValue>]: a list in insertion order. *)
Definition set_contains (value : DV.DataValue F) (s : list (DV.DataValue F)) : bool :=
  existsb (fun v => dv_eq v value) s.
Definition set_insert (value : DV.DataValue F) (s : list (DV.DataValue F)) : list (DV.DataValue F) :=
  if set_contains value s then s else s ++ [value].

Definition min_max_new (is_max : bool) : Accumulator :=
  MinMaxAccumulator None (if is_max then BinaryOp.Lt else BinaryOp.Gt).

(** Whether the value replaces the one kept. *)
Definition min_max_replaces (inner : option (DV.DataValue F)) (op : BinaryOperator) (value : DV.DataValue F)
  : Result bool :=
  match inner with
  | Some inner_value =>
      let? evaluator := binary_create (logical_type value) op in
      let? result := binary_eval evaluator inner_value value in
      match result with DV.Boolean result => Ok result | _ => Err InvalidType end
  | None => Ok true
  end.

Definition update_value (self : Accumulator) (value : DV.DataValue F) : Result Accumulator :=
  match self with
  | CountAccumulator result =>
      if is_null value then Ok self
      else if in_i 32 (result + 1) then Ok (CountAccumulator (result + 1)) else Panic
  | DistinctCountAccumulator distinct_values =>
      Ok (if is_null value then self else DistinctCountAccumulator (set_insert value distinct_values))
  | SumAcc inner => let? inner := sum_update inner value in Ok (SumAcc inner)
  | DistinctSumAccumulator distinct_values inner =>
      if set_contains value distinct_values then Ok self
      else let? inner := sum_update inner value in
           Ok (DistinctSumAccumulator (set_insert value distinct_values) inner)
  | MinMaxAccumulator inner op =>
      if is_null value then Ok self
      else let? replaces := min_max_replaces inner op value in
           Ok (if (replaces : bool) then MinMaxAccumulator (Some value) op else self)
  | AvgAccumulator inner count =>
      if is_null value then Ok self
      else let? acc := match inner with Some acc => Ok acc | None => sum_new (logical_type value) end in
           let? acc := sum_update acc value in
           if in_u usize_bits (count + 1) then Ok (AvgAccumulator (Some acc) (count + 1)) else Panic
  end.

Definition avg_evaluate (acc : SumAccumulator) (count : Z) : Result (DV.DataValue F) :=
  let value := sum_result acc in
  let value_ty := logical_type value in
  if count =? 0 then Ok DV.Null
  else
    let quantity := if is_signed_numeric value_ty then DV.Int64 (as_i 64 count) else DV.UInt32 (as_u 32 count) in
    let quantity_ty := logical_type quantity in
    let? value := check_cast value quantity_ty in
    let? evaluator := binary_create quantity_ty BinaryOp.Divide in
    binary_eval evaluator value quantity.

Definition evaluate (self : Accumulator) : Result (DV.DataValue F) :=
  match self with
  | CountAccumulator result => Ok (DV.Int32 result)
  | DistinctCountAccumulator distinct_values => Ok (DV.Int32 (as_i 32 (Z.of_nat (length distinct_values))))
  | SumAcc inner | DistinctSumAccumulator _ inner => Ok (sum_result inner)
  | MinMaxAccumulator inner _ => Ok (default DV.Null inner)
  | AvgAccumulator inner count =>
      match inner with
      | Some acc => avg_evaluate acc count
      | None => Ok DV.Null
      end
  end.

Definition create_accumulator (expr : SE.ScalarExpression F) : Result Accumulator :=
  match expr with
  | SE.AggCall distinct kind _ ty =>
      match kind, distinct with
      | Count, false => Ok (CountAccumulator 0)
      | Count, true => Ok (DistinctCountAccumulator [])
      | Sum, false => let? inner := sum_new ty in Ok (SumAcc inner)
      | Sum, true => let? inner := sum_new ty in Ok (DistinctSumAccumulator [] inner)
      | Min, _ => Ok (min_max_new false)
      | Max, _ => Ok (min_max_new true)
      | Avg, _ => Ok (AvgAccumulator None 0)
      end
  | _ => Panic
  end.

Definition create_accumulators (exprs : list (SE.ScalarExpression F)) : Result (list Accumulator) :=
  try_map create_accumulator exprs.

(** [for (acc, value) in accs.iter_mut().zip_eq(values.iter())]. *)
Fixpoint update_all (accs : list Accumulator) (values : list (DV.DataValue F)) : Result (list Accumulator) :=
  match accs, values with
  | [], [] => Ok []
  | acc :: accs, value :: values =>
      let? acc := update_value acc value in
      let? accs := update_all accs values in
      Ok (acc :: accs)
  | _, _ => Panic
  end.
End Accumulators.
Arguments Accumulator F : clear implicits.
Arguments SumAccumulator F : clear implicits.

(** ** Executors *)

Section Executors.
Context {F : Foreign} {C : CastForeign} {TF : TextForeign} {EF : ExprForeign}.
Abbreviation Tuple := (TupleCodec.Tuple F).
Variables (agg_calls groupby_exprs : list (SE.ScalarExpression F)) (schema : list (ColumnCatalog (SE.ScalarExpression F))).

(** The argument of an aggregate call on a tuple. *)
Definition simple_arg (tuple : Tuple) (expr : SE.ScalarExpression F) : Result DataValue :=
  match expr with
  | SE.AggCall _ _ (arg :: _) _ => eval arg (Some (tuple, schema))
  | _ => Panic
  end.

Definition simple_step (accs : list (Accumulator F)) (tuple : Tuple) : Result (list (Accumulator F)) :=
  let? values := try_map (simple_arg tuple) agg_calls in
  update_all accs values.

Definition simple_agg (input : list Tuple) : Result (list Tuple) :=
  let? accs := create_accumulators agg_calls in
  let? accs := try_fold simple_step input accs in
  let? values := try_map evaluate accs in
  Ok [mk_tuple None values].

Definition hash_arg (tuple : Tuple) (expr : SE.ScalarExpression F) : Result DataValue :=
  match expr with
  | SE.AggCall _ _ args _ =>
      if (1 <? length args)%nat then 
        Err (UnsupportedStmt (str "currently aggregate functions only support a single Column as a parameter"))
      else match args with arg :: _ => eval arg (Some (tuple, schema)) | [] => Panic end
  | _ => Panic
  end.

(** The groups, in the order of their first tuples. *)
Abbreviation groups := (list (list DataValue * list (Accumulator F))).

(** [group_hash_accs.entry(group_keys)], and the update of its accumulators. *)
Fixpoint group_update (key values : list DataValue) (m : groups) : Result groups :=
  match m with
  | [] =>
      let? accs := create_accumulators agg_calls in
      let? accs := update_all accs values in
      Ok [(key, accs)]
  | (k, accs) :: m =>
      if keys_eq k key then let? accs := update_all accs values in Ok ((k, accs) :: m)
      else let? m := group_update key values m in Ok ((k, accs) :: m)
  end.

Definition hash_step (m : groups) (tuple : Tuple) : Result groups :=
  let? values := try_map (hash_arg tuple) agg_calls in
  let? group_keys := try_map (fun expr => eval expr (Some (tuple, schema))) groupby_exprs in
  group_update group_keys values m.

Definition group_row (group : list DataValue * list (Accumulator F)) : Result Tuple :=
  let? values := try_map evaluate group.2 in
  Ok (mk_tuple None (values ++ group.1)).

Variable drain : groups -> groups.
Definition hash_agg (input : list Tuple) : Result (list Tuple) :=
  let? m := try_fold hash_step input [] in
  try_map group_row (drain m).
End Executors.

(** ** Grouping *)

Lemma try_fold_snoc {E A B} (f : B -> A -> result E B) l x b :
  try_fold f (l ++ [x]) b = let? b := try_fold f l b in f b x.
Proof. revert b. induction l as [|y l IH]; intros b; cbn; [now destruct (f b x) |]. destruct (f b y); cbn; auto. Qed.

Lemma try_map_Forall2 {E A B} (f : A -> result E B) l ys :
  try_map f l = Ok ys <-> Forall2 (fun x y => f x = Ok y) l ys.
Proof.
  split.
  - revert ys. induction l as [|x l IH]; intros ys H; cbn in H; inv_ok; constructor; auto.
  - induction 1 as [|x y l ys Hx _ IH]; [reflexivity |]. cbn. now rewrite Hx, IH.
Qed.

(** Two pointwise relations that agree along a third. *)
Lemma Forall2_along {A B B'} (R : A -> B -> Prop) (P : B -> B' -> Prop) (Q : A -> B' -> Prop) l m m' :
  Forall2 R l m -> (forall a b b', a ∈ l -> R a b -> P b b' <-> Q a b') -> Forall2 P m m' <-> Forall2 Q l m'.
Proof.
  intros H. revert m'. induction H as [|a b l m Hab _ IH]; intros m' HPQ; [split; intros H; apply Forall2_nil_inv_l in H as ->; constructor |].
  assert (IH' : forall m', Forall2 P m m' <-> Forall2 Q l m').
  { intros m''. apply IH. intros ? ? ? ?. apply HPQ. now apply list_elem_of_further. }
  split; intros (b' & m'' & Hb & Hm & ->)%Forall2_cons_inv_l; constructor;
    try (now apply IH'); now apply (HPQ a b b' (list_elem_of_here _ _) Hab).
Qed.

Section Grouping.
Context {F : Foreign} {L : ForeignLaws F} {C : CastForeign} {TF : TextForeign} {EF : ExprForeign}.
Abbreviation Tuple := (TupleCodec.Tuple F).
Variables (agg_calls groupby_exprs : list (SE.ScalarExpression F)) (schema : list (ColumnCatalog (SE.ScalarExpression F))).
(** The key of a tuple. *)
Variable key : Tuple -> list DataValue.

(** Aggregates have one argument. *)
Hypothesis Hcalls : Forall (fun e =>
  match e with SE.AggCall _ _ [_] _ => True | _ => False end) agg_calls.

(** The keys in the order of their first tuples. *)
Definition add_key (keys : list (list DataValue)) (k : list DataValue) : list (list DataValue) :=
  if existsb (fun k' => keys_eq k' k) keys then keys else keys ++ [k].
Definition distinct_keys (input : list Tuple) : list (list DataValue) :=
  fold_left (fun keys t => add_key keys (key t)) input [].
Definition group_of (k : list DataValue) (input : list Tuple) : list Tuple :=
  filter (fun t => keys_eq k (key t) = true) input.

(** The accumulators of one group after its tuples. *)
Definition accumulate (group : list Tuple) : Result (list (Accumulator F)) :=
  let? accs := create_accumulators agg_calls in try_fold (simple_step agg_calls schema) group accs.

(** The reference: simple aggregation of every group, its key appended. *)
Definition grouped_rows (input : list Tuple) : Result (list Tuple) :=
  try_map (fun k =>
    let? rows := simple_agg agg_calls schema (group_of k input) in
    match rows with [r] => Ok (mk_tuple None (values r ++ k)) | _ => Panic end) (distinct_keys input).

Definition keyed (t : Tuple) : Prop :=
  try_map (fun expr => eval expr (Some (t, schema))) groupby_exprs = Ok (key t).

Lemma args_agree t : try_map (hash_arg schema t) agg_calls = try_map (simple_arg schema t) agg_calls.
Proof.
  revert Hcalls. generalize agg_calls. intros es H. induction H as [|e es He _ IH]; [reflexivity |].
  cbn [try_map]. rewrite IH. f_equal. destruct e; try easy. now destruct args as [|? []].
Qed.

Lemma distinct_snoc input t : distinct_keys (input ++ [t]) = add_key (distinct_keys input) (key t).
Proof. unfold distinct_keys. now rewrite fold_left_app. Qed.

Lemma group_snoc k input t :
  group_of k (input ++ [t]) = group_of k input ++ (if keys_eq k (key t) then [t] else []).
Proof.
  unfold group_of. rewrite filter_app. f_equal. rewrite filter_cons, filter_nil.
  destruct (keys_eq k (key t)); case_decide; easy.
Qed.

Lemma accumulate_snoc group t :
  accumulate (group ++ [t]) = let? accs := accumulate group in simple_step agg_calls schema accs t.
Proof. unfold accumulate. destruct (create_accumulators agg_calls); cbn; [apply try_fold_snoc | easy ..]. Qed.

(** Every key of the input is among the distinct ones, up to equality. *)
Lemma distinct_covers input t : t ∈ input -> existsb (fun k => keys_eq k (key t)) (distinct_keys input) = true.
Proof.
  induction input as [|t' input IH] using rev_ind; [now intros ?%elem_of_nil |].
  rewrite distinct_snoc, elem_of_app, list_elem_of_singleton. unfold add_key.
  destruct (existsb (fun k => keys_eq k (key t')) (distinct_keys input)) eqn:E; intros [H | ->]; auto.
  - rewrite existsb_app. now rewrite IH.
  - rewrite existsb_app. cbn. now rewrite keys_eq_refl, orb_true_r.
Qed.

Lemma group_fresh input t : existsb (fun k => keys_eq k (key t)) (distinct_keys input) = false ->
  group_of (key t) input = [].
Proof.
  intros H. apply filter_none. intros t' Ht' E.
  apply distinct_covers in Ht' as Hc. apply existsb_exists in Hc as (k & Hk & Ek).
  apply Bool.not_true_iff_false in H. apply H. apply existsb_exists. exists k. split; [exact Hk |].
  now rewrite keys_eq_sym, (keys_eq_congr _ _ k E), keys_eq_sym.
Qed.

Abbreviation groups := (list (list DataValue * list (Accumulator F))).


Lemma add_key_unique keys k :
  StronglySorted (fun a b => keys_eq a b = false) keys ->
  StronglySorted (fun a b => keys_eq a b = false) (add_key keys k).
Proof.
  unfold add_key. intros H. destruct (existsb _ keys) eqn:E; [exact H |].
  induction H as [|k' keys _ IH Hk']; cbn in *; [repeat constructor |].
  apply orb_false_iff in E as [E1 E2]. constructor; [auto |].
  apply Forall_app. auto.
Qed.
Lemma distinct_unique input : StronglySorted (fun a b => keys_eq a b = false) (distinct_keys input).
Proof.
  induction input as [|t input IH] using rev_ind; [constructor |].
  rewrite distinct_snoc. now apply add_key_unique.
Qed.

(** The update of the group of a key, and what a new group starts with. *)
Definition update_group (k values : list DataValue) (g : list DataValue * list (Accumulator F))
  : Result (list DataValue * list (Accumulator F)) :=
  if keys_eq g.1 k then let? accs := update_all g.2 values in Ok (g.1, accs) else Ok g.
Definition new_group (k values : list DataValue) : Result (list DataValue * list (Accumulator F)) :=
  let? accs := create_accumulators agg_calls in let? accs := update_all accs values in Ok (k, accs).

Lemma update_others k values (m : groups) :
  existsb (fun k' => keys_eq k' k) (map fst m) = false -> try_map (update_group k values) m = Ok m.
Proof.
  induction m as [|g m IH]; cbn; [reflexivity |]. intros [E1 E2]%orb_false_iff.
  unfold update_group at 1. rewrite E1. cbn. now rewrite IH.
Qed.

Lemma group_update_eq k values (m : groups) :
  StronglySorted (fun a b => keys_eq a b = false) (map fst m) ->
  group_update agg_calls k values m
  = if existsb (fun k' => keys_eq k' k) (map fst m) then try_map (update_group k values) m
    else let? g := new_group k values in Ok (m ++ [g]).
Proof.
  induction m as [|[k' accs] m IH]; cbn [group_update map fst existsb]; intros Hu.
  - unfold new_group. destruct (create_accumulators agg_calls); cbn; [| easy ..]. now destruct (update_all a values).
  - apply StronglySorted_inv in Hu as [Hu Hk]. specialize (IH Hu). cbn [try_map]. unfold update_group at 1. cbn [fst snd].
    destruct (keys_eq k' k) eqn:E; cbn [orb].
    + rewrite update_others.
      * now destruct (update_all accs values).
      * apply Bool.not_true_iff_false. intros (k'' & Hin & E')%existsb_exists.
        rewrite Forall_forall in Hk. specialize (Hk k'' ltac:(now apply list_elem_of_In)).
        rewrite keys_eq_sym in E'. rewrite keys_eq_sym, (keys_eq_congr k k'' k' E'), keys_eq_sym in E. congruence.
    + rewrite IH. cbn [result_bind]. destruct (existsb _ _); [reflexivity |]. now destruct (new_group k values).
Qed.

(** The map of groups holds the distinct keys with the accumulators of their
    tuples. *)
Definition holds_groups (input : list Tuple) : groups -> Prop :=
  Forall2 (fun k g => g.1 = k /\ accumulate (group_of k input) = Ok g.2) (distinct_keys input).

Lemma holds_keys input m : holds_groups input m -> map fst m = distinct_keys input.
Proof. induction 1 as [|k [k' accs] keys m [Hk _] _ IH]; cbn; [reflexivity | cbn in Hk; congruence]. Qed.

Lemma holds_unique input m m' : holds_groups input m -> holds_groups input m' -> m = m'.
Proof.
  unfold holds_groups. generalize (distinct_keys input). intros keys H. revert m'.
  induction H as [|k [k1 a1] keys m [Hk Ha] _ IH]; intros m' H'; [now apply Forall2_nil_inv_l in H' |].
  apply Forall2_cons_inv_l in H' as ([k2 a2] & m2 & [Hk2 Ha2] & H' & ->). cbn in *.
  f_equal; [congruence | auto].
Qed.

(** One more tuple, its arguments and key evaluated. *)
Lemma hash_step_eq m t args : keyed t -> try_map (simple_arg schema t) agg_calls = Ok args ->
  hash_step agg_calls groupby_exprs schema m t = group_update agg_calls (key t) args m.
Proof. intros Hk Ha. unfold hash_step. now rewrite args_agree, Ha, Hk. Qed.

Lemma accumulate_step k input t args : try_map (simple_arg schema t) agg_calls = Ok args ->
  accumulate (group_of k (input ++ [t]))
  = let? accs := accumulate (group_of k input) in if keys_eq k (key t) then update_all accs args else Ok accs.
Proof.
  intros Ha. rewrite group_snoc. destruct (keys_eq k (key t)).
  - rewrite accumulate_snoc. unfold simple_step. now rewrite Ha.
  - rewrite app_nil_r. now destruct (accumulate _).
Qed.

Lemma hash_step_holds input m m' t args : keyed t -> try_map (simple_arg schema t) agg_calls = Ok args ->
  holds_groups input m -> (hash_step agg_calls groupby_exprs schema m t = Ok m' <-> holds_groups (input ++ [t]) m').
Proof.
  intros Hk Ha Hm. pose proof (holds_keys input m Hm) as Hkeys.
  rewrite (hash_step_eq m t args Hk Ha), group_update_eq by (rewrite Hkeys; apply distinct_unique).
  unfold holds_groups. rewrite distinct_snoc. unfold add_key. rewrite Hkeys.
  destruct (existsb _ (distinct_keys input)) eqn:E.
  - rewrite try_map_Forall2. apply (Forall2_along _ _ _ _ _ _ Hm). intros k g g' _ [<- Hg].
    rewrite (accumulate_step _ _ _ _ Ha), Hg. cbn [result_bind]. unfold update_group.
    destruct g as [k accs], g' as [k' accs']. cbn [fst snd]. destruct (keys_eq k (key t)).
    + destruct (update_all accs args) eqn:Eu; cbn; intuition congruence.
    + intuition congruence.
  - assert (Hnew : forall g, new_group (key t) args = Ok g
              <-> g.1 = key t /\ accumulate (group_of (key t) (input ++ [t])) = Ok g.2).
    { intros [k accs]. rewrite (accumulate_step _ _ _ _ Ha), (group_fresh input t E), keys_eq_refl.
      unfold new_group, accumulate. cbn [fst snd try_fold].
      destruct (create_accumulators agg_calls); cbn; [| intuition congruence ..].
      destruct (update_all a args); cbn; intuition congruence. }
    assert (Hold : forall ks, Forall2 (fun k g => g.1 = k /\ accumulate (group_of k (input ++ [t])) = Ok g.2)
                                (distinct_keys input) ks <-> ks = m).
    { intros ks. rewrite <- (Forall2_along _ eq _ _ _ ks Hm), <- list_eq_Forall2; [easy |].
      intros k g g' Hk' [<- Hg]. rewrite (accumulate_step _ _ _ _ Ha), Hg. cbn [result_bind].
      replace (keys_eq g.1 (key t)) with false; [destruct g, g'; cbn; intuition congruence |].
      symmetry. apply Bool.not_true_iff_false. intros Ek. apply Bool.not_true_iff_false in E. apply E.
      apply existsb_exists. exists g.1. split; [now apply list_elem_of_In | exact Ek]. }
    rewrite result_bind_ok, Forall2_app_inv_l. split.
    + intros (g & Hg & [= <-]). exists m, [g]. rewrite Hold. split; [easy |].
      split; [| easy]. constructor; [now apply Hnew | constructor].
    + intros (ks & gs & ->%Hold & (g & gs' & Hg & ->%Forall2_nil_inv_l & ->)%Forall2_cons_inv_l & ->).
      exists g. split; [now apply Hnew | reflexivity].
Qed.

Lemma try_map_exists {A B} (f : A -> Result B) (l : list A) :
  Forall (fun x => exists y, f x = Ok y) l -> exists ys, try_map f l = Ok ys.
Proof.
  induction 1 as [|x l [y Hy] _ [ys IH]]; [now exists [] |]. exists (y :: ys). cbn. now rewrite Hy, IH.
Qed.

(** The groups before the last tuple, from those after it. *)
Lemma holds_before input t args m' : try_map (simple_arg schema t) agg_calls = Ok args ->
  holds_groups (input ++ [t]) m' -> exists m, holds_groups input m.
Proof.
  intros Ha Hm'.
  destruct (try_map_exists (fun k => let? accs := accumulate (group_of k input) in Ok (k, accs)) (distinct_keys input))
    as [m Hm].
  - apply Forall_forall. intros k Hk.
    assert (Hk' : k ∈ distinct_keys (input ++ [t])).
    { rewrite distinct_snoc. unfold add_key. destruct (existsb _ _); [exact Hk | apply elem_of_app; now left]. }
    apply list_elem_of_lookup_1 in Hk' as [i Hi].
    destruct (Forall2_lookup_l _ _ _ _ _ Hm' Hi) as (g & _ & _ & Hg).
    rewrite (accumulate_step _ _ _ _ Ha) in Hg. apply result_bind_ok in Hg as (accs & -> & _). now exists (k, accs).
  - exists m. apply try_map_Forall2 in Hm. eapply Forall2_impl; [exact Hm |].
    intros k g H. apply result_bind_ok in H as (accs & Hacc & [= <-]). easy.
Qed.

Lemma hash_fold input m :
  Forall keyed input -> Forall (fun t => exists args, try_map (simple_arg schema t) agg_calls = Ok args) input ->
  try_fold (hash_step agg_calls groupby_exprs schema) input [] = Ok m <-> holds_groups input m.
Proof.
  revert m. induction input as [|t input IH] using rev_ind; intros m Hk Ha.
  - split; [intros [= <-]; constructor | intros H; now apply Forall2_nil_inv_l in H as ->].
  - apply Forall_app in Hk as [Hk Hkt], Ha as [Ha Hat]. apply Forall_cons in Hkt as [Hkt _], Hat as [[args Hat] _].
    specialize (fun m => IH m Hk Ha). rewrite try_fold_snoc, result_bind_ok. split.
    + intros (m0 & H0%IH & Hs). exact (proj1 (hash_step_holds input m0 m t args Hkt Hat H0) Hs).
    + intros Hm. destruct (holds_before input t args m Hat Hm) as [m0 H0]. exists m0.
      split; [now apply IH | exact (proj2 (hash_step_holds input m0 m t args Hkt Hat H0) Hm)].
Qed.

Lemma try_map_perm {A B} (f : A -> Result B) l l' ys : l ≡ₚ l' ->
  try_map f l = Ok ys -> exists ys', try_map f l' = Ok ys' /\ ys ≡ₚ ys'.
Proof.
  intros Hp. revert ys. induction Hp as [|x l l' _ IH|x y l|l l' l'' _ IH1 _ IH2]; intros ys H.
  - now exists ys.
  - cbn in H. apply result_bind_ok in H as (v & Hv & H). apply result_bind_ok in H as (vs & Hvs & [= <-]).
    destruct (IH vs Hvs) as (vs' & Hvs' & Hp). exists (v :: vs'). cbn. rewrite Hv, Hvs'. split; [easy | now constructor].
  - cbn in H |- *. apply result_bind_ok in H as (v & Hv & H). apply result_bind_ok in H as (vs & Hvs & [= <-]).
    apply result_bind_ok in Hvs as (w & Hw & Hvs). apply result_bind_ok in Hvs as (ws & Hws & [= <-]).
    exists (w :: v :: ws). rewrite Hv, Hw, Hws. split; [easy | constructor].
  - destruct (IH1 ys H) as (ys1 & H1 & P1). destruct (IH2 ys1 H1) as (ys2 & H2 & P2). exists ys2.
    split; [exact H2 | now transitivity ys1].
Qed.

(** The reference in terms of the accumulators of the groups. *)
Lemma grouped_rows_ok input rows :
  grouped_rows input = Ok rows <-> exists m, holds_groups input m /\ try_map group_row m = Ok rows.
Proof.
  unfold grouped_rows, holds_groups.
  assert (Hrow : forall k, (let? rows := simple_agg agg_calls schema (group_of k input) in
      match rows with [r] => Ok (mk_tuple None (values r ++ k)) | _ => Panic end)
    = let? accs := accumulate (group_of k input) in group_row (k, accs)).
  { intros k. unfold simple_agg, accumulate, group_row. cbn [fst snd].
    destruct (create_accumulators agg_calls) as [accs| |]; cbn; [| easy ..].
    destruct (try_fold _ _ accs) as [accs'| |]; cbn; [| easy ..]. now destruct (try_map evaluate accs'). }
  revert rows. induction (distinct_keys input) as [|k keys IH]; intros rows; cbn [try_map].
  - split; [intros [= <-]; now exists [] | intros (m & Hm & H)]. apply Forall2_nil_inv_l in Hm as ->. exact H.
  - rewrite Hrow. split.
    + intros (r & Hr & H)%result_bind_ok. apply result_bind_ok in Hr as (accs & Hacc & Hr).
      apply result_bind_ok in H as (rs & Hrs & [= <-]). apply IH in Hrs as (m & Hm & Hrs).
      exists ((k, accs) :: m). split; [now constructor |]. cbn [try_map]. now rewrite Hr, Hrs.
    + intros (m & Hm & H). apply Forall2_cons_inv_l in Hm as ([k' accs] & m' & [Hk Hacc] & Hm & ->).
      cbn in Hk, Hacc, H. subst k'. rewrite Hacc. cbn [result_bind].
      apply result_bind_ok in H as (r & -> & H). apply result_bind_ok in H as (rs & Hrs & [= <-]). cbn [result_bind].
      now rewrite (proj2 (IH rs)) by eauto.
Qed.

Variable drain : groups -> groups.
Hypothesis Hdrain : forall m, drain m ≡ₚ m.

(** C4. Hash aggregation is simple aggregation of every group: on tuples whose
    keys and arguments evaluate it succeeds exactly when simple aggregation of
    the tuples of every distinct key does, and its rows are then those rows with
    their key appended, one for every distinct key, in some order. *)
Theorem hash_agg_groups input :
  Forall keyed input -> Forall (fun t => exists args, try_map (simple_arg schema t) agg_calls = Ok args) input ->
  (forall rows, grouped_rows input = Ok rows ->
     exists out, hash_agg agg_calls groupby_exprs schema drain input = Ok out /\ out ≡ₚ rows)
  /\ (forall out, hash_agg agg_calls groupby_exprs schema drain input = Ok out ->
     exists rows, grouped_rows input = Ok rows /\ out ≡ₚ rows).
Proof.
  intros Hk Ha. split.
  - intros rows (m & Hm & Hr)%grouped_rows_ok. destruct (try_map_perm group_row m (drain m) rows) as (out & Ho & Hp);
      [now rewrite Hdrain | exact Hr |].
    exists out. unfold hash_agg. now rewrite (proj2 (hash_fold input m Hk Ha) Hm).
  - intros out (m & Hm & Hr)%result_bind_ok. apply (hash_fold input m Hk Ha) in Hm.
    destruct (try_map_perm group_row (drain m) m out (Hdrain m) Hr) as (rows & Ho & Hp).
    exists rows. rewrite grouped_rows_ok. split; [now exists m | exact Hp].
Qed.
End Grouping.

(** ** The functions *)

Section Functions.
Context {F : Foreign} {L : ForeignLaws F} {C : CastForeign}.

(** An aggregate call on the values of its argument. *)
Definition aggregate (call : SE.ScalarExpression F) (vs : list DataValue) : Result DataValue :=
  let? acc := create_accumulator call in
  let? acc := try_fold update_value vs acc in
  evaluate acc.

Definition not_null (vs : list DataValue) : list DataValue := filter (fun v => is_null v = false) vs.

Lemma not_null_cons v vs : not_null (v :: vs) = if is_null v then not_null vs else v :: not_null vs.
Proof. unfold not_null. rewrite filter_cons. now destruct (is_null v); case_decide. Qed.

(** *** COUNT *)

Lemma count_fold vs n : 0 <= n < 2 ^ 31 ->
  try_fold update_value vs (CountAccumulator n)
  = if n + Z.of_nat (length (not_null vs)) <? 2 ^ 31
    then Ok (CountAccumulator (n + Z.of_nat (length (not_null vs)))) else Panic.
Proof.
  revert n. induction vs as [|v vs IH]; intros n Hn.
  - cbn [not_null filter length]. change (not_null []) with (@nil DataValue). cbn [length]. rewrite Z.add_0_r.
    now replace (n <? 2 ^ 31) with true by lia.
  - rewrite not_null_cons. cbn [try_fold update_value]. destruct (is_null v); [apply IH, Hn |]. cbn [length].
    unfold in_i. destruct (_ && _) eqn:E; cbn [result_bind].
    + rewrite IH by lia. replace (n + 1 + Z.of_nat (length (not_null vs)))
        with (n + Z.of_nat (S (length (not_null vs)))) by lia. reflexivity.
    + destruct (Z.ltb_spec (n + Z.of_nat (S (length (not_null vs)))) (2 ^ 31)); [lia | reflexivity].
Qed.

(** The values of a [HashSet] are pairwise different. *)
Lemma distinct_fold vs s : StronglySorted (fun a b => dv_eq a b = false) s ->
  exists s', try_fold update_value vs (DistinctCountAccumulator s) = Ok (DistinctCountAccumulator s')
    /\ StronglySorted (fun a b => dv_eq a b = false) s'
    /\ (forall v, v ∈ s' -> v ∈ s \/ v ∈ not_null vs)
    /\ (forall v, v ∈ s \/ v ∈ not_null vs -> set_contains v s' = true).
Proof.
  revert s. induction vs as [|v vs IH]; intros s Hs.
  - exists s. cbn. split; [reflexivity |]. split; [exact Hs |]. split; [tauto |].
    intros v [Hv | Hv%elem_of_nil]; [| easy]. apply existsb_exists. exists v.
    split; [now apply list_elem_of_In | apply dv_eq_refl].
  - rewrite not_null_cons. cbn [try_fold update_value result_bind]. destruct (is_null v); [now apply IH |].
    assert (Hs' : StronglySorted (fun a b => dv_eq a b = false) (set_insert v s)).
    { unfold set_insert, set_contains. destruct (existsb _ s) eqn:E; [exact Hs |]. clear IH.
      induction Hs as [|w s _ IHs Hw]; cbn in *; [repeat constructor |].
      apply orb_false_iff in E as [E1 E2]. constructor; [auto | now apply Forall_app; auto]. }
    destruct (IH (set_insert v s) Hs') as (s' & H1 & H2 & H3 & H4). exists s'.
    split; [exact H1 |]. split; [exact H2 |].
    assert (Hin : forall w, w ∈ set_insert v s -> w ∈ s \/ w = v).
    { intros w. unfold set_insert. destruct (set_contains v s); [tauto |].
      now rewrite elem_of_app, list_elem_of_singleton. }
    split.
    + intros w [[Hw | ->]%Hin | Hw]%H3; rewrite ?elem_of_cons; tauto.
    + intros w [Hw | [-> | Hw]%elem_of_cons]; [| | apply H4; now right].
      * apply H4. left. unfold set_insert. destruct (set_contains v s); [exact Hw | apply elem_of_app; now left].
      * unfold set_insert in H4. destruct (set_contains v s) eqn:E.
        -- unfold set_contains in E. apply existsb_exists in E as (u & Hu & Eu).
           assert (H : set_contains u s' = true) by (apply H4; left; now apply list_elem_of_In).
           apply existsb_exists in H as (x & Hx & Ex). apply existsb_exists. exists x. split; [exact Hx |].
           rewrite (dv_eq_congr x u v Ex). exact Eu.
        -- apply H4. left. apply elem_of_app. right. now apply list_elem_of_singleton.
Qed.

(** *** SUM and AVG of integers *)

Definition int_column (ty : LogicalType) : option ValueType :=
  match ty with
  | LT.Tinyint => Some VT.Int8 | LT.Smallint => Some VT.Int16 | LT.Integer => Some VT.Int32
  | LT.Bigint => Some VT.Int64 | LT.UTinyint => Some VT.UInt8 | LT.USmallint => Some VT.UInt16
  | LT.UInteger => Some VT.UInt32 | LT.UBigint => Some VT.UInt64
  | _ => None
  end.

(** A column of integers and nulls, and its integers. *)
Definition int_cells (vt : ValueType) (cells : list (option Z)) : list DataValue :=
  map (fun c => match c with Some z => int_value vt z | None => DV.Null end) cells.
Definition ints (cells : list (option Z)) : list Z := omap id cells.
Definition total (zs : list Z) : Z := fold_right Z.add 0 zs.

(** Every partial sum from [acc] on is in range. *)
Fixpoint sums_in (vt : ValueType) (acc : Z) (zs : list Z) : bool :=
  match zs with
  | [] => true
  | z :: zs => in_int vt (acc + z) && sums_in vt (acc + z) zs
  end.

Definition sum_of (vt : ValueType) (zs : list Z) : DataValue :=
  match zs with [] => DV.Null | _ => int_value vt (total zs) end.

Section Ints.
Variables (ty : LogicalType) (vt : ValueType).
Hypothesis Hty : int_column ty = Some vt.

Lemma ints_length cells : (length (ints cells) <= length cells)%nat.
Proof. unfold ints. induction cells as [|[z|] cells IH]; cbn in *; lia. Qed.

Lemma int_plus : binary_create ty BinaryOp.Plus = Ok (NumericBinary vt BinaryOp.Plus).
Proof. destruct ty; try discriminate; injection Hty as <-; reflexivity. Qed.
Lemma int_add a b : binary_eval (NumericBinary vt BinaryOp.Plus) (int_value vt a) (int_value vt b) = checked vt (a + b).
Proof. destruct ty; try discriminate; injection Hty as <-; reflexivity. Qed.
Lemma int_not_null z : is_null (int_value vt z) = false.
Proof. destruct vt; reflexivity. Qed.
Lemma int_type z : logical_type (int_value vt z) = ty.
Proof. destruct ty; try discriminate; injection Hty as <-; reflexivity. Qed.
Lemma int_sum_new : sum_new ty = Ok (mk_sum DV.Null (NumericBinary vt BinaryOp.Plus)).
Proof. destruct ty; try discriminate; injection Hty as <-; reflexivity. Qed.

(** Feeding integers to a sum that has seen some. *)
Lemma sum_fold cells a :
  try_fold sum_update (int_cells vt cells) (mk_sum (int_value vt a) (NumericBinary vt BinaryOp.Plus))
  = if sums_in vt a (ints cells)
    then Ok (mk_sum (int_value vt (a + total (ints cells))) (NumericBinary vt BinaryOp.Plus)) else Err OverFlow.
Proof.
  revert a. induction cells as [|[z|] cells IH]; intros a.
  - cbn. now rewrite Z.add_0_r.
  - cbn [int_cells map try_fold]. unfold sum_update at 1. cbn [sum_result sum_evaluator].
    rewrite !int_not_null, int_add. unfold checked. change (ints (Some z :: cells)) with (z :: ints cells).
    cbn [sums_in total fold_right]. destruct (in_int vt (a + z)); [| reflexivity]. cbn [result_bind andb].
    fold (int_cells vt cells). rewrite IH. fold (total (ints cells)). now rewrite Z.add_assoc.
  - exact (IH a).
Qed.

Lemma sum_first cells : Forall (fun z => in_int vt z = true) (ints cells) ->
  try_fold sum_update (int_cells vt cells) (mk_sum DV.Null (NumericBinary vt BinaryOp.Plus))
  = if sums_in vt 0 (ints cells) then Ok (mk_sum (sum_of vt (ints cells)) (NumericBinary vt BinaryOp.Plus))
    else Err OverFlow.
Proof.
  induction cells as [|[z|] cells IH]; intros Hin; [reflexivity | | exact (IH Hin)].
  change (ints (Some z :: cells)) with (z :: ints cells) in *. apply Forall_cons in Hin as [Hz _].
  cbn [int_cells map try_fold]. unfold sum_update at 1. cbn [sum_result]. rewrite int_not_null. cbn [is_null result_bind].
  fold (int_cells vt cells). cbn [sum_evaluator sums_in]. rewrite Z.add_0_l, Hz. cbn [andb]. apply sum_fold.
Qed.

Lemma sum_acc_fold vs inner :
  try_fold update_value vs (SumAcc inner) = let? inner := try_fold sum_update vs inner in Ok (SumAcc (F := F) inner).
Proof.
  revert inner. induction vs as [|v vs IH]; intros inner; cbn [try_fold update_value]; [reflexivity |].
  destruct (sum_update inner v); cbn; auto.
Qed.

(** The sum inside an average, which counts what it adds. *)
Lemma avg_fold cells inner n : 0 <= n -> n + Z.of_nat (length cells) < 2 ^ 63 ->
  try_fold update_value (int_cells vt cells) (AvgAccumulator (Some inner) n)
  = let? inner := try_fold sum_update (int_cells vt cells) inner in
    Ok (AvgAccumulator (Some inner) (n + Z.of_nat (length (ints cells)))).
Proof.
  revert inner n. induction cells as [|[z|] cells IH]; intros inner n Hn Hlen.
  - cbn. now rewrite Z.add_0_r.
  - cbn [int_cells map try_fold update_value]. rewrite int_not_null. fold (int_cells vt cells). cbn [result_bind].
    destruct (sum_update inner (int_value vt z)) as [inner'| |]; cbn [result_bind]; [| easy ..].
    cbn [length] in Hlen. unfold in_u, usize_bits. replace (_ && _) with true by lia. cbn [result_bind].
    rewrite IH by lia. change (ints (Some z :: cells)) with (z :: ints cells). cbn [length].
    now replace (n + 1 + Z.of_nat (length (ints cells))) with (n + Z.of_nat (S (length (ints cells)))) by lia.
  - cbn [length] in Hlen. exact (IH inner n Hn ltac:(lia)).
Qed.
End Ints.

(** COUNT is the number of values that are not null, as a 32-bit integer; it
    panics when there are more. COUNT(DISTINCT) is the size of a set of pairwise
    different values of the column that has every one of them. *)
Theorem count_spec args ty vs :
  aggregate (SE.AggCall false Count args ty) vs
  = (if Z.of_nat (length (not_null vs)) <? 2 ^ 31
     then Ok (DV.Int32 (Z.of_nat (length (not_null vs)))) else Panic)
  /\ exists s, aggregate (SE.AggCall true Count args ty) vs = Ok (DV.Int32 (as_i 32 (Z.of_nat (length s))))
     /\ StronglySorted (fun a b => dv_eq a b = false) s
     /\ (forall v, v ∈ s -> v ∈ not_null vs) /\ (forall v, v ∈ not_null vs -> set_contains v s = true).
Proof.
  unfold aggregate. cbn [create_accumulator result_bind]. rewrite count_fold by lia. rewrite Z.add_0_l. split.
  - now destruct (_ <? _).
  - destruct (distinct_fold vs []) as (s & -> & Hs & H1 & H2); [constructor |]. exists s. split; [reflexivity |].
    split; [exact Hs |]. split; [intros v [Hv%elem_of_nil | Hv]%H1; easy | auto].
Qed.

Lemma sums_in_total vt zs acc : in_int vt acc = true -> sums_in vt acc zs = true -> in_int vt (acc + total zs) = true.
Proof.
  revert acc. induction zs as [|z zs IH]; intros acc Hacc; cbn [sums_in total fold_right]; [now rewrite Z.add_0_r |].
  intros [H1 H2]%andb_prop. fold (total zs). rewrite Z.add_assoc. auto.
Qed.

Lemma cast_to_bigint ty vt z : int_column ty = Some vt -> is_signed_numeric ty = true -> in_int vt z = true ->
  check_cast (int_value vt z) LT.Bigint = Ok (DV.Int64 z).
Proof.
  intros Hty Hs Hz. assert (H64 : in_i 64 z = true).
  { destruct ty; try discriminate; injection Hty as <-; unfold in_int, in_i in *; cbn in *; lia. }
  destruct ty; try discriminate; injection Hty as <-; unfold check_cast; cbn; try reflexivity;
    rewrite decide_False by discriminate; unfold cast_int, int_target; now rewrite H64.
Qed.

(** C12. SUM of an integer column is the sum of its integers when every partial
    sum is in the range of the column's type, null when there are none, and
    [OverFlow] otherwise; AVG of a signed column is the double quotient of the
    same sum and the number of integers. *)
Theorem sum_avg_exact ty vt distinct args avg_ty cells :
  int_column ty = Some vt -> Forall (fun z => in_int vt z = true) (ints cells) ->
  aggregate (SE.AggCall false Sum args ty) (int_cells vt cells)
  = (if sums_in vt 0 (ints cells) then Ok (sum_of vt (ints cells)) else Err OverFlow)
  /\ (is_signed_numeric ty = true -> Z.of_nat (length cells) < 2 ^ 63 ->
      aggregate (SE.AggCall distinct Avg args avg_ty) (int_cells vt cells)
      = if sums_in vt 0 (ints cells)
        then Ok (match ints cells with
                 | [] => DV.Null
                 | zs => DV.Float64 (f_div 64 (f64_of_int (total zs)) (f64_of_int (Z.of_nat (length zs))))
                 end)
        else Err OverFlow).
Proof.
  intros Hty Hin. split.
  - unfold aggregate. cbn [create_accumulator]. rewrite (int_sum_new ty vt Hty). cbn [result_bind].
    rewrite sum_acc_fold, (sum_first ty vt Hty cells Hin). now destruct (sums_in vt 0 (ints cells)).
  - intros Hs. unfold aggregate. cbn [create_accumulator result_bind].
    induction cells as [|[z|] cells IH]; intros Hlen; [reflexivity | | exact (IH Hin ltac:(cbn [length] in Hlen; lia))].
    clear IH. change (ints (Some z :: cells)) with (z :: ints cells) in *. apply Forall_cons in Hin as [Hz Hin].
    cbn [length] in Hlen. cbn [int_cells map try_fold update_value]. rewrite (int_not_null ty vt Hty), (int_type ty vt Hty), (int_sum_new ty vt Hty).
    cbn [result_bind]. unfold sum_update at 1. rewrite (int_not_null ty vt Hty). cbn [is_null sum_result sum_evaluator result_bind].
    fold (int_cells vt cells). change (in_u usize_bits (0 + 1)) with true. cbn [result_bind]. rewrite (avg_fold ty vt Hty) by lia. rewrite (sum_fold ty vt Hty).
    change (sums_in vt 0 (z :: ints cells)) with (in_int vt z && sums_in vt z (ints cells)). rewrite Hz. cbn [andb].
    destruct (sums_in vt z (ints cells)) eqn:Esum; [| reflexivity]. cbn [result_bind evaluate].
    unfold avg_evaluate. cbn [sum_result]. rewrite (int_type ty vt Hty), Hs.
    destruct (Z.eqb_spec (0 + 1 + Z.of_nat (length (ints cells))) 0) as [E|_]; [exfalso; lia |].
    rewrite as_i_small by (pose proof (ints_length cells); lia).
    cbn [logical_type]. rewrite (cast_to_bigint ty vt) by auto using sums_in_total. cbn [result_bind].
    change (total (z :: ints cells)) with (z + total (ints cells)). cbn [length].
    replace (Z.of_nat (S (length (ints cells)))) with (0 + 1 + Z.of_nat (length (ints cells))) by lia. reflexivity.
Qed.

(** *** MIN and MAX *)

Section MinMax.
Variables (ty : LogicalType) (is_max : bool).
Hypothesis Hdir : directly_ordered ty = true.
Hypothesis Hbool : ty <> LT.Boolean.
Abbreviation op := (if is_max then BinaryOp.Lt else BinaryOp.Gt).

Definition at_most (a b : DataValue) : Prop := partial_cmp a b = Some Lt \/ partial_cmp a b = Some Eq.
(** The bound an aggregate is for a value. *)
Definition bounded (m v : DataValue) : Prop := if is_max then at_most v m else at_most m v.

Lemma value_evaluator v : has_type ty v = true -> is_null v = false ->
  exists ev, binary_create (logical_type v) op = Ok ev
    /\ directly_ordered (logical_type v) = true
    /\ forall w, has_type ty w = true -> has_type (logical_type v) w = true.
Proof.
  destruct ty; try discriminate Hdir; try congruence; destruct v; try discriminate; intros _ _;
    repeat match goal with ty : Utf8Type |- _ => destruct ty end;
    destruct is_max; eexists; (split; [reflexivity |]); (split; [reflexivity | intros w Hw; destruct w; exact Hw]).
Qed.

(** Whether a value replaces the one kept. *)
Lemma replaces_spec m v :
  has_type ty m = true -> is_null m = false -> has_type ty v = true -> is_null v = false ->
  exists c, partial_cmp m v = Some c
    /\ min_max_replaces (Some m) op v = Ok (match c with Lt => is_max | Gt => negb is_max | Eq => false end).
Proof.
  intros Hm Nm Hv Nv. destruct (value_evaluator v Hv Nv) as (ev & Hev & Hd & Hsub).
  assert (Hc : partial_cmp m v <> None).
  { clear Hev Hsub. destruct ty; try discriminate Hdir; destruct m; try discriminate; destruct v; discriminate. }
  destruct (partial_cmp m v) as [c|] eqn:E; [| congruence]. exists c. split; [reflexivity |].
  unfold min_max_replaces. rewrite Hev. cbn [result_bind].
  rewrite (comparison_is_order (logical_type v) op ev m v) by (destruct is_max; auto).
  unfold sql_cmp. rewrite Nm, Nv, E. cbn [orb]. now destruct is_max, c.
Qed.


Lemma at_most_trans a b c : at_most a b -> at_most b c -> at_most a c.
Proof.
  unfold at_most. intros [E1 | E1] [E2 | E2].
  - left. eapply partial_cmp_trans; eassumption.
  - left. now rewrite (partial_cmp_flip c a), <- (partial_cmp_eq_l b c a E2), <- (partial_cmp_flip b a).
  - left. now rewrite (partial_cmp_eq_l a b c E1).
  - right. now rewrite (partial_cmp_eq_l a b c E1).
Qed.

Lemma bounded_refl m : has_type ty m = true -> is_null m = false -> bounded m m.
Proof.
  intros Hm Nm. assert (E : partial_cmp m m = Some Eq).
  { apply partial_cmp_eqb; [| apply dv_eq_refl]. intros us up ->. destruct ty; discriminate. }
  unfold bounded, at_most. destruct is_max; tauto.
Qed.

Lemma chosen_bounds m v c : partial_cmp m v = Some c -> bounded m m -> bounded v v ->
  let r := match c with Lt => is_max | Gt => negb is_max | Eq => false end in
  bounded (if r then v else m) m /\ bounded (if r then v else m) v.
Proof.
  intros E Hm Hv. pose proof (partial_cmp_flip m v) as E'. rewrite E in E'. cbn in E'.
  unfold bounded, at_most in *. destruct is_max, c; cbn in *; tauto.
Qed.

(** Feeding values to an accumulator that keeps one. *)
Lemma min_max_fold vs m : Forall (fun v => has_type ty v = true) vs -> has_type ty m = true -> is_null m = false ->
  exists m', try_fold update_value vs (MinMaxAccumulator (Some m) op) = Ok (MinMaxAccumulator (Some m') op)
    /\ m' ∈ m :: not_null vs /\ Forall (bounded m') (m :: not_null vs).
Proof.
  revert m. induction vs as [|v vs IH]; intros m Hvs Hm Nm.
  - exists m. split; [reflexivity |]. split; [apply list_elem_of_here |].
    constructor; [now apply bounded_refl | constructor].
  - apply Forall_cons in Hvs as [Hv Hvs]. rewrite not_null_cons. cbn [try_fold update_value].
    destruct (is_null v) eqn:Nv; [now apply IH |].
    destruct (replaces_spec m v Hm Nm Hv Nv) as (c & Ec & ->). cbn [result_bind].
    set (r := match c with Lt => is_max | Gt => negb is_max | Eq => false end).
    assert (Hmv : bounded (if r then v else m) m /\ bounded (if r then v else m) v).
    { apply chosen_bounds; auto using bounded_refl. }
    destruct (IH (if r then v else m)) as (m' & H1 & H2 & H3); [assumption | now destruct r ..|].
    exists m'. split; [now destruct r |]. split.
    + destruct r; rewrite !elem_of_cons in *; tauto.
    + apply Forall_cons in H3 as [H3 H4]. 
      assert (Ht : forall x, bounded (if r then v else m) x -> bounded m' x).
      { intros x Hx. unfold bounded in *. destruct is_max; eapply at_most_trans; eassumption. }
      constructor; [now apply Ht | constructor; [now apply Ht | exact H4]].
Qed.

End MinMax.
End Functions.

(** ** AVG of columns that are not signed integers *)

Section Counterexamples.
Context {F : Foreign} {C : CastForeign}.
Abbreviation avg := (aggregate (F := F) (SE.AggCall false Avg [] LT.Double)).

(** AVG rounds every other type through 32-bit unsigned integers: the average
    of the doubles 0.5 and 0.5 is 0.5 but that of 0.5 alone is 0, that of -1.5
    is an error, and so is that of an unsigned column whose sum exceeds 2^32. *)
Theorem avg_through_u32 :
  avg [DV.Float64 0x3FE0000000000000; DV.Float64 0x3FE0000000000000] = Ok (DV.Float64 0x3FE0000000000000)
  /\ avg [DV.Float64 0x3FE0000000000000] = Ok (DV.Float64 0)
  /\ (exists e, avg [DV.Float64 0xBFF8000000000000] = Err e)
  /\ (exists e, avg [DV.UInt64 (2 ^ 33)] = Err e).
Proof. split; [reflexivity |]. split; [reflexivity |]. split; eexists; reflexivity. Qed.
End Counterexamples.

Section Witnesses.
#[local] Existing Instance RefForeign.ref_foreign.
#[local] Existing Instance RefForeign.ref_laws.
#[local] Existing Instance RefCast.ref_cast.

Lemma sum_avg_exact_witness :
  aggregate (SE.AggCall false Sum [] LT.Integer) [DV.Int32 3; DV.Null; DV.Int32 (-5)] = Ok (DV.Int32 (-2)).
Proof.
  refine (proj1 (sum_avg_exact LT.Integer VT.Int32 false [] LT.Double [Some 3; None; Some (-5)] eq_refl _)).
  repeat constructor.
Defined.


Import RefExpr.
(** [SELECT sum(b), a FROM t GROUP BY a] on three rows. *)
Lemma hash_agg_groups_witness :
  let schema := [column 97 LT.Integer; column 98 LT.Integer] in
  let calls := [SE.AggCall false Sum [SE.ColumnRef (column 98 LT.Integer)] LT.Integer] in
  let row a b := mk_tuple None [DV.Int32 a; DV.Int32 b] in
  exists out, hash_agg calls [SE.ColumnRef (column 97 LT.Integer)] schema (fun m => m)
      [row 1 10; row 2 20; row 1 5] = Ok out /\ out ≡ₚ [row 15 1; row 20 2].
Proof.
  intros schema calls row.
  refine (proj1 (hash_agg_groups calls [SE.ColumnRef (column 97 LT.Integer)] schema
    (fun t => take 1 (values t)) _ (fun m => m) (fun m => Permutation_refl m) [row 1 10; row 2 20; row 1 5] _ _)
    [row 15 1; row 20 2] eq_refl).
  - repeat constructor.
  - repeat constructor.
  - repeat constructor; eexists; reflexivity.
Defined.
End Witnesses.
