(* ===== verification/Executors.v ===== *)
(** * Streaming executors

    The executors of src/src/execution/dql/ that pass tuples on: filter,
    projection, limit, union, values, dummy and function scan.  An executor is
    the stream of results its coroutine yields before it returns; [throw!] yields
    an error and returns.  A panic ends the stream. *)

From S2P Require Import Prelude Bytes Types LogicalTypes Values Floats Evaluators Cast.
From S2P Require Import Text TupleCodec TableCodec Catalog Expression ExprTyping Simplify RangeDetacher Detach.

Section Executors.
Context {F : Foreign} {C : CastForeign} {TF : TextForeign} {EF : ExprForeign}.
Abbreviation Tuple := (TupleCodec.Tuple F).
Abbreviation Schema := (list (ColumnCatalog (SE.ScalarExpression F))).
Abbreviation Stream := (list (Result Tuple)).

Definition throw {A} (m : Result A) (k : A -> Stream) : Stream :=
  match m with
  | Ok a => k a
  | Err e => [Err e]
  | Panic => [Panic]
  end.

(** [Projection::projection]. *)
Definition projection (tuple : Tuple) (exprs : list ScalarExpression) (schema : Schema)
  : Result (list DataValue) :=
  try_map (fun expr => eval expr (Some (tuple, schema))) exprs.

Definition dummy : Stream := [Ok (mk_tuple None [])].

Fixpoint filter_exec (predicate : ScalarExpression) (schema : Schema) (input : Stream) : Stream :=
  match input with
  | [] => []
  | tuple :: input =>
      throw tuple (fun tuple =>
      throw (let? v := eval predicate (Some (tuple, schema)) in is_true v) (fun passes =>
      if (passes : bool) then Ok tuple :: filter_exec predicate schema input
      else filter_exec predicate schema input))
  end.

Fixpoint projection_exec (exprs : list ScalarExpression) (schema : Schema) (input : Stream) : Stream :=
  match input with
  | [] => []
  | tuple :: input =>
      throw tuple (fun tuple =>
      throw (projection tuple exprs schema) (fun values =>
      Ok (mk_tuple (pk tuple) values) :: projection_exec exprs schema input))
  end.

(** The loop of [Limit], [i] tuples having been read. *)
Fixpoint limit_loop (i offset_val offset_limit : Z) (input : Stream) : Stream :=
  match input with
  | [] => []
  | Panic :: _ => [Panic]
  | tuple :: input =>
      if usize_max <=? i then [Panic]
      else if i <? offset_val then limit_loop (i + 1) offset_val offset_limit input
      else if offset_limit <? i then []
      else tuple :: limit_loop (i + 1) offset_val offset_limit input
  end.
Definition limit_exec (offset limit : option Z) (input : Stream) : Stream :=
  match limit with
  | Some 0 => []
  | _ =>
      let offset_val := default 0 offset in
      limit_loop 0 offset_val (saturating_add_usize offset_val (default usize_max limit) - 1) input
  end.

Fixpoint union_exec (left_input right_input : Stream) : Stream :=
  match left_input with
  | [] => right_input
  | Panic :: _ => [Panic]
  | tuple :: left_input => tuple :: union_exec left_input right_input
  end.

(** [Values]: a row is cast to the schema, an index past it panics. *)
Fixpoint cast_row (values : list DataValue) (schema : Schema) : Result (list DataValue) :=
  match values, schema with
  | [], _ => Ok []
  | _, [] => Panic
  | value :: values, column :: schema =>
      let? value := check_cast value (datatype column) in
      let? values := cast_row values schema in
      Ok (value :: values)
  end.
Fixpoint values_exec (rows : list (list DataValue)) (schema : Schema) : Stream :=
  match rows with
  | [] => []
  | values :: rows => throw (cast_row values schema) (fun values => Ok (mk_tuple None values) :: values_exec rows schema)
  end.

(** [FunctionScan], on what the function returns. *)
Definition function_scan (result : Result Stream) : Stream := throw result (fun tuples => tuples).

(** ** Limit *)

(** The window of an offset and a limit. *)
Definition stream_window (offset limit : option Z) (input : Stream) : Stream :=
  let rest := drop (Z.to_nat (default 0 offset)) input in
  match limit with Some n => take (Z.to_nat n) rest | None => rest end.

Lemma limit_loop_spec input i lo hi : 0 <= i -> i + Z.of_nat (length input) <= usize_max ->
  Forall (fun r => r <> Panic) input ->
  limit_loop i lo hi input = take (Z.to_nat (hi + 1 - Z.max lo i)) (drop (Z.to_nat (lo - i)) input).
Proof.
  revert i. induction input as [|r input IH]; intros i Hi Hlen Hp; [now rewrite drop_nil, take_nil |].
  apply Forall_cons in Hp as [Hr Hp]. cbn [length] in Hlen.
  assert (Hl : limit_loop i lo hi (r :: input)
    = if i <? lo then limit_loop (i + 1) lo hi input
      else if hi <? i then [] else r :: limit_loop (i + 1) lo hi input).
  { cbn [limit_loop]. destruct (Z.leb_spec usize_max i); [lia |]. now destruct r. }
  rewrite Hl. specialize (IH (i + 1) ltac:(lia) ltac:(lia) Hp). rewrite IH.
  destruct (Z.ltb_spec i lo).
  - replace (Z.to_nat (lo - i)) with (S (Z.to_nat (lo - (i + 1)))) by lia. cbn [drop].
    now replace (Z.max lo (i + 1)) with (Z.max lo i) by lia.
  - replace (Z.to_nat (lo - i)) with 0%nat by lia. replace (Z.to_nat (lo - (i + 1))) with 0%nat by lia.
    rewrite !drop_0. destruct (Z.ltb_spec hi i).
    + now replace (Z.to_nat (hi + 1 - Z.max lo i)) with 0%nat by lia.
    + replace (Z.to_nat (hi + 1 - Z.max lo i)) with (S (Z.to_nat (hi + 1 - Z.max lo (i + 1)))) by lia. reflexivity.
Qed.

(** C17. LIMIT and OFFSET yield the window of the input: the results after the
    offset, at most as many as the limit, also when the sum of the two saturates
    or the limit is zero. *)
Theorem limit_exec_window offset limit input :
  Z.of_nat (length input) <= usize_max -> Forall (fun r => r <> Panic) input ->
  (forall n, offset = Some n -> 0 <= n <= usize_max) -> (forall n, limit = Some n -> 0 <= n <= usize_max) ->
  limit_exec offset limit input = stream_window offset limit input.
Proof.
  intros Hlen Hp Hoff Hlim. unfold stream_window.
  assert (Ho : 0 <= default 0 offset <= usize_max) by (destruct offset; cbn; [auto | unfold usize_max; lia]).
  set (rest := drop (Z.to_nat (default 0 offset)) input).
  assert (Hrest : length rest = (length input - Z.to_nat (default 0%Z offset))%nat) by apply length_drop.
  assert (Hloop : forall n, limit_loop 0 (default 0 offset) (saturating_add_usize (default 0 offset) n - 1) input
    = take (Z.to_nat (saturating_add_usize (default 0 offset) n - default 0 offset)) rest).
  { intros n. rewrite limit_loop_spec by (assumption || lia).
    replace (Z.max (default 0 offset) 0) with (default 0 offset) by lia. rewrite Z.sub_0_r.
    f_equal. lia. }
  unfold limit_exec. destruct limit as [n|].
  - specialize (Hlim n eq_refl). destruct n as [|n|n]; [reflexivity | | lia].
    change (default usize_max (Some (Z.pos n))) with (Z.pos n). rewrite Hloop.
    unfold saturating_add_usize. destruct (Z.le_gt_cases (default 0 offset + Z.pos n) usize_max).
    + do 2 f_equal. lia.
    + rewrite !take_ge by lia. reflexivity.
  - change (default usize_max None) with usize_max. rewrite Hloop. unfold saturating_add_usize. rewrite take_ge by lia. reflexivity.
Qed.

(** ** Filter *)

(** Whether a tuple passes a predicate that evaluates. *)
Definition passes (predicate : ScalarExpression) (schema : Schema) (tuple : Tuple) : Result bool :=
  let? v := eval predicate (Some (tuple, schema)) in is_true v.

Lemma filter_exec_spec predicate schema (pass : Tuple -> bool) tuples :
  Forall (fun t => passes predicate schema t = Ok (pass t)) tuples ->
  filter_exec predicate schema (map Ok tuples) = map Ok (filter (fun t => pass t = true) tuples).
Proof.
  induction 1 as [|t tuples Ht _ IH]; [reflexivity |]. cbn [map filter_exec throw]. unfold passes in Ht.
  rewrite Ht, IH, filter_cons. cbn [throw]. now destruct (pass t).
Qed.

End Executors.

Section Witnesses.
#[local] Existing Instance RefForeign.ref_foreign.
#[local] Existing Instance RefForeign.ref_laws.
#[local] Existing Instance RefCast.ref_cast.
Import RefExpr.

Lemma limit_exec_window_witness :
  limit_exec (Some 1) (Some 2) (map Ok [mk_tuple None [DV.Int32 1]; mk_tuple None [DV.Int32 2];
      mk_tuple None [DV.Int32 3]; mk_tuple None [DV.Int32 4]])
  = map Ok [mk_tuple None [DV.Int32 2]; mk_tuple None [DV.Int32 3]].
Proof.
  rewrite (limit_exec_window (Some 1) (Some 2)); [reflexivity | unfold usize_max; cbn; lia | | |].
  - repeat constructor; discriminate.
  - intros n [= <-]. unfold usize_max. lia.
  - intros n [= <-]. unfold usize_max. lia.
Defined.
End Witnesses.
