(* ===== verification/Dml.v ===== *)
(** * INSERT, UPDATE and DELETE

    The executors of src/src/execution/dml/ that change rows.  They run in the
    state monad of Storage.v and yield one result; the input is the stream of
    results its executor yields. *)

From stdpp Require Import gmap.
From S2P Require Import Prelude Bytes Types LogicalTypes Values Floats Evaluators Cast Memcomparable.
From S2P Require Import TupleCodec TableCodec KvStore Lru Cache Catalog Storage Readers TableStore.
From S2P Require Import Text Expression ExprTyping Executors.

(** Defaults of columns are expressions. *)
#[global] Instance expr_ops {F : Foreign} {C : CastForeign} {TF : TextForeign} {EF : ExprForeign}
  : ExprOps (SE.ScalarExpression F) := {|
  Catalog.has_table_ref_column := Expression.has_table_ref_column;
  eval_none expr := eval expr None
|}.

Section Dml.
Context {F : Foreign} {C : CastForeign} {TF : TextForeign} {EF : ExprForeign}.
Context {T : Type} {TX : Transaction T}.
Context {V St : Type} {TC VC MC : Type}.
Abbreviation Expr := (SE.ScalarExpression F).
Abbreviation Column := (ColumnCatalog Expr).
Context {CT : Cache bytes (TableCatalog Expr) TC} {Codec : CatalogCodec Expr V T TC}.
Abbreviation Tuple := (TupleCodec.Tuple F).
Abbreviation Stream := (list (Result Tuple)).
#[local] Abbreviation M := (M T TC VC MC).

(** [TupleBuilder::build_result]. *)
Definition build_result (message : bytes) : Tuple := mk_tuple None [text_value message].
Definition done : M (list Tuple) := ret [build_result (str "1")].

(** [IndexMeta::column_exprs]. *)
Definition column_exprs (meta : IndexMeta) (table : TableCatalog Expr) : Result (list Expr) :=
  try_map (fun column_id =>
    let? column := get_column_by_id table column_id in
    match column with Some column => Ok (SE.ColumnRef column) | None => Err (ColumnNotFound column_id) end)
    (column_ids meta).
Definition index_metas (table : TableCatalog Expr) : Result (list (IndexMeta * list Expr)) :=
  try_map (fun meta => let? exprs := column_exprs meta table in Ok (meta, exprs)) (indexes table).

(** What an index stores of a tuple, if anything. *)
Definition index_entry (tuple : Tuple) (schema : list Column) (meta : IndexMeta * list Expr)
  : Result (option (Index F)) :=
  let? values := projection tuple meta.2 schema in
  Ok (option_map (fun value => mk_index (im_id meta.1) value (im_ty meta.1)) (values_to_tuple values)).

(** *** INSERT *)

(** [MappingKey]: a name or a column id. *)
Definition column_key (is_mapping_by_name : bool) (c : Column) : bytes + option ColumnId :=
  if is_mapping_by_name then inl (column_name c) else inr (column_id c).
Abbreviation tuple_map := (gmap (list Z + option (list Z)) DataValue).

Fixpoint fill_map (by_name : bool) (schema : list Column) (values : list DataValue) (m : tuple_map)
  : Result tuple_map :=
  match values, schema with
  | [], _ => Ok m
  | _, [] => Panic
  | value :: values, column :: schema => fill_map by_name schema values (<[column_key by_name column := value]> m)
  end.

(** The values in the order of the table. *)
Fixpoint fill_row (by_name : bool) (columns : list Column) (m : tuple_map) : Result (list DataValue) :=
  match columns with
  | [] => Ok []
  | col :: columns =>
      let key := column_key by_name col in
      let? value := match m !! key with
                    | Some value => Ok (Some value)
                    | None => default_value col
                    end in
      let value := default DV.Null value in
      if is_null value && negb (nullable col) then Err NotNull
      else let? values := fill_row by_name columns (delete key m) in
           Ok (value :: values)
  end.

Definition insert_tuple (table_name : bytes) (table : TableCatalog Expr) (metas : list (IndexMeta * list Expr))
    (schema : list Column) (is_overwrite by_name : bool) (values : list DataValue) : M unit :=
  let! m := lift (fill_map by_name schema values ∅) in
  let! values := lift (fill_row by_name (schema_ref table) m) in
  let! pk := lift (primary_projection (primary_key_indices table) values) in
  let tuple := mk_tuple (Some pk) values in
  let! _ := for_each (fun meta =>
    let! entry := lift (index_entry tuple schema meta) in
    match entry with
    | Some index => add_index table_name index pk
    | None => ret tt
    end) metas in
  append_tuple table_name tuple (types table) is_overwrite.

Definition has_primary_key (schema : list Column) : bool :=
  existsb (fun c => match primary (desc c) with Some _ => true | None => false end) schema.

Definition insert_exec (table_name : bytes) (is_overwrite by_name : bool) (schema : list Column) (input : Stream)
  : M (list Tuple) :=
  if negb (has_primary_key schema) then fail NotNull
  else
    let! found := table table_name in
    match found with
    | Some table =>
        let! metas := lift (index_metas table) in
        let! _ := for_each (fun tuple =>
          let! tuple := lift tuple in
          insert_tuple table_name table metas schema is_overwrite by_name (values tuple)) input in
        done
    | None => done
    end.

(** *** UPDATE *)

Abbreviation exprs_map := (gmap (option (list Z)) Expr).
Definition value_map (value_exprs : list (Column * Expr)) : exprs_map :=
  fold_left (fun m ce => <[column_id ce.1 := ce.2]> m) value_exprs ∅.

(** [tuple.values[i] = expr.eval(..)], column after column on the same tuple. *)
Fixpoint assign (i : nat) (columns : list Column) (exprs : exprs_map) (schema : list Column) (tuple : Tuple)
  : Result Tuple :=
  match columns with
  | [] => Ok tuple
  | column :: columns =>
      let? tuple :=
        match exprs !! column_id column with
        | Some expr =>
            let? value := eval expr (Some (tuple, schema)) in
            if (i <? length (values tuple))%nat then Ok (mk_tuple (pk tuple) (<[i := value]> (values tuple)))
            else Panic
        | None => Ok tuple
        end in
      assign (S i) columns exprs schema tuple
  end.

Definition update_tuple (table_name : bytes) (table : TableCatalog Expr) (metas : list (IndexMeta * list Expr))
    (exprs : exprs_map) (schema : list Column) (tuple : Tuple) : M unit :=
  let! old_pk := lift (ok_or (pk tuple) PrimaryKeyNotFound) in
  let! _ := for_each (fun meta =>
    let! entry := lift (index_entry tuple schema meta) in
    match entry with
    | Some index => del_index table_name index old_pk
    | None => ret tt
    end) metas in
  let! tuple := lift (assign 0 schema exprs schema tuple) in
  let! new_pk := lift (primary_projection (primary_key_indices table) (values tuple)) in
  let tuple := mk_tuple (Some new_pk) (values tuple) in
  let is_overwrite := dv_eq new_pk old_pk in
  let! _ := if is_overwrite then ret tt else remove_tuple table_name old_pk in
  let! _ := for_each (fun meta =>
    let! entry := lift (index_entry tuple schema meta) in
    match entry with
    | Some index => add_index table_name index new_pk
    | None => ret tt
    end) metas in
  append_tuple table_name tuple (map datatype schema) is_overwrite.

Definition update_exec (table_name : bytes) (value_exprs : list (Column * Expr)) (schema : list Column) (input : Stream)
  : M (list Tuple) :=
  let exprs := value_map value_exprs in
  let! found := table table_name in
  match found with
  | Some table =>
      let! metas := lift (index_metas table) in
      let! _ := for_each (fun tuple =>
        let! tuple := lift tuple in update_tuple table_name table metas exprs schema tuple) input in
      done
  | None => done
  end.

(** *** DELETE *)

(** [Value]: the values an index had in the tuples so far. *)
Record IndexValues := mk_index_values { iv_exprs : list Expr; iv_values : list DataValue; iv_ty : IndexType }.
Abbreviation index_map := (gmap Z IndexValues).

(** One index of one tuple. *)
Definition collect_index (table : TableCatalog Expr) (schema : list Column) (tuple : Tuple) (m : index_map)
    (meta : IndexMeta) : Result index_map :=
  match m !! im_id meta with
  | Some iv =>
      let? values := projection tuple (iv_exprs iv) schema in
      Ok (match values_to_tuple values with
          | Some value => <[im_id meta := mk_index_values (iv_exprs iv) (iv_values iv ++ [value]) (iv_ty iv)]> m
          | None => m
          end)
  | None =>
      let? exprs := column_exprs meta table in
      let? values := projection tuple exprs schema in
      Ok (match values_to_tuple values with
          | Some value => <[im_id meta := mk_index_values exprs [value] (im_ty meta)]> m
          | None => m
          end)
  end.

(** The order in which the map of indexes is walked. *)
Variable order : index_map -> list (Z * IndexValues).

Definition delete_tuple (table_name : bytes) (table : TableCatalog Expr) (schema : list Column) (m : index_map)
    (tuple : Tuple) : M index_map :=
  let! m := lift (try_fold (collect_index table schema tuple) (indexes table) m) in
  let! _ :=
    match pk tuple with
    | Some tuple_id =>
        let! _ := for_each (fun entry =>
          for_each (fun value => del_index table_name (mk_index entry.1 value (iv_ty entry.2)) tuple_id)
            (iv_values entry.2)) (order m) in
        remove_tuple table_name tuple_id
    | None => ret tt
    end in
  ret m.

Fixpoint delete_all_tuples (table_name : bytes) (table : TableCatalog Expr) (schema : list Column) (m : index_map)
    (input : Stream) : M unit :=
  match input with
  | [] => ret tt
  | tuple :: input =>
      let! tuple := lift tuple in
      let! m := delete_tuple table_name table schema m tuple in
      delete_all_tuples table_name table schema m input
  end.

Definition delete_exec (table_name : bytes) (schema : list Column) (input : Stream) : M (list Tuple) :=
  let! found := table table_name in
  let! table := lift (ok_or found TableNotFound) in
  let! _ := delete_all_tuples table_name table schema ∅ input in
  done.
End Dml.

(** ** The last value listed for a key *)

Section LastGiven.
Context {K A : Type}.
Implicit Types (l : list (K * A)).

Definition last_given l (k : K) (a : A) : Prop :=
  exists before after, l = before ++ (k, a) :: after /\ ~ (k ∈ map fst after).

Lemma last_given_snoc l k' a' k a :
  last_given (l ++ [(k', a')]) k a <-> (k' = k /\ a' = a) \/ (k' <> k /\ last_given l k a).
Proof.
  split.
  - intros (before & after & E & Hn). destruct (decide (after = [])) as [-> | Hne].
    + apply app_inj_tail in E as [_ [= -> ->]]. now left.
    + destruct (exists_last Hne) as (after' & x & ->). rewrite app_comm_cons, app_assoc in E.
      apply app_inj_tail in E as [-> <-]. rewrite map_app in Hn. cbn in Hn. right. split; [set_solver |].
      exists before, after'. split; [reflexivity | set_solver].
  - intros [[-> ->] | [Hne (before & after & -> & Hn)]].
    + exists l, []. split; [reflexivity | set_solver].
    + exists before, (after ++ [(k', a')]). rewrite <- app_assoc. split; [reflexivity |].
      rewrite map_app. set_solver.
Qed.

Lemma last_given_in l k a : last_given l k a -> k ∈ map fst l.
Proof. intros (before & after & -> & _). rewrite map_app. set_solver. Qed.

Context `{Countable K}.
Definition insert_all l (m : gmap K A) : gmap K A := fold_left (fun m e => <[e.1 := e.2]> m) l m.

(** Inserting the pairs one after the other keeps the last. *)
Lemma insert_all_given l k a : insert_all l ∅ !! k = Some a <-> last_given l k a.
Proof.
  unfold insert_all. induction l as [|[k' a'] l IH] using rev_ind.
  - cbn. rewrite lookup_empty. split; [discriminate | intros Hl%last_given_in; set_solver].
  - rewrite fold_left_app. cbn [fold_left fst snd]. rewrite last_given_snoc, lookup_insert_Some, IH. reflexivity.
Qed.
Lemma insert_all_absent l k : k ∉ map fst l -> insert_all l ∅ !! k = None.
Proof.
  intros Hk. destruct (insert_all l ∅ !! k) as [a|] eqn:E; [| reflexivity].
  now apply insert_all_given, last_given_in in E.
Qed.
Lemma insert_all_present l k : k ∈ map fst l -> exists a, last_given l k a.
Proof.
  unfold last_given. induction l as [|[k' a'] l IH]; cbn [map fst]; [set_solver |]. intros Hk.
  destruct (decide (k ∈ map fst l)) as [Hl | Hl].
  - destruct (IH Hl) as (a & before & after & -> & Hn). exists a, ((k', a') :: before), after. auto.
  - assert (k = k') as -> by set_solver. now exists a', [], l.
Qed.
End LastGiven.

(** ** Rows as a finite map *)

Section DmlRows.
Context {F : Foreign} {FL : ForeignLaws F} {C : CastForeign} {TF : TextForeign} {EF : ExprForeign}.
Context {T : Type} {TX : Transaction T} {TL : TransactionLaws T}.
Context {V TC VC MC : Type}.
Abbreviation Expr := (SE.ScalarExpression F).
Abbreviation Column := (ColumnCatalog Expr).
Context {CT : Cache bytes (TableCatalog Expr) TC} {Codec : CatalogCodec Expr V T TC}.
Abbreviation Tuple := (TupleCodec.Tuple F).
#[local] Abbreviation Db := (Db T TC VC MC).
Implicit Types (s : Db) (m : rows).

(** The table: its name, its catalog, the type and the position of its key. *)
Variables (name : bytes) (t : TableCatalog Expr) (vt : ValueType) (pki : nat).
Hypothesis Hvt : pk_vt vt = true.
Hypothesis Hpk : primary_key_indices t = [pki].
Abbreviation tys := (types t).
Abbreviation represents := (represents (TC := TC) (VC := VC) (MC := MC) name vt tys pki).
Abbreviation row_ok := (row_ok vt tys pki).
Abbreviation spec_step := (TableStore.spec_step (F := F)).

(** Writes outside of the rows of the table. *)
Lemma represents_put s m k v s' : represents s m -> ~ in_scope CodecType.Tuple name k -> is_bytes k ->
  wrote s (<[k := v]> (contents (tx s))) s' -> represents s' m.
Proof.
  intros [Hm Hk Hs] Hout Hb [_ Hc]. split; rewrite ?Hc; [exact Hm | now apply map_Forall_insert_2 |].
  intros k' v' Hin. rewrite lookup_insert_ne by congruence. now apply Hs.
Qed.
Lemma represents_drop s m k s' : represents s m -> ~ in_scope CodecType.Tuple name k ->
  wrote s (delete k (contents (tx s))) s' -> represents s' m.
Proof.
  intros [Hm Hk Hs] Hout [_ Hc]. split; rewrite ?Hc; [exact Hm | now apply map_Forall_delete |].
  intros k' v' Hin. rewrite lookup_delete_ne by congruence. now apply Hs.
Qed.
Lemma represents_tx s m s' : represents s m -> tx s' = tx s -> represents s' m.
Proof. intros [Hm Hk Hs] E. split; rewrite ?E; assumption. Qed.

Lemma index_key_outside index tid k : encode_index_key name index tid = Ok k -> ~ in_scope CodecType.Tuple name k.
Proof.
  intros H Hin. apply index_key_extends in H as [u ->].
  destruct (scopes_disjoint CodecType.Index name CodecType.Tuple name (key_prefix CodecType.Index name ++ BOUND_MIN_TAG :: u));
    try reflexivity; [apply in_bound_within, in_bound_prefix | exact Hin | discriminate].
Qed.

(** An index that accepts every value, and its entry for a tuple, with a key
    that can be encoded. *)
Definition entry_ok (index : Index F) (tid : TupleId) : Prop :=
  is_primary_key (index_ty index) = true
  \/ index_ty index <> Unique /\ exists k, encode_index_key name index (Some tid) = Ok k /\ is_bytes k.
Definition entries_ok (metas : list (IndexMeta * list Expr)) (schema : list Column) (tuple : Tuple) (tid : TupleId)
  : Prop :=
  Forall (fun meta => exists entry, index_entry tuple schema meta = Ok entry
    /\ forall index, entry = Some index -> entry_ok index tid) metas.

Lemma add_index_keeps s m index tid : represents s m -> entry_ok index tid ->
  exists s', add_index name index tid s = (Ok tt, s') /\ represents s' m.
Proof.
  intros Hrep [Hp | (Hu & k & Hk & Hb)]; unfold add_index; [rewrite Hp; now exists s |].
  destruct (is_primary_key (index_ty index)) eqn:Ep; [now exists s |].
  unfold lift, encode_index. rewrite Hk. cbn [result_bind]. unfold bind at 1.
  destruct (set_run k (bincode tid) s) as (s' & Hs & W). exists s'.
  split; [now destruct (index_ty index) | eapply represents_put; eauto using index_key_outside].
Qed.

Lemma del_index_keeps s m index tid : represents s m -> entry_ok index tid ->
  exists s', del_index name index tid s = (Ok tt, s') /\ represents s' m.
Proof.
  intros Hrep [Hp | (Hu & k & Hk & Hb)]; unfold del_index; [rewrite Hp; now exists s |].
  destruct (is_primary_key (index_ty index)) eqn:Ep; [now exists s |].
  unfold lift. rewrite Hk. unfold bind at 1. destruct (remove_run k s) as (s' & Hs & W). exists s'.
  split; [exact Hs | eapply represents_drop; eauto using index_key_outside].
Qed.

(** A loop whose steps succeed and keep the rows. *)
Lemma for_each_keeps {A} (f : A -> M T TC VC MC unit) l s m :
  (forall x s, x ∈ l -> represents s m -> exists s', f x s = (Ok tt, s') /\ represents s' m) ->
  represents s m -> exists s', for_each f l s = (Ok tt, s') /\ represents s' m.
Proof.
  revert s. induction l as [|x l IH]; intros s Hf Hrep; cbn [for_each]; [now exists s |].
  destruct (Hf x s (list_elem_of_here _ _) Hrep) as (s1 & E1 & Hrep1).
  destruct (IH s1 (fun y s Hy => Hf y s (list_elem_of_further _ _ _ Hy)) Hrep1) as (s2 & E2 & Hrep2).
  exists s2. unfold bind. rewrite E1. auto.
Qed.

Lemma index_loop_keeps (g : Index F -> TupleId -> M T TC VC MC unit) metas schema tuple tid s m :
  (forall s index, represents s m -> entry_ok index tid -> exists s', g index tid s = (Ok tt, s') /\ represents s' m) ->
  entries_ok metas schema tuple tid -> represents s m ->
  exists s', for_each (fun meta =>
    let! entry := lift (index_entry tuple schema meta) in
    match entry with Some index => g index tid | None => ret tt end) metas s = (Ok tt, s') /\ represents s' m.
Proof.
  intros Hg He Hrep. apply for_each_keeps; [| exact Hrep]. intros meta s' Hin Hrep'.
  destruct (proj1 (Forall_forall _ _) He meta Hin) as (entry & Hentry & Hok).
  unfold bind, lift. rewrite Hentry. destruct entry as [index|]; [now apply Hg; auto | now exists s'].
Qed.

(** *** INSERT *)

(** The pairs of a key and a value an input tuple lists. *)
Definition listed_values (by_name : bool) (schema : list Column) (vs : list DataValue)
  : list ((bytes + option ColumnId) * DataValue) := zip (map (column_key by_name) schema) vs.

(** The value of a column in the row an input tuple becomes: the last the tuple
    lists for the column, and the value of the column's default, or null if it
    has none, when it lists none. *)
Definition column_value (by_name : bool) (schema : list Column) (vs : list DataValue) (col : Column) (v : DataValue)
  : Prop :=
  last_given (listed_values by_name schema vs) (column_key by_name col) v
  \/ ~ (column_key by_name col ∈ map fst (listed_values by_name schema vs))
     /\ (match col_default (desc col) with Some expr => eval expr None = Ok v | None => v = DV.Null end).

(** The columns' values, where only a nullable column has a null. *)
Definition row_built (by_name : bool) (schema : list Column) (vs : list DataValue) (cols : list Column)
    (r : list DataValue) : Prop :=
  Forall2 (fun col v => column_value by_name schema vs col v /\ (is_null v = true -> nullable col = true)) cols r.

(** What a tuple of the input is to the table: the row [r] with key [z], or a
    violation of NOT NULL. *)
Definition inserts (by_name : bool) (metas : list (IndexMeta * list Expr)) (schema : list Column) (vs : list DataValue)
    (ozr : option (Z * row)) : Prop :=
  (length vs <= length schema)%nat /\
  match ozr with
  | Some (z, r) => row_built by_name schema vs (schema_ref t) r /\ row_ok z r
      /\ entries_ok metas schema (row_tuple vt z r) (int_value vt z)
  | None => exists before col after r v, schema_ref t = before ++ col :: after
      /\ row_built by_name schema vs before r
      /\ column_value by_name schema vs col v /\ is_null v = true /\ nullable col = false
  end.

Definition insert_op (is_overwrite : bool) (zr : Z * row) : row_op :=
  if is_overwrite then Overwrite zr.1 zr.2 else Insert zr.1 zr.2.
Definition insert_change (is_overwrite : bool) (ozr : option (Z * row)) (m : rows) : Result unit * rows :=
  match ozr with Some zr => spec_step (insert_op is_overwrite zr) m | None => (Err NotNull, m) end.

(** The map of an input tuple has the last value listed for each key. *)
Lemma fill_map_listed by_name schema vs tm : (length vs <= length schema)%nat ->
  fill_map by_name schema vs tm = Ok (insert_all (listed_values by_name schema vs) tm).
Proof.
  unfold listed_values, insert_all. revert schema tm. induction vs as [|v vs IH]; intros [|c schema] tm Hl; cbn in Hl |- *;
    try lia; try reflexivity. apply IH. lia.
Qed.

Definition lookups (by_name : bool) (schema : list Column) (vs : list DataValue) (cols : list Column)
    (tm : gmap (bytes + option ColumnId) DataValue) : Prop :=
  forall col, col ∈ cols ->
    tm !! column_key by_name col = insert_all (listed_values by_name schema vs) ∅ !! column_key by_name col.

(** One column of the row. *)
Lemma fill_value by_name schema vs cols tm col v : lookups by_name schema vs cols tm -> col ∈ cols ->
  column_value by_name schema vs col v ->
  exists o, match tm !! column_key by_name col with Some v => Ok (Some v) | None => default_value col end = Ok o
    /\ default DV.Null o = v.
Proof.
  intros Htm Hcol Hv. rewrite (Htm col Hcol). destruct Hv as [Hv | [Hn Hd]].
  - apply insert_all_given in Hv as ->. now exists (Some v).
  - rewrite (insert_all_absent _ _ Hn). unfold default_value. destruct (col_default (desc col)) as [expr|].
    + cbn [eval_none expr_ops]. rewrite Hd. now exists (Some v).
    + subst v. now exists None.
Qed.

Lemma lookups_tail by_name schema vs col cols tm : NoDup (map (column_key by_name) (col :: cols)) ->
  lookups by_name schema vs (col :: cols) tm -> lookups by_name schema vs cols (delete (column_key by_name col) tm).
Proof.
  cbn [map]. intros [Hn _]%NoDup_cons Htm c Hc. rewrite lookup_delete_ne; [now apply Htm, list_elem_of_further |].
  intros E. apply Hn. rewrite E. now apply (list_elem_of_fmap_2 (column_key by_name)).
Qed.

Lemma fill_row_app by_name schema vs before r rest tm :
  NoDup (map (column_key by_name) (before ++ rest)) -> lookups by_name schema vs (before ++ rest) tm ->
  row_built by_name schema vs before r ->
  exists tm', lookups by_name schema vs rest tm'
    /\ fill_row by_name (before ++ rest) tm = result_bind (fill_row by_name rest tm') (fun r' => Ok (r ++ r')).
Proof.
  intros Hnd Htm Hb. revert tm Hnd Htm. induction Hb as [|col v before r [Hv Hnull] _ IH]; intros tm Hnd Htm.
  - exists tm. split; [exact Htm |]. cbn [app]. now destruct (fill_row by_name rest tm).
  - destruct (fill_value _ _ _ _ tm col v Htm (list_elem_of_here _ _) Hv) as (o & Ho & Hd).
    destruct (IH (delete (column_key by_name col) tm)) as (tm' & Htm' & E).
    + now apply NoDup_cons in Hnd as [_ Hnd].
    + now apply lookups_tail.
    + exists tm'. split; [exact Htm' |]. cbn [app fill_row]. rewrite Ho. cbn [result_bind]. rewrite Hd, E.
      assert (is_null v && negb (nullable col) = false) as -> by (destruct (is_null v); [now rewrite Hnull | reflexivity]).
      now destruct (fill_row by_name rest tm').
Qed.

Lemma row_of_input by_name schema vs ozr metas :
  NoDup (map (column_key by_name) (schema_ref t)) -> inserts by_name metas schema vs ozr ->
  result_bind (fill_map by_name schema vs ∅) (fill_row by_name (schema_ref t))
  = match ozr with Some zr => Ok zr.2 | None => Err NotNull end.
Proof.
  intros Hnd [Hl H]. rewrite (fill_map_listed _ _ _ _ Hl). cbn [result_bind].
  set (tm := insert_all _ ∅). assert (Htm : lookups by_name schema vs (schema_ref t) tm) by (intros c _; reflexivity).
  destruct ozr as [[z r]|]; [destruct H as (Hb & _) | destruct H as (before & col & after & r & v & E & Hb & Hv & Hnull & Hn)].
  - rewrite <- (app_nil_r (schema_ref t)) in Hnd, Htm. destruct (fill_row_app _ _ _ _ _ [] tm Hnd Htm Hb) as (tm' & _ & E).
    rewrite app_nil_r in E. rewrite E. cbn. now rewrite app_nil_r.
  - rewrite E in *. destruct (fill_row_app _ _ _ _ _ (col :: after) tm Hnd Htm Hb) as (tm' & Htm' & ->).
    destruct (fill_value _ _ _ _ tm' col v Htm' (list_elem_of_here _ _) Hv) as (o & Ho & Hd).
    cbn [fill_row]. rewrite Ho. cbn [result_bind]. rewrite Hd, Hnull, Hn. reflexivity.
Qed.

Lemma insert_tuple_refines ow by_name metas schema vs ozr s m :
  NoDup (map (column_key by_name) (schema_ref t)) -> inserts by_name metas schema vs ozr -> represents s m ->
  exists s', insert_tuple name t metas schema ow by_name vs s = ((insert_change ow ozr m).1, s')
    /\ represents s' (insert_change ow ozr m).2.
Proof.
  intros Hnd Hins Hrep. pose proof (row_of_input by_name schema vs ozr metas Hnd Hins) as Hrow. unfold insert_tuple.
  destruct Hins as [Hl H]. rewrite (fill_map_listed _ _ _ _ Hl) in *. cbn [result_bind] in Hrow.
  unfold lift at 1. unfold bind at 1. unfold lift at 1. rewrite Hrow. destruct ozr as [[z r]|]; [| now exists s].
  destruct H as (_ & Hok & He). cbn [fst snd insert_change] in *. unfold bind at 1. rewrite Hpk.
  assert (Hp : primary_projection [pki] r = Ok (int_value vt z)).
  { destruct Hok as (_ & _ & Hk). change (unwrap (E := DatabaseError F) (r !! pki) = Ok (int_value vt z)).
    now rewrite Hk. }
  unfold lift at 1. rewrite Hp. unfold bind at 1.
  destruct (index_loop_keeps (add_index name) metas schema (row_tuple vt z r) (int_value vt z) s m) as (s1 & E1 & Hrep1);
    [intros; now apply add_index_keeps | exact He | exact Hrep |].
  unfold row_tuple in E1. rewrite (bind_ok _ _ _ _ _ E1).
  destruct (run_op_refines name vt tys pki Hvt (insert_op ow (z, r)) s1 m) as (s2 & E2 & Hrep2);
    [now destruct ow | exact Hrep1 |].
  exists s2. split; [| exact Hrep2]. rewrite <- E2. now destruct ow.
Qed.

(** *** Sequences of changes *)

(** Changes until one fails. *)
Fixpoint spec_until (changes : list (rows -> Result unit * rows)) (m : rows) : Result unit * rows :=
  match changes with
  | [] => (Ok tt, m)
  | change :: changes =>
      match change m with
      | (Ok _, m') => spec_until changes m'
      | (e, m') => (e, m')
      end
  end.

Definition refines (act : M T TC VC MC unit) (change : rows -> Result unit * rows) : Prop :=
  forall s m, represents s m -> exists s', act s = ((change m).1, s') /\ represents s' (change m).2.

Lemma for_each_refines {A} (f : A -> M T TC VC MC unit) l changes :
  Forall2 (fun x change => refines (f x) change) l changes -> refines (for_each f l) (spec_until changes).
Proof.
  induction 1 as [|x change l changes Hx _ IH]; intros s m Hrep; cbn [for_each spec_until]; [now exists s |].
  destruct (Hx s m Hrep) as (s1 & E1 & Hrep1). unfold bind. rewrite E1.
  destruct (change m) as [[[]|e|] m1]; cbn [fst snd] in *; [| now exists s1 ..].
  now apply IH.
Qed.

(** A statement on the table: its executor after the catalog is read. *)
Lemma statement_refines act change s m s1 : table name s = (Ok (Some t), s1) -> represents s m -> refines act change ->
  exists s', (let! _ := act in done) s1
      = (let? _ := (change m).1 in Ok [build_result (str "1")], s') /\ represents s' (change m).2.
Proof.
  intros Ht Hrep Hact. destruct (Hact s1 m) as (s' & E & Hrep').
  { eapply represents_tx; [exact Hrep | exact (table_tx _ _ _ _ Ht)]. }
  exists s'. split; [| exact Hrep']. unfold bind. rewrite E. now destruct (change m).1.
Qed.


(** *** UPDATE *)

Definition spec_update (z z' : Z) (r : row) (m : rows) : Result unit * rows :=
  if z' =? z then spec_step (Overwrite z r) m else spec_step (Insert z' r) (delete z m).

(** The row [r] the assignments make of a tuple: a column that an expression is
    set for gets the value of the last one, read on the tuple in which the
    columns before it already have their new values; the others keep theirs. *)
Definition assigned (value_exprs : list (Column * Expr)) (schema : list Column) (tuple : Tuple) (r : list DataValue)
  : Prop :=
  let set_exprs := map (fun ce => (column_id ce.1, ce.2)) value_exprs in
  length (values tuple) = length schema /\ length r = length schema
  /\ forall i col, schema !! i = Some col ->
       (forall expr, last_given set_exprs (column_id col) expr ->
          exists v, r !! i = Some v
            /\ eval expr (Some (mk_tuple (pk tuple) (take i r ++ drop i (values tuple)), schema)) = Ok v)
       /\ (column_id col ∉ map fst set_exprs -> r !! i = values tuple !! i).

Lemma take_drop_insert {A} i (v : A) r vs : r !! i = Some v -> length vs = length r ->
  <[i := v]> (take i r ++ drop i vs) = take (S i) r ++ drop (S i) vs.
Proof.
  intros Hr Hl. pose proof (lookup_lt_Some _ _ _ Hr) as Hi. rewrite (take_S_r _ _ _ Hr).
  destruct (lookup_lt_is_Some_2 vs i) as [w Hw]; [lia |]. rewrite (drop_S _ _ _ Hw).
  rewrite insert_app_r_alt by (rewrite length_take; lia). rewrite length_take, Nat.min_l, Nat.sub_diag by lia.
  cbn. now rewrite <- app_assoc.
Qed.
Lemma take_drop_same {A} i (v : A) r vs : r !! i = Some v -> vs !! i = Some v ->
  take i r ++ drop i vs = take (S i) r ++ drop (S i) vs.
Proof. intros Hr Hv. rewrite (take_S_r _ _ _ Hr), (drop_S _ _ _ Hv), <- app_assoc. reflexivity. Qed.

Lemma value_map_all value_exprs :
  value_map (F := F) value_exprs = insert_all (map (fun ce => (column_id ce.1, ce.2)) value_exprs) ∅.
Proof.
  unfold value_map, insert_all. generalize (∅ : gmap (option ColumnId) Expr).
  induction value_exprs as [|ce l IH]; intros m; [reflexivity | apply IH].
Qed.

Lemma assign_assigned value_exprs schema tuple r : assigned value_exprs schema tuple r ->
  assign 0 schema (value_map value_exprs) schema tuple = Ok (mk_tuple (pk tuple) r).
Proof.
  intros (Hvs & Hr & Hcols). rewrite value_map_all.
  assert (Hgen : forall cols i, cols = drop i schema -> (i + length cols = length schema)%nat ->
    assign i cols (insert_all (map (fun ce => (column_id ce.1, ce.2)) value_exprs) ∅) schema
      (mk_tuple (pk tuple) (take i r ++ drop i (values tuple))) = Ok (mk_tuple (pk tuple) r)).
  { induction cols as [|col cols IH]; intros i Hd Hi; cbn [assign].
    - cbn in Hi. rewrite take_ge, drop_ge, app_nil_r by lia. reflexivity.
    - assert (Hcol : schema !! i = Some col) by (rewrite <- (Nat.add_0_r i), <- lookup_drop, <- Hd; reflexivity).
      assert (Hd' : cols = drop (S i) schema) by (rewrite (drop_S _ _ _ Hcol) in Hd; now injection Hd).
      cbn in Hi. destruct (Hcols i col Hcol) as [Hset Hkeep]. destruct (insert_all _ ∅ !! column_id col) as [expr|] eqn:E.
      + apply insert_all_given, Hset in E as (v & Hv & ->). cbn [result_bind values pk].
        assert (Hlt : (i <? length (take i r ++ drop i (values tuple)))%nat = true).
        { apply Nat.ltb_lt. rewrite length_app, length_take, length_drop. lia. }
        rewrite Hlt. cbn [result_bind]. rewrite (take_drop_insert _ _ _ _ Hv) by lia. apply IH; [exact Hd' | lia].
      + assert (Hn : column_id col ∉ map fst (map (fun ce : Column * Expr => (column_id ce.1, ce.2)) value_exprs)).
        { intros Hin. apply insert_all_present in Hin as [e He]. apply insert_all_given in He. congruence. }
        specialize (Hkeep Hn). destruct (lookup_lt_is_Some_2 (values tuple) i) as [v Hv]; [lia |]. cbn [result_bind].
        rewrite (take_drop_same i v) by congruence. apply IH; [exact Hd' | lia]. }
  specialize (Hgen schema 0%nat eq_refl eq_refl). rewrite take_0, drop_0 in Hgen. now destruct tuple.
Qed.

(** A tuple with key [z] that becomes the row [r] with key [z']. *)
Definition updates (metas : list (IndexMeta * list Expr)) (value_exprs : list (Column * Expr)) (schema : list Column)
    (tuple : Tuple) (zzr : Z * Z * row) : Prop :=
  let '(z, z', r) := zzr in
  pk tuple = Some (int_value vt z) /\ in_int vt z = true
  /\ entries_ok metas schema tuple (int_value vt z)
  /\ assigned value_exprs schema tuple r
  /\ row_ok z' r /\ entries_ok metas schema (row_tuple vt z' r) (int_value vt z').

Lemma int_value_eqb a b : dv_eq (F := F) (int_value vt a) (int_value vt b) = (a =? b).
Proof. destruct vt; discriminate || reflexivity. Qed.

Lemma update_tuple_refines metas value_exprs schema tuple z z' r :
  map datatype schema = tys -> updates metas value_exprs schema tuple (z, z', r) ->
  refines (update_tuple name t metas (value_map value_exprs) schema tuple) (spec_update z z' r).
Proof.
  intros Hsch (Htid & Hz & He & Ha%assign_assigned & Hr & He') s m Hrep. unfold update_tuple, spec_update.
  unfold lift at 1. rewrite Htid. cbn [ok_or]. unfold bind at 1.
  destruct (index_loop_keeps (del_index name) metas schema tuple (int_value vt z) s m) as (s1 & E1 & Hrep1);
    [intros; now apply del_index_keeps | exact He | exact Hrep |].
  rewrite (bind_ok _ _ _ _ _ E1). unfold lift at 1. rewrite (bind_ok _ _ s1 (mk_tuple (pk tuple) r) s1) by now rewrite Ha.
  cbn [values]. rewrite Hpk.
  assert (Hp : primary_projection [pki] r = Ok (int_value vt z')).
  { destruct Hr as (_ & _ & Hk). change (unwrap (E := DatabaseError F) (r !! pki) = Ok (int_value vt z')).
    now rewrite Hk. }
  unfold lift at 1. rewrite (bind_ok _ _ s1 (int_value vt z') s1) by now rewrite Hp. rewrite int_value_eqb.
  set (m1 := if z' =? z then m else delete z m).
  assert (Hdel : exists s2, (if z' =? z then ret tt else remove_tuple name (int_value vt z)) s1 = (Ok tt, s2)
            /\ represents s2 m1).
  { subst m1. destruct (z' =? z); [now exists s1 |].
    exact (run_op_refines name vt tys pki Hvt (Delete z) s1 m Hz Hrep1). }
  destruct Hdel as (s2 & E2 & Hrep2). rewrite (bind_ok _ _ _ _ _ E2).
  destruct (index_loop_keeps (add_index name) metas schema (row_tuple vt z' r) (int_value vt z') s2 m1)
    as (s3 & E3 & Hrep3); [intros; now apply add_index_keeps | exact He' | exact Hrep2 |].
  unfold row_tuple in E3. rewrite (bind_ok _ _ _ _ _ E3), Hsch.
  destruct (run_op_refines name vt tys pki Hvt (insert_op (z' =? z) (z', r)) s3 m1) as (s4 & E4 & Hrep4);
    [now destruct (z' =? z) | exact Hrep3 |].
  exists s4. subst m1. destruct (Z.eqb_spec z' z) as [-> | _]; auto.
Qed.

(** C3. UPDATE refines replacement in a finite map, on a table with one integer
    primary key and no UNIQUE index: a column that an expression is set for gets
    the value of the last one, read on the tuple in which the columns before it
    already have their new values, and the other columns keep theirs; a row whose
    key stays is overwritten, one whose key changes is removed and inserted under
    the new key, which stops with [DuplicatePrimaryKey] if that is taken.  The
    expressions succeed, the rows fit the column types as [column_ok] has it, and
    the index entries of the tuples before and after can be encoded. *)
Theorem update_refines_map value_exprs schema input zzrs metas s m s1 :
  map datatype schema = tys -> table name s = (Ok (Some t), s1) -> index_metas t = Ok metas ->
  Forall2 (updates metas value_exprs schema) input zzrs -> represents s m ->
  let spec := spec_until (map (fun zzr => spec_update zzr.1.1 zzr.1.2 zzr.2) zzrs) in
  exists s', update_exec name value_exprs schema (map Ok input) s
      = (let? _ := (spec m).1 in Ok [build_result (str "1")], s') /\ represents s' (spec m).2.
Proof.
  intros Hsch Ht Hm Hin Hrep spec. unfold update_exec.
  rewrite (bind_ok _ _ _ _ _ Ht). unfold lift at 1. rewrite (bind_ok _ _ s1 metas s1) by now rewrite Hm.
  apply (statement_refines _ _ s m s1 Ht Hrep). apply for_each_refines.
  clear Hrep spec. induction Hin as [|tuple [[z z'] r] input zzrs H _ IH]; cbn [map fst snd]; constructor; [| exact IH].
  intros s' m' Hrep'. cbn. now apply (update_tuple_refines metas value_exprs schema tuple z z' r).
Qed.

(** *** DELETE *)

Variable order : gmap Z (IndexValues (F := F)) -> list (Z * IndexValues (F := F)).
Hypothesis Horder : forall im, order im ≡ₚ map_to_list im.

(** The values the indexes have of the tuples, and that their entries can be
    encoded with every tuple id. *)
Definition index_values_ok (schema : list Column) (input : list (Tuple)) (zs : list Z) (vals : list DataValue) : Prop :=
  (forall meta, meta ∈ indexes t -> exists exprs, column_exprs meta t = Ok exprs
     /\ forall tuple, tuple ∈ input -> exists vs, projection tuple exprs schema = Ok vs
          /\ forall v, values_to_tuple vs = Some v -> v ∈ vals)
  /\ (forall meta v z, meta ∈ indexes t -> v ∈ vals -> z ∈ zs ->
        entry_ok (mk_index (im_id meta) v (im_ty meta)) (int_value vt z)).

(** The map of index values while the tuples are deleted. *)
Definition collected (vals : list DataValue) (im : gmap Z (IndexValues (F := F))) : Prop :=
  forall id iv, im !! id = Some iv -> exists meta, meta ∈ indexes t /\ im_id meta = id /\ iv_ty iv = im_ty meta
    /\ column_exprs meta t = Ok (iv_exprs iv) /\ Forall (fun v => v ∈ vals) (iv_values iv).

Lemma collect_index_ok schema input zs vals tuple im meta :
  index_values_ok schema input zs vals -> tuple ∈ input -> meta ∈ indexes t -> collected vals im ->
  exists im', collect_index t schema tuple im meta = Ok im' /\ collected vals im'.
Proof.
  intros [Hex _] Htu Hme Him. unfold collect_index.
  assert (Hput : forall meta' exprs vs v, meta' ∈ indexes t -> im_id meta' = im_id meta -> column_exprs meta' t = Ok exprs ->
            v ∈ vals -> Forall (fun v => v ∈ vals) vs ->
            collected vals (<[im_id meta := mk_index_values exprs (vs ++ [v]) (im_ty meta')]> im)).
  { intros meta' exprs vs v H1 H2 H3 H4 H5 id iv Hl. apply lookup_insert_Some in Hl as [[<- <-] | [_ Hl]]; [| now apply Him].
    exists meta'. repeat split; auto. cbn. apply Forall_app. auto. }
  destruct (im !! im_id meta) as [iv|] eqn:El.
  - destruct (Him _ _ El) as (meta' & H1 & H2 & H3 & H4 & H5).
    destruct (Hex meta' H1) as (exprs & E & Hvs). rewrite H4 in E. apply Ok_inj in E as <-.
    destruct (Hvs tuple Htu) as (vs & -> & Hv). cbn [result_bind]. eexists. split; [reflexivity |].
    destruct (values_to_tuple vs) as [v|]; [| exact Him]. rewrite H3. apply Hput; auto.
  - destruct (Hex meta Hme) as (exprs & E & Hvs). rewrite E. cbn [result_bind].
    destruct (Hvs tuple Htu) as (vs & -> & Hv). cbn [result_bind]. eexists. split; [reflexivity |].
    destruct (values_to_tuple vs) as [v|]; [| exact Him]. apply (Hput meta exprs []); auto.
Qed.

Lemma collect_all_ok schema input zs vals tuple metas im :
  index_values_ok schema input zs vals -> tuple ∈ input -> (forall meta, meta ∈ metas -> meta ∈ indexes t) ->
  collected vals im ->
  exists im', try_fold (collect_index t schema tuple) metas im = Ok im' /\ collected vals im'.
Proof.
  intros Hv Htu. revert im. induction metas as [|meta metas IH]; intros im Hsub Him; [now exists im |].
  destruct (collect_index_ok schema input zs vals tuple im meta Hv Htu (Hsub _ (list_elem_of_here _ _)) Him)
    as (im1 & E1 & Him1). cbn [try_fold]. rewrite E1. cbn [result_bind].
  apply IH; [| exact Him1]. intros meta' Hm. apply Hsub. now apply list_elem_of_further.
Qed.

Lemma delete_tuple_refines schema input zs vals tuple z im s m :
  index_values_ok schema input zs vals -> tuple ∈ input -> z ∈ zs ->
  pk tuple = Some (int_value vt z) -> in_int vt z = true -> collected vals im -> represents s m ->
  exists im' s', delete_tuple order name t schema im tuple s = (Ok im', s')
    /\ collected vals im' /\ represents s' (delete z m).
Proof.
  intros Hv Htu Hzs Htid Hz Him Hrep. unfold delete_tuple.
  destruct (collect_all_ok schema input zs vals tuple (indexes t) im Hv Htu (fun _ H => H) Him) as (im' & E & Him').
  unfold lift at 1. rewrite (bind_ok _ _ s im' s) by now rewrite E. rewrite Htid.
  assert (Hloop : exists s1, for_each (fun entry => for_each (fun value =>
      del_index name (mk_index entry.1 value (iv_ty entry.2)) (int_value vt z)) (iv_values entry.2)) (order im') s
      = (Ok tt, s1) /\ represents s1 m).
  { apply for_each_keeps; [| exact Hrep]. intros [id iv] s0 Hin Hrep0. rewrite Horder, elem_of_map_to_list in Hin.
    destruct (Him' id iv Hin) as (meta & H1 & <- & H3 & _ & H5). cbn [fst snd].
    apply for_each_keeps; [| exact Hrep0]. intros v s2 Hvin Hrep2. apply del_index_keeps; [exact Hrep2 |].
    rewrite H3. apply (proj2 Hv); [exact H1 | | exact Hzs]. now apply (proj1 (Forall_forall _ _) H5). }
  destruct Hloop as (s1 & E1 & Hrep1).
  destruct (run_op_refines name vt tys pki Hvt (Delete z) s1 m Hz Hrep1) as (s2 & E2 & Hrep2).
  exists im', s2. split; [| split; [exact Him' | exact Hrep2]].
  unfold bind at 1. unfold bind at 1. rewrite E1. change (remove_tuple name (int_value vt z) s1) with (run_op name vt tys (Delete z) s1).
  now rewrite E2.
Qed.

(** C6. DELETE refines deletion from a finite map, on a table with one integer
    primary key and no UNIQUE index: it succeeds and removes the rows with the
    keys of its input, and no other, in whatever order the map of index values is
    walked.  The indexed values of the tuples can be computed, and the entries of
    these values with the keys can be encoded. *)
Theorem delete_refines_map schema input zs vals s m s1 :
  table name s = (Ok (Some t), s1) -> represents s m ->
  Forall2 (fun tuple z => pk tuple = Some (int_value vt z) /\ in_int vt z = true) input zs ->
  index_values_ok schema input zs vals ->
  exists s', delete_exec order name schema (map Ok input) s = (Ok [build_result (str "1")], s')
    /\ represents s' (foldr delete m (rev zs)).
Proof.
  intros Ht Hrep Hin Hv. unfold delete_exec. rewrite (bind_ok _ _ _ _ _ Ht). unfold lift at 1.
  rewrite (bind_ok _ _ s1 t s1) by reflexivity.
  assert (Hgen : forall input' zs' im s m, Forall2 (fun tuple z => pk tuple = Some (int_value vt z) /\ in_int vt z = true) input' zs' ->
    (forall x, x ∈ input' -> x ∈ input) -> (forall z, z ∈ zs' -> z ∈ zs) -> collected vals im -> represents s m ->
    exists s', delete_all_tuples order name t schema im (map Ok input') s = (Ok tt, s') /\ represents s' (foldr delete m (rev zs'))).
  { clear Hin Hrep Ht s m s1. intros input' zs' im s m H. revert im s m.
    induction H as [|tuple z input' zs' [Htid Hz] _ IH]; intros im s m Hsub1 Hsub2 Him Hrep; cbn [map delete_all_tuples]; [now exists s |].
    unfold lift at 1. rewrite (bind_ok _ _ s tuple s) by reflexivity.
    destruct (delete_tuple_refines schema input zs vals tuple z im s m) as (im1 & s1 & E1 & Him1 & Hrep1);
      try assumption; [apply Hsub1, list_elem_of_here | apply Hsub2, list_elem_of_here |].
    rewrite (bind_ok _ _ _ _ _ E1). cbn [rev]. rewrite foldr_app. cbn [foldr].
    apply (IH im1); auto; intros; [apply Hsub1 | apply Hsub2]; now apply list_elem_of_further. }
  destruct (Hgen input zs ∅ s1 m Hin) as (s' & E & Hrep'); auto.
  - intros id iv Hl. now rewrite lookup_empty in Hl.
  - eapply represents_tx; [exact Hrep | exact (table_tx _ _ _ _ Ht)].
  - exists s'. now rewrite (bind_ok _ _ _ _ _ E).
Qed.
End DmlRows.

(** ** What the statements get wrong *)

Section Counterexamples.
Context {F : Foreign} {C : CastForeign} {TF : TextForeign} {EF : ExprForeign}.
Import RefExpr.

(** A table "t" with the key [a] and the column [b], and an index on [b]. *)
Definition key_column : ColumnCatalog (SE.ScalarExpression F) :=
  mk_column (mk_summary [97] (TableRelation [97] [116] false)) false (mk_desc LT.Integer (Some 0%nat) false None) false.
Definition b_column : ColumnCatalog (SE.ScalarExpression F) := column 98 LT.Integer.
Definition b_index : IndexMeta := mk_index_meta 1 [[98]] [116] LT.Integer LT.Integer [105] Normal.
Definition ab_table : TableCatalog (SE.ScalarExpression F) :=
  mk_table [116] {[ [97] := ([97], 0%nat); [98] := ([98], 1%nat) ]} {[ [97] := 0%nat; [98] := 1%nat ]} [b_index]
    [key_column; b_column] [(0%nat, key_column)] [0%nat] (Some LT.Integer).

(** Index entries and assignments that are not those of the statement:
    INSERT INTO t (b, a) VALUES (20, 1) builds the row (1, 20) but reads the
    value of the index on [b] at the position [b] has in the statement, so that
    the index gets 1; UPDATE t SET a = b, b = a on (1, 2) gives (2, 2), because
    the second assignment reads what the first wrote. *)
Lemma dml_misplaced_values :
  (result_bind (fill_map true [b_column; key_column] [DV.Int32 20; DV.Int32 1] ∅) (fill_row true (schema_ref ab_table))
     = Ok [DV.Int32 1; DV.Int32 20]
   /\ index_metas ab_table = Ok [(b_index, [SE.ColumnRef b_column])]
   /\ index_entry (mk_tuple (Some (DV.Int32 1)) [DV.Int32 1; DV.Int32 20]) [b_column; key_column]
        (b_index, [SE.ColumnRef b_column]) = Ok (Some (mk_index 1 (DV.Int32 1) Normal)))
  /\ assign 0 [key_column; b_column]
       (value_map [(key_column, SE.ColumnRef b_column); (b_column, SE.ColumnRef key_column)])
       [key_column; b_column] (mk_tuple (Some (DV.Int32 1)) [DV.Int32 1; DV.Int32 2])
     = Ok (mk_tuple (Some (DV.Int32 1)) [DV.Int32 2; DV.Int32 2]).
Proof. repeat split. Qed.
End Counterexamples.

(** Inserting never removes a key, so the entries that indexes have of a row that
    INSERT OVERWRITE replaces stay. *)
Section Overwrite.
Context {F : Foreign} {C : CastForeign} {TF : TextForeign} {EF : ExprForeign}.
Context {T : Type} {TX : Transaction T} {TL : TransactionLaws T}.
Context {V TC VC MC : Type}.
Abbreviation Expr := (SE.ScalarExpression F).
Context {CT : Cache bytes (TableCatalog Expr) TC} {Codec : CatalogCodec Expr V T TC}.
#[local] Abbreviation Db := (Db T TC VC MC).

Definition keeps_keys {A} (act : M T TC VC MC A) : Prop :=
  forall s r s', act s = (r, s') -> forall k, is_Some (contents (tx s) !! k) -> is_Some (contents (tx s') !! k).

Lemma keeps_bind {A B} (act : M T TC VC MC A) (k : A -> M T TC VC MC B) :
  keeps_keys act -> (forall a, keeps_keys (k a)) -> keeps_keys (bind act k).
Proof.
  intros Ha Hk s r s' H key Hkey. unfold bind in H. destruct (act s) as [[a|e|] s1] eqn:E.
  - eapply Hk; [exact H |]. eapply Ha; eassumption.
  - injection H as _ <-. eapply Ha; eassumption.
  - injection H as _ <-. eapply Ha; eassumption.
Qed.
Lemma keeps_lift {A} (r : Result A) : keeps_keys (lift r).
Proof. intros s r' s' [= _ <-]. auto. Qed.
Lemma keeps_get key : keeps_keys (get key).
Proof. intros s r s' [= _ <-]. auto. Qed.
Lemma keeps_set key value : keeps_keys (set key value).
Proof.
  intros s r s' H k Hk. destruct (set_run key value s) as (s1 & E & _ & Hc). rewrite E in H. injection H as _ <-.
  rewrite Hc. destruct (decide (key = k)) as [<- | Hne]; [rewrite lookup_insert_eq; eauto | now rewrite lookup_insert_ne].
Qed.
Lemma keeps_for_each {A} (f : A -> M T TC VC MC unit) l : (forall x, keeps_keys (f x)) -> keeps_keys (for_each f l).
Proof. intros Hf. induction l as [|x l IH]; cbn [for_each]; [apply keeps_lift | now apply keeps_bind]. Qed.

Lemma keeps_add_index name index tid : keeps_keys (add_index name index tid).
Proof.
  unfold add_index. destruct (is_primary_key _); [apply keeps_lift |]. apply keeps_bind; [apply keeps_lift |].
  intros [key value]. destruct (index_ty index); try apply keeps_set.
  apply keeps_bind; [apply keeps_get |]. intros [bs|]; [| apply keeps_set].
  destruct (bool_decide _); apply keeps_lift.
Qed.

(** INSERT OVERWRITE leaves the index entries of the row it replaces: no
    insertion removes any key of the store, so an entry of the replaced row with
    another value of the indexed column stays and points to the new row. *)
Theorem insert_keeps_entries name t metas schema ow by_name vs (s : Db) r (s' : Db) :
  insert_tuple name t metas schema ow by_name vs s = (r, s') ->
  forall index tid k, encode_index_key name index tid = Ok k ->
    is_Some (contents (tx s) !! k) -> is_Some (contents (tx s') !! k).
Proof.
  intros H index tid k _. revert s r s' H k. change (keeps_keys (insert_tuple name t metas schema ow by_name vs)).
  unfold insert_tuple. repeat (apply keeps_bind; [apply keeps_lift | intros ?]).
  apply keeps_bind; [apply keeps_for_each; intros meta | intros _].
  - apply keeps_bind; [apply keeps_lift |]. intros [index'|]; [apply keeps_add_index | apply keeps_lift].
  - unfold append_tuple. apply keeps_bind; [apply keeps_lift |]. intros [key value].
    apply keeps_bind; [destruct ow; [apply keeps_lift | apply keeps_bind; [apply keeps_get | intros; apply keeps_lift]] |].
    intros []; [apply keeps_lift | apply keeps_set].
Qed.
End Overwrite.

(** ** Witnesses: a database with the table above *)

Module RefDml.
Section RefDml.
#[local] Existing Instance RefForeign.ref_foreign.
#[local] Existing Instance RefForeign.ref_laws.
#[local] Existing Instance RefCast.ref_cast.
#[local] Existing Instance RefExpr.ref_text.
#[local] Existing Instance RefExpr.ref_expr.
Abbreviation Expr := (SE.ScalarExpression RefForeign.ref_foreign).
Abbreviation Shards := (list (LruCache (list Z) (TableCatalog Expr))).
#[global] Instance table_shards : Cache (list Z) (TableCatalog Expr) Shards := shared_lru (fun _ => 0).
#[global] Instance table_shards_laws : CacheLaws (list Z) (TableCatalog Expr) Shards := shared_lru_laws (fun _ => 0).

#[global] Instance expr_codec : CatalogCodec Expr (list Z) store Shards := {|
  ser_column c := Ok (column_name c);
  de_column name b :=
    Ok (mk_column (mk_summary b (TableRelation b name false)) true
          (mk_desc LT.Integer (Some 0%nat) false None) false);
  ser_index_meta m := Ok (le_bytes 4 (im_id m));
  de_index_meta b :=
    Ok (mk_index_meta (of_le b) [] [] LT.Integer LT.Integer b (PrimaryKey false));
  ser_table_meta name := Ok name;
  de_table_meta b := Ok b;
  view_name v := v;
  ser_view v := Ok v;
  de_view b _ tc := (Ok b, tc);
  bincode _ := [];
  unbincode _ := Ok DV.Null
|}.

Abbreviation Db := (Db store Shards (list (LruCache (list Z) (list Z))) unit).
Abbreviation ab := (ab_table (F := RefForeign.ref_foreign)).

(** The table in the cache, no rows. *)
Lemma fresh_table : exists s s1 : Db, table [116] s = (Ok (Some ab), s1)
  /\ represents [116] VT.Int32 [LT.Integer; LT.Integer] 0 s ∅ /\ cache_ok (table_cache s1)
  /\ db_ok s /\ cached (table_cache s) [116] = Some ab.
Proof.
  destruct (cache_put_ok (CacheLaws := table_shards_laws) RefStore.empty_shards [116] ab RefStore.empty_shards_ok)
    as (old & c & _ & Hc & Ht & _).
  set (s := mk_db (∅ : store) c (RefStore.empty_shards : list (LruCache (list Z) (list Z))) tt : Db).
  assert (Hok : db_ok s).
  { split; [intros k v H; change ((∅ : store) !! k = Some v) in H; now rewrite lookup_empty in H |]. split; [exact Hc | exact RefStore.empty_shards_ok]. }
  destruct (table_hit [116] s ab Hok Ht) as (s1 & Hhit & _ & (_ & Hc1 & _) & _). exists s, s1. split; [exact Hhit |].
  split; [| split; [exact Hc1 | split; [exact Hok | exact Ht]]].
  split; [apply map_Forall_empty | exact (proj1 Hok) |].
  intros k v _. split; [intros H; change ((∅ : store) !! k = Some v) in H; now rewrite lookup_empty in H |].
  intros (z & r & H & _). now rewrite lookup_empty in H.
Qed.

Lemma ab_row_ok a b : in_i 32 a = true -> in_i 32 b = true ->
  row_ok VT.Int32 [LT.Integer; LT.Integer] 0 a [DV.Int32 a; DV.Int32 b].
Proof.
  intros Ha Hb. split; [exact Ha |]. split; [| reflexivity].
  apply Forall2_cons. split; [right; exact Ha |]. apply Forall2_cons. split; [right; exact Hb | constructor].
Qed.

(** The table in the cache, with the row (5, 7). *)
Lemma one_row : exists s : Db, represents [116] VT.Int32 [LT.Integer; LT.Integer] 0 s {[ 5 := [DV.Int32 5; DV.Int32 7] ]}
  /\ db_ok s /\ cached (table_cache s) [116] = Some ab.
Proof.
  destruct fresh_table as (s & _ & _ & Hrep & _ & Hok & Ht).
  assert (Hrow : row_ok VT.Int32 [LT.Integer; LT.Integer] 0 5 [DV.Int32 5; DV.Int32 7]) by now apply ab_row_ok.
  destruct (row_stored VT.Int32 [LT.Integer; LT.Integer] 0 5 _ Hrow) as (bs & Hb & _).
  destruct (set_run (row_key [116] VT.Int32 5) bs s) as (s1 & _ & W). exists s1.
  assert (Hrep1 : represents [116] VT.Int32 [LT.Integer; LT.Integer] 0 s1 {[ 5 := [DV.Int32 5; DV.Int32 7] ]})
    by exact (represents_insert [116] VT.Int32 [LT.Integer; LT.Integer] 0 eq_refl s ∅ 5 _ bs s1 Hrep Hrow Hb W).
  split; [exact Hrep1 |]. pose proof (wrote_caches _ _ _ W) as (Hc & _). split; [| now rewrite Hc].
  eapply wrote_ok; [exact Hok | exact W |]. destruct W as [_ <-]. exact (rep_keys _ _ _ _ _ _ Hrep1).
Qed.

(** Entries of the index on integers. *)
Lemma b_entry_ok v z : entry_ok [116] (mk_index 1 (DV.Int32 v) Normal) (DV.Int32 z).
Proof.
  right. split; [discriminate |]. unfold encode_index_key, encode_index_bound_key. cbn [index_value index_ty index_id].
  rewrite memcomparable_encode_fixed by reflexivity. cbn [result_bind].
  rewrite memcomparable_encode_fixed by reflexivity. eexists. split; [reflexivity |].
  unfold key_prefix, hash_bytes, BOUND_MIN_TAG. repeat apply Forall_app_2; try apply le_bytes_is_bytes;
    try apply be_bytes_is_bytes; repeat constructor; unfold is_byte; lia.
Qed.
End RefDml.
End RefDml.

Section Witnesses.
#[local] Existing Instance RefForeign.ref_foreign.
#[local] Existing Instance RefForeign.ref_laws.
#[local] Existing Instance RefCast.ref_cast.
Import RefExpr RefDml.
Abbreviation WDb := (Storage.Db store (list (LruCache (list Z) (TableCatalog (SE.ScalarExpression RefForeign.ref_foreign))))
  (list (LruCache (list Z) (list Z))) unit).
Abbreviation ab := (ab_table (F := RefForeign.ref_foreign)).
Abbreviation rep := (represents [116] VT.Int32 [LT.Integer; LT.Integer] 0).
Abbreviation metas := [(b_index, [SE.ColumnRef b_column])].

Lemma b_entries_ok a b z : entries_ok [116] metas [key_column; b_column]
  (mk_tuple (Some (DV.Int32 z)) [DV.Int32 a; DV.Int32 b]) (DV.Int32 z).
Proof. repeat constructor. eexists. split; [reflexivity |]. intros index [= <-]. apply b_entry_ok. Qed.


Lemma update_refines_map_witness :
  exists s s' : WDb, update_exec [116] [(b_column, SE.Constant (DV.Int32 9))] [key_column; b_column]
      [Ok (mk_tuple (Some (DV.Int32 5)) [DV.Int32 5; DV.Int32 7])] s
      = (Ok [build_result (str "1")], s') /\ rep s' {[ 5 := [DV.Int32 5; DV.Int32 9] ]}.
Proof.
  destruct fresh_table as (s & s1 & Ht & Hrep & _). exists s.
  refine (update_refines_map [116] ab VT.Int32 0 eq_refl eq_refl [(b_column, SE.Constant (DV.Int32 9))]
    [key_column; b_column] [mk_tuple (Some (DV.Int32 5)) [DV.Int32 5; DV.Int32 7]] [(5, 5, [DV.Int32 5; DV.Int32 9])]
    metas s ∅ s1 eq_refl Ht eq_refl _ Hrep).
  constructor; [| constructor]. split; [reflexivity |]. split; [reflexivity |]. split; [apply b_entries_ok |].
  split; [| split; [now apply ab_row_ok | apply b_entries_ok]].
  split; [reflexivity |]. split; [reflexivity |]. intros [|[|i]] col Hcol; try discriminate Hcol; injection Hcol as <-; split.
  - intros expr He%last_given_in. exfalso. revert He. apply (bool_decide_unpack _). reflexivity.
  - reflexivity.
  - intros expr ([|? [|]] & ? & [= <- <-] & _). exists (DV.Int32 9). split; reflexivity.
  - intros Hn. destruct Hn. apply list_elem_of_here.
Defined.

Lemma delete_refines_map_witness :
  exists s s' : WDb, delete_exec map_to_list [116] [key_column; b_column]
      [Ok (mk_tuple (Some (DV.Int32 5)) [DV.Int32 5; DV.Int32 7])] s
      = (Ok [build_result (str "1")], s') /\ rep s' (delete 5 ∅).
Proof.
  destruct fresh_table as (s & s1 & Ht & Hrep & _). exists s.
  refine (delete_refines_map [116] ab VT.Int32 0 eq_refl map_to_list (fun _ => Permutation_refl _)
    [key_column; b_column] [mk_tuple (Some (DV.Int32 5)) [DV.Int32 5; DV.Int32 7]] [5] [DV.Int32 7] s ∅ s1 Ht Hrep _ _).
  { constructor; [split; reflexivity | constructor]. }
  split.
  - intros meta ->%list_elem_of_singleton. eexists. split; [reflexivity |].
    intros tuple ->%list_elem_of_singleton. eexists. split; [reflexivity |]. intros v [= <-]. apply list_elem_of_here.
  - intros meta v z ->%list_elem_of_singleton ->%list_elem_of_singleton _. apply b_entry_ok.
Defined.
End Witnesses.
