(* ===== verification/Ddl.v ===== *)
(** * Statements on tables, indexes and views

    The executors of src/src/execution/ddl/, and those of src/src/execution/dql/
    that list the catalog.  Each yields the results in the list it returns. *)

From stdpp Require Import gmap.
From S2P Require Import Prelude Bytes Types LogicalTypes Values Floats Evaluators Cast Memcomparable.
From S2P Require Import TupleCodec TableCodec KvStore Lru Cache Catalog Storage Readers TableStore.
From S2P Require Import Text Expression ExprTyping Executors Dml.

Section Ddl.
Context {F : Foreign} {C : CastForeign} {TF : TextForeign} {EF : ExprForeign}.
Context {T : Type} {TX : Transaction T}.
Context {V St : Type} {TC VC MC : Type}.
Abbreviation Expr := (SE.ScalarExpression F).
Abbreviation Column := (ColumnCatalog Expr).
Context {CT : Cache bytes (TableCatalog Expr) TC} {CV : Cache bytes V VC} {CM : Cache (bytes * Z) St MC}.
Context {Codec : CatalogCodec Expr V T TC}.
Abbreviation Tuple := (TupleCodec.Tuple F).
Abbreviation Stream := (list (Result Tuple)).
#[local] Abbreviation M := (M T TC VC MC).

Definition create_table_exec (generator : Generator) (table_name : bytes) (columns : list Column)
    (if_not_exists : bool) : M (list Tuple) :=
  let! _ := create_table generator table_name columns if_not_exists in
  ret [build_result table_name].
Definition create_view_exec (v : V) (or_replace : bool) : M (list Tuple) :=
  let! _ := create_view v or_replace in
  ret [build_result (view_name v)].
Definition drop_table_exec (table_name : bytes) (if_exists : bool) : M (list Tuple) :=
  let! _ := drop_table table_name if_exists in
  ret [build_result table_name].
Definition drop_view_exec (name : bytes) (if_exists : bool) : M (list Tuple) :=
  let! _ := drop_view name if_exists in
  ret [build_result name].
Definition drop_index_exec (table_name index_name : bytes) (if_exists : bool) : M (list Tuple) :=
  let! _ := drop_index table_name index_name if_exists in
  ret [build_result index_name].
Definition truncate_exec (table_name : bytes) : M (list Tuple) :=
  let! _ := drop_data table_name in
  ret [build_result table_name].

(** *** CREATE INDEX *)

(** The entry of a tuple, if it has a key and a value. *)
Definition index_tuple (table_name : bytes) (index_id : Z) (ty : IndexType) (exprs : list Expr)
    (schema : list Column) (tuple : Tuple) : M unit :=
  let! values := lift (projection tuple exprs schema) in
  match values_to_tuple values with
  | None => ret tt
  | Some value =>
      match pk tuple with
      | None => ret tt
      | Some tuple_id => add_index table_name (mk_index index_id value ty) tuple_id
      end
  end.

Definition create_index_exec (table_name index_name : bytes) (columns : list Column) (if_not_exists : bool)
    (ty : IndexType) (schema : list Column) (input : Stream) : M (list Tuple) :=
  let with_id := omap (fun column => option_map (fun id => (id, SE.ColumnRef column)) (column_id column)) columns in
  fun s =>
    match add_index_meta table_name index_name (map fst with_id) ty s with
    | (Err (DuplicateIndex index_name), s) =>
        if if_not_exists then (Ok [], s) else (Err (DuplicateIndex index_name), s)
    | (Err e, s) => (Err e, s)
    | (Panic, s) => (Panic, s)
    | (Ok index_id, s) =>
        (let! _ := for_each (fun tuple =>
           let! tuple := lift tuple in
           index_tuple table_name index_id ty (map snd with_id) schema tuple) input in
         done) s
    end.

(** *** ALTER TABLE *)

(** A row with the value of the new column, and the values of a unique one. *)
Definition extend_tuple (column : Column) (st : list (TupleId * DataValue) * list Tuple) (tuple : Tuple)
  : Result (list (TupleId * DataValue) * list Tuple) :=
  let '(unique_values, tuples) := st in
  let? d := default_value column in
  match d with
  | Some value =>
      let? unique_values :=
        if is_unique (desc column) then
          let? tuple_id := ok_or (pk tuple) PrimaryKeyNotFound in
          Ok (unique_values ++ [(tuple_id, value)])
        else Ok unique_values in
      Ok (unique_values, tuples ++ [mk_tuple (pk tuple) (values tuple ++ [value])])
  | None => Ok (unique_values, tuples ++ [mk_tuple (pk tuple) (values tuple ++ [DV.Null])])
  end.

Definition add_column_exec (generator : Generator) (table_name : bytes) (column : Column) (if_not_exists : bool)
    (schema : list Column) (input : Stream) : M (list Tuple) :=
  let types := map datatype schema ++ [datatype column] in
  let! '(unique_values, tuples) := lift (try_fold (fun st tuple =>
    let? tuple := tuple in extend_tuple column st tuple) input ([], [])) in
  let! _ := for_each (fun tuple => append_tuple table_name tuple types true) tuples in
  let! col_id := add_column generator table_name column if_not_exists in
  let! found := table table_name in
  let! unique_meta := lift (match found with Some table => get_unique_index table col_id | None => Ok None end) in
  let! _ :=
    match unique_meta with
    | Some unique_meta =>
        if is_unique (desc column) then
          for_each (fun iv => add_index table_name (mk_index (im_id unique_meta) iv.2 Unique) iv.1) unique_values
        else ret tt
    | None => ret tt
    end in
  done.

(** [Vec::remove]. *)
Definition remove_value (i : nat) (tuple : Tuple) : Result Tuple :=
  if (i <? length (values tuple))%nat
  then Ok (mk_tuple (pk tuple) (take i (values tuple) ++ drop (S i) (values tuple))) else Panic.

Fixpoint find_index (i : nat) (name : bytes) (columns : list Column) : option (nat * bool) :=
  match columns with
  | [] => None
  | column :: columns =>
      if bool_decide (column_name column = name)
      then Some (i, match primary (desc column) with Some _ => true | None => false end)
      else find_index (S i) name columns
  end.

Definition drop_column_exec (table_name name : bytes) (if_exists : bool) (schema : list Column) (input : Stream)
  : M (list Tuple) :=
  match find_index 0 name schema with
  | Some (column_index, is_primary) =>
      if is_primary then fail (InvalidColumn (str "drop of primary key column is not allowed."))
      else
        let types := map datatype (take column_index schema ++ drop (S column_index) schema) in
        let! tuples := lift (try_map (fun tuple => let? tuple := tuple in remove_value column_index tuple) input) in
        let! _ := for_each (fun tuple => append_tuple table_name tuple types true) tuples in
        let! _ := drop_column table_name name in
        done
  | None => if if_exists then ret [] else fail (ColumnNotFound name)
  end.

(** *** Listing the catalog *)

Definition show_tables : M (list Tuple) :=
  let! metas := table_metas in
  ret (map (fun table_name => mk_tuple None [text_value table_name]) metas).
Definition show_views : M (list Tuple) :=
  let! metas := views in
  ret (map (fun v => mk_tuple None [text_value (view_name v)]) metas).

Definition key_type (column : Column) : DataValue :=
  text_value (match primary (desc column) with
              | Some _ => str "PRIMARY"
              | None => if is_unique (desc column) then str "UNIQUE" else str "EMPTY"
              end).
Definition describe_column (column : Column) : Result Tuple :=
  let? default := match col_default (desc column) with Some expr => output_name expr | None => Ok (str "null") end in
  let? len := raw_len (datatype column) in
  Ok (mk_tuple None
    [text_value (column_name column); text_value (type_display (datatype column));
     text_value (match len with Some len => show_int len | None => str "variable" end);
     text_value (if nullable column then str "true" else str "false");
     key_type column; text_value default]).
Definition describe (table_name : bytes) : M (list Tuple) :=
  let! found := table table_name in
  let! table := lift (ok_or found TableNotFound) in
  lift (try_map describe_column (schema_ref table)).
End Ddl.

(** ** A new index *)

Section CreateIndex.
Context {F : Foreign} {FL : ForeignLaws F} {C : CastForeign} {TF : TextForeign} {EF : ExprForeign}.
Context {T : Type} {TX : Transaction T} {TL : TransactionLaws T}.
Context {V TC VC MC : Type}.
Abbreviation Expr := (SE.ScalarExpression F).
Abbreviation Column := (ColumnCatalog Expr).
Context {CT : Cache bytes (TableCatalog Expr) TC} {Codec : CatalogCodec Expr V T TC}.
Abbreviation Tuple := (TupleCodec.Tuple F).
#[local] Abbreviation Db := (Db T TC VC MC).
Implicit Types s : Db.

Variables (name : bytes) (ty : IndexType) (exprs : list Expr) (schema : list Column).
Hypothesis Hty : ty = Normal \/ ty = Composite.

(** The key a tuple has in the index, [None] when it has none. *)
Definition index_key_of (id : Z) (tuple : Tuple) : Result (option bytes) :=
  let? vs := projection tuple exprs schema in
  match values_to_tuple vs, pk tuple with
  | Some value, Some tid => let? k := encode_index_key name (mk_index id value ty) (Some tid) in Ok (Some k)
  | _, _ => Ok None
  end.

Lemma index_tuple_run id tuple o s : index_key_of id tuple = Ok o ->
  exists s', index_tuple name id ty exprs schema tuple s = (Ok tt, s')
    /\ match o with
       | None => s' = s
       | Some k => exists v, contents (tx s') = <[k := v]> (contents (tx s)) /\ in_scope CodecType.Index name k
       end.
Proof.
  unfold index_key_of, index_tuple. intros (vs & Hvs & H)%result_bind_ok.
  unfold lift at 1. rewrite (bind_ok _ _ s vs s) by now rewrite Hvs.
  destruct (values_to_tuple vs) as [value|]; [| apply Ok_inj in H as <-; now exists s].
  destruct (pk tuple) as [tid|]; [| apply Ok_inj in H as <-; now exists s].
  apply result_bind_ok in H as (k & Hk & [= <-]).
  unfold add_index. cbn [index_ty]. replace (is_primary_key ty) with false by now destruct Hty as [-> | ->].
  unfold lift, encode_index. rewrite (bind_ok _ _ s (k, bincode tid) s) by now rewrite Hk.
  destruct (set_run k (bincode tid) s) as (s' & Hs & _ & Hc). exists s'.
  split; [now destruct Hty as [-> | ->] |]. exists (bincode tid). split; [exact Hc |].
  apply index_key_extends in Hk as [u ->]. apply in_bound_within, in_bound_prefix.
Qed.

Lemma index_all_run id input s : Forall (fun tuple => exists o, index_key_of id tuple = Ok o) input ->
  exists s', for_each (fun tuple => let! tuple := lift tuple in index_tuple name id ty exprs schema tuple) (map Ok input) s
      = (Ok tt, s')
    /\ (forall k, is_Some (contents (tx s) !! k) -> is_Some (contents (tx s') !! k))
    /\ (forall tuple k, tuple ∈ input -> index_key_of id tuple = Ok (Some k) -> is_Some (contents (tx s') !! k))
    /\ (forall k, ~ in_scope CodecType.Index name k -> contents (tx s') !! k = contents (tx s) !! k).
Proof.
  intros H. revert s. induction H as [|tuple input [o Ho] _ IH]; intros s; cbn [map for_each].
  - exists s. split; [reflexivity |]. split; [auto |]. split; [now intros ? ? ?%elem_of_nil | auto].
  - destruct (index_tuple_run id tuple o s Ho) as (s1 & E1 & H1).
    destruct (IH s1) as (s2 & E2 & Hkeep & Hin & Hout).
    assert (E : (let! tuple := lift (Ok tuple) in index_tuple name id ty exprs schema tuple) s = (Ok tt, s1))
      by exact E1.
    exists s2. split; [rewrite (bind_ok _ _ _ _ _ E); exact E2 |].
    destruct o as [k|].
    + destruct H1 as (v & Hc & Hk).
      assert (Hmono : forall k', is_Some (contents (tx s) !! k') -> is_Some (contents (tx s1) !! k')).
      { intros k' Hk'. rewrite Hc. destruct (decide (k = k')) as [<- | Hne];
          [rewrite lookup_insert_eq; eauto | now rewrite lookup_insert_ne]. }
      split; [auto |]. split.
      * intros tuple' k' [-> | Htu]%elem_of_cons Hk'; [| now apply (Hin tuple')]. apply Hkeep. rewrite Hc.
        rewrite Hk' in Ho. apply Ok_inj in Ho as [= ->]. rewrite lookup_insert_eq. eauto.
      * intros k' Hk'. rewrite Hout by exact Hk'. rewrite Hc, lookup_insert_ne by congruence. reflexivity.
    + subst s1. split; [auto |]. split; [| exact Hout].
      intros tuple' k' [-> | Htu]%elem_of_cons Hk'; [congruence | now apply (Hin tuple')].
Qed.
End CreateIndex.

Section CreateIndexExec.
Context {F : Foreign} {FL : ForeignLaws F} {C : CastForeign} {TF : TextForeign} {EF : ExprForeign}.
Context {T : Type} {TX : Transaction T} {TL : TransactionLaws T}.
Context {V TC VC MC : Type}.
Context {CT : Cache bytes (TableCatalog (SE.ScalarExpression F)) TC} {Codec : CatalogCodec (SE.ScalarExpression F) V T TC}.
#[local] Abbreviation Db := (Db T TC VC MC).

(** C14. CREATE INDEX on columns with ids indexes every row: after the
    description of a non-unique index is stored, every tuple of the input that
    has a value and a key has its entry in the store, and nothing outside of the
    index entries of the table changes. *)
Theorem create_index_complete name index_name columns if_not_exists ty schema input id (s s1 : Db) :
  ty = Normal \/ ty = Composite -> Forall (fun c => is_Some (column_id c)) columns ->
  add_index_meta name index_name (omap column_id columns) ty s = (Ok id, s1) ->
  Forall (fun tuple => exists o, index_key_of name ty (map SE.ColumnRef columns) schema id tuple = Ok o) input ->
  exists s', create_index_exec name index_name columns if_not_exists ty schema (map Ok input) s
      = (Ok [build_result (str "1")], s')
    /\ (forall tuple k, tuple ∈ input -> index_key_of name ty (map SE.ColumnRef columns) schema id tuple = Ok (Some k) ->
          is_Some (contents (tx s') !! k))
    /\ (forall k, ~ in_scope CodecType.Index name k -> contents (tx s') !! k = contents (tx s1) !! k).
Proof.
  intros Hty Hcols Hmeta Hin. unfold create_index_exec.
  set (with_id := omap (fun column => option_map (fun id => (id, SE.ColumnRef column)) (column_id column)) columns).
  assert (H1 : map fst with_id = omap column_id columns /\ map snd with_id = map SE.ColumnRef columns).
  { subst with_id. clear Hmeta Hin. induction Hcols as [|c columns [cid Hc] _ [IH1 IH2]]; [easy |].
    cbn. rewrite Hc. cbn. now rewrite IH1, IH2. }
  destruct H1 as [-> ->]. rewrite Hmeta.
  destruct (index_all_run name ty (map SE.ColumnRef columns) schema Hty id input s1 Hin) as (s' & E & _ & H2 & H3).
  exists s'. rewrite (bind_ok _ _ _ _ _ E). auto.
Qed.
End CreateIndexExec.

(** ** Rewriting the rows of a table *)

Section AlterRows.
Context {F : Foreign} {FL : ForeignLaws F} {C : CastForeign} {TF : TextForeign} {EF : ExprForeign}.
Context {T : Type} {TX : Transaction T} {TL : TransactionLaws T}.
Context {V St TC VC MC : Type} {CM : Cache (bytes * Z) St MC}.
Abbreviation Expr := (SE.ScalarExpression F).
Abbreviation Column := (ColumnCatalog Expr).
Context {CT : Cache bytes (TableCatalog Expr) TC} {CTL : CacheLaws bytes (TableCatalog Expr) TC}.
Context {CV : Cache bytes V VC} {CVL : CacheLaws bytes V VC} {Codec : CatalogCodec Expr V T TC}.
Abbreviation Tuple := (TupleCodec.Tuple F).
#[local] Abbreviation Db := (Db T TC VC MC).
#[local] Abbreviation M := (M T TC VC MC).
Implicit Types (s : Db) (m : rows).

(** The table: its name, the type and position of its key, its column types. *)
Variables (name : bytes) (vt : ValueType) (tys : list LogicalType) (pki : nat).
Hypothesis Hvt : pk_vt vt = true.

(** The tuples a scan of the table yields, in any order. *)
Definition scanned m (input : list Tuple) : Prop :=
  input ≡ₚ map (fun e => row_tuple vt e.1 e.2) (map_to_list m).

(** *** Steps that keep to other keys *)

(** A step that leaves the keys of [keep] as they are. *)
Definition spares (keep : bytes -> Prop) {A} (act : M A) : Prop :=
  forall s r s', keys_ok (contents (tx s)) -> act s = (r, s') ->
    keys_ok (contents (tx s')) /\ forall k, keep k -> contents (tx s') !! k = contents (tx s) !! k.
Definition spares_rows {A} (act : M A) : Prop := spares (in_scope CodecType.Tuple name) act.

Lemma spares_represents {A} (act : M A) tys' pki' s m r s' : spares_rows act ->
  represents name vt tys' pki' s m -> act s = (r, s') -> represents name vt tys' pki' s' m.
Proof.
  intros Hact [Hm Hk Hs] E. destruct (Hact s r s' Hk E) as [Hk' Hsame]. split; [exact Hm | exact Hk' |].
  intros k v Hin. rewrite Hsame by exact Hin. now apply Hs.
Qed.

Lemma spares_pure keep {A} (act : M A) : (forall s, tx (act s).2 = tx s) -> spares keep act.
Proof. intros Hact s r s' Hk E. specialize (Hact s). rewrite E in Hact. cbn in Hact. now rewrite Hact. Qed.

Lemma spares_bind keep {A B} (act : M A) (k : A -> M B) :
  spares keep act -> (forall a, spares keep (k a)) -> spares keep (bind act k).
Proof.
  intros Ha Hk s r s' Hok H. unfold bind in H. destruct (act s) as [[a|e|] s1] eqn:E;
    destruct (Ha _ _ _ Hok E) as [Hok1 H1]; [| injection H as _ <-; auto ..].
  destruct (Hk a _ _ _ Hok1 H) as [Hok2 H2]. split; [exact Hok2 |]. intros key Hin. now rewrite H2, H1.
Qed.

Lemma spares_lift keep {A} (r : Result A) : spares keep (lift r).
Proof. now apply spares_pure. Qed.

(** A step on a value that has been computed. *)
Lemma spares_lift_bind keep {A B} (r : Result A) (k : A -> M B) :
  (forall a, r = Ok a -> spares keep (k a)) -> spares keep (bind (lift r) k).
Proof.
  intros Hk s r' s' Hok H. unfold bind, lift in H. destruct r as [a|e|]; [| injection H as _ <-; auto ..].
  exact (Hk a eq_refl s r' s' Hok H).
Qed.

Lemma spares_set keep key value : is_bytes key -> ~ keep key -> spares keep (set key value).
Proof.
  intros Hb Hout s r s' Hk E. destruct (set_run key value s) as (s1 & E1 & _ & Hc). rewrite E in E1.
  injection E1 as _ <-. rewrite Hc. split; [now apply map_Forall_insert_2 |].
  intros k Hin. apply lookup_insert_ne. congruence.
Qed.

Lemma spares_table keep n : spares keep (table n).
Proof. apply spares_pure. intros s. destruct (table n s) as [r s1] eqn:E. exact (table_tx _ _ _ _ E). Qed.

Lemma spares_cache_remove keep n : spares keep (table_cache_remove n).
Proof. apply spares_pure. intros s. unfold table_cache_remove, upd. now destruct (cache_remove n (table_cache s)). Qed.

Lemma column_key_outside n cid : ~ in_scope CodecType.Tuple name (key_prefix CodecType.Column n ++ [BOUND_MIN_TAG] ++ cid).
Proof.
  intros Hin. destruct (scopes_disjoint CodecType.Column n CodecType.Tuple name
    (key_prefix CodecType.Column n ++ BOUND_MIN_TAG :: cid)); try reflexivity;
    [apply in_bound_within, in_bound_prefix | exact Hin | discriminate].
Qed.

Lemma column_key_bytes n cid : is_bytes cid -> is_bytes (key_prefix CodecType.Column n ++ [BOUND_MIN_TAG] ++ cid).
Proof.
  intros Hc. unfold key_prefix, hash_bytes, BOUND_MIN_TAG.
  repeat apply Forall_app_2; try apply le_bytes_is_bytes; try exact Hc; repeat constructor; unfold is_byte; lia.
Qed.

(** *** Writing every row again *)

Definition put_rows (tys' : list LogicalType) (f : row -> row) (l : list (Z * row)) (c : store) : store :=
  fold_left (fun c e => <[row_key name vt e.1 := row_bytes vt tys' e.1 (f e.2)]> c) l c.

Lemma put_rows_other tys' f l c k : ~ (k ∈ map (fun e => row_key name vt e.1) l) -> put_rows tys' f l c !! k = c !! k.
Proof.
  unfold put_rows. revert c. induction l as [|e l IH]; intros c Hk; [reflexivity |]. cbn [fold_left].
  rewrite IH; [apply lookup_insert_ne; intros <-; apply Hk, list_elem_of_here |].
  intros H. now apply Hk, list_elem_of_further.
Qed.

Lemma put_rows_row tys' f l c z r : NoDup (map fst l) -> Forall (fun e => in_int vt e.1 = true) l -> (z, r) ∈ l ->
  put_rows tys' f l c !! row_key name vt z = Some (row_bytes vt tys' z (f r)).
Proof.
  revert c. induction l as [|e l IH]; intros c Hnd Hin Hl; [now apply elem_of_nil in Hl |].
  cbn [map] in Hnd. apply NoDup_cons in Hnd as [Hn Hnd]. apply Forall_cons in Hin as [He Hin].
  apply elem_of_cons in Hl as [<- | Hl]; [| now apply (IH (<[_ := _]> c))].
  change (put_rows tys' f l (<[row_key name vt z := row_bytes vt tys' z (f r)]> c) !! row_key name vt z
          = Some (row_bytes vt tys' z (f r))).
  rewrite put_rows_other; [apply lookup_insert_eq |]. intros ([z' r'] & Hk & Hl)%list_elem_of_fmap.
  apply Hn. cbn [fst] in *. apply row_key_inj in Hk as ->; [now apply (list_elem_of_fmap_2 fst _ (z', r')) | assumption | exact He |].
  rewrite Forall_forall in Hin. exact (Hin (z', r') Hl).
Qed.

Lemma put_rows_keys tys' f l c : keys_ok c -> keys_ok (put_rows tys' f l c).
Proof.
  unfold put_rows. revert c. induction l as [|e l IH]; intros c Hc; [exact Hc |]. cbn [fold_left].
  apply IH. apply map_Forall_insert_2; [now apply row_key_bytes | exact Hc].
Qed.

Lemma append_rows_run tys' pki' f l s :
  Forall (fun e => row_ok vt tys' pki' e.1 (f e.2)) l ->
  exists s', for_each (fun tuple => append_tuple name tuple tys' true) (map (fun e => row_tuple vt e.1 (f e.2)) l) s = (Ok tt, s')
    /\ wrote s (put_rows tys' f l (contents (tx s))) s'.
Proof.
  intros Hl. revert s. induction Hl as [|e l He _ IH]; intros s; cbn [map for_each]; [exists s; split; [reflexivity | apply wrote_refl] |].
  destruct (row_stored vt tys' pki' e.1 (f e.2) He) as (bs & Hb & _).
  destruct (set_run (row_key name vt e.1) bs s) as (s1 & E1 & W1).
  assert (E : append_tuple name (row_tuple vt e.1 (f e.2)) tys' true s = (Ok tt, s1))
    by (rewrite (append_run name vt tys' pki' Hvt s e.1 (f e.2) bs true He Hb); exact E1).
  rewrite (bind_ok _ _ _ _ _ E). destruct (IH s1) as (s2 & E2 & W2). exists s2. split; [exact E2 |].
  eapply wrote_trans; [exact W1 |]. destruct W1 as [_ Hc].
  assert (Hbs : row_bytes vt tys' e.1 (f e.2) = bs) by (unfold row_bytes; now rewrite Hb).
  rewrite Hc in W2. unfold put_rows in *. cbn [fold_left]. now rewrite Hbs.
Qed.

(** Every row of the table, rewritten with other column types. *)
Lemma rewrite_rows tys' pki' f m l s :
  represents name vt tys pki s m -> (forall z r, row_ok vt tys pki z r -> row_ok vt tys' pki' z (f r)) ->
  l ≡ₚ map_to_list m ->
  exists s', for_each (fun tuple => append_tuple name tuple tys' true) (map (fun e => row_tuple vt e.1 (f e.2)) l) s = (Ok tt, s')
    /\ represents name vt tys' pki' s' (f <$> m)
    /\ s' = set_tx (tx s') s
    /\ forall k, ~ in_scope CodecType.Tuple name k -> contents (tx s') !! k = contents (tx s) !! k.
Proof.
  intros [Hm Hk Hs] Hf Hl.
  assert (Hrow : forall z r, (z, r) ∈ l <-> m !! z = Some r) by (intros z r; now rewrite Hl, elem_of_map_to_list).
  assert (Hok : Forall (fun e => row_ok vt tys' pki' e.1 (f e.2)) l).
  { apply Forall_forall. intros [z r] He%Hrow. apply Hf, (Hm z r He). }
  destruct (append_rows_run tys' pki' f l s Hok) as (s' & E & W). exists s'. split; [exact E |]. destruct W as [Hw Hc].
  assert (Hint : Forall (fun e : Z * row => in_int vt e.1 = true) l) by (eapply Forall_impl; [exact Hok | now intros ? [? _]]).
  assert (Hnd : NoDup (map fst l)) by (change (NoDup l.*1); rewrite Hl; apply NoDup_fst_map_to_list).
  split; [| split; [exact Hw |]].
  - split; rewrite ?Hc; [| now apply put_rows_keys |].
    + intros z r' Hr'. apply lookup_fmap_Some in Hr' as (r & <- & Hr). apply Hf, (Hm z r Hr).
    + intros k v Hin. destruct (decide (k ∈ map (fun e => row_key name vt e.1) l)) as [Hkl | Hkl].
      * apply list_elem_of_fmap in Hkl as ([z r] & -> & He). cbn [fst].
        rewrite (put_rows_row tys' f l _ z r) by assumption. apply Hrow in He.
        destruct (row_stored vt tys' pki' z (f r) (Hf z r (Hm z r He))) as (bs & Hb & _). unfold row_bytes. rewrite Hb. split.
        { intros [= <-]. exists z, (f r). rewrite lookup_fmap, He. auto. }
        intros (z' & r' & Hr' & Hk' & Hser). apply lookup_fmap_Some in Hr' as (r0 & <- & Hr0).
        apply row_key_inj in Hk' as <-; [congruence | assumption | apply (Hm z r He) | apply (Hm z' r0 Hr0)].
      * rewrite put_rows_other by exact Hkl. rewrite Hs by exact Hin. split; intros (z & r & Hr & -> & _); destruct Hkl.
        { apply (list_elem_of_fmap_2 (fun e : Z * row => row_key name vt e.1) l (z, r)). now apply Hrow. }
        apply lookup_fmap_Some in Hr as (r0 & <- & Hr0).
        apply (list_elem_of_fmap_2 (fun e : Z * row => row_key name vt e.1) l (z, r0)). now apply Hrow.
  - intros k Hout. rewrite Hc. apply put_rows_other. intros ([z r] & -> & _)%list_elem_of_fmap.
    apply Hout, row_key_scope.
Qed.

(** The tuples of a scan, as rows. *)
Lemma scanned_rows m input : scanned m input ->
  exists l, l ≡ₚ map_to_list m /\ input = map (fun e => row_tuple vt e.1 e.2) l.
Proof. intros (l & -> & Hl)%Permutation_map_inv. exists l. split; [now symmetry | reflexivity]. Qed.

(** *** ADD COLUMN *)

(** The value rows get for a column: its default, or null. *)
Definition column_default (column : Column) (v : DataValue) : Prop :=
  match col_default (desc column) with Some expr => eval expr None = Ok v | None => v = DV.Null end.

Lemma extend_all column v input uv acc : column_default column v -> is_unique (desc column) = false ->
  try_fold (fun st tuple => let? tuple := tuple in extend_tuple column st tuple) (map Ok input) (uv, acc)
  = Ok (uv, acc ++ map (fun t => mk_tuple (pk t) (values t ++ [v])) input).
Proof.
  intros Hd Hu. assert (Hstep : forall acc tuple,
    extend_tuple column (uv, acc) tuple = Ok (uv, acc ++ [mk_tuple (pk tuple) (values tuple ++ [v])])).
  { intros acc' tuple. unfold extend_tuple, default_value, column_default in *. rewrite Hu.
    destruct (col_default (desc column)) as [expr|]; [cbn [eval_none expr_ops]; rewrite Hd; reflexivity | now subst v]. }
  revert acc. induction input as [|tuple input IH]; intros acc; cbn [map try_fold]; [now rewrite app_nil_r |].
  cbn [result_bind]. rewrite Hstep. cbn [result_bind]. rewrite IH. now rewrite <- app_assoc.
Qed.

(** The column [add_column] finds under the id it gave. *)
Lemma added_column (column : Column) (t : TableCatalog Expr) generator id t' gen' :
  Catalog.add_column column t generator = Ok (id, t', gen') ->
  id ∈ generator
  /\ get_column_by_id t' id = Ok (Some (set_relation (TableRelation id (tname t) false) column)).
Proof.
  unfold Catalog.add_column. destruct (bool_decide _); [discriminate |]. destruct generator as [|id' gen]; [discriminate |].
  intros [= <- <- <-]. split; [apply list_elem_of_here |]. unfold get_column_by_id. cbn [columns schema_ref].
  now rewrite lookup_insert_eq, list_lookup_middle.
Qed.

Lemma spares_add_column generator column if_not_exists :
  is_unique (desc column) = false -> Forall is_bytes generator ->
  spares_rows (add_column generator name column if_not_exists).
Proof.
  intros Hu Hgen. unfold add_column. apply spares_bind; [apply spares_table | intros [t|]; [| apply spares_lift]].
  apply spares_bind; [destruct (negb (nullable column)); [apply spares_bind; intros; apply spares_lift | apply spares_lift] |].
  intros []; [apply spares_lift |].
  destruct (find_column (column_name column) t) as [col|]; [destruct if_not_exists; apply spares_lift |].
  apply spares_lift_bind. intros [[col_id t'] gen'] Hadd. rewrite Hu.
  apply (spares_lift_bind _ (Ok t')). intros _ [= <-].
  apply spares_lift_bind. intros c Hc. apply spares_lift_bind. intros c' Hc'.
  destruct (added_column column t generator col_id t' gen' Hadd) as [Hid Hget].
  rewrite Hget in Hc. apply Ok_inj in Hc as <-. apply Ok_inj in Hc' as <-.
  apply spares_bind; [| intros _; apply spares_bind; [apply spares_cache_remove | intros _; apply spares_lift]].
  unfold set_column. apply spares_lift_bind. intros [key value] Hkey. cbn in Hkey.
  destruct (ser_column _); [| discriminate ..]. apply Ok_inj in Hkey as [= <- <-].
  apply spares_set; [| apply column_key_outside]. apply column_key_bytes. now apply (proj1 (Forall_forall _ _) Hgen).
Qed.

(** A column may be added when it is nullable or has a default. *)
Lemma missing_default_run column v s :
  column_default column v -> nullable column = true \/ col_default (desc column) <> None ->
  (if negb (nullable column) then
     let! d := lift (default_value column) in ret (match d with None => true | Some _ => false end)
   else ret false) s = (Ok false, s).
Proof.
  intros Hd Hdef. destruct (nullable column); [reflexivity |]. cbn [negb]. unfold bind, lift, default_value.
  unfold column_default in Hd. destruct (col_default (desc column)) as [expr|]; [| now destruct Hdef].
  cbn [eval_none expr_ops]. now rewrite Hd.
Qed.

(** [add_column] on a cached table that has the column, and on one that has not. *)
Lemma add_existing_run generator column v if_not_exists t col id s :
  db_ok s -> cached (table_cache s) name = Some t -> column_default column v ->
  nullable column = true \/ col_default (desc column) <> None ->
  find_column (column_name column) t = Some col -> column_id col = Some id ->
  exists s', add_column generator name column if_not_exists s
      = (if if_not_exists then Ok id else Err (DuplicateColumn (column_name column)), s')
    /\ tx s' = tx s /\ db_ok s' /\ cached (table_cache s') name = Some t.
Proof.
  intros Hok Ht Hd Hdef Hfind Hid. destruct (table_hit name s t Hok Ht) as (s1 & E & Htx & Hok1 & _ & Hc).
  exists s1. split; [| split; [exact Htx | split; [exact Hok1 | now rewrite Hc]]].
  unfold add_column. rewrite (bind_ok _ _ _ _ _ E), (bind_ok _ _ _ _ _ (missing_default_run column v s1 Hd Hdef)).
  rewrite Hfind. destruct if_not_exists; [now rewrite Hid | reflexivity].
Qed.

Lemma add_fresh_run generator column v if_not_exists t id gen b s :
  db_ok s -> cached (table_cache s) name = Some t -> column_default column v -> is_unique (desc column) = false ->
  nullable column = true \/ col_default (desc column) <> None ->
  find_column (column_name column) t = None -> column_idxs t !! column_name column = None -> generator = id :: gen ->
  ser_column (set_relation (TableRelation id (tname t) false) column) = Ok b ->
  exists s', add_column generator name column if_not_exists s = (Ok id, s')
    /\ contents (tx s') = <[key_prefix CodecType.Column (tname t) ++ [BOUND_MIN_TAG] ++ id := b]> (contents (tx s)).
Proof.
  intros Hok Ht Hd Hu Hdef Hfind Hnew -> Hser. destruct (table_hit name s t Hok Ht) as (s1 & E & Htx & Hok1 & _ & Hc).
  assert (Hadd : exists t', Catalog.add_column column t (id :: gen) = Ok (id, t', gen)).
  { unfold Catalog.add_column. rewrite Hnew, bool_decide_eq_false_2; [eauto | now intros [? ?]]. }
  destruct Hadd as [t' Hadd]. destruct (added_column _ _ _ _ _ _ Hadd) as [_ Hget].
  destruct (set_run (key_prefix CodecType.Column (tname t) ++ [BOUND_MIN_TAG] ++ id) b s1) as (s2 & E2 & [Hw2 Hc2]).
  destruct (cache_remove_ok (table_cache s2) name) as (old & c & Hrm & _); [rewrite Hw2; apply Hok1 |].
  exists (set_table_cache c s2). split; [| cbn [tx set_table_cache]; now rewrite Hc2, Htx].
  unfold add_column. rewrite (bind_ok _ _ _ _ _ E), (bind_ok _ _ _ _ _ (missing_default_run column v s1 Hd Hdef)), Hfind.
  rewrite (bind_ok _ _ s1 (id, t', gen) s1) by (unfold lift; now rewrite Hadd). rewrite Hu.
  rewrite (bind_ok _ _ s1 t' s1) by reflexivity.
  rewrite (bind_ok _ _ s1 (Some (set_relation (TableRelation id (tname t) false) column)) s1) by (unfold lift; now rewrite Hget).
  rewrite (bind_ok _ _ s1 (set_relation (TableRelation id (tname t) false) column) s1) by reflexivity.
  rewrite (bind_ok _ _ s1 tt s2).
  2:{ unfold set_column, lift. cbn [relation summary set_relation encode_column]. rewrite Hser. exact E2. }
  unfold bind, table_cache_remove, upd. now rewrite Hrm.
Qed.

(** What follows [add_column] when the column is not unique. *)
Definition add_column_end (column : Column) (unique_values : list (TupleId * DataValue)) (col_id : ColumnId)
  : M (list Tuple) :=
  let! found := table name in
  let! unique_meta := lift (match found with Some table => get_unique_index table col_id | None => Ok None end) in
  let! _ :=
    match unique_meta with
    | Some unique_meta =>
        if is_unique (desc column) then
          for_each (fun iv => add_index name (mk_index (im_id unique_meta) iv.2 Unique) iv.1) unique_values
        else ret tt
    | None => ret tt
    end in
  done.

Lemma add_column_end_tx column uv id s r s' : is_unique (desc column) = false ->
  add_column_end column uv id s = (r, s') -> tx s' = tx s.
Proof.
  intros Hu E. unfold add_column_end in E. destruct (table name s) as [found s1] eqn:Et.
  pose proof (table_tx _ _ _ _ Et) as Htx. unfold bind, lift in E. rewrite Et, Hu in E.
  destruct found as [found|e|]; [| now injection E as _ <- ..].
  destruct (match found with Some t => get_unique_index t id | None => Ok None end) as [[meta|]|e|];
    now injection E as _ <-.
Qed.

Lemma add_column_end_hit column uv id s t o : is_unique (desc column) = false -> db_ok s ->
  cached (table_cache s) name = Some t -> get_unique_index t id = Ok o ->
  (add_column_end column uv id s).1 = Ok [build_result (str "1")].
Proof.
  intros Hu Hok Ht Ho. destruct (table_hit name s t Hok Ht) as (s1 & E & _).
  unfold add_column_end. rewrite (bind_ok _ _ _ _ _ E), (bind_ok _ _ s1 o s1) by (unfold lift; now rewrite Ho).
  rewrite Hu. now destruct o.
Qed.

Lemma spares_add_column_end column uv id : is_unique (desc column) = false -> spares_rows (add_column_end column uv id).
Proof.
  intros Hu. apply spares_pure. intros s. destruct (add_column_end column uv id s) as [r s'] eqn:E.
  exact (add_column_end_tx _ _ _ _ _ _ Hu E).
Qed.

(** The executor after the rows are rewritten. *)
Lemma add_column_exec_run generator column v if_not_exists schema input s m :
  is_unique (desc column) = false -> column_default column v -> column_ok (datatype column) v ->
  map datatype schema = tys -> represents name vt tys pki s m -> scanned m input ->
  exists s1, add_column_exec generator name column if_not_exists schema (map Ok input) s
      = (let! id := add_column generator name column if_not_exists in add_column_end column [] id) s1
    /\ represents name vt (tys ++ [datatype column]) pki s1 ((fun r => r ++ [v]) <$> m)
    /\ s1 = set_tx (tx s1) s
    /\ forall k, ~ in_scope CodecType.Tuple name k -> contents (tx s1) !! k = contents (tx s) !! k.
Proof.
  intros Hu Hd Hv Hsch Hrep Hin. destruct (scanned_rows m input Hin) as (l & Hl & ->).
  assert (Hf : forall z r, row_ok vt tys pki z r -> row_ok vt (tys ++ [datatype column]) pki z (r ++ [v])).
  { intros z r (Hz & Hr & Hk). split; [exact Hz |]. split; [apply Forall2_app; auto |].
    exact (lookup_app_l_Some _ _ _ _ Hk). }
  destruct (rewrite_rows (tys ++ [datatype column]) pki (fun r => r ++ [v]) m l s Hrep Hf Hl)
    as (s1 & E1 & H1). exists s1. split; [| exact H1].
  unfold add_column_exec. rewrite Hsch.
  rewrite (bind_ok _ _ s ([], map (fun e => row_tuple vt e.1 (e.2 ++ [v])) l) s)
    by (unfold lift; rewrite (extend_all column v _ _ _ Hd Hu), map_map; reflexivity).
  now rewrite (bind_ok _ _ _ _ _ E1).
Qed.

(** C15. ALTER TABLE ADD COLUMN of a column without UNIQUE, on a table with one
    integer primary key: every row is stored again with the column's default, or
    null if it has none, behind its values, whatever the catalog step that follows
    returns, and no other row changes.  When the table is cached and the column
    may be null or has a default, a new column's description is stored under the
    first id of the generator; if the table already has a column of the name, the
    statement fails with [DuplicateColumn], or with IF NOT EXISTS succeeds, and
    nothing but the rows changes: they have a value more than the catalog has
    columns. *)
Theorem add_column_exec_rows generator column v if_not_exists schema input s m :
  is_unique (desc column) = false -> column_default column v -> column_ok (datatype column) v ->
  Forall is_bytes generator -> map datatype schema = tys ->
  represents name vt tys pki s m -> scanned m input ->
  exists r s', add_column_exec generator name column if_not_exists schema (map Ok input) s = (r, s')
    /\ represents name vt (tys ++ [datatype column]) pki s' ((fun r => r ++ [v]) <$> m)
    /\ forall t, db_ok s -> cached (table_cache s) name = Some t ->
         nullable column = true \/ col_default (desc column) <> None ->
         (forall col id, find_column (column_name column) t = Some col -> column_id col = Some id ->
            (exists o, get_unique_index t id = Ok o) ->
            r = (if if_not_exists then Ok [build_result (str "1")] else Err (DuplicateColumn (column_name column)))
            /\ forall k, ~ in_scope CodecType.Tuple name k -> contents (tx s') !! k = contents (tx s) !! k)
         /\ (forall id gen b, find_column (column_name column) t = None ->
            column_idxs t !! column_name column = None -> generator = id :: gen ->
            ser_column (set_relation (TableRelation id (tname t) false) column) = Ok b ->
            contents (tx s') !! (key_prefix CodecType.Column (tname t) ++ [BOUND_MIN_TAG] ++ id) = Some b).
Proof.
  intros Hu Hd Hv Hgen Hsch Hrep Hin.
  destruct (add_column_exec_run generator column v if_not_exists schema input s m) as (s1 & -> & Hrep1 & Hs1 & Hother); auto.
  assert (Hrest : spares_rows (let! id := add_column generator name column if_not_exists in add_column_end column [] id)).
  { apply spares_bind; [now apply spares_add_column | intros id; now apply spares_add_column_end]. }
  destruct ((let! id := add_column generator name column if_not_exists in add_column_end column [] id) s1)
    as [r s'] eqn:Er. exists r, s'. split; [reflexivity |].
  split; [exact (spares_represents _ _ _ s1 _ r s' Hrest Hrep1 Er) |]. intros t Hok Ht Hdef.
  assert (Hok1 : db_ok s1).
  { destruct Hok as (_ & H2 & H3). split; [exact (rep_keys _ _ _ _ _ _ Hrep1) |]. rewrite Hs1. now split. }
  assert (Ht1 : cached (table_cache s1) name = Some t) by (now rewrite Hs1).
  split.
  - intros col id Hfind Hid (o & Ho).
    destruct (add_existing_run generator column v if_not_exists t col id s1 Hok1 Ht1 Hd Hdef Hfind Hid)
      as (s2 & E2 & Htx2 & Hok2 & Ht2). unfold bind in Er. rewrite E2 in Er. destruct if_not_exists.
    + pose proof (add_column_end_hit column [] id s2 t o Hu Hok2 Ht2 Ho) as Hr. rewrite Er in Hr. cbn in Hr. split; [exact Hr |].
      intros k Hout. rewrite (add_column_end_tx _ _ _ _ _ _ Hu Er), Htx2. now apply Hother.
    + injection Er as <- <-. split; [reflexivity |]. intros k Hout. rewrite Htx2. now apply Hother.
  - intros id gen b Hfind Hnew Hg Hser.
    destruct (add_fresh_run generator column v if_not_exists t id gen b s1 Hok1 Ht1 Hd Hu Hdef Hfind Hnew Hg Hser)
      as (s2 & E2 & Hc2). unfold bind in Er. rewrite E2 in Er.
    rewrite (add_column_end_tx _ _ _ _ _ _ Hu Er), Hc2. apply lookup_insert_eq.
Qed.

(** *** DROP COLUMN *)

Lemma prefix_outside ty n u : scoped ty = true -> ty <> CodecType.Tuple -> ~ in_scope CodecType.Tuple name (key_prefix ty n ++ u).
Proof.
  intros Hs Hty [u' E]%(scope_prefix CodecType.Tuple); [| reflexivity].
  apply Hty. apply (scoped_prefix_inj ty n CodecType.Tuple name Hs eq_refl).
  apply app_inj_1 in E as [E _]; [exact E |]. now rewrite !scoped_prefix_length.
Qed.

Lemma spares_remove keep key : ~ keep key -> spares keep (remove key).
Proof.
  intros Hout s r s' Hk E. destruct (remove_run key s) as (s1 & E1 & _ & Hc). rewrite E in E1.
  injection E1 as _ <-. rewrite Hc. split; [now apply map_Forall_delete |].
  intros k Hin. apply lookup_delete_ne. congruence.
Qed.

Lemma spares_drop_index (keep : bytes -> Prop) n id :
  (forall u, ~ keep (key_prefix CodecType.Index n ++ u)) -> spares keep (_drop_data (index_bound n id)).
Proof.
  intros Hkeep s r s' Hk E. destruct (drop_range_run (index_bound n id) s) as (s1 & E1 & _ & Hc).
  - unfold index_bound. cbn [fst snd]. apply scannable_prefix.
    rewrite (scoped_prefix_length CodecType.Index) by reflexivity. unfold PREFIX_LEN. lia.
  - exact Hk.
  - rewrite E in E1. injection E1 as _ <-. rewrite Hc. split; [now apply keys_ok_outside |].
    intros k Hin. rewrite lookup_outside. destruct (decide _) as [[H1 H2] | _]; [| reflexivity].
    destruct (between_prefix (key_prefix CodecType.Index n) _ _ k H1 H2) as [u ->].
    now apply Hkeep in Hin.
Qed.

Lemma spares_for_each keep {A} (f : A -> M unit) l : (forall x, spares keep (f x)) -> spares keep (for_each f l).
Proof. intros Hf. induction l as [|x l IH]; cbn [for_each]; [apply spares_lift | now apply spares_bind]. Qed.

(** [drop_column] after the column's description is removed. *)
Definition drop_column_indexes (column : Column) (metas : list IndexMeta) : M unit :=
  for_each (fun index_meta =>
    let! id := lift (unwrap (column_id column)) in
    if negb (bool_decide (id ∈ column_ids index_meta)) then ret tt else
    let! '(index_meta_key, _) := lift (encode_index_meta name index_meta) in
    let! _ := remove index_meta_key in
    let! _ := _drop_data (index_bound name (im_id index_meta)) in
    remove_table_meta name (im_id index_meta)) metas.

Lemma spares_drop_column_indexes (keep : bytes -> Prop) column metas :
  (forall ty n u, scoped ty = true -> ty <> CodecType.Tuple -> ty <> CodecType.Column -> ~ keep (key_prefix ty n ++ u)) ->
  spares keep (drop_column_indexes column metas).
Proof.
  intros Hkeep. apply spares_for_each. intros meta. apply spares_bind; [apply spares_lift | intros id].
  destruct (negb _); [apply spares_lift |]. apply spares_lift_bind. intros [mkey mvalue] Hmeta.
  unfold encode_index_meta in Hmeta. destruct (ser_index_meta meta); [| discriminate ..].
  apply Ok_inj, (f_equal fst) in Hmeta. cbn [fst] in Hmeta. subst mkey.
  apply spares_bind; [now apply spares_remove, Hkeep | intros _].
  apply spares_bind; [apply spares_drop_index; intros u; now apply Hkeep | intros _].
  apply spares_bind; [now apply spares_remove, Hkeep | intros _].
  apply spares_pure. intros s. unfold meta_cache_remove, upd. now destruct (cache_remove _ _).
Qed.

Lemma spares_drop_column col_name : spares_rows (drop_column name col_name).
Proof.
  unfold drop_column. apply spares_bind; [apply spares_table | intros [t|]; [| apply spares_lift]].
  apply spares_bind; [apply spares_lift | intros c]. apply spares_bind; [apply spares_lift | intros column].
  apply spares_lift_bind. intros [key value] Hkey.
  apply spares_bind; [apply spares_remove | intros _; apply spares_bind; [| intros _; apply spares_cache_remove]].
  - unfold encode_column in Hkey. destruct (relation _) as [|cid n []]; try discriminate.
    destruct (ser_column column); [| discriminate ..]. apply Ok_inj in Hkey.
    apply (f_equal fst) in Hkey. cbn [fst] in Hkey. subst key. apply column_key_outside.
  - apply (spares_drop_column_indexes (in_scope CodecType.Tuple name)). intros ty n u Hs Ht _. now apply prefix_outside.
Qed.

(** The description of the column is gone. *)
Lemma drop_column_removes col_name t column cid n b s r s' :
  db_ok s -> cached (table_cache s) name = Some t -> get_column_by_name t col_name = Ok (Some column) ->
  relation (summary column) = TableRelation cid n false -> ser_column column = Ok b ->
  drop_column name col_name s = (r, s') ->
  contents (tx s') !! (key_prefix CodecType.Column n ++ [BOUND_MIN_TAG] ++ cid) = None.
Proof.
  intros Hok Ht Hcol Hrel Hser E. set (key := key_prefix CodecType.Column n ++ [BOUND_MIN_TAG] ++ cid).
  destruct (table_hit name s t Hok Ht) as (s1 & E1 & _ & (Hk1 & _) & _).
  destruct (remove_run key s1) as (s2 & E2 & _ & Hc2).
  unfold drop_column in E. rewrite (bind_ok _ _ _ _ _ E1) in E.
  rewrite (bind_ok _ _ s1 (Some column) s1) in E by (unfold lift; now rewrite Hcol).
  rewrite (bind_ok _ _ s1 column s1) in E by reflexivity.
  rewrite (bind_ok _ _ s1 (key, b) s1) in E by (unfold lift; rewrite Hrel; cbn [encode_column]; now rewrite Hser).
  rewrite (bind_ok _ _ _ _ _ E2) in E.
  assert (Htail : spares (fun k => k = key) (let! _ := drop_column_indexes column (indexes t) in table_cache_remove name)).
  { apply spares_bind; [| intros _; apply spares_cache_remove]. apply spares_drop_column_indexes.
    intros ty n' u Hs Hty1 Hty2 Heq. apply app_inj_1 in Heq as [Heq _]; [| now rewrite !scoped_prefix_length].
    now apply (scoped_prefix_inj ty n' CodecType.Column n) in Heq as [? _]. }
  destruct (Htail s2 r s') as [_ Hsame]; [rewrite Hc2; now apply map_Forall_delete | exact E |].
  rewrite (Hsame key eq_refl), Hc2. apply lookup_delete_eq.
Qed.

Lemma find_index_at col_name (schema : list Column) i col : schema !! i = Some col -> column_name col = col_name ->
  (forall j c, (j < i)%nat -> schema !! j = Some c -> column_name c <> col_name) ->
  forall n, find_index n col_name schema
    = Some ((n + i)%nat, match primary (desc col) with Some _ => true | None => false end).
Proof.
  revert i. induction schema as [|c schema IH]; intros i Hi Hn Hfirst n; [discriminate |]. cbn [find_index].
  destruct i as [|i].
  - injection Hi as ->. rewrite bool_decide_eq_true_2 by exact Hn. now rewrite Nat.add_0_r.
  - rewrite bool_decide_eq_false_2 by (apply (Hfirst 0%nat c); [lia | reflexivity]).
    rewrite (IH i Hi Hn); [do 2 f_equal; lia |]. intros j c' Hj. apply (Hfirst (S j)). lia.
Qed.

(** The position of the key once column [i] is gone. *)
Definition key_after_drop (i : nat) : nat := if (i <? pki)%nat then Nat.pred pki else pki.

Lemma row_ok_drop i z r : (i < length tys)%nat -> i <> pki ->
  row_ok vt tys pki z r -> row_ok vt (delete i tys) (key_after_drop i) z (delete i r).
Proof.
  intros Hi Hne (Hz & Hr & Hk). split; [exact Hz |]. split; [now apply Forall2_delete |].
  unfold key_after_drop. destruct (Nat.ltb_spec i pki) as [Hlt | Hge].
  - change (delete i (r : list DataValue) !! Nat.pred pki = Some (int_value vt z)).
    rewrite list_lookup_delete_ge by lia. replace (S (Nat.pred pki)) with pki by lia. exact Hk.
  - change (delete i (r : list DataValue) !! pki = Some (int_value vt z)). rewrite list_lookup_delete_lt by lia. exact Hk.
Qed.

Lemma remove_all i (l : list (Z * row)) : Forall (fun e : Z * row => i < length e.2)%nat l ->
  try_map (fun tuple => let? tuple := tuple in remove_value i tuple)
    (map Ok (map (fun e : Z * row => row_tuple (F := F) vt e.1 e.2) l))
  = Ok (map (fun e : Z * row => row_tuple vt e.1 (delete i (e.2 : list DataValue))) l).
Proof.
  intros Hl. induction Hl as [|e l He _ IH]; [reflexivity |]. cbn [map try_map result_bind].
  assert (Hstep : remove_value i (row_tuple (F := F) vt e.1 e.2) = Ok (row_tuple vt e.1 (delete i (e.2 : list DataValue)))).
  { unfold remove_value, row_tuple. cbn [values pk]. destruct (Nat.ltb_spec i (length e.2)); [| lia].
    now rewrite delete_take_drop. }
  rewrite Hstep. cbn [result_bind]. now rewrite IH.
Qed.

(** C16. ALTER TABLE DROP COLUMN on a table with one integer primary key: dropping
    a column of the primary key is refused and changes nothing; dropping the first
    column of the given name otherwise stores every row again without its value,
    so that the table has the rows without the column, the key where it then is,
    whatever the catalog step that follows returns; and when the table is cached
    and its description of the column can be encoded, that description is gone
    from the store. *)
Theorem drop_column_exec_rows col_name i col if_exists schema input s m :
  map datatype schema = tys -> schema !! i = Some col -> column_name col = col_name ->
  (forall j c, (j < i)%nat -> schema !! j = Some c -> column_name c <> col_name) ->
  (exists c, schema !! pki = Some c /\ primary (desc c) <> None) ->
  represents name vt tys pki s m -> scanned m input ->
  match primary (desc col) with
  | Some _ => exists message, drop_column_exec name col_name if_exists schema (map Ok input) s = (Err (InvalidColumn message), s)
  | None => exists r s', drop_column_exec name col_name if_exists schema (map Ok input) s = (r, s')
      /\ represents name vt (delete i tys) (key_after_drop i) s' ((fun r : list DataValue => delete i r) <$> m)
      /\ forall t column cid n b, db_ok s -> cached (table_cache s) name = Some t ->
           get_column_by_name t col_name = Ok (Some column) ->
           relation (summary column) = TableRelation cid n false -> ser_column column = Ok b ->
           contents (tx s') !! (key_prefix CodecType.Column n ++ [BOUND_MIN_TAG] ++ cid) = None
  end.
Proof.
  intros Hsch Hi Hn Hfirst (c & Hc & Hpk) Hrep Hin. unfold drop_column_exec.
  rewrite (find_index_at col_name schema i col Hi Hn Hfirst 0). cbn [Nat.add].
  destruct (primary (desc col)) eqn:Ep; [now eexists |].
  destruct (scanned_rows m input Hin) as (l & Hl & ->).
  assert (Hne : i <> pki) by (intros ->; congruence).
  assert (Hlt : (i < length tys)%nat) by (rewrite <- Hsch, length_map; now apply lookup_lt_Some in Hi).
  assert (Hlen : Forall (fun e : Z * row => i < length e.2)%nat l).
  { apply Forall_forall. intros [z r] He. rewrite Hl, elem_of_map_to_list in He.
    destruct (rep_rows _ _ _ _ _ _ Hrep z r He) as (_ & Hr & _). apply Forall2_length in Hr. unfold row in *. cbn. lia. }
  rewrite (bind_ok _ _ s (map (fun e : Z * row => row_tuple vt e.1 (delete i (e.2 : list DataValue))) l) s)
    by (unfold lift; now rewrite remove_all).
  assert (Htys : map datatype (take i schema ++ drop (S i) schema) = delete i tys).
  { rewrite <- delete_take_drop, <- Hsch. apply (list_fmap_delete datatype). }
  rewrite Htys.
  destruct (rewrite_rows (delete i tys) (key_after_drop i) (fun r : list DataValue => delete i r) m l s Hrep
              (fun z r => row_ok_drop i z r Hlt Hne) Hl) as (s1 & E1 & Hrep1 & Hs1 & _).
  rewrite (bind_ok _ _ _ _ _ E1).
  assert (Hrest : spares_rows (let! _ := drop_column name col_name in done))
    by (apply spares_bind; [apply spares_drop_column | intros _; apply spares_lift]).
  destruct ((let! _ := drop_column name col_name in done) s1) as [r s'] eqn:Er. exists r, s'.
  split; [reflexivity |]. split; [exact (spares_represents _ _ _ s1 _ r s' Hrest Hrep1 Er) |].
  intros t column cid n b Hok Ht Hcol Hrel Hser.
  assert (Hok1 : db_ok s1).
  { destruct Hok as (_ & H2 & H3). split; [exact (rep_keys _ _ _ _ _ _ Hrep1) |]. rewrite Hs1. now split. }
  unfold bind in Er. destruct (drop_column name col_name s1) as [r1 s2] eqn:Ed.
  assert (s' = s2) as -> by (destruct r1; now injection Er as _ <-).
  apply (drop_column_removes col_name t column cid n b s1 r1 s2 Hok1); auto. now rewrite Hs1.
Qed.
End AlterRows.


(** ** ADD COLUMN IF NOT EXISTS *)

Section Counterexamples.
Context {F : Foreign}.
Abbreviation ints := (repeat LT.Integer).

(** What the rewriting of [add_column_exec_rows] does to the rows of a column
    that exists: those of a table with seven columns are stored with one column
    more than the catalog has, and reading them back with the catalog's types
    returns other values. *)
Lemma add_existing_column_corrupts :
  let row := map DV.Int32 [1; 2; 3; 4; 5; 6; 7] in
  exists bs, serialize_to (mk_tuple (F := F) (Some (DV.Int32 1)) (row ++ [DV.Int32 8])) (ints 8) = Ok bs
    /\ deserialize_from (F := F) (ints 7) [0%nat] (seq 0 7) 7 bs false
       = Ok (mk_tuple None (map DV.Int32 [256; 512; 768; 1024; 1280; 1536; 1792])).
Proof. intros row. eexists. split; reflexivity. Qed.
End Counterexamples.

Section Witnesses.
#[local] Existing Instance RefForeign.ref_foreign.
#[local] Existing Instance RefForeign.ref_laws.
#[local] Existing Instance RefCast.ref_cast.
Import RefExpr RefDml.
Abbreviation WDb := (Storage.Db store (list (LruCache (list Z) (TableCatalog (SE.ScalarExpression RefForeign.ref_foreign))))
  (list (LruCache (list Z) (list Z))) unit).

(** An index "j" on the column [b] of a table with one row. *)
Lemma create_index_complete_witness :
  exists s s1 s' : WDb, create_index_exec [116] [106] [b_column] false Normal [key_column; b_column]
      [Ok (mk_tuple (Some (DV.Int32 5)) [DV.Int32 5; DV.Int32 7])] s = (Ok [build_result (str "1")], s')
    /\ (forall k, encode_index_key [116] (mk_index 2 (DV.Int32 7) Normal) (Some (DV.Int32 5)) = Ok k ->
          is_Some (contents (tx s') !! k))
    /\ (forall k, ~ in_scope CodecType.Index [116] k -> contents (tx s') !! k = contents (tx s1) !! k).
Proof.
  destruct fresh_table as (s & s0 & Ht & _ & Hc & _).
  assert (Hmeta : exists s1, add_index_meta [116] [106] [[98]] Normal s = (Ok 2, s1)).
  { unfold add_index_meta. rewrite (bind_ok _ _ _ _ _ Ht).
    rewrite (bind_ok _ _ s0 (mk_index_meta 2 [[98]] [116] LT.Integer LT.Integer [106] Normal,
      mk_table [116] (column_idxs ab_table) (columns ab_table)
        [b_index; mk_index_meta 2 [[98]] [116] LT.Integer LT.Integer [106] Normal]
        [key_column; b_column] [(0%nat, key_column)] [0%nat] (Some LT.Integer)) s0) by reflexivity.
    unfold set_index_meta, lift.
    rewrite (bind_ok _ _ s0 tt (set_tx (<[encode_index_meta_key [116] 2 := le_bytes 4 2]> (tx s0)) s0)) by reflexivity.
    set (s2 := set_tx _ s0). destruct (cache_remove_ok (table_cache s2) [116] Hc) as (old & c & Hr & _).
    exists (set_table_cache c s2). unfold bind, table_cache_remove, upd. now rewrite Hr. }
  destruct Hmeta as [s1 Hmeta].
  destruct (create_index_complete [116] [106] [b_column] false Normal [key_column; b_column]
    [mk_tuple (Some (DV.Int32 5)) [DV.Int32 5; DV.Int32 7]] 2 s s1) as (s' & E & Hin & Hout).
  - now left.
  - repeat constructor. now exists [98].
  - exact Hmeta.
  - repeat constructor. destruct (b_entry_ok 7 5) as [? | (_ & k & Hk & _)]; [discriminate |].
    eexists. reflexivity.
  - exists s, s1, s'. split; [exact E |]. split; [| exact Hout].
    intros k Hk. apply (Hin _ k (list_elem_of_here _ _)). unfold index_key_of. cbn [map].
    change (projection _ _ _) with (@Ok (DatabaseError RefForeign.ref_foreign) _ [DV.Int32 7]).
    cbn [result_bind values_to_tuple length Nat.ltb Nat.leb list.last pk]. now rewrite Hk.
Defined.

Abbreviation rep types := (represents [116] VT.Int32 types 0).

(** ADD COLUMN c INTEGER on the table with the row (5, 7). *)
Lemma add_column_exec_rows_witness :
  exists (s : WDb) r s', add_column_exec [[99]] [116] (column 99 LT.Integer) false [key_column; b_column]
      [Ok (mk_tuple (Some (DV.Int32 5)) [DV.Int32 5; DV.Int32 7])] s = (r, s')
    /\ rep [LT.Integer; LT.Integer; LT.Integer] s' {[ 5 := [DV.Int32 5; DV.Int32 7; DV.Null] ]}
    /\ contents (tx s') !! (key_prefix CodecType.Column [116] ++ [BOUND_MIN_TAG] ++ [99]) = Some [99].
Proof.
  destruct one_row as (s & Hrep & Hok & Ht). exists s.
  destruct (add_column_exec_rows [116] VT.Int32 [LT.Integer; LT.Integer] 0 eq_refl [[99]] (column 99 LT.Integer) DV.Null false
    [key_column; b_column] [mk_tuple (Some (DV.Int32 5)) [DV.Int32 5; DV.Int32 7]] s
    {[ 5 := [DV.Int32 5; DV.Int32 7] ]}) as (r & s' & E & Hrep' & Hcat).
  - reflexivity.
  - reflexivity.
  - now left.
  - repeat constructor; unfold is_byte; lia.
  - reflexivity.
  - exact Hrep.
  - unfold scanned. now rewrite map_to_list_singleton.
  - exists r, s'. split; [exact E |]. rewrite map_fmap_singleton in Hrep'. split; [exact Hrep' |].
    destruct (Hcat ab_table Hok Ht (or_introl eq_refl)) as [_ Hnew].
    exact (Hnew [99] [] [99] eq_refl eq_refl eq_refl eq_refl).
Defined.

(** A statistics cache that keeps nothing. *)
#[local] Instance no_meta_cache : Cache (list Z * Z) unit unit := {|
  cache_get _ c := Ok (None, c);
  cache_put _ _ c := Ok (None, c);
  cache_remove _ c := Ok (None, c);
  cache_get_or_insert k f c := let? v := f k in Ok (v, c)
|}.

(** DROP COLUMN b on the table with the row (5, 7). *)
Lemma drop_column_exec_rows_witness :
  exists (s : WDb) r s', drop_column_exec [116] [98] false [key_column; b_column]
      [Ok (mk_tuple (Some (DV.Int32 5)) [DV.Int32 5; DV.Int32 7])] s = (r, s')
    /\ rep [LT.Integer] s' {[ 5 := [DV.Int32 5] ]}
    /\ contents (tx s') !! (key_prefix CodecType.Column [116] ++ [BOUND_MIN_TAG] ++ [98]) = None.
Proof.
  destruct one_row as (s & Hrep & Hok & Ht). exists s.
  destruct (drop_column_exec_rows [116] VT.Int32 [LT.Integer; LT.Integer] 0 eq_refl [98] 1 b_column false
    [key_column; b_column] [mk_tuple (Some (DV.Int32 5)) [DV.Int32 5; DV.Int32 7]] s
    {[ 5 := [DV.Int32 5; DV.Int32 7] ]}) as (r & s' & E & Hrep' & Hcat).
  - reflexivity.
  - reflexivity.
  - reflexivity.
  - intros [|j] c Hj; [intros [= <-]; discriminate | lia].
  - now exists key_column.
  - exact Hrep.
  - unfold scanned. now rewrite map_to_list_singleton.
  - exists r, s'. split; [exact E |]. rewrite map_fmap_singleton in Hrep'. split; [exact Hrep' |].
    exact (Hcat ab_table b_column [98] [116] [98] Hok Ht eq_refl eq_refl eq_refl).
Defined.
End Witnesses.
